(* ===== verification/_CoqProject ===== *)
-Q . S2P
Prelude.v
StdList.v
Recency.v
KeyedList.v
Text.v
LruCache.v
WriteBackCache.v
WriteThroughCache.v
LfuCache.v
BufferManager.v
RowStore.v
ColumnStore.v
LogFileManager.v
DataFileManager.v
Files.v
Lz4Compression.v
SnappyCompression.v
Encryption.v
Arrays.v
Floats.v
BTreeIndex.v
BTreeDelete.v
HashIndex.v
TrieIndex.v
TrieHeap.v
InvertedIndex.v
RTree.v
CostEstimator.v
PlanGraph.v
LogicalPlan.v
PlanGenerator.v
PhysicalPlan.v
SqlParser.v
NosqlParser.v
JoinAlgorithms.v
QueryExecutor.v
TwoPhaseLocking.v
LockThreads.v
TimestampOrdering.v
IsolationLevels.v
Transactions.v
WriteAheadLog.v
LogReplay.v
Checkpointing.v
ConsistentHashing.v
RoundRobin.v
RangeSharding.v
HashSharding.v
MasterSlave.v
MasterLifetime.v
MultiMaster.v
Paxos.v
Raft.v
Rbac.v
AuditLog.v
DistributedQuery.v
Url.v
DistributedCache.v
Firewall.v
AuthServer.v
OAuth2.v
Grpc.v
GrpcProtocol.v
TransportSecurity.v
RpcService.v
ConfigLoader.v
Alerting.v
MetricsCollector.v
AdminConsole.v
Dashboard.v
