(* ===== verification/Prelude.v ===== *)
(** * High-Performance Database System: verification library

    ** The program

    The repository is a set of components of a database system, each in a source file of its own
    under src/, most with a small [main] that drives it: caches (caching/), storage (storage/),
    indexes (indexing/), query processing (query_processor/), transactions (transactions/),
    replication, sharding, consensus and load balancing (distributed_systems/,
    networking/), security (security/), management tools (management_tools/) and the configuration
    (config/). Most are C++; consensus, distributed queries, the distributed cache, the firewall, the
    token servers, the RPC code, the management tools and the configuration loader are Go. The
    components do not link against each other: what they share is the standard library, the way they lock a mutex, and text files as logs.
    The development follows that: one file per component, on a common base of files for what the
    sources share; a component whose threads or whose memory are modelled apart has a second file.

    ** The base

    - [Prelude] (this file): machine integers, the outcome of a C++ call ([outcome]: a return, an
      exception, a thread that never goes on, undefined behaviour), programs over a state
      ([prog], with [let!] and [;;;]), mutexes as the class [Lockable] with [lock_guard], tactics,
      interleavings of two threads, and general lemmas on lists. A call on a held mutex from the same thread is [Hang].
    - [StdList]: [std::list] with stable iterators, as nodes with identities, and the index of
      iterators the caches keep ([indexed]).
    - [Recency]: the abstract LRU cache, a recency list of pairs ([rl_get], [rl_put], [rl_run]), the
      interface [LruImpl] a cache implementation meets, and the theorems that hold of every instance.
    - [KeyedList]: the shape shared by the write-back and write-through caches, a list of blocks and a
      map from keys to its iterators.
    - [Text]: strings as the sources use them: [std::getline], [operator>>], [std::to_string],
      [std::stoi], [find] and [substr], with their round trips.
    - [Arrays]: the fixed-size arrays of B-tree nodes; an access out of bounds is [Undef].
    - [Floats]: [float] and [double] on the Standard Library's [SpecFloat]: their order, the signs of
      sums and products, and that sums of integers below 2^53 are exact ([d_add_exact]).
    - [Url]: the query of a URL as Go's [net/url] reads it.
    - [Files]: a file system as a map, for the tools that read and write whole files.
    - [Grpc]: the calls that programs make on the streams of gRPC, with the answers as arguments.
    - [PlanGraph]: nodes linked by [std::shared_ptr] in a heap, and the tree below a node.

    ** Components and theorems

    Definitions keep the names of the source functions; where two classes of one file share a name, a
    prefix tells them apart. The number of the claim is in front of each theorem's comment.

    - Caches. [LruCache] (lru_cache.cpp), [WriteBackCache], [WriteThroughCache] refine the recency list
      of [Recency]: [lru_cache_refines], [write_back_refines], [write_through_refines]
      (which says when [get] locks itself out). [LfuCache]
      (lfu_cache.cpp) refines an LFU cache whose victim is the least frequently, then least recently
      used entry ([lfu_cache_refines]). [write_back_durable]: an update of a resident block reaches the
      storage.
    - Storage. [BufferManager] (buffer_manager.cpp): pages live in a heap shared with the callers;
      [buffer_fetch_lru] and [buffer_no_lost_update]. [RowStore] and [ColumnStore] (storage_formats/)
      refine stores of lists ([row_store_refines], [column_store_refines]), and every column holds
      values of its declared type only ([column_store_typed]). [LogFileManager]
      (log_file_manager.cpp): [log_file_outcome], and the flusher thread ([flusher_stop_returns]).
      [DataFileManager] (data_file_manager.cpp): inodes,
      open streams with buffers and a failure state; [data_file_refines] for calls that stay inside the
      files and [short_read_loses_writes] for a read past the end. [Lz4Compression] and
      [SnappyCompression] (compression/): the round trip through the library, with what a wrong size
      does ([lz4_roundtrip], [snappy_run]).
    - Indexes. [BTreeIndex] (b_tree_index.cpp): the in-place insertion with node splitting keeps the
      B-tree invariant ([btree_insert_preserves]); [traverse] is the sorted list of the inserted keys
      and [search] decides membership ([btree_index_correct]). [BTreeDelete] (node.cpp): deletion with
      borrowing and merging keeps the shape and removes exactly one key ([btree_remove_correct],
      [btree_fill_bounds]). [RTree] (r_tree.cpp): insertion with splits keeps a tree that holds the
      inserted rectangles ([rtree_insert_preserves]) and search returns boxes of groups of them
      ([rtree_search_boxes]). [HashIndex] refines a finite map
      ([hash_index_refines]); [TrieIndex] is the set of its words ([trie_index_correct]),
      and [TrieHeap] the same functions on nodes behind pointers, which use no deleted node and leak
      none ([trie_memory_safe]);
      [InvertedIndex] search is exact ([inverted_index_search]).
    - Query processing. [SqlParser] (sql_parser.cpp): the texts the parser accepts, by their
      tokens, and the trees it gives, with any token in the place of FROM ([sql_parser_correct]). [NosqlParser]: [nosql_parse_statement]. [JoinAlgorithms]: the
      hash and merge joins equal the nested-loop join ([join_algorithms_agree]); [std::sort] is a parameter with its contract. [LogicalPlan]
      (logical_plan.cpp): execution prints in preorder ([logical_plan_prints]). [PlanGenerator]
      (plan_generator.cpp): the estimate is the exact sum ([plan_generator_output]). [CostEstimator]
      (cost_estimator.cpp): when the estimate is defined ([cost_estimate_defined]). [PhysicalPlan]
      (physical_plan.cpp): the nodes in a heap, with the tree predicate [owns]; the optimiser terminates
      and changes a plan only by the filters it pushes below joins, whatever [appliesTo] and the costs
      are ([physical_plan_optimised]). [QueryExecutor] (query_executor.cpp): the calls that a session
      makes on its interfaces, and where it stops, whatever they do
      ([executor_session_transactions]).
    - Transactions. [TwoPhaseLocking]: deadlock detection is exact ([deadlock_detection_exact]), grants
      stay compatible ([acquire_keeps_grants_compatible]). [LockThreads]: any threads on that manager,
      as a step relation over every public operation; what every run comes to ([lock_manager_stops]), and
      that a deadlock of waiting transactions is never reported as long as no thread releases locks
      itself ([deadlock_never_reported]). [TimestampOrdering]: accepted histories are
      serialisable in timestamp order ([timestamp_history_serialisable]) and the outcome of every
      access ([timestamp_access_outcome]). [IsolationLevels]: [repeatable_read],
      [rollback_leaves_no_trace]. [Transactions] (transactions.cpp): [transaction_life_cycle].
      [WriteAheadLog], [LogReplay], [Checkpointing]: logs read back, replay, and what recovery from
      wal.log restores ([wal_roundtrip], [log_replay_correct], [checkpoint_recovery]).
    - Distribution. [ConsistentHashing]: [consistent_hash_successor], and which keys an addition or a
      removal moves, also when two nodes share points of the ring ([consistent_hash_minimal]).
      [RoundRobin]: the worker threads as a step relation; every request is handled exactly once and
      the pool drains ([requests_exactly_once], [workers_terminate]). [RangeSharding], [HashSharding]:
      [range_sharding_refines], [hash_sharding_correct]. [MasterSlave] and [MultiMaster]: threads as
      step relations over critical sections; what is delivered in every reachable state
      ([master_slave_replication]) and when nodes converge, with a clock that may be set back
      ([multi_master_converges]).
      [MasterLifetime]: the lifetimes of the slaves and of the queue their threads use
      ([slave_lifetime]).
    - Consensus and distributed queries, in Go. [Paxos] (paxos.go): goroutines that propose, as steps of
      one critical section each; one value for each proposal number ([paxos_one_value_per_number]), and
      every proposal returns ([paxos_proposals_return]). [Raft] (raft.go): one node under any heartbeats
      and timeouts ([raft_fate]). [DistributedQuery] (distributed_query_processor.go): the slice of nodes
      with the array it shares, which refines a list ([query_nodes_refine]), and what a query returns
      ([query_results]). [DistributedCache] (distributed_cache.go): one cache, its requests as text, and
      clusters of caches, in which a write never settles ([cache_never_settles]).
    - Security. [Rbac]: access is earned and revocable ([rbac_access]). [AuditLog]: the trail is
      complete ([audit_trail]). [Firewall] (firewall.go): its decisions and its log follow from the
      history of calls ([firewall_history]). [AuthServer] (auth_server.go): the server of passwords and
      sessions it stands for ([auth_server_refines]). [OAuth2] (oauth2.go): a state is good for one
      exchange ([state_used_once]). [TransportSecurity] (encryption_in_transit.go): the secure client is
      never served by the secure server ([secure_client_never_served]). [Encryption] (encryption_at_rest.cpp): what is written and returned
      is the output of the cipher, every path frees what it holds, and when decryption overruns its
      buffer ([encryption_exact]).
    - RPC. [GrpcProtocol] (grpc_protocol.go): what each handler and each request sends, prints and
      returns, whatever the calls of gRPC answer ([server_streaming_sends], [client_streaming_answers],
      [bidirectional_streaming_replies], [server_streaming_request], [client_streaming_request],
      [bidirectional_request]). [RpcService] (rpc/): the table of the server ([rpc_get_data],
      [list_data_sends]), retries ([retry_unary_call]), and the streams of the client
      ([rpc_server_streaming], [rpc_client_streaming], [rpc_bidirectional]).
    - Management and configuration. [ConfigLoader] (config_loader.go): the keys that have a value
      ([config_value_exact]), saving and loading ([config_save_load]), validation ([validate_exact]).
      [Alerting] (alerting.go): the alerts follow from the metrics and the thresholds in force
      ([alerting_exact], [alert_level]). [MetricsCollector] (metrics_collector.go): the window of the
      last samples under any interleaving ([metrics_window]). [AdminConsole] (admin_console.go): its
      users and its end ([admin_console_users]). [Dashboard] (dashboard_setup.go): stopping waits for a
      server that serves ([dashboard_stop_waits]).

    Where the code does not do what it means to, the theorem states what it does, and an [Example]
    in the same file runs the case: for instance a first write that a write-back cache never stores
    ([first_write_lost]), a release that grants a conflicting lock ([release_grants_conflicting]), two
    masters that wait for each other ([writers_deadlock]), two values that Paxos reports as chosen
    ([two_values_chosen]). The [main] of a C++ source is a definition of its file, with what it prints.

    ** Choices

    - Integers are [Z] or [nat]; an [int] that can overflow is checked and overflow is
      [Undef signed_overflow]; [size_t] arithmetic that wraps is taken modulo 2^64.
    - The order of an unordered container is a parameter (or the order of a list that stands for it),
      and theorems hold for every order. [std::hash] is a parameter.
    - What belongs to a library or to a header that is not in the repository is a class of functions
      ([PlanEnv], [ExecEnv], [LZ4Library], [SnappyLibrary], [EVPLibrary], [AuthLib], [ConfigLib],
      [MetricsJson], [TlsLib], [FileSystem]), with a second class
      for the documented behaviour that a theorem relies on; each has an instance in its file. The
      theorems on physical plans, the executor and gRPC assume nothing of the code they call. Requests
      over HTTP between caches are steps that a cache serves.
    - Functions that are not structurally recursive have fuel. The depth of a B-tree node bounds its
      recursive calls ([depth]); the number of transactions of the wait-for graph bounds the depth-first
      search; the length of the text bounds the readers; twice the depth of a plan bounds the optimiser's
      recursion. The theorems show that this fuel is enough:
      they give results, never only partial correctness.
    - Printing is kept where it is the only effect of an operation, as a list of events or as the
      returned text; otherwise it is left out. Time is a parameter; sleeping is left out.
    - Some statements of the sources do not compile as written (a missing default constructor, a private
      member, an undeclared member); the model does what the statement is written to do.

    ** Not modelled

    Printing that has no other effect, except where it is the result of an operation or of [main];
    running out of memory; listening on and dialling addresses, beyond whether they fail; the functions
    of the admin console that only log and wait; [StreamInterceptor] of the RPC client, which does not
    fit the type it is written for; tests, scripts and configuration files. *)

From stdpp Require Export prelude gmap strings list sorting.
From Stdlib Require Export ZArith Lia.

(** ** Machine integers *)

(** [int] is 32 bits wide and [size_t] 64 bits wide on the targets of the build. *)
Definition int_min : Z := (- 2 ^ 31)%Z.
Definition int_max : Z := (2 ^ 31 - 1)%Z.
Definition size_t_mod : Z := (2 ^ 64)%Z.

(** The value fits an [int]. *)
Definition is_int (z : Z) : Prop := (int_min <= z <= int_max)%Z.

(** The implicit conversion of an [int] to [size_t]. *)
Definition to_size_t (z : Z) : Z := (z mod size_t_mod)%Z.

(** The wrap-around of a 32-bit signed addition on an [std::atomic<int>]. *)
Definition wrap_int (z : Z) : Z := ((z + 2 ^ 31) mod 2 ^ 32 - 2 ^ 31)%Z.

(** ** Outcomes of a C++ call *)

(** The exceptions the sources throw, by the standard class that carries them. *)
Inductive exn : Set :=
| runtime_error (what : string)
| out_of_range (what : string)
| invalid_argument (what : string)
| length_error (what : string)
| filesystem_error (what : string).

(** The kinds of undefined behaviour the models can reach. *)
Inductive ub : Set :=
| index_out_of_range
| empty_container
| dangling_iterator
| null_pointer
| division_by_zero
| signed_overflow
| uninitialised_read
| bad_character.

(** A call returns, throws, hangs (its thread locks a [std::mutex] it already holds, or waits for
    a notification that cannot come), or has no defined behaviour. *)
Inductive outcome (A : Type) : Type :=
| Ret (a : A)
| Throw (e : exn)
| Hang
| Undef (u : ub).
Arguments Ret {A} a.
Arguments Throw {A} e.
Arguments Hang {A}.
Arguments Undef {A} u.

Definition outcome_bind {A B : Type} (m : outcome A) (f : A -> outcome B) : outcome B :=
  match m with
  | Ret a => f a
  | Throw e => Throw e
  | Hang => Hang
  | Undef u => Undef u
  end.

#[export] Instance outcome_mret : MRet outcome := fun A a => Ret a.
#[export] Instance outcome_mbind : MBind outcome := fun A B f m => outcome_bind m f.

(** A member function of a class with state [S]: the state changes up to the point where the call
    stops, whatever the outcome. *)
Definition prog (S A : Type) : Type := S -> S * outcome A.

Definition prog_ret {S A : Type} (a : A) : prog S A := fun s => (s, Ret a).

Definition prog_bind {S A B : Type} (m : prog S A) (f : A -> prog S B) : prog S B :=
  fun s => match m s with
           | (s', Ret a) => f a s'
           | (s', Throw e) => (s', Throw e)
           | (s', Hang) => (s', Hang)
           | (s', Undef u) => (s', Undef u)
           end.

Definition prog_get {S : Type} : prog S S := fun s => (s, Ret s).
Definition prog_put {S : Type} (s : S) : prog S unit := fun _ => (s, Ret tt).
Definition prog_modify {S : Type} (f : S -> S) : prog S unit := fun s => (f s, Ret tt).
Definition prog_gets {S A : Type} (f : S -> A) : prog S A := fun s => (s, Ret (f s)).
Definition prog_throw {S A : Type} (e : exn) : prog S A := fun s => (s, Throw e).
Definition prog_undef {S A : Type} (u : ub) : prog S A := fun s => (s, Undef u).

(** A read that is undefined behaviour when there is nothing to read. *)
Definition prog_opt {S A : Type} (u : ub) (o : option A) : prog S A :=
  match o with
  | Some a => prog_ret a
  | None => prog_undef u
  end.

Declare Scope prog_scope.
Delimit Scope prog_scope with prog.
Notation "'let!' x ':=' c 'in' k" := (prog_bind c (fun x => k))
  (at level 10, x name, c at level 100, k at level 200) : prog_scope.
Notation "c ';;;' k" := (prog_bind c (fun _ => k))
  (at level 199, right associativity) : prog_scope.

(** ** Mutexes *)

(** A class with one [std::mutex] member: whether the running thread holds it. *)
Class Lockable (S : Type) : Type := {
  held : S -> bool;
  set_held : bool -> S -> S;
  held_set_held : forall b s, held (set_held b s) = b;
  set_held_held : forall s, set_held (held s) s = s;
  set_held_twice : forall b b' s, set_held b (set_held b' s) = set_held b s
}.

(** [std::lock_guard]: a [std::mutex] is not recursive, so locking it twice from one thread never
    returns; the destructor unlocks on a return and on an exception. *)
Definition lock_guard {S A : Type} `{Lockable S} (body : prog S A) : prog S A :=
  fun s =>
    if held s then (s, Hang)
    else match body (set_held true s) with
         | (s', Ret a) => (set_held false s', Ret a)
         | (s', Throw e) => (set_held false s', Throw e)
         | (s', Hang) => (s', Hang)
         | (s', Undef u) => (s', Undef u)
         end.

(** A call under a guard from a state that already holds the mutex never returns. *)
Lemma lock_guard_relock {S A : Type} `{Lockable S} (body : prog S A) (s : S) :
  held s = true -> lock_guard body s = (s, Hang).
Proof. intros Hh. unfold lock_guard. by rewrite Hh. Qed.

(** A guarded call that returns normally. *)
Lemma lock_guard_ret {S A : Type} `{Lockable S} (body : prog S A) (s s' : S) (a : A) :
  held s = false -> body (set_held true s) = (s', Ret a) ->
  lock_guard body s = (set_held false s', Ret a).
Proof. intros Hh Hb. unfold lock_guard. by rewrite Hh, Hb. Qed.

(** ** Automation *)

Create HintDb hpdb.

(** Splits conjunctions and existentials of the context, then simplifies equations. *)
Ltac inv_all :=
  repeat match goal with
    | H : _ /\ _ |- _ => destruct H
    | H : exists _, _ |- _ => destruct H
    end; simplify_eq.

(** Case analysis on every [match] and [if] of the goal and the context. *)
Ltac split_matches :=
  repeat (case_match || (progress simplify_eq/=)).

(** Runs a computation whose first step is known by the given equation. *)
Ltac obind := cbn [mbind outcome_mbind outcome_bind mret outcome_mret].
Ltac run_with H := rewrite H; obind.

(** ** Lists, options and maps *)

Lemma snoc_inv {A : Type} (l : list A) : l = [] \/ exists l' x, l = l' ++ [x].
Proof. induction l using rev_ind; eauto. Qed.

Lemma last_Some_snoc {A : Type} (l : list A) (x : A) :
  last l = Some x -> exists l', l = l' ++ [x].
Proof.
  destruct (snoc_inv l) as [->|(l' & y & ->)]; [done|].
  rewrite last_snoc. intros [= ->]. eauto.
Qed.

Lemma NoDup_fmap_inj_on {A B : Type} (f : A -> B) (l : list A) (x y : A) :
  NoDup (f <$> l) -> x ∈ l -> y ∈ l -> f x = f y -> x = y.
Proof.
  intros Hnd Hx Hy Hf. induction l as [|a l IH]; [set_solver|].
  rewrite fmap_cons, NoDup_cons in Hnd. destruct Hnd as [Ha Hnd].
  rewrite elem_of_cons in Hx, Hy.
  destruct Hx as [->|Hx], Hy as [->|Hy]; try done.
  - destruct Ha. rewrite Hf. by apply list_elem_of_fmap_2.
  - destruct Ha. rewrite <-Hf. by apply list_elem_of_fmap_2.
  - by apply IH.
Qed.

Lemma list_filter_all {A : Type} (P : A -> Prop) `{!∀ x, Decision (P x)} (l : list A) :
  Forall P l -> filter P l = l.
Proof.
  induction 1 as [|x l Hx Hl IH]; [done|]. rewrite filter_cons_True by done. by rewrite IH.
Qed.

Lemma list_filter_none {A : Type} (P : A -> Prop) `{!∀ x, Decision (P x)} (l : list A) :
  Forall (fun x => ¬ P x) l -> filter P l = [].
Proof.
  induction 1 as [|x l Hx Hl IH]; [done|]. by rewrite filter_cons_False.
Qed.

Lemma elem_of_fst {A B : Type} (l : list (A * B)) (a : A) (b : B) : (a, b) ∈ l -> a ∈ l.*1.
Proof. intros Hin. by apply (list_elem_of_fmap_2 fst) in Hin. Qed.

Lemma elem_of_fst_inv {A B : Type} (l : list (A * B)) (a : A) :
  a ∈ l.*1 -> exists b, (a, b) ∈ l.
Proof. intros Hin. apply list_elem_of_fmap in Hin as ([a' b] & -> & Hin). eauto. Qed.

(** In a list of pairs with distinct first components, a pair splits the list. *)
Lemma elem_of_split_fst {A B : Type} (l : list (A * B)) (a : A) (b : B) :
  NoDup (l.*1) -> (a, b) ∈ l ->
  exists l1 l2, l = l1 ++ (a, b) :: l2 /\ (a ∉ l1.*1) /\ (a ∉ l2.*1).
Proof.
  intros Hnd Hin. apply list_elem_of_split in Hin as (l1 & l2 & ->).
  exists l1, l2. split; [done|]. rewrite fmap_app, fmap_cons in Hnd.
  apply NoDup_app in Hnd as (? & Hd & Hnd). apply NoDup_cons in Hnd as [? ?].
  split; [|done]. intros Ha. eapply Hd; [done|]. left.
Qed.

Lemma list_filter_fmap {A B : Type} (f : A -> B) (P : B -> Prop) `{!∀ x, Decision (P x)} (l : list A) :
  filter P (f <$> l) = f <$> filter (fun x => P (f x)) l.
Proof.
  induction l as [|x l IH]; [done|]. rewrite fmap_cons, !filter_cons, IH. by case_decide.
Qed.

(** ** Two threads *)

(** The atomic calls of two threads, in some order that keeps the order of each. *)
Inductive interleaving {A : Type} : list A -> list A -> list A -> Prop :=
| il_nil : interleaving [] [] []
| il_left a l1 l2 l : interleaving l1 l2 l -> interleaving (a :: l1) l2 (a :: l)
| il_right a l1 l2 l : interleaving l1 l2 l -> interleaving l1 (a :: l2) (a :: l).

Lemma interleaving_perm {A : Type} (l1 l2 l : list A) : interleaving l1 l2 l -> l ≡ₚ l1 ++ l2.
Proof.
  induction 1 as [|a l1 l2 l _ IH|a l1 l2 l _ IH]; [done|by rewrite IH|].
  by rewrite IH, Permutation_middle.
Qed.

Lemma interleaving_Forall {A : Type} (P : A -> Prop) (l1 l2 l : list A) :
  interleaving l1 l2 l -> Forall P l1 -> Forall P l2 -> Forall P l.
Proof. intros Hl H1 H2. rewrite (interleaving_perm _ _ _ Hl). by apply Forall_app_2. Qed.

(** *** Sums over the elements of a list *)

Lemma sum_list_with_insert {A : Type} (f : A -> nat) (l : list A) (i : nat) (x y : A) :
  l !! i = Some x -> (sum_list_with f (<[i := y]> l) + f x = f y + sum_list_with f l)%nat.
Proof.
  intros Hi. rewrite <-(take_drop_middle l i x Hi) at 2.
  rewrite insert_take_drop by (by eapply lookup_lt_Some).
  rewrite !sum_list_with_app. simpl. lia.
Qed.

Lemma sum_list_with_ext {A : Type} (f f' : A -> nat) (l : list A) :
  Forall (fun x => f x = f' x) l -> sum_list_with f l = sum_list_with f' l.
Proof. induction 1 as [|x l Hx _ IH]; [done|]. simpl. by rewrite Hx, IH. Qed.
