(* ===== verification/StdList.v ===== *)
(** * [std::list] with stable iterators

    The caches keep [std::list<T>::iterator]s in hash maps next to the list.  An iterator of a
    [std::list] stays valid while other elements are inserted, erased or spliced, so it is modelled
    by the identity of its node: a list holds its nodes in order, each with an identity that no
    other node of the list ever had, and [end()] is no node at all. *)

From S2P Require Import Prelude.

Section StdList.
Context {A : Type}.

Record slist : Type := SList {
  sl_next : nat;
  sl_nodes : list (nat * A)
}.

Definition sl_empty : slist := SList 0 [].

(** The values in order. *)
Definition sl_values (l : slist) : list A := snd <$> sl_nodes l.

Definition sl_size (l : slist) : nat := length (sl_nodes l).

(** [push_front] / [emplace_front]; the new node becomes [begin()]. *)
Definition push_front (x : A) (l : slist) : slist :=
  SList (S (sl_next l)) ((sl_next l, x) :: sl_nodes l).

(** [begin()] of a list whose last operation was a [push_front]. *)
Definition sl_begin (l : slist) : option nat := fst <$> head (sl_nodes l).

Fixpoint node_deref (it : nat) (ns : list (nat * A)) : option A :=
  match ns with
  | [] => None
  | (i, x) :: ns => if decide (i = it) then Some x else node_deref it ns
  end.

(** [*it]: [None] when no node of the list has this identity (a dangling iterator). *)
Definition sl_deref (it : nat) (l : slist) : option A := node_deref it (sl_nodes l).

(** A member of [*it] assigned through the iterator. *)
Definition sl_update (it : nat) (f : A -> A) (l : slist) : slist :=
  SList (sl_next l)
    ((fun n => if decide (n.1 = it) then (n.1, f n.2) else n) <$> sl_nodes l).

(** [erase(it)]. *)
Definition sl_erase (it : nat) (l : slist) : slist :=
  SList (sl_next l) (filter (fun n => n.1 ≠ it) (sl_nodes l)).

(** [splice(begin(), *this, it)]: the node moves to the front and keeps its identity. *)
Definition sl_splice_front (it : nat) (l : slist) : slist :=
  SList (sl_next l)
    (filter (fun n => n.1 = it) (sl_nodes l) ++ filter (fun n => n.1 ≠ it) (sl_nodes l)).

(** [back()] and [pop_back()]; both are undefined on an empty list. *)
Definition sl_back (l : slist) : option A := snd <$> last (sl_nodes l).

Definition pop_back (l : slist) : slist :=
  SList (sl_next l) (removelast (sl_nodes l)).

(** ** Well-formedness *)

(** Node identities are pairwise distinct and were all handed out already. *)
Definition sl_wf (l : slist) : Prop :=
  NoDup (fst <$> sl_nodes l) /\ Forall (fun n => n.1 < sl_next l) (sl_nodes l).

Lemma sl_wf_empty : sl_wf sl_empty.
Proof. split; constructor. Qed.

Lemma sl_wf_fresh l x : sl_wf l -> (sl_next l, x) ∉ sl_nodes l.
Proof. intros [_ Hlt] Hin. rewrite Forall_forall in Hlt. apply Hlt in Hin. simpl in Hin. lia. Qed.

Lemma sl_wf_push_front x l : sl_wf l -> sl_wf (push_front x l).
Proof.
  intros Hwf. pose proof Hwf as [Hnd Hlt]. split; simpl.
  - constructor; [|done]. intros Hin. apply list_elem_of_fmap in Hin as ([i y] & Heq & Hin).
    simpl in Heq; subst. by eapply sl_wf_fresh.
  - constructor; [simpl; lia|]. eapply Forall_impl; [done|]. simpl; lia.
Qed.

(** Dropping, or permuting, nodes keeps a list well formed. *)
Lemma sl_wf_sub l ns :
  sl_wf l -> ns ⊆+ sl_nodes l -> sl_wf (SList (sl_next l) ns).
Proof.
  intros [Hnd Hlt] Hsub. split; simpl.
  - apply submseteq_Permutation in Hsub as [k Hp].
    rewrite Hp, fmap_app in Hnd. by apply NoDup_app in Hnd as [? _].
  - apply Forall_forall. intros n Hn. rewrite Forall_forall in Hlt. apply Hlt.
    by eapply elem_of_submseteq.
Qed.

Lemma sl_wf_erase it l : sl_wf l -> sl_wf (sl_erase it l).
Proof. intros. apply sl_wf_sub; [done|]. apply sublist_submseteq, sublist_filter. Qed.

Lemma sl_wf_splice_front it l : sl_wf l -> sl_wf (sl_splice_front it l).
Proof. intros. apply sl_wf_sub; [done|]. by rewrite filter_app_complement. Qed.

Lemma removelast_snoc {B : Type} (l : list B) (x : B) : removelast (l ++ [x]) = l.
Proof. apply List.removelast_last. Qed.

Lemma sl_wf_pop_back l : sl_wf l -> sl_wf (pop_back l).
Proof.
  intros. apply sl_wf_sub; [done|].
  destruct (snoc_inv (sl_nodes l)) as [->|(ns & n & ->)]; [done|].
  rewrite removelast_snoc. by apply submseteq_inserts_r.
Qed.

Lemma sl_wf_update it f l : sl_wf l -> sl_wf (sl_update it f l).
Proof.
  intros [Hnd Hlt]. split; simpl.
  - rewrite <-list_fmap_compose. erewrite list_fmap_ext; [exact Hnd|].
    intros i [j x] _. simpl. by destruct (decide (j = it)).
  - rewrite Forall_fmap. eapply Forall_impl; [done|].
    intros [j x]; simpl. by destruct (decide (j = it)).
Qed.

(** ** Dereferencing *)

Lemma node_deref_Some it x ns :
  NoDup (fst <$> ns) -> node_deref it ns = Some x <-> (it, x) ∈ ns.
Proof.
  induction ns as [|[i y] ns IH]; simpl; intros Hnd; [set_solver|].
  apply NoDup_cons in Hnd as [Hi Hnd]. rewrite elem_of_cons.
  destruct (decide (i = it)) as [->|Hne].
  - split; [intros [= ->]; auto|]. intros [[= ->]|Hin]; [done|].
    destruct Hi. apply (list_elem_of_fmap_2 fst) in Hin. done.
  - rewrite IH by done. split; [by right|]. intros [[= ? ?]|?]; [congruence|done].
Qed.

Lemma sl_deref_Some it x l : sl_wf l -> sl_deref it l = Some x <-> (it, x) ∈ sl_nodes l.
Proof. intros [Hnd _]. by apply node_deref_Some. Qed.

(** An identity names one node: two values under it are equal. *)
Lemma sl_wf_functional l it x y :
  sl_wf l -> (it, x) ∈ sl_nodes l -> (it, y) ∈ sl_nodes l -> x = y.
Proof.
  intros Hwf Hx Hy. apply (sl_deref_Some it x) in Hx; [|done].
  apply (sl_deref_Some it y) in Hy; [|done]. congruence.
Qed.

(** A node splits its list, and [erase] and [splice] act on the split. *)
Lemma sl_wf_split l it x :
  sl_wf l -> (it, x) ∈ sl_nodes l -> exists n1 n2,
    sl_nodes l = n1 ++ (it, x) :: n2 /\
    sl_nodes (sl_erase it l) = n1 ++ n2 /\
    sl_nodes (sl_splice_front it l) = (it, x) :: n1 ++ n2.
Proof.
  intros [Hnd _] Hin.
  destruct (elem_of_split_fst _ _ _ Hnd Hin) as (n1 & n2 & Hn & H1 & H2).
  exists n1, n2. split; [done|]. simpl. rewrite Hn.
  assert (He : filter (fun n => n.1 ≠ it) (n1 ++ (it, x) :: n2) = n1 ++ n2).
  { rewrite filter_app, filter_cons_False by (simpl; auto).
    rewrite !list_filter_all; [done|..]; apply Forall_forall; intros [j y] Hj; simpl; intros ->;
      apply elem_of_fst in Hj; contradiction. }
  rewrite He. split; [done|]. rewrite filter_app, filter_cons_True by done.
  rewrite !list_filter_none; [done|..]; apply Forall_forall; intros [j y] Hj; simpl; intros ->;
    apply elem_of_fst in Hj; contradiction.
Qed.

Lemma sl_erase_update it f l : sl_erase it (sl_update it f l) = sl_erase it l.
Proof.
  unfold sl_erase, sl_update. simpl. f_equal.
  induction (sl_nodes l) as [|[j z] ns IH]; [done|]. rewrite fmap_cons, !filter_cons. simpl.
  destruct (decide (j = it)) as [->|Hj]; simpl.
  - rewrite !decide_False by auto. done.
  - rewrite !decide_True by done. f_equal. exact IH.
Qed.

Lemma sl_back_snoc l x :
  sl_back l = Some x -> exists ns i, sl_nodes l = ns ++ [(i, x)].
Proof.
  unfold sl_back. destruct (last (sl_nodes l)) as [[i y]|] eqn:Hl; [|done].
  simpl. intros [= ->]. apply last_Some_snoc in Hl as [ns ->]. eauto.
Qed.
End StdList.
Arguments slist : clear implicits.

#[export] Hint Resolve sl_wf_empty sl_wf_push_front sl_wf_erase sl_wf_splice_front sl_wf_pop_back
  sl_wf_update : hpdb.

(** ** A list indexed by a hash map of iterators

    The invariant every cache keeps between its list and its map: a key is bound to an iterator
    exactly when the iterator's node holds that key. *)

Section Indexed.
Context {A : Type} (key : A -> Z).

Definition indexed (m : gmap Z nat) (l : slist A) : Prop :=
  sl_wf l /\ forall k it, m !! k = Some it <-> exists x, (it, x) ∈ sl_nodes l /\ key x = k.

Definition sl_keys (l : slist A) : list Z := (fun n => key n.2) <$> sl_nodes l.

Lemma indexed_empty : indexed ∅ sl_empty.
Proof.
  split; [auto with hpdb|]. intros k it. rewrite lookup_empty. split; [done|].
  intros (x & Hin & _). by apply not_elem_of_nil in Hin.
Qed.

Lemma indexed_deref m l k it :
  indexed m l -> m !! k = Some it -> exists x, sl_deref it l = Some x /\ key x = k.
Proof.
  intros [Hwf Hm] Hk. apply Hm in Hk as (x & Hin & Hx). exists x.
  by rewrite sl_deref_Some.
Qed.

(** Two nodes with one key are one node. *)
Lemma indexed_inj m l n1 n2 :
  indexed m l -> n1 ∈ sl_nodes l -> n2 ∈ sl_nodes l -> key n1.2 = key n2.2 -> n1 = n2.
Proof.
  destruct n1 as [i x], n2 as [j y]. intros [Hwf Hm] Hx Hy Hk. simpl in Hk.
  assert (Hi : m !! key x = Some i) by (apply Hm; eauto).
  assert (Hj : m !! key x = Some j) by (apply Hm; eauto).
  simplify_eq. f_equal. by eapply sl_wf_functional.
Qed.

Lemma indexed_NoDup m l : indexed m l -> NoDup (sl_keys l).
Proof.
  intros Hix. apply NoDup_fmap_2_strong.
  - intros n1 n2. by apply (indexed_inj m).
  - destruct Hix as [[Hnd _] _]. by eapply NoDup_fmap_1.
Qed.

Lemma indexed_elem m l k : indexed m l -> is_Some (m !! k) <-> k ∈ sl_keys l.
Proof.
  intros [Hwf Hm]. unfold sl_keys. rewrite list_elem_of_fmap. split.
  - intros [it Hk]. apply Hm in Hk as (x & Hin & <-). by exists (it, x).
  - intros ([it x] & -> & Hin). exists it. apply Hm. eauto.
Qed.

Lemma indexed_None m l k : indexed m l -> m !! k = None <-> k ∉ sl_keys l.
Proof. intros Hix. rewrite <-(indexed_elem m l k Hix), eq_None_not_Some. done. Qed.

(** The map and the list have as many elements. *)
Lemma indexed_size m l : indexed m l -> size m = sl_size l.
Proof.
  intros Hix. unfold sl_size. rewrite <-size_dom.
  replace (dom m) with (list_to_set (sl_keys l) : gset Z).
  - rewrite size_list_to_set by (by eapply indexed_NoDup). apply length_fmap.
  - apply set_eq. intros k. rewrite elem_of_list_to_set, elem_of_dom.
    symmetry. by apply indexed_elem.
Qed.

Lemma indexed_push_front m l x :
  indexed m l -> m !! key x = None -> indexed (<[key x := sl_next l]> m) (push_front x l).
Proof.
  intros Hix Hn. pose proof Hix as [Hwf Hm]. split; [auto with hpdb|].
  intros k it. unfold push_front; simpl. rewrite lookup_insert.
  destruct (decide (key x = k)) as [<-|Hne].
  - split; [intros [= <-]; exists x; split; [left|done]|].
    intros (y & Hin & Hy). apply elem_of_cons in Hin as [[= -> ->]|Hin]; [done|].
    assert (m !! key x = Some it) by (apply Hm; eauto). congruence.
  - rewrite Hm. split; intros (y & Hin & Hy); exists y; split; try done.
    + by right.
    + apply elem_of_cons in Hin as [[= -> ->]|Hin]; [congruence|done].
Qed.

(** Reordering the nodes changes nothing for the map. *)
Lemma indexed_perm m l l' :
  indexed m l -> sl_next l' = sl_next l -> sl_nodes l' ≡ₚ sl_nodes l -> indexed m l'.
Proof.
  intros [[Hnd Hlt] Hm] Hnext Hp. split.
  - split; [by rewrite Hp|]. rewrite Hnext, Hp. done.
  - intros k it. setoid_rewrite Hp. apply Hm.
Qed.

Lemma indexed_splice_front m l it : indexed m l -> indexed m (sl_splice_front it l).
Proof. intros Hix. eapply indexed_perm; [done..|]. simpl. by rewrite filter_app_complement. Qed.

(** Erasing a node and its key. *)
Lemma indexed_erase m l k it :
  indexed m l -> m !! k = Some it -> indexed (delete k m) (sl_erase it l).
Proof.
  intros Hix Hk. pose proof Hix as [Hwf Hm]. split; [auto with hpdb|].
  intros j i. simpl. setoid_rewrite list_elem_of_filter. simpl.
  rewrite lookup_delete. destruct (decide (k = j)) as [->|Hne].
  - split; [done|]. intros (x & [Hi Hin] & Hx). destruct Hi.
    assert (m !! j = Some i) by (apply Hm; eauto). congruence.
  - rewrite Hm. split; intros (x & Hin & Hx); exists x; [|by destruct Hin].
    split; [|done]. split; [|done]. intros ->. apply Hm in Hk as (y & Hiny & Hy).
    rewrite (sl_wf_functional l it x y) in Hx by done. congruence.
Qed.

Lemma indexed_pop_back m l x ns i :
  indexed m l -> sl_nodes l = ns ++ [(i, x)] -> indexed (delete (key x) m) (pop_back l).
Proof.
  intros Hix Hns. pose proof Hix as [[Hnd Hlt] Hm].
  assert (Hk : m !! key x = Some i) by (apply Hm; exists x; split; [rewrite Hns; apply elem_of_app; right; left|done]).
  pose proof (indexed_erase m l (key x) i Hix Hk) as He.
  replace (pop_back l) with (sl_erase i l); [done|].
  unfold pop_back, sl_erase. f_equal. rewrite Hns, removelast_snoc, filter_app.
  rewrite (filter_cons_False _ (i, x)) by (simpl; auto). rewrite filter_nil, app_nil_r.
  apply list_filter_all, Forall_forall. intros [j y] Hin; simpl. intros ->.
  rewrite Hns, fmap_app in Hnd. apply NoDup_app in Hnd as (_ & Hd & _).
  apply elem_of_fst, Hd in Hin. apply Hin. left.
Qed.

Lemma indexed_update m l it f :
  (forall x, key (f x) = key x) -> indexed m l -> indexed m (sl_update it f l).
Proof.
  intros Hf [Hwf Hm]. split; [auto with hpdb|].
  intros k i. rewrite Hm. simpl. setoid_rewrite list_elem_of_fmap. split.
  - intros (x & Hin & Hx). destruct (decide (i = it)) as [->|Hne].
    + exists (f x). split; [|by rewrite Hf]. exists (it, x). simpl. by rewrite decide_True.
    + exists x. split; [|done]. exists (i, x). simpl. by rewrite decide_False.
  - intros (y & ([j x] & Heq & Hin) & Hy). simpl in Heq.
    destruct (decide (j = it)); simplify_eq; by exists x.
Qed.
End Indexed.

#[export] Hint Resolve indexed_empty indexed_splice_front : hpdb.
