(* ===== verification/Recency.v ===== *)
(** * What a least-recently-used cache promises

    The abstract cache is the list of its entries, most recently used first.  [LruImpl] is the
    interface that the concrete caches of [caching/] implement; the working-set theorem is proved
    once against it. *)

From S2P Require Import Prelude.
Local Open Scope Z_scope.

Abbreviation entry := (Z * Z)%type.

(** The entries under a key. *)
Fixpoint rl_find (k : Z) (l : list entry) : option Z :=
  match l with
  | [] => None
  | (j, v) :: l => if decide (j = k) then Some v else rl_find k l
  end.

Definition rl_without (k : Z) (l : list entry) : list entry := filter (fun e => e.1 ≠ k) l.

(** A hit moves the entry to the front; a miss changes nothing. *)
Definition rl_touch (k : Z) (l : list entry) : list entry :=
  filter (fun e => e.1 = k) l ++ rl_without k l.

(** A write puts the entry in front and drops what no longer fits. *)
Definition rl_put (cap : nat) (k v : Z) (l : list entry) : list entry :=
  take cap ((k, v) :: rl_without k l).

Inductive cache_op : Type :=
| OpGet (k : Z)
| OpPut (k v : Z).

Definition op_key (o : cache_op) : Z :=
  match o with OpGet k => k | OpPut k _ => k end.

Definition rl_step (cap : nat) (o : cache_op) (l : list entry) : list entry :=
  match o with
  | OpGet k => rl_touch k l
  | OpPut k v => rl_put cap k v l
  end.

Definition rl_run (cap : nat) (os : list cache_op) (l : list entry) : list entry :=
  foldl (fun l o => rl_step cap o l) l os.

(** ** The interface *)

Class LruImpl (St : Type) : Type := {
  li_inv : St -> Prop;
  li_abs : St -> list entry;
  li_cap : St -> nat;
  li_get : Z -> prog St Z;
  li_put : Z -> Z -> prog St unit;
  li_inv_abs : forall s, li_inv s ->
    NoDup ((li_abs s).*1) /\ (length (li_abs s) <= li_cap s)%nat /\ (0 < li_cap s)%nat;
  li_get_ok : forall k s, li_inv s -> exists s',
    li_get k s = (s', Ret (default (-1) (rl_find k (li_abs s)))) /\
    li_inv s' /\ li_abs s' = rl_touch k (li_abs s) /\ li_cap s' = li_cap s;
  li_put_ok : forall k v s, li_inv s -> exists s',
    li_put k v s = (s', Ret tt) /\
    li_inv s' /\ li_abs s' = rl_put (li_cap s) k v (li_abs s) /\ li_cap s' = li_cap s
}.

(** One operation, and a sequence of them, on an implementation. *)
Definition li_step {St : Type} `{LruImpl St} (o : cache_op) : prog St unit :=
  match o with
  | OpGet k => prog_bind (li_get k) (fun _ => prog_ret tt)
  | OpPut k v => li_put k v
  end.

Fixpoint li_run {St : Type} `{LruImpl St} (os : list cache_op) : prog St unit :=
  match os with
  | [] => prog_ret tt
  | o :: os => prog_bind (li_step o) (fun _ => li_run os)
  end.

(** ** Lemmas on the abstract cache *)

Lemma rl_find_elem k v l : NoDup (l.*1) -> rl_find k l = Some v <-> (k, v) ∈ l.
Proof.
  induction l as [|[j w] l IH]; simpl; intros Hnd; [set_solver|].
  apply NoDup_cons in Hnd as [Hj Hnd]. rewrite elem_of_cons.
  destruct (decide (j = k)) as [->|Hne].
  - split; [intros [= ->]; auto|]. intros [[= ->]|Hin]; [done|].
    destruct Hj. apply (list_elem_of_fmap_2 fst) in Hin. done.
  - rewrite IH by done. split; [by right|]. intros [[= ? ?]|?]; [congruence|done].
Qed.

Lemma rl_find_None k l : rl_find k l = None <-> k ∉ l.*1.
Proof.
  induction l as [|[j w] l IH]; simpl.
  - split; [intros _ Hin; by apply not_elem_of_nil in Hin|done].
  - rewrite not_elem_of_cons. destruct (decide (j = k)) as [->|Hne]; [naive_solver|].
    rewrite IH. naive_solver.
Qed.

Lemma rl_without_app k l1 l2 : rl_without k (l1 ++ l2) = rl_without k l1 ++ rl_without k l2.
Proof. apply filter_app. Qed.

Lemma rl_without_id k l : k ∉ l.*1 -> rl_without k l = l.
Proof.
  intros Hk. apply list_filter_all. apply Forall_forall. intros [j v] Hin. simpl.
  intros ->. by apply elem_of_fst, Hk in Hin.
Qed.

Lemma rl_without_keys k l j : j ∈ (rl_without k l).*1 <-> j ≠ k /\ j ∈ l.*1.
Proof.
  split.
  - intros Hj. apply elem_of_fst_inv in Hj as [v Hin].
    apply list_elem_of_filter in Hin as [Hne Hin]. eauto using elem_of_fst.
  - intros [Hne Hj]. apply elem_of_fst_inv in Hj as [v Hin].
    apply elem_of_fst with v. by apply list_elem_of_filter.
Qed.

Lemma NoDup_rl_without k l : NoDup (l.*1) -> NoDup ((rl_without k l).*1).
Proof.
  intros Hnd. eapply sublist_NoDup; [done|]. apply fmap_sublist, sublist_filter.
Qed.

Lemma filter_key_none k l : k ∉ l.*1 -> filter (fun e : entry => e.1 = k) l = [].
Proof.
  intros Hk. apply list_filter_none, Forall_forall. intros [j v] Hin; simpl. intros ->.
  by apply elem_of_fst, Hk in Hin.
Qed.

Lemma rl_touch_miss k l : k ∉ l.*1 -> rl_touch k l = l.
Proof. intros Hk. unfold rl_touch. by rewrite rl_without_id, filter_key_none. Qed.

Lemma rl_without_middle k v l1 l2 :
  k ∉ l1.*1 -> k ∉ l2.*1 -> rl_without k (l1 ++ (k, v) :: l2) = l1 ++ l2.
Proof.
  intros H1 H2. rewrite rl_without_app. unfold rl_without at 2.
  rewrite filter_cons_False by (simpl; auto). fold (rl_without k l2). by rewrite !rl_without_id.
Qed.

Lemma rl_touch_hit k v l1 l2 :
  k ∉ l1.*1 -> k ∉ l2.*1 -> rl_touch k (l1 ++ (k, v) :: l2) = (k, v) :: l1 ++ l2.
Proof.
  intros H1 H2. unfold rl_touch. rewrite rl_without_middle by done.
  by rewrite filter_app, filter_cons_True, !filter_key_none.
Qed.

Lemma NoDup_rl_touch k l : NoDup (l.*1) -> NoDup ((rl_touch k l).*1).
Proof.
  intros Hnd. unfold rl_touch, rl_without.
  by rewrite (filter_app_complement (fun e : entry => e.1 = k)).
Qed.

Lemma NoDup_rl_put cap k v l : NoDup (l.*1) -> NoDup ((rl_put cap k v l).*1).
Proof.
  intros Hnd. unfold rl_put. rewrite fmap_take.
  eapply sublist_NoDup; [|apply sublist_take]. rewrite fmap_cons. constructor.
  - rewrite rl_without_keys. naive_solver.
  - by apply NoDup_rl_without.
Qed.

(** ** The working-set property *)

(** [k] is bound to [v] and every entry in front of it has a key in [K]. *)
Definition behind (K : gset Z) (k v : Z) (l : list entry) : Prop :=
  exists l1 l2, l = l1 ++ (k, v) :: l2 /\ forall j, j ∈ l1.*1 -> j ∈ K.

Lemma behind_mono (K K' : gset Z) k v l : K ⊆ K' -> behind K k v l -> behind K' k v l.
Proof. intros HK (l1 & l2 & -> & Hin). exists l1, l2. split; [done|]. auto. Qed.

Lemma length_keys_le (K : gset Z) (l : list Z) :
  NoDup l -> (forall j, j ∈ l -> j ∈ K) -> (length l <= size K)%nat.
Proof.
  intros Hnd Hin. rewrite <-(size_list_to_set (C := gset Z)) by done.
  apply subseteq_size. intros j Hj. apply Hin. by apply elem_of_list_to_set in Hj.
Qed.

Lemma behind_get K k v j l :
  NoDup (l.*1) -> j ≠ k -> behind K k v l -> behind ({[j]} ∪ K) k v (rl_touch j l).
Proof.
  intros Hnd Hne (l1 & l2 & -> & Hin).
  exists (filter (fun e => e.1 = j) (l1 ++ (k, v) :: l2) ++ rl_without j l1), (rl_without j l2).
  split.
  - unfold rl_touch. rewrite rl_without_app, <-app_assoc. f_equal. f_equal.
    unfold rl_without at 1. by rewrite filter_cons_True.
  - intros i Hi. rewrite fmap_app, elem_of_app in Hi. destruct Hi as [Hi|Hi].
    + apply elem_of_fst_inv in Hi as [w Hi]. apply list_elem_of_filter in Hi as [? _].
      simpl in *. set_solver.
    + apply rl_without_keys in Hi as [_ Hi]. set_solver.
Qed.

Lemma behind_touch K k v l : NoDup (l.*1) -> behind K k v l -> behind K k v (rl_touch k l).
Proof.
  intros Hnd (l1 & l2 & -> & Hin).
  destruct (elem_of_split_fst (l1 ++ (k, v) :: l2) k v Hnd) as (m1 & m2 & -> & ? & ?);
    [set_solver|].
  rewrite rl_touch_hit by done. exists [], (m1 ++ m2). split; [done|]. simpl. set_solver.
Qed.

Lemma behind_put cap K k v j w l :
  NoDup (l.*1) -> j ≠ k -> k ∉ K -> (size ({[j]} ∪ K) < cap)%nat ->
  behind K k v l -> behind ({[j]} ∪ K) k v (rl_put cap j w l).
Proof.
  intros Hnd Hne Hk Hsz (l1 & l2 & -> & Hin).
  unfold rl_put. rewrite rl_without_app. unfold rl_without at 2.
  rewrite filter_cons_True by done. fold (rl_without j l2).
  assert (Hlen : (length ((j, w) :: rl_without j l1) <= size ({[j]} ∪ K))%nat).
  { rewrite <-(length_fmap fst). apply length_keys_le.
    - rewrite fmap_cons. constructor; [rewrite rl_without_keys; naive_solver|].
      apply NoDup_rl_without. rewrite fmap_app in Hnd. by apply NoDup_app in Hnd as [? _].
    - intros i. rewrite fmap_cons, elem_of_cons. intros [->|Hi]; simpl; [set_solver|].
      apply rl_without_keys in Hi as [_ Hi]. set_solver. }
  rewrite app_comm_cons, take_app_ge by lia.
  destruct (cap - length ((j, w) :: rl_without j l1))%nat as [|n] eqn:Hn; [lia|].
  exists ((j, w) :: rl_without j l1), (take n (rl_without j l2)). split; [done|].
  intros i. rewrite fmap_cons, elem_of_cons. intros [->|Hi]; simpl; [set_solver|].
  apply rl_without_keys in Hi as [_ Hi]. set_solver.
Qed.

(** The keys other than [k] that the operations use. *)
Definition other_keys (k : Z) (os : list cache_op) : gset Z :=
  list_to_set (op_key <$> os) ∖ {[k]}.

(** No operation overwrites [k]. *)
Definition no_put (k : Z) (os : list cache_op) : Prop :=
  Forall (fun o => match o with OpPut j _ => j ≠ k | OpGet _ => True end) os.

Lemma NoDup_rl_step cap o l : NoDup (l.*1) -> NoDup ((rl_step cap o l).*1).
Proof. destruct o; simpl; auto using NoDup_rl_touch, NoDup_rl_put. Qed.

Lemma behind_step cap K k v o l :
  NoDup (l.*1) -> k ∉ K -> no_put k [o] -> (size (other_keys k [o] ∪ K) < cap)%nat ->
  behind K k v l -> behind (other_keys k [o] ∪ K) k v (rl_step cap o l).
Proof.
  intros Hnd Hk Hnp Hsz Hb. unfold other_keys in *. simpl in *.
  unfold no_put in Hnp. rewrite Forall_singleton in Hnp. destruct (decide (op_key o = k)) as [Heq|Hne].
  - apply behind_mono with K; [set_solver|].
    destruct o; simpl in *; subst; [by apply behind_touch|done].
  - replace (({[op_key o]} ∪ ∅) ∖ {[k]}) with ({[op_key o]} : gset Z) in * by set_solver.
    destruct o; simpl in *; [by apply behind_get|by apply behind_put].
Qed.

Lemma other_keys_cons k o os : other_keys k (o :: os) = other_keys k [o] ∪ other_keys k os.
Proof. unfold other_keys. simpl. set_solver. Qed.

Lemma behind_run cap k v os : forall K l,
  NoDup (l.*1) -> k ∉ K -> no_put k os -> (size (other_keys k os ∪ K) < cap)%nat ->
  behind K k v l -> NoDup ((rl_run cap os l).*1) /\ behind (other_keys k os ∪ K) k v (rl_run cap os l).
Proof.
  induction os as [|o os IH]; intros K l Hnd Hk Hnp Hsz Hb.
  - split; [done|]. eapply behind_mono; [|done]. set_solver.
  - apply Forall_cons in Hnp as [Ho Hos]. rewrite other_keys_cons in Hsz |- *.
    assert (Hstep : behind (other_keys k [o] ∪ K) k v (rl_step cap o l)).
    { apply behind_step; [done..|by apply Forall_singleton| |done].
      eapply Nat.le_lt_trans; [|exact Hsz]. apply subseteq_size. set_solver. }
    replace (other_keys k [o] ∪ other_keys k os ∪ K)
      with (other_keys k os ∪ (other_keys k [o] ∪ K)) in * by set_solver.
    apply IH; [by apply NoDup_rl_step| |done..].
    unfold other_keys. set_solver.
Qed.

Section Client.
Context {St : Type} `{LruImpl St}.

(** An implementation follows the abstract cache step by step. *)
Lemma li_step_ok o s : li_inv s -> exists s',
  li_step o s = (s', Ret tt) /\
  li_inv s' /\ li_abs s' = rl_step (li_cap s) o (li_abs s) /\ li_cap s' = li_cap s.
Proof.
  intros Hs. destruct o as [k|k v]; simpl.
  - destruct (li_get_ok k s Hs) as (s' & Hg & Hi & Ha & Hc). exists s'.
    unfold prog_bind. by rewrite Hg.
  - by apply li_put_ok.
Qed.

Lemma li_run_ok os : forall s, li_inv s -> exists s',
  li_run os s = (s', Ret tt) /\
  li_inv s' /\ li_abs s' = rl_run (li_cap s) os (li_abs s) /\ li_cap s' = li_cap s.
Proof.
  induction os as [|o os IH]; intros s Hs; simpl.
  - exists s. done.
  - destruct (li_step_ok o s Hs) as (s1 & Ho & Hi & Ha & Hc).
    destruct (IH s1 Hi) as (s2 & Hr & Hi2 & Ha2 & Hc2).
    exists s2. unfold prog_bind. rewrite Ho, Hr. rewrite Ha2, Hc2, Ha, Hc. done.
Qed.

(** A value put into the cache is returned by a later [get] as long as fewer than [cap] other keys
    were used in between, whatever the operations were. *)
Lemma lru_working_set k v os s :
  li_inv s -> no_put k os -> (size (other_keys k os) < li_cap s)%nat ->
  exists s1 s2 s3,
    li_put k v s = (s1, Ret tt) /\ li_run os s1 = (s2, Ret tt) /\ li_get k s2 = (s3, Ret v).
Proof.
  intros Hs Hnp Hsz.
  destruct (li_put_ok k v s Hs) as (s1 & Hp & Hi1 & Ha1 & Hc1).
  destruct (li_run_ok os s1 Hi1) as (s2 & Hr & Hi2 & Ha2 & Hc2).
  destruct (li_get_ok k s2 Hi2) as (s3 & Hg & _).
  destruct (li_inv_abs s Hs) as (Hnd & _ & Hcap).
  exists s1, s2, s3. split; [done|]. split; [done|]. rewrite Hg. do 2 f_equal.
  assert (Hb : behind ∅ k v (li_abs s1)).
  { rewrite Ha1. unfold rl_put. destruct (li_cap s) as [|n]; [lia|].
    exists [], (take n (rl_without k (li_abs s))). split; [done|]. simpl. set_solver. }
  destruct (behind_run (li_cap s1) k v os ∅ (li_abs s1)) as [Hnd2 (l1 & l2 & Heq & _)];
    [rewrite Ha1; by apply NoDup_rl_put|set_solver|done| |done|].
  { rewrite (right_id_L ∅ (∪)), Hc1. done. }
  rewrite <-Ha2 in *. assert (Hf : rl_find k (li_abs s2) = Some v).
  { apply rl_find_elem; [done|]. rewrite Heq. set_solver. }
  by rewrite Hf.
Qed.
End Client.
