(* ===== verification/KeyedList.v ===== *)
(** * An indexed list as a recency list

    The write-back and the write-through cache keep their blocks in a [std::list] with a hash map of
    iterators.  Seen through the keys and values of its blocks such a list is a recency list, and
    splicing, updating, pushing and popping are the abstract operations. *)

From S2P Require Import Prelude StdList Recency.

Section KeyedList.
Context {A : Type} (key value : A -> Z).

Definition kl_entry (n : nat * A) : entry := (key n.2, value n.2).
Definition kl_abs (l : slist A) : list entry := kl_entry <$> sl_nodes l.

Lemma kl_abs_keys l : (kl_abs l).*1 = sl_keys key l.
Proof. unfold kl_abs. rewrite <-list_fmap_compose. done. Qed.

Lemma kl_abs_length l : length (kl_abs l) = sl_size l.
Proof. apply length_fmap. Qed.

Lemma kl_abs_NoDup m l : indexed key m l -> NoDup ((kl_abs l).*1).
Proof. intros Hix. rewrite kl_abs_keys. by eapply indexed_NoDup. Qed.

Lemma kl_miss m l k : indexed key m l -> m !! k = None -> k ∉ (kl_abs l).*1.
Proof. intros Hix Hk. rewrite kl_abs_keys. by apply (indexed_None key m). Qed.

Lemma splice_split (l : slist A) n1 it b n2 :
  sl_nodes l = n1 ++ (it, b) :: n2 -> it ∉ n1.*1 -> it ∉ n2.*1 ->
  sl_nodes (sl_splice_front it l) = (it, b) :: n1 ++ n2.
Proof.
  intros Hn H1 H2. unfold sl_splice_front. simpl. rewrite Hn.
  rewrite !filter_app, filter_cons_True, filter_cons_False by (simpl; auto).
  rewrite !(list_filter_none (fun n : nat * A => n.1 = it)), !list_filter_all; [done|..];
    apply Forall_forall; intros [j y] Hj; simpl; intros ->; apply elem_of_fst in Hj; done.
Qed.

Lemma update_split (l : slist A) f n1 it b n2 :
  sl_nodes l = n1 ++ (it, b) :: n2 -> it ∉ n1.*1 -> it ∉ n2.*1 ->
  sl_nodes (sl_update it f l) = n1 ++ (it, f b) :: n2.
Proof.
  intros Hn H1 H2. unfold sl_update. simpl. rewrite Hn, fmap_app, fmap_cons. simpl.
  rewrite decide_True by done.
  assert (Hid : forall ns : list (nat * A), it ∉ ns.*1 ->
    (fun n => if decide (n.1 = it) then (n.1, f n.2) else n) <$> ns = ns).
  { intros ns Hns. rewrite <-(list_fmap_id ns) at 2. apply list_fmap_ext.
    intros i [j y] Hj. simpl. rewrite decide_False; [done|]. intros ->.
    apply list_elem_of_lookup_2, elem_of_fst in Hj. done. }
  by rewrite !Hid.
Qed.

(** A resident key: its block, and the list around it. *)
Lemma kl_hit m l k it :
  indexed key m l -> m !! k = Some it -> exists b n1 n2,
    sl_deref it l = Some b /\ key b = k /\ sl_nodes l = n1 ++ (it, b) :: n2 /\
    (k ∉ (kl_entry <$> n1).*1) /\ (k ∉ (kl_entry <$> n2).*1) /\ (it ∉ n1.*1) /\ (it ∉ n2.*1).
Proof.
  intros Hix Hk. pose proof Hix as [[Hni _] _].
  destruct (indexed_deref key _ _ k it Hix Hk) as (b & Hd & Hb).
  pose proof (kl_abs_NoDup m l Hix) as Hnd.
  apply (sl_deref_Some it b) in Hd as Hin; [|apply Hix].
  destruct (elem_of_split_fst _ _ _ Hni Hin) as (n1 & n2 & Hn & Hi1 & Hi2).
  exists b, n1, n2. do 3 (split; [done|]).
  unfold kl_abs in Hnd. rewrite Hn, fmap_app, fmap_cons, fmap_app, fmap_cons in Hnd.
  apply NoDup_app in Hnd as (_ & Hd1 & Hnd). apply NoDup_cons in Hnd as [Hd2 _].
  simpl in *. subst k. split; [|done]. intros Hj. eapply Hd1; [exact Hj|left].
Qed.

(** Reading a resident key. *)
Lemma kl_splice m l k it :
  indexed key m l -> m !! k = Some it -> exists b,
    sl_deref it l = Some b /\ rl_find k (kl_abs l) = Some (value b) /\
    indexed key m (sl_splice_front it l) /\ sl_size (sl_splice_front it l) = sl_size l /\
    kl_abs (sl_splice_front it l) = rl_touch k (kl_abs l).
Proof.
  intros Hix Hk. pose proof (kl_abs_NoDup m l Hix) as Hnd.
  destruct (kl_hit m l k it Hix Hk) as (b & n1 & n2 & Hd & Hb & Hn & Hk1 & Hk2 & Hi1 & Hi2).
  pose proof (splice_split _ _ _ _ _ Hn Hi1 Hi2) as Hs.
  exists b. split; [done|]. split; [|split; [by apply indexed_splice_front|split]].
  - apply rl_find_elem; [done|]. unfold kl_abs. rewrite Hn. apply list_elem_of_fmap.
    exists (it, b). split; [by rewrite <-Hb|set_solver].
  - unfold sl_size. rewrite Hs, Hn. simpl. rewrite !length_app. simpl. lia.
  - unfold kl_abs. rewrite Hs, Hn, fmap_app, !fmap_cons, fmap_app.
    change (kl_entry (it, b)) with (key b, value b). rewrite Hb. by rewrite rl_touch_hit.
Qed.

(** Overwriting a resident key and moving its block to the front. *)
Lemma kl_update m l k v it f :
  indexed key m l -> m !! k = Some it ->
  (forall b, key (f b) = key b) -> (forall b, value (f b) = v) ->
  let l' := sl_splice_front it (sl_update it f l) in
  exists b, sl_deref it l = Some b /\ indexed key m l' /\ sl_size l' = sl_size l /\
    kl_abs l' = (k, v) :: rl_without k (kl_abs l) /\ key b = k /\
    (exists ns, sl_nodes l' = (it, f b) :: ns /\ sl_nodes l ≡ₚ (it, b) :: ns) /\
    (length ((k, v) :: rl_without k (kl_abs l)) = sl_size l).
Proof.
  intros Hix Hk Hfk Hfv l'.
  destruct (kl_hit m l k it Hix Hk) as (b & n1 & n2 & Hd & Hb & Hn & Hk1 & Hk2 & Hi1 & Hi2).
  pose proof (update_split _ f _ _ _ _ Hn Hi1 Hi2) as Hu.
  pose proof (splice_split _ _ _ _ _ Hu Hi1 Hi2) as Hs. fold l' in Hs.
  assert (Ha : kl_abs l' = (k, v) :: rl_without k (kl_abs l)).
  { unfold kl_abs. rewrite Hs, Hn, fmap_app, !fmap_cons, fmap_app.
    change (kl_entry (it, b)) with (key b, value b).
    change (kl_entry (it, f b)) with (key (f b), value (f b)). rewrite Hfk, Hfv, Hb.
    by rewrite rl_without_middle. }
  assert (Hsz : sl_size l' = sl_size l).
  { unfold sl_size. rewrite Hs, Hn. simpl. rewrite !length_app. simpl. lia. }
  exists b. split; [done|].
  split; [by apply indexed_splice_front, indexed_update|]. do 2 (split; [done|]).
  split; [done|]. split; [|by rewrite <-Ha, kl_abs_length].
  exists (n1 ++ n2). split; [done|]. rewrite Hn. by rewrite Permutation_middle.
Qed.

(** Popping the back of a non-empty list. *)
Lemma kl_pop m l :
  indexed key m l -> (0 < sl_size l)%nat -> exists ns i b,
    sl_back l = Some b /\ sl_nodes l = ns ++ [(i, b)] /\ sl_nodes (pop_back l) = ns /\
    indexed key (delete (key b) m) (pop_back l) /\ S (sl_size (pop_back l)) = sl_size l /\
    kl_abs (pop_back l) = removelast (kl_abs l).
Proof.
  intros Hix Hsz. destruct (snoc_inv (sl_nodes l)) as [Hn|(ns & [i b] & Hn)].
  { unfold sl_size in Hsz. rewrite Hn in Hsz. simpl in Hsz. lia. }
  exists ns, i, b. unfold sl_back, sl_size, kl_abs. simpl.
  rewrite Hn, removelast_snoc, last_snoc, fmap_app, length_app. simpl. rewrite removelast_snoc.
  do 3 (split; [done|]). split; [by eapply indexed_pop_back|]. split; [lia|done].
Qed.
End KeyedList.
