(* ===== verification/Text.v ===== *)
(** * Strings and streams

    What the sources use of [std::string], [std::stringstream] and the numeric conversions:
    searching for a character, [getline], [operator>>], [std::to_string] and [std::stoi]. *)

From S2P Require Import Prelude.
From Stdlib Require Import Ascii String.
Local Open Scope string_scope.
#[local] Arguments String.append !_ _ / : simpl nomatch.

#[export] Instance ascii_eq_decision : EqDecision ascii := ascii_dec.

Definition nl : ascii := Ascii.ascii_of_nat 10.

(** [std::isspace] and [std::isdigit] in the C locale. *)
Definition is_space (c : ascii) : bool :=
  let n := nat_of_ascii c in (n =? 32)%nat || ((9 <=? n)%nat && (n <=? 13)%nat).
Definition is_digit (c : ascii) : bool :=
  let n := nat_of_ascii c in (48 <=? n)%nat && (n <=? 57)%nat.
Arguments is_space : simpl never.
Arguments is_digit : simpl never.

Definition is_alpha (c : ascii) : bool :=
  let n := nat_of_ascii c in
  ((65 <=? n)%nat && (n <=? 90)%nat) || ((97 <=? n)%nat && (n <=? 122)%nat).

(** The character occurs in the string. *)
Fixpoint has (c : ascii) (s : string) : bool :=
  match s with
  | "" => false
  | String a s => bool_decide (a = c) || has c s
  end.

(** Every character satisfies the test. *)
Fixpoint all_chars (p : ascii -> bool) (s : string) : bool :=
  match s with
  | "" => true
  | String a s => p a && all_chars p s
  end.

(** [pos = s.find(c)] with [s.substr(0, pos)] and [s.substr(pos + 1)]; [None] is [npos]. *)
Fixpoint split_first (c : ascii) (s : string) : option (string * string) :=
  match s with
  | "" => None
  | String a s =>
      if decide (a = c) then Some ("", s)
      else match split_first c s with
           | Some (l, r) => Some (String a l, r)
           | None => None
           end
  end.

(** The parts of a string between the characters that satisfy [p]. *)
Fixpoint pieces (p : ascii -> bool) (s : string) : list string :=
  match s with
  | "" => [""]
  | String a s =>
      if p a then "" :: pieces p s
      else match pieces p s with
           | w :: ws => String a w :: ws
           | [] => [String a ""]
           end
  end.

(** [while (std::getline(stream, line, d))]: the parts between delimiters; nothing follows a last
    delimiter. *)
Definition drop_last_empty (l : list string) : list string :=
  match last l with
  | Some "" => removelast l
  | _ => l
  end.
Definition getlines (d : ascii) (s : string) : list string :=
  drop_last_empty (pieces (fun c => bool_decide (c = d)) s).

(** [while (stream >> word)]: the words between white space. *)
Definition words (s : string) : list string := filter (fun w => w ≠ "") (pieces is_space s).

(** ** Numbers *)

Definition digit (n : Z) : ascii := ascii_of_nat (48 + Z.to_nat n).
Definition digit_value (c : ascii) : Z := Z.of_nat (nat_of_ascii c) - 48.

Arguments digit : simpl never.
Arguments digit_value : simpl never.

(** Decimal digits, least significant first in the recursion; the fuel bounds their number. *)
Fixpoint digits (fuel : nat) (n : Z) (acc : string) : string :=
  match fuel with
  | O => acc
  | S fuel =>
      let acc := String (digit (n mod 10)) acc in
      if (n <? 10)%Z then acc else digits fuel (n / 10) acc
  end.

(** [std::to_string] and [operator<<] of an integer; a 64-bit value has at most 20 digits, and the
    fuel covers every integer. *)
Definition to_string (z : Z) : string :=
  let n := Z.abs z in
  let s := digits (S (Z.to_nat (Z.log2 n))) n "" in
  if (z <? 0)%Z then String "-" s else s.

Fixpoint skip_space (s : string) : string :=
  match s with
  | String a s' => if is_space a then skip_space s' else s
  | "" => ""
  end.

(** The value of the digits a string starts with. *)
Fixpoint read_digits (s : string) (acc : Z) : Z :=
  match s with
  | String a s => if is_digit a then read_digits s (10 * acc + digit_value a) else acc
  | "" => acc
  end.

Definition starts_digit (s : string) : bool :=
  match s with String a _ => is_digit a | "" => false end.

(** [strtol]: white space, a sign, digits; what follows them is ignored. *)
Definition strtol (s : string) : option Z :=
  match skip_space s with
  | String "-" s => if starts_digit s then Some (- read_digits s 0)%Z else None
  | String "+" s => if starts_digit s then Some (read_digits s 0) else None
  | s => if starts_digit s then Some (read_digits s 0) else None
  end.

Definition stoi (s : string) : outcome Z :=
  match strtol s with
  | None => Throw (invalid_argument "stoi")
  | Some z => if bool_decide (int_min <= z <= int_max)%Z then Ret z
              else Throw (out_of_range "stoi")
  end.

(** ** Lemmas on splitting *)

Lemma split_first_app c l r :
  has c l = false -> split_first c (l ++ String c r) = Some (l, r).
Proof.
  induction l as [|a l IH]; simpl; intros Hc.
  - by rewrite decide_True.
  - apply orb_false_iff in Hc as [Ha Hl]. apply bool_decide_eq_false in Ha.
    rewrite decide_False by done. by rewrite IH.
Qed.

Lemma split_first_Some c s l r :
  split_first c s = Some (l, r) -> s = l ++ String c r /\ has c l = false.
Proof.
  revert l r. induction s as [|a s IH]; simpl; intros l r; [done|].
  case_decide; [intros [= <- <-]; subst; done|].
  destruct (split_first c s) as [[l' r']|] eqn:Hs; [|done].
  intros [= <- <-]. destruct (IH _ _ eq_refl) as [-> Hh]. simpl.
  by rewrite bool_decide_eq_false_2.
Qed.

Lemma split_first_None c s : split_first c s = None <-> has c s = false.
Proof.
  induction s as [|a s IH]; simpl; [done|]. case_decide.
  - rewrite bool_decide_eq_true_2 by done. done.
  - rewrite bool_decide_eq_false_2 by done. simpl. rewrite <-IH.
    by destruct (split_first c s) as [[? ?]|].
Qed.

Lemma has_app c a b : has c (a ++ b) = has c a || has c b.
Proof. induction a as [|x a IH]; simpl; [done|]. by rewrite IH, orb_assoc. Qed.

Lemma has_all_chars c p s : all_chars p s = true -> p c = false -> has c s = false.
Proof.
  intros Hall Hc. induction s as [|a s IH]; simpl in *; [done|].
  apply andb_true_iff in Hall as [Ha Hs]. rewrite IH by done.
  rewrite bool_decide_eq_false_2 by congruence. done.
Qed.

Lemma pieces_not_nil p s : pieces p s ≠ [].
Proof. destruct s as [|a s]; simpl; [done|]. destruct (p a); [done|]. by destruct (pieces p s). Qed.

Lemma pieces_none p s : all_chars (fun c => negb (p c)) s = true -> pieces p s = [s].
Proof.
  induction s as [|a s IH]; simpl; intros Hs; [done|].
  apply andb_true_iff in Hs as [Ha Hs]. rewrite IH by done.
  by destruct (p a).
Qed.

Lemma pieces_app p l c r :
  all_chars (fun c => negb (p c)) l = true -> p c = true ->
  pieces p (l ++ String c r) = l :: pieces p r.
Proof.
  intros Hl Hc. induction l as [|a l IH]; simpl in *.
  - by rewrite Hc.
  - apply andb_true_iff in Hl as [Ha Hl]. rewrite IH by done. by destruct (p a).
Qed.

Lemma no_char_all c s :
  has c s = false -> all_chars (fun a => negb (bool_decide (a = c))) s = true.
Proof.
  induction s as [|a s IH]; simpl; intros Hs; [done|].
  apply orb_false_iff in Hs as [-> Hs]. by rewrite IH.
Qed.

(** Lines that hold no delimiter come back as they were written. *)
Definition unlines (d : ascii) (ls : list string) : string :=
  foldr (fun l acc => l ++ String d acc) "" ls.

Lemma drop_last_empty_snoc ls : drop_last_empty (ls ++ [""]) = ls.
Proof. unfold drop_last_empty. rewrite last_snoc. apply List.removelast_last. Qed.

Lemma pieces_unlines d ls :
  Forall (fun l => has d l = false) ls ->
  pieces (fun c => bool_decide (c = d)) (unlines d ls) = (ls ++ [""])%list.
Proof.
  induction 1 as [|l ls Hl Hls IH]; simpl; [done|].
  rewrite pieces_app; [by rewrite IH|by apply no_char_all|by apply bool_decide_eq_true_2].
Qed.

Lemma getlines_unlines d ls :
  Forall (fun l => has d l = false) ls -> getlines d (unlines d ls) = ls.
Proof. intros H. unfold getlines. rewrite pieces_unlines by done. apply drop_last_empty_snoc. Qed.

Lemma app_string_assoc (a b c : string) : (a ++ b) ++ c = a ++ (b ++ c).
Proof. induction a as [|x a IH]; simpl; [done|]. by rewrite IH. Qed.

Lemma unlines_snoc d ls l : unlines d (ls ++ [l])%list = unlines d ls ++ l ++ String d "".
Proof.
  induction ls as [|x ls IH]; [done|].
  change (x ++ String d (unlines d (ls ++ [l])%list) = (x ++ String d (unlines d ls)) ++ l ++ String d "").
  rewrite IH.
  by rewrite app_string_assoc.
Qed.

(** ** Lemmas on numbers *)

Lemma nat_of_digit n : (0 <= n < 10)%Z -> nat_of_ascii (digit n) = (48 + Z.to_nat n)%nat.
Proof. intros Hn. unfold digit. rewrite nat_ascii_embedding; [done|]. lia. Qed.

Lemma digit_is_digit n : (0 <= n < 10)%Z -> is_digit (digit n) = true.
Proof.
  intros Hn. unfold is_digit. rewrite nat_of_digit by done.
  apply andb_true_iff. split; apply Nat.leb_le; lia.
Qed.

Lemma digit_value_digit n : (0 <= n < 10)%Z -> digit_value (digit n) = n.
Proof. intros Hn. unfold digit_value. rewrite nat_of_digit by done. lia. Qed.

Lemma digits_starts fuel n acc : (0 <= n)%Z -> starts_digit (digits (S fuel) n acc) = true.
Proof.
  revert n acc. induction fuel as [|fuel IH]; intros n acc Hn.
  - simpl. assert (is_digit (digit (n mod 10)) = true) as H.
    { apply digit_is_digit. apply Z.mod_pos_bound. lia. }
    destruct (n <? 10)%Z; simpl; done.
  - cbn [digits]. destruct (n <? 10)%Z.
    + simpl. apply digit_is_digit, Z.mod_pos_bound. lia.
    + apply IH. apply Z.div_pos; lia.
Qed.

Lemma digits_all fuel : forall n acc,
  (0 <= n)%Z -> all_chars is_digit acc = true -> all_chars is_digit (digits fuel n acc) = true.
Proof.
  induction fuel as [|fuel IH]; intros n acc Hn Hacc; [done|]. cbn [digits].
  assert (Hd : all_chars is_digit (String (digit (n mod 10)) acc) = true).
  { cbn [all_chars]. rewrite digit_is_digit, Hacc by (apply Z.mod_pos_bound; lia). done. }
  destruct (n <? 10)%Z; [done|]. apply IH; [apply Z.div_pos; lia|done].
Qed.

(** Reading digits back, with what follows them. *)
Lemma read_digits_digits fuel : forall n acc m,
  (0 <= n < 2 ^ Z.of_nat fuel)%Z ->
  exists k, read_digits (digits fuel n acc) m = read_digits acc (k * m + n)%Z.
Proof.
  induction fuel as [|fuel IH]; intros n acc m Hn.
  - exists 1%Z. simpl. f_equal. simpl in Hn. lia.
  - cbn [digits]. assert (Hmod : (0 <= n mod 10 < 10)%Z) by (apply Z.mod_pos_bound; lia).
    destruct (Z.ltb_spec n 10) as [Hlt|Hge].
    + exists 10%Z. cbn [read_digits]. rewrite digit_is_digit, digit_value_digit by done.
      f_equal. rewrite Z.mod_small by lia. done.
    + destruct (IH (n / 10)%Z (String (digit (n mod 10)) acc) m) as [k Hk].
      { split; [apply Z.div_pos; lia|]. apply Z.div_lt_upper_bound; [lia|].
        rewrite Nat2Z.inj_succ, Z.pow_succ_r in Hn by lia. lia. }
      exists (10 * k)%Z. rewrite Hk. cbn [read_digits].
      rewrite digit_is_digit, digit_value_digit by done. f_equal.
      rewrite (Z.div_mod n 10) at 3 by lia. lia.
Qed.

Lemma log2_fuel n : (0 <= n)%Z -> (0 <= n < 2 ^ Z.of_nat (S (Z.to_nat (Z.log2 n))))%Z.
Proof.
  intros Hn. split; [done|]. rewrite Nat2Z.inj_succ, Z2Nat.id by apply Z.log2_nonneg.
  destruct (decide (n = 0%Z)) as [->|Hne]; [done|]. apply Z.log2_spec. lia.
Qed.

Lemma is_digit_not_space c : is_digit c = true -> is_space c = false.
Proof.
  unfold is_digit, is_space. intros Hd. apply andb_true_iff in Hd as [H1 H2].
  apply Nat.leb_le in H1, H2. apply orb_false_iff. split; [apply Nat.eqb_neq; lia|].
  apply andb_false_iff. right. apply Nat.leb_gt. lia.
Qed.

Lemma strtol_digits s rest :
  starts_digit s = true -> strtol (s ++ rest) = Some (read_digits (s ++ rest) 0) /\
  strtol (String "-" (s ++ rest)) = Some (- read_digits (s ++ rest) 0)%Z.
Proof.
  destruct s as [|a s]; [done|]. cbn [starts_digit String.append]. intros Ha.
  assert (Hs : skip_space (String a (s ++ rest)) = String a (s ++ rest)).
  { cbn [skip_space]. by rewrite is_digit_not_space. }
  split; unfold strtol.
  - rewrite Hs. destruct a as [[] [] [] [] [] [] [] []]; try discriminate Ha; done.
  - change (skip_space (String "-" (String a (s ++ rest))))
      with (String "-" (String a (s ++ rest))).
    cbn [starts_digit]. by rewrite Ha.
Qed.

Lemma starts_digit_app s rest : starts_digit s = true -> starts_digit (s ++ rest) = true.
Proof. by destruct s. Qed.

Lemma digits_append fuel : forall n acc rest,
  digits fuel n acc ++ rest = digits fuel n (acc ++ rest).
Proof.
  induction fuel as [|fuel IH]; intros n acc rest; [done|]. cbn [digits].
  destruct (n <? 10)%Z; [done|]. rewrite IH. done.
Qed.

(** A printed number followed by a character that is no digit reads back. *)
Lemma strtol_to_string z rest :
  starts_digit rest = false -> strtol (to_string z ++ rest) = Some z.
Proof.
  intros Hr. unfold to_string. set (n := Z.abs z). set (f := Z.to_nat (Z.log2 n)).
  assert (Hrd : read_digits (digits (S f) n "" ++ rest) 0 = n).
  { rewrite digits_append. destruct (read_digits_digits (S f) n ("" ++ rest) 0) as [k ->].
    { apply log2_fuel. lia. }
    replace (k * 0 + n)%Z with n by lia. destruct rest as [|a r]; simpl in *; [done|].
    by rewrite Hr. }
  destruct (strtol_digits (digits (S f) n "") rest) as [Hp Hm]; [apply digits_starts; lia|].
  destruct (Z.ltb_spec z 0).
  - cbn [String.append]. rewrite Hm, Hrd. f_equal. lia.
  - rewrite Hp, Hrd. f_equal. lia.
Qed.

Lemma append_nil_r (s : string) : s ++ "" = s.
Proof. induction s as [|a s IH]; simpl; [done|]. by rewrite IH. Qed.

Lemma stoi_to_string z : is_int z -> stoi (to_string z) = Ret z.
Proof.
  intros Hz. unfold stoi. rewrite <-(append_nil_r (to_string z)), strtol_to_string by done.
  by rewrite bool_decide_eq_true_2.
Qed.

(** A printed number holds only digits and a sign. *)
Lemma to_string_has c z : is_digit c = false -> c ≠ "-"%char -> has c (to_string z) = false.
Proof.
  intros Hd Hc. unfold to_string.
  assert (Hh : has c (digits (S (Z.to_nat (Z.log2 (Z.abs z)))) (Z.abs z) "") = false).
  { apply has_all_chars with is_digit; [|done]. apply digits_all; [lia|done]. }
  destruct (z <? 0)%Z; [|done]. cbn [has]. rewrite Hh, bool_decide_eq_false_2 by done. done.
Qed.

Lemma to_string_not_empty z : to_string z ≠ "".
Proof.
  unfold to_string. destruct (z <? 0)%Z; [done|].
  assert (Hs : starts_digit (digits (S (Z.to_nat (Z.log2 (Z.abs z)))) (Z.abs z) "") = true)
    by (apply digits_starts; lia).
  intros He. by rewrite He in Hs.
Qed.

(** [std::stoll] on the 64-bit [long long]. *)
Definition stoll (s : string) : outcome Z :=
  match strtol s with
  | None => Throw (invalid_argument "stoll")
  | Some z => if bool_decide (- 2 ^ 63 <= z <= 2 ^ 63 - 1)%Z then Ret z
              else Throw (out_of_range "stoll")
  end.

Lemma stoll_to_string z : (- 2 ^ 63 <= z <= 2 ^ 63 - 1)%Z -> stoll (to_string z) = Ret z.
Proof.
  intros Hz. unfold stoll. rewrite <-(append_nil_r (to_string z)), strtol_to_string by done.
  by rewrite bool_decide_eq_true_2.
Qed.

(** Fields joined by a separator come back as they were when the last is not empty. *)
Fixpoint join (d : ascii) (fields : list string) : string :=
  match fields with
  | [] => ""
  | [f] => f
  | f :: fields => f ++ String d (join d fields)
  end.

Lemma pieces_join d fields :
  fields ≠ [] -> Forall (fun f => has d f = false) fields ->
  pieces (fun c => bool_decide (c = d)) (join d fields) = fields.
Proof.
  intros Hne Hall. induction Hall as [|f fields Hf Hfs IH]; [done|].
  destruct fields as [|g fields].
  - apply pieces_none. by apply no_char_all.
  - cbn [join] in *. rewrite pieces_app; [by rewrite IH|by apply no_char_all|by apply bool_decide_eq_true_2].
Qed.

Lemma getlines_join d fields f :
  Forall (fun f => has d f = false) (fields ++ [f])%list -> f ≠ "" ->
  getlines d (join d (fields ++ [f])%list) = (fields ++ [f])%list.
Proof.
  intros Hall Hf. unfold getlines. rewrite pieces_join; [|by destruct fields|done].
  unfold drop_last_empty. rewrite last_snoc. by destruct f.
Qed.

(** ** Formatted input *)

(** The characters up to the next white space, and the rest. *)
Fixpoint take_word (s : string) : string * string :=
  match s with
  | "" => ("", "")
  | String a s' => if is_space a then ("", s) else let '(w, r) := take_word s' in (String a w, r)
  end.

(** [stream >> word]: [None] sets the fail bit. *)
Definition read_word (s : string) : option (string * string) :=
  match take_word (skip_space s) with
  | ("", _) => None
  | (w, r) => Some (w, r)
  end.

Fixpoint drop_digits (s : string) : string :=
  match s with
  | String a s' => if is_digit a then drop_digits s' else s
  | "" => ""
  end.

(** The sign is optional; what follows the digits stays in the stream. *)
Definition drop_sign (s : string) : string :=
  match s with
  | String "-" s => s
  | String "+" s => s
  | s => s
  end.

(** [stream >> n] for an [int]: a value out of range sets the fail bit. *)
Definition read_int (s : string) : option (Z * string) :=
  match strtol s with
  | None => None
  | Some z =>
      if bool_decide (int_min <= z <= int_max)%Z
      then Some (z, drop_digits (drop_sign (skip_space s))) else None
  end.

Lemma skip_space_nonspace s :
  match s with String a _ => is_space a = false | "" => True end -> skip_space s = s.
Proof. destruct s as [|a s]; [done|]. cbn [skip_space]. by intros ->. Qed.

Lemma take_word_app w r :
  all_chars (fun c => negb (is_space c)) w = true ->
  match r with String a _ => is_space a = true | "" => True end -> take_word (w ++ r) = (w, r).
Proof.
  intros Hw Hr. induction w as [|a w IH]; simpl.
  - destruct r as [|b r]; [done|]. simpl. by rewrite Hr.
  - cbn [all_chars] in Hw. apply andb_true_iff in Hw as [Ha Hw]. rewrite IH by done.
    by destruct (is_space a).
Qed.

(** A word followed by white space. *)
Lemma read_word_app w a r :
  w ≠ "" -> all_chars (fun c => negb (is_space c)) w = true -> is_space a = true ->
  read_word (w ++ String a r) = Some (w, String a r).
Proof.
  intros Hne Hw Ha. unfold read_word. rewrite skip_space_nonspace.
  - rewrite take_word_app by done. by destruct w.
  - destruct w as [|b w]; [done|]. simpl. cbn [all_chars] in Hw. apply andb_true_iff in Hw as [Hb _].
    by destruct (is_space b).
Qed.

Lemma drop_digits_app w r :
  all_chars is_digit w = true -> starts_digit r = false -> drop_digits (w ++ r) = r.
Proof.
  intros Hw Hr. induction w as [|a w IH]; simpl.
  - destruct r as [|b r]; [done|]. simpl in *. by rewrite Hr.
  - cbn [all_chars] in Hw. apply andb_true_iff in Hw as [-> Hw]. by apply IH.
Qed.

Lemma drop_sign_digit s : starts_digit s = true -> drop_sign s = s.
Proof.
  destruct s as [|a s]; [done|]. cbn [starts_digit].
  destruct a as [[] [] [] [] [] [] [] []]; intros H; try discriminate H; done.
Qed.

(** A printed number followed by something that is no digit. *)
Lemma read_int_app z r :
  is_int z -> starts_digit r = false -> read_int (to_string z ++ r) = Some (z, r).
Proof.
  intros Hz Hr. unfold read_int. rewrite strtol_to_string by done.
  rewrite bool_decide_eq_true_2 by done. do 2 f_equal. unfold to_string.
  set (d := digits _ _ _).
  assert (Hd : all_chars is_digit d = true) by (apply digits_all; [lia|done]).
  assert (Hs : starts_digit d = true) by (apply digits_starts; lia).
  destruct (z <? 0)%Z.
  - cbn [String.append]. rewrite skip_space_nonspace by done. cbn [drop_sign]. by apply drop_digits_app.
  - rewrite skip_space_nonspace.
    + rewrite drop_sign_digit by (by apply starts_digit_app). by apply drop_digits_app.
    + pose proof (starts_digit_app d r Hs) as H. destruct (d ++ r) as [|a x]; [done|].
      by apply is_digit_not_space.
Qed.

(** White space in front is skipped. *)
Lemma read_int_space a r : is_space a = true -> read_int (String a r) = read_int r.
Proof. intros Ha. unfold read_int, strtol. cbn [skip_space]. by rewrite Ha. Qed.

Lemma read_word_space a r : is_space a = true -> read_word (String a r) = read_word r.
Proof. intros Ha. unfold read_word. cbn [skip_space]. by rewrite Ha. Qed.

(** ** Substrings *)

(** [std::string::npos]. *)
Definition npos : Z := (size_t_mod - 1)%Z.

(** [s.find(pat)] with positions counted from [i]; [None] stands for [npos]. *)
Fixpoint find_from (i : nat) (pat s : string) : option nat :=
  if String.prefix pat s then Some i
  else match s with
       | "" => None
       | String _ s => find_from (S i) pat s
       end.
Definition find_sub (pat s : string) : option nat := find_from 0 pat s.
Definition find_pos (pat s : string) : Z :=
  match find_sub pat s with Some i => Z.of_nat i | None => npos end.
Definition contains (pat s : string) : bool := bool_decide (is_Some (find_sub pat s)).

(** [s.substr(pos, n)]. *)
Definition substr (s : string) (pos n : Z) : outcome string :=
  let len := Z.of_nat (String.length s) in
  if (len <? pos)%Z then Throw (out_of_range "basic_string::substr")
  else Ret (String.substring (Z.to_nat pos) (Z.to_nat (Z.min n (len - pos))) s).

Lemma find_from_some pat s : forall i, is_Some (find_from i pat s) <-> is_Some (find_from 0 pat s).
Proof.
  assert (H : forall s i j, is_Some (find_from i pat s) -> is_Some (find_from j pat s)).
  { clear s. induction s as [|a s IH]; intros i j; cbn [find_from]; destruct (String.prefix pat _);
      [by eauto|done|by eauto|apply IH]. }
  intros i. split; apply H.
Qed.

Lemma contains_cons pat a s :
  contains pat (String a s) = String.prefix pat (String a s) || contains pat s.
Proof.
  unfold contains, find_sub. cbn [find_from]. destruct (String.prefix pat (String a s)); [done|].
  apply bool_decide_ext. apply find_from_some.
Qed.

(** A prefix without the first letter of the pattern holds no occurrence of it. *)
Lemma contains_app_skip c pat p s :
  has c p = false -> contains (String c pat) (p ++ s) = contains (String c pat) s.
Proof.
  induction p as [|a p IH]; intros Hp; [done|]. cbn [has] in Hp. apply orb_false_iff in Hp as [Ha Hp].
  change (String a p ++ s) with (String a (p ++ s)). rewrite contains_cons, IH by done.
  cbn [String.prefix]. apply bool_decide_eq_false in Ha. destruct (ascii_dec c a); [congruence|done].
Qed.

(** An occurrence in the first part is one in the whole. *)
Lemma prefix_app pat s t : String.prefix pat s = true -> String.prefix pat (s ++ t) = true.
Proof.
  revert s. induction pat as [|c pat IH]; intros [|a s] H; cbn [String.prefix String.append] in *; try done.
  - by destruct t.
  - destruct (ascii_dec c a); [by apply IH|done].
Qed.

Lemma contains_app_l pat s t : contains pat s = true -> contains pat (s ++ t) = true.
Proof.
  induction s as [|a s IH]; intros H.
  - unfold contains, find_sub in H. cbn [find_from] in H.
    destruct (String.prefix pat "") eqn:E; [|done].
    apply (prefix_app pat "" t) in E. cbn [String.append] in *.
    unfold contains, find_sub. destruct t; cbn [find_from]; by rewrite E.
  - change (String a s ++ t) with (String a (s ++ t)). rewrite contains_cons in H |- *.
    apply orb_true_iff in H as [H|H]; [|by rewrite IH, orb_true_r].
    apply (prefix_app pat _ t) in H. cbn [String.append] in H. by rewrite H.
Qed.

Lemma contains_app_r pat s t : contains pat t = true -> contains pat (s ++ t) = true.
Proof.
  intros H. induction s as [|a s IH]; [done|].
  change (String a s ++ t) with (String a (s ++ t)). by rewrite contains_cons, IH, orb_true_r.
Qed.

Lemma substring_all s : String.substring 0 (String.length s) s = s.
Proof. induction s as [|a s IH]; simpl; [done|]. by rewrite IH. Qed.

Lemma length_append (a b : string) :
  String.length (a ++ b) = (String.length a + String.length b)%nat.
Proof. induction a as [|c a IH]; simpl; [done|]. by rewrite IH. Qed.
