(* ===== verification/LruCache.v ===== *)
(** * The LRU cache ([caching/lru_cache.cpp])

    [LRUCache] with its list of keys, its hash map of values and list positions, and the operations
    [moveToFront], [get], [put] and [displayCache]. *)

From S2P Require Import Prelude StdList Recency.
Local Open Scope Z_scope.

Record LRUCache : Type := MkLRU {
  capacity : Z;
  lruList : slist Z;
  cache : gmap Z (Z * nat)
}.

Definition make (cap : Z) : LRUCache := MkLRU cap sl_empty ∅.

(** [lruList.erase(cache[key].second); lruList.push_front(key);
    cache[key].second = lruList.begin()]. *)
Definition moveToFront (key : Z) : prog LRUCache unit := fun s =>
  match cache s !! key with
  | None => (s, Undef dangling_iterator)
  | Some (v, it) =>
      match sl_deref it (lruList s) with
      | None => (s, Undef dangling_iterator)
      | Some _ =>
          let l := push_front key (sl_erase it (lruList s)) in
          match sl_begin l with
          | None => (s, Undef dangling_iterator)
          | Some b => (MkLRU (capacity s) l (<[key := (v, b)]> (cache s)), Ret tt)
          end
      end
  end.

Definition get (key : Z) : prog LRUCache Z := fun s =>
  match cache s !! key with
  | None => (s, Ret (-1))
  | Some _ =>
      prog_bind (moveToFront key) (fun _ s' =>
        match cache s' !! key with
        | Some (v, _) => (s', Ret v)
        | None => (s', Undef dangling_iterator)
        end) s
  end.

(** [cache[key] = {value, lruList.begin()}] after [lruList.push_front(key)]. *)
Definition insertNew (key value : Z) : prog LRUCache unit := fun s =>
  let l := push_front key (lruList s) in
  match sl_begin l with
  | None => (s, Undef dangling_iterator)
  | Some b => (MkLRU (capacity s) l (<[key := (value, b)]> (cache s)), Ret tt)
  end.

(** [cache.size() == capacity] compares a [size_t] with an [int]. *)
Definition isFull (s : LRUCache) : bool :=
  Z.of_nat (size (cache s)) =? to_size_t (capacity s).

Definition evictLast : prog LRUCache unit := fun s =>
  match sl_back (lruList s) with
  | None => (s, Undef empty_container)
  | Some evictKey =>
      (MkLRU (capacity s) (pop_back (lruList s)) (delete evictKey (cache s)), Ret tt)
  end.

Definition put (key value : Z) : prog LRUCache unit := fun s =>
  match cache s !! key with
  | Some (_, it) =>
      moveToFront key (MkLRU (capacity s) (lruList s) (<[key := (value, it)]> (cache s)))
  | None =>
      if isFull s
      then prog_bind evictLast (fun _ => insertNew key value) s
      else insertNew key value s
  end.

(** The keys [displayCache] prints, in its order. *)
Definition displayCache (s : LRUCache) : list Z := sl_values (lruList s).

(** ** Invariant and abstraction *)

Definition positions (s : LRUCache) : gmap Z nat := snd <$> cache s.

Definition lru_inv (s : LRUCache) : Prop :=
  indexed id (positions s) (lruList s) /\
  (sl_size (lruList s) <= Z.to_nat (capacity s))%nat /\ 0 < capacity s <= int_max.

(** The value the map holds for a key. *)
Definition value_of (c : gmap Z (Z * nat)) (k : Z) : Z := default 0 (fst <$> c !! k).

(** The entries, most recently used first. *)
Definition lru_abs (s : LRUCache) : list entry :=
  (fun n => (n.2, value_of (cache s) n.2)) <$> sl_nodes (lruList s).

Definition lru_cap (s : LRUCache) : nat := Z.to_nat (capacity s).

Lemma lru_abs_keys s : (lru_abs s).*1 = sl_keys id (lruList s).
Proof. unfold lru_abs, sl_keys. rewrite <-list_fmap_compose. done. Qed.

Lemma positions_lookup s k it :
  positions s !! k = Some it <-> exists v, cache s !! k = Some (v, it).
Proof.
  unfold positions. rewrite lookup_fmap, fmap_Some. split.
  - intros ([v i] & H & ->). eauto.
  - intros (v & H). by exists (v, it).
Qed.

Lemma positions_None s k : positions s !! k = None <-> cache s !! k = None.
Proof. unfold positions. rewrite lookup_fmap, fmap_None. done. Qed.

Lemma lru_size s : lru_inv s -> size (cache s) = sl_size (lruList s).
Proof.
  intros (Hix & _). rewrite <-(indexed_size _ _ _ Hix). unfold positions. by rewrite map_size_fmap.
Qed.

Lemma lru_find s k : lru_inv s -> rl_find k (lru_abs s) = fst <$> cache s !! k.
Proof.
  intros (Hix & _). pose proof (indexed_NoDup _ _ _ Hix) as Hnd. rewrite <-lru_abs_keys in Hnd.
  destruct (cache s !! k) as [[v it]|] eqn:Hk; simpl.
  - apply rl_find_elem; [done|]. unfold lru_abs. apply list_elem_of_fmap.
    exists (it, k). unfold value_of; simpl. rewrite Hk. split; [done|].
    assert (Hp : positions s !! k = Some it) by (apply positions_lookup; eauto).
    destruct Hix as [_ Hm]. apply Hm in Hp as (x & Hin & <-). done.
  - apply rl_find_None. rewrite lru_abs_keys. rewrite <-indexed_None by done.
    by apply positions_None.
Qed.

(** Under the invariant the node of a key holds that key. *)
Lemma lru_deref s k v it :
  lru_inv s -> cache s !! k = Some (v, it) -> sl_deref it (lruList s) = Some k.
Proof.
  intros (Hix & _) Hk.
  destruct (indexed_deref _ _ _ k it Hix) as (x & Hd & Hx); [apply positions_lookup; eauto|].
  unfold id in Hx. by subst.
Qed.

(** [isFull] under the invariant. *)
Lemma lru_isFull_spec s :
  lru_inv s -> isFull s = bool_decide (sl_size (lruList s) = lru_cap s).
Proof.
  intros Hinv. unfold isFull. rewrite lru_size by done. destruct Hinv as (_ & _ & Hcap).
  assert (Hsz : to_size_t (capacity s) = capacity s).
  { unfold to_size_t, size_t_mod, int_max in *. apply Z.mod_small. lia. }
  rewrite Hsz. unfold lru_cap. case_bool_decide; [apply Z.eqb_eq|apply Z.eqb_neq]; lia.
Qed.

(** ** Refinement *)

Lemma value_of_insert_same c k v it b j :
  c !! k = Some (v, it) -> value_of (<[k := (v, b)]> c) j = value_of c j.
Proof.
  intros Hk. unfold value_of. rewrite lookup_insert. case_decide; [|done]. subst.
  by rewrite Hk.
Qed.

Lemma value_of_insert_ne c k v j : k ≠ j -> value_of (<[k := v]> c) j = value_of c j.
Proof. intros Hne. unfold value_of. by rewrite lookup_insert_ne. Qed.

Lemma value_of_insert c k v b : value_of (<[k := (v, b)]> c) k = v.
Proof. unfold value_of. by rewrite lookup_insert_eq. Qed.

(** Changing the bindings of keys that are not in the list does not change the entries. *)
Lemma abs_map_ext (c c' : gmap Z (Z * nat)) (ns : list (nat * Z)) :
  (forall k, k ∈ ns.*2 -> value_of c k = value_of c' k) ->
  (fun n => (n.2, value_of c n.2)) <$> ns = (fun n => (n.2, value_of c' n.2)) <$> ns.
Proof.
  intros Hv. apply list_fmap_ext. intros i [j k] Hi. simpl. f_equal. apply Hv.
  apply list_elem_of_lookup_2, (list_elem_of_fmap_2 snd) in Hi. done.
Qed.

Lemma moveToFront_ok k v it s :
  lru_inv s -> cache s !! k = Some (v, it) -> exists s' b,
    moveToFront k s = (s', Ret tt) /\ lru_inv s' /\
    lru_abs s' = rl_touch k (lru_abs s) /\ capacity s' = capacity s /\
    cache s' !! k = Some (v, b).
Proof.
  intros Hinv Hk. pose proof Hinv as (Hix & Hle & Hcap).
  unfold moveToFront. rewrite Hk, (lru_deref s k v it) by done. simpl.
  eexists _, _. split; [done|]. simpl.
  pose proof Hix as [Hwf _].
  destruct (sl_wf_split (lruList s) it k) as (n1 & n2 & Hn & He & _); [done|..].
  { apply sl_deref_Some; [done|]. by eapply lru_deref. }
  split; [|split; [|split; [done|apply lookup_insert_eq]]].
  - split; [|split; [|done]].
    + unfold positions; simpl. rewrite fmap_insert; simpl.
      rewrite <-(insert_delete_eq (snd <$> cache s) k).
      apply (indexed_push_front id _ (sl_erase it (lruList s)) k).
      * apply indexed_erase; [done|]. apply positions_lookup. eauto.
      * apply lookup_delete_eq.
    + unfold sl_size, push_front in *; simpl in *. rewrite He. rewrite Hn in Hle.
      rewrite length_app in *; simpl in *. lia.
  - unfold lru_abs; simpl. simpl in He. rewrite He, Hn, !fmap_app, fmap_cons; simpl.
    rewrite rl_touch_hit.
    + f_equal; [by rewrite (value_of_insert_same _ k v it)|].
      f_equal; apply abs_map_ext; intros j _; by apply value_of_insert_same with it.
    + pose proof (indexed_NoDup _ _ _ Hix) as Hnd. unfold sl_keys in Hnd.
      rewrite Hn, fmap_app, fmap_cons in Hnd. apply NoDup_app in Hnd as (_ & Hd & _).
      rewrite <-list_fmap_compose. intros Hj. eapply Hd; [exact Hj|left].
    + pose proof (indexed_NoDup _ _ _ Hix) as Hnd. unfold sl_keys in Hnd.
      rewrite Hn, fmap_app, fmap_cons in Hnd. apply NoDup_app in Hnd as (_ & _ & Hnd).
      apply NoDup_cons in Hnd as [Hnk _]. by rewrite <-list_fmap_compose.
Qed.

Lemma get_refines k s : lru_inv s -> exists s',
  get k s = (s', Ret (default (-1) (rl_find k (lru_abs s)))) /\
  lru_inv s' /\ lru_abs s' = rl_touch k (lru_abs s) /\ lru_cap s' = lru_cap s.
Proof.
  intros Hinv. rewrite lru_find by done. unfold get.
  destruct (cache s !! k) as [[v it]|] eqn:Hk; simpl.
  - destruct (moveToFront_ok k v it s Hinv Hk) as (s' & b & Hm & Hi & Ha & Hc & Hk').
    exists s'. unfold prog_bind. rewrite Hm, Hk'. unfold lru_cap. by rewrite Hc.
  - exists s. split; [done|]. split; [done|]. split; [|done].
    rewrite rl_touch_miss; [done|]. apply rl_find_None. rewrite lru_find by done. by rewrite Hk.
Qed.

Lemma lru_insertNew_ok k v s :
  lru_inv s -> cache s !! k = None -> (sl_size (lruList s) < lru_cap s)%nat -> exists s',
    insertNew k v s = (s', Ret tt) /\ lru_inv s' /\
    lru_abs s' = (k, v) :: lru_abs s /\ capacity s' = capacity s.
Proof.
  intros (Hix & Hle & Hcap) Hk Hlt. eexists. split; [done|]. simpl.
  split; [|split; [|done]].
  - split; [|split; [|done]].
    + unfold positions; simpl. rewrite fmap_insert; simpl.
      apply (indexed_push_front id _ (lruList s) k); [done|]. by apply positions_None.
    + unfold lru_cap, sl_size in *; simpl. lia.
  - unfold lru_abs; simpl. rewrite value_of_insert. f_equal. apply abs_map_ext.
    intros j Hj. apply value_of_insert_ne. intros ->.
    apply (positions_None s) in Hk. apply (indexed_None id _ (lruList s)) in Hk; [|done].
    apply Hk. unfold sl_keys, id. done.
Qed.

Lemma evictLast_ok s :
  lru_inv s -> sl_size (lruList s) = lru_cap s -> exists s',
    evictLast s = (s', Ret tt) /\ lru_inv s' /\
    lru_abs s' = removelast (lru_abs s) /\ capacity s' = capacity s /\
    (sl_size (lruList s') < lru_cap s')%nat /\
    (forall k, cache s !! k = None -> cache s' !! k = None).
Proof.
  intros (Hix & Hle & Hcap) Hsz. unfold lru_cap in Hsz.
  destruct (snoc_inv (sl_nodes (lruList s))) as [Hn|(ns & [i e] & Hn)].
  { unfold sl_size in Hsz. rewrite Hn in Hsz. simpl in Hsz. lia. }
  unfold evictLast, sl_back. rewrite Hn, last_snoc. simpl.
  eexists. split; [done|]. simpl.
  pose proof (indexed_NoDup _ _ _ Hix) as Hnd. unfold sl_keys in Hnd.
  rewrite Hn, fmap_app in Hnd. apply NoDup_app in Hnd as (_ & Hd & _).
  split; [|split; [|split; [done|split]]].
  - split; [|split; [|done]].
    + unfold positions; simpl. rewrite fmap_delete. by apply (indexed_pop_back id _ _ e ns i).
    + unfold sl_size in *; simpl. rewrite Hn, removelast_snoc. rewrite Hn, length_app in Hle.
      simpl in Hle. lia.
  - unfold lru_abs; simpl. rewrite Hn, removelast_snoc, fmap_app; simpl.
    rewrite removelast_snoc.
    apply abs_map_ext. intros j Hj. unfold value_of. rewrite lookup_delete_ne; [done|].
    intros ->. eapply Hd; [exact Hj|left].
  - unfold lru_cap, sl_size in *; simpl. rewrite Hn, removelast_snoc.
    rewrite Hn, length_app in Hsz. simpl in Hsz. lia.
  - intros k Hk. rewrite lookup_delete_None. by right.
Qed.

Lemma lru_abs_length s : length (lru_abs s) = sl_size (lruList s).
Proof. apply length_fmap. Qed.

Lemma rl_put_hit_abs k v s it :
  lru_inv s -> cache s !! k = Some it ->
  rl_put (lru_cap s) k v (lru_abs s) = (k, v) :: rl_without k (lru_abs s).
Proof.
  intros Hinv Hk. pose proof Hinv as (Hix & Hle & _). unfold rl_put. apply take_ge.
  pose proof (indexed_NoDup _ _ _ Hix) as Hnd. rewrite <-lru_abs_keys in Hnd.
  destruct it as [w it]. assert (Hin : (k, w) ∈ lru_abs s).
  { apply rl_find_elem; [done|]. rewrite lru_find by done. by rewrite Hk. }
  destruct (elem_of_split_fst _ _ _ Hnd Hin) as (l1 & l2 & Heq & H1 & H2).
  rewrite Heq, rl_without_middle by done. rewrite <-lru_abs_length, Heq in Hle.
  unfold lru_cap. rewrite length_app in Hle; simpl in *. rewrite length_app. lia.
Qed.

(** Overwriting a value in place keeps the invariant and changes only that entry. *)
Lemma overwrite_ok k v w it s :
  lru_inv s -> cache s !! k = Some (w, it) ->
  let s' := MkLRU (capacity s) (lruList s) (<[k := (v, it)]> (cache s)) in
  lru_inv s' /\ rl_touch k (lru_abs s') = (k, v) :: rl_without k (lru_abs s).
Proof.
  intros Hinv Hk s'. pose proof Hinv as (Hix & Hle & Hcap).
  assert (Hp : positions s' = positions s).
  { unfold positions, s'; simpl. rewrite fmap_insert. apply insert_id.
    rewrite lookup_fmap, Hk. done. }
  assert (Hinv' : lru_inv s') by (split; [by rewrite Hp|done]). split; [done|].
  destruct (sl_wf_split (lruList s) it k) as (n1 & n2 & Hn & _); [apply Hix|..].
  { apply sl_deref_Some; [apply Hix|]. by eapply lru_deref. }
  pose proof (indexed_NoDup _ _ _ Hix) as Hnd. unfold sl_keys, id in Hnd.
  rewrite Hn, fmap_app, fmap_cons in Hnd. apply NoDup_app in Hnd as (_ & Hd & Hnd).
  apply NoDup_cons in Hnd as [Hk2 _]. simpl in Hk2.
  assert (Hk1 : k ∉ n1.*2) by (intros Hj; eapply Hd; [exact Hj|left]).
  unfold lru_abs, s'; simpl. rewrite Hn, !fmap_app, !fmap_cons; simpl.
  rewrite rl_touch_hit, rl_without_middle by (by rewrite <-list_fmap_compose).
  rewrite value_of_insert. do 2 f_equal; apply abs_map_ext; intros j Hj;
    apply value_of_insert_ne; intros ->; contradiction.
Qed.

Lemma put_refines k v s : lru_inv s -> exists s',
  put k v s = (s', Ret tt) /\
  lru_inv s' /\ lru_abs s' = rl_put (lru_cap s) k v (lru_abs s) /\ lru_cap s' = lru_cap s.
Proof.
  intros Hinv. unfold put. destruct (cache s !! k) as [[w it]|] eqn:Hk.
  - destruct (overwrite_ok k v w it s Hinv Hk) as [Hi Ht].
    destruct (moveToFront_ok k v it _ Hi) as (s' & b & Hm & Hi' & Ha & Hc & _);
      [apply lookup_insert_eq|].
    exists s'. rewrite Hm, Ha, Ht. unfold lru_cap at 2. rewrite Hc.
    rewrite rl_put_hit_abs with (it := (w, it)) by done. done.
  - assert (Hw : rl_without k (lru_abs s) = lru_abs s).
    { apply rl_without_id, rl_find_None. rewrite lru_find by done. by rewrite Hk. }
    unfold rl_put. rewrite Hw, lru_isFull_spec by done. pose proof Hinv as (_ & Hle & Hcap).
    case_bool_decide as Hfull.
    + destruct (evictLast_ok s Hinv Hfull) as (s1 & He & Hi1 & Ha1 & Hc1 & Hlt & Hnone).
      destruct (lru_insertNew_ok k v s1 Hi1 (Hnone k Hk) Hlt) as (s2 & Hn & Hi2 & Ha2 & Hc2).
      exists s2. unfold prog_bind. rewrite He, Hn, Ha2, Ha1. unfold lru_cap. rewrite Hc2, Hc1.
      split; [done|]. split; [done|]. split; [|done].
      rewrite List.removelast_firstn_len, lru_abs_length, Hfull. unfold lru_cap.
      destruct (Z.to_nat (capacity s)) as [|n] eqn:Hz; [exfalso; lia|]. done.
    + destruct (lru_insertNew_ok k v s Hinv Hk) as (s2 & Hn & Hi2 & Ha2 & Hc2).
      { unfold lru_cap in *. lia. }
      exists s2. unfold lru_cap. rewrite Hn, Ha2, Hc2. split; [done|]. split; [done|].
      split; [|done]. rewrite take_ge; [done|]. simpl. rewrite lru_abs_length.
      unfold lru_cap in Hfull. lia.
Qed.

Lemma lru_inv_make cap : 0 < cap <= int_max -> lru_inv (make cap).
Proof. intros Hcap. split; [apply indexed_empty|]. split; [unfold sl_size; simpl; lia|done]. Qed.

Lemma lru_inv_abs s :
  lru_inv s -> NoDup ((lru_abs s).*1) /\ (length (lru_abs s) <= lru_cap s)%nat /\ (0 < lru_cap s)%nat.
Proof.
  intros (Hix & Hle & Hcap). rewrite lru_abs_keys, lru_abs_length. unfold lru_cap.
  split; [by eapply indexed_NoDup|]. split; [done|lia].
Qed.

#[export] Instance lru_impl : LruImpl LRUCache := {|
  li_inv := lru_inv;
  li_abs := lru_abs;
  li_cap := lru_cap;
  li_get := get;
  li_put := put;
  li_inv_abs := lru_inv_abs;
  li_get_ok := get_refines;
  li_put_ok := put_refines
|}.

(** C4.  The LRU cache refines the recency list: from a fresh cache of capacity [cap], any sequence
    of [get] and [put] calls returns, keeps the list and the hash map of iterators consistent, and
    leaves exactly the entries of the abstract cache in its order, which is the order
    [displayCache] prints. *)
Theorem lru_cache_refines (cap : Z) (os : list cache_op) :
  0 < cap <= int_max ->
  exists s, li_run os (make cap) = (s, Ret tt) /\ lru_inv s /\
    lru_abs s = rl_run (Z.to_nat cap) os [] /\
    displayCache s = (rl_run (Z.to_nat cap) os []).*1.
Proof.
  intros Hcap. destruct (li_run_ok os (make cap)) as (s & Hr & Hi & Ha & _).
  { by apply lru_inv_make. }
  exists s. split; [done|]. split; [done|]. change (li_abs s) with (lru_abs s) in Ha.
  split; [done|]. transitivity ((lru_abs s).*1); [by rewrite lru_abs_keys|by rewrite Ha].
Qed.

Definition main_ops : list cache_op :=
  [OpPut 1 10; OpPut 2 20; OpPut 3 30; OpGet 1; OpPut 4 40; OpGet 2; OpPut 5 50].

Lemma lru_cache_refines_witness :
  exists s, li_run main_ops (make 3) = (s, Ret tt) /\ lru_inv s /\
    lru_abs s = [(5, 50); (4, 40); (1, 10)] /\ displayCache s = [5; 4; 1].
Proof. apply (lru_cache_refines 3 main_ops). unfold int_max; lia. Defined.

(** The working-set guarantee: after [put(k, v)], and any calls that use fewer than [capacity]
    keys other than [k] and do not overwrite [k], [get(k)] still returns [v]. *)
Lemma lru_cache_working_set (k v : Z) (os : list cache_op) (s : LRUCache) :
  lru_inv s -> no_put k os -> (size (other_keys k os) < Z.to_nat (capacity s))%nat ->
  exists s1 s2 s3,
    put k v s = (s1, Ret tt) /\ li_run os s1 = (s2, Ret tt) /\ get k s2 = (s3, Ret v).
Proof. intros Hi Hn Hs. exact (lru_working_set k v os s Hi Hn Hs). Qed.

Lemma lru_cache_working_set_witness :
  exists s1 s2 s3,
    put 1 10 (make 3) = (s1, Ret tt) /\
    li_run [OpPut 2 20; OpGet 7; OpPut 2 21] s1 = (s2, Ret tt) /\ get 1 s2 = (s3, Ret 10).
Proof.
  apply (lru_cache_working_set 1 10 [OpPut 2 20; OpGet 7; OpPut 2 21] (make 3)).
  - apply lru_inv_make. unfold int_max; lia.
  - repeat constructor; lia.
  - vm_compute. lia.
Defined.
