(* ===== verification/WriteBackCache.v ===== *)
(** * The write-back cache ([caching/write_back_cache.cpp])

    [WriteBackCache]: an LRU list of data blocks with dirty bits, and the log of the blocks that
    [write_to_storage] sent to the storage. *)

From S2P Require Import Prelude Text StdList Recency KeyedList.
Local Open Scope Z_scope.

Record DataBlock : Type := MkBlock { key : Z; value : Z; dirty : bool }.

(** The constructor of [DataBlock] starts clean. *)
Definition newBlock (k v : Z) : DataBlock := MkBlock k v false.

(** [storage] is what [write_to_storage] was called with, oldest first. *)
Record WriteBackCache : Type := MkWB {
  cache_list : slist DataBlock;
  cache_map : gmap Z nat;
  capacity : nat;
  storage : list (Z * Z)
}.

Definition make (capacity : nat) : WriteBackCache := MkWB sl_empty ∅ capacity [].

(** The writes of one block, on eviction and on [flush]. *)
Definition write_back (b : DataBlock) : list (Z * Z) :=
  if dirty b then [(key b, value b)] else [].

Definition evict : prog WriteBackCache unit := fun s =>
  match sl_back (cache_list s) with
  | None => (s, Undef empty_container)
  | Some b =>
      (MkWB (pop_back (cache_list s)) (delete (key b) (cache_map s)) (capacity s)
         (storage s ++ write_back b), Ret tt)
  end.

Definition read (k : Z) : prog WriteBackCache Z := fun s =>
  match cache_map s !! k with
  | None => (s, Ret (-1))
  | Some it =>
      match sl_deref it (cache_list s) with
      | None => (s, Undef dangling_iterator)
      | Some b =>
          (MkWB (sl_splice_front it (cache_list s)) (cache_map s) (capacity s) (storage s),
           Ret (value b))
      end
  end.

(** [emplace_front] and [cache_map[key] = begin()]. *)
Definition insert_front (k v : Z) : prog WriteBackCache unit := fun s =>
  let l := push_front (newBlock k v) (cache_list s) in
  match sl_begin l with
  | None => (s, Undef dangling_iterator)
  | Some b => (MkWB l (<[k := b]> (cache_map s)) (capacity s) (storage s), Ret tt)
  end.

Definition write (k v : Z) : prog WriteBackCache unit := fun s =>
  match cache_map s !! k with
  | Some it =>
      match sl_deref it (cache_list s) with
      | None => (s, Undef dangling_iterator)
      | Some _ =>
          let l := sl_update it (fun b => MkBlock (key b) v true) (cache_list s) in
          (MkWB (sl_splice_front it l) (cache_map s) (capacity s) (storage s), Ret tt)
      end
  | None =>
      if (capacity s <=? sl_size (cache_list s))%nat
      then prog_bind evict (fun _ => insert_front k v) s
      else insert_front k v s
  end.

(** [block.dirty = false] after the write. *)
Definition clean (b : DataBlock) : DataBlock := MkBlock (key b) (value b) false.

Definition flush : prog WriteBackCache unit := fun s =>
  let l := cache_list s in
  (MkWB (SList (sl_next l) ((fun n => (n.1, clean n.2)) <$> sl_nodes l)) (cache_map s) (capacity s)
     (storage s ++ (sl_nodes l ≫= fun n => write_back n.2)), Ret tt).

(** The blocks [display_cache] prints, in its order. *)
Definition display_cache (s : WriteBackCache) : list DataBlock := sl_values (cache_list s).

(** ** Invariant and refinement *)

Definition wb_inv (s : WriteBackCache) : Prop :=
  indexed key (cache_map s) (cache_list s) /\
  (sl_size (cache_list s) <= capacity s)%nat /\ (0 < capacity s)%nat.

Definition wb_abs (s : WriteBackCache) : list entry := kl_abs key value (cache_list s).

Lemma wb_inv_list s l :
  indexed key (cache_map s) l -> sl_size l = sl_size (cache_list s) -> wb_inv s ->
  forall log, wb_inv (MkWB l (cache_map s) (capacity s) log).
Proof. intros Hix Hsz (_ & Hle & Hcap) log. split; [done|]. simpl. by rewrite Hsz. Qed.

Lemma read_refines k s : wb_inv s -> exists s',
  read k s = (s', Ret (default (-1) (rl_find k (wb_abs s)))) /\
  wb_inv s' /\ wb_abs s' = rl_touch k (wb_abs s) /\ capacity s' = capacity s.
Proof.
  intros Hinv. pose proof Hinv as (Hix & _). unfold read, wb_abs.
  destruct (cache_map s !! k) as [it|] eqn:Hk.
  - destruct (kl_splice key value _ _ k it Hix Hk) as (b & Hd & Hf & Hi & Hsz & Ha).
    rewrite Hd, Hf. eexists. split; [done|]. split; [by apply wb_inv_list|done].
  - exists s. pose proof (kl_miss key value _ _ k Hix Hk) as Hm.
    rewrite (rl_touch_miss k) by done. apply rl_find_None in Hm. by rewrite Hm.
Qed.

Lemma insert_front_ok k v s :
  wb_inv s -> cache_map s !! k = None -> (sl_size (cache_list s) < capacity s)%nat -> exists s',
    insert_front k v s = (s', Ret tt) /\ wb_inv s' /\
    wb_abs s' = (k, v) :: wb_abs s /\ capacity s' = capacity s /\ storage s' = storage s /\
    sl_nodes (cache_list s') = (sl_next (cache_list s), newBlock k v) :: sl_nodes (cache_list s).
Proof.
  intros (Hix & Hle & Hcap) Hk Hlt. eexists. split; [done|].
  split; [|done]. split; [|split; [|done]].
  - by apply (indexed_push_front key _ (cache_list s) (newBlock k v)).
  - unfold sl_size in *; simpl. lia.
Qed.

Lemma wb_evict_ok s :
  wb_inv s -> sl_size (cache_list s) = capacity s -> exists s' ns i b,
    evict s = (s', Ret tt) /\ wb_inv s' /\ wb_abs s' = removelast (wb_abs s) /\
    capacity s' = capacity s /\ (sl_size (cache_list s') < capacity s')%nat /\
    (forall k, cache_map s !! k = None -> cache_map s' !! k = None) /\
    sl_nodes (cache_list s) = ns ++ [(i, b)] /\ sl_nodes (cache_list s') = ns /\
    storage s' = storage s ++ write_back b.
Proof.
  intros (Hix & Hle & Hcap) Hsz.
  destruct (kl_pop key value _ _ Hix) as (ns & i & b & Hb & Hn & Hn' & Hi & Hsz' & Ha); [lia|].
  unfold evict. rewrite Hb. eexists _, ns, i, b. split; [done|].
  cbn [cache_list capacity cache_map storage]. split; [split; [done|]; cbn [cache_list capacity]; lia|]. do 2 (split; [done|]). split; [lia|].
  split; [|done]. intros k Hk. rewrite lookup_delete_None. by right.
Qed.

(** A write to a resident key. *)
Lemma write_hit k v s it :
  wb_inv s -> cache_map s !! k = Some it -> exists s' b ns,
    write k v s = (s', Ret tt) /\ wb_inv s' /\ key b = k /\
    wb_abs s' = rl_put (capacity s) k v (wb_abs s) /\ capacity s' = capacity s /\
    storage s' = storage s /\
    sl_nodes (cache_list s') = (it, MkBlock k v true) :: ns /\
    sl_nodes (cache_list s) ≡ₚ (it, b) :: ns.
Proof.
  intros Hinv Hk. pose proof Hinv as (Hix & Hle & Hcap). unfold write. rewrite Hk.
  set (f := fun b => MkBlock (key b) v true).
  destruct (kl_update key value _ _ k v it f Hix Hk)
    as (b & Hd & Hi & Hsz & Ha & Hb & (ns & Hns & Hp) & Hlen); [done..|].
  rewrite Hd. eexists _, b, ns. split; [done|]. split; [by apply wb_inv_list|].
  split; [done|]. split; [|rewrite <-Hb at 1; done].
  unfold rl_put. rewrite take_ge by (unfold wb_abs; lia). exact Ha.
Qed.

Lemma write_refines k v s : wb_inv s -> exists s',
  write k v s = (s', Ret tt) /\
  wb_inv s' /\ wb_abs s' = rl_put (capacity s) k v (wb_abs s) /\ capacity s' = capacity s.
Proof.
  intros Hinv. pose proof Hinv as (Hix & Hle & Hcap).
  pose proof (kl_abs_length key value (cache_list s)) as Hlen. fold (wb_abs s) in Hlen.
  destruct (cache_map s !! k) as [it|] eqn:Hk.
  - destruct (write_hit k v s it Hinv Hk) as (s' & b & ns & Hw & Hi & _ & Ha & Hc & _).
    by exists s'.
  - unfold write. rewrite Hk. unfold rl_put. rewrite rl_without_id by (by eapply kl_miss).
    destruct (Nat.leb_spec (capacity s) (sl_size (cache_list s))) as [Hfull|Hroom].
    + destruct (wb_evict_ok s Hinv) as (s1 & ns & i & b & He & Hi & Ha & Hc & Hlt & Hnone & _); [lia|].
      destruct (insert_front_ok k v s1 Hi (Hnone k Hk) Hlt) as (s2 & Hf & Hi2 & Ha2 & Hc2 & _).
      exists s2. unfold prog_bind. rewrite He, Hf, Ha2, Ha, Hc2, Hc.
      do 2 (split; [done|]). split; [|done].
      rewrite List.removelast_firstn_len. destruct (capacity s) as [|n]; [lia|].
      simpl. do 2 f_equal. lia.
    + destruct (insert_front_ok k v s Hinv Hk Hroom) as (s2 & Hf & Hi2 & Ha2 & Hc2 & _).
      exists s2. rewrite Hf, Ha2, Hc2. do 2 (split; [done|]). split; [|done].
      rewrite take_ge; [done|]. simpl. lia.
Qed.

Lemma wb_inv_abs s :
  wb_inv s -> NoDup ((wb_abs s).*1) /\ (length (wb_abs s) <= capacity s)%nat /\ (0 < capacity s)%nat.
Proof.
  intros (Hix & Hle & Hcap). unfold wb_abs. rewrite kl_abs_length.
  split; [by eapply kl_abs_NoDup|done].
Qed.

Lemma wb_inv_make cap : (0 < cap)%nat -> wb_inv (make cap).
Proof. intros Hcap. split; [apply indexed_empty|]. split; [unfold sl_size; simpl; lia|done]. Qed.

#[export] Instance write_back_impl : LruImpl WriteBackCache := {|
  li_inv := wb_inv;
  li_abs := wb_abs;
  li_cap := capacity;
  li_get := read;
  li_put := write;
  li_inv_abs := wb_inv_abs;
  li_get_ok := read_refines;
  li_put_ok := write_refines
|}.

(** The write-back cache refines the recency list: any sequence of [read] and [write] calls on
    a fresh cache returns, and leaves the blocks of the abstract LRU cache in its order. *)
Lemma write_back_refines (cap : nat) (os : list cache_op) :
  (0 < cap)%nat ->
  exists s, li_run os (make cap) = (s, Ret tt) /\ wb_inv s /\
    (fun b => (key b, value b)) <$> display_cache s = rl_run cap os [].
Proof.
  intros Hcap. destruct (li_run_ok os (make cap)) as (s & Hr & Hi & Ha & _).
  { by apply wb_inv_make. }
  exists s. split; [done|]. split; [done|]. change (li_abs s) with (wb_abs s) in Ha.
  unfold display_cache, sl_values. rewrite <-list_fmap_compose. exact Ha.
Qed.

Lemma write_back_refines_witness :
  let os := [OpPut 1 100; OpPut 2 200; OpPut 3 300; OpGet 2; OpPut 2 250; OpPut 4 400] in
  exists s, li_run os (make 3) = (s, Ret tt) /\ wb_inv s /\
    (fun b => (key b, value b)) <$> display_cache s = [(4, 400); (2, 250); (3, 300)].
Proof.
  apply (write_back_refines 3 [OpPut 1 100; OpPut 2 200; OpPut 3 300; OpGet 2; OpPut 2 250;
    OpPut 4 400]). lia.
Defined.

(** ** Durability *)

Inductive wb_op : Type :=
| WRead (k : Z)
| WWrite (k v : Z)
| WFlush.

Definition wb_step (o : wb_op) : prog WriteBackCache unit :=
  match o with
  | WRead k => prog_bind (read k) (fun _ => prog_ret tt)
  | WWrite k v => write k v
  | WFlush => flush
  end.

Fixpoint wb_run (os : list wb_op) : prog WriteBackCache unit :=
  match os with
  | [] => prog_ret tt
  | o :: os => prog_bind (wb_step o) (fun _ => wb_run os)
  end.

(** What the storage holds for a key: the last write to it. *)
Definition stored (log : list (Z * Z)) (k : Z) : option Z :=
  snd <$> last (filter (fun e => e.1 = k) log).

Lemma stored_app log l k :
  stored (log ++ l) k = match stored l k with Some v => Some v | None => stored log k end.
Proof.
  unfold stored. rewrite filter_app, last_app.
  destruct (last (filter (fun e => e.1 = k) l)); done.
Qed.

(** A log whose writes to [k] all write [v]. *)
Lemma stored_all l k v :
  (forall w, (k, w) ∈ l -> w = v) -> stored l k = Some v \/ (k ∉ l.*1) /\ stored l k = None.
Proof.
  intros Hall. unfold stored. destruct (last (filter (fun e => e.1 = k) l)) as [[j w]|] eqn:Hl.
  - left. apply last_Some_snoc in Hl as [l' Hl]. simpl.
    assert (Hin : (j, w) ∈ filter (fun e : Z * Z => e.1 = k) l) by (rewrite Hl; set_solver).
    apply list_elem_of_filter in Hin as [Hj Hin]. simpl in Hj. subst j. by rewrite (Hall w).
  - right. split; [|done]. intros Hin. apply elem_of_fst_inv in Hin as [w Hin].
    apply last_None in Hl. assert (Hf : (k, w) ∈ filter (fun e : Z * Z => e.1 = k) l).
    { apply list_elem_of_filter. done. }
    rewrite Hl in Hf. by apply not_elem_of_nil in Hf.
Qed.

(** The cache or the storage holds [v] for [k]: a resident block for [k] has the value [v], and it
    is dirty unless the storage has [v] already. *)
Definition holds (k v : Z) (s : WriteBackCache) : Prop :=
  (forall n, n ∈ sl_nodes (cache_list s) -> key n.2 = k -> value n.2 = v) /\
  ((exists n, n ∈ sl_nodes (cache_list s) /\ key n.2 = k /\ dirty n.2 = true) \/
   stored (storage s) k = Some v).

Lemma stored_write_backs k v (ns : list (nat * DataBlock)) log :
  (forall n, n ∈ ns -> key n.2 = k -> value n.2 = v) ->
  (exists n, n ∈ ns /\ key n.2 = k /\ dirty n.2 = true) \/ stored log k = Some v ->
  stored (log ++ (ns ≫= fun n => write_back n.2)) k = Some v.
Proof.
  intros Hv Hor. rewrite stored_app.
  destruct (stored_all (ns ≫= fun n => write_back n.2) k v) as [->|[Hno ->]]; [|done|].
  - intros w Hin. apply list_elem_of_bind in Hin as (n & Hin & Hn). unfold write_back in Hin.
    destruct (dirty n.2); [|by apply not_elem_of_nil in Hin].
    apply list_elem_of_singleton in Hin as [= -> ->]. by apply Hv.
  - destruct Hor as [(n & Hn & Hk & Hd)|]; [|done]. destruct Hno.
    apply elem_of_fst with (value n.2). apply list_elem_of_bind. exists n. split; [|done].
    unfold write_back. rewrite Hd, <-Hk. set_solver.
Qed.

Lemma flush_holds k v s : holds k v s -> exists s',
  flush s = (s', Ret tt) /\ stored (storage s') k = Some v /\ holds k v s'.
Proof.
  intros [Hv Hor]. eexists. split; [done|].
  assert (Hst := stored_write_backs k v _ _ Hv Hor). split; [done|]. split; [|by right].
  simpl. intros n Hin Hk. apply list_elem_of_fmap in Hin as (m & -> & Hin). simpl in *. auto.
Qed.

Lemma flush_inv s : wb_inv s -> exists s', flush s = (s', Ret tt) /\ wb_inv s'.
Proof.
  intros (([Hnd Hlt] & Hm) & Hle & Hcap). eexists. split; [done|]. split; [|split; [|done]]; simpl.
  - split; [split; simpl|].
    + rewrite <-list_fmap_compose. done.
    + rewrite Forall_fmap. exact Hlt.
    + intros k it. rewrite Hm. simpl. setoid_rewrite list_elem_of_fmap. split.
      * intros (x & Hin & Hx). exists (clean x). split; [|done]. by exists (it, x).
      * intros (y & ([j x] & Heq & Hin) & Hy). simplify_eq/=. eauto.
  - unfold sl_size in *. simpl. by rewrite length_fmap.
Qed.

Lemma read_holds j k v s : wb_inv s -> holds k v s -> holds k v (fst (read j s)).
Proof.
  intros Hinv [Hv Hor]. unfold read. destruct (cache_map s !! j) as [it|] eqn:Hj; [|done].
  destruct (sl_deref it (cache_list s)) as [b|]; [|done]. simpl.
  assert (Hp : sl_nodes (sl_splice_front it (cache_list s)) ≡ₚ sl_nodes (cache_list s)).
  { simpl. by rewrite filter_app_complement. }
  split; cbn [cache_list storage].
  - intros n. rewrite Hp. auto.
  - destruct Hor as [(n & Hn)|]; [|by right]. left. exists n. by rewrite Hp.
Qed.

Lemma insert_front_holds j w k v s :
  wb_inv s -> cache_map s !! j = None -> (sl_size (cache_list s) < capacity s)%nat ->
  j ≠ k -> holds k v s -> holds k v (fst (insert_front j w s)).
Proof.
  intros Hinv Hj Hlt Hne [Hv Hor].
  destruct (insert_front_ok j w s Hinv Hj Hlt) as (s' & -> & _ & _ & _ & Hst & Hn). simpl.
  split; rewrite ?Hn, ?Hst.
  - intros n Hin Hk. apply elem_of_cons in Hin as [->|Hin]; [done|auto].
  - destruct Hor as [(n & Hin & Hn')|]; [|by right]. left. exists n. split; [by right|done].
Qed.

Lemma evict_holds k v s :
  wb_inv s -> sl_size (cache_list s) = capacity s -> holds k v s -> holds k v (fst (evict s)).
Proof.
  intros Hinv Hsz [Hv Hor].
  destruct (wb_evict_ok s Hinv Hsz) as (s1 & ns & i & b & -> & _ & _ & _ & _ & _ & Hn & Hn' & Hst).
  simpl. rewrite Hn in Hv, Hor. split; rewrite ?Hn', ?Hst.
  - intros n Hin. apply Hv. set_solver.
  - destruct Hor as [(n & Hin & Hk & Hd)|Hor].
    + apply elem_of_app in Hin as [Hin|Hin]; [left; eauto|]. right.
      apply list_elem_of_singleton in Hin as ->. simpl in *. unfold write_back. rewrite Hd.
      rewrite stored_app. unfold stored at 1. rewrite filter_cons_True by done. simpl.
      f_equal. apply (Hv (i, b)); [set_solver|done].
    + right. pose proof (stored_write_backs k v [(i, b)] (storage s)) as Hw.
      simpl in Hw. rewrite app_nil_r in Hw. apply Hw; [|by right].
      intros n Hin. apply Hv. set_solver.
Qed.

Lemma write_holds j w k v s : wb_inv s -> j ≠ k -> holds k v s -> holds k v (fst (write j w s)).
Proof.
  intros Hinv Hne Hh. destruct (cache_map s !! j) as [it|] eqn:Hj.
  - destruct (write_hit j w s it Hinv Hj) as (s' & b & ns & -> & _ & Hb & _ & _ & Hst & Hn & Hp).
    simpl. destruct Hh as [Hv Hor]. setoid_rewrite Hp in Hv. setoid_rewrite Hp in Hor.
    split; rewrite ?Hst, ?Hn.
    + intros n' Hin Hk. apply elem_of_cons in Hin as [->|Hin]; [done|]. apply Hv; [by right|done].
    + destruct Hor as [(n' & Hin & Hk & Hd)|]; [|by right]. left. exists n'. split; [|done].
      apply elem_of_cons in Hin as [->|Hin]; [simpl in Hk; congruence|by right].
  - pose proof Hinv as (_ & Hle & _). unfold write. rewrite Hj.
    destruct (Nat.leb_spec (capacity s) (sl_size (cache_list s))) as [Hfull|Hroom].
    + assert (Hsz : sl_size (cache_list s) = capacity s) by lia.
      pose proof (evict_holds k v s Hinv Hsz Hh) as He.
      destruct (wb_evict_ok s Hinv Hsz) as (s1 & ns & i & b & Hev & Hi & _ & _ & Hlt & Hnone & _).
      unfold prog_bind. rewrite Hev in He |- *. apply insert_front_holds; auto.
    + by apply insert_front_holds.
Qed.

(** No operation of the sequence writes [k]. *)
Definition no_write (k : Z) (os : list wb_op) : Prop :=
  Forall (fun o => match o with WWrite j _ => j ≠ k | _ => True end) os.

Lemma wb_step_holds k v o s :
  wb_inv s -> no_write k [o] -> holds k v s ->
  exists s', wb_step o s = (s', Ret tt) /\ wb_inv s' /\ holds k v s'.
Proof.
  intros Hinv Hno Hh. unfold no_write in Hno. rewrite Forall_singleton in Hno. destruct o as [j|j w|]; simpl.
  - destruct (read_refines j s Hinv) as (s' & Hr & Hi & _). exists s'.
    pose proof (read_holds j k v s Hinv Hh) as Hh'. unfold prog_bind. by rewrite Hr in Hh' |- *.
  - destruct (write_refines j w s Hinv) as (s' & Hr & Hi & _). exists s'.
    pose proof (write_holds j w k v s Hinv Hno Hh) as Hh'. by rewrite Hr in Hh' |- *.
  - destruct (flush_inv s Hinv) as (s' & Hf & Hi).
    destruct (flush_holds k v s Hh) as (s2 & Hf2 & _ & Hh2). rewrite Hf in Hf2.
    injection Hf2 as <-. by exists s'.
Qed.

Lemma wb_run_holds k v os : forall s,
  wb_inv s -> no_write k os -> holds k v s ->
  exists s', wb_run os s = (s', Ret tt) /\ wb_inv s' /\ holds k v s'.
Proof.
  induction os as [|o os IH]; intros s Hinv Hno Hh; simpl; [by exists s|].
  apply Forall_cons in Hno as [Ho Hos].
  destruct (wb_step_holds k v o s Hinv (proj2 (Forall_singleton _ _) Ho) Hh) as (s1 & Hs & Hi & Hh1).
  unfold prog_bind. rewrite Hs. by apply IH.
Qed.

(** C16.  Durability of updates: once a write hits a resident block, any reads, writes of other keys
    and flushes may follow, with any evictions, and the next flush leaves the written value as the
    last one the storage received for that key. *)
Theorem write_back_durable (k v : Z) (os : list wb_op) (s : WriteBackCache) :
  wb_inv s -> is_Some (cache_map s !! k) -> no_write k os ->
  exists s1 s2 s3,
    write k v s = (s1, Ret tt) /\ wb_run os s1 = (s2, Ret tt) /\ flush s2 = (s3, Ret tt) /\
    stored (storage s3) k = Some v.
Proof.
  intros Hinv [it Hk] Hno.
  destruct (write_hit k v s it Hinv Hk) as (s1 & b & ns & Hw & Hi1 & _ & _ & _ & _ & Hn & _).
  assert (Hin : (it, MkBlock k v true) ∈ sl_nodes (cache_list s1)) by (rewrite Hn; left).
  assert (Hh : holds k v s1).
  { split; [|left; by exists (it, MkBlock k v true)].
    intros n Hin' Hk'. destruct Hi1 as [Hix _]. by rewrite (indexed_inj key _ _ n _ Hix Hin' Hin). }
  destruct (wb_run_holds k v os s1 Hi1 Hno Hh) as (s2 & Hr & Hi2 & Hh2).
  destruct (flush_holds k v s2 Hh2) as (s3 & Hf & Hst & _). by exists s1, s2, s3.
Qed.

Lemma write_back_durable_witness :
  let s := fst (write 1 10 (make 2)) in
  exists s1 s2 s3,
    write 1 11 s = (s1, Ret tt) /\
    wb_run [WWrite 2 20; WRead 2; WWrite 3 30; WWrite 4 40] s1 = (s2, Ret tt) /\
    flush s2 = (s3, Ret tt) /\ stored (storage s3) 1 = Some 11.
Proof.
  apply (write_back_durable 1 11 [WWrite 2 20; WRead 2; WWrite 3 30; WWrite 4 40]).
  - destruct (write_refines 1 10 (make 2)) as (s' & Hw & Hi & _); [apply wb_inv_make; lia|].
    rewrite Hw. exact Hi.
  - vm_compute. eauto.
  - repeat constructor; lia.
Defined.

(** The block of a first write is inserted clean: evicting it, or flushing, never stores it. *)
Example first_write_lost :
  storage (fst (wb_run [WWrite 1 10; WWrite 2 20; WFlush] (make 1))) = [].
Proof. reflexivity. Qed.

(** ** The program *)

Definition CACHE_CAPACITY : nat := 100.

(** The line of [write_to_storage], and that of [display_cache]. *)
Definition storage_line (kv : Z * Z) : string :=
  "Writing data block (key=" +:+ to_string kv.1 +:+ ", value=" +:+ to_string kv.2 +:+ ") to storage.".
Definition block_text (b : DataBlock) : string :=
  "[" +:+ to_string (key b) +:+ ":" +:+ to_string (value b) +:+ ":" +:+
  (if dirty b then "D" else "C") +:+ "] ".
Definition display_line (s : WriteBackCache) : string :=
  foldr (fun b t => block_text b +:+ t) "" (display_cache s).

Fixpoint write_range (n : nat) (i : Z) : prog WriteBackCache unit :=
  match n with
  | O => prog_ret tt
  | S n => (write i (i * 100) ;;; write_range n (i + 1))%prog
  end.

(** [main]: the lines of [display_cache] and what it reads. *)
Definition main : prog WriteBackCache (list string * Z) :=
  (write 1 100 ;;; write 2 200 ;;; write 3 300 ;;;
   let! d1 := prog_gets display_line in
   let! v := read 2 in
   let! d2 := prog_gets display_line in
   write 2 250 ;;;
   let! d3 := prog_gets display_line in
   write_range 102 4 ;;;
   let! d4 := prog_gets display_line in
   flush ;;;
   let! d5 := prog_gets display_line in
   prog_ret ([d1; d2; d3; d4; d5], v))%prog.

(** Of the 105 keys [main] writes, only the updated one reaches the storage: the values of the four
    others that are evicted are lost, and the flush finds nothing dirty. *)
Example write_back_main :
  let '(s, o) := main (make CACHE_CAPACITY) in
  storage_line <$> storage s = ["Writing data block (key=2, value=250) to storage."] /\
  sl_size (cache_list s) = 100%nat /\
  match o with
  | Ret (lines, v) => v = 200 /\ take 3 lines =
      ["[3:300:C] [2:200:C] [1:100:C] "; "[2:200:C] [3:300:C] [1:100:C] ";
       "[2:250:D] [3:300:C] [1:100:C] "]
  | _ => False
  end.
Proof. vm_compute. done. Qed.
