(* ===== verification/WriteThroughCache.v ===== *)
(** * The write-through cache ([caching/write_through_cache.cpp])

    [Storage], a text file of [key:value] lines that writes append to, and [WriteThroughCache] with
    its mutex.  [get] takes the mutex and, on a miss that the storage can serve, calls [put], which
    takes it again. *)

From S2P Require Import Prelude StdList Recency KeyedList Text.
From Stdlib Require Import Ascii String.
Local Open Scope Z_scope.

(** ** The storage file *)

(** The contents of storage.txt, [None] before the first write, and whether it can be opened for
    writing. *)
Record Storage : Type := MkStorage { file : option string; writable : bool }.

Definition line (key value : Z) : string :=
  (to_string key ++ String ":" (to_string value))%string.

Definition storage_write (key value : Z) : prog Storage unit := fun st =>
  if writable st
  then (MkStorage (Some (default "" (file st) ++ line key value ++ String nl "")%string) true, Ret tt)
  else (st, Throw (runtime_error "Unable to open file for writing")).

(** The lines in order, up to the first one with the key; [std::stoi] throws on a bad number. *)
Fixpoint read_lines (key : Z) (lines : list string) : outcome Z :=
  match lines with
  | [] => Ret (-1)
  | l :: lines =>
      match split_first ":" l with
      | None => read_lines key lines
      | Some (k, v) =>
          file_key ← stoi k;
          file_value ← stoi v;
          if file_key =? key then Ret file_value else read_lines key lines
      end
  end.

Definition storage_read (key : Z) (st : Storage) : outcome Z :=
  match file st with
  | None => Ret (-1)
  | Some text => read_lines key (getlines nl text)
  end.

(** ** The cache *)

Record WriteThroughCache : Type := MkWT {
  capacity_ : nat;
  cache_list_ : slist (Z * Z);
  cache_map_ : gmap Z nat;
  storage_ : Storage;
  cache_mutex_ : bool
}.

Definition make (cap : nat) (st : Storage) : WriteThroughCache := MkWT cap sl_empty ∅ st false.

#[export] Instance wt_lockable : Lockable WriteThroughCache.
Proof.
  refine {| held := cache_mutex_;
            set_held b s := MkWT (capacity_ s) (cache_list_ s) (cache_map_ s) (storage_ s) b |};
    repeat intros []; done.
Defined.

(** [storage_.write(key, value)]. *)
Definition write_through (key value : Z) : prog WriteThroughCache unit := fun s =>
  let '(st, r) := storage_write key value (storage_ s) in
  (MkWT (capacity_ s) (cache_list_ s) (cache_map_ s) st (cache_mutex_ s), r).

Definition update_hit (it : nat) (value : Z) : prog WriteThroughCache unit := fun s =>
  match sl_deref it (cache_list_ s) with
  | None => (s, Undef dangling_iterator)
  | Some _ =>
      let l := sl_splice_front it (sl_update it (fun e => (e.1, value)) (cache_list_ s)) in
      (MkWT (capacity_ s) l (cache_map_ s) (storage_ s) (cache_mutex_ s), Ret tt)
  end.

Definition insert_front (key value : Z) : prog WriteThroughCache unit := fun s =>
  let l := push_front (key, value) (cache_list_ s) in
  match sl_begin l with
  | None => (s, Undef dangling_iterator)
  | Some b => (MkWT (capacity_ s) l (<[key := b]> (cache_map_ s)) (storage_ s) (cache_mutex_ s), Ret tt)
  end.

Definition trim : prog WriteThroughCache unit := fun s =>
  if (capacity_ s <? sl_size (cache_list_ s))%nat
  then match sl_back (cache_list_ s) with
       | None => (s, Undef empty_container)
       | Some e =>
           (MkWT (capacity_ s) (pop_back (cache_list_ s)) (delete e.1 (cache_map_ s)) (storage_ s)
              (cache_mutex_ s), Ret tt)
       end
  else (s, Ret tt).

Definition put_body (key value : Z) : prog WriteThroughCache unit :=
  prog_bind (write_through key value) (fun _ =>
  prog_bind (prog_gets cache_map_) (fun m =>
  match m !! key with
  | Some it => update_hit it value
  | None => prog_bind (insert_front key value) (fun _ => trim)
  end)).

Definition put (key value : Z) : prog WriteThroughCache unit := lock_guard (put_body key value).

(** A hit: splice to the front, return the value. *)
Definition get_hit (it : nat) : prog WriteThroughCache Z := fun s =>
  match sl_deref it (cache_list_ s) with
  | None => (s, Undef dangling_iterator)
  | Some e =>
      (MkWT (capacity_ s) (sl_splice_front it (cache_list_ s)) (cache_map_ s) (storage_ s)
         (cache_mutex_ s), Ret e.2)
  end.

Definition get_body (key : Z) : prog WriteThroughCache Z := fun s =>
  match cache_map_ s !! key with
  | Some it => get_hit it s
  | None =>
      match storage_read key (storage_ s) with
      | Ret value =>
          if value =? -1 then (s, Ret value)
          else prog_bind (put key value) (fun _ => prog_ret value) s
      | Throw e => (s, Throw e)
      | Hang => (s, Hang)
      | Undef u => (s, Undef u)
      end
  end.

Definition get (key : Z) : prog WriteThroughCache Z := lock_guard (get_body key).

(** ** The storage as a log *)

(** The file after the writes of a log, oldest first. *)
Definition log_text (log : list (Z * Z)) : string := unlines nl ((fun e => line e.1 e.2) <$> log).

(** The first value a log has for a key. *)
Fixpoint first_value (key : Z) (log : list (Z * Z)) : Z :=
  match log with
  | [] => -1
  | (k, v) :: log => if k =? key then v else first_value key log
  end.

Definition ints (log : list (Z * Z)) : Prop := Forall (fun e => is_int e.1 /\ is_int e.2) log.

Lemma line_no_nl k v : has nl (line k v) = false.
Proof. unfold line. rewrite has_app. cbn [has]. by rewrite !to_string_has. Qed.

Lemma read_lines_log key log :
  ints log -> read_lines key ((fun e => line e.1 e.2) <$> log) = Ret (first_value key log).
Proof.
  induction 1 as [|[k v] log [Hk Hv] Hlog IH]; [done|].
  rewrite fmap_cons. cbn [read_lines fst snd first_value]. unfold line at 1.
  rewrite split_first_app by (by apply to_string_has).
  rewrite (stoi_to_string k) by done. obind. rewrite (stoi_to_string v) by done. obind.
  by destruct (k =? key).
Qed.

(** The storage holds exactly the writes of the log. *)
Definition logged (log : list (Z * Z)) (st : Storage) : Prop :=
  default "" (file st) = log_text log /\ ints log.

(** [Storage::read] finds the oldest record of a key. *)
Lemma storage_read_log key log st :
  logged log st -> storage_read key st = Ret (first_value key log).
Proof.
  intros (Hf & Hlog). unfold storage_read. destruct (file st) as [text|]; simpl in Hf.
  - rewrite Hf. unfold log_text. rewrite getlines_unlines; [by apply read_lines_log|].
    apply Forall_fmap, Forall_true. intros [k v]. apply line_no_nl.
  - destruct log as [|[k v] log]; [done|]. apply (f_equal (has ":")) in Hf.
    unfold log_text in Hf. cbn [fmap list_fmap unlines foldr] in Hf.
    rewrite has_app in Hf. unfold line in Hf. rewrite has_app in Hf. cbn [has] in Hf.
    rewrite bool_decide_eq_true_2 in Hf by done. simpl in Hf. rewrite orb_true_r in Hf. done.
Qed.

Lemma storage_write_log log k v st :
  logged log st -> writable st = true -> is_int k -> is_int v -> exists st',
    storage_write k v st = (st', Ret tt) /\ logged (log ++ [(k, v)]) st' /\ writable st' = true.
Proof.
  intros (Hf & Hlog) Hw Hk Hv. unfold storage_write. rewrite Hw. eexists. split; [done|].
  split; [|done]. split; cbn [file default].
  - rewrite Hf. unfold log_text. rewrite fmap_app. simpl. by rewrite unlines_snoc.
  - apply Forall_app_2; [done|]. by apply Forall_singleton.
Qed.

(** ** Invariant *)

Definition wt_inv (log : list (Z * Z)) (s : WriteThroughCache) : Prop :=
  indexed fst (cache_map_ s) (cache_list_ s) /\
  (sl_size (cache_list_ s) <= capacity_ s)%nat /\
  logged log (storage_ s) /\ cache_mutex_ s = false.

Definition wt_abs (s : WriteThroughCache) : list entry := kl_abs fst snd (cache_list_ s).

Lemma insert_trim_ok k v s :
  indexed fst (cache_map_ s) (cache_list_ s) -> (sl_size (cache_list_ s) <= capacity_ s)%nat ->
  cache_map_ s !! k = None -> exists s',
    prog_bind (insert_front k v) (fun _ => trim) s = (s', Ret tt) /\
    indexed fst (cache_map_ s') (cache_list_ s') /\
    (sl_size (cache_list_ s') <= capacity_ s)%nat /\
    wt_abs s' = rl_put (capacity_ s) k v (wt_abs s) /\ capacity_ s' = capacity_ s /\
    storage_ s' = storage_ s /\ cache_mutex_ s' = cache_mutex_ s.
Proof.
  intros Hix Hle Hit. set (l := push_front (k, v) (cache_list_ s)).
  assert (Hp : indexed fst (<[k := sl_next (cache_list_ s)]> (cache_map_ s)) l)
    by (by apply (indexed_push_front fst)).
  assert (Hput : rl_put (capacity_ s) k v (wt_abs s) = take (capacity_ s) ((k, v) :: wt_abs s)).
  { unfold rl_put. by rewrite rl_without_id by (by eapply kl_miss). }
  pose proof (kl_abs_length fst snd (cache_list_ s)) as Hlen. fold (wt_abs s) in Hlen.
  assert (Hsl : sl_size l = S (sl_size (cache_list_ s))) by done.
  unfold prog_bind. change (insert_front k v s) with
    (MkWT (capacity_ s) l (<[k := sl_next (cache_list_ s)]> (cache_map_ s)) (storage_ s)
       (cache_mutex_ s), @Ret unit tt).
  cbv beta iota. unfold trim. cbn [cache_list_ capacity_ cache_map_ storage_ cache_mutex_].
  rewrite Hput. destruct (Nat.ltb_spec (capacity_ s) (sl_size l)) as [Hlt|Hge].
  - destruct (kl_pop fst snd _ _ Hp) as (ns & i & b & Hb & _ & _ & Hi & Hsz & Ha); [lia|].
    rewrite Hb. eexists. split; [done|]. cbn [cache_list_ capacity_ cache_map_].
    split; [done|]. split; [lia|]. split; [|done].
    etransitivity; [exact Ha|].
    change (kl_abs fst snd l) with ((k, v) :: wt_abs s).
    rewrite List.removelast_firstn_len. f_equal. simpl. lia.
  - eexists. split; [done|]. cbn [cache_list_ capacity_ cache_map_]. do 2 (split; [done|]).
    split; [|done]. rewrite take_ge; [done|]. simpl. lia.
Qed.

Lemma update_hit_ok k v it s :
  indexed fst (cache_map_ s) (cache_list_ s) -> (sl_size (cache_list_ s) <= capacity_ s)%nat ->
  cache_map_ s !! k = Some it -> exists s',
    update_hit it v s = (s', Ret tt) /\
    indexed fst (cache_map_ s') (cache_list_ s') /\
    (sl_size (cache_list_ s') <= capacity_ s)%nat /\
    wt_abs s' = rl_put (capacity_ s) k v (wt_abs s) /\ capacity_ s' = capacity_ s /\
    storage_ s' = storage_ s /\ cache_mutex_ s' = cache_mutex_ s.
Proof.
  intros Hix Hle Hit.
  destruct (kl_update fst snd _ _ k v it (fun e => (e.1, v)) Hix Hit)
    as (b & Hd & Hi & Hsz & Ha & _ & _ & Hlen); [done..|].
  unfold update_hit. rewrite Hd. eexists. split; [done|].
  cbn [cache_list_ capacity_ cache_map_]. split; [done|]. rewrite Hsz. split; [done|].
  split; [|done]. unfold rl_put. rewrite take_ge by (unfold wt_abs; lia). exact Ha.
Qed.

Lemma wt_put_ok log k v s :
  wt_inv log s -> writable (storage_ s) = true -> is_int k -> is_int v -> exists s',
    put k v s = (s', Ret tt) /\ wt_inv (log ++ [(k, v)]) s' /\
    wt_abs s' = rl_put (capacity_ s) k v (wt_abs s) /\ capacity_ s' = capacity_ s /\
    writable (storage_ s') = true.
Proof.
  intros (Hix & Hle & Hst & Hm) Hwr Hk Hv.
  destruct (storage_write_log log k v (storage_ s) Hst Hwr Hk Hv) as (st' & Hw & Hst' & Hwr').
  set (s0 := MkWT (capacity_ s) (cache_list_ s) (cache_map_ s) st' true).
  assert (Hbody : exists s', put_body k v (set_held true s) = (s', Ret tt) /\
    indexed fst (cache_map_ s') (cache_list_ s') /\
    (sl_size (cache_list_ s') <= capacity_ s)%nat /\
    wt_abs s' = rl_put (capacity_ s) k v (wt_abs s) /\ capacity_ s' = capacity_ s /\
    storage_ s' = st' /\ cache_mutex_ s' = true).
  { unfold put_body, prog_bind at 1, write_through. cbn [set_held wt_lockable storage_].
    rewrite Hw. cbv beta iota. cbn [cache_map_ cache_list_ capacity_ cache_mutex_]. fold s0.
    unfold prog_bind at 1, prog_gets. cbn [cache_map_ s0].
    destruct (cache_map_ s !! k) as [it|] eqn:Hit.
    - exact (update_hit_ok k v it s0 Hix Hle Hit).
    - exact (insert_trim_ok k v s0 Hix Hle Hit). }
  destruct Hbody as (s' & Hb & Hi & Hsz & Ha & Hc & Hs & _).
  eexists. split; [apply lock_guard_ret; [done|exact Hb]|].
  split; [split; [done|]; cbn; by rewrite Hs, Hc|]. cbn. by rewrite Hs.
Qed.

(** A storage that cannot be opened for writing: the exception leaves the cache and the file alone. *)
Lemma wt_put_refused log k v s :
  wt_inv log s -> writable (storage_ s) = false ->
  put k v s = (s, Throw (runtime_error "Unable to open file for writing")).
Proof.
  intros (_ & _ & _ & Hm) Hw. destruct s as [c l m st b]. cbn in *. subst b.
  unfold put, lock_guard. cbn. unfold put_body, prog_bind, write_through, storage_write. cbn.
  rewrite Hw. done.
Qed.

(** The outcome of [get] in every case: a resident key is returned and becomes the most
    recent one; a key that was never put gives -1 and changes nothing; a key that is only in the
    storage makes [get] call [put] under the mutex it holds, and the call never returns. *)
Lemma wt_get_ok (log : list (Z * Z)) (key : Z) (s : WriteThroughCache) :
  wt_inv log s ->
  match rl_find key (wt_abs s) with
  | Some v => exists s', get key s = (s', Ret v) /\ wt_inv log s' /\
                wt_abs s' = rl_touch key (wt_abs s) /\ capacity_ s' = capacity_ s /\
                storage_ s' = storage_ s
  | None => if first_value key log =? -1 then get key s = (s, Ret (-1))
            else get key s = (set_held true s, Hang)
  end.
Proof.
  intros (Hix & Hle & Hst & Hm).
  unfold get, lock_guard. cbn [held wt_lockable]. rewrite Hm.
  unfold get_body. cbn [set_held wt_lockable cache_map_ storage_].
  destruct (cache_map_ s !! key) as [it|] eqn:Hit.
  - destruct (kl_splice fst snd _ _ key it Hix Hit) as (b & Hd & Hf & Hi & Hsz & Ha).
    unfold wt_abs. rewrite Hf. unfold get_hit. cbn [cache_list_]. rewrite Hd.
    eexists. split; [done|]. split; [|done]. split; [done|].
    split; [|done]. cbn [cache_list_ capacity_]. by rewrite Hsz.
  - assert (Hn : rl_find key (wt_abs s) = None) by (apply rl_find_None; by eapply kl_miss).
    rewrite Hn. rewrite (storage_read_log key log) by done.
    destruct (Z.eqb_spec (first_value key log) (-1)) as [He|Hne].
    + rewrite He. destruct s; simpl in *. by subst.
    + done.
Qed.

(** ** Runs *)

(** The calls of a client, and a change of the permissions of storage.txt between two of them. *)
Inductive call : Type := Get (key : Z) | Put (key value : Z) | Permit (w : bool).

Definition permit (w : bool) : prog WriteThroughCache unit := fun s =>
  (MkWT (capacity_ s) (cache_list_ s) (cache_map_ s) (MkStorage (file (storage_ s)) w) (cache_mutex_ s),
   Ret tt).

Definition do_call (c : call) : prog WriteThroughCache (option Z) :=
  match c with
  | Get key => prog_bind (get key) (fun v => prog_ret (Some v))
  | Put key value => prog_bind (put key value) (fun _ => prog_ret None)
  | Permit w => prog_bind (permit w) (fun _ => prog_ret None)
  end.

(** The calls in order, with their outcomes; the client catches exceptions, and a call that hangs is the
    last one. *)
Fixpoint calls (cs : list call) (s : WriteThroughCache) : WriteThroughCache * list (outcome (option Z)) :=
  match cs with
  | [] => (s, [])
  | c :: cs =>
      match do_call c s with
      | (s, Ret r) => let '(s, rs) := calls cs s in (s, Ret r :: rs)
      | (s, Throw e) => let '(s, rs) := calls cs s in (s, Throw e :: rs)
      | (s, r) => (s, [r])
      end
  end.

Definition int_call (c : call) : Prop := match c with Put k v => is_int k /\ is_int v | _ => True end.

(** ** What the cache promises *)

(** The records of the file, oldest first, the cached pairs, most recent first, and whether the file can
    be opened for writing. *)
Record promise : Type := MkPromise { records : list (Z * Z); recent : list entry; open_out : bool }.

Definition promised (cap : nat) (c : call) (p : promise) : promise * outcome (option Z) :=
  match c with
  | Get k =>
      match rl_find k (recent p) with
      | Some v => (MkPromise (records p) (rl_touch k (recent p)) (open_out p), Ret (Some v))
      | None => (p, if first_value k (records p) =? -1 then Ret (Some (-1)) else Hang)
      end
  | Put k v =>
      if open_out p
      then (MkPromise (records p ++ [(k, v)]) (rl_put cap k v (recent p)) (open_out p), Ret None)
      else (p, Throw (runtime_error "Unable to open file for writing"))
  | Permit w => (MkPromise (records p) (recent p) w, Ret None)
  end.

Fixpoint promises (cap : nat) (cs : list call) (p : promise) : promise * list (outcome (option Z)) :=
  match cs with
  | [] => (p, [])
  | c :: cs =>
      match promised cap c p with
      | (p, Hang) => (p, [Hang])
      | (p, r) => let '(p, rs) := promises cap cs p in (p, r :: rs)
      end
  end.

(** What a state shows, a hung one too. *)
Definition shows (p : promise) (s : WriteThroughCache) : Prop :=
  default "" (file (storage_ s)) = log_text (records p) /\ wt_abs s = recent p /\
  writable (storage_ s) = open_out p.

Definition keeps (cap : nat) (p : promise) (s : WriteThroughCache) : Prop :=
  wt_inv (records p) s /\ capacity_ s = cap /\ shows p s.

Lemma do_call_ok cap c p s :
  keeps cap p s -> int_call c ->
  (do_call c s).2 = (promised cap c p).2 /\ shows (promised cap c p).1 (do_call c s).1 /\
  ((promised cap c p).2 ≠ Hang -> keeps cap (promised cap c p).1 (do_call c s).1).
Proof.
  intros (Hi & Hc & Hf & Ha & Hw) Hint. destruct c as [k|k v|w]; cbn [do_call promised]; unfold prog_bind.
  - pose proof (wt_get_ok _ k _ Hi) as H. rewrite Ha in H. destruct (rl_find k (recent p)) as [v|].
    + destruct H as (s' & -> & Hi' & Ha' & Hc' & Hs'). cbn. unfold keeps, shows. cbn.
      rewrite Hs', Ha', Hc'. auto 10.
    + destruct (first_value k (records p) =? -1); rewrite H; unfold keeps, shows; [auto 10|].
      split; [done|]. split; [done|]. intros Hn. by destruct Hn.
  - destruct Hint as [Hk Hv]. rewrite <-Hw. destruct (writable (storage_ s)) eqn:Hws.
    + destruct (wt_put_ok _ k v s Hi Hws Hk Hv) as (s' & -> & Hi' & Ha' & Hc' & Hw'). cbn.
      unfold keeps, shows. cbn. rewrite Ha', Ha, Hc', Hc, Hw'. pose proof Hi' as (_ & _ & [Hf' _] & _). auto 10.
    + rewrite (wt_put_refused _ k v s Hi Hws). cbn. unfold keeps, shows. rewrite Hws. auto 10.
  - cbn. unfold keeps, shows. cbn. split; [done|]. split; [done|]. intros _. split; [exact Hi|]. done.
Qed.

Lemma promised_defined cap c p u : (promised cap c p).2 ≠ Undef u.
Proof. destruct c as [k|k v|w]; cbn; [destruct (rl_find _ _); [done|by destruct (_ =? _)]|by destruct (open_out p)|done]. Qed.

Lemma calls_ok cap cs : forall p s,
  keeps cap p s -> Forall int_call cs ->
  (calls cs s).2 = (promises cap cs p).2 /\ shows (promises cap cs p).1 (calls cs s).1.
Proof.
  induction cs as [|c cs IH]; intros p s Hk Hcs; [by destruct Hk as (_ & _ & ?)|].
  apply Forall_cons in Hcs as [Hc Hcs]. destruct (do_call_ok cap c p s Hk Hc) as (Hr & Hs & Hk').
  pose proof (promised_defined cap c p) as Hdef.
  cbn [calls promises]. destruct (do_call c s) as [s1 r1], (promised cap c p) as [p1 r2].
  cbn [fst snd] in *. subst r2. destruct r1 as [r|e| |u].
  - destruct (IH p1 s1) as [H1 H2]; [by apply Hk'|done|].
    destruct (calls cs s1), (promises cap cs p1). cbn in *. by subst.
  - destruct (IH p1 s1) as [H1 H2]; [by apply Hk'|done|].
    destruct (calls cs s1), (promises cap cs p1). cbn in *. by subst.
  - done.
  - by destruct (Hdef u).
Qed.

(** ** The cache and the file agree *)

(** The newest record of a key. *)
Fixpoint last_value (key : Z) (log : list (Z * Z)) : option Z :=
  match log with
  | [] => None
  | (k, v) :: log =>
      match last_value key log with
      | Some w => Some w
      | None => if decide (k = key) then Some v else None
      end
  end.

Definition agrees (p : promise) : Prop := forall k v, (k, v) ∈ recent p -> last_value k (records p) = Some v.

Lemma newest_record_snoc key log k v :
  last_value key (log ++ [(k, v)]) = if decide (k = key) then Some v else last_value key log.
Proof.
  induction log as [|[k' v'] log IH]; [done|]. cbn. rewrite IH. by destruct (decide (k = key)).
Qed.

Lemma promised_agrees cap c p : agrees p -> agrees (promised cap c p).1.
Proof.
  intros Ha. destruct c as [k|k v|w]; cbn [promised]; [|destruct (open_out p)|]; try done.
  - destruct (rl_find k (recent p)) as [x|]; [|done]. intros j w. cbn. unfold rl_touch, rl_without.
    rewrite elem_of_app, !list_elem_of_filter. intros [[_ H]|[_ H]]; by apply Ha.
  - intros j w H. cbn [fst recent records] in *. rewrite newest_record_snoc. apply elem_of_take in H as (i & H%list_elem_of_lookup_2 & _).
    apply elem_of_cons in H as [[= -> ->]|H]; [by rewrite decide_True|].
    apply list_elem_of_filter in H as [Hne H]. cbn in Hne. rewrite decide_False by done. by apply Ha.
Qed.

Lemma promises_agrees cap cs : forall p, agrees p -> agrees (promises cap cs p).1.
Proof.
  induction cs as [|c cs IH]; intros p Ha; [done|]. cbn [promises].
  pose proof (promised_agrees cap c p Ha) as H1. destruct (promised cap c p) as [p1 r]. cbn in H1.
  pose proof (IH p1 H1) as H2. destruct (promises cap cs p1) as [p2 rs]. by destruct r.
Qed.

Lemma rl_find_in k v (l : list entry) : rl_find k l = Some v -> (k, v) ∈ l.
Proof.
  induction l as [|[j x] l IH]; cbn; [done|]. destruct (decide (j = k)) as [->|].
  - intros [= ->]. apply list_elem_of_here.
  - intros H. by apply list_elem_of_further, IH.
Qed.

Lemma promised_bound cap c p :
  (List.length (recent p) <= cap)%nat -> (List.length (recent (promised cap c p).1) <= cap)%nat.
Proof.
  intros Hb. destruct c as [k|k v|w]; cbn [promised]; [|destruct (open_out p)|]; try done.
  - destruct (rl_find k (recent p)); [|done]. cbn. unfold rl_touch, rl_without.
    by rewrite (filter_app_complement (fun e : entry => e.1 = k)).
  - unfold rl_put. cbn [fst recent]. rewrite length_take. lia.
Qed.

Lemma promises_bound cap cs : forall p,
  (List.length (recent p) <= cap)%nat -> (List.length (recent (promises cap cs p).1) <= cap)%nat.
Proof.
  induction cs as [|c cs IH]; intros p Hb; [done|]. cbn [promises].
  pose proof (promised_bound cap c p Hb) as H1. destruct (promised cap c p) as [p1 r]. cbn in H1.
  pose proof (IH p1 H1) as H2. destruct (promises cap cs p1) as [p2 rs]. by destruct r.
Qed.

Lemma keeps_make cap log w f :
  default "" f = log_text log -> ints log ->
  keeps cap (MkPromise log [] w) (make cap (MkStorage f w)).
Proof.
  intros Hf Hl. split; [|done]. split; [apply indexed_empty|]. split; [unfold sl_size; cbn; lia|]. done.
Qed.

(** C30.  Write-through refines its promise: on any storage file that holds complete records of ints,
    or none yet, after any calls of [get] and [put] with ints, whether or not the file can be opened for
    writing at each, the calls have exactly the outcomes of the specification [promises]: a [put]
    appends its record to the file and makes its pair the most recent of the cache, or throws and
    changes nothing; a [get] of a cached key returns its value and makes it the most recent; of a key
    that is not cached it returns -1 when the oldest record of the key in the file says so or there is
    none, and otherwise never returns, because it calls [put] under its own mutex.  The file then holds
    exactly the records, the cache exactly the pairs, at most as many as its capacity, and every cached
    value is the newest record of its key. *)
Theorem write_through_refines (cap : nat) (log : list (Z * Z)) (f : option string) (w : bool) (cs : list call) :
  default "" f = log_text log -> ints log -> Forall int_call cs ->
  let '(s, rs) := calls cs (make cap (MkStorage f w)) in
  let '(p, rs') := promises cap cs (MkPromise log [] w) in
  rs = rs' /\ default "" (file (storage_ s)) = log_text (records p) /\ wt_abs s = recent p /\
  (List.length (recent p) <= cap)%nat /\
  (forall k v, rl_find k (recent p) = Some v -> last_value k (records p) = Some v).
Proof.
  intros Hf Hl Hcs. pose proof (keeps_make cap log w f Hf Hl) as Hk.
  destruct (calls_ok cap cs _ _ Hk Hcs) as [Hr (Hfile & Ha & _)].
  pose proof (promises_agrees cap cs (MkPromise log [] w)) as Hag.
  pose proof (promises_bound cap cs (MkPromise log [] w) (Nat.le_0_l cap)) as Hb.
  destruct (calls cs _) as [s rs], (promises cap cs _) as [p rs']. cbn in *.
  do 3 (split; [done|]). split; [done|]. intros k v Hkv.
  apply Hag; [intros ? ? H; by apply not_elem_of_nil in H|]. by apply rl_find_in.
Qed.

(** On a file with one old record: two pairs fit; the value that was put last is cached, the third put
    is refused, and the key that was evicted hangs the last call. *)
Lemma write_through_refines_witness :
  let '(s, rs) := calls [Put 1 100; Put 2 200; Put 1 101; Get 1; Get 9; Permit false; Put 4 400; Permit true;
                         Put 3 300; Get 2; Get 1]
                    (make 2 (MkStorage (Some (log_text [(7, 70)])) true)) in
  rs = [Ret None; Ret None; Ret None; Ret (Some 101); Ret (Some (-1)); Ret None;
        Throw (runtime_error "Unable to open file for writing"); Ret None; Ret None; Hang] /\
  file (storage_ s) = Some (log_text [(7, 70); (1, 100); (2, 200); (1, 101); (3, 300)]) /\
  wt_abs s = [(3, 300); (1, 101)].
Proof.
  assert (Hl : ints [(7, 70)]) by (repeat constructor; vm_compute; congruence).
  assert (Hc : Forall int_call [Put 1 100; Put 2 200; Put 1 101; Get 1; Get 9; Permit false; Put 4 400;
    Permit true; Put 3 300; Get 2; Get 1]) by (repeat first [constructor|split|vm_compute; congruence]).
  pose proof (write_through_refines 2 [(7, 70)] (Some (log_text [(7, 70)])) true _ eq_refl Hl Hc) as H.
  destruct (calls _ _) as [s rs] eqn:Hrun. vm_compute in Hrun. injection Hrun as <- <-.
  destruct H as (-> & _). vm_compute. done.
Defined.

(** ** The program *)

(** [main], which returns the four values it prints. *)
Definition main : prog WriteThroughCache (list Z) :=
  (put 1 100;;; put 2 200;;; put 3 300;;;
   let! a := get 1 in
   let! b := get 2 in
   put 4 400;;;
   let! c := get 3 in
   let! d := get 4 in
   prog_ret [a; b; c; d])%prog.

(** On a writable storage it stops at the call it says "should miss and read from storage": the two
    hits made 3 the least recent key, and the miss takes the mutex twice. *)
Example write_through_main :
  let '(s, r) := main (make 3 (MkStorage None true)) in
  r = Hang /\ wt_abs s = [(4, 400); (2, 200); (1, 100)] /\
  file (storage_ s) = Some (unlines nl [line 1 100; line 2 200; line 3 300; line 4 400]).
Proof. vm_compute. done. Qed.
