(* ===== verification/LfuCache.v ===== *)
(** * The LFU cache ([caching/lfu_cache.cpp])

    [LFUCache] with its hash map of list iterators and its hash map of frequency lists.  The
    abstract cache is one list of nodes in order of last use; the frequency lists are its views. *)

From S2P Require Import Prelude StdList.
Local Open Scope Z_scope.

Record Node : Type := MkNode { key : Z; value : Z; freq : Z }.

(** Iterators are node identities; [fresh] is the next one. *)
Record LFUCache : Type := MkLFU {
  capacity : Z;
  minFreq : Z;
  keyNode : gmap Z nat;
  freqList : gmap Z (list (nat * Node));
  fresh : nat
}.

Definition make (cap : Z) : LFUCache := MkLFU cap 0 ∅ ∅ 0.

(** [*it], searched in every list. *)
Definition deref (it : nat) (s : LFUCache) : option Node :=
  node_deref it (map_to_list (freqList s) ≫= snd).

(** [freqList[f]] inserts an empty list for a missing key. *)
Definition bucket (fl : gmap Z (list (nat * Node))) (f : Z) : list (nat * Node) :=
  default [] (fl !! f).

(** [list.erase(it)]. *)
Definition erase_node (it : nat) (l : list (nat * Node)) : list (nat * Node) :=
  filter (fun n => n.1 ≠ it) l.

(** Stores a list back, and drops it with its key if it became empty. *)
Definition put_bucket (fl : gmap Z (list (nat * Node))) (f : Z) (l : list (nat * Node)) :
    gmap Z (list (nat * Node)) :=
  match l with
  | [] => delete f fl
  | _ => <[f := l]> fl
  end.

(** [freqList[f].push_front(node); keyNode[key] = freqList[f].begin()]. *)
Definition push_node (n : Node) (s : LFUCache) : LFUCache :=
  MkLFU (capacity s) (minFreq s) (<[key n := fresh s]> (keyNode s))
    (<[freq n := (fresh s, n) :: bucket (freqList s) (freq n)]> (freqList s)) (S (fresh s)).

(** [freq] is an [int]: incrementing its largest value is undefined. *)
Definition updateFrequency (it : nat) : prog LFUCache unit := fun s =>
  match deref it s with
  | None => (s, Undef dangling_iterator)
  | Some node =>
      if freq node =? int_max then (s, Undef signed_overflow)
      else
        let l := erase_node it (bucket (freqList s) (freq node)) in
        let m := match l with
                 | [] => if minFreq s =? freq node then minFreq s + 1 else minFreq s
                 | _ => minFreq s
                 end in
        let s1 := MkLFU (capacity s) m (keyNode s) (put_bucket (freqList s) (freq node) l) (fresh s) in
        (push_node (MkNode (key node) (value node) (freq node + 1)) s1, Ret tt)
  end.

Definition get (k : Z) : prog LFUCache Z := fun s =>
  if capacity s =? 0 then (s, Ret (-1))
  else match keyNode s !! k with
       | None => (s, Ret (-1))
       | Some it =>
           match deref it s with
           | None => (s, Undef dangling_iterator)
           | Some node => prog_bind (updateFrequency it) (fun _ => prog_ret (value node)) s
           end
       end.

(** [it->second->value = value]. *)
Definition set_node (it : nat) (v : Z) (l : list (nat * Node)) : list (nat * Node) :=
  (fun n => if decide (n.1 = it) then (n.1, MkNode (key n.2) v (freq n.2)) else n) <$> l.
Definition set_value (it : nat) (v : Z) (s : LFUCache) : LFUCache :=
  MkLFU (capacity s) (minFreq s) (keyNode s) (set_node it v <$> freqList s) (fresh s).

(** [keyNode.size() == capacity] compares a [size_t] with an [int]. *)
Definition isFull (s : LFUCache) : bool :=
  Z.of_nat (size (keyNode s)) =? to_size_t (capacity s).

(** Drops the back of the list of [minFreq]. *)
Definition evict : prog LFUCache unit := fun s =>
  let l := bucket (freqList s) (minFreq s) in
  match last l with
  | None => (s, Undef empty_container)
  | Some (_, node) =>
      (MkLFU (capacity s) (minFreq s) (delete (key node) (keyNode s))
         (put_bucket (freqList s) (minFreq s) (removelast l)) (fresh s), Ret tt)
  end.

Definition insertNew (k v : Z) : prog LFUCache unit := fun s =>
  (push_node (MkNode k v 1) (MkLFU (capacity s) 1 (keyNode s) (freqList s) (fresh s)), Ret tt).

Definition put (k v : Z) : prog LFUCache unit := fun s =>
  if capacity s =? 0 then (s, Ret tt)
  else match keyNode s !! k with
       | Some it =>
           match deref it s with
           | None => (s, Undef dangling_iterator)
           | Some _ => updateFrequency it (set_value it v s)
           end
       | None =>
           if isFull s then prog_bind evict (fun _ => insertNew k v) s else insertNew k v s
       end.

(** ** What an LFU cache promises *)

(** Nodes in order of last use, most recent first. *)
Definition a_without (k : Z) (l : list Node) : list Node := filter (fun n => key n ≠ k) l.
Definition a_find (k : Z) (l : list Node) : option Node := head (filter (fun n => key n = k) l).

Definition a_min (l : list Node) : Z := foldr (fun n m => Z.min (freq n) m) int_max l.

(** The victim: of the least frequently used nodes, the one used longest ago. *)
Definition a_victim (l : list Node) : option Node := last (filter (fun n => freq n = a_min l) l).

Definition a_use (v : Z -> Z) (k : Z) (l : list Node) : list Node :=
  match a_find k l with
  | Some n => MkNode k (v (value n)) (freq n + 1) :: a_without k l
  | None => l
  end.

Definition a_get (k : Z) (l : list Node) : list Node := a_use (fun v => v) k l.

Definition a_put (cap : nat) (k v : Z) (l : list Node) : list Node :=
  match a_find k l with
  | Some _ => a_use (fun _ => v) k l
  | None =>
      MkNode k v 1 ::
        (if decide (length l = cap)
         then match a_victim l with Some n => a_without (key n) l | None => l end
         else l)
  end.

(** ** The views of the node list *)

Definition view (L : slist Node) (f : Z) : list (nat * Node) :=
  filter (fun n => freq n.2 = f) (sl_nodes L).

(** The map of lists holds the non-empty views. *)
Definition views (L : slist Node) (fl : gmap Z (list (nat * Node))) : Prop :=
  forall f, fl !! f = match view L f with [] => None | l => Some l end.

Record lfu_inv (n : Z) (L : slist Node) (s : LFUCache) : Prop := {
  inv_cap : 0 < capacity s <= int_max;
  inv_ix : indexed key (keyNode s) L;
  inv_size : (sl_size L <= Z.to_nat (capacity s))%nat;
  inv_views : views L (freqList s);
  inv_fresh : fresh s = sl_next L;
  inv_freq : Forall (fun m => 1 <= freq m.2 <= n) (sl_nodes L)
}.

(** [minFreq] is the least frequency in the cache. *)
Definition min_ok (L : slist Node) (s : LFUCache) : Prop :=
  sl_nodes L ≠ [] -> minFreq s = a_min (sl_values L).

Lemma views_bucket L fl f : views L fl -> bucket fl f = view L f.
Proof. intros Hv. unfold bucket. rewrite Hv. by destruct (view L f). Qed.

Lemma elem_of_view L f m : m ∈ view L f <-> freq m.2 = f /\ m ∈ sl_nodes L.
Proof. unfold view. by rewrite list_elem_of_filter. Qed.

Lemma node_deref_elem {A : Type} it (x : A) ns : node_deref it ns = Some x -> (it, x) ∈ ns.
Proof.
  induction ns as [|[i y] ns IH]; simpl; [done|].
  case_decide; [intros [= ->]; subst; left|right; auto].
Qed.

Lemma node_deref_is_Some {A : Type} it (x : A) ns : (it, x) ∈ ns -> is_Some (node_deref it ns).
Proof.
  induction ns as [|[i y] ns IH]; simpl; intros Hin; [by apply not_elem_of_nil in Hin|].
  case_decide; [eauto|]. apply elem_of_cons in Hin as [[= -> ->]|Hin]; [done|auto].
Qed.

(** Dereferencing finds the node of the list. *)
Lemma deref_node L s it x :
  sl_wf L -> views L (freqList s) -> (it, x) ∈ sl_nodes L -> deref it s = Some x.
Proof.
  intros Hwf Hv Hin. unfold deref.
  assert (Hall : forall m, m ∈ (map_to_list (freqList s) ≫= snd) -> m ∈ sl_nodes L).
  { intros m Hm. apply list_elem_of_bind in Hm as ([f l] & Hm & Hf).
    apply elem_of_map_to_list in Hf. rewrite Hv in Hf. simpl in Hm.
    apply (elem_of_view L f). destruct (view L f); simplify_eq. done. }
  assert (Hx : (it, x) ∈ (map_to_list (freqList s) ≫= snd)).
  { apply list_elem_of_bind. exists (freq x, view L (freq x)). split; [by apply elem_of_view|].
    apply elem_of_map_to_list. rewrite Hv. assert (Hne : (it, x) ∈ view L (freq x)) by (by apply elem_of_view).
    destruct (view L (freq x)); [by apply not_elem_of_nil in Hne|done]. }
  apply node_deref_is_Some in Hx as [y Hy]. rewrite Hy. f_equal.
  eapply sl_wf_functional; [done| |done]. apply Hall, node_deref_elem. done.
Qed.

Lemma view_values L f : (view L f).*2 = filter (fun m => freq m = f) (sl_values L).
Proof. unfold view, sl_values. by rewrite list_filter_fmap. Qed.

(** Filtering a view is viewing the filtered list. *)
Lemma view_erase L it f : view (sl_erase it L) f = erase_node it (view L f).
Proof. unfold view, erase_node. simpl. rewrite !list_filter_filter. apply list_filter_iff. naive_solver. Qed.

Lemma view_push L n f :
  view (push_front n L) f = if decide (freq n = f) then (sl_next L, n) :: view L f else view L f.
Proof.
  unfold view, push_front. simpl. rewrite filter_cons. simpl. by destruct (decide (freq n = f)).
Qed.

Lemma view_update L it v f :
  view (sl_update it (fun n => MkNode (key n) v (freq n)) L) f = set_node it v (view L f).
Proof.
  unfold view, set_node. simpl. induction (sl_nodes L) as [|[i y] ns IH]; [done|].
  rewrite fmap_cons, !filter_cons. simpl.
  destruct (decide (i = it)); simpl; case_decide; rewrite ?fmap_cons; simpl; rewrite IH; try done.
  - by rewrite decide_True.
  - by rewrite decide_False.
Qed.

Lemma views_push L fl n :
  views L fl -> views (push_front n L) (<[freq n := (sl_next L, n) :: bucket fl (freq n)]> fl).
Proof.
  intros Hv f. rewrite view_push, (views_bucket L) by done. rewrite lookup_insert.
  case_decide as Hf; [by rewrite Hf|]. apply Hv.
Qed.

Lemma views_put L L' fl f :
  views L fl -> (forall g, g ≠ f -> view L' g = view L g) -> views L' (put_bucket fl f (view L' f)).
Proof.
  intros Hv Hg g. unfold put_bucket. destruct (decide (f = g)) as [->|Hne].
  - destruct (view L' g); [apply lookup_delete_eq|apply lookup_insert_eq].
  - rewrite (Hg g) by done. destruct (view L' f).
    + rewrite lookup_delete_ne by done. apply Hv.
    + rewrite lookup_insert_ne by done. apply Hv.
Qed.

(** Erasing a node changes the view of its frequency only. *)
Lemma view_erase_ne L it x g :
  sl_wf L -> (it, x) ∈ sl_nodes L -> g ≠ freq x -> view (sl_erase it L) g = view L g.
Proof.
  intros Hwf Hin Hg. rewrite view_erase. apply list_filter_all, Forall_forall.
  intros [i y] Hy. simpl. intros ->. apply elem_of_view in Hy as [Hf Hy].
  rewrite (sl_wf_functional L it x y) in Hg by done. done.
Qed.

(** Under the keys of an indexed list, dropping a node is dropping its key. *)
Lemma values_split m L it x :
  indexed key m L -> (it, x) ∈ sl_nodes L ->
  a_find (key x) (sl_values L) = Some x /\
  sl_values (sl_erase it L) = a_without (key x) (sl_values L) /\
  S (sl_size (sl_erase it L)) = sl_size L.
Proof.
  intros Hix Hin. pose proof (indexed_NoDup key _ _ Hix) as Hnd. unfold sl_keys in Hnd.
  destruct (sl_wf_split L it x) as (n1 & n2 & Hn & He & _); [apply Hix|done|].
  unfold a_find, a_without, sl_values, sl_size. rewrite He, Hn.
  rewrite Hn, fmap_app, fmap_cons in Hnd. apply NoDup_app in Hnd as (_ & Hd & Hnd).
  apply NoDup_cons in Hnd as [Hx _]. simpl in *.
  assert (Hne : forall y, y ∈ n1.*2 ++ n2.*2 -> key y ≠ key x).
  { intros y Hy Heq. apply elem_of_app in Hy as [Hy|Hy]; apply list_elem_of_fmap in Hy as ([i z] & -> & Hy);
      simpl in Heq.
    - apply (Hd (key z)); [|rewrite Heq; left]. by apply (list_elem_of_fmap_2 (fun n => key n.2)) in Hy.
    - apply Hx. rewrite <-Heq. by apply (list_elem_of_fmap_2 (fun n => key n.2)) in Hy. }
  rewrite !fmap_app, fmap_cons, !filter_app, filter_cons_True, filter_cons_False by (simpl; auto).
  split; [|split].
  - rewrite (list_filter_none _ n1.*2); [done|]. apply Forall_forall. intros y Hy. apply Hne.
    set_solver.
  - rewrite !list_filter_all; [done|..]; apply Forall_forall; intros y Hy; apply Hne; set_solver.
  - rewrite !length_app. simpl. lia.
Qed.

(** The least frequency. *)
Lemma a_min_unique l m :
  Forall (fun n => freq n <= int_max) l -> (exists x, x ∈ l /\ freq x = m) ->
  (forall x, x ∈ l -> m <= freq x) -> a_min l = m.
Proof.
  intros Hall (x & Hx & Hm) Hlow.
  assert (Hle : forall y, y ∈ l -> a_min l <= freq y).
  { clear. induction l as [|z l IH]; intros y Hy; [by apply not_elem_of_nil in Hy|]. simpl.
    apply elem_of_cons in Hy as [->|Hy]; [lia|]. specialize (IH y Hy). lia. }
  assert (Hge : m <= a_min l).
  { assert (Hmax : m <= int_max) by (rewrite Forall_forall in Hall; rewrite <-Hm; auto).
    clear - Hlow Hmax. induction l as [|z l IH]; simpl; [done|].
    assert (m <= freq z) by (apply Hlow; left). assert (m <= a_min l); [|lia].
    apply IH. intros y Hy. apply Hlow. by right. }
  specialize (Hle x Hx). lia.
Qed.

Lemma a_min_spec l :
  l ≠ [] -> Forall (fun n => freq n <= int_max) l ->
  (exists x, x ∈ l /\ freq x = a_min l) /\ forall x, x ∈ l -> a_min l <= freq x.
Proof.
  intros Hne Hall. induction Hall as [|z l Hz Hall IH]; [done|]. simpl.
  destruct (decide (l = [])) as [->|Hl].
  - simpl. rewrite Z.min_l by done. split; [exists z; split; [left|done]|].
    intros x Hx. apply list_elem_of_singleton in Hx as ->. done.
  - destruct (IH Hl) as [(x & Hx & Hm) Hlow]. split.
    + destruct (Z.min_spec (freq z) (a_min l)) as [[_ ->]|[_ ->]];
        [exists z; split; [left|done]|exists x; split; [by right|done]].
    + intros y Hy. apply elem_of_cons in Hy as [->|Hy]; [lia|]. specialize (Hlow y Hy). lia.
Qed.

Lemma elem_of_values (L : slist Node) (x : Node) : x ∈ sl_values L <-> exists i, (i, x) ∈ sl_nodes L.
Proof.
  unfold sl_values. rewrite list_elem_of_fmap. split.
  - intros ([i y] & -> & Hin). eauto.
  - intros [i Hin]. by exists (i, x).
Qed.

Lemma freq_bound n L : Forall (fun m => 1 <= freq m.2 <= n) (sl_nodes L) -> n <= int_max ->
  Forall (fun m => freq m <= int_max) (sl_values L).
Proof. intros Hf Hn. unfold sl_values. rewrite Forall_fmap. eapply Forall_impl; [done|]. simpl. lia. Qed.

Lemma freq_update n L it x v :
  (it, x) ∈ sl_nodes L -> Forall (fun m => 1 <= freq m.2 <= n) (sl_nodes L) ->
  Forall (fun m => 1 <= freq m.2 <= n + 1)
    (sl_nodes (push_front (MkNode (key x) v (freq x + 1)) (sl_erase it L))).
Proof.
  intros Hin Hf. rewrite Forall_forall in Hf. simpl. constructor.
  - apply Hf in Hin. simpl in *. lia.
  - apply Forall_forall. intros m Hm. apply list_elem_of_filter in Hm as [_ Hm]. apply Hf in Hm. lia.
Qed.

(** The new least frequency after one node moves up. *)
Lemma a_min_update L it x n :
  sl_wf L -> (it, x) ∈ sl_nodes L -> Forall (fun m => 1 <= freq m.2 <= n) (sl_nodes L) ->
  n < int_max ->
  let L' := push_front (MkNode (key x) (value x) (freq x + 1)) (sl_erase it L) in
  a_min (sl_values L') =
    match erase_node it (view L (freq x)) with
    | [] => if a_min (sl_values L) =? freq x then a_min (sl_values L) + 1 else a_min (sl_values L)
    | _ => a_min (sl_values L)
    end.
Proof.
  intros Hwf Hin Hf Hn L'.
  assert (Hxv : x ∈ sl_values L) by (apply elem_of_values; eauto).
  destruct (a_min_spec (sl_values L)) as [(y & Hy & Hmin) Hlow];
    [intros He; rewrite He in Hxv; by apply not_elem_of_nil in Hxv|by apply (freq_bound n); [|lia]|].
  assert (Hall : Forall (fun m => freq m <= int_max) (sl_values L')).
  { apply (freq_bound (n + 1)); [|lia]. by apply freq_update. }
  assert (Hnew : forall z, z ∈ sl_values L' <->
    z = MkNode (key x) (value x) (freq x + 1) \/ exists i, (i, z) ∈ sl_nodes L /\ i ≠ it).
  { intros z. rewrite elem_of_values. simpl. setoid_rewrite elem_of_cons.
    setoid_rewrite list_elem_of_filter. simpl. split.
    - intros (i & [[= -> ->]|[? ?]]); eauto.
    - intros [->|(i & ? & ?)]; eauto. }
  assert (Hup : forall z, z ∈ sl_values L' -> a_min (sl_values L) <= freq z).
  { intros z Hz. apply Hnew in Hz as [->|(i & Hz & _)]; simpl.
    - specialize (Hlow x Hxv). lia.
    - apply Hlow, elem_of_values. eauto. }
  destruct (erase_node it (view L (freq x))) as [|[j w] l] eqn:He.
  - assert (Hno : forall i z, (i, z) ∈ sl_nodes L -> i ≠ it -> freq z ≠ freq x).
    { intros i z Hz Hi Heq. assert (Hc : (i, z) ∈ erase_node it (view L (freq x))).
      { apply list_elem_of_filter. split; [done|]. by apply elem_of_view. }
      rewrite He in Hc. by apply not_elem_of_nil in Hc. }
    destruct (Z.eqb_spec (a_min (sl_values L)) (freq x)) as [Heq|Hneq].
    + apply a_min_unique; [done|eexists; split; [apply Hnew; by left|simpl; lia]|].
      intros z Hz. apply Hnew in Hz as [->|(i & Hz & Hi)]; simpl; [lia|].
      specialize (Hno i z Hz Hi). specialize (Hlow z). rewrite elem_of_values in Hlow.
      specialize (Hlow (ex_intro _ i Hz)). lia.
    + apply a_min_unique; [done| |done]. exists y. split; [|done]. apply Hnew. right.
      apply elem_of_values in Hy as [i Hy]. exists i. split; [done|]. intros ->.
      rewrite (sl_wf_functional L it y x) in Hmin by done. congruence.
  - assert (Hw : (j, w) ∈ erase_node it (view L (freq x))) by (rewrite He; left).
    apply list_elem_of_filter in Hw as [Hj Hw]. apply elem_of_view in Hw as [Hfw Hw]. simpl in Hj, Hfw.
    apply a_min_unique; [done| |done].
    apply elem_of_values in Hy as [i Hy]. destruct (decide (i = it)) as [->|Hi].
    + exists w. split; [apply Hnew; right; eauto|].
      rewrite (sl_wf_functional L it y x) in Hmin by done. congruence.
    + exists y. split; [apply Hnew; right; eauto|done].
Qed.

(** ** The operations *)

Lemma updateFrequency_ok n L s it x :
  lfu_inv n L s -> min_ok L s -> n < int_max -> (it, x) ∈ sl_nodes L ->
  let L' := push_front (MkNode (key x) (value x) (freq x + 1)) (sl_erase it L) in
  exists s', updateFrequency it s = (s', Ret tt) /\ lfu_inv (n + 1) L' s' /\ min_ok L' s' /\
    capacity s' = capacity s.
Proof.
  intros Hi Hm Hn Hin L'. pose proof Hi as [Hc Hix Hsz Hv Hfr Hf].
  assert (Hwf : sl_wf L) by apply Hix.
  assert (Hk : keyNode s !! key x = Some it) by (apply Hix; eauto).
  assert (Hb : 1 <= freq x <= n) by (rewrite Forall_forall in Hf; apply (Hf _ Hin)).
  unfold updateFrequency. rewrite (deref_node L s it x) by done.
  rewrite (proj2 (Z.eqb_neq (freq x) int_max)) by lia. rewrite (views_bucket L) by done.
  eexists. split; [done|]. split; [|split; [|done]].
  - constructor; cbn [push_node capacity keyNode freqList fresh key freq].
    + done.
    + rewrite Hfr. change (sl_next L) with (sl_next (sl_erase it L)).
      rewrite <-(insert_delete_eq (keyNode s) (key x)).
      apply (indexed_push_front key _ _ (MkNode (key x) (value x) (freq x + 1)));
        [by apply indexed_erase|apply lookup_delete_eq].
    + destruct (values_split _ L it x Hix Hin) as (_ & _ & Hs).
      change (sl_size L') with (S (sl_size (sl_erase it L))). lia.
    + rewrite Hfr. apply (views_push (sl_erase it L) _ (MkNode (key x) (value x) (freq x + 1))).
      rewrite <-view_erase. apply (views_put L); [done|]. intros g. by apply view_erase_ne.
    + simpl. by rewrite Hfr.
    + by apply freq_update.
  - intros _. cbn [push_node minFreq]. unfold L'. rewrite (a_min_update L it x n) by done.
    rewrite Hm; [done|]. intros He. rewrite He in Hin. by apply not_elem_of_nil in Hin.
Qed.

Lemma abs_use n L s k it v f :
  lfu_inv n L s -> keyNode s !! k = Some it -> exists x,
    (it, x) ∈ sl_nodes L /\ key x = k /\ a_find k (sl_values L) = Some x /\
    sl_values (push_front (MkNode k v f) (sl_erase it L)) =
      MkNode k v f :: a_without k (sl_values L).
Proof.
  intros Hi Hk. pose proof (inv_ix _ _ _ Hi) as Hix. pose proof Hix as [_ Hm].
  apply Hm in Hk as (x & Hin & <-). exists x.
  destruct (values_split _ L it x Hix Hin) as (Ha & Hb & _).
  do 3 (split; [done|]). rewrite <-Hb. done.
Qed.

Lemma abs_none n L s k : lfu_inv n L s -> keyNode s !! k = None -> a_find k (sl_values L) = None.
Proof.
  intros Hi Hk. apply (indexed_None key _ _ k (inv_ix _ _ _ Hi)) in Hk.
  unfold a_find. rewrite list_filter_none; [done|]. apply Forall_forall. intros x Hx Heq.
  apply elem_of_values in Hx as [i Hx]. apply Hk. unfold sl_keys. rewrite <-Heq.
  by apply (list_elem_of_fmap_2 (fun n => key n.2)) in Hx.
Qed.

Lemma capacity_nonzero n L s : lfu_inv n L s -> (capacity s =? 0) = false.
Proof. intros Hi. pose proof (inv_cap _ _ _ Hi). apply Z.eqb_neq. lia. Qed.

Lemma get_ok n L s k :
  lfu_inv n L s -> min_ok L s -> n < int_max -> exists s' L',
    get k s = (s', Ret (default (-1) (value <$> a_find k (sl_values L)))) /\
    lfu_inv (n + 1) L' s' /\ min_ok L' s' /\ sl_values L' = a_get k (sl_values L) /\
    capacity s' = capacity s.
Proof.
  intros Hi Hm Hn. unfold get, a_get, a_use. rewrite (capacity_nonzero n L) by done.
  destruct (keyNode s !! k) as [it|] eqn:Hk.
  - assert (Hkey : forall v f, exists x, (it, x) ∈ sl_nodes L /\ key x = k /\
      a_find k (sl_values L) = Some x /\
      sl_values (push_front (MkNode k v f) (sl_erase it L)) = MkNode k v f :: a_without k (sl_values L))
      by (intros; by eapply abs_use).
    destruct (Hkey 0 0) as (x & Hin & Hkx & Hf & _). rewrite Hf.
    rewrite (deref_node L s it x); [|apply Hi|apply Hi|done].
    destruct (updateFrequency_ok n L s it x Hi Hm Hn Hin) as (s' & Hu & Hi' & Hm' & Hc).
    unfold prog_bind. rewrite Hu. eexists s', _. split; [done|]. do 2 (split; [done|]).
    split; [|done]. rewrite Hkx. by destruct (Hkey (value x) (freq x + 1)) as (_ & _ & _ & _ & ->).
  - rewrite (abs_none n L s) by done. exists s, L. split; [done|].
    split; [|done]. destruct Hi as [? ? ? ? ? Hf]. constructor; try done.
    eapply Forall_impl; [done|]. simpl. lia.
Qed.

Lemma lfu_insertNew_ok n L s k v :
  lfu_inv n L s -> keyNode s !! k = None -> 1 <= n <= int_max -> (sl_size L < Z.to_nat (capacity s))%nat ->
  let L' := push_front (MkNode k v 1) L in
  exists s', insertNew k v s = (s', Ret tt) /\ lfu_inv n L' s' /\ min_ok L' s' /\
    capacity s' = capacity s.
Proof.
  intros [Hc Hix Hsz Hv Hfr Hf] Hk Hn Hlt L'. eexists. split; [done|].
  assert (Hf' : Forall (fun m => 1 <= freq m.2 <= n) (sl_nodes L')).
  { simpl. constructor; [simpl; lia|done]. }
  split; [|split; [|done]].
  - constructor; cbn [push_node capacity keyNode freqList fresh key freq]; try done.
    + rewrite Hfr. by apply (indexed_push_front key _ L (MkNode k v 1)).
    + rewrite Hfr. by apply (views_push L _ (MkNode k v 1)).
    + simpl. by rewrite Hfr.
  - intros _. cbn [push_node minFreq]. symmetry. apply a_min_unique.
    + by apply (freq_bound n); [|lia].
    + exists (MkNode k v 1). split; [left|done].
    + intros x Hx. apply elem_of_values in Hx as [i Hx]. rewrite Forall_forall in Hf'.
      apply Hf' in Hx. simpl in Hx. lia.
Qed.

Lemma erase_last (l : list (nat * Node)) i x :
  NoDup (l.*1) -> last l = Some (i, x) -> erase_node i l = removelast l.
Proof.
  intros Hnd Hl. apply last_Some_snoc in Hl as [l' ->]. rewrite removelast_snoc.
  unfold erase_node. rewrite filter_app, filter_cons_False by (simpl; auto).
  rewrite filter_nil, app_nil_r. apply list_filter_all, Forall_forall. intros [j y] Hj. simpl.
  intros ->. rewrite fmap_app in Hnd. apply NoDup_app in Hnd as (_ & Hd & _).
  apply elem_of_fst, Hd in Hj. apply Hj. left.
Qed.

Lemma lfu_evict_ok n L s :
  lfu_inv n L s -> min_ok L s -> n <= int_max -> (0 < sl_size L)%nat -> exists s' L' x,
    evict s = (s', Ret tt) /\ lfu_inv n L' s' /\ capacity s' = capacity s /\
    a_victim (sl_values L) = Some x /\ sl_values L' = a_without (key x) (sl_values L) /\
    S (sl_size L') = sl_size L /\ (forall k, keyNode s !! k = None -> keyNode s' !! k = None).
Proof.
  intros Hi Hm Hn Hpos. pose proof Hi as [Hc Hix Hsz Hv Hfr Hf].
  assert (Hne : sl_nodes L ≠ []) by (intros He; unfold sl_size in Hpos; rewrite He in Hpos; simpl in Hpos; lia).
  assert (Hvne : sl_values L ≠ []) by (unfold sl_values; by destruct (sl_nodes L)).
  destruct (a_min_spec (sl_values L) Hvne) as [(y & Hy & Hmin) Hlow]; [by apply (freq_bound n)|].
  specialize (Hm Hne). unfold evict. rewrite (views_bucket L), Hm by done.
  assert (Hview : (view L (a_min (sl_values L))).*2 =
    filter (fun m => freq m = a_min (sl_values L)) (sl_values L)).
  { apply view_values. }
  destruct (last (view L (a_min (sl_values L)))) as [[i x]|] eqn:Hl.
  2: { apply last_None in Hl. apply elem_of_values in Hy as [j Hy].
       assert (Hc' : (j, y) ∈ view L (a_min (sl_values L))) by (by apply elem_of_view).
       rewrite Hl in Hc'. by apply not_elem_of_nil in Hc'. }
  assert (Hx : (i, x) ∈ view L (a_min (sl_values L))).
  { pose proof Hl as Hl'. apply last_Some_snoc in Hl' as [l ->]. set_solver. }
  apply elem_of_view in Hx as [Hfx Hx]. simpl in Hfx.
  assert (Hnd : NoDup ((view L (a_min (sl_values L))).*1)).
  { eapply sublist_NoDup; [|apply fmap_sublist, sublist_filter]. apply Hix. }
  destruct (values_split _ L i x Hix Hx) as (_ & Hval & Hs).
  eexists _, (sl_erase i L), x. split; [done|].
  split; [constructor; cbn [capacity keyNode freqList fresh]|].
  - done.
  - apply indexed_erase; [done|]. apply Hix. eauto.
  - lia.
  - rewrite <-(erase_last _ i x), <-view_erase by done. apply (views_put L); [done|].
    intros g Hg. apply view_erase_ne with x; [apply Hix|done|congruence].
  - done.
  - apply Forall_forall. intros m Hm'. apply list_elem_of_filter in Hm' as [_ Hm'].
    rewrite Forall_forall in Hf. auto.
  - split; [done|]. split.
    { unfold a_victim. rewrite <-Hview, fmap_last, Hl. done. }
    split; [done|]. split; [done|]. intros k Hk. apply lookup_delete_None. by right.
Qed.

(** Assigning a value through an iterator. *)
Lemma set_value_ok n L s it v :
  lfu_inv n L s -> min_ok L s ->
  let L' := sl_update it (fun m => MkNode (key m) v (freq m)) L in
  lfu_inv n L' (set_value it v s) /\ min_ok L' (set_value it v s).
Proof.
  intros [Hc Hix Hsz Hv Hfr Hf] Hm L'. split; [constructor; simpl|].
  - done.
  - by apply indexed_update.
  - unfold sl_size in *. simpl. by rewrite length_fmap.
  - intros f. unfold L'. rewrite view_update, lookup_fmap, Hv. by destruct (view L f).
  - done.
  - apply Forall_fmap. eapply Forall_impl; [done|]. intros [j x]; simpl. by case_decide.
  - intros Hne. simpl in *. rewrite Hm; [|by destruct (sl_nodes L)].
    unfold sl_values. simpl. clear. induction (sl_nodes L) as [|[j x] ns IH]; [done|].
    rewrite !fmap_cons. simpl. rewrite IH. by case_decide.
Qed.

Lemma lfu_isFull_spec n L s :
  lfu_inv n L s -> isFull s = bool_decide (length (sl_values L) = Z.to_nat (capacity s)).
Proof.
  intros [Hc Hix Hsz _ _ _]. unfold isFull. rewrite (indexed_size key _ _ Hix).
  assert (Hz : to_size_t (capacity s) = capacity s).
  { unfold to_size_t, size_t_mod, int_max in *. apply Z.mod_small. lia. }
  rewrite Hz. unfold sl_values. rewrite length_fmap. fold (sl_size L).
  case_bool_decide; [apply Z.eqb_eq|apply Z.eqb_neq]; lia.
Qed.

Lemma lfu_inv_weaken n L s : lfu_inv n L s -> lfu_inv (n + 1) L s.
Proof. intros [? ? ? ? ? Hf]. constructor; try done. eapply Forall_impl; [done|]. simpl. lia. Qed.

Lemma put_hit n L s k v it :
  lfu_inv n L s -> min_ok L s -> n < int_max -> keyNode s !! k = Some it -> exists s' L' x,
    put k v s = (s', Ret tt) /\ lfu_inv (n + 1) L' s' /\ min_ok L' s' /\
    a_find k (sl_values L) = Some x /\
    sl_values L' = MkNode k v (freq x + 1) :: a_without k (sl_values L) /\ capacity s' = capacity s.
Proof.
  intros Hi Hm Hn Hk. unfold put. rewrite (capacity_nonzero n L), Hk by done.
  set (f := fun m => MkNode (key m) v (freq m)).
  destruct (abs_use n L s k it v 0 Hi Hk) as (x & Hin & Hkx & Hf & _).
  rewrite (deref_node L s it x); [|apply Hi|apply Hi|done].
  destruct (set_value_ok n L s it v Hi Hm) as [Hi1 Hm1].
  assert (Hin1 : (it, f x) ∈ sl_nodes (sl_update it f L)).
  { simpl. apply list_elem_of_fmap. exists (it, x). simpl. by rewrite decide_True. }
  destruct (updateFrequency_ok n _ _ it (f x) Hi1 Hm1 Hn Hin1) as (s' & Hu & Hi' & Hm' & Hc).
  eexists s', _, x. split; [done|]. do 3 (split; [done|]). split; [|done].
  rewrite sl_erase_update. cbn [key value freq f]. rewrite Hkx.
  by destruct (abs_use n L s k it v (freq x + 1) Hi Hk) as (y & _ & _ & _ & ->).
Qed.

Lemma lfu_put_ok n L s k v :
  lfu_inv n L s -> min_ok L s -> 1 <= n < int_max -> exists s' L',
    put k v s = (s', Ret tt) /\ lfu_inv (n + 1) L' s' /\ min_ok L' s' /\
    sl_values L' = a_put (Z.to_nat (capacity s)) k v (sl_values L) /\ capacity s' = capacity s.
Proof.
  intros Hi Hm Hn. pose proof (inv_cap _ _ _ Hi) as Hc. pose proof (inv_size _ _ _ Hi) as Hsz.
  assert (Hlen : length (sl_values L) = sl_size L) by apply length_fmap.
  destruct (keyNode s !! k) as [it|] eqn:Hk.
  - destruct (put_hit n L s k v it Hi Hm) as (s' & L' & x & Hp & Hi' & Hm' & Hf & Hv & Hc'); [lia|done|].
    exists s', L'. do 3 (split; [done|]). split; [|done]. unfold a_put, a_use. by rewrite Hf.
  - unfold put. rewrite (capacity_nonzero n L), Hk, (lfu_isFull_spec n L) by done.
    unfold a_put. rewrite (abs_none n L s) by done.
    case_bool_decide as Hfull.
    + rewrite decide_True by done.
      destruct (lfu_evict_ok n L s Hi Hm) as (s1 & L1 & x & He & Hi1 & Hc1 & Hvic & Hv1 & Hs1 & Hnone); [lia..|].
      destruct (lfu_insertNew_ok n L1 s1 k v Hi1 (Hnone k Hk)) as (s2 & Hn2 & Hi2 & Hm2 & Hc2); [lia..|].
      unfold prog_bind. rewrite He, Hvic. eexists s2, _. split; [done|].
      split; [by apply lfu_inv_weaken|]. split; [done|]. split; [|congruence].
      change (MkNode k v 1 :: sl_values L1 = MkNode k v 1 :: a_without (key x) (sl_values L)).
      by rewrite Hv1.
    + rewrite decide_False by done.
      destruct (lfu_insertNew_ok n L s k v Hi Hk) as (s2 & Hn2 & Hi2 & Hm2 & Hc2); [lia..|].
      eexists s2, _. split; [done|]. split; [by apply lfu_inv_weaken|]. done.
Qed.

(** ** Runs *)

Inductive lfu_op : Type :=
| LGet (k : Z)
| LPut (k v : Z).

(** A run collects what the calls return. *)
Fixpoint lfu_run (os : list lfu_op) : prog LFUCache (list Z) :=
  match os with
  | [] => prog_ret []
  | LGet k :: os => prog_bind (get k) (fun v => prog_bind (lfu_run os) (fun vs => prog_ret (v :: vs)))
  | LPut k v :: os => prog_bind (put k v) (fun _ => lfu_run os)
  end.

Fixpoint a_run (cap : nat) (os : list lfu_op) (l : list Node) : list Node * list Z :=
  match os with
  | [] => (l, [])
  | LGet k :: os =>
      let '(l', vs) := a_run cap os (a_get k l) in
      (l', default (-1) (value <$> a_find k l) :: vs)
  | LPut k v :: os => a_run cap os (a_put cap k v l)
  end.

Lemma lfu_run_ok os : forall n L s,
  lfu_inv n L s -> min_ok L s -> 1 <= n -> n + Z.of_nat (length os) <= int_max -> exists s' L' vs,
    lfu_run os s = (s', Ret vs) /\ lfu_inv (n + Z.of_nat (length os)) L' s' /\ min_ok L' s' /\
    (sl_values L', vs) = a_run (Z.to_nat (capacity s)) os (sl_values L).
Proof.
  induction os as [|o os IH]; intros n L s Hi Hm Hn Hb.
  - exists s, L, []. simpl. rewrite Z.add_0_r. done.
  - cbn [length] in *. destruct o as [k|k v]; cbn [lfu_run a_run].
    + destruct (get_ok n L s k Hi Hm) as (s1 & L1 & Hg & Hi1 & Hm1 & Hv1 & Hc1); [lia|].
      destruct (IH (n + 1) L1 s1 Hi1 Hm1) as (s2 & L2 & vs & Hr & Hi2 & Hm2 & Ha); [lia..|].
      unfold prog_bind. rewrite Hg, Hr. eexists s2, L2, _. split; [done|].
      replace (n + Z.of_nat (S (length os))) with (n + 1 + Z.of_nat (length os)) by lia.
      do 2 (split; [done|]). rewrite Hc1, Hv1 in Ha. by rewrite <-Ha.
    + destruct (lfu_put_ok n L s k v Hi Hm) as (s1 & L1 & Hg & Hi1 & Hm1 & Hv1 & Hc1); [lia|].
      destruct (IH (n + 1) L1 s1 Hi1 Hm1) as (s2 & L2 & vs & Hr & Hi2 & Hm2 & Ha); [lia..|].
      unfold prog_bind. rewrite Hg, Hr. eexists s2, L2, vs. split; [done|].
      replace (n + Z.of_nat (S (length os))) with (n + 1 + Z.of_nat (length os)) by lia.
      do 2 (split; [done|]). by rewrite Hc1, Hv1 in Ha.
Qed.

Lemma lfu_inv_make cap : 0 < cap <= int_max -> lfu_inv 1 sl_empty (make cap) /\ min_ok sl_empty (make cap).
Proof.
  intros Hc. split; [|by intros []]. constructor; simpl; auto with hpdb.
  - unfold sl_size. simpl. lia.
  - intros f. simpl. apply lookup_empty.
Qed.

(** C5.  The LFU cache refines its abstract list: from a fresh cache, every sequence of fewer than
    [INT_MAX] calls of [get] and [put] returns the values the abstract cache returns, where a full
    cache gives up, among its least frequently used entries, the one used longest ago, and the
    entries of the frequency lists are those of the abstract cache. *)
Theorem lfu_cache_refines (cap : Z) (os : list lfu_op) :
  0 < cap <= int_max -> Z.of_nat (length os) < int_max ->
  exists s L vs,
    lfu_run os (make cap) = (s, Ret vs) /\ lfu_inv (1 + Z.of_nat (length os)) L s /\ min_ok L s /\
    (sl_values L, vs) = a_run (Z.to_nat cap) os [].
Proof.
  intros Hc Ho. destruct (lfu_inv_make cap Hc) as [Hi Hm].
  destruct (lfu_run_ok os 1 sl_empty (make cap) Hi Hm) as (s & L & vs & H); [lia..|].
  exists s, L, vs. exact H.
Qed.

(** The calls of [main]. *)
Definition main_ops : list lfu_op :=
  [LPut 1 1; LPut 2 2; LGet 1; LPut 3 3; LGet 2; LGet 3; LPut 4 4; LGet 1; LGet 3; LGet 4].

Lemma lfu_cache_refines_witness :
  (exists s L vs,
    lfu_run main_ops (make 2) = (s, Ret vs) /\ lfu_inv 11 L s /\ min_ok L s /\
    (sl_values L, vs) = a_run 2 main_ops []) /\
  a_run 2 main_ops [] = ([MkNode 4 4 2; MkNode 3 3 3], [1; -1; 3; -1; 3; 4]).
Proof.
  split; [|vm_compute; reflexivity].
  apply (lfu_cache_refines 2 main_ops); [unfold int_max; lia|vm_compute; reflexivity].
Defined.
