(* ===== verification/BufferManager.v ===== *)
(** * The buffer manager ([storage/buffer_manager.cpp])

    [Page], [DiskStorage] and [BufferManager].  A page is shared: the pool and the callers hold
    [std::shared_ptr]s to it and callers write its bytes through theirs, so pages live in a heap and
    the page table maps page ids to heap positions. *)

From S2P Require Import Prelude.
Local Open Scope Z_scope.

(** Bytes are kept as integers; a new page is 4096 zero bytes. *)
Record Page : Type := MkPage { page_id : Z; dirty : bool; data : list Z }.

Definition PAGE_SIZE : nat := Z.to_nat 4096.
Definition newPage (id : Z) : Page := MkPage id false (replicate PAGE_SIZE 0).
Arguments PAGE_SIZE : simpl never.
Arguments newPage : simpl never.

(** What the disk was asked to do, oldest first.  [read_page] leaves the buffer as it is. *)
Inductive disk_event : Type :=
| ReadPage (page_id : Z)
| WritePage (page_id : Z) (buffer : list Z).

Record BufferManager : Type := MkBM {
  capacity : Z;
  lru_list : list Z;
  page_table : gmap Z nat;
  heap : list Page;
  disk : list disk_event;
  mtx : bool
}.

Definition make (cap : Z) : BufferManager := MkBM cap [] ∅ [] [] false.

#[export] Instance bm_lockable : Lockable BufferManager.
Proof.
  refine {| held := mtx;
            set_held b s := MkBM (capacity s) (lru_list s) (page_table s) (heap s) (disk s) b |}.
  - done.
  - by intros [].
  - done.
Defined.

(** [page_table.size() >= capacity] compares a [size_t] with an [int]. *)
Definition pool_full (s : BufferManager) : bool :=
  to_size_t (capacity s) <=? Z.of_nat (size (page_table s)).

(** The write of a dirty page. *)
Definition write_page (id : Z) (p : Page) : list disk_event :=
  if dirty p then [WritePage id (data p)] else [].

(** The body of the [while] loop; [page_table[id]] of a missing id inserts a null pointer. *)
Definition evict_one : prog BufferManager unit := fun s =>
  match last (lru_list s) with
  | None => (s, Undef empty_container)
  | Some evict_id =>
      match page_table s !! evict_id with
      | None => (s, Undef null_pointer)
      | Some ptr =>
          match heap s !! ptr with
          | None => (s, Undef null_pointer)
          | Some page =>
              (MkBM (capacity s) (removelast (lru_list s)) (delete evict_id (page_table s)) (heap s)
                 (disk s ++ write_page (page_id page) page) (mtx s), Ret tt)
          end
      end
  end.

(** Each iteration pops the list, and the pop of an empty list ends the loop. *)
Fixpoint evict_loop (fuel : nat) : prog BufferManager unit :=
  match fuel with
  | O => fun s => (s, Hang)
  | S fuel => fun s =>
      if pool_full s then prog_bind evict_one (fun _ => evict_loop fuel) s else (s, Ret tt)
  end.

Definition evict_page : prog BufferManager unit := fun s =>
  evict_loop (S (length (lru_list s))) s.

(** [lru_list.remove(page_id); lru_list.push_front(page_id)]. *)
Definition touch (id : Z) (l : list Z) : list Z := id :: filter (fun j => j ≠ id) l.

Definition load_page (id : Z) : prog BufferManager nat := fun s =>
  let ptr := length (heap s) in
  (MkBM (capacity s) (id :: lru_list s) (<[id := ptr]> (page_table s)) (heap s ++ [newPage id])
     (disk s ++ [ReadPage id]) (mtx s), Ret ptr).

Definition fetch_body (id : Z) : prog BufferManager nat := fun s =>
  match page_table s !! id with
  | Some ptr =>
      (MkBM (capacity s) (touch id (lru_list s)) (page_table s) (heap s) (disk s) (mtx s), Ret ptr)
  | None => prog_bind evict_page (fun _ => load_page id) s
  end.
Definition fetch_page (id : Z) : prog BufferManager nat := lock_guard (fetch_body id).

(** Assigns the dirty bit of a page through its pointer. *)
Definition set_dirty (b : bool) (ptr : nat) (s : BufferManager) : BufferManager :=
  MkBM (capacity s) (lru_list s) (page_table s)
    (alter (fun p => MkPage (page_id p) b (data p)) ptr (heap s)) (disk s) (mtx s).

Definition mark_dirty (id : Z) : prog BufferManager unit := lock_guard (fun s =>
  match page_table s !! id with
  | Some ptr => (set_dirty true ptr s, Ret tt)
  | None => (s, Ret tt)
  end).

(** Writes a page if it is dirty and clears the bit. *)
Definition flush_entry (id : Z) (ptr : nat) : prog BufferManager unit := fun s =>
  match heap s !! ptr with
  | None => (s, Undef null_pointer)
  | Some page =>
      if dirty page
      then let s' := set_dirty false ptr s in
           (MkBM (capacity s') (lru_list s') (page_table s') (heap s')
              (disk s' ++ [WritePage id (data page)]) (mtx s'), Ret tt)
      else (s, Ret tt)
  end.

Definition flush_page (id : Z) : prog BufferManager unit := lock_guard (fun s =>
  match page_table s !! id with
  | Some ptr => flush_entry id ptr s
  | None => (s, Ret tt)
  end).

Fixpoint flush_entries (l : list (Z * nat)) : prog BufferManager unit :=
  match l with
  | [] => prog_ret tt
  | (id, ptr) :: l => prog_bind (flush_entry id ptr) (fun _ => flush_entries l)
  end.

(** [iter] is the order in which a range-for visits an [std::unordered_map]. *)
Definition flush_all_pages (iter : gmap Z nat -> list (Z * nat)) : prog BufferManager unit :=
  lock_guard (fun s => flush_entries (iter (page_table s)) s).

(** A caller writes a byte through the pointer [fetch_page] gave it. *)
Definition poke (ptr i : nat) (c : Z) : prog BufferManager unit := fun s =>
  match heap s !! ptr with
  | None => (s, Undef null_pointer)
  | Some page =>
      if decide (i < length (data page))%nat
      then (MkBM (capacity s) (lru_list s) (page_table s)
              (<[ptr := MkPage (page_id page) (dirty page) (<[i := c]> (data page))]> (heap s))
              (disk s) (mtx s), Ret tt)
      else (s, Undef index_out_of_range)
  end.

(** ** Invariant *)

Record bm_inv (s : BufferManager) : Prop := {
  inv_cap : 0 < capacity s <= int_max;
  inv_nodup : NoDup (lru_list s);
  inv_dom : forall id, id ∈ lru_list s <-> is_Some (page_table s !! id);
  inv_size : (length (lru_list s) <= Z.to_nat (capacity s))%nat;
  inv_ptr : forall id ptr, page_table s !! id = Some ptr ->
    exists p, heap s !! ptr = Some p /\ page_id p = id;
  inv_data : Forall (fun p => length (data p) = PAGE_SIZE) (heap s)
}.

Lemma inv_size_table s : bm_inv s -> size (page_table s) = length (lru_list s).
Proof.
  intros Hi. rewrite <-size_dom.
  replace (dom (page_table s)) with (list_to_set (lru_list s) : gset Z).
  - apply size_list_to_set, Hi.
  - apply set_eq. intros id. rewrite elem_of_list_to_set, elem_of_dom. apply Hi.
Qed.

Lemma pool_full_spec s :
  bm_inv s -> pool_full s = bool_decide (length (lru_list s) = Z.to_nat (capacity s)).
Proof.
  intros Hi. unfold pool_full. rewrite inv_size_table by done. destruct Hi as [Hc _ _ Hs _ _].
  assert (Hz : to_size_t (capacity s) = capacity s).
  { unfold to_size_t, size_t_mod, int_max in *. apply Z.mod_small. lia. }
  rewrite Hz. case_bool_decide; [apply Z.leb_le|apply Z.leb_gt]; lia.
Qed.

(** Two ids never share a page. *)
Lemma inv_inj s i j ptr :
  bm_inv s -> page_table s !! i = Some ptr -> page_table s !! j = Some ptr -> i = j.
Proof.
  intros Hi H1 H2. destruct (inv_ptr s Hi i ptr H1) as (p & Hp & <-).
  destruct (inv_ptr s Hi j ptr H2) as (p' & Hp' & <-). congruence.
Qed.

(** Changing a page in place, and the disk, keeps the invariant. *)
Lemma bm_inv_alter s ptr f d m :
  bm_inv s -> (forall p, page_id (f p) = page_id p /\ length (data (f p)) = length (data p)) ->
  bm_inv (MkBM (capacity s) (lru_list s) (page_table s) (alter f ptr (heap s)) d m).
Proof.
  intros [] Hf. constructor; simpl; auto.
  - intros id q Hq. destruct (inv_ptr0 id q Hq) as (p & Hp & Hid).
    destruct (decide (q = ptr)) as [->|Hne].
    + exists (f p). rewrite list_lookup_alter_eq, Hp. split; [done|].
      destruct (Hf p) as [-> _]. done.
    + exists p. rewrite list_lookup_alter_ne by done. done.
  - apply Forall_alter; [done|]. intros p _ Hp. destruct (Hf p) as [_ ->]. done.
Qed.

(** ** Fetching *)

Lemma evict_one_ok s :
  bm_inv s -> (0 < length (lru_list s))%nat -> exists l id ptr p,
    lru_list s = l ++ [id] /\ page_table s !! id = Some ptr /\ heap s !! ptr = Some p /\
    evict_one s = (MkBM (capacity s) l (delete id (page_table s)) (heap s)
                     (disk s ++ write_page id p) (mtx s), Ret tt) /\
    bm_inv (MkBM (capacity s) l (delete id (page_table s)) (heap s)
              (disk s ++ write_page id p) (mtx s)).
Proof.
  intros Hi Hlen. destruct (snoc_inv (lru_list s)) as [Hl|(l & id & Hl)].
  { rewrite Hl in Hlen. simpl in Hlen. lia. }
  destruct (proj1 (inv_dom s Hi id)) as [ptr Hptr]; [rewrite Hl; set_solver|].
  destruct (inv_ptr s Hi id ptr Hptr) as (p & Hp & Hid).
  exists l, id, ptr, p. do 3 (split; [done|]). split.
  { unfold evict_one. rewrite Hl, last_snoc, Hptr, Hp, Hid, List.removelast_last. done. }
  destruct Hi as [Hc Hnd Hdom Hsz Hpt Hda]. rewrite Hl in Hnd, Hsz, Hdom.
  apply NoDup_app in Hnd as (Hnd & Hd & _). rewrite length_app in Hsz; simpl in Hsz.
  constructor; simpl; auto; [|lia|].
  - intros j. destruct (decide (id = j)) as [->|Hne].
    + rewrite lookup_delete_eq. split; [|by intros [? ?]]. intros Hj. apply Hd in Hj. set_solver.
    + rewrite lookup_delete_ne by done. rewrite <-Hdom. set_solver.
  - intros j q Hq. apply lookup_delete_Some in Hq as [_ Hq]. auto.
Qed.

(** Eviction makes room for one page, by dropping the least recently used page if there is none. *)
Lemma evict_page_ok s :
  bm_inv s -> exists s', evict_page s = (s', Ret tt) /\ bm_inv s' /\
    (length (lru_list s') < Z.to_nat (capacity s))%nat /\
    ((s' = s) \/
     exists l id ptr p, lru_list s = l ++ [id] /\ page_table s !! id = Some ptr /\
       heap s !! ptr = Some p /\ length (lru_list s) = Z.to_nat (capacity s) /\
       s' = MkBM (capacity s) l (delete id (page_table s)) (heap s)
              (disk s ++ write_page id p) (mtx s)).
Proof.
  intros Hi. pose proof (inv_cap s Hi) as Hc. pose proof (inv_size s Hi) as Hsz.
  unfold evict_page. cbn [evict_loop]. rewrite pool_full_spec by done.
  case_bool_decide as Hfull; [|exists s; split; [done|]; split; [done|]; split; [lia|by left]].
  destruct (evict_one_ok s Hi) as (l & id & ptr & p & Hl & Hptr & Hp & He & Hi'); [lia|].
  assert (Hll : length (lru_list s) = S (length l)) by (rewrite Hl, length_app; simpl; lia).
  unfold prog_bind. rewrite He, Hll.
  cbn [evict_loop]. rewrite pool_full_spec by done. cbn [lru_list capacity].
  rewrite bool_decide_eq_false_2 by lia.
  eexists. split; [done|]. split; [done|]. split; [simpl; lia|]. right.
  exists l, id, ptr, p. rewrite <-Hll. done.
Qed.

Lemma load_page_ok id s :
  bm_inv s -> page_table s !! id = None -> (length (lru_list s) < Z.to_nat (capacity s))%nat ->
  bm_inv (fst (load_page id s)).
Proof.
  intros [] Hn Hlen. constructor; simpl; auto.
  - constructor; [|done]. rewrite inv_dom0, Hn. by intros [? ?].
  - intros j. rewrite elem_of_cons, inv_dom0. destruct (decide (id = j)) as [->|Hne].
    + rewrite lookup_insert_eq. split; eauto.
    + rewrite lookup_insert_ne by done. split; [intros [->|?]; done|by right].
  - intros j q. rewrite lookup_insert. case_decide as Hj.
    + intros [= <-]. subst j. exists (newPage id). split; [|done].
      rewrite lookup_app_r, Nat.sub_diag by done. done.
    + intros Hq. destruct (inv_ptr0 j q Hq) as (p & Hp & Hid). exists p. split; [|done].
      by apply lookup_app_l_Some.
  - apply Forall_app_2; [done|]. constructor; [|constructor]. apply length_replicate.
Qed.

Lemma touch_inv id s d m :
  bm_inv s -> is_Some (page_table s !! id) ->
  bm_inv (MkBM (capacity s) (touch id (lru_list s)) (page_table s) (heap s) d m) /\
  length (touch id (lru_list s)) = length (lru_list s).
Proof.
  intros [] Hs. assert (Hin : id ∈ lru_list s) by (by apply inv_dom0).
  assert (Hp : touch id (lru_list s) ≡ₚ lru_list s).
  { apply NoDup_Permutation; [|done|].
    - unfold touch. constructor; [rewrite list_elem_of_filter; naive_solver|by apply NoDup_filter].
    - intros j. unfold touch. rewrite elem_of_cons, list_elem_of_filter.
      destruct (decide (j = id)) as [->|]; naive_solver. }
  split; [|by rewrite Hp]. constructor; cbn [capacity lru_list page_table heap]; auto.
  - by rewrite Hp.
  - intros j. rewrite Hp. auto.
  - by rewrite Hp.
Qed.

(** Under its mutex a fetch leaves the pool as the abstract LRU list of page ids, cut at the
    capacity. *)
Lemma fetch_body_ok id s :
  bm_inv s -> exists s' ptr,
    fetch_body id s = (s', Ret ptr) /\ bm_inv s' /\ mtx s' = mtx s /\ capacity s' = capacity s /\
    page_table s' !! id = Some ptr /\
    lru_list s' = take (Z.to_nat (capacity s)) (touch id (lru_list s)).
Proof.
  intros Hi. unfold fetch_body. pose proof (inv_cap s Hi) as Hc.
  destruct (page_table s !! id) as [ptr|] eqn:Hptr.
  - destruct (touch_inv id s (disk s) (mtx s) Hi) as [Hi' Hlen]; [eauto|].
    eexists _, ptr. split; [done|]. split; [done|]. do 3 (split; [done|]). cbn [lru_list].
    rewrite take_ge; [done|]. rewrite Hlen. apply Hi.
  - destruct (evict_page_ok s Hi) as (s1 & He & Hi1 & Hlen & Hcase).
    unfold prog_bind. rewrite He.
    assert (Hno : id ∉ lru_list s) by (rewrite (inv_dom s Hi), Hptr; by intros [? ?]).
    assert (Hf : filter (fun j => j ≠ id) (lru_list s) = lru_list s).
    { apply list_filter_all, Forall_forall. intros j Hj ->. done. }
    assert (Hn1 : page_table s1 !! id = None /\ capacity s1 = capacity s /\ mtx s1 = mtx s /\
      id :: lru_list s1 = take (Z.to_nat (capacity s)) (touch id (lru_list s))).
    { unfold touch. rewrite Hf. destruct Hcase as [->|(l & j & q & p & Hl & Hq & Hp & Hfull & ->)]; simpl.
      - do 3 (split; [done|]). rewrite take_ge; [done|]. simpl. lia.
      - split; [by apply lookup_delete_None; right|]. do 2 (split; [done|]).
        destruct (Z.to_nat (capacity s)) as [|n] eqn:Hn; [lia|]. simpl. f_equal.
        rewrite Hl, length_app in Hfull. simpl in Hfull. rewrite Hl.
        rewrite take_app_length'; [done|lia]. }
    destruct Hn1 as (Hn1 & Hc1 & Hm1 & Hl1).
    eexists _, _. split; [done|]. split.
    { apply (load_page_ok id s1 Hi1 Hn1). by rewrite Hc1. }
    cbn [mtx capacity page_table lru_list]. rewrite lookup_insert_eq. done.
Qed.

Lemma fetch_page_ok id s :
  bm_inv s -> mtx s = false -> exists s' ptr,
    fetch_page id s = (s', Ret ptr) /\ bm_inv s' /\ mtx s' = false /\ capacity s' = capacity s /\
    page_table s' !! id = Some ptr /\
    lru_list s' = take (Z.to_nat (capacity s)) (touch id (lru_list s)).
Proof.
  intros Hi Hm.
  assert (Hi' : bm_inv (set_held true s)) by (destruct Hi; by constructor).
  destruct (fetch_body_ok id _ Hi') as (s' & ptr & Hb & Hi2 & _ & Hc & Hp & Hl).
  eexists _, ptr. split; [by apply lock_guard_ret|].
  split; [destruct Hi2; by constructor|]. done.
Qed.

(** Fetching is LRU: [fetch_page] always returns a page of the pool with the requested id, the
    pool stays within its capacity, and its list of ids is the requested id in front of the others
    in their old order, cut at the capacity; nothing is undefined and the mutex is free again. *)
Lemma buffer_fetch_lru (id : Z) (s : BufferManager) :
  bm_inv s -> mtx s = false -> exists s' ptr p,
    fetch_page id s = (s', Ret ptr) /\ bm_inv s' /\ mtx s' = false /\
    heap s' !! ptr = Some p /\ page_id p = id /\ page_table s' !! id = Some ptr /\
    lru_list s' = take (Z.to_nat (capacity s)) (touch id (lru_list s)).
Proof.
  intros Hi Hm. destruct (fetch_page_ok id s Hi Hm) as (s' & ptr & Hf & Hi' & Hm' & _ & Hp & Hl).
  destruct (inv_ptr s' Hi' id ptr Hp) as (p & Hh & Hid). by exists s', ptr, p.
Qed.

Lemma bm_inv_make cap : 0 < cap <= int_max -> bm_inv (make cap).
Proof.
  intros Hc. constructor; simpl; auto.
  - constructor.
  - intros id. rewrite lookup_empty. split; [intros H; by apply not_elem_of_nil in H|by intros [? ?]].
  - lia.
  - intros id ptr H. by rewrite lookup_empty in H.
Qed.

Lemma buffer_fetch_lru_witness :
  exists s' ptr p,
    fetch_page 1 (make 3) = (s', Ret ptr) /\ bm_inv s' /\ mtx s' = false /\
    heap s' !! ptr = Some p /\ page_id p = 1 /\ page_table s' !! 1 = Some ptr /\
    lru_list s' = [1].
Proof.
  apply (buffer_fetch_lru 1 (make 3)); [|reflexivity]. apply bm_inv_make. unfold int_max; lia.
Defined.

(** ** No update is lost *)

(** The last contents the disk received for a page. *)
Fixpoint last_write (d : list disk_event) (id : Z) (acc : option (list Z)) : option (list Z) :=
  match d with
  | [] => acc
  | WritePage j b :: d => last_write d id (if decide (j = id) then Some b else acc)
  | ReadPage _ :: d => last_write d id acc
  end.

Definition on_disk (s : BufferManager) (id : Z) : option (list Z) := last_write (disk s) id None.

Lemma last_write_app d1 : forall d2 id acc,
  last_write (d1 ++ d2) id acc = last_write d2 id (last_write d1 id acc).
Proof. induction d1 as [|[j|j b] d1 IH]; intros; simpl; auto. Qed.

(** The pool or the disk has the contents [d] for page [id]; only the page at [ptr] may still be
    dirty under that id. *)
Definition holds (id : Z) (ptr : nat) (d : list Z) (s : BufferManager) : Prop :=
  (forall q p, page_table s !! id = Some q -> heap s !! q = Some p -> dirty p = true ->
     q = ptr /\ data p = d) /\
  ((exists q p, page_table s !! id = Some q /\ heap s !! q = Some p /\ dirty p = true) \/
   on_disk s id = Some d).

Inductive bm_op : Type :=
| Fetch (id : Z)
| MarkDirty (id : Z)
| FlushPage (id : Z)
| FlushAll
| Poke (ptr i : nat) (c : Z).

Section Run.
Context (iter : gmap Z nat -> list (Z * nat)).

Definition bm_step (o : bm_op) : prog BufferManager unit :=
  match o with
  | Fetch id => prog_bind (fetch_page id) (fun _ => prog_ret tt)
  | MarkDirty id => mark_dirty id
  | FlushPage id => flush_page id
  | FlushAll => flush_all_pages iter
  | Poke ptr i c => poke ptr i c
  end.

Fixpoint bm_run (os : list bm_op) : prog BufferManager unit :=
  match os with
  | [] => prog_ret tt
  | o :: os => prog_bind (bm_step o) (fun _ => bm_run os)
  end.

(** The iteration visits every entry once. *)
Definition iterates : Prop := forall m, iter m ≡ₚ map_to_list m.

(** The operations leave page [id] and the bytes at [ptr] alone, and callers write only inside pages
    they could have fetched by then. *)
Definition quiet (id : Z) (ptr n : nat) (o : bm_op) : Prop :=
  match o with
  | MarkDirty j => j ≠ id
  | Poke q i _ => q ≠ ptr /\ (q < n)%nat /\ (i < PAGE_SIZE)%nat
  | _ => True
  end.

Context (id : Z) (ptr : nat) (d : list Z).

(** What every operation keeps. *)
Definition kept (n : nat) (s : BufferManager) : Prop :=
  bm_inv s /\ holds id ptr d s /\ (n <= length (heap s))%nat.

(** The mutex is no part of it. *)
Lemma kept_held n b s : kept n s -> kept n (set_held b s).
Proof. intros ([] & Hh & Hn). split; [by constructor|done]. Qed.

Lemma guard_kept {A : Type} (body : prog BufferManager A) n s :
  mtx s = false -> kept n s ->
  (forall s0, kept n s0 -> exists s' a, body s0 = (s', Ret a) /\ kept n s') ->
  exists s' a, lock_guard body s = (s', Ret a) /\ kept n s' /\ mtx s' = false.
Proof.
  intros Hm Hk Hb. destruct (Hb _ (kept_held n true s Hk)) as (s' & a & Hs & Hk').
  exists (set_held false s'), a. split; [by apply lock_guard_ret|].
  split; [by apply kept_held|done].
Qed.

(** Evicting, or writing out, a page keeps its contents somewhere. *)
Lemma on_disk_write s j p l t :
  holds id ptr d s -> page_table s !! j = Some t -> heap s !! t = Some p ->
  (j = id -> dirty p = true -> last_write (disk s ++ write_page j p) id None = Some d) /\
  (on_disk s id = Some d -> last_write (disk s ++ write_page j p) id None = Some d) /\
  last_write (disk s ++ l) id None = last_write l id (on_disk s id).
Proof.
  intros [Hv _] Hj Hp. rewrite !last_write_app. unfold write_page. split; [|split; [|done]].
  - intros -> Hd. rewrite Hd. simpl. rewrite decide_True by done.
    destruct (Hv t p Hj Hp Hd) as [_ ->]. done.
  - unfold on_disk. intros ->. destruct (dirty p) eqn:Hd; [|done]. simpl. case_decide; [|done].
    subst. destruct (Hv t p Hj Hp Hd) as [_ ->]. done.
Qed.

Lemma fetch_kept n j s : kept n s -> exists s' a, fetch_body j s = (s', Ret a) /\ kept n s'.
Proof.
  intros (Hi & Hh & Hn). destruct (fetch_body_ok j s Hi) as (s' & a & Hf & Hi' & _).
  exists s', a. split; [done|]. split; [done|]. revert Hf. unfold fetch_body.
  destruct (page_table s !! j) as [q|] eqn:Hq; [by intros [= <- <-]|].
  destruct (evict_page_ok s Hi) as (s1 & He & Hi1 & _ & Hcase).
  unfold prog_bind. rewrite He. unfold load_page. intros [= <- <-].
  assert (Hh1 : holds id ptr d s1 /\ heap s1 = heap s /\ page_table s1 !! j = None).
  { destruct Hcase as [->|(l & k & t & p & Hl & Ht & Hp & _ & ->)]; [done|].
    destruct (on_disk_write s k p [] t Hh Ht Hp) as (Hw1 & Hw2 & _).
    destruct Hh as [Hv Hor]. split; [|split; [done|by apply lookup_delete_None; right]].
    split; cbn [page_table heap disk].
    - intros q0 p0 Hq0. apply lookup_delete_Some in Hq0 as [_ Hq0]. by apply Hv.
    - destruct Hor as [(q0 & p0 & Hq0 & Hp0 & Hd0)|Hor]; [|right; by apply Hw2].
      destruct (decide (k = id)) as [Heq|Hne].
      + right. apply Hw1; [done|]. congruence.
      + left. exists q0, p0. by rewrite lookup_delete_ne. }
  destruct Hh1 as ([Hv Hor] & Hheap & Hnone). split; cbn [page_table heap disk].
  - split.
    + intros q0 p0. cbn [page_table heap]. rewrite lookup_insert. case_decide as Hj.
      * intros [= <-]. rewrite lookup_app_r, Nat.sub_diag by done. intros [= <-]. done.
      * intros Hq0 Hp0. apply Hv; [done|].
        destruct (inv_ptr s1 Hi1 id q0 Hq0) as (p1 & Hp1 & _).
        rewrite lookup_app_l in Hp0; [done|]. by eapply lookup_lt_Some.
    + destruct Hor as [(q0 & p0 & Hq0 & Hp0 & Hd0)|Hor].
      * left. exists q0, p0. cbn [page_table heap].
        rewrite lookup_insert_ne by congruence. split; [done|]. split; [|done].
        by apply lookup_app_l_Some.
      * right. unfold on_disk. cbn [disk]. rewrite last_write_app. exact Hor.
  - rewrite length_app, Hheap. lia.
Qed.

Lemma mark_kept n j s :
  kept n s -> j ≠ id -> exists s' a,
    match page_table s !! j with
    | Some q => (set_dirty true q s, Ret tt)
    | None => (s, Ret tt)
    end = (s', Ret a) /\ kept n s'.
Proof.
  intros (Hi & [Hv Hor] & Hn) Hj. destruct (page_table s !! j) as [q|] eqn:Hq; [|by exists s, tt].
  eexists _, tt. split; [done|]. unfold set_dirty. split; [by apply bm_inv_alter|].
  cbn [heap]. rewrite length_alter. split; [|done].
  assert (Hne : forall q0, page_table s !! id = Some q0 -> q ≠ q0).
  { intros q0 H0 ->. apply Hj. by eapply inv_inj. }
  split; cbn [page_table heap disk].
  - intros q0 p0 H0. rewrite list_lookup_alter_ne by auto. by apply Hv.
  - destruct Hor as [(q0 & p0 & H0 & Hp0 & Hd0)|Hor]; [|by right]. left. exists q0, p0.
    rewrite list_lookup_alter_ne by auto. done.
Qed.

Lemma flush_entry_kept n j q s :
  kept n s -> page_table s !! j = Some q -> exists s',
    flush_entry j q s = (s', Ret tt) /\ kept n s' /\ page_table s' = page_table s /\
    (forall t, heap s !! t = None -> heap s' !! t = None) /\
    (j = id -> on_disk s' id = Some d) /\ (on_disk s id = Some d -> on_disk s' id = Some d).
Proof.
  intros (Hi & Hh & Hn) Hj. destruct (inv_ptr s Hi j q Hj) as (p & Hp & _).
  destruct (on_disk_write s j p [] q Hh Hj Hp) as (Hw1 & Hw2 & _). unfold write_page in *.
  unfold flush_entry. rewrite Hp. destruct (dirty p) eqn:Hd.
  - eexists. split; [done|]. unfold set_dirty. cbn [capacity lru_list page_table heap disk mtx].
    assert (Hd1 : j = id -> last_write (disk s ++ [WritePage j (data p)]) id None = Some d) by auto.
    assert (Hal : forall t p0, alter (fun p => MkPage (page_id p) false (data p)) q (heap s) !! t = Some p0 ->
      dirty p0 = true -> heap s !! t = Some p0 /\ t ≠ q).
    { intros t p0 Ht Hdt. destruct (decide (t = q)) as [->|Hne].
      - rewrite list_lookup_alter_eq, Hp in Ht. simpl in Ht. by simplify_eq.
      - by rewrite list_lookup_alter_ne in Ht. }
    split; [split; [by apply bm_inv_alter|]|].
    + split; [|cbn [heap]; by rewrite length_alter].
      destruct Hh as [Hv Hor]. split; cbn [page_table heap disk set_dirty].
      * intros t p0 Ht Hp0 Hd0. destruct (Hal t p0 Hp0 Hd0) as [Hp1 _]. by eapply Hv.
      * destruct Hor as [(t & p0 & Ht & Hp0 & Hd0)|Hor]; [|by right; apply Hw2].
        destruct (decide (j = id)) as [Heq|Hne]; [right; by apply Hd1|].
        left. exists t, p0. split; [done|]. split; [|done].
        rewrite list_lookup_alter_ne; [done|]. intros ->. apply Hne. by eapply inv_inj.
    + split; [done|]. split; [|by auto]. intros t Ht. cbn [heap set_dirty].
      rewrite list_lookup_alter. case_decide; [by simplify_eq|done].
  - exists s. split; [done|]. split; [done|]. do 2 (split; [done|]). split; [|done].
    intros ->. destruct Hh as [Hv [(t & p0 & Ht & Hp0 & Hd0)|Hor]]; [|done]. congruence.
Qed.

(** After a pass over all entries the disk has the contents. *)
Lemma flush_entries_kept n l : forall s,
  kept n s -> (forall e, e ∈ l -> page_table s !! e.1 = Some e.2) -> exists s',
    flush_entries l s = (s', Ret tt) /\ kept n s' /\
    (id ∈ l.*1 \/ on_disk s id = Some d -> on_disk s' id = Some d).
Proof.
  induction l as [|[j q] l IH]; intros s Hk Hl; simpl.
  - exists s. split; [done|]. split; [done|]. intros [H|?]; [by apply not_elem_of_nil in H|done].
  - destruct (flush_entry_kept n j q s Hk) as (s1 & Hf & Hk1 & Ht & _ & Hd1 & Hd2).
    { apply (Hl (j, q)). left. }
    destruct (IH s1 Hk1) as (s2 & Hf2 & Hk2 & Hd).
    { intros e He. rewrite Ht. apply Hl. by right. }
    exists s2. unfold prog_bind. rewrite Hf, Hf2. split; [done|]. split; [done|].
    rewrite elem_of_cons. intros [[<-|Hin]|Hon]; apply Hd; auto.
Qed.

Lemma flush_all_kept n s :
  iterates -> kept n s -> exists s', flush_entries (iter (page_table s)) s = (s', Ret tt) /\
    kept n s' /\ on_disk s' id = Some d.
Proof.
  intros Hit Hk. unfold iterates in Hit. destruct (flush_entries_kept n (iter (page_table s)) s Hk) as (s' & Hf & Hk' & Hd).
  { intros [j q] He. rewrite Hit in He. by apply elem_of_map_to_list in He. }
  exists s'. split; [done|]. split; [done|]. apply Hd.
  destruct Hk as (_ & [_ [(q & p & Hq & _)|Hor]] & _); [|by right]. left.
  apply elem_of_fst with q. rewrite Hit. by apply elem_of_map_to_list.
Qed.

Lemma flush_page_kept n j s :
  kept n s -> exists s' a,
    match page_table s !! j with
    | Some q => flush_entry j q s
    | None => (s, Ret tt)
    end = (s', Ret a) /\ kept n s'.
Proof.
  intros Hk. destruct (page_table s !! j) as [q|] eqn:Hq; [|by exists s, tt].
  destruct (flush_entry_kept n j q s Hk Hq) as (s' & Hf & Hk' & _). by exists s', tt.
Qed.

Lemma poke_kept n q i c s :
  kept n s -> mtx s = false -> quiet id ptr n (Poke q i c) -> exists s',
    poke q i c s = (s', Ret tt) /\ kept n s' /\ mtx s' = false.
Proof.
  intros (Hi & [Hv Hor] & Hn) Hm (Hne & Hq & Hlt). unfold poke.
  destruct (lookup_lt_is_Some_2 (heap s) q) as [p Hp]; [lia|]. rewrite Hp.
  assert (Hlen : length (data p) = PAGE_SIZE).
  { pose proof (inv_data s Hi) as Hda. rewrite Forall_forall in Hda. apply Hda.
    by eapply list_elem_of_lookup_2. }
  rewrite decide_True by lia. eexists. split; [done|]. split; [|done].
  assert (Hset : <[q := MkPage (page_id p) (dirty p) (<[i := c]> (data p))]> (heap s) =
    alter (fun p => MkPage (page_id p) (dirty p) (<[i := c]> (data p))) q (heap s)).
  { rewrite list_insert_alter. apply list_alter_ext; [|done]. intros p' Hp'. by simplify_eq. }
  rewrite Hset. split.
  - apply bm_inv_alter; [done|]. intros p0. simpl. by rewrite length_insert.
  - split; [|cbn [heap]; by rewrite length_alter]. split; cbn [page_table heap disk].
    + intros t p0 Ht Hp0 Hd0. destruct (decide (t = q)) as [->|Htq].
      * rewrite list_lookup_alter_eq, Hp in Hp0. simpl in Hp0. simplify_eq/=.
        destruct (Hv q p Ht Hp Hd0). done.
      * rewrite list_lookup_alter_ne in Hp0 by done. by apply Hv.
    + destruct Hor as [(t & p0 & Ht & Hp0 & Hd0)|]; [|by right]. left.
      destruct (Hv t p0 Ht Hp0 Hd0) as [-> _]. exists ptr, p0.
      rewrite list_lookup_alter_ne by done. done.
Qed.

Lemma bm_step_kept n o s :
  iterates -> kept n s -> mtx s = false -> quiet id ptr n o -> exists s',
    bm_step o s = (s', Ret tt) /\ kept n s' /\ mtx s' = false.
Proof.
  intros Hit Hk Hm Hq. destruct o as [j|j|j| |q i c]; cbn [bm_step].
  - destruct (guard_kept (fetch_body j) n s Hm Hk) as (s' & a & Hf & Hk' & Hm').
    { intros s0. apply fetch_kept. }
    exists s'. unfold prog_bind, fetch_page. by rewrite Hf.
  - destruct (guard_kept (A := unit) (fun s => match page_table s !! j with
      | Some q => (set_dirty true q s, Ret tt) | None => (s, Ret tt) end) n s Hm Hk)
      as (s' & [] & Hf & Hk'); [|by exists s'].
    intros s0 Hk0. by apply mark_kept.
  - destruct (guard_kept (fun s => match page_table s !! j with
      | Some q => flush_entry j q s | None => (s, Ret tt) end) n s Hm Hk)
      as (s' & [] & Hf & Hk'); [|by exists s'].
    intros s0 Hk0. by apply flush_page_kept.
  - destruct (guard_kept (fun s => flush_entries (iter (page_table s)) s) n s Hm Hk)
      as (s' & [] & Hf & Hk'); [|by exists s'].
    intros s0 Hk0. destruct (flush_all_kept n s0 Hit Hk0) as (s1 & ? & ? & _). by exists s1, tt.
  - by apply poke_kept.
Qed.

Lemma bm_run_kept n os : forall s,
  iterates -> kept n s -> mtx s = false -> Forall (quiet id ptr n) os -> exists s',
    bm_run os s = (s', Ret tt) /\ kept n s' /\ mtx s' = false.
Proof.
  induction os as [|o os IH]; intros s Hit Hk Hm Hq; simpl; [by exists s|].
  apply Forall_cons in Hq as [Ho Hos].
  destruct (bm_step_kept n o s Hit Hk Hm Ho) as (s1 & Hs & Hk1 & Hm1).
  unfold prog_bind. rewrite Hs. by apply IH.
Qed.
End Run.

Lemma mark_dirty_holds id ptr p s :
  bm_inv s -> mtx s = false -> page_table s !! id = Some ptr -> heap s !! ptr = Some p ->
  exists s', mark_dirty id s = (s', Ret tt) /\ kept id ptr (data p) (length (heap s)) s' /\
    mtx s' = false.
Proof.
  intros Hi Hm Hid Hp. eexists. split; [apply lock_guard_ret; [done|]|].
  { cbn. rewrite Hid. done. }
  split; [|done]. unfold set_dirty. cbn -[lookup alter].
  split; [by apply (bm_inv_alter s)|]. cbn [heap]. rewrite length_alter. split; [|done].
  assert (Hh : forall p0, alter (fun p => MkPage (page_id p) true (data p)) ptr (heap s) !! ptr = Some p0 ->
    data p0 = data p).
  { intros p0. rewrite list_lookup_alter_eq, Hp. by intros [= <-]. }
  split; cbn -[lookup alter].
  - intros q p0 Hq Hp0 _. simplify_eq. auto.
  - left. exists ptr, (MkPage (page_id p) true (data p)). split; [done|]. split; [|done].
    cbn -[lookup alter]. by rewrite list_lookup_alter_eq, Hp.
Qed.

(** C6.  No update is lost: once a resident page is marked dirty, whatever fetches (with the
    evictions they cause), flushes, marks of other pages and writes into other pages follow, the
    next [flush_all_pages] leaves the page's bytes as the last ones the disk received for it. *)
Theorem buffer_no_lost_update (iter : gmap Z nat -> list (Z * nat)) (id : Z) (ptr : nat) (p : Page)
    (os : list bm_op) (s : BufferManager) :
  iterates iter -> bm_inv s -> mtx s = false ->
  page_table s !! id = Some ptr -> heap s !! ptr = Some p ->
  Forall (quiet id ptr (length (heap s))) os ->
  exists s1 s2 s3,
    mark_dirty id s = (s1, Ret tt) /\ bm_run iter os s1 = (s2, Ret tt) /\
    flush_all_pages iter s2 = (s3, Ret tt) /\ on_disk s3 id = Some (data p).
Proof.
  intros Hit Hi Hm Hid Hp Hq.
  destruct (mark_dirty_holds id ptr p s Hi Hm Hid Hp) as (s1 & Hs1 & Hk1 & Hm1).
  destruct (bm_run_kept iter id ptr (data p) _ os s1 Hit Hk1 Hm1 Hq) as (s2 & Hs2 & Hk2 & Hm2).
  destruct (flush_all_kept iter id ptr (data p) (length (heap s)) (set_held true s2) Hit)
    as (s3 & Hs3 & Hk3 & Hd); [by apply kept_held|].
  exists s1, s2, (set_held false s3). do 2 (split; [done|]). split; [|done].
  by apply lock_guard_ret.
Qed.

(** One resident page whose first byte was written. *)
Definition one_page : BufferManager :=
  MkBM 2 [1] {[ 1 := 0%nat ]} [MkPage 1 false (<[0%nat := 65]> (replicate PAGE_SIZE 0))] [] false.

Lemma one_page_inv : bm_inv one_page.
Proof.
  constructor; cbn [capacity lru_list page_table heap one_page].
  - unfold int_max. lia.
  - apply NoDup_singleton.
  - intros id. rewrite list_elem_of_singleton, lookup_singleton. split.
    + intros ->. rewrite decide_True by done. eauto.
    + case_decide; [done|by intros [? ?]].
  - simpl. lia.
  - intros id ptr H. apply lookup_singleton_Some in H as [<- <-]. by eexists.
  - constructor; [|constructor]. cbn [data]. by rewrite length_insert, length_replicate.
Qed.

Lemma buffer_no_lost_update_witness :
  exists s1 s2 s3,
    mark_dirty 1 one_page = (s1, Ret tt) /\
    bm_run map_to_list [Fetch 2; Fetch 3; Fetch 1; FlushPage 3; MarkDirty 3] s1 = (s2, Ret tt) /\
    flush_all_pages map_to_list s2 = (s3, Ret tt) /\
    on_disk s3 1 = Some (<[0%nat := 65]> (replicate PAGE_SIZE 0)).
Proof.
  apply (buffer_no_lost_update map_to_list 1 0 (MkPage 1 false (<[0%nat := 65]> (replicate PAGE_SIZE 0)))
           [Fetch 2; Fetch 3; Fetch 1; FlushPage 3; MarkDirty 3] one_page).
  - intros m. reflexivity.
  - exact one_page_inv.
  - reflexivity.
  - reflexivity.
  - reflexivity.
  - repeat (apply Forall_cons_2; [simpl; first [exact I|lia]|]). apply Forall_nil_2.
Defined.

(** ** The program *)

(** [test_buffer_manager]: three pages are written through their pointers and marked, a fourth one
    evicts the first, and everything is flushed. *)
Definition write_first (id c : Z) : prog BufferManager unit :=
  (let! page := fetch_page id in poke page 0 c ;;; mark_dirty id)%prog.
Definition test_buffer_manager (iter : gmap Z nat -> list (Z * nat)) : prog BufferManager unit :=
  (write_first 1 65 ;;; write_first 2 66 ;;; write_first 3 67 ;;;
   let! _ := fetch_page 4 in flush_all_pages iter)%prog.

(** Each written page reaches the disk with its byte; the fourth is never written. *)
Example buffer_test_writes :
  let '(s, o) := test_buffer_manager map_to_list (make 3) in
  o = Ret tt /\ lru_list s = [4; 3; 2] /\
  (fun id => on_disk s id ≫= head) <$> [1; 2; 3; 4] = [Some 65; Some 66; Some 67; None].
Proof. vm_compute. done. Qed.
