(* ===== verification/RowStore.v ===== *)
(** * The row store ([storage/storage_formats/row_store.cpp])

    Tables made of numbered pages with a fixed number of row slots: insertion fills the current page
    and opens a new one, deletion closes the gap within its page. *)

From S2P Require Import Prelude Text.
Local Open Scope Z_scope.

(** A row holds its fields. *)
Abbreviation Row := (list string) (only parsing).

(** ** Pages *)

Record Page : Type := MkPage { pageSize : Z; rows : list (list string); rowCount : Z }.

Definition newPage (size : Z) : Page := MkPage size [] 0.

(** [rowCount++] stays within [pageSize], which is an [int]. *)
Definition page_insertRow (row : Row) (p : Page) : Page * bool :=
  if rowCount p >=? pageSize p then (p, false)
  else (MkPage (pageSize p) (rows p ++ [row]) (rowCount p + 1), true).

Definition page_deleteRow (rowIndex : Z) (p : Page) : Page * bool :=
  if (rowIndex <? 0) || (rowIndex >=? rowCount p) then (p, false)
  else (MkPage (pageSize p) (delete (Z.to_nat rowIndex) (rows p)) (rowCount p - 1), true).

Definition page_getRow (rowIndex : Z) (p : Page) : option Row :=
  if (rowIndex <? 0) || (rowIndex >=? rowCount p) then None else rows p !! Z.to_nat rowIndex.

(** ** Tables *)

Record Table : Type := MkTable {
  pages : gmap Z Page;
  table_pageSize : Z;
  currentPageId : Z
}.

Definition newTable (size : Z) : Table := MkTable {[ 0 := newPage size ]} size 0.

Definition set_page (i : Z) (p : Page) (t : Table) : Table :=
  MkTable (<[i := p]> (pages t)) (table_pageSize t) (currentPageId t).

(** A full current page opens the next one. *)
Definition table_insertRow (row : Row) : prog Table bool := fun t =>
  match pages t !! currentPageId t with
  | None => (t, Undef null_pointer)
  | Some p =>
      let '(p', ok) := page_insertRow row p in
      if ok then (set_page (currentPageId t) p' t, Ret true)
      else if currentPageId t =? int_max then (t, Undef signed_overflow)
      else
        let id := currentPageId t + 1 in
        let '(q, ok) := page_insertRow row (newPage (table_pageSize t)) in
        (set_page id q (MkTable (pages t) (table_pageSize t) id), Ret ok)
  end.

Definition table_deleteRow (pageId rowIndex : Z) (t : Table) : Table * bool :=
  match pages t !! pageId with
  | None => (t, false)
  | Some p => let '(p', ok) := page_deleteRow rowIndex p in (set_page pageId p' t, ok)
  end.

Definition table_getRow (pageId rowIndex : Z) (t : Table) : option Row :=
  pages t !! pageId ≫= page_getRow rowIndex.

(** The sum of the row counts, in the order in which the unordered map lists its pages. *)
Fixpoint sum_rows (ps : list (Z * Page)) (total : Z) : outcome Z :=
  match ps with
  | [] => Ret total
  | (_, p) :: ps => if total + rowCount p >? int_max then Undef signed_overflow
                    else sum_rows ps (total + rowCount p)
  end.
Definition getRowCount (order : gmap Z Page -> list (Z * Page)) (t : Table) : outcome Z :=
  sum_rows (order (pages t)) 0.

(** ** The store *)

Abbreviation RowStore := (gmap string Table) (only parsing).

(** What a call of the store reports. *)
Inductive report : Type :=
| TableExists
| TableCreated
| NoTable
| Inserted
| RowDeleted (ok : bool)
| RowFound (row : option (list string)).

Definition createTable (name : string) (size : Z) (s : RowStore) : RowStore * report :=
  match s !! name with
  | Some _ => (s, TableExists)
  | None => (<[name := newTable size]> s, TableCreated)
  end.

(** The result of [Table::insertRow] is ignored. *)
Definition insertRow (name : string) (row : Row) : prog RowStore report := fun s =>
  match s !! name with
  | None => (s, Ret NoTable)
  | Some t =>
      match table_insertRow row t with
      | (t', Ret _) => (<[name := t']> s, Ret Inserted)
      | (t', Throw e) => (<[name := t']> s, Throw e)
      | (t', Hang) => (<[name := t']> s, Hang)
      | (t', Undef u) => (<[name := t']> s, Undef u)
      end
  end.

Definition deleteRow (name : string) (pageId rowIndex : Z) (s : RowStore) : RowStore * report :=
  match s !! name with
  | None => (s, NoTable)
  | Some t => let '(t', ok) := table_deleteRow pageId rowIndex t in (<[name := t']> s, RowDeleted ok)
  end.

Definition getRow (name : string) (pageId rowIndex : Z) (s : RowStore) : report :=
  match s !! name with
  | None => NoTable
  | Some t => RowFound (table_getRow pageId rowIndex t)
  end.

(** ** The abstract store: every table is a list of pages, every page a list of rows *)

Record atable : Type := MkA { a_size : Z; a_pages : list (list (list string)) }.

Definition a_insert (row : Row) (t : atable) : atable :=
  let n := (length (a_pages t) - 1)%nat in
  MkA (a_size t)
    (if bool_decide (Z.of_nat (length (default [] (a_pages t !! n))) < a_size t)
     then alter (fun p => p ++ [row]) n (a_pages t)
     else a_pages t ++ [if bool_decide (0 < a_size t) then [row] else []]).

Definition a_lookup (pageId rowIndex : Z) (t : atable) : option Row :=
  if bool_decide (0 <= pageId /\ 0 <= rowIndex)
  then a_pages t !! Z.to_nat pageId ≫= (fun p => p !! Z.to_nat rowIndex) else None.

Definition a_delete (pageId rowIndex : Z) (t : atable) : atable :=
  match a_lookup pageId rowIndex t with
  | Some _ => MkA (a_size t) (alter (delete (Z.to_nat rowIndex)) (Z.to_nat pageId) (a_pages t))
  | None => t
  end.

Inductive store_op : Type :=
| OCreate (name : string) (size : Z)
| OInsert (name : string) (row : list string)
| ODelete (name : string) (pageId rowIndex : Z)
| OGet (name : string) (pageId rowIndex : Z).

Definition store_step (o : store_op) : prog RowStore report :=
  match o with
  | OCreate n size => fun s => let '(s', r) := createTable n size s in (s', Ret r)
  | OInsert n row => insertRow n row
  | ODelete n p i => fun s => let '(s', r) := deleteRow n p i s in (s', Ret r)
  | OGet n p i => fun s => (s, Ret (getRow n p i s))
  end.

Definition spec_step (o : store_op) (m : gmap string atable) : gmap string atable * report :=
  match o with
  | OCreate n size =>
      match m !! n with Some _ => (m, TableExists) | None => (<[n := MkA size [[]]]> m, TableCreated) end
  | OInsert n row =>
      match m !! n with Some t => (<[n := a_insert row t]> m, Inserted) | None => (m, NoTable) end
  | ODelete n p i =>
      match m !! n with
      | Some t => (<[n := a_delete p i t]> m, RowDeleted (bool_decide (is_Some (a_lookup p i t))))
      | None => (m, NoTable)
      end
  | OGet n p i => (m, match m !! n with Some t => RowFound (a_lookup p i t) | None => NoTable end)
  end.

Fixpoint store_run (os : list store_op) : prog RowStore (list report) :=
  match os with
  | [] => prog_ret []
  | o :: os => (let! r := store_step o in let! rs := store_run os in prog_ret (r :: rs))%prog
  end.

Fixpoint spec_run (os : list store_op) (m : gmap string atable) : gmap string atable * list report :=
  match os with
  | [] => (m, [])
  | o :: os =>
      let '(m, r) := spec_step o m in
      let '(m, rs) := spec_run os m in (m, r :: rs)
  end.

Example main_reports :
  snd (store_run [OCreate "Users" 3; OInsert "Users" ["1"]; OInsert "Users" ["2"]; OInsert "Users" ["3"];
                  OInsert "Users" ["4"]; OGet "Users" 0 1; ODelete "Users" 0 1; OGet "Users" 0 1; OGet "Users" 1 0] ∅) =
    Ret [TableCreated; Inserted; Inserted; Inserted; Inserted; RowFound (Some ["2"]); RowDeleted true;
         RowFound (Some ["3"]); RowFound (Some ["4"])].
Proof. vm_compute. reflexivity. Qed.

(** ** Refinement *)

Definition full_page (size : Z) (r : list (list string)) : Page := MkPage size r (Z.of_nat (length r)).

Record table_rel (t : Table) (a : atable) : Prop := {
  tr_size : table_pageSize t = a_size a;
  tr_cur : currentPageId t = Z.of_nat (length (a_pages a)) - 1;
  tr_ne : a_pages a ≠ [];
  tr_pages i : pages t !! i =
    if bool_decide (0 <= i) then full_page (a_size a) <$> a_pages a !! Z.to_nat i else None
}.

Lemma newTable_rel size : table_rel (newTable size) (MkA size [[]]).
Proof.
  split; try done. intros i. cbn [newTable pages a_pages a_size]. rewrite lookup_singleton.
  case_decide as E; [subst; by rewrite bool_decide_eq_true_2|]. case_bool_decide; [|done].
  destruct (Z.to_nat i) as [|[|n]] eqn:En; [lia|done|done].
Qed.

(** Replacing page [i] on both sides. *)
Lemma set_page_rel t a i r :
  table_rel t a -> (i < length (a_pages a))%nat ->
  table_rel (set_page (Z.of_nat i) (full_page (a_size a) r) t) (MkA (a_size a) (<[i := r]> (a_pages a))).
Proof.
  intros [Hs Hc Hne Hp] Hi. split; cbn [set_page pages table_pageSize currentPageId a_size a_pages]; try done.
  - by rewrite length_insert.
  - destruct (a_pages a); [done|]. by destruct i.
  - intros j. rewrite lookup_insert, Hp, list_lookup_insert. case_decide as E.
    + subst j. rewrite bool_decide_eq_true_2, Nat2Z.id by lia. by rewrite decide_True.
    + case_bool_decide as Ej; [|done]. rewrite decide_False; [done|]. lia.
Qed.

Lemma page_index a : a_pages a ≠ [] -> exists p, a_pages a !! (length (a_pages a) - 1)%nat = Some p.
Proof.
  intros Hne. apply lookup_lt_is_Some_2. destruct (a_pages a); [done|]. simpl. lia.
Qed.

Lemma table_insert_ok row t a :
  table_rel t a -> Z.of_nat (length (a_pages a)) <= int_max ->
  exists t' b, table_insertRow row t = (t', Ret b) /\ table_rel t' (a_insert row a).
Proof.
  intros Ht Hlen. pose proof Ht as [Hs Hc Hne Hp]. destruct (page_index a Hne) as [p Hlast].
  assert (Hpos : (0 < length (a_pages a))%nat) by (destruct (a_pages a); [done|simpl; lia]).
  assert (Hcur : pages t !! currentPageId t = Some (full_page (a_size a) p)).
  { rewrite Hp, Hc, bool_decide_eq_true_2 by lia.
    replace (Z.to_nat (Z.of_nat (length (a_pages a)) - 1)) with (length (a_pages a) - 1)%nat by lia. by rewrite Hlast. }
  unfold table_insertRow. rewrite Hcur. unfold page_insertRow at 1, a_insert. cbn [full_page rowCount pageSize rows].
  rewrite Hlast. cbn [default from_option id]. rewrite Z.geb_leb. destruct (_ <=? _) eqn:Efull.
  - apply Z.leb_le in Efull. rewrite bool_decide_eq_false_2 by lia.
    assert (Eov : (currentPageId t =? int_max) = false) by (apply Z.eqb_neq; lia). rewrite Eov.
    assert (Hnew : exists b, page_insertRow row (newPage (table_pageSize t)) =
      (full_page (a_size a) (if bool_decide (0 < a_size a) then [row] else []), b)).
    { unfold page_insertRow. cbn [newPage rowCount pageSize rows]. rewrite Hs, Z.geb_leb. destruct (_ <=? _) eqn:E0.
      - apply Z.leb_le in E0. rewrite bool_decide_eq_false_2 by lia. by eexists.
      - apply Z.leb_gt in E0. rewrite bool_decide_eq_true_2 by lia. by eexists. }
    destruct Hnew as [b ->]. eexists _, b. split; [done|].
    set (r := if bool_decide (0 < a_size a) then [row] else []).
    split; cbn [set_page pages table_pageSize currentPageId a_size a_pages]; try done.
    + rewrite length_app. simpl. lia.
    + by destruct (a_pages a).
    + intros j. rewrite lookup_insert, Hp. case_decide as E.
      * subst j. rewrite bool_decide_eq_true_2 by lia.
        replace (Z.to_nat (currentPageId t + 1)) with (length (a_pages a)) by lia. by rewrite list_lookup_middle.
      * case_bool_decide as Ej; [|done]. f_equal. destruct (decide (Z.to_nat j < length (a_pages a))%nat).
        -- by rewrite lookup_app_l.
        -- rewrite lookup_ge_None_2 by lia. symmetry. apply lookup_ge_None_2. rewrite length_app. simpl. lia.
  - apply Z.leb_gt in Efull. rewrite bool_decide_eq_true_2 by lia. eexists _, true. split; [done|].
    pose proof (set_page_rel t a (length (a_pages a) - 1) (p ++ [row]) Ht ltac:(lia)) as H.
    rewrite Hc. replace (Z.of_nat (length (a_pages a)) - 1) with (Z.of_nat (length (a_pages a) - 1)) by lia.
    assert (Ealt : alter (fun p => p ++ [row]) (length (a_pages a) - 1)%nat (a_pages a) =
      <[(length (a_pages a) - 1)%nat := p ++ [row]]> (a_pages a)).
    { apply list_eq. intros j. rewrite list_lookup_insert, list_lookup_alter. case_decide as E; subst.
      - by rewrite Hlast, decide_True by lia.
      - rewrite decide_False; [done|tauto]. }
    rewrite Ealt. unfold full_page in H. rewrite length_app in H. simpl in H.
    replace (Z.of_nat (length p) + 1) with (Z.of_nat (length p + 1)) by lia. exact H.
Qed.

Lemma table_get_ok p i t a : table_rel t a -> table_getRow p i t = a_lookup p i a.
Proof.
  intros [Hs Hc Hne Hp]. unfold table_getRow, a_lookup. rewrite Hp. destruct (decide (0 <= p)) as [H0|H0].
  - rewrite bool_decide_eq_true_2 by done. destruct (a_pages a !! Z.to_nat p) as [r|]; cbn; [|by case_bool_decide].
    unfold page_getRow. cbn [full_page rowCount rows]. rewrite Z.geb_leb.
    destruct (i <? 0) eqn:Ei; [apply Z.ltb_lt in Ei; rewrite bool_decide_eq_false_2 by lia; done|].
    apply Z.ltb_ge in Ei. rewrite bool_decide_eq_true_2 by done. cbn [orb].
    destruct (_ <=? i) eqn:El; [|done]. apply Z.leb_le in El. symmetry. apply lookup_ge_None_2. lia.
  - rewrite !bool_decide_eq_false_2 by tauto. done.
Qed.

Lemma table_delete_ok p i t a :
  table_rel t a ->
  exists t', table_deleteRow p i t = (t', bool_decide (is_Some (a_lookup p i a))) /\ table_rel t' (a_delete p i a).
Proof.
  intros Ht. pose proof Ht as [Hs Hc Hne Hp]. unfold table_deleteRow, a_delete.
  destruct (pages t !! p) as [pg|] eqn:Epg.
  - rewrite Hp in Epg. case_bool_decide as H0; [|done].
    destruct (a_pages a !! Z.to_nat p) as [r|] eqn:Er; [|done]. injection Epg as <-.
    assert (El : a_lookup p i a = if bool_decide (0 <= i) then r !! Z.to_nat i else None).
    { unfold a_lookup. rewrite Er. by repeat case_bool_decide; try tauto. }
    assert (Hlt : (Z.to_nat p < length (a_pages a))%nat) by (by apply lookup_lt_Some in Er).
    rewrite El. unfold page_deleteRow. cbn [full_page rowCount rows pageSize]. rewrite Z.geb_leb.
    assert (Hkeep : table_rel (set_page p (full_page (a_size a) r) t) a).
    { pose proof (set_page_rel t a (Z.to_nat p) r Ht Hlt) as H. rewrite Z2Nat.id in H by done.
      rewrite list_insert_id in H by done. by destruct a. }
    destruct (decide (0 <= i < Z.of_nat (length r))) as [Hi|Hi].
    + assert (E1 : (i <? 0) = false) by (apply Z.ltb_ge; lia).
      assert (E2 : (Z.of_nat (length r) <=? i) = false) by (apply Z.leb_gt; lia).
      rewrite E1, E2, (bool_decide_eq_true_2 (0 <= i)) by lia. cbn [orb].
      destruct (lookup_lt_is_Some_2 r (Z.to_nat i)) as [row Hrow]; [lia|]. rewrite Hrow.
      eexists. split; [by rewrite bool_decide_eq_true_2 by (by eexists)|].
      pose proof (set_page_rel t a (Z.to_nat p) (delete (Z.to_nat i) r) Ht Hlt) as H. rewrite Z2Nat.id in H by done.
      assert (Ealt : alter (delete (Z.to_nat i)) (Z.to_nat p) (a_pages a) =
        <[Z.to_nat p := delete (Z.to_nat i) r]> (a_pages a)).
      { apply list_eq. intros j. rewrite list_lookup_insert, list_lookup_alter.
        destruct (decide (Z.to_nat p = j)) as [<-|Hj]; [by rewrite Er, decide_True|].
        rewrite decide_False; [done|tauto]. }
      rewrite Ealt. unfold full_page in H. rewrite length_delete in H by (by eexists).
      replace (Z.of_nat (length r) - 1) with (Z.of_nat (length r - 1)) by lia. exact H.
    + assert (E : (i <? 0) || (Z.of_nat (length r) <=? i) = true).
      { apply orb_true_iff. rewrite Z.ltb_lt, Z.leb_le. lia. }
      rewrite E. assert (En : (if bool_decide (0 <= i) then r !! Z.to_nat i else None) = None).
      { case_bool_decide; [|done]. apply lookup_ge_None_2. lia. }
      rewrite En. eexists. split; [by rewrite bool_decide_eq_false_2 by (by intros [? ?])|done].
  - assert (En : a_lookup p i a = None).
    { rewrite Hp in Epg. unfold a_lookup. case_bool_decide as H0; [|by case_bool_decide; [tauto|]].
      destruct (a_pages a !! Z.to_nat p); [done|]. by case_bool_decide. }
    rewrite En. exists t. split; [by rewrite bool_decide_eq_false_2 by (by intros [? ?])|done].
Qed.

(** Related stores with room for [n] more pages in every table. *)
Definition store_rel (n : nat) (s : gmap string Table) (m : gmap string atable) : Prop :=
  forall name, match s !! name, m !! name with
               | Some t, Some a => table_rel t a /\ Z.of_nat (length (a_pages a) + n) <= int_max
               | None, None => True
               | _, _ => False
               end.

Lemma store_rel_insert n s m name t a :
  store_rel (S n) s m -> table_rel t a -> Z.of_nat (length (a_pages a) + n) <= int_max ->
  store_rel n (<[name := t]> s) (<[name := a]> m).
Proof.
  intros Hr Ht Hl x. rewrite !lookup_insert. case_decide; [done|]. specialize (Hr x).
  destruct (s !! x), (m !! x); try done. destruct Hr as [H1 H2]. split; [done|]. lia.
Qed.

Lemma store_rel_weaken n s m : store_rel (S n) s m -> store_rel n s m.
Proof.
  intros Hr x. specialize (Hr x). destruct (s !! x), (m !! x); try done. destruct Hr as [H1 H2]. split; [done|]. lia.
Qed.

Lemma a_insert_pages row a : (length (a_pages (a_insert row a)) <= S (length (a_pages a)))%nat.
Proof. unfold a_insert. cbn [a_pages]. case_bool_decide; [rewrite length_alter; lia|rewrite length_app; simpl; lia]. Qed.

Lemma a_delete_pages p i a : length (a_pages (a_delete p i a)) = length (a_pages a).
Proof. unfold a_delete. destruct (a_lookup p i a); [|done]. cbn [a_pages]. by rewrite length_alter. Qed.

Lemma store_step_ok n o s m :
  store_rel (S n) s m -> Z.of_nat (S n) <= int_max ->
  exists s', store_step o s = (s', Ret (spec_step o m).2) /\ store_rel n s' (spec_step o m).1.
Proof.
  intros Hr Hn. destruct o as [name size|name row|name p i|name p i]; cbn [store_step spec_step];
    pose proof (Hr name) as Hx.
  - unfold createTable. destruct (s !! name) as [t|], (m !! name) as [a|]; try done; eexists; (split; [done|]).
    + by apply store_rel_weaken.
    + apply store_rel_insert; [done|apply newTable_rel|]. cbn [a_pages length]. lia.
  - unfold insertRow. destruct (s !! name) as [t|], (m !! name) as [a|]; try done.
    + destruct Hx as [Ht Hl]. destruct (table_insert_ok row t a Ht) as (t' & b & -> & Ht'); [lia|].
      eexists. split; [done|]. apply store_rel_insert; [done|done|]. pose proof (a_insert_pages row a). lia.
    + eexists. split; [done|]. by apply store_rel_weaken.
  - unfold deleteRow. destruct (s !! name) as [t|], (m !! name) as [a|]; try done.
    + destruct Hx as [Ht Hl]. destruct (table_delete_ok p i t a Ht) as (t' & -> & Ht').
      eexists. split; [done|]. apply store_rel_insert; [done|done|]. rewrite a_delete_pages. lia.
    + eexists. split; [done|]. by apply store_rel_weaken.
  - unfold getRow. eexists. split; [|by apply store_rel_weaken]. cbn [snd].
    destruct (s !! name) as [t|], (m !! name) as [a|]; try done. destruct Hx as [Ht _].
    by rewrite (table_get_ok p i t a Ht).
Qed.

Lemma store_run_ok os : forall s m,
  store_rel (length os) s m -> Z.of_nat (length os) <= int_max ->
  exists s', store_run os s = (s', Ret (spec_run os m).2) /\ store_rel 0 s' (spec_run os m).1.
Proof.
  induction os as [|o os IH]; intros s m Hr Hn; [by exists s|]. cbn [length] in *.
  destruct (store_step_ok (length os) o s m Hr Hn) as (s1 & Hs1 & Hr1).
  cbn [store_run spec_run]. unfold prog_bind at 1. rewrite Hs1.
  destruct (spec_step o m) as [m1 r]. cbn [fst snd] in *.
  destruct (IH s1 m1 Hr1 ltac:(lia)) as (s2 & Hs2 & Hr2). unfold prog_bind. rewrite Hs2.
  destruct (spec_run os m1) as [m2 rs]. by exists s2.
Qed.

(** A table without rows to spare: insertion appends, deletion takes out one row. *)
Lemma alter_split {A : Type} (f : A -> A) (l : list A) i x :
  l !! i = Some x -> exists l1 l2, l = l1 ++ x :: l2 /\ length l1 = i /\ alter f i l = l1 ++ f x :: l2.
Proof.
  intros Hi. apply list_elem_of_split_length in Hi as (l1 & l2 & -> & ->). exists l1, l2.
  split; [done|]. split; [done|]. rewrite alter_app_r_alt, Nat.sub_diag by done. done.
Qed.

Lemma a_insert_concat row a :
  0 < a_size a -> a_pages a ≠ [] -> concat (a_pages (a_insert row a)) = concat (a_pages a) ++ [row].
Proof.
  intros Hs Hne. destruct (page_index a Hne) as [p Hp]. unfold a_insert. cbn [a_pages].
  rewrite Hp. case_bool_decide.
  - destruct (alter_split (fun p => p ++ [row]) _ _ _ Hp) as (l1 & l2 & El & Hl & Ea). rewrite Ea.
    assert (l2 = []) as ->.
    { apply (f_equal length) in El. rewrite length_app in El. cbn [length] in El. destruct l2; [done|]. simpl in El. lia. }
    rewrite El, !concat_app. simpl. by rewrite !app_nil_r, (assoc_L (++)).
  - rewrite (bool_decide_eq_true_2 (0 < a_size a)) by done. by rewrite concat_app.
Qed.

Lemma a_delete_concat p i a row :
  a_lookup p i a = Some row ->
  exists l1 l2, concat (a_pages a) = l1 ++ row :: l2 /\ concat (a_pages (a_delete p i a)) = l1 ++ l2.
Proof.
  intros Hl. unfold a_delete. rewrite Hl. unfold a_lookup in Hl. case_bool_decide; [|done].
  destruct (a_pages a !! Z.to_nat p) as [r|] eqn:Er; [|done]. cbn in Hl. cbn [a_pages].
  destruct (alter_split (delete (Z.to_nat i)) _ _ _ Er) as (l1 & l2 & El & _ & Ea). rewrite Ea, El.
  apply list_elem_of_split_length in Hl as (r1 & r2 & -> & Hi).
  exists (concat l1 ++ r1), (r2 ++ concat l2). rewrite !concat_app. simpl.
  rewrite Hi, delete_middle. by rewrite <-!(assoc_L (++)).
Qed.

(** The pages of a table, in order. *)
Lemma pages_perm t a :
  table_rel t a -> map_to_list (pages t) ≡ₚ imap (fun i r => (Z.of_nat i, full_page (a_size a) r)) (a_pages a).
Proof.
  intros [Hs Hc Hne Hp]. apply NoDup_Permutation.
  - apply NoDup_map_to_list.
  - apply NoDup_fmap_1 with (f := fst). rewrite fmap_imap. unfold compose. cbn [fst].
    apply NoDup_alt. intros j1 j2 x H1 H2. rewrite list_lookup_imap in H1, H2.
    destruct (a_pages a !! j1), (a_pages a !! j2); simplify_eq/=. lia.
  - intros [j pg]. rewrite elem_of_map_to_list, Hp, elem_of_lookup_imap. split.
    + case_bool_decide; [|done]. destruct (a_pages a !! Z.to_nat j) as [r|] eqn:Er; [|done]. intros [= <-].
      exists (Z.to_nat j), r. split; [|done]. f_equal. lia.
    + intros (n & r & [= -> ->] & Hr). rewrite bool_decide_eq_true_2, Nat2Z.id by lia. by rewrite Hr.
Qed.

Definition total_rows (l : list (Z * Page)) : Z := foldr (fun e n => rowCount e.2 + n) 0 l.

Lemma sum_rows_ok l : forall n,
  Forall (fun e => 0 <= rowCount e.2) l -> n + total_rows l <= int_max -> sum_rows l n = Ret (n + total_rows l).
Proof.
  induction l as [|[i p] l IH]; intros n Hl Hb; cbn [sum_rows total_rows foldr].
  - by rewrite Z.add_0_r.
  - apply Forall_cons in Hl as [Hp Hl]. cbn [total_rows foldr snd] in *. fold (total_rows l) in *.
    assert (Hnn : 0 <= total_rows l).
    { clear -Hl. induction Hl as [|e l He Hl IH]; [done|]. cbn. fold (total_rows l). lia. }
    assert (E : (n + rowCount p >? int_max) = false) by (rewrite Z.gtb_ltb; apply Z.ltb_ge; lia).
    rewrite E, IH by (done || lia). f_equal. lia.
Qed.

Lemma total_rows_perm l l' : l ≡ₚ l' -> total_rows l = total_rows l'.
Proof.
  intros Hp. unfold total_rows. induction Hp as [|x l l' _ IH|x y l|l1 l2 l3 _ IH1 _ IH2]; cbn [foldr]; [done|by rewrite IH|lia|congruence].
Qed.

Lemma total_rows_pages size ps : forall k : nat,
  total_rows (imap (fun i r => (Z.of_nat (k + i), full_page size r)) ps) = Z.of_nat (length (concat ps)).
Proof.
  induction ps as [|r ps IH]; intros k; [done|]. rewrite imap_cons. cbn [total_rows foldr snd]. fold (total_rows).
  simpl concat. rewrite length_app, Nat2Z.inj_add. cbn [full_page rowCount]. f_equal.
  rewrite <-(IH (S k)). unfold total_rows. f_equal. apply imap_ext. intros i x _. simpl. f_equal. lia.
Qed.

Lemma getRowCount_ok order t a :
  (forall m, order m ≡ₚ map_to_list m) -> table_rel t a -> Z.of_nat (length (concat (a_pages a))) <= int_max ->
  getRowCount order t = Ret (Z.of_nat (length (concat (a_pages a)))).
Proof.
  intros Ho Ht Hb. pose proof (pages_perm t a Ht) as Hp. rewrite <-Ho in Hp.
  pose proof (total_rows_pages (a_size a) (a_pages a) 0) as Htot. cbn [Nat.add] in Htot.
  unfold getRowCount. rewrite sum_rows_ok.
  - by rewrite (total_rows_perm _ _ Hp), Htot.
  - rewrite Hp. apply Forall_lookup. intros i [j pg] H. rewrite list_lookup_imap in H.
    destruct (a_pages a !! i); [|done]. injection H as <- <-. cbn. lia.
  - rewrite (total_rows_perm _ _ Hp), Htot. lia.
Qed.

(** C36.  The row store refines lists of pages: any creations, insertions, deletions and reads report
    exactly what the abstract store reports, tables do not affect each other, and the row count of a
    table is the number of rows of its pages, whatever order the pages are listed in. In the abstract
    store an insertion into a table with room on its pages appends one row to the contents, page by
    page, and a deletion takes out exactly the row it names. *)
Theorem row_store_refines (order : gmap Z Page -> list (Z * Page)) (os : list store_op) :
  (forall m, order m ≡ₚ map_to_list m) -> Z.of_nat (length os) <= int_max ->
  (exists s, store_run os ∅ = (s, Ret (spec_run os ∅).2) /\
     forall name t, s !! name = Some t -> exists a, (spec_run os ∅).1 !! name = Some a /\
       (Z.of_nat (length (concat (a_pages a))) <= int_max ->
        getRowCount order t = Ret (Z.of_nat (length (concat (a_pages a)))))) /\
  (forall row a, 0 < a_size a -> a_pages a ≠ [] ->
     concat (a_pages (a_insert row a)) = concat (a_pages a) ++ [row]) /\
  (forall p i a row, a_lookup p i a = Some row -> exists l1 l2,
     concat (a_pages a) = l1 ++ row :: l2 /\ concat (a_pages (a_delete p i a)) = l1 ++ l2).
Proof.
  intros Ho Hn. split; [|split; [exact a_insert_concat|exact a_delete_concat]].
  destruct (store_run_ok os ∅ ∅) as (s & Hs & Hr); [by intros name; rewrite !lookup_empty|done|].
  exists s. split; [done|]. intros name t Ht. specialize (Hr name). rewrite Ht in Hr.
  destruct ((spec_run os ∅).1 !! name) as [a|]; [|done]. exists a. split; [done|]. intros Hb.
  destruct Hr as [Hrel _]. by apply getRowCount_ok.
Qed.

(** ** What is printed *)

(** A row on a line, with a bar after each field. *)
Definition displayRow (row : Row) : string := foldr (fun field t => field +:+ " | " +:+ t) EmptyString row.
Definition displayPage (p : Page) : list string := displayRow <$> rows p.
Definition table_displayTable (order : gmap Z Page -> list (Z * Page)) (t : Table) : list string :=
  order (pages t) ≫= fun e => ("Page " +:+ to_string e.1 +:+ ":") :: displayPage e.2.

Definition displayTable (order : gmap Z Page -> list (Z * Page)) (name : string) (s : RowStore) :
    list string :=
  match s !! name with
  | None => ["Table does not exist."]
  | Some t => table_displayTable order t
  end.

(** The lines of a call, for its report. *)
Definition printed (o : store_op) (r : report) : list string :=
  match r with
  | TableExists => ["Table already exists."]
  | TableCreated =>
      match o with
      | OCreate name size => ["Table " +:+ name +:+ " created with page size " +:+ to_string size +:+ "."]
      | _ => []
      end
  | NoTable => ["Table does not exist."]
  | Inserted => []
  | RowDeleted true => ["Row deleted successfully."]
  | RowDeleted false => ["Failed to delete row."]
  | RowFound (Some row) => [displayRow row]
  | RowFound None => ["Row not found."]
  end.

Definition print_step (o : store_op) : prog RowStore (list string) :=
  (let! r := store_step o in prog_ret (printed o r))%prog.

(** [main]: the table is shown before and after a deletion. *)
Definition main_inserts : list store_op :=
  [OCreate "Users" 3; OInsert "Users" ["1"; "Person1"; "person1@website.com"];
   OInsert "Users" ["2"; "Person2"; "person2@website.com"];
   OInsert "Users" ["3"; "Person3"; "person3@website.com"];
   OInsert "Users" ["4"; "Person4"; "person4@website.com"]].

Fixpoint print_run (os : list store_op) : prog RowStore (list string) :=
  match os with
  | [] => prog_ret []
  | o :: os => (let! l := print_step o in let! ls := print_run os in prog_ret (l ++ ls))%prog
  end.

Definition main (order : gmap Z Page -> list (Z * Page)) : prog RowStore (list string) :=
  (let! created := print_run main_inserts in
   let! shown := prog_gets (displayTable order "Users") in
   let! fetched := print_step (OGet "Users" 0 1) in
   let! deleted := print_step (ODelete "Users" 0 1) in
   let! after := prog_gets (displayTable order "Users") in
   prog_ret (created ++ ["Displaying 'Users' table:"] ++ shown ++
             ["Fetching row (Page 0, Row 1):"] ++ fetched ++
             ["Deleting row (Page 0, Row 1):"] ++ deleted ++
             ["Displaying 'Users' table after deletion:"] ++ after))%prog.

(** The pages in the order of their ids. *)
Example row_store_main_prints :
  snd (main (fun m => omap (fun i => (fun p => (i, p)) <$> m !! i) [0; 1]) ∅) =
    Ret ["Table Users created with page size 3."; "Displaying 'Users' table:"; "Page 0:";
         "1 | Person1 | person1@website.com | "; "2 | Person2 | person2@website.com | ";
         "3 | Person3 | person3@website.com | "; "Page 1:"; "4 | Person4 | person4@website.com | ";
         "Fetching row (Page 0, Row 1):"; "2 | Person2 | person2@website.com | ";
         "Deleting row (Page 0, Row 1):"; "Row deleted successfully.";
         "Displaying 'Users' table after deletion:"; "Page 0:";
         "1 | Person1 | person1@website.com | "; "3 | Person3 | person3@website.com | ";
         "Page 1:"; "4 | Person4 | person4@website.com | "].
Proof. vm_compute. reflexivity. Qed.

Definition some_ops : list store_op :=
  [OCreate "Users" 3; OInsert "Users" ["1"; "Person1"]; OInsert "Users" ["2"; "Person2"];
   OInsert "Users" ["3"; "Person3"]; OInsert "Users" ["4"; "Person4"]; OGet "Users" 0 1;
   ODelete "Users" 0 1; OGet "Users" 0 1].

Lemma row_store_refines_witness :
  (exists s, store_run some_ops ∅ =
    (s, Ret [TableCreated; Inserted; Inserted; Inserted; Inserted; RowFound (Some ["2"; "Person2"]);
             RowDeleted true; RowFound (Some ["3"; "Person3"])])) /\
  Z.of_nat (length some_ops) <= int_max.
Proof.
  destruct (row_store_refines map_to_list some_ops) as ((s & Hs & _) & _).
  - done.
  - vm_compute. congruence.
  - split; [|vm_compute; congruence]. exists s. rewrite Hs. f_equal.
Defined.

(** Deleting does not free a page: the next insertion still goes to the last page. *)
Example deleted_slot_not_reused :
  let s := fst (store_run [OCreate "T" 1; OInsert "T" ["a"]; OInsert "T" ["b"]; ODelete "T" 0 0; OInsert "T" ["c"]] ∅) in
  getRow "T" 0 0 s = RowFound None /\ getRow "T" 2 0 s = RowFound (Some ["c"]).
Proof. vm_compute. done. Qed.
