(* ===== verification/ColumnStore.v ===== *)
(** * The column store ([storage/storage_formats/column_store.cpp])

    Typed columns filled from text and read back as text. The conversions between text and [float],
    [std::stof] and [std::to_string], are parameters: the column only stores their results. *)

From S2P Require Import Prelude Text.

Inductive DataType : Set := INT | FLOAT | STRING.
#[export] Instance DataType_eq_dec : EqDecision DataType.
Proof. solve_decision. Defined.

Section Columns.
Context {float : Type} (stof : string -> outcome float) (float_to_string : float -> string).

(** ** Columns *)

(** [TypedColumn<T>] for the three types the store creates. *)
Inductive column_data : Type :=
| Ints (data : list Z)
| Floats (data : list float)
| Strings (data : list string).

Record Column : Type := MkColumn { data : column_data; type : DataType }.

Definition col_appendValue (value : string) (c : Column) : outcome Column :=
  match data c with
  | Ints l => z ← stoi value; mret (MkColumn (Ints (l ++ [z])) (type c))
  | Floats l => f ← stof value; mret (MkColumn (Floats (l ++ [f])) (type c))
  | Strings l => mret (MkColumn (Strings (l ++ [value])) (type c))
  end.

Definition col_size (c : Column) : nat :=
  match data c with Ints l => length l | Floats l => length l | Strings l => length l end.

Definition col_getValue (index : nat) (c : Column) : outcome string :=
  if bool_decide (col_size c <= index) then Throw (out_of_range "Index out of range")
  else
    match match data c with
          | Ints l => to_string <$> l !! index
          | Floats l => float_to_string <$> l !! index
          | Strings l => l !! index
          end with
    | Some v => Ret v
    | None => Undef index_out_of_range
    end.

(** ** The store *)

Abbreviation ColumnStore := (gmap string Column) (only parsing).

Definition newColumn (ty : DataType) : Column :=
  MkColumn match ty with INT => Ints [] | FLOAT => Floats [] | STRING => Strings [] end ty.

Definition addColumn (name : string) (ty : DataType) : prog ColumnStore unit := fun s =>
  match s !! name with
  | Some _ => (s, Throw (runtime_error "Column already exists"))
  | None => (<[name := newColumn ty]> s, Ret tt)
  end.

Definition appendValue (name value : string) : prog ColumnStore unit := fun s =>
  match s !! name with
  | None => (s, Throw (runtime_error "Column not found"))
  | Some c =>
      match col_appendValue value c with
      | Ret c' => (<[name := c']> s, Ret tt)
      | Throw e => (s, Throw e)
      | Hang => (s, Hang)
      | Undef u => (s, Undef u)
      end
  end.

Definition getValue (name : string) (rowIndex : nat) (s : ColumnStore) : outcome string :=
  match s !! name with
  | None => Throw (runtime_error "Column not found")
  | Some c => col_getValue rowIndex c
  end.

Definition getColumnType (name : string) (s : ColumnStore) : outcome DataType :=
  match s !! name with
  | None => Throw (runtime_error "Column not found")
  | Some c => Ret (type c)
  end.

(** The rows of the first column; [order] lists the unordered map. *)
Definition rowCount (order : gmap string Column -> list (string * Column)) (s : ColumnStore) : nat :=
  match order s with
  | [] => 0
  | (_, c) :: _ => col_size c
  end.

Definition tab : Ascii.ascii := Ascii.ascii_of_nat 9.

(** Texts with a tab after each, and the end of the line. *)
Definition tabbed (l : list string) : string :=
  foldr (fun v t => v +:+ String tab t) (String nl EmptyString) l.

(** What a row prints, and how it ends: the first missing value throws. *)
Fixpoint display_row (row : nat) (cols : list (string * Column)) : string * outcome unit :=
  match cols with
  | [] => (String nl EmptyString, Ret tt)
  | (_, c) :: cols =>
      match col_getValue row c with
      | Ret v => let '(t, o) := display_row row cols in (v +:+ String tab t, o)
      | Throw e => (EmptyString, Throw e)
      | Hang => (EmptyString, Hang)
      | Undef u => (EmptyString, Undef u)
      end
  end.

Fixpoint display_rows (rows : list nat) (cols : list (string * Column)) : string * outcome unit :=
  match rows with
  | [] => (EmptyString, Ret tt)
  | row :: rows =>
      match display_row row cols with
      | (t, Ret _) => let '(t', o) := display_rows rows cols in (t +:+ t', o)
      | (t, o) => (t, o)
      end
  end.

Definition display (order : gmap string Column -> list (string * Column)) (s : ColumnStore) :
    string * outcome unit :=
  match order s with
  | [] => ("No columns in store" +:+ String nl EmptyString, Ret tt)
  | cols =>
      let '(t, o) := display_rows (seq 0 (rowCount order s)) cols in (tabbed cols.*1 +:+ t, o)
  end.

(** ** The abstract store: a column is its type and the texts it reads back *)

(** The text a column of a type holds for an appended value. *)
Definition canon (ty : DataType) (value : string) : outcome string :=
  match ty with
  | INT => z ← stoi value; mret (to_string z)
  | FLOAT => f ← stof value; mret (float_to_string f)
  | STRING => mret value
  end.

Definition texts (c : Column) : list string :=
  match data c with Ints l => to_string <$> l | Floats l => float_to_string <$> l | Strings l => l end.

Inductive cs_op : Type :=
| OAdd (name : string) (ty : DataType)
| OAppend (name value : string)
| OGet (name : string) (row : nat)
| OType (name : string).

Inductive cs_res : Type :=
| Done
| Value (v : string)
| Type_ (ty : DataType).

Definition cs_step (o : cs_op) : prog ColumnStore cs_res :=
  match o with
  | OAdd n ty => (addColumn n ty ;;; prog_ret Done)%prog
  | OAppend n v => (appendValue n v ;;; prog_ret Done)%prog
  | OGet n r => fun s => (s, v ← getValue n r s; mret (Value v))
  | OType n => fun s => (s, ty ← getColumnType n s; mret (Type_ ty))
  end.

Definition spec_step (o : cs_op) (m : gmap string (DataType * list string)) :
    gmap string (DataType * list string) * outcome cs_res :=
  match o with
  | OAdd n ty =>
      match m !! n with
      | Some _ => (m, Throw (runtime_error "Column already exists"))
      | None => (<[n := (ty, [])]> m, Ret Done)
      end
  | OAppend n v =>
      match m !! n with
      | None => (m, Throw (runtime_error "Column not found"))
      | Some (ty, l) =>
          match canon ty v with
          | Ret t => (<[n := (ty, l ++ [t])]> m, Ret Done)
          | Throw e => (m, Throw e)
          | Hang => (m, Hang)
          | Undef u => (m, Undef u)
          end
      end
  | OGet n r =>
      (m, match m !! n with
          | None => Throw (runtime_error "Column not found")
          | Some (_, l) => match l !! r with
                           | Some t => Ret (Value t)
                           | None => Throw (out_of_range "Index out of range")
                           end
          end)
  | OType n =>
      (m, match m !! n with
          | None => Throw (runtime_error "Column not found")
          | Some (ty, _) => Ret (Type_ ty)
          end)
  end.

(** Every call with its outcome; a call that throws leaves the store to the next one. *)
Fixpoint cs_run (os : list cs_op) (s : ColumnStore) : gmap string Column * list (outcome cs_res) :=
  match os with
  | [] => (s, [])
  | o :: os => let '(s, r) := cs_step o s in let '(s, rs) := cs_run os s in (s, r :: rs)
  end.

Fixpoint spec_run (os : list cs_op) (m : gmap string (DataType * list string)) :
    gmap string (DataType * list string) * list (outcome cs_res) :=
  match os with
  | [] => (m, [])
  | o :: os => let '(m, r) := spec_step o m in let '(m, rs) := spec_run os m in (m, r :: rs)
  end.

(** ** Refinement *)

(** A column is filled through its own type. *)
Definition typed (c : Column) : Prop :=
  match data c with Ints _ => type c = INT | Floats _ => type c = FLOAT | Strings _ => type c = STRING end.

Definition cs_rel (s : gmap string Column) (m : gmap string (DataType * list string)) : Prop :=
  (forall n c, s !! n = Some c -> typed c) /\ m = (fun c => (type c, texts c)) <$> s.

Lemma col_size_texts c : col_size c = length (texts c).
Proof. unfold col_size, texts. by destruct (data c); rewrite ?length_fmap. Qed.

Lemma col_getValue_texts i c :
  col_getValue i c = match texts c !! i with
                     | Some t => Ret t
                     | None => Throw (out_of_range "Index out of range")
                     end.
Proof.
  unfold col_getValue. rewrite col_size_texts. case_bool_decide as H.
  - by rewrite lookup_ge_None_2.
  - destruct (lookup_lt_is_Some_2 (texts c) i) as [t Ht]; [lia|]. rewrite Ht.
    unfold texts in Ht. destruct (data c); rewrite ?list_lookup_fmap in Ht; by rewrite Ht.
Qed.

Lemma col_append_canon v c :
  typed c ->
  match canon (type c) v with
  | Ret t => exists c', col_appendValue v c = Ret c' /\ typed c' /\ type c' = type c /\ texts c' = texts c ++ [t]
  | Throw e => col_appendValue v c = Throw e
  | Hang => col_appendValue v c = Hang
  | Undef u => col_appendValue v c = Undef u
  end.
Proof.
  unfold typed, canon, col_appendValue, texts. destruct (data c) as [l|l|l]; intros Hty; rewrite Hty.
  - destruct (stoi v) as [z|e| |u]; obind; try done. eexists. split; [done|]. cbn [data type]. by rewrite fmap_app.
  - destruct (stof v) as [f|e| |u]; obind; try done. eexists. split; [done|]. cbn [data type]. by rewrite fmap_app.
  - obind. by eexists.
Qed.

Lemma cs_step_ok o s m :
  cs_rel s m -> exists s', cs_step o s = (s', (spec_step o m).2) /\ cs_rel s' (spec_step o m).1.
Proof.
  intros [Hty ->]. set (view := fun c : Column => (type c, texts c)).
  destruct o as [n ty|n v|n r|n]; cbn [cs_step spec_step]; rewrite lookup_fmap.
  - unfold prog_bind, addColumn. destruct (s !! n) as [c|] eqn:Ec; cbn [fmap option_fmap option_map].
    + by eexists.
    + eexists. split; [done|]. split.
      * intros n' c. rewrite lookup_insert. case_decide; [|apply Hty]. intros [= <-]. by destruct ty.
      * cbn [fst]. rewrite fmap_insert. unfold view. by destruct ty.
  - unfold prog_bind, appendValue. destruct (s !! n) as [c|] eqn:Ec; cbn [fmap option_fmap option_map view]; [|by eexists].
    pose proof (col_append_canon v c (Hty n c Ec)) as Hc.
    destruct (canon (type c) v) as [t|e| |u]; [|rewrite Hc; by eexists..].
    destruct Hc as (c' & -> & Hc' & Ht' & Hx). eexists. split; [done|]. split.
    + intros n' d. rewrite lookup_insert. case_decide; [by intros [= <-]|apply Hty].
    + cbn [fst]. rewrite fmap_insert, Ht', Hx. done.
  - eexists. split; [|by split]. f_equal. cbn [snd]. unfold getValue.
    destruct (s !! n) as [c|]; cbn [fmap option_fmap option_map view]; [|done]. rewrite col_getValue_texts.
    by destruct (texts c !! r).
  - eexists. split; [|by split]. f_equal. cbn [snd]. unfold getColumnType.
    by destruct (s !! n) as [c|].
Qed.

Lemma cs_run_ok os : forall s m,
  cs_rel s m -> exists s', cs_run os s = (s', (spec_run os m).2) /\ cs_rel s' (spec_run os m).1.
Proof.
  induction os as [|o os IH]; intros s m Hr; [by exists s|].
  destruct (cs_step_ok o s m Hr) as (s1 & Hs & Hr1). cbn [cs_run spec_run]. rewrite Hs.
  destruct (spec_step o m) as [m1 r]. cbn [fst snd] in *. destruct (IH s1 m1 Hr1) as (s2 & Hs2 & Hr2).
  rewrite Hs2. destruct (spec_run os m1) as [m2 rs]. by exists s2.
Qed.

(** The row [row] of the listed columns. *)
Definition row_of (cols : list (string * Column)) (row : nat) : list string :=
  (fun nc : string * Column => default EmptyString (texts nc.2 !! row)) <$> cols.

Lemma display_row_ok cols row :
  Forall (fun nc => row < length (texts nc.2)) cols ->
  display_row row cols = (tabbed (row_of cols row), Ret tt).
Proof.
  induction 1 as [|[n c] cols Hc _ IH]; [done|]. cbn [display_row]. rewrite col_getValue_texts.
  simpl in Hc. destruct (lookup_lt_is_Some_2 _ _ Hc) as [t Ht]. rewrite Ht, IH.
  unfold row_of. rewrite fmap_cons. cbn [tabbed foldr snd]. by rewrite Ht.
Qed.

Lemma display_rows_ok cols rows :
  Forall (fun row => Forall (fun nc => row < length (texts nc.2)) cols) rows ->
  display_rows rows cols = (foldr String.append EmptyString (tabbed ∘ row_of cols <$> rows), Ret tt).
Proof.
  induction 1 as [|row rows Hr _ IH]; [done|]. cbn [display_rows]. by rewrite display_row_ok, IH.
Qed.

(** The column store keeps what is appended: the outcomes of any sequence of calls are those of a
    store of texts, in which a column holds the canonical text of every value it accepted, in order, a
    value its type cannot convert and a call on an unknown column or row throw and change nothing. *)
Lemma column_store_refines (os : list cs_op) : (cs_run os ∅).2 = (spec_run os ∅).2.
Proof.
  destruct (cs_run_ok os ∅ ∅) as (s & -> & _); [|done].
  split; [intros n c; by rewrite lookup_empty|by rewrite fmap_empty].
Qed.

(** [display] of columns of equal length shows every row. *)
Lemma display_ok order (s : gmap string Column) n :
  Forall (fun nc => length (texts nc.2) = n) (order s) -> order s ≠ [] ->
  display order s = (tabbed (order s).*1 +:+
    foldr String.append EmptyString (tabbed ∘ row_of (order s) <$> seq 0 n), Ret tt).
Proof.
  intros Hlen Hne. assert (Hn : rowCount order s = n).
  { unfold rowCount. destruct (order s) as [|[x c] l]; [done|]. apply Forall_cons in Hlen as [Hc _].
    by rewrite col_size_texts. }
  unfold display. rewrite Hn. destruct (order s) as [|nc cols] eqn:Ho; [done|]. rewrite display_rows_ok; [done|].
  apply Forall_forall. intros row Hr. apply elem_of_seq in Hr. eapply Forall_impl; [done|].
  intros x Hx. simpl in Hx. lia.
Qed.

(** ** Types *)

(** The stored values are those of the declared type: an [int] column holds values of an [int], a
    [float] column what [std::stof] returned for some text. *)
Definition well_typed (c : Column) : Prop :=
  match data c with
  | Ints l => type c = INT /\ Forall is_int l
  | Floats l => type c = FLOAT /\ Forall (fun f => exists v, stof v = Ret f) l
  | Strings _ => type c = STRING
  end.

(** A later state of a column: the same type, more rows. *)
Definition grows (c c' : Column) : Prop :=
  type c' = type c /\ texts c `prefix_of` texts c'.

Lemma stoi_int v z : stoi v = Ret z -> is_int z.
Proof.
  unfold stoi, is_int. destruct (strtol v) as [z'|]; [|done]. case_bool_decide; [|done]. by intros [= <-].
Qed.

Lemma col_append_typed v c c' :
  col_appendValue v c = Ret c' -> well_typed c -> well_typed c' /\ grows c c'.
Proof.
  unfold well_typed, grows, texts, col_appendValue. destruct (data c) as [l|l|l]; intros Ha Hc.
  - destruct (stoi v) as [z| | |] eqn:Hz; try done. injection Ha as <-. destruct Hc as [Ht Hc]. simpl.
    rewrite fmap_app. split; [|split; [done|by apply prefix_app_r]]. split; [done|].
    apply Forall_app_2; [done|]. constructor; [by eapply stoi_int|done].
  - destruct (stof v) as [f| | |] eqn:Hz; try done. injection Ha as <-. destruct Hc as [Ht Hc]. simpl.
    rewrite fmap_app. split; [|split; [done|by apply prefix_app_r]]. split; [done|].
    apply Forall_app_2; [done|]. constructor; [by exists v|done].
  - injection Ha as <-. simpl. split; [done|]. split; [done|]. by apply prefix_app_r.
Qed.

Definition store_typed (s : gmap string Column) : Prop := forall n c, s !! n = Some c -> well_typed c.
Definition store_grows (s s' : gmap string Column) : Prop :=
  forall n c, s !! n = Some c -> exists c', s' !! n = Some c' /\ grows c c'.

#[local] Instance grows_preorder : PreOrder grows.
Proof.
  split; [by intros c|]. intros a b c [H1 H2] [H3 H4]. split; [congruence|by etrans].
Qed.

#[local] Instance store_grows_preorder : PreOrder store_grows.
Proof.
  split.
  - intros s n c Hc. by exists c.
  - intros s1 s2 s3 H1 H2 n c Hc. destruct (H1 n c Hc) as (c2 & Hc2 & G1).
    destruct (H2 n c2 Hc2) as (c3 & Hc3 & G2). exists c3. split; [done|]. by etrans.
Qed.

Lemma cs_step_typed o s :
  store_typed s -> store_typed (cs_step o s).1 /\ store_grows s (cs_step o s).1.
Proof.
  intros Hs. destruct o as [n ty|n v|n r|n]; cbn [cs_step]; try (split; [done|reflexivity]).
  - unfold prog_bind, addColumn. destruct (s !! n) as [c|] eqn:Ec; [by split|]. cbn. split.
    + intros n' c Hc. apply lookup_insert_Some in Hc as [[_ <-]|[_ Hc]]; [|by eapply Hs].
      by destruct ty; repeat constructor.
    + intros n' c Hc. exists c. rewrite lookup_insert_ne by (by intros ->; rewrite Ec in Hc). by split.
  - unfold prog_bind, appendValue. destruct (s !! n) as [c|] eqn:Ec; [|by split].
    destruct (col_appendValue v c) as [c'| | |] eqn:Ha; try by split.
    destruct (col_append_typed v c c' Ha (Hs n c Ec)) as [Ht Hg]. cbn. split.
    + intros n' d Hd. apply lookup_insert_Some in Hd as [[_ <-]|[_ Hd]]; [done|by eapply Hs].
    + intros n' d Hd. destruct (decide (n = n')) as [->|Hne].
      * rewrite lookup_insert_eq. exists c'. split; [done|]. rewrite Ec in Hd. by injection Hd as <-.
      * rewrite lookup_insert_ne by done. exists d. by split.
Qed.

Lemma cs_run_typed os : forall s,
  store_typed s -> store_typed (cs_run os s).1 /\ store_grows s (cs_run os s).1.
Proof.
  induction os as [|o os IH]; intros s Hs; cbn [cs_run]; [by split|].
  destruct (cs_step_typed o s Hs) as [H1 G1]. destruct (cs_step o s) as [s1 r]. cbn [fst] in *.
  destruct (IH s1 H1) as [H2 G2]. destruct (cs_run os s1) as [s2 rs]. cbn [fst] in *.
  split; [done|]. by etrans.
Qed.

(** The text read from an [int] column converts to itself. *)
Lemma int_text_canonical c row v :
  well_typed c -> type c = INT -> col_getValue row c = Ret v -> canon INT v = Ret v.
Proof.
  intros Hc Hty. rewrite col_getValue_texts. destruct (texts c !! row) as [t|] eqn:Ht; [|done].
  intros [= <-]. unfold well_typed, texts in *. destruct (data c) as [l|l|l].
  - destruct Hc as [_ Hl]. apply list_lookup_fmap_Some in Ht as (z & -> & Hz). rewrite Forall_lookup in Hl.
    cbn [canon]. by run_with (stoi_to_string z (Hl row z Hz)).
  - destruct Hc. congruence.
  - congruence.
Qed.

(** C22.  The column store is typed. The outcomes of any sequence of calls are those of a store of
    texts, in which a column holds the canonical text of every value it accepted, in order, and calls
    that fail change nothing; every column holds values of its declared type only; whatever is called
    next, a column keeps its type and its rows; the text read from an [int] column converts to itself;
    and [display] of columns of equal length prints every row. *)
Theorem column_store_typed (os os' : list cs_op) :
  let s := (cs_run os ∅).1 in
  let s' := (cs_run os' s).1 in
  (cs_run os ∅).2 = (spec_run os ∅).2 /\
  (forall n c, s !! n = Some c ->
     well_typed c /\ (exists c', s' !! n = Some c' /\ type c' = type c /\ texts c `prefix_of` texts c') /\
     forall row v, type c = INT -> getValue n row s = Ret v -> canon INT v = Ret v) /\
  (forall order n, Forall (fun nc => length (texts nc.2) = n) (order s) -> order s ≠ [] ->
     display order s = (tabbed (order s).*1 +:+
       foldr String.append EmptyString (tabbed ∘ row_of (order s) <$> seq 0 n), Ret tt)).
Proof.
  intros s s'. split; [apply column_store_refines|].
  assert (Hs : store_typed s) by (by apply cs_run_typed).
  split; [|intros; by apply display_ok]. intros n c Hc.
  split; [by eapply Hs|]. split.
  - destruct (cs_run_typed os' s Hs) as [_ Hg]. destruct (Hg n c Hc) as (c' & Hc' & ? & ?). by exists c'.
  - intros row v Hty. unfold getValue. rewrite Hc. intros Hv. eapply int_text_canonical; [|done|done]. by eapply Hs.
Qed.
End Columns.

Definition determineDataType (typeStr : string) : outcome DataType :=
  if decide (typeStr = "INT") then Ret INT
  else if decide (typeStr = "FLOAT") then Ret FLOAT
  else if decide (typeStr = "STRING") then Ret STRING
  else Throw (runtime_error "Invalid data type").

(** ** Runs *)

(** [main], up to the display. *)
Definition main : list cs_op :=
  [OAdd "ID" INT; OAdd "Name" STRING; OAdd "Score" FLOAT;
   OAppend "ID" "1"; OAppend "Name" "Person1"; OAppend "Score" "95.5";
   OAppend "ID" "2"; OAppend "Name" "Person2"; OAppend "Score" "87.3";
   OAppend "ID" "3"; OAppend "Name" "Person3"; OAppend "Score" "92.1"].

(** The columns in a given order of their names; scores keep their texts. *)
Definition listed (names : list string) (s : gmap string (Column (float := string))) :=
  omap (fun n => (fun c => (n, c)) <$> s !! n) names.

Example main_display :
  display id (listed ["ID"; "Name"; "Score"]) (cs_run Ret id main ∅).1 =
    (tabbed ["ID"; "Name"; "Score"] +:+ tabbed ["1"; "Person1"; "95.5"] +:+
     tabbed ["2"; "Person2"; "87.3"] +:+ tabbed ["3"; "Person3"; "92.1"], Ret tt).
Proof. vm_compute. reflexivity. Qed.

(** With a column shorter than the first listed one, [display] throws in the middle of a row. *)
Example ragged_display_throws :
  let s := (cs_run (float := string) Ret id [OAdd "a" INT; OAdd "b" STRING; OAppend "a" "1"] ∅).1 in
  display id (listed ["a"; "b"]) s =
    (tabbed ["a"; "b"] +:+ "1" +:+ String tab EmptyString, Throw (out_of_range "Index out of range")).
Proof. vm_compute. reflexivity. Qed.

(** A value that is not of its column's type changes nothing. *)
Example wrong_type_throws :
  let os := [OAdd "ID" INT; OAdd "Name" STRING; OAdd "Score" FLOAT;
             OAppend "ID" "1"; OAppend "Name" "Person1"; OAppend "Score" "95.5";
             OAppend "ID" "x"; OGet "ID" 0; OGet "Score" 0; OGet "Name" 1; OType "Score"] in
  (cs_run (float := string) Ret id os ∅).2 =
    [Ret Done; Ret Done; Ret Done; Ret Done; Ret Done; Ret Done; Throw (invalid_argument "stoi");
     Ret (Value "1"); Ret (Value "95.5"); Throw (out_of_range "Index out of range"); Ret (Type_ FLOAT)].
Proof. vm_compute. reflexivity. Qed.
