(* ===== verification/LogFileManager.v ===== *)
(** * The log file manager ([storage/disk_storage/log_file_manager.cpp])

    Log records appended to a text file under a mutex, the transaction manager that writes begin
    records, and the flusher thread and the thread that owns it as a step relation. *)

From S2P Require Import Prelude Text.
From Stdlib Require Import Ascii.
Local Open Scope Z_scope.

#[local] Arguments String.append !_ _ / : simpl nomatch.

(** ** Records *)

Inductive RecordType : Set := INSERT | DELETE | UPDATE | COMMIT | ABORT.
Definition type_code (t : RecordType) : Z :=
  match t with INSERT => 0 | DELETE => 1 | UPDATE => 2 | COMMIT => 3 | ABORT => 4 end.

(** The timestamp is the milliseconds of the clock when the record was made. *)
Record LogRecord : Type := MkRec {
  type_ : RecordType;
  txId_ : Z;
  data_ : string;
  timestamp_ : Z
}.

Definition toString (r : LogRecord) : string :=
  "TxID: " +:+ to_string (txId_ r) +:+ " Type: " +:+ to_string (type_code (type_ r)) +:+ " Data: " +:+
  data_ r +:+ " Timestamp: " +:+ to_string (timestamp_ r).

(** ** The manager *)

(** The file with everything written; [std::endl] flushes, so the stream holds nothing back. *)
Record LogFileManager : Type := MkLFM {
  file : string;
  pendingLogs_ : list LogRecord;
  logMutex_ : bool
}.

#[export] Instance lfm_lockable : Lockable LogFileManager.
Proof.
  refine {| held := logMutex_; set_held b s := MkLFM (file s) (pendingLogs_ s) b |}.
  - done.
  - by intros [].
  - done.
Defined.

(** The constructor opens the file for appending. *)
Definition open_log (old : string) : LogFileManager := MkLFM old [] false.

Definition logRecord (r : LogRecord) : prog LogFileManager unit := lock_guard (fun s =>
  (MkLFM (file s +:+ toString r +:+ String nl EmptyString) (pendingLogs_ s ++ [r]) (logMutex_ s), Ret tt)).

Definition flush : prog LogFileManager unit := lock_guard (prog_ret tt).

(** The lines [recover] prints. *)
Definition recover : prog LogFileManager (list string) := lock_guard (fun s =>
  (s, Ret (getlines nl (file s)))).

(** [commitTransaction], [abortTransaction] and [checkpoint] share their body: under the mutex they
    log a record and flush. *)
Definition log_and_flush (r : LogRecord) : prog LogFileManager unit :=
  lock_guard (logRecord r ;;; flush)%prog.

Definition commitTransaction (now txId : Z) : prog LogFileManager unit :=
  log_and_flush (MkRec COMMIT txId "Commit" now).
Definition abortTransaction (now txId : Z) : prog LogFileManager unit :=
  log_and_flush (MkRec ABORT txId "Abort" now).
Definition checkpoint (now : Z) : prog LogFileManager unit :=
  log_and_flush (MkRec COMMIT (-1) "Checkpoint" now).

Definition getPendingLogs : prog LogFileManager (list LogRecord) := lock_guard (fun s =>
  (s, Ret (pendingLogs_ s))).

(** ** The transaction manager *)

Record TransactionManager : Type := MkTM { log : LogFileManager; nextTxId_ : Z; txMutex_ : bool }.

Definition newManager (l : LogFileManager) : TransactionManager := MkTM l 1 false.

#[export] Instance tm_lockable : Lockable TransactionManager.
Proof.
  refine {| held := txMutex_; set_held b s := MkTM (log s) (nextTxId_ s) b |}.
  - done.
  - by intros [].
  - done.
Defined.

(** A call on the log the manager refers to. *)
Definition on_log {A : Type} (p : prog LogFileManager A) : prog TransactionManager A := fun s =>
  let '(l, o) := p (log s) in (MkTM l (nextTxId_ s) (txMutex_ s), o).

Definition beginTransaction (now : Z) : prog TransactionManager Z := lock_guard (fun s =>
  if nextTxId_ s =? int_max then (s, Undef signed_overflow)
  else
    let txId := nextTxId_ s in
    (on_log (logRecord (MkRec INSERT txId "Begin" now)) ;;; prog_ret txId)%prog
      (MkTM (log s) (txId + 1) (txMutex_ s))).

Definition commit (now txId : Z) : prog TransactionManager unit := on_log (commitTransaction now txId).
Definition abort (now txId : Z) : prog TransactionManager unit := on_log (abortTransaction now txId).

(** One round of the flusher thread. *)
Definition flusher_round (stopFlushing_ : bool) : prog LogFileManager bool := fun s =>
  if stopFlushing_ then (s, Ret false) else (flush ;;; prog_ret true)%prog s.

(** ** Runs *)

Inductive log_op : Type :=
| OBegin (now : Z)
| OLog (r : LogRecord)
| OFlush
| OCommit (now txId : Z)
| OAbort (now txId : Z)
| OCheckpoint (now : Z).

Definition log_step (o : log_op) : prog TransactionManager unit :=
  match o with
  | OBegin now => (let! _ := beginTransaction now in prog_ret tt)%prog
  | OLog r => on_log (logRecord r)
  | OFlush => on_log flush
  | OCommit now tx => commit now tx
  | OAbort now tx => abort now tx
  | OCheckpoint now => on_log (checkpoint now)
  end.

Fixpoint log_run (os : list log_op) : prog TransactionManager unit :=
  match os with
  | [] => prog_ret tt
  | o :: os => (log_step o ;;; log_run os)%prog
  end.

(** The records the calls write, the first transaction being [tx]. *)
Fixpoint written (tx : Z) (os : list log_op) : list LogRecord :=
  match os with
  | [] => []
  | OBegin now :: os => MkRec INSERT tx "Begin" now :: written (tx + 1) os
  | OLog r :: os => r :: written tx os
  | _ :: os => written tx os
  end.

(** Calls that do not end a transaction. *)
Definition plain_op (o : log_op) : bool :=
  match o with OBegin _ | OLog _ | OFlush => true | _ => false end.

(** ** What is logged *)

Lemma log_and_flush_hangs r s :
  logMutex_ s = false -> log_and_flush r s = (MkLFM (file s) (pendingLogs_ s) true, Hang).
Proof. intros Hm. unfold log_and_flush, lock_guard at 1. cbn. by rewrite Hm. Qed.

Lemma logRecord_ok r s :
  logMutex_ s = false ->
  logRecord r s = (MkLFM (file s +:+ toString r +:+ String nl EmptyString) (pendingLogs_ s ++ [r]) false, Ret tt).
Proof. intros Hm. unfold logRecord, lock_guard. cbn. by rewrite Hm. Qed.

(** The log after the records [rs], both mutexes free. *)
Definition logged (rs : list LogRecord) (s : TransactionManager) : Prop :=
  file (log s) = unlines nl (toString <$> rs) /\ pendingLogs_ (log s) = rs /\
  logMutex_ (log s) = false /\ txMutex_ s = false.

Lemma logRecord_logged rs r s :
  logged rs s ->
  exists s', on_log (logRecord r) s = (s', Ret tt) /\ logged (rs ++ [r]) s' /\ nextTxId_ s' = nextTxId_ s.
Proof.
  intros (Hf & Hp & Hm & Ht). unfold on_log. rewrite logRecord_ok by done. eexists. split; [done|].
  split; [|done]. unfold logged. cbn. rewrite Hf, Hp, fmap_app. cbn [fmap list_fmap].
  rewrite unlines_snoc. done.
Qed.

Lemma begin_logged rs now s :
  logged rs s -> nextTxId_ s < int_max ->
  exists s', beginTransaction now s = (s', Ret (nextTxId_ s)) /\
    logged (rs ++ [MkRec INSERT (nextTxId_ s) "Begin" now]) s' /\ nextTxId_ s' = nextTxId_ s + 1.
Proof.
  intros (Hf & Hp & Hm & Ht) Hb. unfold beginTransaction, lock_guard at 1. cbn [held tm_lockable]. rewrite Ht.
  cbn [set_held tm_lockable log nextTxId_ txMutex_].
  assert (E : (nextTxId_ s =? int_max) = false) by (apply Z.eqb_neq; lia). rewrite E.
  unfold prog_bind, on_log. cbn [log nextTxId_ txMutex_]. rewrite logRecord_ok by done. eexists. split; [done|].
  split; [|done]. unfold logged. cbn. rewrite Hf, Hp, fmap_app. cbn [fmap list_fmap]. by rewrite unlines_snoc.
Qed.

Lemma log_run_ok os : forall rs s,
  forallb plain_op os = true -> logged rs s -> nextTxId_ s + Z.of_nat (length os) <= int_max ->
  exists s', log_run os s = (s', Ret tt) /\ logged (rs ++ written (nextTxId_ s) os) s'.
Proof.
  induction os as [|o os IH]; intros rs s Hos Hl Hb.
  - exists s. split; [done|]. by rewrite app_nil_r.
  - cbn [forallb] in Hos. apply andb_true_iff in Hos as [Ho Hos]. cbn [length] in Hb.
    cbn [log_run]. unfold prog_bind at 1. destruct o as [now|r| |now tx|now tx|now]; try done; cbn [log_step written].
    + destruct (begin_logged rs now s Hl ltac:(lia)) as (s1 & H1 & Hl1 & Hn1).
      unfold prog_bind. rewrite H1. cbn. destruct (IH _ s1 Hos Hl1 ltac:(lia)) as (s2 & H2 & Hl2).
      exists s2. split; [done|]. by rewrite Hn1, <-(assoc_L (++)) in Hl2.
    + destruct (logRecord_logged rs r s Hl) as (s1 & H1 & Hl1 & Hn1). rewrite H1.
      destruct (IH _ s1 Hos Hl1 ltac:(lia)) as (s2 & H2 & Hl2). exists s2. split; [done|].
      by rewrite Hn1, <-(assoc_L (++)) in Hl2.
    + destruct Hl as (Hf & Hp & Hm & Ht). assert (E : on_log flush s = (s, Ret tt)).
      { unfold on_log, flush, lock_guard. cbn. rewrite Hm. destruct s as [[f p m] n t]. cbn in *. by subst. }
      rewrite E. apply IH; [done|done|lia].
Qed.

Lemma toString_one_line r : has nl (data_ r) = false -> has nl (toString r) = false.
Proof. intros Hd. unfold toString. rewrite !has_app, !to_string_has, Hd by done. reflexivity. Qed.

(** Ending a transaction or checkpointing locks the log for good. *)
Definition ends (o : log_op) : Prop := plain_op o = false.

Lemma end_hangs rs o s : logged rs s -> ends o ->
  exists s', log_step o s = (s', Hang) /\ file (log s') = file (log s) /\ logMutex_ (log s') = true /\
    nextTxId_ s' = nextTxId_ s /\ txMutex_ s' = false.
Proof.
  intros (Hf & Hp & Hm & Ht) Ho. destruct o as [now|r| |now tx|now tx|now]; try done; cbn [log_step];
    unfold commit, abort, on_log, commitTransaction, abortTransaction, checkpoint;
    rewrite log_and_flush_hangs by done; by eexists.
Qed.

Lemma locked_hangs o s :
  logMutex_ (log s) = true -> txMutex_ s = false -> nextTxId_ s < int_max -> snd (log_step o s) = Hang.
Proof.
  intros Hm Ht Hn. assert (E : (nextTxId_ s =? int_max) = false) by (apply Z.eqb_neq; lia).
  destruct s as [[f p m] n t]. cbn in Hm, Ht, Hn, E. subst m t.
  destruct o as [now|r| |now tx|now tx|now]; cbn [log_step]; try done.
  unfold prog_bind, beginTransaction, lock_guard at 1. cbn [held tm_lockable txMutex_ set_held log nextTxId_].
  by rewrite E.
Qed.

(** The log holds what was logged, and the first end of a transaction blocks it: after any begins,
    records and flushes on a new log, recovery prints exactly the lines of the records in order and
    the pending logs are these records; then a commit, an abort or a checkpoint never returns, writes
    nothing, and leaves the mutex locked, so that every later call on the log hangs as well. *)
Lemma log_file_outcome (os : list log_op) :
  forallb plain_op os = true -> Z.of_nat (length os) < int_max - 1 ->
  Forall (fun r => has nl (data_ r) = false) (written 1 os) ->
  exists s, log_run os (newManager (open_log EmptyString)) = (s, Ret tt) /\
    recover (log s) = (log s, Ret (toString <$> written 1 os)) /\
    getPendingLogs (log s) = (log s, Ret (written 1 os)) /\
    forall o, ends o -> nextTxId_ s < int_max ->
      exists s', log_step o s = (s', Hang) /\ file (log s') = file (log s) /\
        forall o', snd (log_step o' s') = Hang.
Proof.
  intros Hos Hb Hd. destruct (log_run_ok os [] (newManager (open_log EmptyString)) Hos) as (s & Hs & Hl); [done|simpl; lia|].
  cbn [app newManager nextTxId_] in Hl. exists s. split; [done|].
  pose proof Hl as (Hf & Hp & Hm & Ht).
  assert (Hset : set_held false (set_held true (log s)) = log s).
  { destruct (log s) as [f p m]. cbn in *. by subst. }
  split; [|split].
  - unfold recover, lock_guard. cbn [held lfm_lockable]. rewrite Hm, Hset. cbn [set_held lfm_lockable file].
    rewrite Hf, getlines_unlines; [done|]. apply Forall_fmap. eapply Forall_impl; [done|]. intros r Hr. by apply toString_one_line.
  - unfold getPendingLogs, lock_guard. cbn [held lfm_lockable]. rewrite Hm, Hset. cbn [set_held lfm_lockable pendingLogs_].
    by rewrite Hp.
  - intros o Ho Hn. destruct (end_hangs _ o s Hl Ho) as (s' & H1 & H2 & H3 & H4 & H5).
    exists s'. split; [done|]. split; [done|]. intros o'. apply locked_hangs; [done|done|lia].
Qed.

Lemma log_file_outcome_witness :
  let os := [OBegin 1000; OLog (MkRec INSERT 1 "Insert data into table A" 1001); OFlush;
             OLog (MkRec UPDATE 1 "Update table A" 1002)] in
  exists s, log_run os (newManager (open_log EmptyString)) = (s, Ret tt) /\
    recover (log s) = (log s, Ret ["TxID: 1 Type: 0 Data: Begin Timestamp: 1000";
      "TxID: 1 Type: 0 Data: Insert data into table A Timestamp: 1001";
      "TxID: 1 Type: 2 Data: Update table A Timestamp: 1002"]).
Proof.
  intros os. destruct (log_file_outcome os) as (s & H1 & H2 & _).
  - reflexivity.
  - vm_compute. reflexivity.
  - repeat (apply Forall_cons_2; [reflexivity|]). apply Forall_nil_2.
  - exists s. split; [exact H1|exact H2].
Defined.

(** ** The flusher thread *)

(** Where [flushLogsPeriodically] is: in its sleep, before the test of the flag, before the flush, or
    past the loop. *)
Inductive flusher_at : Set := Sleeping | Testing | Flushing | Left.

(** The thread that owns the flusher: using the log, inside a call on the log that never returns, in
    [stop] after it has set the flag, or past the join. *)
Inductive owner_at : Set := Working | Stuck | Joining | Joined.

#[export] Instance flusher_at_eq_dec : EqDecision flusher_at.
Proof. solve_decision. Defined.
#[export] Instance owner_at_eq_dec : EqDecision owner_at.
Proof. solve_decision. Defined.

Record LogFlusher : Type := MkFlusher {
  logFileManager_ : LogFileManager;
  stopFlushing_ : bool;
  flusherThread_ : flusher_at;
  owner : owner_at
}.

(** [start] on a log whose mutex is free. *)
Definition start (l : LogFileManager) : LogFlusher := MkFlusher l false Sleeping Working.

(** Each step is one critical section of one thread: the owner uses the log, gets stuck in it, or stops
    the flusher; the flusher wakes up, tests the flag and flushes. *)
Inductive flusher_step : LogFlusher -> LogFlusher -> Prop :=
| fs_use s l {A} (p : prog LogFileManager A) (a : A) :
    owner s = Working -> p (logFileManager_ s) = (l, Ret a) -> logMutex_ l = logMutex_ (logFileManager_ s) ->
    flusher_step s (MkFlusher l (stopFlushing_ s) (flusherThread_ s) Working)
| fs_stuck s l r :
    owner s = Working -> log_and_flush r (logFileManager_ s) = (l, Hang) ->
    flusher_step s (MkFlusher l (stopFlushing_ s) (flusherThread_ s) Stuck)
| fs_stop s :
    owner s = Working ->
    flusher_step s (MkFlusher (logFileManager_ s) true (flusherThread_ s) Joining)
| fs_join s :
    owner s = Joining -> flusherThread_ s = Left ->
    flusher_step s (MkFlusher (logFileManager_ s) (stopFlushing_ s) Left Joined)
| fs_wake s :
    flusherThread_ s = Sleeping ->
    flusher_step s (MkFlusher (logFileManager_ s) (stopFlushing_ s) Testing (owner s))
| fs_test s :
    flusherThread_ s = Testing ->
    flusher_step s (MkFlusher (logFileManager_ s) (stopFlushing_ s)
                      (if stopFlushing_ s then Left else Flushing) (owner s))
| fs_flush s l :
    flusherThread_ s = Flushing -> flush (logFileManager_ s) = (l, Ret tt) ->
    flusher_step s (MkFlusher l (stopFlushing_ s) Sleeping (owner s)).

Definition flusher_reachable (s : LogFlusher) : Prop :=
  exists l, logMutex_ l = false /\ rtc flusher_step (start l) s.

(** Whatever the threads do next, [P] comes to hold. *)
Inductive eventually (P : LogFlusher -> Prop) (s : LogFlusher) : Prop :=
| ev_now : P s -> eventually P s
| ev_later : (exists s', flusher_step s s') ->
    (forall s', flusher_step s s' -> eventually P s') -> eventually P s.

(** The mutex of the log is held exactly when the owner is stuck, and the flag is set exactly when it
    has stopped the flusher. *)
Record flusher_inv (s : LogFlusher) : Prop := {
  fi_mutex : logMutex_ (logFileManager_ s) = bool_decide (owner s = Stuck);
  fi_flag : stopFlushing_ s = bool_decide (owner s = Joining \/ owner s = Joined);
  fi_left : flusherThread_ s = Left -> stopFlushing_ s = true
}.

Lemma flusher_inv_step s s' : flusher_inv s -> flusher_step s s' -> flusher_inv s'.
Proof.
  intros [Hm Hf Hl] Hstep.
  destruct Hstep as [s l A q a Ho _ Hk|s l r Ho Hh|s Ho|s Ho Ht|s Ht|s Ht|s l Ht Hfl];
    constructor; cbn in *; try done.
  - by rewrite Hk, Hm, Ho.
  - by rewrite Hf, Ho.
  - rewrite Ho in Hm. rewrite log_and_flush_hangs in Hh by done. by injection Hh as <-.
  - by rewrite Hf, Ho.
  - by rewrite Hm, Ho.
  - by rewrite Hm, Ho.
  - by rewrite Hf, Ho.
  - intros _. apply Hl, Ht.
  - by destruct (stopFlushing_ s).
  - rewrite <-Hm. unfold flush, lock_guard in Hfl. cbn in Hfl.
    destruct (logMutex_ (logFileManager_ s)); [done|]. by injection Hfl as <-.
Qed.

Lemma flusher_reachable_inv s : flusher_reachable s -> flusher_inv s.
Proof.
  intros (l & Hl & Hr).
  assert (Hall : forall s0, rtc flusher_step s0 s -> flusher_inv s0 -> flusher_inv s).
  { induction 1; eauto using flusher_inv_step. }
  apply (Hall _ Hr). by constructor.
Qed.

Lemma flush_free l : logMutex_ l = false -> flush l = (l, Ret tt).
Proof. intros Hm. unfold flush, lock_guard. cbn. rewrite Hm. destruct l. cbn in *. by subst. Qed.

Lemma flush_held l : logMutex_ l = true -> flush l = (l, Hang).
Proof. intros Hm. unfold flush, lock_guard. cbn. by rewrite Hm. Qed.

(** One way of going on is enough where it is the only one. *)
Lemma eventually_step (P : LogFlusher -> Prop) s s' :
  flusher_step s s' -> (forall s'', flusher_step s s'' -> s'' = s') -> eventually P s' -> eventually P s.
Proof. intros Hs Hu Hev. apply ev_later; [eauto|]. intros s'' H. by rewrite (Hu s'' H). Qed.

(** Inverts a step from a state whose fields are known. *)
Ltac step_cases :=
  let H := fresh "Hstep" in intros ? H; inversion H; subst; cbn in *; try congruence.

Definition blocked (s : LogFlusher) : Prop :=
  owner s = Stuck /\ flusherThread_ s = Flushing /\ forall s', ~ flusher_step s s'.

Lemma joining_ends l t : logMutex_ l = false ->
  eventually (fun s => owner s = Joined) (MkFlusher l true t Joining).
Proof.
  intros Hm.
  assert (H3 : eventually (fun s => owner s = Joined) (MkFlusher l true Left Joining)).
  { eapply eventually_step; [by apply fs_join|step_cases|]. by apply ev_now. }
  assert (H2 : eventually (fun s => owner s = Joined) (MkFlusher l true Testing Joining)).
  { eapply eventually_step; [by apply fs_test|step_cases|]. done. }
  assert (H1 : eventually (fun s => owner s = Joined) (MkFlusher l true Sleeping Joining)).
  { eapply eventually_step; [by apply fs_wake|step_cases|]. done. }
  destruct t; try done.
  eapply eventually_step; [apply (fs_flush _ l); [done|by apply flush_free]|step_cases|done].
  rewrite flush_free in * by done. congruence.
Qed.

Lemma stuck_blocks l t : logMutex_ l = true -> t <> Left ->
  eventually blocked (MkFlusher l false t Stuck).
Proof.
  intros Hm Ht.
  assert (H3 : eventually blocked (MkFlusher l false Flushing Stuck)).
  { apply ev_now. split_and!; [done|done|]. step_cases.
    rewrite flush_held in * by done. congruence. }
  assert (H2 : eventually blocked (MkFlusher l false Testing Stuck)).
  { eapply eventually_step; [by apply fs_test|step_cases|]. done. }
  destruct t; try done.
  eapply eventually_step; [by apply fs_wake|step_cases|]. done.
Qed.

(** C31. Stopping the flusher, in every state that any interleaving with the thread that owns it can reach: once
    [stop] has set the flag, the flusher leaves its loop and [stop] returns, however the threads are
    scheduled; and once the owner has ended a transaction or made a checkpoint, which never returns, the
    flusher blocks at its next flush and no thread can go on. *)
Theorem flusher_stop_returns s :
  flusher_reachable s ->
  (owner s = Joining -> eventually (fun s => owner s = Joined) s) /\
  (owner s = Stuck -> eventually blocked s) /\
  (owner s = Working -> forall r, exists l, log_and_flush r (logFileManager_ s) = (l, Hang)).
Proof.
  intros Hr. destruct (flusher_reachable_inv s Hr) as [Hm Hf Hl]. destruct s as [l f t o]. cbn in *.
  split_and!; intros ->; cbn in *.
  - subst f. by apply joining_ends.
  - subst f. apply stuck_blocks; [done|]. intros ->. by specialize (Hl eq_refl).
  - intros r. rewrite log_and_flush_hangs by done. eauto.
Qed.

Lemma flusher_stop_returns_witness :
  let l := open_log EmptyString in
  eventually (fun s => owner s = Joined) (MkFlusher l true Flushing Joining).
Proof.
  intros l. apply (flusher_stop_returns (MkFlusher l true Flushing Joining)); [|reflexivity].
  exists l. split; [reflexivity|].
  eapply rtc_l; [apply (fs_wake (start l)); reflexivity|].
  eapply rtc_l; [apply (fs_test (MkFlusher l false Testing Working)); reflexivity|].
  eapply rtc_l; [apply (fs_stop (MkFlusher l false Flushing Working)); reflexivity|].
  apply rtc_refl.
Defined.

(** ** The program *)

(** The calls of [main] on a log opened on the file [old], with the times its records are made at; the
    flusher it starts and stops around [checkpoint] only flushes. *)
Definition main (now : nat -> Z) : prog TransactionManager (list string) :=
  (let! tx1 := beginTransaction (now 0%nat) in
   on_log (logRecord (MkRec INSERT tx1 "Insert data into table A" (now 1%nat))) ;;;
   on_log (logRecord (MkRec UPDATE tx1 "Update table A" (now 2%nat))) ;;;
   commit (now 3%nat) tx1 ;;;
   let! tx2 := beginTransaction (now 4%nat) in
   on_log (logRecord (MkRec INSERT tx2 "Insert data into table B" (now 5%nat))) ;;;
   abort (now 6%nat) tx2 ;;;
   on_log (checkpoint (now 7%nat)) ;;;
   on_log recover)%prog.

(** [main] never returns: it hangs in the commit of its first transaction, with the three records before
    it in the file, and so never starts its flusher. *)
Example log_main_hangs (now : nat -> Z) (old : string) :
  let '(s, o) := main now (newManager (open_log old)) in
  o = Hang /\ length (pendingLogs_ (log s)) = 3%nat /\ nextTxId_ s = 2 /\ logMutex_ (log s) = true.
Proof. reflexivity || by repeat split. Qed.
