(* ===== verification/DataFileManager.v ===== *)
(** * The data file manager ([storage/disk_storage/data_file_manager.cpp])

    The directory is a map from names to files and the files are byte sequences; a stream holds on
    to its file even when the name is removed.  A stream keeps the bytes of the last write until the
    next seek or until it is closed, or passes them on at once, as the implementation of the library
    chooses ([write_through]).  A stream that has failed ignores every later seek, read and write; the
    code never clears the failure.

    Parameters: which names the operating system lets the process open ([permitted]), the order of a
    directory listing ([dir_order]), and [write_through]. *)

From S2P Require Import Prelude.
From Stdlib Require Import Ascii.
Local Open Scope Z_scope.

Abbreviation bytes := (list ascii).
Definition nul : ascii := "000"%char.

(** ** Bytes *)

(** The file after [data] was written at [off]; a gap before [off] reads as zero bytes. *)
Definition splice (c : bytes) (off : nat) (data : bytes) : bytes :=
  match data with
  | [] => c
  | _ => take off (c ++ replicate (off - length c) nul) ++ data ++ drop (off + length data) c
  end.

Arguments splice : simpl never.

(** [vector::resize]. *)
Definition resize_buffer (b : bytes) (n : nat) : bytes :=
  take n b ++ replicate (n - length b) nul.

(** ** The disk and the streams *)

Record Disk : Type := MkDisk {
  files : gmap string nat;
  contents : gmap nat bytes;
  fresh : nat
}.

Record Stream : Type := MkStream {
  inode : nat;
  failed : bool;
  pending : option (nat * bytes)
}.

Record DataFileManager : Type := MkDfm {
  disk : Disk;
  openFiles : gmap string Stream;
  fileMutex : bool
}.

#[export] Instance dfm_lockable : Lockable DataFileManager.
Proof.
  refine {| held := fileMutex; set_held b s := MkDfm (disk s) (openFiles s) b |}.
  - done.
  - by intros [].
  - done.
Defined.

Definition content (d : Disk) (i : nat) : bytes := default [] (contents d !! i).
Definition set_content (i : nat) (c : bytes) (d : Disk) : Disk :=
  MkDisk (files d) (<[i := c]> (contents d)) (fresh d).

(** The bytes a stream holds back, written to its file. *)
Definition flushed (st : Stream) (c : bytes) : bytes :=
  match pending st with
  | Some (off, data) => splice c off data
  | None => c
  end.
Definition flush (st : Stream) (d : Disk) : Disk :=
  match pending st with
  | Some _ => set_content (inode st) (flushed st (content d (inode st))) d
  | None => d
  end.

(** [seekp] and [seekg] from the beginning: nothing on a failed stream, otherwise the pending bytes
    are written, and a negative position fails. *)
Definition seek (off : Z) (st : Stream) (d : Disk) : Stream * Disk :=
  if failed st then (st, d)
  else (MkStream (inode st) (bool_decide (off < 0)) None, flush st d).

(** The constructor on a directory, and the destructor. *)
Definition newManager (d : Disk) : DataFileManager := MkDfm d ∅ false.
Definition destroy (s : DataFileManager) : Disk :=
  foldr (fun p d => flush p.2 d) (disk s) (map_to_list (openFiles s)).

Section Manager.
Variable permitted : string -> bool.
Variable write_through : bytes -> bool.
Variable dir_order : list string -> list string.

(** Opening for reading and writing: the file has to exist. *)
Definition open_inout (fileName : string) (d : Disk) : option nat :=
  if permitted fileName then files d !! fileName else None.

Definition createFile (fileName : string) : prog DataFileManager bool := lock_guard (fun s =>
  if permitted fileName then
    let d := disk s in
    let d' := match files d !! fileName with
              | Some i => set_content i [] d
              | None => MkDisk (<[fileName := fresh d]> (files d))
                               (<[fresh d := []]> (contents d)) (S (fresh d))
              end in
    (MkDfm d' (openFiles s) (fileMutex s), Ret true)
  else (s, Ret false)).

Definition deleteFile (fileName : string) : prog DataFileManager bool := lock_guard (fun s =>
  let d := disk s in
  match files d !! fileName with
  | Some _ => (MkDfm (MkDisk (delete fileName (files d)) (contents d) (fresh d))
                 (openFiles s) (fileMutex s), Ret true)
  | None => (s, Ret false)
  end).

Definition openFile (fileName : string) : prog DataFileManager bool := lock_guard (fun s =>
  match openFiles s !! fileName with
  | Some _ => (s, Ret true)
  | None =>
      match open_inout fileName (disk s) with
      | Some i => (MkDfm (disk s) (<[fileName := MkStream i false None]> (openFiles s))
                     (fileMutex s), Ret true)
      | None => (s, Ret false)
      end
  end).

Definition closeFile (fileName : string) : prog DataFileManager bool := lock_guard (fun s =>
  match openFiles s !! fileName with
  | Some st => (MkDfm (flush st (disk s)) (delete fileName (openFiles s)) (fileMutex s), Ret true)
  | None => (s, Ret false)
  end).

(** [write] on a stream that was just moved to [off]. *)
Definition write (off : Z) (data : bytes) (st : Stream) (d : Disk) : Stream * Disk :=
  if failed st then (st, d)
  else if write_through data
  then (st, set_content (inode st) (splice (content d (inode st)) (Z.to_nat off) data) d)
  else (MkStream (inode st) false (Some (Z.to_nat off, data)), d).

Definition writeFile (fileName : string) (data : bytes) (offset : Z) : prog DataFileManager bool :=
  lock_guard (fun s =>
    match openFiles s !! fileName with
    | Some st =>
        let '(st, d) := seek offset st (disk s) in
        let '(st, d) := write offset data st d in
        (MkDfm d (<[fileName := st]> (openFiles s)) (fileMutex s), Ret true)
    | None => (s, Ret false)
    end).

(** The call returns its result and the buffer, which is passed by reference.  A read that meets the
    end of the file fills what it can and fails the stream. *)
Definition readFile (fileName : string) (buffer : bytes) (offset length_ : Z)
    : prog DataFileManager (bool * bytes) :=
  lock_guard (fun s =>
    match openFiles s !! fileName with
    | Some st =>
        let '(st, d) := seek offset st (disk s) in
        if bool_decide (length_ < 0)
        then (MkDfm d (<[fileName := st]> (openFiles s)) (fileMutex s),
              Throw (length_error "vector::_M_default_append"))
        else
          let n := Z.to_nat length_ in
          let buf := resize_buffer buffer n in
          if failed st
          then (MkDfm d (<[fileName := st]> (openFiles s)) (fileMutex s), Ret (true, buf))
          else
            let got := take n (drop (Z.to_nat offset) (content d (inode st))) in
            let st := MkStream (inode st) (bool_decide (length got < n)%nat) None in
            (MkDfm d (<[fileName := st]> (openFiles s)) (fileMutex s),
             Ret (true, got ++ drop (length got) buf))
    | None => (s, Ret (false, buffer))
    end).

Definition file_size (fileName : string) (d : Disk) : Z :=
  match files d !! fileName with
  | Some i => Z.of_nat (length (content d i))
  | None => -1
  end.

Definition getFileSize (fileName : string) : prog DataFileManager Z := lock_guard (fun s =>
  (s, Ret (file_size fileName (disk s)))).

Definition listFiles (d : Disk) : list string := dir_order (elements (dom (files d))).

Definition allocateSpace (fileName : string) (size : Z) : prog DataFileManager bool :=
  lock_guard (fun s =>
    match open_inout fileName (disk s) with
    | None => (s, Ret false)
    | Some i =>
        let c := content (disk s) i in
        if bool_decide (Z.of_nat (length c) < size)
        then (MkDfm (set_content i (splice c (Z.to_nat (size - 1)) [nul]) (disk s))
                (openFiles s) (fileMutex s), Ret true)
        else (s, Ret true)
    end).

(** A negative size is converted to an unsigned one that no file can have. *)
Definition truncateFile (fileName : string) (newSize : Z) : prog DataFileManager bool :=
  lock_guard (fun s =>
    match files (disk s) !! fileName, open_inout fileName (disk s) with
    | Some _, Some i =>
        let c := content (disk s) i in
        if bool_decide (newSize < Z.of_nat (length c)) then
          if bool_decide (newSize < 0) then (s, Throw (filesystem_error "cannot resize file"))
          else (MkDfm (set_content i (take (Z.to_nat newSize) c) (disk s))
                  (openFiles s) (fileMutex s), Ret true)
        else (s, Ret true)
    | _, _ => (s, Ret false)
    end).

(** One round of the loop of [defragment]: read the whole file, open it again with [trunc], write. *)
Definition rewrite_file (d : Disk) (fileName : string) : Disk :=
  match open_inout fileName d with
  | Some i =>
      let size := length (content d i) in
      let buffer := take size (content d i) in
      let d := set_content i [] d in
      set_content i (splice (content d i) 0 buffer) d
  | None => d
  end.

Definition defragment : prog DataFileManager unit := lock_guard (fun s =>
  (MkDfm (foldl rewrite_file (disk s) (listFiles (disk s))) (openFiles s) (fileMutex s), Ret tt)).

(** The lines of [printDirectoryInfo], a name and a size each. *)
Fixpoint sizes (names : list string) : prog DataFileManager (list (string * Z)) :=
  match names with
  | [] => prog_ret []
  | n :: names =>
      (let! z := getFileSize n in let! l := sizes names in prog_ret ((n, z) :: l))%prog
  end.
Definition printDirectoryInfo : prog DataFileManager (list (string * Z)) :=
  fun s => sizes (listFiles (disk s)) s.
End Manager.

(** ** Examples *)

Definition any_name (_ : string) : bool := true.
Definition buffered (_ : bytes) : bool := false.

Definition empty_disk : Disk := MkDisk ∅ ∅ 0.
Definition hello : bytes := ["H"; "e"; "l"; "l"; "o"]%char.

(** [main]: the bytes it prints, and the lines of [printDirectoryInfo]. *)
Definition main (permitted : string -> bool) (write_through : bytes -> bool)
    (dir_order : list string -> list string) : prog DataFileManager (bytes * list (string * Z)) :=
  (let! _ := createFile permitted "test_file.dat" in
   let! _ := allocateSpace permitted "test_file.dat" 1024 in
   let! _ := openFile permitted "test_file.dat" in
   let! _ := writeFile write_through "test_file.dat" hello 0 in
   let! r := readFile "test_file.dat" [] 0 5 in
   let! l := printDirectoryInfo dir_order in
   let! _ := closeFile "test_file.dat" in
   let! _ := deleteFile "test_file.dat" in
   prog_ret (r.2, l))%prog.

(** What was written is read back, the file has the space allocated for it, and it is gone in the end. *)
Example data_file_main :
  let '(s, o) := main any_name buffered (fun l => l) (newManager empty_disk) in
  o = Ret (hello, [("test_file.dat", 1024)]) /\ files (disk s) = ∅.
Proof. vm_compute. done. Qed.

(** The size of a file does not count bytes the stream still holds back. *)
Example size_before_flush :
  ((let! _ := createFile any_name "f" in
    let! _ := openFile any_name "f" in
    let! _ := writeFile buffered "f" hello 0 in
    let! before := getFileSize "f" in
    let! _ := closeFile "f" in
    let! after := getFileSize "f" in
    prog_ret (before, after))%prog (newManager empty_disk)).2 = Ret (0, 5).
Proof. vm_compute. reflexivity. Qed.

(** ** Bytes *)

Lemma splice_length c off data :
  data <> [] -> length (splice c off data) = Nat.max (length c) (off + length data).
Proof.
  intros Hd. unfold splice. destruct data as [|x data]; [done|].
  rewrite !length_app, length_take, length_app, length_replicate, length_drop. lia.
Qed.

(** What was written is read back. *)
Lemma splice_read c off data : take (length data) (drop off (splice c off data)) = data.
Proof.
  destruct data as [|x data]; [by rewrite take_0|]. unfold splice. set (d := x :: data).
  rewrite drop_app_length'; [by rewrite take_app_length|].
  rewrite length_take, length_app, length_replicate. lia.
Qed.

(** Writing a zero byte at the end of the new size pads the file. *)
Lemma splice_pad c size :
  (length c < size)%nat -> splice c (size - 1) [nul] = c ++ replicate (size - length c) nul.
Proof.
  intros Hs. unfold splice. rewrite (drop_ge c) by (simpl; lia). rewrite take_ge.
  - rewrite <-app_assoc, app_nil_r. f_equal. change [nul] with (replicate 1 nul).
    rewrite <-replicate_add. f_equal. lia.
  - rewrite length_app, length_replicate. lia.
Qed.

Lemma splice_empty c : splice [] 0 c = c.
Proof. destruct c; [done|]. unfold splice. simpl. by rewrite app_nil_r. Qed.

(** ** The disk *)

Lemma content_set_eq i c d : content (set_content i c d) i = c.
Proof. unfold content, set_content. cbn. by rewrite lookup_insert_eq. Qed.

Lemma content_set_ne i j c d : i <> j -> content (set_content i c d) j = content d j.
Proof. intros Hne. unfold content, set_content. cbn. by rewrite lookup_insert_ne. Qed.

Lemma set_content_twice i c c' d : set_content i c (set_content i c' d) = set_content i c d.
Proof. unfold set_content. cbn. f_equal. by rewrite insert_insert_eq. Qed.

Lemma set_content_id i d : is_Some (contents d !! i) -> set_content i (content d i) d = d.
Proof.
  intros [c Hc]. unfold set_content, content. rewrite Hc. cbn. rewrite insert_id by done.
  by destruct d.
Qed.

Lemma flush_set st d :
  is_Some (contents d !! inode st) ->
  flush st d = set_content (inode st) (flushed st (content d (inode st))) d.
Proof.
  intros Hs. unfold flush, flushed. destruct (pending st) as [[off data]|]; [done|].
  by rewrite set_content_id.
Qed.

(** Reading a file and writing it back leaves the disk as it was. *)
Lemma rewrite_file_id permitted d n :
  (forall i, files d !! n = Some i -> is_Some (contents d !! i)) -> rewrite_file permitted d n = d.
Proof.
  intros Hs. unfold rewrite_file, open_inout. destruct (permitted n); [|done].
  destruct (files d !! n) as [i|] eqn:Hi; [|done].
  rewrite content_set_eq, take_ge, splice_empty, set_content_twice by lia.
  apply set_content_id. by apply Hs.
Qed.

(** ** The specification: a store of byte sequences *)

Record Store : Type := MkStore { image : gmap string bytes; opened : gset string }.

Inductive op : Type :=
| Create (n : string)
| Delete (n : string)
| Open (n : string)
| Close (n : string)
| Write (n : string) (data : bytes) (off : Z)
| Read (n : string) (off len : Z)
| Size (n : string)
| Allocate (n : string) (size : Z)
| Truncate (n : string) (size : Z)
| Defragment.

Inductive answer : Type :=
| Done (b : bool)
| Bytes (b : bool) (data : bytes)
| Length (z : Z)
| Nothing.

Section Refinement.
Variable permitted : string -> bool.
Variable write_through : bytes -> bool.
Variable dir_order : list string -> list string.

(** The call of an operation, on an empty buffer where it takes one. *)
Definition call (o : op) : prog DataFileManager answer :=
  (match o with
   | Create n => let! b := createFile permitted n in prog_ret (Done b)
   | Delete n => let! b := deleteFile n in prog_ret (Done b)
   | Open n => let! b := openFile permitted n in prog_ret (Done b)
   | Close n => let! b := closeFile n in prog_ret (Done b)
   | Write n data off => let! b := writeFile write_through n data off in prog_ret (Done b)
   | Read n off len => let! r := readFile n [] off len in prog_ret (Bytes r.1 r.2)
   | Size n => let! z := getFileSize n in prog_ret (Length z)
   | Allocate n size => let! b := allocateSpace permitted n size in prog_ret (Done b)
   | Truncate n size => let! b := truncateFile permitted n size in prog_ret (Done b)
   | Defragment => let! _ := defragment permitted dir_order in prog_ret Nothing
   end)%prog.

Definition put_image (n : string) (c : bytes) (a : Store) : Store :=
  MkStore (<[n := c]> (image a)) (opened a).

(** What the operations mean on the store. *)
Definition spec (o : op) (a : Store) : Store * answer :=
  match o with
  | Create n => if permitted n then (put_image n [] a, Done true) else (a, Done false)
  | Delete n =>
      match image a !! n with
      | Some _ => (MkStore (delete n (image a)) (opened a), Done true)
      | None => (a, Done false)
      end
  | Open n =>
      if decide (n ∈ opened a) then (a, Done true)
      else match image a !! n with
           | Some _ => if permitted n then (MkStore (image a) ({[ n ]} ∪ opened a), Done true)
                       else (a, Done false)
           | None => (a, Done false)
           end
  | Close n =>
      if decide (n ∈ opened a) then (MkStore (image a) (opened a ∖ {[ n ]}), Done true)
      else (a, Done false)
  | Write n data off =>
      match (if decide (n ∈ opened a) then image a !! n else None) with
      | Some c => (put_image n (splice c (Z.to_nat off) data) a, Done true)
      | None => (a, Done false)
      end
  | Read n off len =>
      match (if decide (n ∈ opened a) then image a !! n else None) with
      | Some c => (a, Bytes true (take (Z.to_nat len) (drop (Z.to_nat off) c)))
      | None => (a, Bytes false [])
      end
  | Size n =>
      (a, Length (match image a !! n with Some c => Z.of_nat (length c) | None => -1 end))
  | Allocate n size =>
      match (if permitted n then image a !! n else None) with
      | Some c => (put_image n (c ++ replicate (Z.to_nat size - length c) nul) a, Done true)
      | None => (a, Done false)
      end
  | Truncate n size =>
      match (if permitted n then image a !! n else None) with
      | Some c => (put_image n (take (Z.to_nat size) c) a, Done true)
      | None => (a, Done false)
      end
  | Defragment => (a, Nothing)
  end.

(** How the manager has to be used: a file is created, deleted, measured, extended and truncated while
    it is closed, positions are not negative, and a read stays inside the file. *)
Definition safe (o : op) (a : Store) : Prop :=
  match o with
  | Create n | Delete n | Size n | Allocate n _ => n ∉ opened a
  | Truncate n size => (n ∉ opened a) /\ 0 <= size
  | Write _ _ off => 0 <= off
  | Read n off len =>
      0 <= off /\ 0 <= len /\
      match (if decide (n ∈ opened a) then image a !! n else None) with
      | Some c => off + len <= Z.of_nat (length c)
      | None => True
      end
  | Open _ | Close _ | Defragment => True
  end.

#[export] Instance safe_dec o a : Decision (safe o a).
Proof. destruct o; cbn; try case_match; apply _. Defined.

(** ** The refinement relation *)

(** What a reader of the file will see once the stream on it has been flushed. *)
Definition visible (s : DataFileManager) (n : string) (i : nat) : bytes :=
  match openFiles s !! n with
  | Some st => flushed st (content (disk s) i)
  | None => content (disk s) i
  end.

Record refines (s : DataFileManager) (a : Store) : Prop := {
  ref_lock : fileMutex s = false;
  ref_opened : opened a = dom (openFiles s);
  ref_image : forall n, image a !! n = visible s n <$> files (disk s) !! n;
  ref_stream : forall n st, openFiles s !! n = Some st ->
    failed st = false /\ files (disk s) !! n = Some (inode st);
  ref_inj : forall n n' i,
    files (disk s) !! n = Some i -> files (disk s) !! n' = Some i -> n = n';
  ref_some : forall n i, files (disk s) !! n = Some i -> is_Some (contents (disk s) !! i);
  ref_fresh : forall n i, files (disk s) !! n = Some i -> (i < fresh (disk s))%nat
}.

Lemma newManager_refines : refines (newManager empty_disk) (MkStore ∅ ∅).
Proof. by split. Qed.

(** A change of one file and of the stream on it. *)
Lemma refines_put s a n i c (o : option Stream) :
  refines s a -> files (disk s) !! n = Some i ->
  (forall st, o = Some st -> failed st = false /\ inode st = i) ->
  refines (MkDfm (set_content i c (disk s)) (partial_alter (fun _ => o) n (openFiles s)) false)
    (MkStore (<[n := match o with Some st => flushed st c | None => c end]> (image a))
             (match o with Some _ => {[ n ]} ∪ opened a | None => opened a ∖ {[ n ]} end)).
Proof.
  intros [Hl Ho Hi Hs Hinj Hsome Hfresh] Hn Hst. split; cbn [disk openFiles fileMutex image opened].
  - done.
  - rewrite Ho. destruct o as [st|].
    + change (partial_alter (fun _ => Some st) n (openFiles s)) with (<[n := st]> (openFiles s)).
      by rewrite dom_insert_L.
    + change (partial_alter (fun _ => None) n (openFiles s)) with (delete n (openFiles s)).
      by rewrite dom_delete_L.
  - intros m. unfold visible; cbn [openFiles disk set_content files].
    destruct (decide (n = m)) as [<-|Hne].
    + rewrite lookup_insert_eq, Hn, lookup_partial_alter_eq. cbn. f_equal.
      by rewrite content_set_eq.
    + rewrite lookup_insert_ne, lookup_partial_alter_ne, Hi by done. unfold visible.
      destruct (files (disk s) !! m) as [j|] eqn:Hj; [|done]. cbn.
      rewrite content_set_ne; [done|]. intros ->. by apply Hne, (Hinj n m j).
  - intros m st. cbn [set_content files]. destruct (decide (n = m)) as [<-|Hne].
    + rewrite lookup_partial_alter_eq. intros ->. destruct (Hst st eq_refl) as [? ->]. done.
    + rewrite lookup_partial_alter_ne by done. apply Hs.
  - apply Hinj.
  - intros m j Hj. cbn [set_content contents]. apply lookup_insert_is_Some'. right.
    by eapply Hsome.
  - apply Hfresh.
Qed.

(** The same when the stream map does not change. *)
Lemma refines_put_closed s a n i c :
  refines s a -> files (disk s) !! n = Some i -> n ∉ opened a ->
  refines (MkDfm (set_content i c (disk s)) (openFiles s) false) (put_image n c a).
Proof.
  intros HR Hn Hno. pose proof (refines_put s a n i c None HR Hn ltac:(done)) as H. cbn in H.
  change (partial_alter (fun _ => None) n (openFiles s)) with (delete n (openFiles s)) in H.
  assert (Hd : openFiles s !! n = None).
  { apply not_elem_of_dom. by rewrite <-(ref_opened _ _ HR). }
  rewrite delete_id in H by done.
  replace (opened a ∖ {[n]}) with (opened a) in H by set_solver. done.
Qed.

Lemma visible_closed s a n i : refines s a -> n ∉ opened a -> visible s n i = content (disk s) i.
Proof.
  intros HR Hn. unfold visible. rewrite (ref_opened _ _ HR), not_elem_of_dom in Hn. by rewrite Hn.
Qed.

Lemma image_file s a n i : refines s a -> files (disk s) !! n = Some i -> image a !! n = Some (visible s n i).
Proof. intros HR Hn. by rewrite (ref_image _ _ HR), Hn. Qed.

Lemma image_none s a n : refines s a -> files (disk s) !! n = None -> image a !! n = None.
Proof. intros HR Hn. by rewrite (ref_image _ _ HR), Hn. Qed.

(** An open name: its stream, its file, and what is visible there. *)
Lemma opened_stream s a n :
  refines s a -> n ∈ opened a ->
  exists st, openFiles s !! n = Some st /\ failed st = false /\
    files (disk s) !! n = Some (inode st) /\ is_Some (contents (disk s) !! inode st) /\
    image a !! n = Some (flushed st (content (disk s) (inode st))).
Proof.
  intros HR Hn. rewrite (ref_opened _ _ HR), elem_of_dom in Hn. destruct Hn as [st Hst].
  destruct (ref_stream _ _ HR n st Hst) as [Hf Hi]. exists st. do 3 (split; [done|]).
  split; [by eapply ref_some|]. rewrite (image_file _ _ _ _ HR Hi). unfold visible. by rewrite Hst.
Qed.

Lemma not_opened s a n : refines s a -> n ∉ opened a -> openFiles s !! n = None.
Proof. intros HR. by rewrite (ref_opened _ _ HR), not_elem_of_dom. Qed.

(** An operation of the manager does what the specification says. *)
Definition simulates (o : op) : Prop := forall s a, refines s a -> safe o a ->
  exists s', call o s = (s', Ret (spec o a).2) /\ refines s' (spec o a).1.

(** Running a guarded body from a state of the relation. *)
Lemma guarded {A : Type} (body : prog DataFileManager A) (s : DataFileManager) d f (v : A) :
  fileMutex s = false -> body (MkDfm (disk s) (openFiles s) true) = (MkDfm d f true, Ret v) ->
  lock_guard body s = (MkDfm d f false, Ret v).
Proof.
  intros Hl Hb.
  exact (@lock_guard_ret _ _ dfm_lockable body s (MkDfm d f true) v Hl Hb).
Qed.

Lemma refines_eta s a : refines s a -> s = MkDfm (disk s) (openFiles s) false.
Proof. intros HR. destruct s. f_equal. apply (ref_lock _ _ HR). Qed.

Lemma put_image_id a n c : image a !! n = Some c -> put_image n c a = a.
Proof. intros Hc. unfold put_image. rewrite insert_id by done. by destruct a. Qed.

(** A call whose body returns, from a state of the relation. *)
Lemma call_guarded {A : Type} (body : prog DataFileManager A) (f : A -> answer) s a d g v :
  refines s a -> body (MkDfm (disk s) (openFiles s) true) = (MkDfm d g true, Ret v) ->
  (let! b := lock_guard body in prog_ret (f b))%prog s = (MkDfm d g false, Ret (f v)).
Proof.
  intros HR Hb. unfold prog_bind.
  by rewrite (guarded body s d g v (ref_lock _ _ HR) Hb).
Qed.

(** The calls that change nothing. *)
Lemma call_same {A : Type} (body : prog DataFileManager A) (f : A -> answer) s a v :
  refines s a ->
  body (MkDfm (disk s) (openFiles s) true) = (MkDfm (disk s) (openFiles s) true, Ret v) ->
  exists s', (let! b := lock_guard body in prog_ret (f b))%prog s = (s', Ret (f v)) /\ refines s' a.
Proof.
  intros HR Hb. exists s. split; [|done].
  rewrite (call_guarded body f s a _ _ v HR Hb). by rewrite <-(refines_eta s a HR).
Qed.

Lemma new_file_refines s a n :
  refines s a -> n ∉ opened a -> files (disk s) !! n = None ->
  refines (MkDfm (MkDisk (<[n := fresh (disk s)]> (files (disk s)))
                   (<[fresh (disk s) := []]> (contents (disk s))) (S (fresh (disk s))))
             (openFiles s) false) (put_image n [] a).
Proof.
  intros HR Hno Hn. pose proof HR as [Hl Ho Hi Hs Hinj Hsome Hfresh].
  assert (Hne : forall m j, files (disk s) !! m = Some j -> j <> fresh (disk s)).
  { intros m j Hj ->. apply Hfresh in Hj. lia. }
  split; cbn [disk openFiles fileMutex image opened put_image files contents fresh].
  - done.
  - done.
  - intros m. unfold visible; cbn [openFiles disk]. destruct (decide (n = m)) as [<-|Hnm].
    + rewrite !lookup_insert_eq, (not_opened _ _ _ HR Hno). cbn. unfold content. cbn.
      by rewrite lookup_insert_eq.
    + rewrite !lookup_insert_ne, Hi by done. unfold visible.
      destruct (files (disk s) !! m) as [j|] eqn:Hj; [|done]. cbn. unfold content. cbn.
      rewrite lookup_insert_ne; [done|]. intros Hj'. by apply (Hne m j).
  - intros m st Hst. destruct (Hs m st Hst) as [Hf Hm]. split; [done|].
    rewrite lookup_insert_ne; [done|]. intros <-. congruence.
  - intros m m' i. rewrite !lookup_insert. repeat case_decide; intros Hm Hm'; simplify_eq; try done.
    + by destruct (Hne m' (fresh (disk s)) Hm').
    + by destruct (Hne m (fresh (disk s)) Hm).
    + by eapply Hinj.
  - intros m i. rewrite lookup_insert, lookup_insert_is_Some'. case_decide; intros; simplify_eq.
    + by left.
    + right. by eapply Hsome.
  - intros m i. rewrite lookup_insert. case_decide; intros Hm; simplify_eq; [lia|].
    apply Hfresh in Hm. lia.
Qed.

Lemma create_sim n : simulates (Create n).
Proof.
  intros s a HR Hno. cbn [spec safe call] in *. unfold createFile.
  destruct (permitted n) eqn:Hp; [|cbn [fst snd]; by eapply (call_same _ Done)].
  destruct (files (disk s) !! n) as [i|] eqn:Hi; eexists.
  - split; [cbn [fst snd]; eapply (call_guarded _ Done); [done|cbn; by rewrite Hi]|]. by apply refines_put_closed.
  - split; [cbn [fst snd]; eapply (call_guarded _ Done); [done|cbn; by rewrite Hi]|]. by apply new_file_refines.
Qed.

Lemma delete_sim n : simulates (Delete n).
Proof.
  intros s a HR Hno. cbn [spec safe call] in *. unfold deleteFile.
  destruct (files (disk s) !! n) as [i|] eqn:Hi.
  2: { rewrite (image_none _ _ _ HR Hi). cbn [fst snd]; eapply (call_same _ Done); [done|]. cbn. by rewrite Hi. }
  rewrite (image_file _ _ _ _ HR Hi). eexists. split; [cbn [fst snd]; eapply (call_guarded _ Done); [done|cbn; by rewrite Hi]|].
  pose proof HR as [Hl Ho Him Hs Hinj Hsome Hfresh].
  split; cbn [disk openFiles fileMutex image opened files contents fresh fst]; try done.
  - intros m. unfold visible; cbn [openFiles disk]. destruct (decide (n = m)) as [<-|Hnm].
    + by rewrite !lookup_delete_eq.
    + rewrite !lookup_delete_ne, Him by done. done.
  - intros m st Hst. destruct (Hs m st Hst) as [Hf Hm]. split; [done|].
    rewrite lookup_delete_ne; [done|]. intros <-. by rewrite (not_opened _ _ _ HR Hno) in Hst.
  - intros m m' j Hm Hm'. apply lookup_delete_Some in Hm as [_ Hm], Hm' as [_ Hm']. by eapply Hinj.
  - intros m j Hm. apply lookup_delete_Some in Hm as [_ Hm]. by eapply Hsome.
  - intros m j Hm. apply lookup_delete_Some in Hm as [_ Hm]. by eapply Hfresh.
Qed.

Lemma open_sim n : simulates (Open n).
Proof.
  intros s a HR _. cbn [spec call]. unfold openFile. case_decide as Hno.
  { destruct (opened_stream _ _ _ HR Hno) as (st & Hst & _). cbn [fst snd]; eapply (call_same _ Done); [done|].
    cbn. by rewrite Hst. }
  pose proof (not_opened _ _ _ HR Hno) as Hst. unfold open_inout.
  destruct (files (disk s) !! n) as [i|] eqn:Hi.
  2: { rewrite (image_none _ _ _ HR Hi). cbn [fst snd]; eapply (call_same _ Done); [done|]. cbn. rewrite Hst, Hi.
       by destruct (permitted n). }
  rewrite (image_file _ _ _ _ HR Hi). destruct (permitted n).
  2: { cbn [fst snd]; eapply (call_same _ Done); [done|]. cbn. by rewrite Hst. }
  eexists. split; [cbn [fst snd]; eapply (call_guarded _ Done); [done|cbn; by rewrite Hst, Hi]|].
  pose proof (refines_put s a n i (content (disk s) i) (Some (MkStream i false None)) HR Hi) as H.
  cbn in H. rewrite set_content_id in H by (by eapply ref_some).
  rewrite insert_id in H by (rewrite (image_file _ _ _ _ HR Hi); f_equal; by eapply visible_closed).
  apply H. intros st [= <-]. done.
Qed.

Lemma close_sim n : simulates (Close n).
Proof.
  intros s a HR _. cbn [spec call]. unfold closeFile. case_decide as Hno.
  2: { cbn [fst snd]; eapply (call_same _ Done); [done|]. cbn. by rewrite (not_opened _ _ _ HR Hno). }
  destruct (opened_stream _ _ _ HR Hno) as (st & Hst & Hf & Hi & Hs & Him).
  eexists. split; [cbn [fst snd]; eapply (call_guarded _ Done); [done|cbn; by rewrite Hst]|]. rewrite flush_set by done.
  pose proof (refines_put s a n (inode st) (flushed st (content (disk s) (inode st))) None HR Hi
    ltac:(done)) as H. cbn in H. by rewrite insert_id in H.
Qed.

Lemma seek_ok off st d :
  failed st = false -> 0 <= off -> is_Some (contents d !! inode st) ->
  seek off st d = (MkStream (inode st) false None,
                   set_content (inode st) (flushed st (content d (inode st))) d).
Proof.
  intros Hf Ho Hs. unfold seek. rewrite Hf, bool_decide_eq_false_2, flush_set by (done || lia). done.
Qed.

Lemma write_sim n data off : simulates (Write n data off).
Proof.
  intros s a HR Hoff. cbn [spec safe call] in *. unfold writeFile. case_decide as Hno.
  2: { cbn [fst snd]. eapply (call_same _ Done); [done|]. cbn. by rewrite (not_opened _ _ _ HR Hno). }
  destruct (opened_stream _ _ _ HR Hno) as (st & Hst & Hf & Hi & Hs & Him). rewrite Him.
  set (c := flushed st (content (disk s) (inode st))) in *.
  set (c' := splice c (Z.to_nat off) data).
  assert (Hopen : {[n]} ∪ opened a = opened a) by set_solver.
  destruct (write_through data) eqn:Hw; eexists.
  - split; [cbn [fst snd]; eapply (call_guarded _ Done); [done|]|].
    { cbn. rewrite Hst, seek_ok by done. unfold write. cbn [failed inode]. rewrite Hw, content_set_eq.
      by rewrite set_content_twice. }
    pose proof (refines_put s a n (inode st) c' (Some (MkStream (inode st) false None)) HR Hi) as H.
    cbn in H. rewrite Hopen in H. apply H. by intros ? [= <-].
  - split; [cbn [fst snd]; eapply (call_guarded _ Done); [done|]|].
    { cbn. rewrite Hst, seek_ok by done. unfold write. cbn [failed inode]. by rewrite Hw. }
    pose proof (refines_put s a n (inode st) c
      (Some (MkStream (inode st) false (Some (Z.to_nat off, data)))) HR Hi) as H.
    cbn in H. rewrite Hopen in H. apply H. by intros ? [= <-].
Qed.

Lemma read_sim n off len : simulates (Read n off len).
Proof.
  intros s a HR (Hoff & Hlen & Hin). cbn [spec call]. unfold readFile.
  destruct (decide (n ∈ opened a)) as [Hno|Hno].
  2: { cbn [fst snd]. eapply (call_same _ (fun r => Bytes r.1 r.2) _ _ (false, [])); [done|].
       cbn. by rewrite (not_opened _ _ _ HR Hno). }
  destruct (opened_stream _ _ _ HR Hno) as (st & Hst & Hf & Hi & Hs & Him). rewrite Him.
  set (c := flushed st (content (disk s) (inode st))) in *. rewrite Him in Hin.
  set (got := take (Z.to_nat len) (drop (Z.to_nat off) c)).
  assert (Hgot : length got = Z.to_nat len) by (unfold got; rewrite length_take, length_drop; lia).
  eexists. split.
  { cbn [fst snd]. eapply (call_guarded _ (fun r => Bytes r.1 r.2) _ _ _ _ (true, got)); [done|].
    cbn. rewrite Hst, seek_ok by done. rewrite bool_decide_eq_false_2 by lia. cbn [failed inode].
    rewrite content_set_eq. fold c got. rewrite (drop_ge (resize_buffer _ _)).
    - by rewrite app_nil_r, bool_decide_eq_false_2 by lia.
    - unfold resize_buffer. rewrite length_app, length_take, length_replicate. simpl. lia. }
  pose proof (refines_put s a n (inode st) c (Some (MkStream (inode st) false None)) HR Hi) as H.
  cbn in H. rewrite insert_id in H by done. replace ({[n]} ∪ opened a) with (opened a) in H by set_solver.
  destruct a as [im op]. apply H. by intros ? [= <-].
Qed.

Lemma size_sim n : simulates (Size n).
Proof.
  intros s a HR Hno. cbn [spec safe call fst snd] in *. unfold getFileSize.
  eapply (call_same _ Length); [done|]. cbn. unfold file_size.
  destruct (files (disk s) !! n) as [i|] eqn:Hi.
  - rewrite (image_file _ _ _ _ HR Hi). by rewrite (visible_closed _ _ _ _ HR Hno).
  - by rewrite (image_none _ _ _ HR Hi).
Qed.

(** The file that a closed name stands for, as the manager and the store see it. *)
Lemma closed_file s a n :
  refines s a -> n ∉ opened a ->
  match open_inout permitted n (disk s) with
  | Some i => (if permitted n then image a !! n else None) = Some (content (disk s) i) /\
              files (disk s) !! n = Some i
  | None => (if permitted n then image a !! n else None) = None
  end.
Proof.
  intros HR Hno. unfold open_inout. destruct (permitted n); [|done].
  destruct (files (disk s) !! n) as [i|] eqn:Hi; [|by apply (image_none s)].
  split; [|done]. rewrite (image_file _ _ _ _ HR Hi). f_equal. by eapply visible_closed.
Qed.

Lemma allocate_sim n size : simulates (Allocate n size).
Proof.
  intros s a HR Hno. cbn [spec safe call] in *. unfold allocateSpace.
  pose proof (closed_file s a n HR Hno) as Hc.
  destruct (open_inout permitted n (disk s)) as [i|] eqn:Ho.
  2: { rewrite Hc. cbn [fst snd]. eapply (call_same _ Done); [done|]. cbn. by rewrite Ho. }
  destruct Hc as [-> Hi]. set (c := content (disk s) i) in *. cbn [fst snd].
  destruct (bool_decide (Z.of_nat (length c) < size)) eqn:Hlt.
  - apply bool_decide_eq_true in Hlt. eexists. split.
    + eapply (call_guarded _ Done); [done|]. cbn. rewrite Ho. fold c.
      by rewrite bool_decide_eq_true_2 by done.
    + replace (Z.to_nat (size - 1)) with (Z.to_nat size - 1)%nat by lia.
      rewrite splice_pad by lia. by apply refines_put_closed.
  - assert (Hpad : c ++ replicate (Z.to_nat size - length c) nul = c).
    { apply bool_decide_eq_false in Hlt. replace (Z.to_nat size - length c)%nat with 0%nat by lia.
      apply app_nil_r. }
    rewrite Hpad. rewrite put_image_id.
    + eapply (call_same _ Done); [done|]. cbn. rewrite Ho. fold c. by rewrite Hlt.
    + rewrite (image_file _ _ _ _ HR Hi). f_equal. by eapply visible_closed.
Qed.

Lemma truncate_sim n size : simulates (Truncate n size).
Proof.
  intros s a HR [Hno Hsz]. cbn [spec call]. unfold truncateFile.
  pose proof (closed_file s a n HR Hno) as Hc.
  destruct (open_inout permitted n (disk s)) as [i|] eqn:Ho.
  2: { rewrite Hc. cbn [fst snd]. eapply (call_same _ Done); [done|]. cbn. rewrite Ho.
       by destruct (files (disk s) !! n). }
  destruct Hc as [-> Hi]. set (c := content (disk s) i) in *. cbn [fst snd].
  destruct (bool_decide (size < Z.of_nat (length c))) eqn:Hlt.
  - eexists. split; [|by apply refines_put_closed].
    eapply (call_guarded _ Done); [done|]. cbn. rewrite Ho, Hi. fold c. rewrite Hlt.
    by rewrite bool_decide_eq_false_2 by lia.
  - rewrite take_ge by (apply bool_decide_eq_false in Hlt; lia). rewrite put_image_id.
    + eapply (call_same _ Done); [done|]. cbn. rewrite Ho, Hi. fold c. by rewrite Hlt.
    + rewrite (image_file _ _ _ _ HR Hi). f_equal. by eapply visible_closed.
Qed.

Lemma defragment_sim : simulates Defragment.
Proof.
  intros s a HR _. cbn [spec call fst snd]. unfold defragment.
  eapply (call_same _ (fun _ => Nothing)); [done|]. cbn. do 2 f_equal.
  induction (listFiles dir_order (disk s)) as [|n l IH]; [done|]. cbn [foldl].
  rewrite rewrite_file_id; [apply IH|]. intros i Hi. by eapply ref_some.
Qed.

Lemma op_sim o : simulates o.
Proof.
  destruct o; [apply create_sim|apply delete_sim|apply open_sim|apply close_sim|apply write_sim|
    apply read_sim|apply size_sim|apply allocate_sim|apply truncate_sim|apply defragment_sim].
Qed.

(** ** Runs *)

Fixpoint calls (os : list op) : prog DataFileManager (list answer) :=
  match os with
  | [] => prog_ret []
  | o :: os => (let! v := call o in let! l := calls os in prog_ret (v :: l))%prog
  end.

Fixpoint specs (os : list op) (a : Store) : Store * list answer :=
  match os with
  | [] => (a, [])
  | o :: os =>
      let '(a, v) := spec o a in
      let '(a, l) := specs os a in
      (a, v :: l)
  end.

Fixpoint safe_run (os : list op) (a : Store) : Prop :=
  match os with
  | [] => True
  | o :: os => safe o a /\ safe_run os (spec o a).1
  end.

#[export] Instance safe_run_dec os : forall a, Decision (safe_run os a).
Proof. induction os as [|o os IH]; intros a; cbn; apply _. Defined.

Lemma calls_sim os : forall s a, refines s a -> safe_run os a ->
  exists s', calls os s = (s', Ret (specs os a).2) /\ refines s' (specs os a).1.
Proof.
  induction os as [|o os IH]; intros s a HR Hsafe; cbn [calls specs]; [by exists s|].
  destruct Hsafe as [Ho Hos]. destruct (op_sim o s a HR Ho) as (s1 & Hc & HR1).
  destruct (spec o a) as [a1 v] eqn:Hsp. cbn [fst snd] in *.
  destruct (IH s1 a1 HR1 Hos) as (s2 & Hcs & HR2). destruct (specs os a1) as [a2 l] eqn:Hsps.
  exists s2. unfold prog_bind at 1. rewrite Hc. unfold prog_bind. by rewrite Hcs.
Qed.
End Refinement.

(** ** Theorems *)

(** C8.  Used as [safe_run] says, the manager is a store of byte sequences: every sequence of calls
    answers as the specification does, whatever the library writes through or holds back, and the
    bytes on the disk of every file that is closed in the end are those of the store. *)
Theorem data_file_refines (permitted : string -> bool) (write_through : bytes -> bool)
    (dir_order : list string -> list string) (os : list op) (s : DataFileManager) (a : Store) :
  refines s a -> safe_run permitted os a ->
  exists s', calls permitted write_through dir_order os s = (s', Ret (specs permitted os a).2) /\
    refines s' (specs permitted os a).1 /\
    forall n c, n ∉ opened (specs permitted os a).1 ->
      image (specs permitted os a).1 !! n = Some c ->
      exists i, files (disk s') !! n = Some i /\ content (disk s') i = c.
Proof.
  intros HR Hsafe.
  destruct (calls_sim permitted write_through dir_order os s a HR Hsafe) as (s' & Hc & HR').
  exists s'. split; [done|]. split; [done|]. intros n c Hno Hn.
  rewrite (ref_image _ _ HR') in Hn. destruct (files (disk s') !! n) as [i|]; [|done].
  exists i. split; [done|]. cbn in Hn. rewrite (visible_closed _ _ _ i HR' Hno) in Hn.
  by injection Hn.
Qed.

Lemma data_file_refines_witness :
  let os := [Create "f"; Open "f"; Write "f" hello 2; Read "f" 1 3; Close "f"; Size "f"] in
  let a' := (specs any_name os (MkStore ∅ ∅)).1 in
  exists s', calls any_name buffered (fun l => l) os (newManager empty_disk) =
      (s', Ret [Done true; Done true; Done true; Bytes true [nul; "H"%char; "e"%char]; Done true;
                Length 7]) /\
    refines s' a' /\
    forall n c, n ∉ opened a' -> image a' !! n = Some c ->
      exists i, files (disk s') !! n = Some i /\ content (disk s') i = c.
Proof.
  intros os a'.
  match goal with |- context [Ret ?l] =>
    replace l with (specs any_name os (MkStore ∅ ∅)).2 by (vm_compute; reflexivity)
  end.
  apply (data_file_refines any_name buffered (fun l => l) os (newManager empty_disk) (MkStore ∅ ∅)).
  - apply newManager_refines.
  - apply (bool_decide_unpack _). vm_compute. exact I.
Defined.

(** A read that goes past the end of the file still answers [true], and from then on the stream
    is dead: a later [writeFile] on the open file answers [true], too, but neither it nor the closing
    of the file brings a byte to the disk. *)
Lemma short_read_loses_writes (write_through : bytes -> bool) (s : DataFileManager) (n : string)
    (st : Stream) (buffer : bytes) (off len : Z) :
  fileMutex s = false -> openFiles s !! n = Some st -> failed st = false ->
  is_Some (contents (disk s) !! inode st) -> 0 <= off -> 0 < len ->
  Z.of_nat (length (flushed st (content (disk s) (inode st)))) < off + len ->
  exists s1 b, readFile n buffer off len s = (s1, Ret (true, b)) /\
    forall data off', exists s2 s3,
      writeFile write_through n data off' s1 = (s2, Ret true) /\
      closeFile n s2 = (s3, Ret true) /\ disk s3 = disk s1.
Proof.
  intros Hl Hst Hf Hs Hoff Hlen Hshort.
  set (c := flushed st (content (disk s) (inode st))) in *.
  set (d := set_content (inode st) c (disk s)).
  set (dead := MkStream (inode st) true None).
  set (s1 := MkDfm d (<[n := dead]> (openFiles s)) false).
  exists s1. eexists. split.
  - apply guarded; [done|]. cbn. rewrite Hst, seek_ok by done.
    rewrite bool_decide_eq_false_2 by lia. cbn [failed inode]. rewrite content_set_eq. fold c.
    rewrite bool_decide_eq_true_2; [done|]. rewrite length_take, length_drop. lia.
  - intros data off'. exists s1, (MkDfm d (delete n (openFiles s)) false). split; [|split; [|done]].
    + apply guarded; [done|]. cbn. rewrite lookup_insert_eq. cbn.
      by rewrite insert_insert_eq.
    + apply guarded; [done|]. cbn. rewrite lookup_insert_eq. cbn.
      by rewrite delete_insert_eq.
Qed.

(** An open file with the bytes of [hello]. *)
Definition hello_open : DataFileManager :=
  MkDfm (MkDisk {[ "f" := 0%nat ]} {[ 0%nat := hello ]} 1) {[ "f" := MkStream 0 false None ]} false.

Lemma short_read_loses_writes_witness :
  exists s1 b, readFile "f" [] 3 5 hello_open = (s1, Ret (true, b)) /\
    forall data off', exists s2 s3,
      writeFile buffered "f" data off' s1 = (s2, Ret true) /\
      closeFile "f" s2 = (s3, Ret true) /\ disk s3 = disk s1.
Proof.
  apply (short_read_loses_writes buffered hello_open "f" (MkStream 0 false None) [] 3 5);
    [reflexivity|reflexivity|reflexivity|eexists; reflexivity|lia|lia|vm_compute; reflexivity].
Defined.
