(* ===== verification/Files.v ===== *)
(** * Files

    What the tools that read and write whole files share: the file system as a map from names to
    contents, with the choices of the operating system in [FileSystem], the functions of the class
    [FileHandler] of src/storage/compression/lz4_compression.cpp, and vectors of bytes as buffers that a
    library writes to.  Running out of memory is not modelled. *)

From S2P Require Import Prelude Text.
From Stdlib Require Import Ascii.
Local Open Scope Z_scope.
Local Open Scope prog_scope.

Abbreviation bytes := (list ascii).
Definition nul : ascii := "000"%char.

(** ** Files *)

Abbreviation Files := (gmap string bytes).

(** Which names a process may open, and what a file holds after bytes were written to it, with whether
    the stream is still good. *)
Class FileSystem : Type := {
  permitted : string -> bool;
  stored : string -> bytes -> bytes * bool
}.

(** The file takes everything that is written to it. *)
Definition reliable `{FileSystem} (name : string) : Prop :=
  permitted name = true /\ forall data, stored name data = (data, true).

Section files.
Context `{FileSystem}.

(** [std::ifstream file(name, std::ios::binary)] and the bytes of the file. *)
Definition open_in (name : string) : prog Files (option bytes) :=
  prog_gets (fun fs => if permitted name then fs !! name else None).

(** [std::ofstream file(name, std::ios::binary)]: the file is created or emptied. *)
Definition open_out (name : string) : prog Files bool := fun fs =>
  if permitted name then (<[name := []]> fs, Ret true) else (fs, Ret false).

(** [file.write(...)] on a stream that was just opened, and whether the stream is good. *)
Definition write_out (name : string) (data : bytes) : prog Files bool := fun fs =>
  let '(held, ok) := stored name data in (<[name := held]> fs, Ret ok).

(** [FileHandler::readFile] *)
Definition readFile (fileName : string) : prog Files bytes :=
  let! file := open_in fileName in
  match file with
  | None => prog_throw (runtime_error ("Failed to open file: " +:+ fileName))
  | Some buffer => prog_ret buffer
  end.

(** [FileHandler::writeFile] *)
Definition writeFile (fileName : string) (data : bytes) : prog Files unit :=
  let! ok := open_out fileName in
  if ok then
    let! ok := write_out fileName data in
    if ok then prog_ret tt
    else prog_throw (runtime_error ("Failed to write to file: " +:+ fileName))
  else prog_throw (runtime_error ("Failed to open file: " +:+ fileName)).

Lemma readFile_ok fs name data :
  permitted name = true -> fs !! name = Some data -> readFile name fs = (fs, Ret data).
Proof.
  intros Hp Hd. unfold readFile, open_in, prog_bind, prog_gets. by rewrite Hp, Hd.
Qed.

Lemma writeFile_ok fs name data :
  reliable name -> writeFile name data fs = (<[name := data]> fs, Ret tt).
Proof.
  intros [Hp Hs]. unfold writeFile, open_out, write_out, prog_bind. rewrite Hp, Hs.
  by rewrite insert_insert_eq.
Qed.

(** A write whose outcome the caller does not look at. *)
Definition write_unchecked (name : string) (data : bytes) : prog Files unit :=
  let! _ := write_out name data in prog_ret tt.

Lemma open_in_ok fs name x :
  permitted name = true -> fs !! name = Some x -> open_in name fs = (fs, Ret (Some x)).
Proof. intros Hp Hx. unfold open_in, prog_gets. by rewrite Hp, Hx. Qed.

End files.

(** [std::vector<char> v(n)] of an [int]: the conversion to [size_t] makes a negative size too large. *)
Definition new_vector {S : Type} (n : Z) : prog S bytes :=
  if decide (0 <= n) then prog_ret (replicate (Z.to_nat n) nul)
  else prog_throw (length_error "cannot create std::vector larger than max_size()").

(** The buffer after a library has written [out] at its beginning. *)
Definition written (buffer out : bytes) : bytes := out ++ drop (length out) buffer.

Lemma wrap_int_id n : 0 <= n <= int_max -> wrap_int n = n.
Proof. unfold int_max, wrap_int. intros Hn. rewrite Z.mod_small; lia. Qed.

(** ** An example *)

(** A disk on which everything can be opened and nothing fails. *)
Definition open_disk : FileSystem :=
  {| permitted _ := true; stored _ data := (data, true) |}.

Lemma open_disk_reliable name : reliable (H := open_disk) name.
Proof. done. Qed.

Definition abc : bytes := ["a"; "b"; "c"]%char.
