(* ===== verification/Lz4Compression.v ===== *)
(** * LZ4 compression (src/storage/compression/lz4_compression.cpp)

    A command-line tool that compresses a file and restores it.  The lz4 library is not part of the
    repository: the functions that the tool calls are the class [LZ4Library], and what lz4.h documents
    of them the class [LZ4Laws].  Sizes keep the width of the type that carries them. *)

From S2P Require Import Prelude Text Files.
From Stdlib Require Import Ascii.
Local Open Scope Z_scope.
Local Open Scope prog_scope.

(** [LZ4_MAX_INPUT_SIZE] and [LZ4HC_CLEVEL_DEFAULT] of the library's headers. *)
Definition MAX_INPUT_SIZE : Z := 2113929216.
Definition CLEVEL_DEFAULT : Z := 9.

(** The functions the tool calls: the size they return and the bytes they write. *)
Class LZ4Library : Type := {
  compressBound : Z -> Z;
  compress_HC : bytes -> Z -> Z -> Z -> Z * bytes;
  decompress_safe : bytes -> Z -> Z -> Z * bytes
}.

Section compressor.
Context `{FileSystem, LZ4Library}.

(** [LZ4Compressor::compress] *)
Definition compress (compressionLevel : Z) (inputData : bytes) : prog Files bytes :=
  let size := wrap_int (Z.of_nat (length inputData)) in
  let maxCompressedSize := compressBound size in
  let! compressedData := new_vector maxCompressedSize in
  let '(compressedSize, out) := compress_HC inputData size maxCompressedSize compressionLevel in
  if decide (compressedSize <= 0) then prog_throw (runtime_error "Compression failed.")
  else prog_ret (take (Z.to_nat compressedSize) (written compressedData out)).

(** [LZ4Compressor::decompress] *)
Definition decompress (compressedData : bytes) (originalSize : Z) : prog Files bytes :=
  let! decompressedData := new_vector originalSize in
  let '(decompressedSize, out) :=
    decompress_safe compressedData (wrap_int (Z.of_nat (length compressedData))) originalSize in
  if decide (decompressedSize < 0) then prog_throw (runtime_error "Decompression failed.")
  else prog_ret (written decompressedData out).

(** [LZ4FileCompressor] *)
Definition compressFile (level : Z) (inputFileName outputFileName : string) : prog Files unit :=
  let! inputData := readFile inputFileName in
  let! compressedData := compress level inputData in
  writeFile outputFileName compressedData.

Definition decompressFile (compressedFileName decompressedFileName : string) (originalSize : Z)
  : prog Files unit :=
  let! compressedData := readFile compressedFileName in
  let! decompressedData := decompress compressedData originalSize in
  writeFile decompressedFileName decompressedData.

(** A [try] whose handler of [std::exception] returns 1 and whose body ends in [return 0]. *)
Definition try_main (body : prog Files unit) : prog Files Z := fun fs =>
  match body fs with
  | (fs', Ret _) => (fs', Ret 0)
  | (fs', Throw _) => (fs', Ret 1)
  | (fs', Hang) => (fs', Hang)
  | (fs', Undef u) => (fs', Undef u)
  end.

(** [main]; [std::stoi] is called before the [try]. *)
Definition main (argv : list string) : prog Files Z :=
  match argv with
  | [_; mode; inputFileName; outputFileName; size] =>
      match stoi size with
      | Ret originalSize =>
          if decide (mode = "compress"%string) then
            try_main (compressFile CLEVEL_DEFAULT inputFileName outputFileName)
          else if decide (mode = "decompress"%string) then
            try_main (decompressFile inputFileName outputFileName originalSize)
          else prog_ret 1
      | Throw e => prog_throw e
      | Hang => fun fs => (fs, Hang)
      | Undef u => prog_undef u
      end
  | _ => prog_ret 1
  end.

End compressor.

(** What lz4.h documents: the bound is positive up to the largest input; compression into a buffer of
    that size succeeds; decompression gives the input back when the buffer is large enough for it and
    reports an error otherwise. *)
Class LZ4Laws `{LZ4Library} : Prop := {
  bound_range n : 0 <= n <= MAX_INPUT_SIZE -> 0 < compressBound n <= int_max;
  compress_fits src level : Z.of_nat (length src) <= MAX_INPUT_SIZE ->
    let n := Z.of_nat (length src) in
    let '(k, out) := compress_HC src n (compressBound n) level in
    0 < k <= compressBound n /\ k = Z.of_nat (length out);
  decompress_restores src level capacity : Z.of_nat (length src) <= MAX_INPUT_SIZE ->
    let n := Z.of_nat (length src) in
    let '(k, out) := compress_HC src n (compressBound n) level in
    if decide (n <= capacity <= int_max) then decompress_safe out k capacity = (n, src)
    else 0 <= capacity < n -> (decompress_safe out k capacity).1 < 0
}.

Section laws.
Context `{FileSystem, LZ4Laws}.

Lemma max_input_int n : 0 <= n <= MAX_INPUT_SIZE -> wrap_int n = n.
Proof.
  unfold MAX_INPUT_SIZE, wrap_int. intros Hn. rewrite Z.mod_small; lia.
Qed.

(** Compression returns what the library wrote. *)
Lemma compress_ok fs level x :
  Z.of_nat (length x) <= MAX_INPUT_SIZE ->
  exists y, compress level x fs = (fs, Ret y) /\ Z.of_nat (length y) <= int_max /\
    forall capacity,
      if decide (Z.of_nat (length x) <= capacity <= int_max)
      then decompress_safe y (Z.of_nat (length y)) capacity = (Z.of_nat (length x), x)
      else 0 <= capacity < Z.of_nat (length x) ->
           (decompress_safe y (Z.of_nat (length y)) capacity).1 < 0.
Proof.
  intros Hx. pose proof (compress_fits x level Hx) as Hf.
  pose proof (fun c => decompress_restores x level c Hx) as Hr.
  destruct (bound_range (Z.of_nat (length x))) as [Hb0 Hb]; [lia|].
  unfold compress, prog_bind, new_vector. rewrite max_input_int by lia.
  rewrite decide_True by lia. cbn in Hf, Hr. cbn [prog_ret].
  destruct (compress_HC x _ _ level) as [k out]. destruct Hf as [Hk ->].
  rewrite decide_False by lia. exists out. unfold written.
  rewrite Nat2Z.id, take_app_length. split_and!; [done|lia|exact Hr].
Qed.

(** Decompression fills a vector of the size it is given. *)
Lemma decompress_ok fs y x n :
  Z.of_nat (length y) <= int_max -> Z.of_nat (length x) <= n ->
  decompress_safe y (Z.of_nat (length y)) n = (Z.of_nat (length x), x) ->
  decompress y n fs = (fs, Ret (x ++ replicate (Z.to_nat n - length x) nul)).
Proof.
  intros Hy Hn Hd. unfold decompress, prog_bind, new_vector. rewrite decide_True by lia.
  rewrite wrap_int_id by lia. cbn [prog_ret]. rewrite Hd, decide_False by lia.
  unfold written. by rewrite drop_replicate.
Qed.

(** Compressing a file and decompressing the result, for contents up to the largest input of the
    library: compression returns and leaves a file of the library's format; decompression with the
    exact size restores the contents; with a larger size it returns the contents followed by zero
    bytes up to that size; with a smaller size it throws and writes nothing; with a negative size it
    throws as well.  The names may coincide. *)
Lemma lz4_roundtrip fs input packed output level x n :
  fs !! input = Some x -> permitted input = true -> reliable packed -> reliable output ->
  Z.of_nat (length x) <= MAX_INPUT_SIZE -> n <= int_max ->
  exists y, let fs' := <[packed := y]> fs in
    compressFile level input packed fs = (fs', Ret tt) /\
    (Z.of_nat (length x) <= n ->
       decompressFile packed output n fs' =
         (<[output := x ++ replicate (Z.to_nat n - length x) nul]> fs', Ret tt)) /\
    (n < Z.of_nat (length x) -> exists e, decompressFile packed output n fs' = (fs', Throw e)).
Proof.
  intros Hin Hp Hpk Hout Hx Hn. destruct (compress_ok fs level x Hx) as (y & Hc & Hy & Hd).
  exists y. unfold compressFile, decompressFile, prog_bind.
  rewrite (readFile_ok fs input x), Hc, writeFile_ok by done.
  rewrite (readFile_ok (<[packed := y]> fs) packed y)
    by (done || by rewrite lookup_insert_eq || by destruct Hpk).
  split_and!; [done| |].
  - intros Hle. specialize (Hd n). rewrite decide_True in Hd by lia.
    rewrite (decompress_ok _ y x n), writeFile_ok by done. done.
  - intros Hlt. destruct (decide (0 <= n)) as [Hn0|Hn0].
    + specialize (Hd n). rewrite decide_False in Hd by lia. unfold decompress, prog_bind, new_vector.
      rewrite decide_True, wrap_int_id by lia. cbn [prog_ret].
      destruct (decompress_safe y _ n) as [k out]. cbn in Hd.
      rewrite decide_True by (apply Hd; lia). eauto.
    + unfold decompress, prog_bind, new_vector. rewrite decide_False by done. eauto.
Qed.

End laws.

(** ** A library that stores *)

(** One byte of header and the input as it is. *)
#[local] Instance store_lz4 : LZ4Library :=
  {| compressBound n := n + 1;
     compress_HC src n _ _ := (n + 1, "L"%char :: src);
     decompress_safe src _ capacity :=
       match src with
       | _ :: x => if decide (Z.of_nat (length x) <= capacity) then (Z.of_nat (length x), x)
                   else (-1, [])
       | [] => (-1, [])
       end |}.

#[local] Instance store_lz4_laws : LZ4Laws.
Proof.
  constructor; unfold MAX_INPUT_SIZE, int_max; cbn.
  - lia.
  - intros src _ Hs. lia.
  - intros src _ capacity Hs. repeat case_decide; cbn; try lia; done.
Qed.

#[local] Existing Instance open_disk.

Lemma lz4_roundtrip_witness :
  let fs : Files := <["in" := abc]> ∅ in
  exists y, compressFile 9 "in" "packed" fs = (<["packed" := y]> fs, Ret tt) /\
    decompressFile "packed" "out" 5 (<["packed" := y]> fs) =
      (<["out" := abc ++ [nul; nul]]> (<["packed" := y]> fs), Ret tt).
Proof.
  intros fs. destruct (lz4_roundtrip fs "in" "packed" "out" 9 abc 5) as (y & Hc & Hd & _).
  - reflexivity.
  - reflexivity.
  - apply open_disk_reliable.
  - apply open_disk_reliable.
  - vm_compute. discriminate.
  - vm_compute. discriminate.
  - exists y. split; [exact Hc|]. apply Hd. vm_compute. discriminate.
Defined.

(** The tool as it is run; a size that is no number is reported by nobody. *)
Example lz4_main :
  let fs : Files := <["in" := abc]> ∅ in
  let fs1 := (main ["lz4"; "compress"; "in"; "packed"; "0"] fs).1 in
  fs1 !! "packed" = Some ("L"%char :: abc) /\
  main ["lz4"; "decompress"; "packed"; "out"; "2"] fs1 = (fs1, Ret 1) /\
  main ["lz4"; "expand"; "in"; "out"; "0"] fs = (fs, Ret 1) /\
  main ["lz4"; "compress"; "in"; "out"; "x"] fs = (fs, Throw (invalid_argument "stoi")).
Proof. vm_compute. done. Qed.
