(* ===== verification/SnappyCompression.v ===== *)
(** * Snappy compression (src/storage/compression/snappy_compression.cpp)

    A command-line tool that compresses a file, restores it under another name and compares the two.  The
    snappy library is not part of the repository: the functions that the tool calls are the class
    [SnappyLibrary], and what snappy.h documents of them the class [SnappyLaws].  The times that the
    tool prints are not modelled. *)

From S2P Require Import Prelude Text Files.
From Stdlib Require Import Ascii.
Local Open Scope Z_scope.
Local Open Scope prog_scope.

(** The functions the tool calls: the length that the header of compressed data holds, and the bytes
    that decompression writes, if the data is valid. *)
Class SnappyLibrary : Type := {
  Compress : bytes -> bytes;
  GetUncompressedLength : bytes -> option nat;
  RawUncompress : bytes -> option bytes
}.

Section tool.
Context `{FileSystem, SnappyLibrary}.

Definition decompressed_name (inputFilePath : string) : string := "decompressed_" +:+ inputFilePath.

Definition compressFile (inputFilePath outputFilePath : string) : prog Files bool :=
  let! inputFile := open_in inputFilePath in
  match inputFile with
  | None => prog_ret false
  | Some inputBuffer =>
      let compressedBuffer := Compress inputBuffer in
      let! ok := open_out outputFilePath in
      if ok then write_unchecked outputFilePath compressedBuffer;;; prog_ret true
      else prog_ret false
  end.

(** [RawUncompress] writes into a buffer of the length that the header announces. *)
Definition decompressFile (inputFilePath outputFilePath : string) : prog Files bool :=
  let! inputFile := open_in outputFilePath in
  match inputFile with
  | None => prog_ret false
  | Some compressedBuffer =>
      match GetUncompressedLength compressedBuffer with
      | None => prog_ret false
      | Some uncompressedLength =>
          match RawUncompress compressedBuffer with
          | None => prog_ret false
          | Some out =>
              let decompressedBuffer := written (replicate uncompressedLength nul) out in
              let! ok := open_out (decompressed_name inputFilePath) in
              if ok then
                write_unchecked (decompressed_name inputFilePath) decompressedBuffer;;;
                prog_ret true
              else prog_ret false
          end
      end
  end.

Definition verifyCompression (inputFilePath : string) : prog Files bool :=
  let! originalFile := open_in inputFilePath in
  match originalFile with
  | None => prog_ret false
  | Some originalBuffer =>
      let! decompressedFile := open_in (decompressed_name inputFilePath) in
      match decompressedFile with
      | None => prog_ret false
      | Some decompressedBuffer => prog_ret (bool_decide (originalBuffer = decompressedBuffer))
      end
  end.

Definition main (argv : list string) : prog Files Z :=
  match argv with
  | [_; input; output] =>
      let! ok := compressFile input output in
      if ok then
        let! ok := decompressFile input output in
        if ok then
          let! ok := verifyCompression input in
          prog_ret (if ok then 0 else 1)
        else prog_ret 1
      else prog_ret 1
  | _ => prog_ret 1
  end.

End tool.

(** What snappy.h documents of data that it compressed. *)
Class SnappyLaws `{SnappyLibrary} : Prop := {
  length_restores x : GetUncompressedLength (Compress x) = Some (length x);
  uncompress_restores x : RawUncompress (Compress x) = Some x
}.

Section laws.
Context `{FileSystem, SnappyLaws}.

Lemma save_ok {A} fs name data (a b : A) :
  reliable name ->
  (let! ok := open_out name in
   if ok then write_unchecked name data;;; prog_ret a else prog_ret b) fs =
  (<[name := data]> fs, Ret a).
Proof.
  intros [Hp Hs]. unfold open_out, write_unchecked, write_out, prog_bind. rewrite Hp, Hs.
  by rewrite insert_insert_eq.
Qed.

Lemma decompressed_name_ne name : decompressed_name name <> name.
Proof.
  intros Heq. apply (f_equal String.length) in Heq. unfold decompressed_name in Heq.
  rewrite length_append in Heq. cbn in Heq. lia.
Qed.

(** The whole run of the tool on a file, where every file it opens can be written: the restored file
    holds exactly the bytes that the input held, and the tool exits with 0 precisely when they are the
    bytes that the input file holds at the end, which is always so unless the compressed output was
    written over the input. *)
Lemma snappy_run fs tool input output x :
  fs !! input = Some x -> permitted input = true -> reliable output ->
  reliable (decompressed_name input) ->
  let fs' := <[decompressed_name input := x]> (<[output := Compress x]> fs) in
  main [tool; input; output] fs =
    (fs', Ret (if bool_decide (fs' !! input = Some x) then 0 else 1)) /\
  (input <> output -> fs' !! input = Some x).
Proof.
  intros Hin Hp Hout Hdec fs'. pose proof (decompressed_name_ne input) as Hne.
  assert (Hdp : permitted (decompressed_name input) = true) by apply Hdec.
  split; [|intros Hio; unfold fs'; by rewrite !lookup_insert_ne].
  unfold main, prog_bind at 1.
  assert (Hc : compressFile input output fs = (<[output := Compress x]> fs, Ret true)).
  { unfold compressFile, prog_bind at 1. rewrite (open_in_ok fs input x) by done. by apply save_ok. }
  rewrite Hc. unfold prog_bind at 1.
  assert (Hd : decompressFile input output (<[output := Compress x]> fs) = (fs', Ret true)).
  { unfold decompressFile, prog_bind at 1.
    rewrite (open_in_ok _ output (Compress x)); [|apply Hout|by rewrite lookup_insert_eq].
    rewrite length_restores, uncompress_restores. unfold written.
    rewrite drop_ge, app_nil_r by (rewrite length_replicate; lia). by apply save_ok. }
  rewrite Hd. unfold prog_bind, verifyCompression.
  assert (exists z, fs' !! input = Some z) as [z Hz].
  { unfold fs'. rewrite lookup_insert_ne by done. destruct (decide (output = input)) as [->|];
      [rewrite lookup_insert_eq|rewrite lookup_insert_ne]; eauto. }
  unfold prog_bind. rewrite (open_in_ok fs' input z) by done.
  rewrite (open_in_ok fs' (decompressed_name input) x); [|done|by apply lookup_insert_eq].
  cbn [prog_ret]. rewrite Hz. do 2 f_equal. repeat case_bool_decide; naive_solver.
Qed.

End laws.

(** ** A library that stores *)

#[local] Instance snappy_store : SnappyLibrary :=
  {| Compress x := "S"%char :: x;
     GetUncompressedLength y := match y with "S"%char :: x => Some (length x) | _ => None end;
     RawUncompress y := match y with "S"%char :: x => Some x | _ => None end |}.

#[local] Instance snappy_store_laws : SnappyLaws.
Proof. done. Qed.

#[local] Existing Instance open_disk.

Lemma snappy_run_witness :
  let fs : Files := <["in" := abc]> ∅ in
  main ["snappy"; "in"; "out"] fs =
    (<["decompressed_in" := abc]> (<["out" := "S"%char :: abc]> fs), Ret 0).
Proof.
  intros fs. destruct (snappy_run fs "snappy" "in" "out" abc) as [Hm _].
  - reflexivity.
  - reflexivity.
  - apply open_disk_reliable.
  - apply open_disk_reliable.
  - exact Hm.
Defined.

(** The output written over the input: the tool reports the mismatch, and the input is gone. *)
Example snappy_in_place :
  let fs : Files := <["in" := abc]> ∅ in
  let '(fs', o) := main ["snappy"; "in"; "in"] fs in
  o = Ret 1 /\ fs' !! "in" = Some ("S"%char :: abc).
Proof. vm_compute. done. Qed.
