(* ===== verification/Encryption.v ===== *)
(** * Encryption at rest (src/security/encryption/encryption_at_rest.cpp)

    A string is encrypted into a file and a file decrypted into a string.  The cipher is OpenSSL's, which
    is not part of the repository: its functions are the members of the class [EVPLibrary], each with
    the failure it can report, and what its manual says of the lengths of their output is the class
    [EVPLengths].  The model keeps what the code has to give back, the cipher contexts and the arrays it
    allocates, and treats a write past the end of such an array as undefined behaviour.  That decryption
    inverts encryption is a property of the cipher and not of this code, and is not assumed. *)

From S2P Require Import Prelude Files.
From Stdlib Require Import Ascii.
Local Open Scope Z_scope.
Local Open Scope prog_scope.

Definition KEY_SIZE : nat := 32.
Definition IV_SIZE : nat := 16.

(** [ticks] counts the calls whose outcome is up to the library. *)
Record World : Type := MkWorld {
  disk : Files;
  contexts : Z;
  arrays : Z;
  ticks : nat
}.

(** [RAND_bytes] returns a code and, when that is 1, random bytes; a context may not be available; the
    other functions fail or return the bytes they write and the next state of the context. *)
Class EVPLibrary : Type := {
  Ctx : Type;
  RAND_bytes : nat -> nat -> Z * bytes;
  EVP_CIPHER_CTX_new : nat -> option Ctx;
  block_size : nat;
  EVP_EncryptInit_ex : Ctx -> bytes -> bytes -> option Ctx;
  EVP_EncryptUpdate : Ctx -> bytes -> Z -> option (bytes * Ctx);
  EVP_EncryptFinal_ex : Ctx -> option bytes;
  EVP_DecryptInit_ex : Ctx -> bytes -> bytes -> option Ctx;
  EVP_DecryptUpdate : Ctx -> bytes -> Z -> option (bytes * Ctx);
  EVP_DecryptFinal_ex : Ctx -> option bytes
}.

Section encryption.
Context `{FileSystem, EVPLibrary}.

(** ** Resources *)

Definition tick : prog World nat := fun w =>
  (MkWorld (disk w) (contexts w) (arrays w) (S (ticks w)), Ret (ticks w)).

Definition on_disk {A : Type} (m : prog Files A) : prog World A := fun w =>
  let '(fs, o) := m (disk w) in (MkWorld fs (contexts w) (arrays w) (ticks w), o).

Definition count_contexts (d : Z) : prog World unit :=
  prog_modify (fun w => MkWorld (disk w) (contexts w + d) (arrays w) (ticks w)).
Definition count_arrays (d : Z) : prog World unit :=
  prog_modify (fun w => MkWorld (disk w) (contexts w) (arrays w + d) (ticks w)).

Definition new_context : prog World (option Ctx) :=
  let! t := tick in
  match EVP_CIPHER_CTX_new t with
  | Some ctx => count_contexts 1;;; prog_ret (Some ctx)
  | None => prog_ret None
  end.
Definition free_context : prog World unit := count_contexts (-1).
Definition new_array : prog World unit := count_arrays 1.
Definition delete_array : prog World unit := count_arrays (-1).

(** The library has written [n] bytes to an array of [room]. *)
Definition fits (n room : nat) : prog World unit :=
  if decide (n <= room)%nat then prog_ret tt else prog_undef index_out_of_range.

(** ** Keys *)

(** The bytes a call leaves in a buffer that held nothing: [None] when they are indeterminate. *)
Definition random (size : nat) : prog World (Z * option bytes) :=
  let! t := tick in
  let '(code, data) := RAND_bytes t size in
  prog_ret (code, if decide (code = 1) then Some data else None).

Definition generate_key : prog World (bool * option bytes * option bytes) :=
  let! r := random KEY_SIZE in
  if decide (r.1 = 0) then prog_ret (false, r.2, None)
  else
    let! r' := random IV_SIZE in
    prog_ret (bool_decide (r'.1 <> 0), r.2, r'.2).

(** ** Encryption *)

Definition encrypt (plaintext : bytes) (output_file : string) (key iv : bytes) : prog World bool :=
  let! ctx := new_context in
  match ctx with
  | None => prog_ret false
  | Some ctx =>
      match EVP_EncryptInit_ex ctx key iv with
      | None => free_context;;; prog_ret false
      | Some ctx =>
          let! opened := on_disk (open_out output_file) in
          if opened then
            let room := (length plaintext + block_size)%nat in
            new_array;;;
            match EVP_EncryptUpdate ctx plaintext (wrap_int (Z.of_nat (length plaintext))) with
            | None => delete_array;;; free_context;;; prog_ret false
            | Some (out1, ctx) =>
                fits (length out1) room;;;
                match EVP_EncryptFinal_ex ctx with
                | None => delete_array;;; free_context;;; prog_ret false
                | Some out2 =>
                    fits (length out1 + length out2) room;;;
                    on_disk (write_unchecked output_file (out1 ++ out2));;;
                    delete_array;;; free_context;;; prog_ret true
                end
            end
          else free_context;;; prog_ret false
      end
  end.

(** ** Decryption *)

(** The result is what is returned and what the string [plaintext] holds then. *)
Definition decrypt (input_file : string) (plaintext key iv : bytes) : prog World (bool * bytes) :=
  let! infile := on_disk (open_in input_file) in
  match infile with
  | None => prog_ret (false, plaintext)
  | Some ciphertext =>
      let file_size := length ciphertext in
      new_array;;;
      let! ctx := new_context in
      match ctx with
      | None => delete_array;;; prog_ret (false, plaintext)
      | Some ctx =>
          match EVP_DecryptInit_ex ctx key iv with
          | None => free_context;;; delete_array;;; prog_ret (false, plaintext)
          | Some ctx =>
              new_array;;;
              match EVP_DecryptUpdate ctx ciphertext (wrap_int (Z.of_nat file_size)) with
              | None => free_context;;; delete_array;;; delete_array;;; prog_ret (false, plaintext)
              | Some (out1, ctx) =>
                  fits (length out1) file_size;;;
                  match EVP_DecryptFinal_ex ctx with
                  | None =>
                      free_context;;; delete_array;;; delete_array;;; prog_ret (false, plaintext)
                  | Some out2 =>
                      fits (length out1 + length out2) file_size;;;
                      delete_array;;; delete_array;;; free_context;;;
                      prog_ret (true, out1 ++ out2)
                  end
              end
          end
      end
  end.

(** [main]: its key and its initialisation vector are arrays without initialiser. *)
Definition main (data : bytes) : prog World (Z * bytes) :=
  let! r := generate_key in
  let '(ok, key, iv) := r in
  if ok then
    match key, iv with
    | Some key, Some iv =>
        let! ok := encrypt data "encrypted_data.bin" key iv in
        if (ok : bool) then
          let! r := decrypt "encrypted_data.bin" [] key iv in
          prog_ret (if (r.1 : bool) then 0 else 1, r.2)
        else prog_ret (1, [])
    | _, _ => prog_undef uninitialised_read
    end
  else prog_ret (1, []).

(** ** No resource is lost *)

(** Contexts and arrays that are held. *)
Definition holds (w : World) : Z * Z := (contexts w, arrays w).

(** A call changes what is held by [d], unless its behaviour is undefined. *)
Definition balance {A : Type} (d : Z * Z) (m : prog World A) : Prop := forall w,
  match m w with
  | (w', Ret _) => holds w' = (contexts w + d.1, arrays w + d.2)
  | (_, Undef _) => True
  | _ => False
  end.

Lemma balance_ret {A} c (a : A) : c = (0, 0) -> balance c (prog_ret a).
Proof. intros -> w. cbn. by rewrite !Z.add_0_r. Qed.

Lemma balance_bind {A B} d c (m : prog World A) (f : A -> prog World B) :
  balance d m -> (forall a, balance (c.1 - d.1, c.2 - d.2) (f a)) -> balance c (prog_bind m f).
Proof.
  intros Hm Hf w. unfold prog_bind. specialize (Hm w).
  destruct (m w) as [w1 [a| | |]]; try done. specialize (Hf a w1).
  destruct (f a w1) as [w2 [b| | |]]; try done. unfold holds in *.
  injection Hm as Hc Ha. rewrite Hf, Hc, Ha. cbn. f_equal; lia.
Qed.

Lemma balance_free : balance (-1, 0) free_context.
Proof. intros w. cbn. by rewrite Z.add_0_r. Qed.
Lemma balance_new_array : balance (0, 1) new_array.
Proof. intros w. cbn. by rewrite Z.add_0_r. Qed.
Lemma balance_delete_array : balance (0, -1) delete_array.
Proof. intros w. cbn. by rewrite Z.add_0_r. Qed.

Lemma balance_fits n room : balance (0, 0) (fits n room).
Proof. unfold fits. case_decide; [by apply balance_ret|done]. Qed.

Lemma balance_disk {A} (m : prog Files A) :
  (forall fs, exists fs' a, m fs = (fs', Ret a)) -> balance (0, 0) (on_disk m).
Proof.
  intros Hm w. unfold on_disk. destruct (Hm (disk w)) as (fs' & a & ->). cbn. by rewrite !Z.add_0_r.
Qed.

Lemma open_in_returns name fs : exists fs' a, open_in name fs = (fs', Ret a).
Proof. eexists _, _. reflexivity. Qed.
Lemma open_out_returns name fs : exists fs' a, open_out name fs = (fs', Ret a).
Proof. unfold open_out. destruct (permitted name); eauto. Qed.
Lemma write_returns name data fs : exists fs' a, write_unchecked name data fs = (fs', Ret a).
Proof.
  unfold write_unchecked, write_out, prog_bind. destruct (stored name data); eauto.
Qed.

(** A new context counts when it is there. *)
Lemma balance_context {A} c (f : option Ctx -> prog World A) :
  balance c (f None) -> (forall ctx, balance (c.1 - 1, c.2) (f (Some ctx))) ->
  balance c (let! ctx := new_context in f ctx).
Proof.
  intros Hn Hs w. unfold prog_bind, new_context, tick, prog_bind.
  destruct (EVP_CIPHER_CTX_new (ticks w)) as [ctx|].
  - cbn. specialize (Hs ctx (MkWorld (disk w) (contexts w + 1) (arrays w) (S (ticks w)))).
    destruct (f _ _) as [w' []]; try done. rewrite Hs. cbn. f_equal; lia.
  - cbn. specialize (Hn (MkWorld (disk w) (contexts w) (arrays w) (S (ticks w)))).
    destruct (f _ _) as [w' []]; done.
Qed.

#[local] Hint Resolve balance_free balance_new_array balance_delete_array balance_fits
  open_in_returns open_out_returns write_returns : hpdb.
#[local] Hint Resolve balance_disk : hpdb.

(** Follows a function call by call: at a return everything has been given back. *)
Ltac balanced :=
  repeat match goal with
    | |- balance _ (prog_ret _) => apply balance_ret; reflexivity
    | |- balance _ (prog_bind new_context _) => apply balance_context; [|intros ?]
    | |- balance _ (prog_bind _ _) => eapply balance_bind; [solve [eauto with hpdb]|intros ?]
    | |- balance _ _ => case_match
    end.

(** On every path, the early returns included. *)
Lemma encrypt_balanced p file key iv : balance (0, 0) (encrypt p file key iv).
Proof. unfold encrypt. cbv zeta. balanced. Qed.

Lemma decrypt_balanced file p key iv : balance (0, 0) (decrypt file p key iv).
Proof. unfold decrypt. cbv zeta. balanced. Qed.

End encryption.

(** ** What the calls do *)

(** What the manual says of encryption: an update writes fewer than a block of bytes more than it is
    given, and with the padding of the final call the whole output is longer than the input by at most a
    block. *)
Class EVPLengths `{EVPLibrary} : Prop := {
  update_length ctx p out ctx' :
    EVP_EncryptUpdate ctx p (Z.of_nat (length p)) = Some (out, ctx') ->
    (length out <= length p + block_size)%nat;
  padded_length ctx key iv p ctx1 out1 ctx2 out2 :
    EVP_EncryptInit_ex ctx key iv = Some ctx1 ->
    EVP_EncryptUpdate ctx1 p (Z.of_nat (length p)) = Some (out1, ctx2) ->
    EVP_EncryptFinal_ex ctx2 = Some out2 ->
    (length out1 + length out2 <= length p + block_size)%nat
}.

(** The output of the three library calls of an encryption and of a decryption. *)
Definition encrypted `{EVPLibrary} (p key iv out : bytes) : Prop :=
  exists ctx ctx1 out1 ctx2 out2,
    EVP_EncryptInit_ex ctx key iv = Some ctx1 /\
    EVP_EncryptUpdate ctx1 p (Z.of_nat (length p)) = Some (out1, ctx2) /\
    EVP_EncryptFinal_ex ctx2 = Some out2 /\ out = out1 ++ out2.
Definition decrypted `{EVPLibrary} (c key iv out : bytes) : Prop :=
  exists ctx ctx1 out1 ctx2 out2,
    EVP_DecryptInit_ex ctx key iv = Some ctx1 /\
    EVP_DecryptUpdate ctx1 c (wrap_int (Z.of_nat (length c))) = Some (out1, ctx2) /\
    EVP_DecryptFinal_ex ctx2 = Some out2 /\ out = out1 ++ out2.

(** The library writes more bytes for the ciphertext [c] than there are in it. *)
Definition overruns `{EVPLibrary} (c key iv : bytes) : Prop :=
  exists ctx ctx1 out1 ctx2,
    EVP_DecryptInit_ex ctx key iv = Some ctx1 /\
    EVP_DecryptUpdate ctx1 c (wrap_int (Z.of_nat (length c))) = Some (out1, ctx2) /\
    (length c < length out1 \/ exists out2, EVP_DecryptFinal_ex ctx2 = Some out2 /\
       length c < length out1 + length out2)%nat.

Section laws.
Context `{FileSystem, EVPLibrary}.

Lemma fits_ok n room w : (n <= room)%nat -> fits n room w = (w, Ret tt).
Proof. intros Hn. unfold fits. by rewrite decide_True. Qed.

Lemma encrypt_returns `{!EVPLengths} p file key iv w :
  Z.of_nat (length p) <= int_max ->
  exists w' b, encrypt p file key iv w = (w', Ret b) /\
    (forall other, other <> file -> disk w' !! other = disk w !! other) /\
    (b = true -> exists out, encrypted p key iv out /\ disk w' !! file = Some (stored file out).1).
Proof.
  intros Hlen. unfold encrypt, prog_bind, new_context, tick, prog_bind. cbv zeta.
  destruct (EVP_CIPHER_CTX_new (ticks w)) as [ctx|]; [|by eexists _, _].
  cbn -[fits wrap_int Z.of_nat].
  destruct (EVP_EncryptInit_ex ctx key iv) as [ctx1|] eqn:E1; [|by eexists _, _].
  unfold on_disk, open_out. cbn -[fits wrap_int Z.of_nat].
  destruct (permitted file); [|by eexists _, _]. rewrite wrap_int_id by lia.
  assert (Hother : forall other, other <> file -> (<[file := []]> (disk w)) !! other = disk w !! other)
    by (intros other Hne; by rewrite lookup_insert_ne).
  destruct (EVP_EncryptUpdate ctx1 p _) as [[out1 ctx2]|] eqn:E2; [|by eexists _, _].
  rewrite fits_ok by (by eapply update_length).
  destruct (EVP_EncryptFinal_ex ctx2) as [out2|] eqn:E3; [|by eexists _, _].
  rewrite fits_ok by (by eapply padded_length).
  unfold write_unchecked, write_out, prog_bind. cbn. destruct (stored file (out1 ++ out2)) as [kept ok] eqn:Es. cbn.
  eexists _, _. split; [done|]. split.
  - intros other Hne. cbn. rewrite lookup_insert_ne by done. by apply Hother.
  - intros _. exists (out1 ++ out2). split; [by exists ctx, ctx1, out1, ctx2, out2|]. cbn.
    by rewrite lookup_insert_eq, Es.
Qed.

Lemma decrypt_outcome file q key iv w :
  match decrypt file q key iv w with
  | (w', Ret (true, text)) => disk w' = disk w /\ exists c, disk w !! file = Some c /\
      decrypted c key iv text /\ (length text <= length c)%nat
  | (w', Ret (false, text)) => disk w' = disk w /\ text = q
  | (_, Undef _) => exists c, disk w !! file = Some c /\ overruns c key iv
  | _ => False
  end.
Proof.
  unfold decrypt, prog_bind, on_disk, open_in, prog_gets. cbv zeta.
  destruct (permitted file); [|done]. destruct (disk w !! file) as [c|] eqn:Hf; [|done].
  unfold new_context, tick, prog_bind. cbn -[fits wrap_int Z.of_nat].
  destruct (EVP_CIPHER_CTX_new (ticks w)) as [ctx|]; [|done]. cbn -[fits wrap_int Z.of_nat].
  destruct (EVP_DecryptInit_ex ctx key iv) as [ctx1|] eqn:E1; [|done].
  destruct (EVP_DecryptUpdate ctx1 c _) as [[out1 ctx2]|] eqn:E2; [|done].
  unfold fits. case_decide as L1; cbn -[wrap_int Z.of_nat].
  2:{ exists c. split; [done|]. exists ctx, ctx1, out1, ctx2. split_and!; [done..|]. left. lia. }
  destruct (EVP_DecryptFinal_ex ctx2) as [out2|] eqn:E3; [|done].
  case_decide as L2; cbn -[wrap_int Z.of_nat].
  - split; [done|]. exists c. split; [done|]. split; [by exists ctx, ctx1, out1, ctx2, out2|].
    by rewrite length_app.
  - exists c. split; [done|]. exists ctx, ctx1, out1, ctx2. split_and!; [done..|]. right.
    exists out2. split; [done|lia].
Qed.


End laws.

(** ** A cipher *)

(** Blocks of one byte: the bytes in reverse order, with one byte of padding; a context remembers the
    bytes that are still to come. *)
Module Reverse.

#[export] Instance evp : EVPLibrary :=
  {| Ctx := bytes;
     RAND_bytes t n := (1, replicate n (ascii_of_nat t));
     EVP_CIPHER_CTX_new _ := Some [];
     block_size := 1;
     EVP_EncryptInit_ex _ _ _ := Some [];
     EVP_EncryptUpdate _ p _ := Some (rev p, []);
     EVP_EncryptFinal_ex _ := Some [nul];
     EVP_DecryptInit_ex _ _ _ := Some [];
     EVP_DecryptUpdate _ c _ := Some (take (length c - 1) (rev (take (length c - 1) c)), []);
     EVP_DecryptFinal_ex _ := Some [] |}.

#[export] Instance lengths : EVPLengths.
Proof.
  constructor; cbn.
  - intros _ p out _ [= <- _]. rewrite length_rev. lia.
  - intros _ _ _ p _ out1 _ out2 _ [= <- _] [= <-]. rewrite length_rev. cbn. lia.
Qed.

Definition start : World := MkWorld ∅ 0 0 0.


(** A cipher with blocks of two bytes whose decryption uses the room for one more block that the manual
    asks for: [decrypt] provides only as many bytes as the file has. *)
Definition roomy : EVPLibrary :=
  {| Ctx := bytes;
     RAND_bytes t n := (1, replicate n (ascii_of_nat t));
     EVP_CIPHER_CTX_new _ := Some [];
     block_size := 2;
     EVP_EncryptInit_ex _ _ _ := Some [];
     EVP_EncryptUpdate _ p _ := Some (p, []);
     EVP_EncryptFinal_ex _ := Some [];
     EVP_DecryptInit_ex _ _ _ := Some [];
     EVP_DecryptUpdate _ c _ := Some (c ++ [nul], []);
     EVP_DecryptFinal_ex _ := Some [] |}.

Example decrypt_overruns :
  (decrypt (H := open_disk) (H0 := roomy) "data" [] [] [] (MkWorld {[ "data" := abc ]} 0 0 0)).2 =
    Undef index_out_of_range.
Proof. reflexivity. Qed.

(** A library without a random generator answers -1, which is taken for success. *)
Definition no_random : EVPLibrary :=
  {| Ctx := bytes;
     RAND_bytes _ _ := (-1, []);
     EVP_CIPHER_CTX_new _ := Some [];
     block_size := 1;
     EVP_EncryptInit_ex _ _ _ := Some [];
     EVP_EncryptUpdate _ p _ := Some (rev p, []);
     EVP_EncryptFinal_ex _ := Some [nul];
     EVP_DecryptInit_ex _ _ _ := Some [];
     EVP_DecryptUpdate _ c _ := Some (c, []);
     EVP_DecryptFinal_ex _ := Some [] |}.

Example random_failure_unnoticed :
  (generate_key (H0 := no_random) start).2 = Ret (true, None, None) /\
  (main (H := open_disk) (H0 := no_random) abc start).2 = Undef uninitialised_read.
Proof. done. Qed.

Example main_run_encrypts :
  (main (H := open_disk) abc start).2 = Ret (0, abc).
Proof. vm_compute. done. Qed.

End Reverse.
