(* ===== verification/Arrays.v ===== *)
(** * Fixed-size arrays and the loops over them

    Reads and writes of an array or of a [std::vector] through [operator[]], which are undefined
    outside the bounds, and the element-moving loops of the B-tree code with what they leave in the
    live prefix of the array. *)

From S2P Require Import Prelude.

Definition load {A : Type} (a : list A) (i : nat) : outcome A :=
  match a !! i with
  | Some x => Ret x
  | None => Undef index_out_of_range
  end.

Definition store {A : Type} (a : list A) (i : nat) (x : A) : outcome (list A) :=
  if decide (i < length a) then Ret (<[i := x]> a) else Undef index_out_of_range.

(** [for (j = lo + d - 1; j >= lo; j--) a[j + 1] = a[j];] *)
Fixpoint shift_up {A : Type} (d lo : nat) (a : list A) : outcome (list A) :=
  match d with
  | O => Ret a
  | S d =>
      x ← load a (lo + d);
      a' ← store a (S (lo + d)) x;
      shift_up d lo a'
  end.

(** [for (j = lo; j < lo + d; j++) a[j - 1] = a[j];] *)
Fixpoint shift_down {A : Type} (d lo : nat) (a : list A) : outcome (list A) :=
  match d with
  | O => Ret a
  | S d =>
      x ← load a lo;
      a' ← store a (lo - 1) x;
      shift_down d (S lo) a'
  end.

(** [for (j = 0; j < d; j++) dst[j + doff] = src[j + soff];] from counter [j] on. *)
Fixpoint copy_loop {A : Type} (d j doff soff : nat) (dst src : list A) : outcome (list A) :=
  match d with
  | O => Ret dst
  | S d =>
      x ← load src (j + soff);
      dst' ← store dst (j + doff) x;
      copy_loop d (S j) doff soff dst' src
  end.

Section ArrayLemmas.
Context {A : Type}.
Implicit Types (a dst src l : list A) (x : A).

Lemma load_Ret a i x : a !! i = Some x -> load a i = Ret x.
Proof. intros H. unfold load. by rewrite H. Qed.

Lemma load_inv a i x : load a i = Ret x -> a !! i = Some x.
Proof. unfold load. by destruct (a !! i); intros [= ->]. Qed.

Lemma store_Ret a i x : i < length a -> store a i x = Ret (<[i := x]> a).
Proof. intros H. unfold store. by rewrite decide_True. Qed.

Lemma load_lt a i : i < length a -> exists x, a !! i = Some x /\ load a i = Ret x.
Proof.
  intros [x Hx]%lookup_lt_is_Some_2. exists x. split; [done|]. by apply load_Ret.
Qed.

(** After the right shift every element of the range sits one place up. *)
Lemma shift_up_spec d : forall lo a,
  lo + d < length a -> exists a', shift_up d lo a = Ret a' /\ length a' = length a /\
    forall j, a' !! j = if decide (lo < j <= lo + d) then a !! (j - 1) else a !! j.
Proof.
  induction d as [|d IH]; intros lo a Hlen; simpl.
  - exists a. split; [done|]. split; [done|]. intros j. rewrite decide_False by lia. done.
  - destruct (load_lt a (lo + d)) as (x & Hx & ->); [lia|]. simpl.
    rewrite store_Ret by lia. simpl.
    destruct (IH lo (<[S (lo + d) := x]> a)) as (a' & -> & Hl & Hj).
    { rewrite length_insert. lia. }
    exists a'. split; [done|]. split; [by rewrite Hl, length_insert|].
    intros j. rewrite Hj. destruct (decide (j = S (lo + d))) as [->|Hne].
    + rewrite decide_False by lia. rewrite list_lookup_insert_eq by lia.
      rewrite decide_True by lia. rewrite <-Hx. f_equal. lia.
    + repeat case_decide; try lia; rewrite list_lookup_insert_ne by lia; done.
Qed.

(** Opening a hole at [lo] and filling it: the live prefix gets the new element at [lo]. *)
Lemma insert_at_spec d lo a x :
  lo + d < length a -> exists a1 a2,
    shift_up d lo a = Ret a1 /\ store a1 lo x = Ret a2 /\ length a1 = length a /\
    length a2 = length a /\
    take (S (lo + d)) a2 = take lo a ++ x :: drop lo (take (lo + d) a).
Proof.
  intros Hlen. destruct (shift_up_spec d lo a Hlen) as (a1 & H1 & Hl & Hj).
  exists a1, (<[lo := x]> a1). rewrite store_Ret by lia. rewrite length_insert.
  repeat split; try done. apply list_eq. intros j.
  destruct (decide (j < S (lo + d))) as [Hlt|Hge].
  - rewrite lookup_take_lt by lia. destruct (decide (j < lo)) as [Hjl|Hjl].
    + rewrite list_lookup_insert_ne by lia. rewrite lookup_app_l by (rewrite length_take; lia).
      rewrite Hj, decide_False, lookup_take_lt by lia. done.
    + rewrite lookup_app_r by (rewrite length_take; lia). rewrite length_take.
      replace (lo `min` length a) with lo by lia.
      destruct (decide (j = lo)) as [->|Hne].
      * rewrite list_lookup_insert_eq by lia. by rewrite Nat.sub_diag.
      * rewrite list_lookup_insert_ne, Hj, decide_True by lia.
        replace (j - lo) with (S (j - 1 - lo)) by lia. simpl.
        rewrite lookup_drop, lookup_take_lt by lia. f_equal. lia.
  - rewrite !lookup_ge_None_2; [done|..].
    + rewrite length_app, length_take; simpl. rewrite length_drop, length_take. lia.
    + rewrite length_take. lia.
Qed.

Lemma shift_down_spec d : forall lo a,
  0 < lo -> lo + d <= length a -> exists a', shift_down d lo a = Ret a' /\ length a' = length a /\
    forall j, a' !! j = if decide (lo - 1 <= j < lo - 1 + d) then a !! S j else a !! j.
Proof.
  induction d as [|d IH]; intros lo a Hlo Hlen; simpl.
  - exists a. split; [done|]. split; [done|]. intros j. rewrite decide_False by lia. done.
  - destruct (load_lt a lo) as (x & Hx & ->); [lia|]. simpl.
    rewrite store_Ret by lia. simpl.
    destruct (IH (S lo) (<[lo - 1 := x]> a)) as (a' & -> & Hl & Hj); [lia|..].
    { rewrite length_insert. lia. }
    exists a'. split; [done|]. split; [by rewrite Hl, length_insert|].
    intros j. rewrite Hj. destruct (decide (j = lo - 1)) as [->|Hne].
    + rewrite decide_False by lia. rewrite list_lookup_insert_eq by lia.
      rewrite decide_True by lia. rewrite <-Hx. f_equal. lia.
    + repeat case_decide; try lia; rewrite list_lookup_insert_ne by lia; done.
Qed.

(** Closing the gap left of [lo]: the element at [lo - 1] leaves the live prefix. *)
Lemma remove_at_spec d lo a :
  0 < lo -> lo + d <= length a -> exists a',
    shift_down d lo a = Ret a' /\ length a' = length a /\
    take (lo - 1 + d) a' = take (lo - 1) a ++ drop lo (take (lo + d) a).
Proof.
  intros Hlo Hlen. destruct (shift_down_spec d lo a Hlo Hlen) as (a' & H1 & Hl & Hj).
  exists a'. repeat split; try done. apply list_eq. intros j.
  destruct (decide (j < lo - 1 + d)) as [Hlt|Hge].
  - rewrite lookup_take_lt by lia. rewrite Hj. destruct (decide (j < lo - 1)) as [Hjl|Hjl].
    + rewrite decide_False by lia. rewrite lookup_app_l by (rewrite length_take; lia).
      by rewrite lookup_take_lt by lia.
    + rewrite decide_True by lia. rewrite lookup_app_r by (rewrite length_take; lia).
      rewrite length_take. replace ((lo - 1) `min` length a) with (lo - 1) by lia.
      rewrite lookup_drop, lookup_take_lt by lia. f_equal. lia.
  - rewrite !lookup_ge_None_2; [done|..].
    + rewrite length_app, length_drop, !length_take. lia.
    + rewrite length_take. lia.
Qed.

Lemma copy_loop_spec d : forall j doff soff dst src,
  j + d + soff <= length src -> j + d + doff <= length dst -> exists dst',
    copy_loop d j doff soff dst src = Ret dst' /\ length dst' = length dst /\
    forall i, dst' !! i =
      if decide (j + doff <= i < j + d + doff) then src !! (i - doff + soff) else dst !! i.
Proof.
  induction d as [|d IH]; intros j doff soff dst src Hs Hd; simpl.
  - exists dst. split; [done|]. split; [done|]. intros i. rewrite decide_False by lia. done.
  - destruct (load_lt src (j + soff)) as (x & Hx & ->); [lia|]. simpl.
    rewrite store_Ret by lia. simpl.
    destruct (IH (S j) doff soff (<[j + doff := x]> dst) src) as (dst' & -> & Hl & Hi).
    { lia. } { rewrite length_insert. lia. }
    exists dst'. split; [done|]. split; [by rewrite Hl, length_insert|].
    intros i. rewrite Hi. destruct (decide (i = j + doff)) as [->|Hne].
    + rewrite decide_False by lia. rewrite list_lookup_insert_eq by lia.
      rewrite decide_True by lia. rewrite <-Hx. f_equal. lia.
    + rewrite list_lookup_insert_ne by lia. repeat case_decide; try lia; done.
Qed.

(** Copying into an array from its index [doff] on extends the prefix by the copied range. *)
Lemma copy_spec d doff soff dst src :
  d + soff <= length src -> d + doff <= length dst -> exists dst',
    copy_loop d 0 doff soff dst src = Ret dst' /\ length dst' = length dst /\
    take (doff + d) dst' = take doff dst ++ take d (drop soff src).
Proof.
  intros Hs Hd. destruct (copy_loop_spec d 0 doff soff dst src) as (dst' & Hc & Hl & Hi);
    [lia..|].
  exists dst'. repeat split; try done. apply list_eq. intros i.
  destruct (decide (i < doff + d)) as [Hlt|Hge].
  - rewrite lookup_take_lt by lia. rewrite Hi. destruct (decide (i < doff)) as [Hid|Hid].
    + rewrite decide_False by lia. rewrite lookup_app_l by (rewrite length_take; lia).
      by rewrite lookup_take_lt by lia.
    + rewrite decide_True by lia. rewrite lookup_app_r by (rewrite length_take; lia).
      rewrite length_take. replace (doff `min` length dst) with doff by lia.
      rewrite lookup_take_lt, lookup_drop by lia. f_equal. lia.
  - rewrite !lookup_ge_None_2; [done|..].
    + rewrite length_app, !length_take, length_drop. lia.
    + rewrite length_take. lia.
Qed.
End ArrayLemmas.

#[export] Hint Resolve load_Ret store_Ret : hpdb.
