(* ===== verification/Floats.v ===== *)
(** * [float] and [double]

    IEEE 754 numbers as the sources use them, on the Standard Library's [spec_float]: binary32 for
    [float], binary64 for [double], rounding to nearest.  Comparisons with a NaN are false.  The lemmas
    give the order of the numbers other than NaN, and that sums and products of numbers whose sign is
    positive have a positive sign. *)

From S2P Require Import Prelude.
From Stdlib Require Export SpecFloat.
Local Open Scope Z_scope.

(** ** Operations *)

Abbreviation float := spec_float.
Abbreviation double := spec_float.

(** Comparisons are the same for both widths. *)
Definition flt (x y : spec_float) : bool := SFltb x y.
Definition fle (x y : spec_float) : bool := SFleb x y.

(** [std::min(a, b)] and [std::max(a, b)]. *)
Definition fmin (a b : spec_float) : spec_float := if flt b a then b else a.
Definition fmax (a b : spec_float) : spec_float := if flt a b then b else a.

Definition f32_sub (x y : float) : float := SFsub 24 128 x y.
Definition f32_mul (x y : float) : float := SFmul 24 128 x y.
Definition f32_of_Z (z : Z) : float := binary_normalize 24 128 z 0 false.
(** [std::numeric_limits<float>::max()]. *)
Definition f32_max : float := SFmax_float 24 128.

Definition d_add (x y : double) : double := SFadd 53 1024 x y.
Definition d_mul (x y : double) : double := SFmul 53 1024 x y.
Definition d_div (x y : double) : double := SFdiv 53 1024 x y.
(** The conversion of an integer. *)
Definition d_of_Z (z : Z) : double := binary_normalize 53 1024 z 0 false.
(** A decimal literal [n / d]: the quotient rounded once. *)
Definition d_lit (n d : Z) : double := d_div (d_of_Z n) (d_of_Z d).

Definition not_nan (x : spec_float) : Prop := x <> S754_nan.

#[export] Instance spec_float_eq_dec : EqDecision spec_float.
Proof. solve_decision. Defined.

(** ** The order *)

(** Numbers other than NaN, as triples that are ordered lexicographically. *)
Definition rank (x : spec_float) : Z * Z * Z :=
  match x with
  | S754_zero _ => (0, 0, 0)
  | S754_infinity s => (if s then -2 else 2, 0, 0)
  | S754_nan => (0, 0, 0)
  | S754_finite false m e => (1, e, Zpos m)
  | S754_finite true m e => (-1, - e, Zneg m)
  end.

Definition lex_lt (a b : Z * Z * Z) : Prop :=
  let '(a1, a2, a3) := a in
  let '(b1, b2, b3) := b in
  a1 < b1 \/ (a1 = b1 /\ (a2 < b2 \/ (a2 = b2 /\ a3 < b3))).

Lemma SFcompare_rank x y :
  not_nan x -> not_nan y ->
  match SFcompare x y with
  | Some Lt => lex_lt (rank x) (rank y)
  | Some Eq => rank x = rank y
  | Some Gt => lex_lt (rank y) (rank x)
  | None => False
  end.
Proof.
  destruct x as [sx|sx| |sx mx ex], y as [sy|sy| |sy my ey]; intros Hx Hy; try done;
    destruct sx, sy; cbn; try lia; try done;
    destruct (Z.compare_spec ex ey) as [->|?|?]; try lia;
    change (Pos.compare_cont Eq mx my) with (Pos.compare mx my);
    destruct (Pos.compare_spec mx my) as [->|?|?]; cbn; try lia; done.
Qed.

Lemma flt_rank x y : not_nan x -> not_nan y -> flt x y = true <-> lex_lt (rank x) (rank y).
Proof.
  intros Hx Hy. unfold flt, SFltb. pose proof (SFcompare_rank x y Hx Hy) as H.
  destruct (SFcompare x y) as [[]|]; try done; split; intros H'; try done;
    destruct (rank x) as [[? ?] ?], (rank y) as [[? ?] ?]; simplify_eq/=; lia.
Qed.

Lemma fle_rank x y :
  not_nan x -> not_nan y -> fle x y = true <-> rank x = rank y \/ lex_lt (rank x) (rank y).
Proof.
  intros Hx Hy. unfold fle, SFleb. pose proof (SFcompare_rank x y Hx Hy) as H.
  destruct (SFcompare x y) as [[]|]; try done; split; intros H'; auto; try done;
    destruct (rank x) as [[? ?] ?], (rank y) as [[? ?] ?], H'; simplify_eq/=; lia.
Qed.


Lemma fle_refl x : not_nan x -> fle x x = true.
Proof. intros Hx. rewrite fle_rank by done. by left. Qed.

Lemma rank_le_trans (a b c : Z * Z * Z) :
  a = b \/ lex_lt a b -> b = c \/ lex_lt b c -> a = c \/ lex_lt a c.
Proof.
  destruct a as [[a1 a2] a3], b as [[b1 b2] b3], c as [[c1 c2] c3]; cbn.
  intros [Hab|Hab] [Hbc|Hbc]; simplify_eq; auto; right; lia.
Qed.

Lemma fle_trans x y z :
  not_nan x -> not_nan y -> not_nan z -> fle x y = true -> fle y z = true -> fle x z = true.
Proof. intros Hx Hy Hz. rewrite !fle_rank by done. apply rank_le_trans. Qed.

(** [a < b] is the negation of [b <= a] away from NaN. *)
Lemma flt_fle x y : not_nan x -> not_nan y -> flt x y = negb (fle y x).
Proof.
  intros Hx Hy. apply eq_true_iff_eq. rewrite negb_true_iff, <-not_true_iff_false.
  rewrite (flt_rank x y), (fle_rank y x) by done.
  destruct (rank x) as [[a1 a2] a3], (rank y) as [[b1 b2] b3]; cbn. split.
  - intros H [H'|H']; simplify_eq; lia.
  - intros H. destruct (decide ((b1, b2, b3) = (a1, a2, a3))) as [He|He]; [tauto|].
    assert (~ (b1 = a1 /\ b2 = a2 /\ b3 = a3)) by (intros (-> & -> & ->); done). lia.
Qed.

Lemma flt_le x y : not_nan x -> not_nan y -> flt x y = true -> fle x y = true.
Proof. intros Hx Hy. rewrite flt_rank, fle_rank by done. by right. Qed.

Lemma fmin_not_nan x y : not_nan x -> not_nan y -> not_nan (fmin x y).
Proof. intros. unfold fmin. by destruct (flt y x). Qed.
Lemma fmax_not_nan x y : not_nan x -> not_nan y -> not_nan (fmax x y).
Proof. intros. unfold fmax. by destruct (flt x y). Qed.

Lemma fmin_le x y :
  not_nan x -> not_nan y -> fle (fmin x y) x = true /\ fle (fmin x y) y = true.
Proof.
  intros Hx Hy. unfold fmin. destruct (flt y x) eqn:H.
  - split; [by apply flt_le|by apply fle_refl].
  - split; [by apply fle_refl|]. rewrite flt_fle in H by done. by apply negb_false_iff in H.
Qed.

Lemma fmax_le x y :
  not_nan x -> not_nan y -> fle x (fmax x y) = true /\ fle y (fmax x y) = true.
Proof.
  intros Hx Hy. unfold fmax. destruct (flt x y) eqn:H.
  - split; [by apply flt_le|by apply fle_refl].
  - split; [by apply fle_refl|]. rewrite flt_fle in H by done. by apply negb_false_iff in H.
Qed.

(** ** Signs *)

(** Zero or above, with the sign bit of a positive number; infinity included. *)
Definition nonneg (x : spec_float) : bool :=
  match x with
  | S754_zero s | S754_infinity s | S754_finite s _ _ => negb s
  | S754_nan => false
  end.

(** Neither NaN nor an infinity, and not negative. *)
Definition finite_nonneg (x : spec_float) : bool :=
  match x with
  | S754_zero s | S754_finite s _ _ => negb s
  | _ => false
  end.

Lemma iter_pos_inv {A : Type} (P : A -> Prop) (f : A -> A) :
  (forall a, P a -> P (f a)) -> forall n a, P a -> P (iter_pos f n a).
Proof. intros Hf n. induction n; intros a Ha; cbn; auto. Qed.

Lemma shr_nonneg mrs e n : 0 <= shr_m mrs -> 0 <= shr_m (fst (shr mrs e n)).
Proof.
  intros H. destruct n as [|p|p]; cbn; [done| |done].
  apply (iter_pos_inv (fun r => 0 <= shr_m r)); [|done].
  intros [m r s]. cbn. destruct m as [|[]|[]]; cbn; lia.
Qed.

Lemma round_nonneg mx lx : 0 <= mx -> 0 <= round_nearest_even mx lx.
Proof. intros H. destruct lx as [|[]]; cbn; try lia. by destruct (Z.even mx); lia. Qed.

Lemma shr_record_of_loc_m m l : shr_m (shr_record_of_loc m l) = m.
Proof. by destruct l as [|[]]. Qed.

Lemma binary_round_aux_nonneg prec emax mx ex lx :
  0 <= mx -> nonneg (binary_round_aux prec emax false mx ex lx) = true.
Proof.
  intros H. unfold binary_round_aux, shr_fexp.
  destruct (shr (shr_record_of_loc mx lx) _ _) as [r1 e1] eqn:H1.
  assert (Hr1 : 0 <= shr_m r1).
  { replace r1 with (fst (r1, e1)) by done. rewrite <-H1.
    apply shr_nonneg. by rewrite shr_record_of_loc_m. }
  destruct (shr (shr_record_of_loc (round_nearest_even _ _) _) _ _) as [r2 e2] eqn:H2.
  assert (Hr2 : 0 <= shr_m r2).
  { replace r2 with (fst (r2, e2)) by done. rewrite <-H2.
    apply shr_nonneg. rewrite shr_record_of_loc_m. by apply round_nonneg. }
  destruct (shr_m r2); cbn; [done| |lia]. by destruct (_ <=? _)%Z.
Qed.

Lemma binary_normalize_nonneg prec emax m e :
  0 <= m -> nonneg (binary_normalize prec emax m e false) = true.
Proof.
  intros H. destruct m as [|p|p]; cbn; [done| |lia]. unfold binary_round.
  destruct (shl_align _ _ _) as [mz ez]. by apply binary_round_aux_nonneg.
Qed.

Lemma d_of_Z_nonneg z : 0 <= z -> nonneg (d_of_Z z) = true.
Proof. apply binary_normalize_nonneg. Qed.

Lemma d_add_nonneg x y : nonneg x = true -> nonneg y = true -> nonneg (d_add x y) = true.
Proof.
  destruct x as [[]|[]| |[] mx ex], y as [[]|[]| |[] my ey]; intros Hx Hy; try done.
  apply binary_normalize_nonneg. cbn. lia.
Qed.

(** A product with a number above zero. *)
Lemma d_mul_pos_nonneg x m e : nonneg x = true -> nonneg (d_mul x (S754_finite false m e)) = true.
Proof.
  destruct x as [[]|[]| |[] mx ex]; intros Hx; try done.
  apply binary_round_aux_nonneg. lia.
Qed.

Lemma d_mul_finite_nonneg x y :
  finite_nonneg x = true -> finite_nonneg y = true -> nonneg (d_mul x y) = true.
Proof.
  destruct x as [[]|[]| |[] mx ex], y as [[]|[]| |[] my ey]; intros Hx Hy; try done.
  apply binary_round_aux_nonneg. lia.
Qed.

Lemma d_div_pos_nonneg x m e : nonneg x = true -> nonneg (d_div x (S754_finite false m e)) = true.
Proof.
  destruct x as [[]|[]| |[] mx ex]; intros Hx; try done. cbn.
  destruct (SFdiv_core_binary _ _ _ _ _ _) as [[mz ez] lz] eqn:Hq.
  apply binary_round_aux_nonneg. unfold SFdiv_core_binary in Hq.
  destruct (Z.div_eucl _ _) as [q r] eqn:Hd. injection Hq as <- <- <-.
  match type of Hd with Z.div_eucl ?a ?b = _ => assert (0 <= a / b) as Hdiv end.
  { apply Z.div_pos; [|lia]. destruct (_ - _)%Z eqn:Hs; [lia| |lia].
    apply Z.shiftl_nonneg. lia. }
  unfold Z.div in Hdiv. by rewrite Hd in Hdiv.
Qed.

(** A number above zero that is not infinite, as the constants of the sources. *)
Definition positive (x : spec_float) : bool :=
  match x with
  | S754_finite false _ _ => true
  | _ => false
  end.

Lemma d_mul_nonneg x y : nonneg x = true -> positive y = true -> nonneg (d_mul x y) = true.
Proof. destruct y as [| | |[] m e]; try done. intros Hx _. by apply d_mul_pos_nonneg. Qed.

Lemma d_div_nonneg x y : nonneg x = true -> positive y = true -> nonneg (d_div x y) = true.
Proof. destruct y as [| | |[] m e]; try done. intros Hx _. by apply d_div_pos_nonneg. Qed.


(** ** Integers are exact

    An integer of at most 53 digits is represented exactly, and so is the sum of two of them that has
    no more digits. *)

(** [p] with [n] zeros behind it. *)
Definition shl (n : nat) (p : Pos.t) : Pos.t :=
  Nat.iter n xO p.

Lemma shl_S n p : shl (S n) p = xO (shl n p).
Proof. done. Qed.

Lemma shl_add n m p : shl n (shl m p) = shl (n + m) p.
Proof. unfold shl. by rewrite Nat.iter_add. Qed.

Lemma shl_iter p k : Pos.iter xO p k = shl (Pos.to_nat k) p.
Proof. apply Pos2Nat.inj_iter. Qed.

Lemma shl_sum n p q : (shl n p + shl n q)%positive = shl n (p + q).
Proof.
  induction n as [|n IH]; [done|]. rewrite !shl_S, <-IH. done.
Qed.

Lemma digits_shl n p : Zpos (digits2_pos (shl n p)) = Zpos (digits2_pos p) + Z.of_nat n.
Proof. induction n as [|n IH]; [cbn; lia|]. rewrite shl_S. cbn [digits2_pos]. lia. Qed.

Lemma iter_pos_iter {A : Type} (f : A -> A) n x : iter_pos f n x = Nat.iter (Pos.to_nat n) f x.
Proof.
  revert x. induction n as [n IH|n IH|]; intros x; cbn [iter_pos]; [| |done].
  - rewrite !IH, <-Nat.iter_add. rewrite Pos2Nat.inj_xI.
    replace (S (2 * Pos.to_nat n)) with (Pos.to_nat n + Pos.to_nat n + 1)%nat by lia.
    by rewrite (Nat.iter_add _ 1).
  - rewrite !IH, <-Nat.iter_add. f_equal. lia.
Qed.

Lemma shr_shl j n p s :
  Nat.iter j shr_1 (Build_shr_record (Zpos (shl (j + n) p)) false s) =
  Build_shr_record (Zpos (shl n p)) false s.
Proof.
  revert n. induction j as [|j IH]; intros n; [done|].
  rewrite Nat.iter_succ_r. cbn [Nat.add]. rewrite shl_S. apply IH.
Qed.

(** The double of an integer with at most 53 digits. *)
Definition canon (p : Pos.t) : double :=
  let d := Zpos (digits2_pos p) in S754_finite false (shl (Z.to_nat (53 - d)) p) (d - 53).

(** Rounding drops only zeros. *)
Lemma binary_round_canon n p :
  Zpos (digits2_pos p) <= 53 -> Z.of_nat n <= 1000 ->
  binary_round 53 1024 false (shl n p) (- Z.of_nat n) = canon p.
Proof.
  intros Hd Hn. unfold binary_round, canon. rewrite digits_shl. set (d := Zpos (digits2_pos p)) in *.
  assert (0 < d) by (unfold d; lia).
  assert (Hf : forall k, k = d -> fexp 53 1024 k = d - 53) by (unfold fexp, emin; lia).
  rewrite Hf by lia.
  assert (Hlast : forall mz, mz = shl (Z.to_nat (53 - d)) p ->
    binary_round_aux 53 1024 false (Zpos mz) (d - 53) loc_Exact =
    S754_finite false (shl (Z.to_nat (53 - d)) p) (d - 53)).
  { intros mz ->. unfold binary_round_aux, shr_fexp. cbn [shr_record_of_loc Zdigits2].
    rewrite digits_shl, Hf by lia. rewrite Z.sub_diag.
    cbn [shr shr_m loc_of_shr_record round_nearest_even Zdigits2].
    rewrite digits_shl, Hf by lia. rewrite Z.sub_diag. cbn [shr shr_m shr_record_of_loc].
    by destruct (Z.leb_spec (d - 53) (1024 - 53)); [|lia]. }
  unfold shl_align. destruct (d - 53 - - Z.of_nat n) as [|j|j] eqn:Hj.
  - replace (- Z.of_nat n) with (d - 53) by lia. apply Hlast. f_equal. lia.
  - unfold binary_round_aux at 1, shr_fexp at 1. cbn [shr_record_of_loc Zdigits2].
    rewrite digits_shl, (Hf (d + _ + _)) by lia. rewrite Hj. cbn [shr].
    rewrite iter_pos_iter. assert (Hn' : n = (Pos.to_nat j + Z.to_nat (53 - d))%nat) by lia.
    rewrite Hn' at 1 2. rewrite !shr_shl. cbn [shr_m loc_of_shr_record round_nearest_even].
    replace (- Z.of_nat n + Zpos j) with (d - 53) by lia.
    unfold shr_fexp. cbn [shr_record_of_loc Zdigits2]. rewrite digits_shl, Hf by lia.
    rewrite Z.sub_diag. cbn [shr shr_m]. by destruct (Z.leb_spec (d - 53) (1024 - 53)); [|lia].
  - apply Hlast. rewrite shl_iter, shl_add. f_equal. lia.
Qed.

Lemma digits2_size p : digits2_pos p = Pos.size p.
Proof. induction p; cbn; congruence. Qed.

Lemma digits_lt p k : Zpos p < 2 ^ k -> Zpos (digits2_pos p) <= k.
Proof.
  intros Hp. rewrite digits2_size. pose proof (Pos.size_le p) as Hs.
  assert (Hs' : 2 ^ Zpos (Pos.size p) <= 2 * Zpos p) by (rewrite <-Pos2Z.inj_pow; lia).
  assert (0 <= k) by (destruct (Z.le_gt_cases 0 k); [done|rewrite Z.pow_neg_r in Hp; lia]).
  assert (Hlt : 2 ^ Zpos (Pos.size p) < 2 ^ Z.succ k) by (rewrite Z.pow_succ_r; lia).
  apply (Z.pow_lt_mono_r_iff 2) in Hlt; lia.
Qed.

Lemma d_of_Z_canon p : Zpos p < 2 ^ 53 -> d_of_Z (Zpos p) = canon p.
Proof. intros Hp. apply (binary_round_canon 0 p); [by apply digits_lt|lia]. Qed.

(** An integer of at most 53 bits is not rounded to an infinity. *)
Lemma d_of_Z_finite z : 0 <= z < 2 ^ 53 -> finite_nonneg (d_of_Z z) = true.
Proof. intros [H0 H1]. destruct z; [done|by rewrite d_of_Z_canon|lia]. Qed.

Lemma shl_align_canon p n :
  Zpos (digits2_pos p) <= 53 -> 53 - Zpos (digits2_pos p) <= Z.of_nat n ->
  fst (shl_align (shl (Z.to_nat (53 - Zpos (digits2_pos p))) p) (Zpos (digits2_pos p) - 53)
         (- Z.of_nat n)) = shl n p.
Proof.
  intros Hd Hn. unfold shl_align. set (d := Zpos (digits2_pos p)) in *.
  destruct (- Z.of_nat n - (d - 53)) as [|k|k] eqn:Hk; cbn [fst]; [f_equal; lia|lia|].
  rewrite shl_iter, shl_add. f_equal. lia.
Qed.

(** The sum of two integers whose sum is below [2^53] is exact. *)
Lemma d_add_exact a b :
  0 <= a -> 0 <= b -> a + b < 2 ^ 53 -> d_add (d_of_Z a) (d_of_Z b) = d_of_Z (a + b).
Proof.
  intros Ha Hb Hab. destruct a as [|p|p]; [|destruct b as [|q|q]; [|..]|]; try lia.
  - destruct b as [|q|q]; [done| |lia]. rewrite Z.add_0_l. by rewrite d_of_Z_canon by lia.
  - rewrite Z.add_0_r. by rewrite d_of_Z_canon by lia.
  - pose proof (digits_lt p 53). pose proof (digits_lt q 53). pose proof (digits_lt (p + q) 53).
    change (Zpos p + Zpos q) with (Zpos (p + q)) in *. rewrite !d_of_Z_canon by lia.
    unfold d_add, canon at 1 2, SFadd.
    set (n := Z.to_nat ((53 - Zpos (digits2_pos p)) `max` (53 - Zpos (digits2_pos q)))).
    replace (Z.min _ _) with (- Z.of_nat n) by lia.
    rewrite !shl_align_canon by lia. cbn [cond_Zopp].
    rewrite <-Pos2Z.inj_add, shl_sum.
    apply binary_round_canon; lia.
Qed.
