(* ===== verification/BTreeIndex.v ===== *)
(** * The B-tree index ([indexing/b_tree/b_tree_index.cpp])

    Nodes keep the fixed-size arrays of the code: [2 * MIN_DEGREE - 1] keys of which the first
    [numKeys] are live, and [2 * MIN_DEGREE] child pointers.  A node owns its live children, so a
    child pointer is the child itself; the slots beyond the live ones keep whatever the code leaves
    in them, and nothing below constrains them. *)

From S2P Require Import Prelude Arrays.
Local Open Scope nat_scope.

Definition MIN_DEGREE : nat := 3.

Inductive BTreeNode : Type :=
| MkNode (leaf : bool) (numKeys : nat) (keys : list Z) (children : list (option BTreeNode)).

Definition leaf (x : BTreeNode) : bool := let '(MkNode b _ _ _) := x in b.
Definition numKeys (x : BTreeNode) : nat := let '(MkNode _ n _ _) := x in n.
Definition keys (x : BTreeNode) : list Z := let '(MkNode _ _ ks _) := x in ks.
Definition children (x : BTreeNode) : list (option BTreeNode) := let '(MkNode _ _ _ cs) := x in cs.

Arguments leaf !x /.
Arguments numKeys !x /.
Arguments keys !x /.
Arguments children !x /.

(** [BTreeNode(bool _leaf)]. *)
Definition newNode (b : bool) : BTreeNode :=
  MkNode b 0 (replicate (2 * MIN_DEGREE - 1) 0%Z) (replicate (2 * MIN_DEGREE) None).

(** A call through a child pointer. *)
Definition deref (o : option BTreeNode) : outcome BTreeNode :=
  match o with
  | Some c => Ret c
  | None => Undef null_pointer
  end.

(** [children[i]->...]. *)
Definition child (x : BTreeNode) (i : nat) : outcome BTreeNode :=
  o ← load (children x) i; deref o.

(** ** Traversal and search *)

(** The loop of [traverse] from index [i] on, with [d = numKeys - i]; [visit] is the call on child
    [i], and the loop ends with the call on the last child. *)
Fixpoint traverse_loop (visit : nat -> outcome (list Z)) (ks : list Z) (d i : nat)
    : outcome (list Z) :=
  match d with
  | O => visit i
  | S d =>
      l ← visit i;
      k ← load ks i;
      r ← traverse_loop visit ks d (S i);
      Ret (l ++ k :: r)
  end.

(** The keys [traverse] prints.  The fuel bounds the depth of the recursion. *)
Fixpoint traverse (fuel : nat) (x : BTreeNode) : outcome (list Z) :=
  match fuel with
  | O => Hang
  | S fuel =>
      traverse_loop (fun i => if leaf x then Ret [] else (c ← child x i; traverse fuel c))
        (keys x) (numKeys x) 0
  end.

(** [while (i < numKeys && k > keys[i]) i++;] with [d = numKeys - i]. *)
Fixpoint scan_up (d i : nat) (ks : list Z) (k : Z) : outcome nat :=
  match d with
  | O => Ret i
  | S d =>
      x ← load ks i;
      if (k >? x)%Z then scan_up d (S i) ks k else Ret i
  end.

(** The node that [search] returns, [None] for a null pointer. *)
Fixpoint search_node (fuel : nat) (k : Z) (x : BTreeNode) : outcome (option BTreeNode) :=
  match fuel with
  | O => Hang
  | S fuel =>
      i ← scan_up (numKeys x) 0 (keys x) k;
      found ← (if decide (i < numKeys x)
               then y ← load (keys x) i; Ret (y =? k)%Z
               else Ret false);
      if (found : bool) then Ret (Some x)
      else if leaf x then Ret None
      else (c ← child x i; search_node fuel k c)
  end.

(** ** Insertion *)

(** The loop of [insertNonFull] on a leaf, with [d = i + 1]: keys larger than [k] move up, then [k]
    is stored in the gap. *)
Fixpoint insert_key (d : nat) (ks : list Z) (k : Z) : outcome (list Z) :=
  match d with
  | O => store ks 0 k
  | S i =>
      x ← load ks i;
      if (x >? k)%Z
      then (ks' ← store ks (S i) x; insert_key i ks' k)
      else store ks (S i) k
  end.

(** [while (i >= 0 && keys[i] > k) i--;] with [d = i + 1]; the result is the final [i + 1]. *)
Fixpoint scan_down (d : nat) (ks : list Z) (k : Z) : outcome nat :=
  match d with
  | O => Ret 0
  | S i =>
      x ← load ks i;
      if (x >? k)%Z then scan_down i ks k else Ret (S i)
  end.

(** [splitChild(i, y)] on node [x], where [y] is the object [children[i]] points to. *)
Definition splitChild (i : nat) (y x : BTreeNode) : outcome BTreeNode :=
  let z := newNode (leaf y) in
  zks ← copy_loop (MIN_DEGREE - 1) 0 0 MIN_DEGREE (keys z) (keys y);
  zcs ← (if leaf y then Ret (children z)
         else copy_loop MIN_DEGREE 0 0 MIN_DEGREE (children z) (children y));
  let z' := MkNode (leaf y) (MIN_DEGREE - 1) zks zcs in
  let y' := MkNode (leaf y) (MIN_DEGREE - 1) (keys y) (children y) in
  cs0 ← store (children x) i (Some y');
  cs1 ← shift_up (numKeys x - i) (S i) cs0;
  cs2 ← store cs1 (S i) (Some z');
  ks1 ← shift_up (numKeys x - i) i (keys x);
  m ← load (keys y) (MIN_DEGREE - 1);
  ks2 ← store ks1 i m;
  Ret (MkNode (leaf x) (S (numKeys x)) ks2 cs2).

Fixpoint insertNonFull (fuel : nat) (k : Z) (x : BTreeNode) : outcome BTreeNode :=
  match fuel with
  | O => Hang
  | S fuel =>
      if leaf x then
        ks ← insert_key (numKeys x) (keys x) k;
        Ret (MkNode true (S (numKeys x)) ks (children x))
      else
        i ← scan_down (numKeys x) (keys x) k;
        c ← child x i;
        '(x', i') ← (if decide (numKeys c = 2 * MIN_DEGREE - 1)
                     then x' ← splitChild i c x;
                          m ← load (keys x') i;
                          Ret (x', if (m <? k)%Z then S i else i)
                     else Ret (x, i));
        c' ← child x' i';
        c'' ← insertNonFull fuel k c';
        cs ← store (children x') i' (Some c'');
        Ret (MkNode (leaf x') (numKeys x') (keys x') cs)
  end.

(** ** The tree *)

Definition BTree : Type := option BTreeNode.

(** The number of levels below a node, over every pointer it holds: the fuel of the recursions. *)
Fixpoint depth (x : BTreeNode) : nat :=
  match x with
  | MkNode _ _ _ cs =>
      S (max_list (List.map (fun o => match o with Some c => depth c | None => 0 end) cs))
  end.

Definition insert (k : Z) (t : BTree) : outcome BTree :=
  match t with
  | None =>
      let x := newNode true in
      ks ← store (keys x) 0 k;
      Ret (Some (MkNode true 1 ks (children x)))
  | Some root =>
      if decide (numKeys root = 2 * MIN_DEGREE - 1) then
        let s := newNode false in
        cs ← store (children s) 0 (Some root);
        s1 ← splitChild 0 root (MkNode false 0 (keys s) cs);
        m ← load (keys s1) 0;
        let i := if (m <? k)%Z then 1 else 0 in
        c ← child s1 i;
        c' ← insertNonFull (depth c) k c;
        cs' ← store (children s1) i (Some c');
        Ret (Some (MkNode (leaf s1) (numKeys s1) (keys s1) cs'))
      else
        x ← insertNonFull (depth root) k root;
        Ret (Some x)
  end.

Definition search (k : Z) (t : BTree) : outcome (option BTreeNode) :=
  match t with
  | None => Ret None
  | Some root => search_node (depth root) k root
  end.

Definition traverse_tree (t : BTree) : outcome (list Z) :=
  match t with
  | None => Ret []
  | Some root => traverse (depth root) root
  end.

Fixpoint insert_all (ks : list Z) (t : BTree) : outcome BTree :=
  match ks with
  | [] => Ret t
  | k :: ks => t' ← insert k t; insert_all ks t'
  end.

(** The insertions of [main] and the traversal it prints. *)
Example main_traversal :
  (t ← insert_all [10; 20; 5; 6; 12; 30; 7; 17]%Z None; traverse_tree t) =
  Ret [5; 6; 7; 10; 12; 17; 20; 30]%Z.
Proof. vm_compute. reflexivity. Qed.

(** ** The tree invariant *)

Definition live_keys (x : BTreeNode) : list Z := take (numKeys x) (keys x).
Definition live_kids (x : BTreeNode) : list (option BTreeNode) :=
  take (S (numKeys x)) (children x).

(** The arrays have the size the constructor gave them and the counter stays inside them. *)
Definition shape (x : BTreeNode) : Prop :=
  length (keys x) = 2 * MIN_DEGREE - 1 /\ length (children x) = 2 * MIN_DEGREE /\
  numKeys x <= 2 * MIN_DEGREE - 1.

(** In-order concatenation of the contents of the children around the keys. *)
Fixpoint weave (ls : list (list Z)) (ks : list Z) : list Z :=
  match ls, ks with
  | l :: ls, k :: ks => l ++ k :: weave ls ks
  | l :: _, [] => l
  | [], _ => []
  end.

(** What comes before a child, and what comes after it. *)
Definition wpre (ls : list (list Z)) (ks : list Z) : list Z :=
  concat (zip_with (fun l k => l ++ [k]) ls ks).
Definition wpost (ks : list Z) (ls : list (list Z)) : list Z :=
  concat (zip_with (fun k l => k :: l) ks ls).

(** [tree_of h x l]: [x] is the root of a subtree in which every leaf is [h] levels down, every
    node below the root holds at least [MIN_DEGREE - 1] keys, and the contents in order are [l]. *)
Fixpoint tree_of (h : nat) (x : BTreeNode) (l : list Z) : Prop :=
  shape x /\
  match h with
  | O => leaf x = true /\ l = live_keys x
  | S h => leaf x = false /\ exists cs ls,
      live_kids x = Some <$> cs /\
      Forall2 (fun c lc => tree_of h c lc /\ MIN_DEGREE - 1 <= numKeys c) cs ls /\
      l = weave ls (live_keys x)
  end.

Abbreviation sorted := (StronglySorted Z.le).

(** A tree is empty, or its root has a key, its shape is right and its contents are sorted. *)
Definition btree_inv (t : BTree) (l : list Z) : Prop :=
  match t with
  | None => l = []
  | Some x => exists h, tree_of h x l /\ 1 <= numKeys x /\ sorted l
  end.

(** [l'] is [l] with [k] inserted at a place its order allows. *)
Definition ins_at (k : Z) (l l' : list Z) : Prop :=
  exists l1 l2, l = l1 ++ l2 /\ l' = l1 ++ k :: l2 /\
    Forall (fun y => y <= k)%Z l1 /\ Forall (fun y => k <= y)%Z l2.

(** ** Lists *)

Lemma ins_at_ctx k p q l l' :
  Forall (fun y => y <= k)%Z p -> Forall (fun y => k <= y)%Z q ->
  ins_at k l l' -> ins_at k (p ++ l ++ q) (p ++ l' ++ q).
Proof.
  intros Hp Hq (l1 & l2 & -> & -> & H1 & H2). exists (p ++ l1), (l2 ++ q).
  rewrite <-!app_assoc. repeat split; try done; by apply Forall_app.
Qed.

Lemma ins_at_perm k l l' : ins_at k l l' -> l' ≡ₚ k :: l.
Proof. intros (l1 & l2 & -> & -> & _). by rewrite Permutation_middle. Qed.

Lemma sorted_app_inv (l1 l2 : list Z) :
  sorted (l1 ++ l2) -> sorted l1 /\ sorted l2 /\ forall x y, x ∈ l1 -> y ∈ l2 -> (x <= y)%Z.
Proof.
  intros Hs. split; [by eapply StronglySorted_app_1_l|].
  split; [by eapply StronglySorted_app_1_r|].
  intros x y Hx Hy. by eapply StronglySorted_app_1_elem_of.
Qed.

Lemma sorted_app (l1 l2 : list Z) :
  sorted l1 -> sorted l2 -> (forall x y, x ∈ l1 -> y ∈ l2 -> (x <= y)%Z) -> sorted (l1 ++ l2).
Proof. intros H1 H2 H. by apply StronglySorted_app_2. Qed.

Lemma sorted_lookup (l : list Z) i j x y :
  sorted l -> i < j -> l !! i = Some x -> l !! j = Some y -> (x <= y)%Z.
Proof.
  intros Hs Hij Hx Hy. rewrite <-(take_drop j l) in Hs.
  apply sorted_app_inv in Hs as (_ & _ & Hle). apply Hle.
  - apply list_elem_of_lookup_2 with i. by rewrite lookup_take_lt.
  - apply list_elem_of_lookup_2 with 0. rewrite lookup_drop. by replace (j + 0) with j by lia.
Qed.

Lemma ins_at_sorted k l l' : sorted l -> ins_at k l l' -> sorted l'.
Proof.
  intros Hs (l1 & l2 & -> & -> & H1 & H2).
  apply sorted_app_inv in Hs as (Hs1 & Hs2 & Hle).
  apply sorted_app; [done|by constructor|].
  intros x y Hx Hy. rewrite Forall_forall in H1, H2.
  apply elem_of_cons in Hy as [->|Hy]; auto.
Qed.

Lemma weave_split ls1 lc ls2 ks1 ks2 :
  length ls1 = length ks1 -> length ls2 = length ks2 ->
  weave (ls1 ++ lc :: ls2) (ks1 ++ ks2) = wpre ls1 ks1 ++ lc ++ wpost ks2 ls2.
Proof.
  revert ks1. induction ls1 as [|l ls1 IH]; intros [|k ks1] H1 H2; simplify_eq/=.
  - revert lc ks2 H2. induction ls2 as [|l ls2 IH]; intros lc [|k ks2] H2; simplify_eq/=.
    + unfold wpost. simpl. by rewrite app_nil_r.
    + rewrite IH by done. done.
  - rewrite IH by done. unfold wpre. simpl. rewrite <-!app_assoc. done.
Qed.

Lemma wpre_snoc ls l ks m :
  length ls = length ks -> wpre (ls ++ [l]) (ks ++ [m]) = wpre ls ks ++ l ++ [m].
Proof.
  intros Hl. unfold wpre. rewrite zip_with_app by done. rewrite concat_app. simpl.
  by rewrite app_nil_r.
Qed.

Lemma wpre_bound ls ks rest k :
  length ls = length ks -> sorted (wpre ls ks ++ rest) ->
  (forall m, last ks = Some m -> m <= k)%Z -> Forall (fun y => y <= k)%Z (wpre ls ks).
Proof.
  intros Hl Hs Hm. destruct (snoc_inv ks) as [->|(ks' & m & ->)].
  - destruct ls; [|done]. constructor.
  - destruct (snoc_inv ls) as [->|(ls' & l & ->)]; [rewrite length_app in Hl; simpl in Hl; lia|].
    rewrite !length_app in Hl; simpl in Hl. rewrite wpre_snoc in * by lia.
    apply sorted_app_inv in Hs as (Hs & _). rewrite app_assoc in *.
    apply sorted_app_inv in Hs as (_ & _ & Hle).
    assert (Hmk : (m <= k)%Z) by (apply Hm; by rewrite last_snoc).
    apply Forall_app. split; [|by constructor]. apply Forall_forall. intros y Hy.
    specialize (Hle y m Hy). transitivity m; [apply Hle; left|done].
Qed.

Lemma wpost_bound pre ks ls k :
  sorted (pre ++ wpost ks ls) ->
  (forall m, head ks = Some m -> k <= m)%Z -> Forall (fun y => k <= y)%Z (wpost ks ls).
Proof.
  intros Hs Hm. apply sorted_app_inv in Hs as (_ & Hs & _).
  destruct ks as [|m ks], ls as [|l ls]; try by constructor. unfold wpost in *; simpl in *.
  assert (Hmk : (k <= m)%Z) by auto. inversion Hs as [|? ? Hs' Hall]; subst.
  constructor; [done|]. eapply Forall_impl; [exact Hall|]. simpl. lia.
Qed.

(** ** The loops *)

Lemma scan_down_spec d ks k :
  d <= length ks -> exists j, scan_down d ks k = Ret j /\ j <= d /\
    (forall x, last (take j ks) = Some x -> x <= k)%Z /\
    (forall x, head (drop j (take d ks)) = Some x -> k <= x)%Z.
Proof.
  induction d as [|d IH]; intros Hd; simpl.
  - exists 0. repeat split; try done; lia.
  - destruct (load_lt ks d) as (x & Hx & ->); [lia|]. simpl.
    destruct (x >? k)%Z eqn:Hgt.
    + destruct IH as (j & -> & Hj & Hle & Hge); [lia|]. exists j. repeat split; try done; [lia|].
      intros y. destruct (decide (j = d)) as [->|Hne].
      * rewrite (take_S_r _ _ x) by done. rewrite drop_app_ge by (rewrite length_take; lia).
        rewrite length_take. replace (d - d `min` length ks) with 0 by lia. simpl.
        intros [= <-]. apply Z.gtb_lt in Hgt. lia.
      * rewrite (take_S_r _ _ x) by done. rewrite drop_app_le by (rewrite length_take; lia).
        intros Hy. apply Hge. destruct (drop j (take d ks)) as [|z zs] eqn:Hz; [|done].
        apply (f_equal length) in Hz. rewrite length_drop, length_take in Hz. simpl in Hz. lia.
    + exists (S d). repeat split; try done.
      * intros y. rewrite (take_S_r _ _ x), last_snoc by done. intros [= <-].
        rewrite Z.gtb_ltb in Hgt. apply Z.ltb_ge in Hgt. done.
      * intros y. rewrite drop_ge by (rewrite length_take; lia). done.
Qed.

(** The leaf loop opens a hole where [scan_down] stops, and fills it. *)
Lemma insert_key_shift d : forall ks k,
  d < length ks -> exists j a1 a2,
    scan_down d ks k = Ret j /\ insert_key d ks k = Ret a2 /\ j <= d /\
    shift_up (d - j) j ks = Ret a1 /\ store a1 j k = Ret a2.
Proof.
  induction d as [|d IH]; intros ks k Hd; simpl.
  - exists 0, ks, (<[0 := k]> ks). by rewrite store_Ret.
  - destruct (load_lt ks d) as (x & Hx & Hload); [lia|]. rewrite Hload; simpl.
    destruct (x >? k)%Z eqn:Hgt.
    + rewrite store_Ret by lia; simpl.
      destruct (IH (<[S d := x]> ks) k) as (j & a1 & a2 & Hs & Hi & Hj & Hsh & Hst).
      { rewrite length_insert. lia. }
      assert (Hscan : forall e, e <= d -> scan_down e (<[S d := x]> ks) k = scan_down e ks k).
      { clear -Hx. induction e as [|e IHe]; intros He; simpl; [done|].
        unfold load. rewrite list_lookup_insert_ne by lia. destruct (ks !! e); [|done]. simpl.
        by rewrite IHe by lia. }
      rewrite Hscan in Hs by lia. exists j, a1, a2. repeat split; try done; [lia|].
      replace (S d - j) with (S (d - j)) by lia.
      simpl. replace (j + (d - j)) with d by lia. rewrite Hload; simpl.
      by rewrite store_Ret by lia.
    + exists (S d), ks, (<[S d := k]> ks). rewrite Nat.sub_diag. by rewrite store_Ret by lia.
Qed.

Lemma insert_key_spec d ks k :
  d < length ks -> exists a j, insert_key d ks k = Ret a /\ length a = length ks /\ j <= d /\
    take (S d) a = take j ks ++ k :: drop j (take d ks) /\
    (forall x, last (take j ks) = Some x -> x <= k)%Z /\
    (forall x, head (drop j (take d ks)) = Some x -> k <= x)%Z.
Proof.
  intros Hd. destruct (insert_key_shift d ks k Hd) as (j & a1 & a2 & Hs & Hi & Hj & Hsh & Hst).
  destruct (scan_down_spec d ks k) as (j' & Hs' & _ & Hle & Hge); [lia|].
  rewrite Hs in Hs'. injection Hs' as <-.
  destruct (insert_at_spec (d - j) j ks k) as (b1 & b2 & Hb1 & Hb2 & _ & Hlen & Htake); [lia|].
  replace (j + (d - j)) with d in Htake by lia.
  rewrite Hsh in Hb1. injection Hb1 as <-. rewrite Hst in Hb2. injection Hb2 as <-.
  by exists a2, j.
Qed.

(** A sorted list split where the scan stops. *)
Lemma ins_at_split (l : list Z) j k :
  sorted l -> (forall x, last (take j l) = Some x -> x <= k)%Z ->
  (forall x, head (drop j l) = Some x -> k <= x)%Z ->
  ins_at k l (take j l ++ k :: drop j l).
Proof.
  intros Hs Hle Hge. exists (take j l), (drop j l).
  rewrite take_drop. repeat split; try done; rewrite <-(take_drop j l) in Hs.
  - apply sorted_app_inv in Hs as (Hs & _). destruct (snoc_inv (take j l)) as [->|(l' & x & Hl)];
      [constructor|]. rewrite Hl in *. specialize (Hle x). rewrite last_snoc in Hle.
    apply Forall_app. split; [|constructor; auto]. apply sorted_app_inv in Hs as (_ & _ & Hx).
    apply Forall_forall. intros y Hy. transitivity x; [apply Hx; [done|left]|auto].
  - apply sorted_app_inv in Hs as (_ & Hs & _). destruct (drop j l) as [|x l']; [constructor|].
    inversion Hs; subst. constructor; [auto|]. eapply Forall_impl; [done|]. simpl.
    intros y Hy. transitivity x; auto.
Qed.

(** ** Views of an internal node *)

(** A node whose arrays hold [ks], [cs], with contents [ls] below. *)
Definition inode (h : nat) (x : BTreeNode) (ks : list Z) (cs : list BTreeNode)
    (ls : list (list Z)) : Prop :=
  shape x /\ leaf x = false /\ live_keys x = ks /\ live_kids x = Some <$> cs /\
  Forall2 (fun c lc => tree_of h c lc /\ MIN_DEGREE - 1 <= numKeys c) cs ls.

Lemma inode_tree h x ks cs ls : inode h x ks cs ls -> tree_of (S h) x (weave ls ks).
Proof. intros (Hsh & Hl & <- & Hk & Hf). split; [done|]. split; [done|]. eauto. Qed.

Lemma tree_inode h x l :
  tree_of (S h) x l -> exists cs ls, inode h x (live_keys x) cs ls /\ l = weave ls (live_keys x).
Proof.
  intros (Hsh & Hl & cs & ls & Hk & Hf & ->). exists cs, ls. done.
Qed.

Lemma tree_shape h x l : tree_of h x l -> shape x.
Proof. destruct h; by intros [? _]. Qed.

Lemma inode_lengths h x ks cs ls :
  inode h x ks cs ls ->
  length ks = numKeys x /\ length cs = S (numKeys x) /\ length ls = S (numKeys x).
Proof.
  intros (Hsh & _ & Hk & Hc & Hf). destruct Hsh as (Hlk & Hlc & Hn). unfold MIN_DEGREE in *.
  apply (f_equal length) in Hk, Hc. unfold live_keys, live_kids in *.
  rewrite length_take in Hk. rewrite length_take, length_fmap in Hc.
  apply Forall2_length in Hf. lia.
Qed.

Lemma inode_child h x ks cs ls i c :
  inode h x ks cs ls -> cs !! i = Some c -> child x i = Ret c.
Proof.
  intros Hin Hi. pose proof (inode_lengths _ _ _ _ _ Hin) as (_ & Hlc & _).
  destruct Hin as (_ & _ & _ & Hc & _). unfold child.
  assert (Hx : children x !! i = Some (Some c)).
  { pose proof (lookup_lt_Some _ _ _ Hi). rewrite <-(lookup_take_lt _ (S (numKeys x))) by lia.
    change (live_kids x !! i = Some (Some c)). rewrite Hc, list_lookup_fmap, Hi. done. }
  by rewrite (load_Ret _ _ _ Hx).
Qed.

(** Splitting the three lists of a node at child [i]. *)
Lemma weave_at ls ks i lc :
  length ls = S (length ks) -> ls !! i = Some lc -> i <= length ks ->
  weave ls ks = wpre (take i ls) (take i ks) ++ lc ++ wpost (drop i ks) (drop (S i) ls).
Proof.
  intros Hl Hi Hle. rewrite <-(take_drop_middle ls i lc) at 1 by done.
  rewrite <-(take_drop i ks) at 1. apply weave_split.
  - rewrite !length_take. lia.
  - rewrite !length_drop. lia.
Qed.

(** Replacing a child in place. *)
Lemma inode_replace h x ks cs ls i c' lc' :
  inode h x ks cs ls -> i < length cs -> tree_of h c' lc' -> MIN_DEGREE - 1 <= numKeys c' ->
  exists kids, store (children x) i (Some c') = Ret kids /\
    inode h (MkNode (leaf x) (numKeys x) (keys x) kids) ks (<[i := c']> cs) (<[i := lc']> ls).
Proof.
  intros Hin Hi Ht Hn. pose proof (inode_lengths _ _ _ _ _ Hin) as (_ & Hlc & _).
  destruct Hin as (Hsh & Hl & Hk & Hc & Hf). pose proof Hsh as (Hlk & Hlch & Hnk).
  unfold MIN_DEGREE in *. exists (<[i := Some c']> (children x)).
  rewrite store_Ret by lia. split; [done|]. split; [|split; [done|split; [done|split]]].
  - split; [done|]. simpl. by rewrite length_insert.
  - unfold live_kids in *. cbn [numKeys children].
    rewrite take_insert_lt by lia. rewrite Hc, list_fmap_insert. done.
  - by apply Forall2_insert.
Qed.

(** ** Splitting a full child *)

(** The two halves of a full node: the copied right half, and the old node with its counter cut
    down to [MIN_DEGREE - 1]. *)
Lemma split_halves h c lc :
  tree_of h c lc -> numKeys c = 2 * MIN_DEGREE - 1 ->
  exists zks zcs m ly lz,
    copy_loop (MIN_DEGREE - 1) 0 0 MIN_DEGREE (keys (newNode (leaf c))) (keys c) = Ret zks /\
    (if leaf c then Ret (children (newNode (leaf c)))
     else copy_loop MIN_DEGREE 0 0 MIN_DEGREE (children (newNode (leaf c))) (children c))
      = Ret zcs /\
    load (keys c) (MIN_DEGREE - 1) = Ret m /\ lc = ly ++ m :: lz /\
    tree_of h (MkNode (leaf c) (MIN_DEGREE - 1) (keys c) (children c)) ly /\
    tree_of h (MkNode (leaf c) (MIN_DEGREE - 1) zks zcs) lz.
Proof.
  intros Ht Hn. pose proof (tree_shape _ _ _ Ht) as (Hk & Hc & _).
  unfold MIN_DEGREE in *; cbn [Nat.mul Nat.add Nat.sub] in *.
  destruct (copy_spec 2 0 3 (keys (newNode (leaf c))) (keys c)) as (zks & Hz & Hzl & Hzt);
    [simpl; lia..|]. rewrite take_0 in Hzt; simpl in Hzl, Hzt.
  assert (exists k0 k1 k2 k3 k4, keys c = [k0; k1; k2; k3; k4]) as (k0 & k1 & k2 & k3 & k4 & HK5).
  { destruct (keys c) as [|? [|? [|? [|? [|? [|]]]]]]; try discriminate Hk. eauto 6. }
  destruct h as [|h].
  - destruct Ht as (_ & Hl & ->). rewrite Hl. unfold live_keys. rewrite Hn, HK5. simpl.
    exists zks, (replicate 6 None), k2, [k0; k1], [k3; k4].
    rewrite Hl, HK5 in Hz. repeat split; simpl; try (done || lia).
    unfold live_keys; simpl. by rewrite Hzt, HK5.
  - apply tree_inode in Ht as (cs & ls & Hin & ->).
    pose proof (inode_lengths _ _ _ _ _ Hin) as (_ & Hlc & Hll).
    destruct Hin as (_ & Hl & _ & Hkids & Hf). rewrite Hl in *.
    destruct (copy_spec 3 0 3 (children (newNode false)) (children c)) as (zcs & Hzc & Hzcl & Hzct);
      [simpl; lia..|]. rewrite take_0 in Hzct; simpl in Hzcl, Hzct.
    unfold live_kids in Hkids. rewrite Hn, take_ge in Hkids by lia. rewrite Hn in *.
    destruct cs as [|c0 [|c1 [|c2 [|c3 [|c4 [|c5 [|]]]]]]]; try discriminate Hlc.
    destruct ls as [|l0 [|l1 [|l2 [|l3 [|l4 [|l5 [|]]]]]]]; try discriminate Hll.
    exists zks, zcs, k2, (l0 ++ k0 :: l1 ++ k1 :: l2), (l3 ++ k3 :: l4 ++ k4 :: l5).
    split; [done|]. split; [done|]. split; [by rewrite HK5|].
    unfold live_keys. rewrite Hn, HK5. simpl. split; [by rewrite <-!app_assoc; simpl; rewrite <-!app_assoc|].
    rewrite !Forall2_cons in Hf. destruct Hf as (T0 & T1 & T2 & T3 & T4 & T5 & _).
    split; (split; [repeat split; simpl; (done || lia)|]); (split; [done|]).
    + exists [c0; c1; c2], [l0; l1; l2]. unfold live_kids, live_keys; simpl.
      rewrite Hkids, ?HK5. split; [done|]. split; [by rewrite !Forall2_cons|done].
    + exists [c3; c4; c5], [l3; l4; l5]. unfold live_kids, live_keys; simpl.
      rewrite Hzct, Hkids, Hzt, ?HK5. split; [done|]. split; [by rewrite !Forall2_cons|done].
Qed.

Lemma take_S_insert {A : Type} (l : list A) i y :
  i < length l -> take (S i) (<[i := y]> l) = take i l ++ [y].
Proof.
  intros Hi. rewrite (take_S_r _ _ y) by (by apply list_lookup_insert_eq).
  by rewrite take_insert_ge by lia.
Qed.

(** [splitChild] moves the median of the child up and leaves the contents as they were. *)
Lemma splitChild_ok h x ks cs ls i c lc :
  inode h x ks cs ls -> cs !! i = Some c -> ls !! i = Some lc ->
  numKeys c = 2 * MIN_DEGREE - 1 -> numKeys x < 2 * MIN_DEGREE - 1 ->
  exists x' y z m ly lz,
    splitChild i c x = Ret x' /\ lc = ly ++ m :: lz /\ numKeys x' = S (numKeys x) /\
    numKeys y = MIN_DEGREE - 1 /\ numKeys z = MIN_DEGREE - 1 /\ load (keys x') i = Ret m /\
    inode h x' (take i ks ++ m :: drop i ks) (take i cs ++ y :: z :: drop (S i) cs)
      (take i ls ++ ly :: lz :: drop (S i) ls).
Proof.
  intros Hin Hi Hli Hc Hx. pose proof (inode_lengths _ _ _ _ _ Hin) as (Hlk & Hlc & Hll).
  pose proof Hin as (Hsh & Hl & Hk & Hkids & Hf). pose proof Hsh as (HK & HC & _).
  pose proof (lookup_lt_Some _ _ _ Hi) as Hilt.
  destruct (Forall2_lookup_lr _ _ _ _ _ _ Hf Hi Hli) as [Htc _].
  destruct (split_halves h c lc Htc Hc) as (zks & zcs & m & ly & lz & Hz & Hzc & Hm & Hlceq & Ty & Tz).
  set (y := MkNode (leaf c) (MIN_DEGREE - 1) (keys c) (children c)) in *.
  set (z := MkNode (leaf c) (MIN_DEGREE - 1) zks zcs) in *.
  set (n := numKeys x) in *. unfold MIN_DEGREE in *; cbn [Nat.mul Nat.add Nat.sub] in *.
  destruct (insert_at_spec (n - i) (S i) (<[i := Some y]> (children x)) (Some z))
    as (a1 & a2 & Ha1 & Ha2 & _ & Hal & Hat); [rewrite length_insert; lia|].
  destruct (insert_at_spec (n - i) i (keys x) m) as (b1 & b2 & Hb1 & Hb2 & _ & Hbl & Hbt); [lia|].
  exists (MkNode (leaf x) (S n) b2 a2), y, z, m, ly, lz.
  split.
  { unfold splitChild, MIN_DEGREE; cbn [Nat.sub]. run_with Hz. run_with Hzc.
    fold y z. rewrite store_Ret by lia. obind. fold n.
    run_with Ha1. run_with Ha2. run_with Hb1. run_with Hm. by run_with Hb2. }
  replace (S i + (n - i)) with (S n) in Hat by lia. replace (i + (n - i)) with n in Hbt by lia.
  assert (Hkeys : take (S n) b2 = take i ks ++ m :: drop i ks).
  { rewrite Hbt. unfold live_keys in Hk. fold n in Hk. rewrite <-Hk at 2. f_equal.
    rewrite <-Hk, take_take. f_equal. lia. }
  split; [done|]. do 3 (split; [done|]). split.
  { apply load_Ret. cbn [keys]. rewrite <-(lookup_take_lt _ (S n)), Hkeys by lia.
    rewrite lookup_app_r by (rewrite length_take; lia). rewrite length_take.
    by replace (i - i `min` length ks) with 0 by lia. }
  split; [|split; [done|split; [done|split]]].
  - split; [simpl; lia|]. rewrite length_insert in Hal. simpl; lia.
  - unfold live_kids. cbn [numKeys children]. rewrite Hat.
    assert (Hcs : take (S n) (<[i := Some y]> (children x)) = Some <$> <[i := y]> cs).
    { rewrite take_insert_lt by lia. unfold live_kids in Hkids. fold n in Hkids.
      by rewrite Hkids, list_fmap_insert. }
    rewrite Hcs. replace (S i) with (S i `min` S n) at 1 by lia.
    rewrite <-take_take, Hcs, <-fmap_take, <-fmap_drop, take_S_insert by lia.
    rewrite drop_insert_lt by lia. rewrite !fmap_app, !fmap_cons, <-app_assoc. done.
  - apply Forall2_app; [by apply Forall2_take|]. constructor; [split; [done|simpl; lia]|].
    constructor; [split; [done|simpl; lia]|]. by apply Forall2_drop.
Qed.

(** ** Insertion into a subtree *)

(** What [insertNonFull] does below a node of height [h]. *)
Definition insert_ok (h : nat) : Prop := forall fuel k x l,
  tree_of h x l -> sorted l -> numKeys x < 2 * MIN_DEGREE - 1 -> h < fuel ->
  exists x' l', insertNonFull fuel k x = Ret x' /\ tree_of h x' l' /\ ins_at k l l' /\
    numKeys x <= numKeys x'.

Lemma insert_leaf_ok : insert_ok 0.
Proof.
  intros [|fuel] k x l (Hsh & Hl & ->) Hs Hn Hf; [lia|]. pose proof Hsh as (HK & HC & _).
  destruct (insert_key_spec (numKeys x) (keys x) k) as (a & j & Ha & Hlen & Hj & Ht & Hle & Hge);
    [lia|].
  simpl. rewrite Hl. run_with Ha.
  eexists _, (live_keys (MkNode true (S (numKeys x)) a (children x))). split; [done|].
  split; [split; [repeat split; simpl in *; lia|by split]|].
  split; [|simpl; lia]. unfold live_keys; cbn [numKeys keys]. rewrite Ht.
  replace (take j (keys x)) with (take j (live_keys x)) in *.
  - by apply ins_at_split.
  - unfold live_keys. rewrite take_take. f_equal. lia.
Qed.

(** Descending into child [i], when [k] belongs between what surrounds it. *)
Lemma insert_child_ok h fuel k x ks cs ls i c lc :
  insert_ok h -> inode h x ks cs ls -> cs !! i = Some c -> ls !! i = Some lc ->
  sorted (weave ls ks) -> numKeys c < 2 * MIN_DEGREE - 1 -> h < fuel ->
  Forall (fun y => y <= k)%Z (wpre (take i ls) (take i ks)) ->
  Forall (fun y => k <= y)%Z (wpost (drop i ks) (drop (S i) ls)) ->
  exists c' kids l',
    child x i = Ret c /\ insertNonFull fuel k c = Ret c' /\
    store (children x) i (Some c') = Ret kids /\
    tree_of (S h) (MkNode (leaf x) (numKeys x) (keys x) kids) l' /\ ins_at k (weave ls ks) l'.
Proof.
  intros IH Hin Hi Hli Hs Hc Hf Hpre Hpost.
  pose proof (inode_lengths _ _ _ _ _ Hin) as (Hlk & Hlc & Hll).
  pose proof (lookup_lt_Some _ _ _ Hi) as Hilt.
  pose proof Hin as (_ & _ & _ & _ & HF).
  destruct (Forall2_lookup_lr _ _ _ _ _ _ HF Hi Hli) as [Htc Hmin].
  assert (Hw : weave ls ks = _) by (apply (weave_at ls ks i lc); [lia|done|lia]).
  rewrite Hw in *. apply sorted_app_inv in Hs as (_ & Hs & _).
  apply sorted_app_inv in Hs as (Hs & _).
  destruct (IH fuel k c lc Htc Hs Hc Hf) as (c' & lc' & Hc' & Ht' & Hins & Hnum).
  destruct (inode_replace h x ks cs ls i c' lc' Hin Hilt Ht') as (kids & Hst & Hin'); [lia|].
  exists c', kids, (wpre (take i ls) (take i ks) ++ lc' ++ wpost (drop i ks) (drop (S i) ls)).
  split; [by eapply inode_child|]. split; [done|]. split; [done|]. split; [|by apply ins_at_ctx].
  apply inode_tree in Hin'.
  rewrite (weave_at (<[i := lc']> ls) ks i lc') in Hin'
    by (rewrite ?length_insert; try lia; apply list_lookup_insert_eq; lia).
  by rewrite take_insert_ge, drop_insert_lt in Hin' by lia.
Qed.

(** The bounds that [scan_down] leaves around the child it stops at. *)
Lemma scan_bounds h x ks cs ls i lc k :
  inode h x ks cs ls -> ls !! i = Some lc -> i <= length ks -> sorted (weave ls ks) ->
  (forall y, last (take i ks) = Some y -> y <= k)%Z ->
  (forall y, head (drop i ks) = Some y -> k <= y)%Z ->
  Forall (fun y => y <= k)%Z (wpre (take i ls) (take i ks)) /\
  Forall (fun y => k <= y)%Z (wpost (drop i ks) (drop (S i) ls)).
Proof.
  intros Hin Hli Hi Hs Hle Hge. pose proof (inode_lengths _ _ _ _ _ Hin) as (Hlk & _ & Hll).
  rewrite (weave_at ls ks i lc) in Hs by (done || lia). split.
  - eapply wpre_bound; [|exact Hs|done]. rewrite !length_take. lia.
  - rewrite app_assoc in Hs. by eapply wpost_bound.
Qed.

Lemma lookup_mid {A : Type} (l : list A) i (a b : A) r :
  i <= length l -> (take i l ++ a :: b :: r) !! i = Some a /\
                   (take i l ++ a :: b :: r) !! S i = Some b.
Proof.
  intros Hi. split; rewrite lookup_app_r by (rewrite length_take; lia); rewrite length_take.
  - by replace (i - i `min` length l) with 0 by lia.
  - by replace (S i - i `min` length l) with 1 by lia.
Qed.

Lemma lookup_mid_if {A : Type} (l : list A) i (a b : A) r (c : bool) :
  i <= length l -> (take i l ++ a :: b :: r) !! (if c then S i else i) = Some (if c then b else a).
Proof. intros Hi. destruct (lookup_mid l i a b r Hi) as [Ha Hb]. by destruct c. Qed.

(** Splitting a child keeps the keys of the subtree in their order. *)
Lemma weave_split_child (ls : list (list Z)) ks i lc ly lz m :
  ls !! i = Some lc -> lc = ly ++ m :: lz -> length ls = S (length ks) -> i <= length ks ->
  weave (take i ls ++ ly :: lz :: drop (S i) ls) (take i ks ++ m :: drop i ks) = weave ls ks.
Proof.
  intros Hlc -> Hlen Hi. rewrite weave_split; [|rewrite !length_take; lia|simpl; rewrite !length_drop; lia].
  rewrite (weave_at ls ks i (ly ++ m :: lz)) by (done || lia). by rewrite <-!app_assoc.
Qed.

(** The halves of a split child around its median. *)
Lemma split_bounds (ks : list Z) m i k :
  i <= length ks ->
  (forall y, last (take i ks) = Some y -> y <= k)%Z ->
  (forall y, head (drop i ks) = Some y -> k <= y)%Z ->
  let i' := if (m <? k)%Z then S i else i in
  (forall y, last (take i' (take i ks ++ m :: drop i ks)) = Some y -> y <= k)%Z /\
  (forall y, head (drop i' (take i ks ++ m :: drop i ks)) = Some y -> k <= y)%Z.
Proof.
  intros Hi Hle Hge i'. assert (Hlen : length (take i ks) = i) by (rewrite length_take; lia).
  unfold i'. destruct (m <? k)%Z eqn:Hm.
  - apply Z.ltb_lt in Hm. rewrite cons_middle, app_assoc.
    assert (HS : length (take i ks ++ [m]) = S i) by (rewrite length_app; simpl; lia).
    rewrite (take_app_length' _ _ (S i)), (drop_app_length' _ _ (S i)) by done.
    rewrite last_snoc. split; [intros y [= <-]; lia|done].
  - apply Z.ltb_ge in Hm. rewrite take_app_length', drop_app_length' by done.
    split; [done|]. simpl. intros y [= <-]. lia.
Qed.

Lemma insert_internal_ok h : insert_ok h -> insert_ok (S h).
Proof.
  intros IH [|fuel] k x l Ht Hs Hn Hf; [lia|].
  apply tree_inode in Ht as (cs & ls & Hin & ->).
  pose proof (inode_lengths _ _ _ _ _ Hin) as (Hlk & Hlc & Hll).
  pose proof Hin as (Hsh & Hl & _ & _ & HF). pose proof Hsh as (HK & HC & Hn').
  destruct (scan_down_spec (numKeys x) (keys x) k) as (i & Hscan & Hi & Hle & Hge); [lia|].
  assert (Hti : take i (keys x) = take i (live_keys x)).
  { unfold live_keys. rewrite take_take. f_equal. lia. }
  rewrite Hti in Hle. fold (live_keys x) in Hge. set (ks := live_keys x) in *.
  destruct (lookup_lt_is_Some_2 cs i) as [c Hc]; [lia|].
  destruct (lookup_lt_is_Some_2 ls i) as [lc Hlci]; [lia|].
  destruct (Forall2_lookup_lr _ _ _ _ _ _ HF Hc Hlci) as [Htc Hmin].
  cbn [insertNonFull]. rewrite Hl. run_with Hscan. run_with (inode_child h x ks cs ls i c Hin Hc).
  destruct (decide (numKeys c = 2 * MIN_DEGREE - 1)) as [Hfull|Hnf].
  - destruct (splitChild_ok h x ks cs ls i c lc Hin Hc Hlci Hfull Hn)
      as (x' & y & z & m & ly & lz & Hsp & Hlc' & Hnx & Hny & Hnz & Hm & Hin').
    run_with Hsp. run_with Hm.
    pose proof (weave_split_child ls ks i lc ly lz m Hlci Hlc' ltac:(lia) ltac:(lia)) as Hw.
    destruct (split_bounds ks m i k) as [Hle' Hge']; [lia|done..|].
    pose proof (lookup_mid_if cs i y z (drop (S i) cs) (m <? k)%Z ltac:(lia)) as Hcz.
    pose proof (lookup_mid_if ls i ly lz (drop (S i) ls) (m <? k)%Z ltac:(lia)) as Hlz.
    set (i' := if (m <? k)%Z then S i else i) in *.
    set (c' := if (m <? k)%Z then z else y) in *. set (lc'' := if (m <? k)%Z then lz else ly) in *.
    destruct (scan_bounds h x' _ _ _ i' lc'' k Hin') as [Hpre Hpost];
      [done| |by rewrite Hw|done..|].
    { rewrite length_app, length_take; simpl. rewrite length_drop.
      unfold i'. destruct (m <? k)%Z; lia. }
    destruct (insert_child_ok h fuel k x' _ _ _ i' c' lc'' IH Hin')
      as (c'' & kids & l' & Hch & Hins & Hst & Ht' & Hat); try done.
    + by rewrite Hw.
    + unfold c', MIN_DEGREE in *. destruct (m <? k)%Z; lia.
    + lia.
    + exists (MkNode (leaf x') (numKeys x') (keys x') kids), l'.
      run_with Hch. run_with Hins. run_with Hst. rewrite Hw in Hat.
      do 3 (split; [done|]). cbn [numKeys]. lia.
  - destruct (scan_bounds h x _ _ _ i lc k Hin) as [Hpre Hpost]; [done|lia|done..|].
    assert (Hc5 : numKeys c < 2 * MIN_DEGREE - 1).
    { pose proof (tree_shape _ _ _ Htc) as (_ & _ & ?). unfold MIN_DEGREE in *. lia. }
    destruct (insert_child_ok h fuel k x _ _ _ i c lc IH Hin)
      as (c'' & kids & l' & Hch & Hins & Hst & Ht' & Hat); try done; [lia|].
    exists (MkNode (leaf x) (numKeys x) (keys x) kids), l'. obind.
    run_with Hch. run_with Hins. run_with Hst. do 3 (split; [done|]). done.
Qed.

Lemma insertNonFull_ok h : insert_ok h.
Proof. induction h; [apply insert_leaf_ok|by apply insert_internal_ok]. Qed.

(** ** The whole tree *)

Lemma depth_child x c : Some c ∈ children x -> depth c < depth x.
Proof.
  destruct x as [b n ks cs]. cbn [children depth]. intros Hin.
  apply Nat.lt_succ_r, max_list_elem_of_le. apply list_elem_of_In, in_map_iff.
  exists (Some c). split; [done|]. by apply list_elem_of_In.
Qed.

Lemma inode_child_elem h x ks cs ls i c :
  inode h x ks cs ls -> cs !! i = Some c -> Some c ∈ children x.
Proof.
  intros (_ & _ & _ & Hc & _) Hi. apply (f_equal (.!! i)) in Hc.
  rewrite list_lookup_fmap, Hi in Hc. apply list_elem_of_lookup_2 in Hc.
  eapply subseteq_take; exact Hc.
Qed.

(** The fuel that the entry points use is enough. *)
Lemma tree_depth h : forall x l, tree_of h x l -> h < depth x.
Proof.
  induction h as [|h IH]; intros x l Ht; [destruct x; simpl; lia|].
  apply tree_inode in Ht as (cs & ls & Hin & _).
  pose proof (inode_lengths _ _ _ _ _ Hin) as (_ & Hlc & Hll).
  destruct cs as [|c cs]; [done|]. destruct ls as [|lc ls]; [done|].
  pose proof (depth_child x c (inode_child_elem _ _ _ _ _ 0 c Hin eq_refl)) as Hd.
  destruct Hin as (_ & _ & _ & _ & HF). apply Forall2_cons in HF as [[Ht _] _].
  apply IH in Ht. lia.
Qed.

Lemma traverse_loop_ok visit ks ls : forall d i,
  length ls = S (length ks) -> i + d = length ks ->
  (forall j l, ls !! j = Some l -> visit j = Ret l) ->
  traverse_loop visit ks d i = Ret (weave (drop i ls) (drop i ks)).
Proof.
  induction d as [|d IH]; intros i Hl Hi Hv; cbn [traverse_loop].
  - destruct (lookup_lt_is_Some_2 ls i) as [l Hli]; [lia|]. rewrite (Hv i l Hli).
    rewrite (drop_S ls l i Hli), (drop_ge ks) by lia. done.
  - destruct (lookup_lt_is_Some_2 ls i) as [l Hli]; [lia|]. run_with (Hv i l Hli).
    destruct (load_lt ks i) as (k & Hk & Hload); [lia|]. run_with Hload.
    run_with (IH (S i) Hl ltac:(lia) Hv).
    rewrite (drop_S ls l i Hli), (drop_S ks k i Hk). done.
Qed.

(** The loop reads live keys only. *)
Lemma traverse_loop_live visit ks n : forall d i, i + d <= n -> n <= length ks ->
  traverse_loop visit ks d i = traverse_loop visit (take n ks) d i.
Proof.
  induction d as [|d IH]; intros i Hi Hn; cbn [traverse_loop]; [done|].
  unfold load. rewrite lookup_take_lt by lia. by rewrite IH by lia.
Qed.

Lemma traverse_ok h : forall fuel x l, tree_of h x l -> h < fuel -> traverse fuel x = Ret l.
Proof.
  induction h as [|h IH]; intros [|fuel] x l Ht Hf; [lia| |lia|]; cbn [traverse];
    pose proof (tree_shape _ _ _ Ht) as (HK & HC & Hn);
    rewrite (traverse_loop_live _ _ (numKeys x)) by lia; fold (live_keys x).
  - destruct Ht as (_ & Hl & ->). rewrite Hl.
    assert (Hlen : length (live_keys x) = numKeys x) by (unfold live_keys; rewrite length_take; lia).
    rewrite (traverse_loop_ok _ _ (replicate (S (numKeys x)) [])).
    + rewrite <-Hlen at 1. rewrite !drop_0. f_equal. clear. induction (live_keys x); [done|].
      simpl in *. by f_equal.
    + rewrite length_replicate. lia.
    + lia.
    + intros j l. rewrite lookup_replicate. by intros [-> _].
  - apply tree_inode in Ht as (cs & ls & Hin & ->).
    pose proof (inode_lengths _ _ _ _ _ Hin) as (Hlk & Hlc & Hll).
    rewrite (traverse_loop_ok _ _ ls); [done|lia..|].
    intros j l Hj. destruct (lookup_lt_is_Some_2 cs j) as [c Hc];
      [apply lookup_lt_Some in Hj; lia|].
    pose proof Hin as (_ & Hl & _ & _ & HF). rewrite Hl.
    run_with (inode_child h x _ cs ls j c Hin Hc).
    destruct (Forall2_lookup_lr _ _ _ _ _ _ HF Hc Hj) as [Htc _].
    apply IH; [done|lia].
Qed.

Lemma scan_up_spec ks k : forall d i,
  i + d <= length ks -> exists j, scan_up d i ks k = Ret j /\ i <= j <= i + d /\
    (forall p y, i <= p < j -> ks !! p = Some y -> (y < k)%Z) /\
    (forall y, j < i + d -> ks !! j = Some y -> (k <= y)%Z).
Proof.
  induction d as [|d IH]; intros i Hi; cbn [scan_up].
  - exists i. repeat split; try lia.
  - destruct (load_lt ks i) as (y & Hy & Hload); [lia|]. run_with Hload.
    destruct (k >? y)%Z eqn:Hgt.
    + destruct (IH (S i)) as (j & -> & Hj & Hlt & Hge); [lia|]. exists j.
      repeat split; try lia.
      * intros p z Hp Hz. destruct (decide (p = i)) as [->|Hne]; [|apply (Hlt p z); [lia|done]].
        apply Z.gtb_lt in Hgt. simplify_eq. lia.
      * intros z Hz. apply Hge. lia.
    + exists i. repeat split; try lia. intros z _ Hz. simplify_eq.
      rewrite Z.gtb_ltb in Hgt. by apply Z.ltb_ge in Hgt.
Qed.

(** A node that holds the key, or no node and then the key is not there. *)
Definition search_result (k : Z) (l : list Z) (r : option BTreeNode) : Prop :=
  match r with
  | Some y => k ∈ live_keys y /\ k ∈ l
  | None => k ∉ l
  end.

Lemma weave_key ls ks k : length ls = S (length ks) -> k ∈ ks -> k ∈ weave ls ks.
Proof.
  revert ls. induction ks as [|y ks IH]; intros [|l ls] Hl Hk; simplify_eq/=.
  - by apply not_elem_of_nil in Hk.
  - apply elem_of_app. right. apply elem_of_cons in Hk as [->|Hk]; [left|right].
    by apply IH.
Qed.

Lemma elem_of_live x i y : i < numKeys x -> keys x !! i = Some y -> live_keys x !! i = Some y.
Proof. intros Hi Hy. unfold live_keys. by rewrite lookup_take_lt. Qed.

(** The keys before and after the place where the scan stops exclude [k] from the other parts. *)
Lemma weave_search h x cs ls k j lc :
  inode h x (live_keys x) cs ls -> sorted (weave ls (live_keys x)) ->
  ls !! j = Some lc -> j <= numKeys x ->
  (forall p y, p < j -> keys x !! p = Some y -> (y < k)%Z) ->
  (forall y, j < numKeys x -> keys x !! j = Some y -> (k < y)%Z) ->
  k ∈ weave ls (live_keys x) <-> k ∈ lc.
Proof.
  intros Hin Hs Hj Hle Hlt Hgt. pose proof (inode_lengths _ _ _ _ _ Hin) as (Hlk & _ & Hll).
  pose proof Hin as ((HK & _ & Hn) & _). set (ks := live_keys x) in *.
  assert (Hw : weave ls ks = _) by (apply (weave_at ls ks j lc); [lia|done|lia]).
  rewrite Hw in *. rewrite !elem_of_app.
  assert (Hpre : Forall (fun y => y <= k - 1)%Z (wpre (take j ls) (take j ks))).
  { eapply wpre_bound; [rewrite !length_take; lia|exact Hs|]. intros m Hm.
    rewrite last_lookup, length_take in Hm. apply lookup_take_Some in Hm as [Hm Hp].
    assert (m < k)%Z; [|lia]. eapply (Hlt (pred (j `min` length ks))); [lia|].
    unfold ks, live_keys in Hm. apply lookup_take_Some in Hm as [Hm _]. exact Hm. }
  assert (Hpost : Forall (fun y => k + 1 <= y)%Z (wpost (drop j ks) (drop (S j) ls))).
  { rewrite app_assoc in Hs. eapply wpost_bound; [exact Hs|]. intros m Hm.
    rewrite head_lookup, lookup_drop in Hm. replace (j + 0) with j in Hm by lia.
    unfold ks, live_keys in Hm. apply lookup_take_Some in Hm as [Hm Hjn].
    assert (k < m)%Z by (apply Hgt; done). lia. }
  rewrite Forall_forall in Hpre, Hpost. split; [|by auto].
  intros [Hk|[Hk|Hk]]; [apply Hpre in Hk; lia|done|apply Hpost in Hk; lia].
Qed.

(** A leaf whose keys from the stop of the scan on do not start with [k] does not hold [k]. *)
Lemma leaf_absent x k j :
  sorted (live_keys x) -> j <= numKeys x -> numKeys x <= length (keys x) ->
  (forall p y, p < j -> keys x !! p = Some y -> (y < k)%Z) ->
  (forall y, j < numKeys x -> keys x !! j = Some y -> (k < y)%Z) -> k ∉ live_keys x.
Proof.
  intros Hs Hj Hn Hlt Hgt Hk. unfold live_keys in Hk, Hs.
  apply list_elem_of_lookup_1 in Hk as [p Hp]. pose proof Hp as [Hp' Hpn]%lookup_take_Some.
  destruct (decide (p < j)) as [Hpj|Hpj]; [apply (Hlt p) in Hp'; lia|].
  destruct (lookup_lt_is_Some_2 (keys x) j) as [y Hy]; [lia|].
  assert (Hky : (k < y)%Z) by (apply Hgt; [lia|done]).
  destruct (decide (p = j)) as [->|Hpne]; [simplify_eq; lia|].
  assert (y <= k)%Z; [|lia].
  apply (sorted_lookup _ j p _ _ Hs); [lia|by rewrite lookup_take_lt by lia|done].
Qed.

(** One level of [search]: the key is at the stop of the scan, or the answer comes from below. *)
Lemma search_step fuel k x :
  shape x -> exists j, j <= numKeys x /\
    (forall p y, p < j -> keys x !! p = Some y -> (y < k)%Z) /\
    ((k ∈ live_keys x /\ search_node (S fuel) k x = Ret (Some x)) \/
     ((forall y, j < numKeys x -> keys x !! j = Some y -> (k < y)%Z) /\
      search_node (S fuel) k x =
        if leaf x then Ret None else (c ← child x j; search_node fuel k c))).
Proof.
  intros (HK & HC & Hn). cbn [search_node].
  destruct (scan_up_spec (keys x) k (numKeys x) 0) as (j & Hscan & Hj & Hlt & Hge); [lia|].
  exists j. split; [lia|]. split; [intros p y Hp; apply Hlt; lia|]. run_with Hscan.
  destruct (decide (j < numKeys x)) as [Hjn|Hjn]; obind; [|right; split; [lia|done]].
  destruct (load_lt (keys x) j) as (y & Hy & Hload); [lia|]. run_with Hload.
  assert (Hky : (k <= y)%Z) by (by apply Hge).
  destruct (y =? k)%Z eqn:Heq.
  - apply Z.eqb_eq in Heq. subst y. left. split; [|done].
    eapply list_elem_of_lookup_2, elem_of_live; done.
  - apply Z.eqb_neq in Heq. right. split; [|done]. intros z _ Hz. simplify_eq. lia.
Qed.

Lemma search_node_ok h : forall fuel k x l,
  tree_of h x l -> sorted l -> h < fuel ->
  exists r, search_node fuel k x = Ret r /\ search_result k l r.
Proof.
  induction h as [|h IH]; intros [|fuel] k x l Ht Hs Hf; try lia;
    pose proof (tree_shape _ _ _ Ht) as Hsh; pose proof Hsh as (HK & HC & Hn);
    destruct (search_step fuel k x Hsh) as (j & Hj & Hlt & Hstep).
  - destruct Ht as (_ & Hl & ->). destruct Hstep as [[Hk ->]|[Hgt ->]]; [by exists (Some x)|].
    rewrite Hl. exists None. split; [done|]. apply (leaf_absent x k j); (done || lia).
  - apply tree_inode in Ht as (cs & ls & Hin & ->).
    pose proof (inode_lengths _ _ _ _ _ Hin) as (Hlk & Hlc & Hll).
    destruct Hstep as [[Hk ->]|[Hgt ->]].
    { exists (Some x). split; [done|]. split; [done|]. apply weave_key; [lia|done]. }
    destruct (lookup_lt_is_Some_2 cs j) as [c Hc]; [lia|].
    destruct (lookup_lt_is_Some_2 ls j) as [lc Hlcj]; [lia|].
    pose proof Hin as (_ & Hl & _ & _ & HF). rewrite Hl.
    destruct (Forall2_lookup_lr _ _ _ _ _ _ HF Hc Hlcj) as [Htc _].
    run_with (inode_child h x _ cs ls j c Hin Hc).
    pose proof (weave_search h x cs ls k j lc Hin Hs Hlcj Hj Hlt Hgt) as Hiff.
    rewrite (weave_at ls (live_keys x) j lc) in Hs by (done || lia).
    apply sorted_app_inv in Hs as (_ & Hs & _). apply sorted_app_inv in Hs as (Hs & _).
    destruct (IH fuel k c lc Htc Hs) as (r & Hr & Hres); [lia|]. exists r. split; [done|].
    unfold search_result in *. destruct r; by rewrite Hiff.
Qed.

(** ** Insertion into the tree *)

(** A full root goes one level down and is split before the key is inserted below it. *)
Lemma insert_root_full h root l k :
  tree_of h root l -> sorted l -> numKeys root = 2 * MIN_DEGREE - 1 ->
  exists x l', insert k (Some root) = Ret (Some x) /\ tree_of (S h) x l' /\ ins_at k l l' /\
    1 <= numKeys x.
Proof.
  intros Ht Hs Hfull. pose proof (tree_shape _ _ _ Ht) as (HK & HC & _).
  set (cs0 := <[0 := Some root]> (children (newNode false))).
  set (s := MkNode false 0 (keys (newNode false)) cs0).
  assert (Hin : inode h s [] [root] [l]).
  { split; [repeat split; simpl; lia|]. do 3 (split; [done|]). constructor; [|constructor].
    split; [done|]. unfold MIN_DEGREE in *. lia. }
  destruct (splitChild_ok h s [] [root] [l] 0 root l Hin eq_refl eq_refl Hfull)
    as (x' & y & z & m & ly & lz & Hsp & -> & Hnx & Hny & Hnz & Hm & Hin');
    [simpl; unfold MIN_DEGREE; lia|]. cbn [take drop app] in Hin'.
  assert (Hw : weave [ly; lz] [m] = ly ++ m :: lz) by done.
  set (i := if (m <? k)%Z then 1 else 0). set (c := if (m <? k)%Z then z else y).
  set (lc := if (m <? k)%Z then lz else ly).
  assert (Hcs : [y; z] !! i = Some c) by (unfold i, c; by destruct (m <? k)%Z).
  assert (Hls : [ly; lz] !! i = Some lc) by (unfold i, lc; by destruct (m <? k)%Z).
  destruct (split_bounds [] m 0 k) as [Hle Hge]; [simpl; lia|done..|]. cbn [take drop app] in Hle, Hge.
  fold i in Hle, Hge.
  destruct (scan_bounds h x' _ _ _ i lc k Hin' Hls) as [Hpre Hpost];
    [unfold i; simpl; destruct (m <? k)%Z; lia|by rewrite Hw|done..|].
  pose proof Hin' as (_ & _ & _ & _ & HF).
  destruct (Forall2_lookup_lr _ _ _ _ _ _ HF Hcs Hls) as [Htc _].
  destruct (insert_child_ok h (depth c) k x' _ _ _ i c lc (insertNonFull_ok h) Hin' Hcs Hls)
    as (c' & kids & l' & Hch & Hins & Hst & Ht' & Hat); try done.
  - unfold c, MIN_DEGREE in *. destruct (m <? k)%Z; lia.
  - by eapply tree_depth.
  - exists (MkNode (leaf x') (numKeys x') (keys x') kids), l'.
    split; [|split; [done|]; split; [by rewrite Hw in Hat|cbn [numKeys]; lia]].
    cbn [insert]. rewrite decide_True by done. rewrite store_Ret by (simpl; lia). obind.
    fold cs0 s. run_with Hsp. run_with Hm. fold i. run_with Hch. run_with Hins. by run_with Hst.
Qed.

Lemma insert_inv k t l : btree_inv t l -> exists t' l',
  insert k t = Ret t' /\ btree_inv t' l' /\ ins_at k l l'.
Proof.
  destruct t as [root|]; cbn [btree_inv].
  - intros (h & Ht & Hn & Hs). pose proof (tree_shape _ _ _ Ht) as (_ & _ & Hmax).
    destruct (decide (numKeys root = 2 * MIN_DEGREE - 1)) as [Hfull|Hnf].
    + destruct (insert_root_full h root l k Ht Hs Hfull) as (x & l' & Hi & Ht' & Hat & Hx).
      exists (Some x), l'. split; [done|]. split; [|done]. exists (S h).
      split; [done|]. split; [done|]. by eapply ins_at_sorted.
    + destruct (insertNonFull_ok h (depth root) k root l) as (x & l' & Hi & Ht' & Hat & Hx);
        [done..|lia|by eapply tree_depth|].
      exists (Some x), l'. cbn [insert]. rewrite decide_False by done. run_with Hi.
      split; [done|]. split; [|done]. exists h. split; [done|]. split; [lia|].
      by eapply ins_at_sorted.
  - intros ->. eexists _, [k]. split; [done|]. split.
    + exists 0. split; [split; [repeat split; simpl; lia|done]|]. split; [simpl; lia|].
      by repeat constructor.
    + exists [], []. by repeat constructor.
Qed.

Lemma insert_all_inv ks : forall t l, btree_inv t l -> exists t' l',
  insert_all ks t = Ret t' /\ btree_inv t' l' /\ l' ≡ₚ ks ++ l.
Proof.
  induction ks as [|k ks IH]; intros t l Ht; cbn [insert_all].
  - by exists t, l.
  - destruct (insert_inv k t l Ht) as (t1 & l1 & Hi & H1 & Hat). run_with Hi.
    destruct (IH t1 l1 H1) as (t2 & l2 & Hr & H2 & Hp). exists t2, l2. split; [done|].
    split; [done|]. rewrite Hp, (ins_at_perm k l l1 Hat). symmetry. by apply Permutation_middle.
Qed.

Lemma traverse_inv t l : btree_inv t l -> traverse_tree t = Ret l.
Proof.
  destruct t as [x|]; cbn [btree_inv traverse_tree]; [|by intros ->].
  intros (h & Ht & _). eapply traverse_ok; [done|]. by eapply tree_depth.
Qed.

Lemma search_inv k t l : btree_inv t l -> exists r, search k t = Ret r /\ search_result k l r.
Proof.
  destruct t as [x|]; cbn [btree_inv search].
  - intros (h & Ht & _ & Hs). eapply search_node_ok; [done..|]. by eapply tree_depth.
  - intros ->. exists None. split; [done|]. simpl. apply not_elem_of_nil.
Qed.

Lemma btree_inv_sorted t l : btree_inv t l -> sorted l.
Proof. destruct t; [intros (h & _ & _ & Hs); done|intros ->; constructor]. Qed.

(** C2.  [insert] on a well-formed tree returns a well-formed tree (all leaves at one depth, array
    bounds and minimum fill respected, keys in order) that holds the old keys and the new one. *)
Theorem btree_insert_preserves (k : Z) (t : BTree) (l : list Z) :
  btree_inv t l ->
  exists t' l', insert k t = Ret t' /\ btree_inv t' l' /\ l' ≡ₚ k :: l.
Proof.
  intros Ht. destruct (insert_inv k t l Ht) as (t' & l' & Hi & Hinv & Hat).
  exists t', l'. split; [done|]. split; [done|]. by apply ins_at_perm.
Qed.

Lemma btree_insert_preserves_witness :
  exists t' l', insert 7 None = Ret t' /\ btree_inv t' l' /\ l' ≡ₚ [7%Z].
Proof. apply (btree_insert_preserves 7 None []). reflexivity. Defined.

(** C1.  After inserting any keys into an empty tree, [traverse] prints exactly these keys in
    order, and [search] answers with a node that holds the key for the inserted keys and with a null
    pointer for every other key. *)
Theorem btree_index_correct (ks : list Z) :
  exists t l, insert_all ks None = Ret t /\ btree_inv t l /\
    traverse_tree t = Ret l /\ l ≡ₚ ks /\ sorted l /\
    forall k, exists r, search k t = Ret r /\
      (k ∈ ks -> exists y, r = Some y /\ k ∈ live_keys y) /\ (k ∉ ks -> r = None).
Proof.
  destruct (insert_all_inv ks None []) as (t & l & Hi & Hinv & Hp); [done|].
  rewrite app_nil_r in Hp. exists t, l. split; [done|]. split; [done|].
  split; [by apply traverse_inv|]. split; [done|]. split; [by eapply btree_inv_sorted|].
  intros k. destruct (search_inv k t l Hinv) as (r & Hr & Hres). exists r. split; [done|].
  rewrite <-Hp. destruct r as [y|]; cbn [search_result] in Hres.
  - destruct Hres as [Hy Hk]. split; [by exists y|done].
  - by split.
Qed.

(** ** The program *)

(** [main]: the keys it prints in order, and whether it finds the key it looks for. *)
Definition main : outcome (list Z * bool) :=
  t ← insert 10 None; t ← insert 20 t; t ← insert 5 t; t ← insert 6 t;
  t ← insert 12 t; t ← insert 30 t; t ← insert 7 t; t ← insert 17 t;
  printed ← traverse_tree t;
  found ← search 6 t;
  Ret (printed, match found with Some _ => true | None => false end).

Example btree_main : main = Ret ([5; 6; 7; 10; 12; 17; 20; 30]%Z, true).
Proof. vm_compute. reflexivity. Qed.
