(* ===== verification/BTreeDelete.v ===== *)
(** * Deletion from a B-tree ([indexing/b_tree/node.cpp])

    The node class of node.cpp has the arrays of [BTreeIndex] (its [n] is [numKeys], its [t] is
    [MIN_DEGREE]) and adds deletion: a key leaves a leaf, or is replaced by a neighbour from below,
    and a child that is too small is filled from a sibling or merged with it before the descent.  The
    operations work on a node whose children they own; a slot beyond the live ones keeps what the code
    leaves in it, and only [node_search] reads such a slot.

    [remove] returns the keys it reports as not present.  [getPred] descends into [children[n - 1]]
    where the largest key is below [children[n]]: contents are still right after a [remove], their
    order is guaranteed only where the children are leaves. *)

From S2P Require Import Prelude Arrays BTreeIndex.
Local Open Scope nat_scope.

(** [n - 1] as an array index: with [n = 0] the access is out of range. *)
Definition last_index (n : nat) : outcome nat :=
  match n with
  | O => Undef index_out_of_range
  | S i => Ret i
  end.

(** [children[i] = ...] for the object that the pointer at [i] owns, after a call changed it. *)
Definition set_child (x : BTreeNode) (i : nat) (c : BTreeNode) : outcome BTreeNode :=
  cs ← store (children x) i (Some c);
  Ret (MkNode (leaf x) (numKeys x) (keys x) cs).

Definition findKey (k : Z) (x : BTreeNode) : outcome nat := scan_up (numKeys x) 0 (keys x) k.

(** The constructor, [splitChild] and [insertNonFull] are statement for statement those of
    b_tree_index.cpp.  [new int[]] leaves the keys uninitialised; the model fills them with zeros, which
    no operation on a node of the tree reads, because keys from [numKeys] on are written before. *)
Definition node_new : bool -> BTreeNode := newNode.
Definition node_splitChild : nat -> BTreeNode -> BTreeNode -> outcome BTreeNode := splitChild.
Definition node_insertNonFull : nat -> Z -> BTreeNode -> outcome BTreeNode := insertNonFull.

(** ** Search *)

(** [search]: after the scan [keys[i]] is read without a test of [i] against [n]. *)
Fixpoint node_search (fuel : nat) (k : Z) (x : BTreeNode) : outcome (option BTreeNode) :=
  match fuel with
  | O => Hang
  | S fuel =>
      i ← scan_up (numKeys x) 0 (keys x) k;
      y ← load (keys x) i;
      if (y =? k)%Z then Ret (Some x)
      else if leaf x then Ret None
      else (c ← child x i; node_search fuel k c)
  end.

(** ** Filling a child *)

Definition borrowFromPrev (idx : nat) (x : BTreeNode) : outcome BTreeNode :=
  c ← child x idx;
  j ← last_index idx;
  s ← child x j;
  cks ← shift_up (numKeys c) 0 (keys c);
  ccs ← (if leaf c then Ret (children c) else shift_up (S (numKeys c)) 0 (children c));
  k ← load (keys x) j;
  cks ← store cks 0 k;
  ccs ← (if leaf x then Ret ccs
         else g ← load (children s) (numKeys s); store ccs 0 g);
  e ← last_index (numKeys s);
  m ← load (keys s) e;
  ks ← store (keys x) j m;
  x ← set_child (MkNode (leaf x) (numKeys x) ks (children x)) idx
        (MkNode (leaf c) (S (numKeys c)) cks ccs);
  set_child x j (MkNode (leaf s) (numKeys s - 1) (keys s) (children s)).

Definition borrowFromNext (idx : nat) (x : BTreeNode) : outcome BTreeNode :=
  c ← child x idx;
  s ← child x (S idx);
  k ← load (keys x) idx;
  cks ← store (keys c) (numKeys c) k;
  ccs ← (if leaf c then Ret (children c)
         else g ← load (children s) 0; store (children c) (S (numKeys c)) g);
  m ← load (keys s) 0;
  ks ← store (keys x) idx m;
  sks ← shift_down (numKeys s - 1) 1 (keys s);
  scs ← (if leaf s then Ret (children s) else shift_down (numKeys s) 1 (children s));
  x ← set_child (MkNode (leaf x) (numKeys x) ks (children x)) idx
        (MkNode (leaf c) (S (numKeys c)) cks ccs);
  set_child x (S idx) (MkNode (leaf s) (numKeys s - 1) sks scs).

(** The merged sibling is dropped when its pointer is overwritten or left beyond the live ones. *)
Definition merge (idx : nat) (x : BTreeNode) : outcome BTreeNode :=
  c ← child x idx;
  s ← child x (S idx);
  k ← load (keys x) idx;
  cks ← store (keys c) (MIN_DEGREE - 1) k;
  cks ← copy_loop (numKeys s) 0 MIN_DEGREE 0 cks (keys s);
  ccs ← (if leaf c then Ret (children c)
         else copy_loop (S (numKeys s)) 0 MIN_DEGREE 0 (children c) (children s));
  ks ← shift_down (numKeys x - S idx) (S idx) (keys x);
  x ← set_child (MkNode (leaf x) (numKeys x) ks (children x)) idx
        (MkNode (leaf c) (numKeys c + (numKeys s + 1)) cks ccs);
  cs ← shift_down (S (numKeys x) - S (S idx)) (S (S idx)) (children x);
  Ret (MkNode (leaf x) (numKeys x - 1) (keys x) cs).

Definition fill (idx : nat) (x : BTreeNode) : outcome BTreeNode :=
  prev ← (if decide (idx = 0) then Ret false
          else s ← child x (idx - 1); Ret (bool_decide (MIN_DEGREE <= numKeys s)));
  if (prev : bool) then borrowFromPrev idx x
  else
    next ← (if decide (idx = numKeys x) then Ret false
            else s ← child x (S idx); Ret (bool_decide (MIN_DEGREE <= numKeys s)));
    if (next : bool) then borrowFromNext idx x
    else if decide (idx = numKeys x) then (j ← last_index idx; merge j x)
    else merge idx x.

(** ** Removal *)

Definition removeFromLeaf (idx : nat) (x : BTreeNode) : outcome BTreeNode :=
  ks ← shift_down (numKeys x - S idx) (S idx) (keys x);
  Ret (MkNode (leaf x) (numKeys x - 1) ks (children x)).

(** The loop and the last read of [getPred], from [cur] on. *)
Fixpoint pred_below (fuel : nat) (cur : BTreeNode) : outcome Z :=
  match fuel with
  | O => Hang
  | S fuel =>
      i ← last_index (numKeys cur);
      if leaf cur then load (keys cur) i
      else (c ← child cur i; pred_below fuel c)
  end.

Definition getPred (idx : nat) (x : BTreeNode) : outcome Z :=
  c ← child x idx; pred_below (depth c) c.

Fixpoint succ_below (fuel : nat) (cur : BTreeNode) : outcome Z :=
  match fuel with
  | O => Hang
  | S fuel =>
      if leaf cur then load (keys cur) 0
      else (c ← child cur 0; succ_below fuel c)
  end.

Definition getSucc (idx : nat) (x : BTreeNode) : outcome Z :=
  c ← child x (S idx); succ_below (depth c) c.

(** [children[i]->remove(key)], where [rem] is the recursive call. *)
Definition remove_below (rem : Z -> BTreeNode -> outcome (BTreeNode * list Z))
    (i : nat) (k : Z) (x : BTreeNode) : outcome (BTreeNode * list Z) :=
  c ← child x i;
  '(c', out) ← rem k c;
  x' ← set_child x i c';
  Ret (x', out).

Definition set_key (x : BTreeNode) (i : nat) (k : Z) : outcome BTreeNode :=
  ks ← store (keys x) i k;
  Ret (MkNode (leaf x) (numKeys x) ks (children x)).

Definition removeFromNonLeaf (rem : Z -> BTreeNode -> outcome (BTreeNode * list Z))
    (idx : nat) (x : BTreeNode) : outcome (BTreeNode * list Z) :=
  k ← load (keys x) idx;
  a ← child x idx;
  if decide (MIN_DEGREE <= numKeys a) then
    m ← getPred idx x;
    x ← set_key x idx m;
    remove_below rem idx m x
  else
    b ← child x (S idx);
    if decide (MIN_DEGREE <= numKeys b) then
      m ← getSucc idx x;
      x ← set_key x idx m;
      remove_below rem (S idx) m x
    else
      x ← merge idx x;
      remove_below rem idx k x.

(** The list collects the keys reported as not present in the tree. *)
Fixpoint remove (fuel : nat) (k : Z) (x : BTreeNode) : outcome (BTreeNode * list Z) :=
  match fuel with
  | O => Hang
  | S fuel =>
      idx ← findKey k x;
      found ← (if decide (idx < numKeys x)
               then y ← load (keys x) idx; Ret (y =? k)%Z
               else Ret false);
      if (found : bool) then
        if leaf x then (x' ← removeFromLeaf idx x; Ret (x', []))
        else removeFromNonLeaf (remove fuel) idx x
      else if leaf x then Ret (x, [k])
      else
        let flag := bool_decide (idx = numKeys x) in
        c ← child x idx;
        x' ← (if decide (numKeys c < MIN_DEGREE) then fill idx x else Ret x);
        if flag && bool_decide (numKeys x' < idx)
        then (j ← last_index idx; remove_below (remove fuel) j k x')
        else remove_below (remove fuel) idx k x'
  end.

(** [root->remove(key)], with the depth of the node as the bound of the recursion. *)
Definition remove_node (k : Z) (x : BTreeNode) : outcome (BTreeNode * list Z) :=
  remove (depth x) k x.

(** ** Views of a node around a child *)

(** The size conditions of a node built from the arrays of another one. *)
Ltac solve_shape :=
  repeat split; cbn [numKeys keys children] in *; rewrite ?length_insert; unfold MIN_DEGREE in *; lia.

Lemma weave_app ls1 ks1 k ls2 ks2 :
  length ls1 = S (length ks1) ->
  weave (ls1 ++ ls2) (ks1 ++ k :: ks2) = weave ls1 ks1 ++ k :: weave ls2 ks2.
Proof.
  revert ls1. induction ks1 as [|y ks1 IH]; intros [|l ls1] Hl; simplify_eq/=.
  - by destruct ls1.
  - rewrite IH by done. by rewrite <-app_assoc.
Qed.

(** [x] has the child [c] with contents [lc] at [i], and [p], [q] are what comes before and after. *)
Definition focus (h : nat) (x : BTreeNode) (i : nat) (c : BTreeNode) (lc p q : list Z) : Prop :=
  exists ks1 ks2 cs1 cs2 ls1 ls2,
    inode h x (ks1 ++ ks2) (cs1 ++ c :: cs2) (ls1 ++ lc :: ls2) /\
    length ks1 = i /\ length cs1 = i /\ length ls1 = i /\
    p = wpre ls1 ks1 /\ q = wpost ks2 ls2.

(** The key [k] at [i] with the children [a] and [b] on its two sides. *)
Definition pair_at (h : nat) (x : BTreeNode) (i : nat) (a b : BTreeNode) (la : list Z) (k : Z)
    (lb p q : list Z) : Prop :=
  exists ks1 ks2 cs1 cs2 ls1 ls2,
    inode h x (ks1 ++ k :: ks2) (cs1 ++ a :: b :: cs2) (ls1 ++ la :: lb :: ls2) /\
    length ks1 = i /\ length cs1 = i /\ length ls1 = i /\
    p = wpre ls1 ks1 /\ q = wpost ks2 ls2.

Lemma inode_lengths_split h x ks1 ks2 cs1 c cs2 ls1 lc ls2 :
  inode h x (ks1 ++ ks2) (cs1 ++ c :: cs2) (ls1 ++ lc :: ls2) ->
  length ks1 + length ks2 = numKeys x /\ length cs1 + length cs2 = numKeys x /\
  length ls1 + length ls2 = numKeys x.
Proof.
  intros Hin. apply inode_lengths in Hin as (H1 & H2 & H3).
  rewrite !length_app in *. simpl in *. lia.
Qed.

Lemma focus_tree h x i c lc p q : focus h x i c lc p q -> tree_of (S h) x (p ++ lc ++ q).
Proof.
  intros (ks1 & ks2 & cs1 & cs2 & ls1 & ls2 & Hin & Hk & Hc & Hl & -> & ->).
  pose proof (inode_lengths_split _ _ _ _ _ _ _ _ _ _ Hin) as (? & ? & ?).
  rewrite <-weave_split by lia. by eapply inode_tree.
Qed.

Lemma focus_child h x i c lc p q :
  focus h x i c lc p q ->
  child x i = Ret c /\ tree_of h c lc /\ MIN_DEGREE - 1 <= numKeys c /\ i <= numKeys x.
Proof.
  intros (ks1 & ks2 & cs1 & cs2 & ls1 & ls2 & Hin & Hk & Hc & Hl & -> & ->).
  pose proof (inode_lengths_split _ _ _ _ _ _ _ _ _ _ Hin) as (? & ? & ?).
  split; [|split; [|split]].
  - eapply inode_child; [done|]. rewrite <-Hc. by apply list_lookup_middle.
  - destruct Hin as (_ & _ & _ & _ & HF). apply Forall2_app_inv in HF as [_ HF]; [|lia].
    by apply Forall2_cons in HF as [[??] _].
  - destruct Hin as (_ & _ & _ & _ & HF). apply Forall2_app_inv in HF as [_ HF]; [|lia].
    by apply Forall2_cons in HF as [[??] _].
  - lia.
Qed.

Lemma focus_leaf h x i c lc p q : focus h x i c lc p q -> leaf x = false /\ shape x.
Proof. intros (ks1 & ks2 & cs1 & cs2 & ls1 & ls2 & (Hs & Hl & _) & _). done. Qed.

Lemma focus_set h x i c lc p q c' lc' :
  focus h x i c lc p q -> tree_of h c' lc' -> MIN_DEGREE - 1 <= numKeys c' ->
  exists x', set_child x i c' = Ret x' /\ focus h x' i c' lc' p q /\ numKeys x' = numKeys x /\
    leaf x' = leaf x /\ keys x' = keys x.
Proof.
  intros (ks1 & ks2 & cs1 & cs2 & ls1 & ls2 & Hin & Hk & Hc & Hl & -> & ->) Ht Hn.
  destruct (inode_replace h x _ _ _ i c' lc' Hin) as (kids & Hst & Hin'); [|done..|].
  { rewrite length_app. simpl. lia. }
  eexists. unfold set_child. run_with Hst. split; [done|]. split; [|done].
  exists ks1, ks2, cs1, cs2, ls1, ls2. split; [|done].
  by rewrite !insert_app_r_alt, Hc, Hl, Nat.sub_diag in Hin' by lia.
Qed.

Lemma tree_focus h x l i :
  tree_of (S h) x l -> i <= numKeys x ->
  exists c lc p q, focus h x i c lc p q /\ l = p ++ lc ++ q.
Proof.
  intros Ht Hi. apply tree_inode in Ht as (cs & ls & Hin & ->).
  pose proof (inode_lengths _ _ _ _ _ Hin) as (Hlk & Hlc & Hll).
  destruct (lookup_lt_is_Some_2 cs i) as [c Hc]; [lia|].
  destruct (lookup_lt_is_Some_2 ls i) as [lc Hl]; [lia|].
  rewrite (weave_at ls (live_keys x) i lc) by (done || lia).
  eexists c, lc, _, _. split; [|done].
  exists (take i (live_keys x)), (drop i (live_keys x)), (take i cs), (drop (S i) cs),
    (take i ls), (drop (S i) ls).
  rewrite take_drop, !take_drop_middle, !length_take by done. split; [done|]. repeat split; lia.
Qed.

Lemma pair_focus h x i a b la k lb p q :
  pair_at h x i a b la k lb p q ->
  focus h x i a la p (k :: lb ++ q) /\ focus h x (S i) b lb (p ++ la ++ [k]) q.
Proof.
  intros (ks1 & ks2 & cs1 & cs2 & ls1 & ls2 & Hin & Hk & Hc & Hl & -> & ->). split.
  - exists ks1, (k :: ks2), cs1, (b :: cs2), ls1, (lb :: ls2). done.
  - exists (ks1 ++ [k]), ks2, (cs1 ++ [a]), cs2, (ls1 ++ [la]), ls2.
    rewrite !length_app, <-!app_assoc. simpl. split; [done|].
    rewrite wpre_snoc by lia. repeat split; lia.
Qed.

(** Writing the key of a pair, and replacing either of its children. *)
Lemma pair_set_key h x i a b la k lb p q m :
  pair_at h x i a b la k lb p q ->
  exists ks, load (keys x) i = Ret k /\ store (keys x) i m = Ret ks /\
    pair_at h (MkNode (leaf x) (numKeys x) ks (children x)) i a b la m lb p q.
Proof.
  intros (ks1 & ks2 & cs1 & cs2 & ls1 & ls2 & Hin & Hk & Hc & Hl & -> & ->).
  pose proof (inode_lengths_split _ _ _ _ _ _ _ _ _ _ Hin) as (Hn & _ & _). simpl in Hn.
  destruct Hin as (Hsh & Hlf & Hks & Hkids & HF). pose proof Hsh as (HK & HC & Hmax).
  exists (<[i := m]> (keys x)). rewrite store_Ret by lia. split; [|split; [done|]].
  - apply load_Ret. rewrite <-(lookup_take_lt _ (numKeys x)) by lia. fold (live_keys x).
    rewrite Hks, <-Hk. by apply list_lookup_middle.
  - exists ks1, ks2, cs1, cs2, ls1, ls2. split; [|done].
    split; [by split; simpl; rewrite ?length_insert|]. split; [done|]. split; [|done].
    unfold live_keys in *; cbn [numKeys keys]. rewrite take_insert_lt, Hks by lia.
    by rewrite insert_app_r_alt, Hk, Nat.sub_diag by lia.
Qed.

Lemma pair_set_left h x i a b la k lb p q a' la' :
  pair_at h x i a b la k lb p q -> tree_of h a' la' -> MIN_DEGREE - 1 <= numKeys a' ->
  exists x', set_child x i a' = Ret x' /\ numKeys x' = numKeys x /\
    pair_at h x' i a' b la' k lb p q.
Proof.
  intros (ks1 & ks2 & cs1 & cs2 & ls1 & ls2 & Hin & Hk & Hc & Hl & -> & ->) Ht Hn.
  destruct (inode_replace h x _ _ _ i a' la' Hin) as (kids & Hst & Hin'); [|done..|].
  { rewrite length_app. simpl. lia. }
  eexists. unfold set_child. run_with Hst. split; [done|]. split; [done|].
  exists ks1, ks2, cs1, cs2, ls1, ls2. split; [|done].
  by rewrite !insert_app_r_alt, Hc, Hl, Nat.sub_diag in Hin' by lia.
Qed.

Lemma pair_set_right h x i a b la k lb p q b' lb' :
  pair_at h x i a b la k lb p q -> tree_of h b' lb' -> MIN_DEGREE - 1 <= numKeys b' ->
  exists x', set_child x (S i) b' = Ret x' /\ numKeys x' = numKeys x /\
    pair_at h x' i a b' la k lb' p q.
Proof.
  intros (ks1 & ks2 & cs1 & cs2 & ls1 & ls2 & Hin & Hk & Hc & Hl & -> & ->) Ht Hn.
  destruct (inode_replace h x _ _ _ (S i) b' lb' Hin) as (kids & Hst & Hin'); [|done..|].
  { rewrite length_app. simpl. lia. }
  eexists. unfold set_child. run_with Hst. split; [done|]. split; [done|].
  exists ks1, ks2, cs1, cs2, ls1, ls2. split; [|done].
  rewrite !insert_app_r_alt, Hc, Hl in Hin' by lia.
  by replace (S i - i) with 1 in Hin' by lia.
Qed.

(** A pair sits at every key index, and at every child but one the pair may be on either side. *)
Lemma tree_pair h x l i :
  tree_of (S h) x l -> i < numKeys x ->
  exists a b la k lb p q, pair_at h x i a b la k lb p q /\ l = p ++ la ++ k :: lb ++ q.
Proof.
  intros Ht Hi. destruct (tree_focus h x l i Ht) as (c & lc & p & q & Hf & ->); [lia|].
  destruct Hf as (ks1 & ks2 & cs1 & cs2 & ls1 & ls2 & Hin & Hk & Hc & Hl & -> & ->).
  pose proof (inode_lengths_split _ _ _ _ _ _ _ _ _ _ Hin) as (? & ? & ?).
  destruct ks2 as [|k ks2]; [simpl in *; lia|]. destruct cs2 as [|b cs2]; [simpl in *; lia|].
  destruct ls2 as [|lb ls2]; [simpl in *; lia|].
  exists c, b, lc, k, lb, (wpre ls1 ks1), (wpost ks2 ls2). split; [|done].
  by exists ks1, ks2, cs1, cs2, ls1, ls2.
Qed.

Lemma focus_pair_left h x i c lc p q :
  focus h x i c lc p q -> i < numKeys x ->
  exists b k lb q', pair_at h x i c b lc k lb p q' /\ q = k :: lb ++ q'.
Proof.
  intros (ks1 & ks2 & cs1 & cs2 & ls1 & ls2 & Hin & Hk & Hc & Hl & -> & ->) Hi.
  pose proof (inode_lengths_split _ _ _ _ _ _ _ _ _ _ Hin) as (? & ? & ?).
  destruct ks2 as [|k ks2]; [simpl in *; lia|]. destruct cs2 as [|b cs2]; [simpl in *; lia|].
  destruct ls2 as [|lb ls2]; [simpl in *; lia|].
  exists b, k, lb, (wpost ks2 ls2). split; [|done].
  by exists ks1, ks2, cs1, cs2, ls1, ls2.
Qed.

Lemma focus_pair_right h x i c lc p q :
  focus h x (S i) c lc p q ->
  exists a la k p', pair_at h x i a c la k lc p' q /\ p = p' ++ la ++ [k].
Proof.
  intros (ks1 & ks2 & cs1 & cs2 & ls1 & ls2 & Hin & Hk & Hc & Hl & -> & ->).
  destruct (snoc_inv ks1) as [->|(ks1' & k & ->)]; [done|].
  destruct (snoc_inv cs1) as [->|(cs1' & a & ->)]; [done|].
  destruct (snoc_inv ls1) as [->|(ls1' & la & ->)]; [done|].
  rewrite !length_app in *. simpl in *. rewrite <-!app_assoc in Hin. simpl in Hin.
  exists a, la, k, (wpre ls1' ks1'). rewrite wpre_snoc by lia. split; [|done].
  exists ks1', ks2, cs1', cs2, ls1', ls2. split; [done|]. repeat split; lia.
Qed.

(** ** Moving the ends of a node *)

(** The child pointer that moves along with a key of a node of height [h], and its contents. *)
Definition moved (h : nat) (g : option BTreeNode) (r : list Z) : Prop :=
  match h with
  | O => r = []
  | S h => exists c, g = Some c /\ tree_of h c r /\ MIN_DEGREE - 1 <= numKeys c
  end.

(** A node without its last key and last child. *)
Lemma node_drop_last h s la n :
  tree_of h s la -> numKeys s = S n ->
  exists m g la' r, keys s !! n = Some m /\ children s !! (S n) = Some g /\ la = la' ++ m :: r /\
    tree_of h (MkNode (leaf s) n (keys s) (children s)) la' /\
    moved h g r.
Proof.
  intros Ht Hn. pose proof (tree_shape _ _ _ Ht) as Hsh. pose proof Hsh as (HK & HC & Hmax).
  destruct (lookup_lt_is_Some_2 (keys s) n) as [m Hm]; [lia|].
  destruct (lookup_lt_is_Some_2 (children s) (S n)) as [g Hg]; [unfold MIN_DEGREE in *; lia|].
  assert (Hsh' : shape (MkNode (leaf s) n (keys s) (children s))) by solve_shape.
  destruct h as [|h].
  - destruct Ht as (_ & Hl & ->). exists m, g, (take n (keys s)), []. do 2 (split; [done|]).
    split; [unfold live_keys; by rewrite Hn, (take_S_r _ _ m)|].
    split; [|done]. split; [done|]. by split.
  - apply tree_inode in Ht as (cs & ls & Hin & ->).
    pose proof (inode_lengths _ _ _ _ _ Hin) as (_ & Hlc & Hll).
    destruct (snoc_inv cs) as [->|(cs' & c & ->)]; [done|].
    destruct (snoc_inv ls) as [->|(ls' & lg & ->)]; [done|].
    rewrite !length_app in Hlc, Hll; simpl in *.
    destruct Hin as (_ & Hl & _ & Hkids & HF). apply Forall2_app_inv in HF as [HF HFg]; [|lia].
    apply Forall2_cons in HFg as [[Hgt Hgn] _].
    unfold live_kids in Hkids. rewrite Hn, (take_S_r _ _ g), fmap_app in Hkids by done.
    apply app_inj_tail in Hkids as [Hkids ->].
    exists m, (Some c), (weave ls' (take n (keys s))), lg. split; [done|]. split; [done|].
    split; [|split].
    + unfold live_keys. rewrite Hn, (take_S_r _ _ m) by done.
      rewrite weave_app by (rewrite length_take; lia). done.
    + split; [done|]. split; [done|]. exists cs', ls'. done.
    + by exists c.
Qed.

(** A node with a key and a child pushed in front. *)
Lemma node_cons h c lb k g r cks ccs :
  tree_of h c lb -> numKeys c < 2 * MIN_DEGREE - 1 -> moved h g r ->
  length cks = length (keys c) -> length ccs = length (children c) ->
  take (S (numKeys c)) cks = k :: live_keys c ->
  (leaf c = false -> take (S (S (numKeys c))) ccs = g :: live_kids c) ->
  tree_of h (MkNode (leaf c) (S (numKeys c)) cks ccs) (r ++ k :: lb).
Proof.
  intros Ht Hn Hg Hlk Hlc Hks Hcs. pose proof (tree_shape _ _ _ Ht) as (HK & HC & _).
  assert (Hsh : shape (MkNode (leaf c) (S (numKeys c)) cks ccs)) by solve_shape.
  destruct h as [|h]; cbn [moved] in Hg.
  - subst r. destruct Ht as (_ & Hl & ->). split; [done|]. split; [done|]. by symmetry.
  - destruct Hg as (cg & -> & Hcg & Hmin).
    destruct Ht as (_ & Hl & cs & ls & Hkids & HF & ->). split; [done|]. split; [done|].
    exists (cg :: cs), (r :: ls). unfold live_kids at 1, live_keys; cbn [numKeys keys children].
    rewrite Hcs, Hks, Hkids by done. split; [done|]. split; [by constructor|done].
Qed.

(** A node with a key and a child pushed at the end. *)
Lemma node_snoc h c la k g r cks ccs :
  tree_of h c la -> numKeys c < 2 * MIN_DEGREE - 1 -> moved h g r ->
  length cks = length (keys c) -> length ccs = length (children c) ->
  take (S (numKeys c)) cks = live_keys c ++ [k] ->
  (leaf c = false -> take (S (S (numKeys c))) ccs = live_kids c ++ [g]) ->
  tree_of h (MkNode (leaf c) (S (numKeys c)) cks ccs) (la ++ k :: r).
Proof.
  intros Ht Hn Hg Hlk Hlc Hks Hcs. pose proof (tree_shape _ _ _ Ht) as (HK & HC & _).
  assert (Hsh : shape (MkNode (leaf c) (S (numKeys c)) cks ccs)) by solve_shape.
  destruct h as [|h]; cbn [moved] in Hg.
  - subst r. destruct Ht as (_ & Hl & ->). split; [done|]. split; [done|]. by symmetry.
  - destruct Hg as (cg & -> & Hcg & Hmin). apply tree_inode in Ht as (cs & ls & Hin & ->).
    pose proof (inode_lengths _ _ _ _ _ Hin) as (Hk & _ & Hll).
    destruct Hin as (_ & Hl & _ & Hkids & HF). split; [done|]. split; [done|].
    exists (cs ++ [cg]), (ls ++ [r]). unfold live_kids at 1, live_keys at 2.
    cbn [numKeys keys children]. rewrite Hcs, Hks, Hkids, fmap_app by done. split; [done|].
    split; [by apply Forall2_app; [|constructor]|]. by rewrite weave_app by lia.
Qed.

(** Two nodes joined around a key. *)
Lemma node_join h a b la lb k y :
  tree_of h a la -> tree_of h b lb -> shape y -> leaf y = leaf a ->
  live_keys y = live_keys a ++ k :: live_keys b ->
  (leaf a = false -> live_kids y = live_kids a ++ live_kids b) ->
  tree_of h y (la ++ k :: lb).
Proof.
  intros Ha Hb Hsh Hlf Hks Hcs. destruct h as [|h].
  - destruct Ha as (_ & Hla & ->), Hb as (_ & Hlb & ->). split; [done|].
    rewrite Hlf. by split.
  - apply tree_inode in Ha as (ca & lsa & Ha & ->), Hb as (cb & lsb & Hb & ->).
    pose proof (inode_lengths _ _ _ _ _ Ha) as (Hlk & _ & Hll).
    destruct Ha as (_ & Hla & _ & Hka & HFa), Hb as (_ & Hlb & _ & Hkb & HFb).
    split; [done|]. split; [congruence|]. exists (ca ++ cb), (lsa ++ lsb).
    rewrite Hcs, Hks, Hka, Hkb, fmap_app by done. split; [done|].
    split; [by apply Forall2_app|]. by rewrite weave_app by lia.
Qed.

(** A node after its first key and first child have been taken out by the two loops. *)
Lemma node_drop_first h s lb n :
  tree_of h s lb -> numKeys s = S n ->
  exists m g lb' r sks scs, keys s !! 0 = Some m /\ children s !! 0 = Some g /\
    lb = r ++ m :: lb' /\ moved h g r /\
    shift_down n 1 (keys s) = Ret sks /\
    (if leaf s then Ret (children s) else shift_down (S n) 1 (children s)) = Ret scs /\
    tree_of h (MkNode (leaf s) n sks scs) lb'.
Proof.
  intros Ht Hn. pose proof (tree_shape _ _ _ Ht) as Hsh. pose proof Hsh as (HK & HC & Hmax).
  destruct (lookup_lt_is_Some_2 (keys s) 0) as [m Hm]; [lia|].
  destruct (lookup_lt_is_Some_2 (children s) 0) as [g Hg]; [unfold MIN_DEGREE in *; lia|].
  destruct (remove_at_spec n 1 (keys s)) as (sks & Hsks & Hsl & Hst); [lia..|].
  destruct (remove_at_spec (S n) 1 (children s)) as (scs & Hscs & Hcl & Hct);
    [unfold MIN_DEGREE in *; lia..|].
  cbn [Nat.sub Nat.add take app] in Hst, Hct.
  destruct h as [|h].
  - destruct Ht as (_ & Hl & ->). exists m, g, (take n sks), [], sks, (children s).
    rewrite Hl. do 2 (split; [done|]). split; [|do 3 (split; [done|])].
    + unfold live_keys. rewrite Hst, Hn. destruct (keys s); by simplify_eq/=.
    + split; [solve_shape|done].
  - apply tree_inode in Ht as (cs & ls & Hin & ->).
    pose proof (inode_lengths _ _ _ _ _ Hin) as (_ & Hlc & Hll).
    destruct cs as [|c cs]; [done|]. destruct ls as [|lg ls]; [done|].
    destruct Hin as (_ & Hl & _ & Hkids & HF). apply Forall2_cons in HF as [[Hgt Hgn] HF].
    unfold live_kids in Hkids. rewrite Hn in Hkids. rewrite Hkids in Hct.
    assert (g = Some c) as ->.
    { destruct (children s); [done|]. by simplify_eq/=. }
    exists m, (Some c), (weave ls (take n sks)), lg, sks, scs. rewrite Hl.
    do 2 (split; [done|]). split; [|split; [by exists c|]; do 2 (split; [done|])].
    + unfold live_keys. rewrite Hst, Hn. destruct (keys s); by simplify_eq/=.
    + split; [solve_shape|]. split; [done|]. by exists cs, ls.
Qed.

(** ** Borrowing and merging *)

Lemma pair_parts h x i a b la k lb p q :
  pair_at h x i a b la k lb p q ->
  child x i = Ret a /\ child x (S i) = Ret b /\ tree_of h a la /\ tree_of h b lb /\
  MIN_DEGREE - 1 <= numKeys a /\ MIN_DEGREE - 1 <= numKeys b /\ i < numKeys x /\
  leaf x = false /\ load (keys x) i = Ret k.
Proof.
  intros Hp. destruct (pair_set_key _ _ _ _ _ _ _ _ _ _ k Hp) as (_ & Hk & _ & _).
  apply pair_focus in Hp as [H1 H2]. pose proof (focus_leaf _ _ _ _ _ _ _ H1) as [Hl _].
  apply focus_child in H1 as (? & ? & ? & _), H2 as (? & ? & ? & ?). repeat split; (done || lia).
Qed.

(** The sibling's last key moves up, the separating key moves down in front of the child. *)
Lemma borrowFromPrev_ok h x i a b la k lb p q :
  pair_at h x i a b la k lb p q -> MIN_DEGREE <= numKeys a -> numKeys b < 2 * MIN_DEGREE - 1 ->
  exists x' a' b' la' m r, borrowFromPrev (S i) x = Ret x' /\
    pair_at h x' i a' b' la' m (r ++ k :: lb) p q /\ la = la' ++ m :: r /\
    numKeys x' = numKeys x /\ numKeys b' = S (numKeys b).
Proof.
  intros Hp Ha Hb.
  pose proof (pair_parts _ _ _ _ _ _ _ _ _ _ Hp) as (Hca & Hcb & Hta & Htb & _ & Hbm & _ & Hl & Hk).
  pose proof (tree_shape _ _ _ Htb) as (HKb & HCb & _).
  destruct (numKeys a) as [|n] eqn:Hn; [unfold MIN_DEGREE in *; lia|].
  destruct (node_drop_last h a la n Hta Hn) as (m & g & la' & r & Hm & Hg & -> & Hta' & Hmv).
  destruct (insert_at_spec (numKeys b) 0 (keys b) k) as (k1 & k2 & Hk1 & Hk2 & _ & Hkl & Hkt); [lia|].
  destruct (insert_at_spec (S (numKeys b)) 0 (children b) g)
    as (c1 & c2 & Hc1 & Hc2 & Hcl1 & Hcl & Hct); [unfold MIN_DEGREE in *; lia|].
  cbn [Nat.add take app drop] in Hkt, Hct.
  assert (exists d1 d2, (if leaf b then Ret (children b)
                         else shift_up (S (numKeys b)) 0 (children b)) = Ret d1 /\
            store d1 0 g = Ret d2 /\ length d2 = length (children b) /\
            (leaf b = false -> take (S (S (numKeys b))) d2 = g :: live_kids b))
    as (d1 & d2 & Hd1 & Hd2 & Hdl & Hdt).
  { destruct (leaf b); [|by exists c1, c2]. exists (children b), (<[0 := g]> (children b)).
    rewrite store_Ret, length_insert by (unfold MIN_DEGREE in *; lia). done. }
  pose proof (node_cons h b lb k g r k2 d2 Htb Hb Hmv Hkl Hdl Hkt Hdt) as Htb'.
  set (b' := MkNode (leaf b) (S (numKeys b)) k2 d2) in *.
  set (a' := MkNode (leaf a) n (keys a) (children a)) in *.
  destruct (pair_set_key _ _ _ _ _ _ _ _ _ _ m Hp) as (ks & _ & Hks & Hp1).
  destruct (pair_set_right _ _ _ _ _ _ _ _ _ _ b' _ Hp1 Htb') as (x2 & Hx2 & Hn2 & Hp2);
    [cbn; unfold MIN_DEGREE in *; lia|].
  destruct (pair_set_left _ _ _ _ _ _ _ _ _ _ a' _ Hp2 Hta') as (x3 & Hx3 & Hn3 & Hp3);
    [cbn; unfold MIN_DEGREE in *; lia|].
  exists x3, a', b', la', m, r. split; [|do 2 (split; [done|]); split; [by rewrite Hn3, Hn2|done]].
  unfold borrowFromPrev. run_with Hcb. cbn [last_index]. obind. run_with Hca. run_with Hk1.
  run_with Hd1. run_with Hk. run_with Hk2. rewrite Hl, Hn, (load_Ret _ _ _ Hg). obind.
  run_with Hd2. cbn [last_index]. obind. rewrite (load_Ret _ _ _ Hm). obind. run_with Hks. fold b'.
  rewrite <-Hl. run_with Hx2. by replace (S n - 1) with n by lia.
Qed.

(** The separating key moves down behind the child, the sibling's first key moves up. *)
Lemma borrowFromNext_ok h x i a b la k lb p q :
  pair_at h x i a b la k lb p q -> MIN_DEGREE <= numKeys b -> numKeys a < 2 * MIN_DEGREE - 1 ->
  exists x' a' b' lb' m r, borrowFromNext i x = Ret x' /\
    pair_at h x' i a' b' (la ++ k :: r) m lb' p q /\ lb = r ++ m :: lb' /\
    numKeys x' = numKeys x /\ numKeys a' = S (numKeys a).
Proof.
  intros Hp Hb Ha.
  pose proof (pair_parts _ _ _ _ _ _ _ _ _ _ Hp) as (Hca & Hcb & Hta & Htb & Ham & _ & _ & Hl & Hk).
  pose proof (tree_shape _ _ _ Hta) as (HKa & HCa & _).
  destruct (numKeys b) as [|n] eqn:Hn; [unfold MIN_DEGREE in *; lia|].
  destruct (node_drop_first h b lb n Htb Hn)
    as (m & g & lb' & r & sks & scs & Hm & Hg & -> & Hmv & Hsks & Hscs & Htb').
  set (k2 := <[numKeys a := k]> (keys a)).
  set (d2 := if leaf a then children a else <[S (numKeys a) := g]> (children a)).
  assert (Hta' : tree_of h (MkNode (leaf a) (S (numKeys a)) k2 d2) (la ++ k :: r)).
  { apply (node_snoc h a la k g r k2 d2); try done.
    - apply length_insert.
    - unfold d2. destruct (leaf a); [done|apply length_insert].
    - apply take_S_insert. lia.
    - unfold d2. intros ->. apply take_S_insert. unfold MIN_DEGREE in *. lia. }
  set (a' := MkNode (leaf a) (S (numKeys a)) k2 d2) in *.
  set (b' := MkNode (leaf b) n sks scs) in *.
  destruct (pair_set_key _ _ _ _ _ _ _ _ _ _ m Hp) as (ks & _ & Hks & Hp1).
  destruct (pair_set_left _ _ _ _ _ _ _ _ _ _ a' _ Hp1 Hta') as (x2 & Hx2 & Hn2 & Hp2);
    [cbn; unfold MIN_DEGREE in *; lia|].
  destruct (pair_set_right _ _ _ _ _ _ _ _ _ _ b' _ Hp2 Htb') as (x3 & Hx3 & Hn3 & Hp3);
    [cbn; unfold MIN_DEGREE in *; lia|].
  exists x3, a', b', lb', m, r. split; [|do 2 (split; [done|]); split; [by rewrite Hn3, Hn2|done]].
  unfold borrowFromNext. run_with Hca. run_with Hcb. run_with Hk.
  rewrite store_Ret by lia. obind. fold k2.
  assert (Hd2 : (if leaf a then Ret (children a)
                 else g0 ← load (children b) 0; store (children a) (S (numKeys a)) g0) = Ret d2).
  { unfold d2. destruct (leaf a); [done|]. rewrite (load_Ret _ _ _ Hg). obind.
    apply store_Ret. unfold MIN_DEGREE in *. lia. }
  run_with Hd2. rewrite (load_Ret _ _ _ Hm). obind. run_with Hks. rewrite Hn.
  replace (S n - 1) with n by lia. run_with Hsks. run_with Hscs. fold a' b'. by run_with Hx2.
Qed.

(** The child arrays that [merge] builds. *)
Lemma merge_arrays h a b la lb k :
  tree_of h a la -> tree_of h b lb ->
  numKeys a = MIN_DEGREE - 1 -> numKeys b = MIN_DEGREE - 1 ->
  exists k1 k2 cs, store (keys a) (MIN_DEGREE - 1) k = Ret k1 /\
    copy_loop (numKeys b) 0 MIN_DEGREE 0 k1 (keys b) = Ret k2 /\
    (if leaf a then Ret (children a)
     else copy_loop (S (numKeys b)) 0 MIN_DEGREE 0 (children a) (children b)) = Ret cs /\
    tree_of h (MkNode (leaf a) (numKeys a + (numKeys b + 1)) k2 cs) (la ++ k :: lb).
Proof.
  intros Ha Hb Hna Hnb.
  pose proof (tree_shape _ _ _ Ha) as (HKa & HCa & _).
  pose proof (tree_shape _ _ _ Hb) as (HKb & HCb & _).
  set (k1 := <[MIN_DEGREE - 1 := k]> (keys a)).
  destruct (copy_spec (numKeys b) MIN_DEGREE 0 k1 (keys b)) as (k2 & Hk2 & Hkl & Hkt);
    [unfold k1; rewrite ?length_insert; unfold MIN_DEGREE in *; lia..|].
  destruct (copy_spec (S (numKeys b)) MIN_DEGREE 0 (children a) (children b))
    as (c2 & Hc2 & Hcl & Hct); [unfold MIN_DEGREE in *; lia..|].
  set (cs := if leaf a then children a else c2).
  exists k1, k2, cs. split; [apply store_Ret; unfold MIN_DEGREE in *; lia|]. split; [done|].
  split; [unfold cs; by destruct (leaf a)|].
  assert (Hlen : numKeys a + (numKeys b + 1) = MIN_DEGREE + numKeys b)
    by (unfold MIN_DEGREE in *; lia).
  unfold k1 in Hkl. rewrite length_insert in Hkl.
  apply (node_join h a b la lb k); try done; rewrite Hlen.
  - unfold cs. destruct (leaf a); solve_shape.
  - unfold live_keys at 1; cbn [numKeys keys]. rewrite Hkt. unfold k1, live_keys.
    replace MIN_DEGREE with (S (numKeys a)) at 1 by (unfold MIN_DEGREE in *; lia).
    rewrite <-Hna, take_S_insert, <-app_assoc by (unfold MIN_DEGREE in *; lia). done.
  - unfold live_kids at 1, cs; cbn [numKeys children]. intros ->.
    replace (S (MIN_DEGREE + numKeys b)) with (MIN_DEGREE + S (numKeys b)) by lia. rewrite Hct.
    unfold live_kids. f_equal. f_equal. unfold MIN_DEGREE in *. lia.
Qed.

(** The separating key moves down between two small children, which become one full child. *)
Lemma merge_ok h x i a b la k lb p q :
  pair_at h x i a b la k lb p q ->
  numKeys a = MIN_DEGREE - 1 -> numKeys b = MIN_DEGREE - 1 ->
  exists x' c, merge i x = Ret x' /\ focus h x' i c (la ++ k :: lb) p q /\
    S (numKeys x') = numKeys x /\ numKeys c = 2 * MIN_DEGREE - 1.
Proof.
  intros Hp Ha Hb.
  pose proof (pair_parts _ _ _ _ _ _ _ _ _ _ Hp) as (Hca & Hcb & Hta & Htb & _ & _ & Hi & Hl & Hk).
  destruct (merge_arrays h a b la lb k Hta Htb Ha Hb) as (k1 & k2 & cs & Hk1 & Hk2 & Hcs & Ht).
  set (c := MkNode (leaf a) (numKeys a + (numKeys b + 1)) k2 cs) in *.
  destruct Hp as (ks1 & ks2 & cs1 & cs2 & ls1 & ls2 & Hin & Hlk & Hlc & Hll & -> & ->).
  destruct Hin as (Hsh & _ & Hks & Hkids & HF). pose proof Hsh as (HK & HC & Hmax).
  destruct (remove_at_spec (numKeys x - S i) (S i) (keys x)) as (xk & Hxk & Hxkl & Hxkt); [lia..|].
  destruct (remove_at_spec (S (numKeys x) - S (S i)) (S (S i)) (<[i := Some c]> (children x)))
    as (xc & Hxc & Hxcl & Hxct); [lia|rewrite length_insert; unfold MIN_DEGREE in *; lia|].
  exists (MkNode (leaf x) (numKeys x - 1) xk xc), c. split; [|split; [|split]].
  - unfold merge. run_with Hca. run_with Hcb. run_with Hk. run_with Hk1. run_with Hk2.
    run_with Hcs. run_with Hxk. fold c. unfold set_child; cbn [children leaf numKeys keys].
    rewrite store_Ret by (unfold MIN_DEGREE in *; lia). obind. cbn [numKeys children keys leaf].
    by run_with Hxc.
  - exists ks1, ks2, cs1, cs2, ls1, ls2. split; [|done].
    replace (S i + (numKeys x - S i)) with (numKeys x) in Hxkt by lia.
    replace (S (S i) + (S (numKeys x) - S (S i))) with (S (numKeys x)) in Hxct by lia.
    rewrite length_insert in Hxcl.
    split; [solve_shape|]. split; [done|]. split; [|split].
    + unfold live_keys in *; cbn [numKeys keys].
      replace (numKeys x - 1) with (S i - 1 + (numKeys x - S i)) by lia. rewrite Hxkt, Hks.
      replace (S i - 1) with (i `min` numKeys x) by lia. rewrite <-take_take, Hks, <-Hlk.
      rewrite take_app_length, drop_app_ge by lia. by replace (S (length ks1) - length ks1) with 1 by lia.
    + unfold live_kids in *; cbn [numKeys children].
      replace (S (numKeys x - 1)) with (S (S i) - 1 + (S (numKeys x) - S (S i))) by lia.
      rewrite Hxct. replace (S (S i) - 1) with (S i `min` S (numKeys x)) by lia.
      rewrite <-take_take, take_insert_lt, Hkids by lia.
      rewrite fmap_app, insert_app_r_alt by (rewrite length_fmap; lia).
      rewrite length_fmap, Hlc, Nat.sub_diag. cbn [fmap list_fmap insert list_insert].
      rewrite take_app_ge, drop_app_ge by (rewrite length_fmap; lia).
      rewrite !length_fmap, Hlc. replace (S i - i) with 1 by lia.
      replace (S (S i) - i) with 2 by lia. simpl. by rewrite fmap_app, <-app_assoc.
    + apply Forall2_app_inv in HF as [HF1 HF2]; [|lia]. rewrite !Forall2_cons in HF2.
      apply Forall2_app; [done|]. constructor; [split; [done|cbn; unfold MIN_DEGREE in *; lia]|apply HF2].
  - cbn. lia.
  - cbn. unfold MIN_DEGREE in *. lia.
Qed.

(** What [fill(i)] has to achieve: the contents stay, and the child that the descent continues in
    has grown by what left its neighbourhood. *)
Definition filled (h : nat) (x : BTreeNode) (i : nat) (lc p q : list Z) (x' : BTreeNode) : Prop :=
  exists c' lc' p' q' r r',
    focus h x' (if bool_decide (numKeys x' < i) then i - 1 else i) c' lc' p' q' /\
    p = p' ++ r /\ q = r' ++ q' /\ lc' = r ++ lc ++ r' /\ MIN_DEGREE <= numKeys c' /\
    numKeys x - 1 <= numKeys x' <= numKeys x.

Lemma fill_prev h x i a c la k lc p q :
  pair_at h x i a c la k lc p q -> numKeys c = MIN_DEGREE - 1 -> MIN_DEGREE <= numKeys a ->
  exists x', borrowFromPrev (S i) x = Ret x' /\ filled h x (S i) lc (p ++ la ++ [k]) q x'.
Proof.
  intros Hp Hc Hbig. pose proof (pair_parts _ _ _ _ _ _ _ _ _ _ Hp) as (_ & _ & _ & _ & _ & _ & Hi & _).
  destruct (borrowFromPrev_ok _ _ _ _ _ _ _ _ _ _ Hp Hbig) as
    (x' & a' & b' & la' & m & r & Hb & Hp' & -> & Hn & Hnb); [unfold MIN_DEGREE in *; lia|].
  exists x'. split; [done|]. exists b', (r ++ k :: lc), (p ++ la' ++ [m]), q, (r ++ [k]), [].
  rewrite bool_decide_eq_false_2 by lia.
  split; [by apply pair_focus in Hp' as [_ Hp']|]. rewrite app_nil_r, <-!app_assoc. simpl.
  repeat split; unfold MIN_DEGREE in *; lia.
Qed.

Lemma fill_last h x i a c la k lc p q :
  pair_at h x i a c la k lc p q -> numKeys c = MIN_DEGREE - 1 -> numKeys a = MIN_DEGREE - 1 ->
  S i = numKeys x ->
  exists x', merge i x = Ret x' /\ filled h x (S i) lc (p ++ la ++ [k]) q x'.
Proof.
  intros Hp Hc Ha Hi.
  destruct (merge_ok _ _ _ _ _ _ _ _ _ _ Hp Ha Hc) as (x' & c' & Hm & Hf' & Hn & Hnc).
  exists x'. split; [done|]. exists c', (la ++ k :: lc), p, q, (la ++ [k]), [].
  rewrite bool_decide_eq_true_2 by lia. replace (S i - 1) with i by lia.
  split; [done|]. rewrite app_nil_r, <-!app_assoc.
  repeat split; unfold MIN_DEGREE in *; lia.
Qed.

(** The branches of [fill] on a child that is not the last one, after the left sibling is ruled out. *)
Lemma fill_next h x i c lc p q :
  focus h x i c lc p q -> numKeys c = MIN_DEGREE - 1 -> i < numKeys x ->
  exists x' s, child x (S i) = Ret s /\
    (if bool_decide (MIN_DEGREE <= numKeys s) then borrowFromNext i x else merge i x) = Ret x' /\
    filled h x i lc p q x'.
Proof.
  intros Hf Hc Hi. destruct (focus_pair_left _ _ _ _ _ _ _ Hf Hi) as (b & k & lb & q' & Hp & ->).
  pose proof (pair_parts _ _ _ _ _ _ _ _ _ _ Hp) as (_ & Hcb & _ & _ & _ & Hbm & _).
  destruct (decide (MIN_DEGREE <= numKeys b)) as [Hbig|Hbig].
  - destruct (borrowFromNext_ok _ _ _ _ _ _ _ _ _ _ Hp Hbig) as
      (x' & a' & b' & lb' & m & r & Hb & Hp' & -> & Hn & Hna); [unfold MIN_DEGREE in *; lia|].
    exists x', b. split; [done|]. rewrite bool_decide_eq_true_2 by done. split; [done|].
    exists a', (lc ++ k :: r), p, (m :: lb' ++ q'), [], (k :: r).
    rewrite bool_decide_eq_false_2, app_nil_r by lia.
    split; [by apply pair_focus in Hp' as [Hp' _]|]. cbn [app]. rewrite <-app_assoc.
    repeat split; unfold MIN_DEGREE in *; lia.
  - destruct (merge_ok _ _ _ _ _ _ _ _ _ _ Hp Hc) as (x' & c' & Hm & Hf' & Hn & Hnc);
      [unfold MIN_DEGREE in *; lia|].
    exists x', b. split; [done|]. rewrite bool_decide_eq_false_2 by done. split; [done|].
    exists c', (lc ++ k :: lb), p, q', [], (k :: lb).
    rewrite bool_decide_eq_false_2, app_nil_r by lia.
    repeat split; try done; unfold MIN_DEGREE in *; lia.
Qed.

Lemma fill_ok h x i c lc p q :
  focus h x i c lc p q -> numKeys c = MIN_DEGREE - 1 -> 1 <= numKeys x ->
  exists x', fill i x = Ret x' /\ filled h x i lc p q x'.
Proof.
  intros Hf Hc Hx. pose proof (focus_child _ _ _ _ _ _ _ Hf) as (_ & _ & _ & Hi). unfold fill.
  assert (Hrest : i < numKeys x -> exists x',
    (next ← (if decide (i = numKeys x) then Ret false
            else s ← child x (S i); Ret (bool_decide (MIN_DEGREE <= numKeys s)));
    if (next : bool) then borrowFromNext i x
    else if decide (i = numKeys x) then (j ← last_index i; merge j x) else merge i x) = Ret x' /\
    filled h x i lc p q x').
  { intros Hlt. destruct (fill_next _ _ _ _ _ _ _ Hf Hc Hlt) as (x' & s & Hs & Hr & Hfl).
    exists x'. rewrite !decide_False by lia. run_with Hs. by split. }
  destruct i as [|i]; [destruct (decide (0 = 0)) as [_|?]; [|done]; obind; apply Hrest; lia|].
  destruct (decide (S i = 0)) as [?|_]; [lia|]. replace (S i - 1) with i by lia.
  destruct (focus_pair_right _ _ _ _ _ _ _ Hf) as (a & la & k & p' & Hp & ->).
  pose proof (pair_parts _ _ _ _ _ _ _ _ _ _ Hp) as (Hca & _ & _ & _ & Ham & _).
  run_with Hca. destruct (bool_decide (MIN_DEGREE <= numKeys a)) eqn:Hbig.
  { apply bool_decide_eq_true in Hbig. by eapply fill_prev. }
  apply bool_decide_eq_false in Hbig. destruct (decide (S i < numKeys x)) as [Hlt|Hge]; [by apply Hrest|].
  rewrite !decide_True by lia. obind. cbn [last_index]. obind.
  eapply fill_last; unfold MIN_DEGREE in *; (done || lia).
Qed.

(** ** Neighbours from below *)

Lemma pred_below_ok h : forall fuel c l,
  tree_of h c l -> 1 <= numKeys c -> h < fuel ->
  exists m, pred_below fuel c = Ret m /\ m ∈ l /\ (h = 0 -> exists l0, l = l0 ++ [m]).
Proof.
  induction h as [|h IH]; intros [|fuel] c l Ht Hn Hf; try lia; cbn [pred_below];
    destruct (numKeys c) as [|n] eqn:Hnc; try lia; cbn [last_index]; obind.
  - destruct (node_drop_last 0 c l n Ht Hnc) as (m & g & l0 & r & Hm & _ & -> & _ & Hr).
    cbn [moved] in Hr. subst r. destruct Ht as (_ & Hl & _). rewrite Hl, (load_Ret _ _ _ Hm).
    exists m. split; [done|]. split; [set_solver|eauto].
  - destruct (tree_focus h c l n Ht) as (d & ld & p & q & Hfo & ->); [lia|].
    pose proof (focus_leaf _ _ _ _ _ _ _ Hfo) as [-> _].
    apply focus_child in Hfo as (Hd & Htd & Hmin & _). run_with Hd.
    destruct (IH fuel d ld Htd) as (m & Hm & Hin & _); [unfold MIN_DEGREE in *; lia|lia|].
    exists m. split; [done|]. split; [set_solver|done].
Qed.

Lemma focus_first h x c lc p q : focus h x 0 c lc p q -> p = [].
Proof.
  intros (ks1 & ks2 & cs1 & cs2 & ls1 & ls2 & _ & Hk & _ & Hl & -> & _).
  by apply length_zero_iff_nil in Hk, Hl as ->.
Qed.

Lemma succ_below_ok h : forall fuel c l,
  tree_of h c l -> 1 <= numKeys c -> h < fuel ->
  exists m l0, succ_below fuel c = Ret m /\ l = m :: l0.
Proof.
  induction h as [|h IH]; intros [|fuel] c l Ht Hn Hf; try lia; cbn [succ_below].
  - destruct (numKeys c) as [|n] eqn:Hnc; [lia|].
    destruct (node_drop_first 0 c l n Ht Hnc) as (m & g & l0 & r & _ & _ & Hm & _ & -> & Hr & _).
    cbn [moved] in Hr. subst r. destruct Ht as (_ & Hl & _). rewrite Hl, (load_Ret _ _ _ Hm). eauto.
  - destruct (tree_focus h c l 0 Ht) as (d & ld & p & q & Hfo & ->); [lia|].
    pose proof (focus_leaf _ _ _ _ _ _ _ Hfo) as [-> _].
    pose proof (focus_first _ _ _ _ _ _ Hfo) as ->.
    apply focus_child in Hfo as (Hd & Htd & Hmin & _). run_with Hd.
    destruct (IH fuel d ld Htd) as (m & l0 & Hm & ->); [unfold MIN_DEGREE in *; lia|lia|].
    by exists m, (l0 ++ q).
Qed.

(** ** Removal *)

(** [l'] is [l] without one [k], or [k] was not there and is reported. *)
Definition removed (k : Z) (l l' out : list Z) : Prop :=
  (k ∈ l /\ l ≡ₚ k :: l' /\ out = []) \/ ((k ∉ l) /\ l' = l /\ out = [k]).

Lemma removed_ctx k p q l l' out :
  k ∈ l \/ ((k ∉ p) /\ (k ∉ q)) -> removed k l l' out ->
  removed k (p ++ l ++ q) (p ++ l' ++ q) out.
Proof.
  intros Hk [(Hin & Hp & ->)|(Hnin & -> & ->)].
  - left. split; [set_solver|]. split; [|done].
    rewrite Hp. cbn [app]. symmetry. apply Permutation_middle.
  - right. split; [set_solver|done].
Qed.

Lemma removed_subset k l l' out y : removed k l l' out -> y ∈ l' -> y ∈ l.
Proof. intros [(_ & -> & _)|(_ & -> & _)]; [by right|done]. Qed.

Lemma removed_in k l l' out : removed k l l' out -> k ∈ l -> l ≡ₚ k :: l' /\ out = [].
Proof. intros [(_ & ? & ?)|(? & _)]; done. Qed.

(** Replacing the middle of a sorted list by a sorted list of some of its elements. *)
Lemma sorted_subst (p l l' q : list Z) :
  sorted (p ++ l ++ q) -> sorted l' -> (forall y, y ∈ l' -> y ∈ l) -> sorted (p ++ l' ++ q).
Proof.
  intros Hs Hl' Hsub. apply sorted_app_inv in Hs as (Hp & Hs & Hpq).
  apply sorted_app_inv in Hs as (_ & Hq & Hlq).
  apply sorted_app; [done|apply sorted_app; [done..|auto]|].
  intros y z Hy Hz. apply Hpq; [done|]. set_solver.
Qed.

(** What [remove] does below a node of height [h]. *)
Definition remove_ok (h : nat) : Prop := forall fuel k x l,
  tree_of h x l -> sorted l -> h = 0 \/ 1 <= numKeys x -> h < fuel ->
  exists x' l' out, remove fuel k x = Ret (x', out) /\ tree_of h x' l' /\ removed k l l' out /\
    numKeys x - 1 <= numKeys x' <= numKeys x /\ (h <= 1 -> sorted l').

(** Where [findKey] stops, and whether the key is there. *)
Lemma findKey_ok k x :
  shape x -> exists j, findKey k x = Ret j /\ j <= numKeys x /\
    (forall p y, p < j -> keys x !! p = Some y -> (y < k)%Z) /\
    exists found : bool,
      (if decide (j < numKeys x) then y ← load (keys x) j; Ret (y =? k)%Z else Ret false)
        = Ret found /\
      if found then j < numKeys x /\ keys x !! j = Some k
      else forall y, j < numKeys x -> keys x !! j = Some y -> (k < y)%Z.
Proof.
  intros (HK & _ & Hn).
  destruct (scan_up_spec (keys x) k (numKeys x) 0) as (j & Hscan & Hj & Hlt & Hge); [lia|].
  exists j. split; [done|]. split; [lia|]. split; [intros p y Hp; apply Hlt; lia|].
  destruct (decide (j < numKeys x)) as [Hjn|Hjn]; [|by exists false].
  destruct (load_lt (keys x) j) as (y & Hy & Hload); [lia|]. run_with Hload.
  exists (y =? k)%Z. split; [done|]. destruct (Z.eqb_spec y k) as [->|Hne]; [done|].
  intros z _ Hz. assert (z = y) as -> by congruence. specialize (Hge y Hjn Hy). lia.
Qed.

Lemma remove_leaf_ok : remove_ok 0.
Proof.
  intros [|fuel] k x l (Hsh & Hl & ->) Hs _ Hf; [lia|]. pose proof Hsh as (HK & HC & Hn).
  destruct (findKey_ok k x Hsh) as (j & Hj & Hjn & Hlt & found & Hfound & Hcase).
  cbn [remove]. run_with Hj. run_with Hfound. rewrite Hl. destruct found.
  - destruct Hcase as [Hjlt Hk].
    destruct (remove_at_spec (numKeys x - S j) (S j) (keys x)) as (a & Ha & Hlen & Ht); [lia..|].
    replace (S j + (numKeys x - S j)) with (numKeys x) in Ht by lia.
    replace (S j - 1 + (numKeys x - S j)) with (numKeys x - 1) in Ht by lia.
    replace (S j - 1) with j in Ht by lia. fold (live_keys x) in Ht.
    unfold removeFromLeaf. run_with Ha. rewrite Hl. eexists _, (take (numKeys x - 1) a), _.
    split; [done|]. split; [split; [solve_shape|done]|].
    assert (Hsplit : live_keys x = take j (live_keys x) ++ k :: drop (S j) (live_keys x)).
    { symmetry. by apply take_drop_middle, elem_of_live. }
    assert (Htj : take j (keys x) = take j (live_keys x)).
    { unfold live_keys. rewrite take_take. f_equal. lia. }
    rewrite Ht, Htj. split; [|split; [simpl; lia|]].
    + left. rewrite Hsplit at 1 2. split; [set_solver|]. split; [|done].
      symmetry. apply Permutation_middle.
    + intros _. rewrite Hsplit in Hs. apply (sorted_subst _ [k] [] _) in Hs; [done|constructor|].
      set_solver.
  - exists x, (live_keys x), [k]. split; [done|]. split; [by split|]. split; [|split; [lia|done]].
    right. split; [|done]. apply (leaf_absent x k j); (done || lia).
Qed.

(** The call on the child in focus. *)
Lemma remove_below_ok h fuel k x i c lc p q :
  remove_ok h -> focus h x i c lc p q -> sorted lc -> MIN_DEGREE <= numKeys c -> h < fuel ->
  exists x' c' lc' out, remove_below (remove fuel) i k x = Ret (x', out) /\
    focus h x' i c' lc' p q /\ numKeys x' = numKeys x /\ removed k lc lc' out /\
    (h <= 1 -> sorted lc').
Proof.
  intros IH Hfo Hs Hn Hf. pose proof (focus_child _ _ _ _ _ _ _ Hfo) as (Hc & Htc & _ & _).
  destruct (IH fuel k c lc Htc Hs) as (c' & lc' & out & Hr & Ht' & Hrem & Hn' & Hs');
    [unfold MIN_DEGREE in *; lia|done|].
  destruct (focus_set _ _ _ _ _ _ _ c' lc' Hfo Ht') as (x' & Hset & Hfo' & Hnx & _);
    [unfold MIN_DEGREE in *; lia|].
  exists x', c', lc', out. unfold remove_below. run_with Hc. run_with Hr. run_with Hset. done.
Qed.

(** The keys around the stop of [findKey] keep [k] out of the other parts of the node. *)
Lemma focus_absent h x j c lc p q k :
  focus h x j c lc p q -> sorted (p ++ lc ++ q) ->
  (forall i y, i < j -> keys x !! i = Some y -> (y < k)%Z) ->
  (forall y, j < numKeys x -> keys x !! j = Some y -> (k < y)%Z) -> (k ∉ p) /\ (k ∉ q).
Proof.
  intros (ks1 & ks2 & cs1 & cs2 & ls1 & ls2 & Hin & Hk & Hc & Hl & -> & ->) Hs Hlt Hgt.
  pose proof (inode_lengths_split _ _ _ _ _ _ _ _ _ _ Hin) as (Hn & _ & _).
  destruct Hin as (_ & _ & Hks & _ & _).
  assert (Hlook : forall i y, (ks1 ++ ks2) !! i = Some y -> keys x !! i = Some y /\ i < numKeys x).
  { intros i y Hy. rewrite <-Hks in Hy. unfold live_keys in Hy. by apply lookup_take_Some in Hy. }
  assert (Hp : Forall (fun y => y <= k - 1)%Z (wpre ls1 ks1)).
  { eapply wpre_bound; [lia|exact Hs|]. intros m Hm. rewrite last_lookup in Hm.
    pose proof (lookup_lt_Some _ _ _ Hm). destruct (Hlook (pred (length ks1)) m) as [Hm' _];
      [by rewrite lookup_app_l by done|]. apply Hlt in Hm'; lia. }
  assert (Hq : Forall (fun y => k + 1 <= y)%Z (wpost ks2 ls2)).
  { rewrite app_assoc in Hs. eapply wpost_bound; [exact Hs|]. intros m Hm.
    rewrite head_lookup in Hm. destruct (Hlook j m) as [Hm' Hj].
    - rewrite <-Hk, lookup_app_r, Nat.sub_diag by lia. done.
    - apply Hgt in Hm'; [lia|done]. }
  rewrite Forall_forall in Hp, Hq. split; intros Hk'; [apply Hp in Hk'|apply Hq in Hk']; lia.
Qed.

(** The descent of [remove] past an internal node that does not hold the key. *)
Lemma remove_descend_ok h fuel k x l j :
  remove_ok h -> tree_of (S h) x l -> sorted l -> 1 <= numKeys x -> h < fuel -> j <= numKeys x ->
  (forall i y, i < j -> keys x !! i = Some y -> (y < k)%Z) ->
  (forall y, j < numKeys x -> keys x !! j = Some y -> (k < y)%Z) ->
  exists x' l' out c, child x j = Ret c /\
    (x' ← (if decide (numKeys c < MIN_DEGREE) then fill j x else Ret x);
     if bool_decide (j = numKeys x) && bool_decide (numKeys x' < j)
     then (i ← last_index j; remove_below (remove fuel) i k x')
     else remove_below (remove fuel) j k x') = Ret (x', out) /\
    tree_of (S h) x' l' /\ removed k l l' out /\
    numKeys x - 1 <= numKeys x' <= numKeys x /\ (S h <= 1 -> sorted l').
Proof.
  intros IH Ht Hs Hx Hf Hj Hlt Hgt. destruct (tree_focus h x l j Ht Hj) as (c & lc & p & q & Hfo & ->).
  pose proof (focus_child _ _ _ _ _ _ _ Hfo) as (Hc & Htc & Hmin & _).
  destruct (focus_absent _ _ _ _ _ _ _ k Hfo Hs Hlt Hgt) as [Hp Hq].
  assert (exists x1 c1 lc1 p1 q1,
    (if decide (numKeys c < MIN_DEGREE) then fill j x else Ret x) = Ret x1 /\
    focus h x1 (if bool_decide (numKeys x1 < j) then j - 1 else j) c1 lc1 p1 q1 /\
    p ++ lc ++ q = p1 ++ lc1 ++ q1 /\ (k ∉ p1) /\ (k ∉ q1) /\ MIN_DEGREE <= numKeys c1 /\
    numKeys x - 1 <= numKeys x1 <= numKeys x)
    as (x1 & c1 & lc1 & p1 & q1 & Hfill & Hfo1 & Heq & Hp1 & Hq1 & Hc1 & Hn1).
  { destruct (decide (numKeys c < MIN_DEGREE)) as [Hsmall|Hbig].
    - destruct (fill_ok _ _ _ _ _ _ _ Hfo) as
        (x1 & Hfill & c1 & lc1 & p1 & q1 & r & r' & Hfo1 & -> & -> & -> & Hc1 & Hn1);
        [unfold MIN_DEGREE in *; lia|done|].
      exists x1, c1, (r ++ lc ++ r'), p1, q1. rewrite <-!app_assoc. set_solver.
    - exists x, c, lc, p, q. rewrite bool_decide_eq_false_2 by lia.
      repeat split; try done; lia. }
  rewrite Heq in *. apply sorted_app_inv in Hs as Hs1. destruct Hs1 as (_ & Hs1 & _).
  apply sorted_app_inv in Hs1 as (Hs1 & _).
  destruct (remove_below_ok h fuel k x1 _ c1 lc1 p1 q1 IH Hfo1 Hs1 Hc1 Hf)
    as (x2 & c2 & lc2 & out & Hrem & Hfo2 & Hn2 & Hr & Hs2).
  exists x2, (p1 ++ lc2 ++ q1), out, c. split; [done|]. run_with Hfill.
  split; [|split; [by eapply focus_tree|]; split; [apply removed_ctx; auto|]; split; [lia|]].
  - case_bool_decide as Hlow.
    + rewrite bool_decide_eq_true_2 by lia. destruct j; [lia|]. cbn [andb last_index]. obind.
      by replace (S j - 1) with j in Hrem by lia.
    + by rewrite andb_false_r.
  - intros Hh. eapply sorted_subst; [done|apply Hs2; lia|].
    intros y. by eapply removed_subset.
Qed.

(** A key that is replaced by an element that leaves the left or the right part. *)
Lemma replaced_left k m (p la la' lb q : list Z) :
  la ≡ₚ m :: la' -> p ++ la ++ k :: lb ++ q ≡ₚ k :: p ++ la' ++ m :: lb ++ q.
Proof.
  intros ->. rewrite (Permutation_middle p). f_equiv. cbn [app].
  rewrite <-(Permutation_middle la' (lb ++ q) m), <-(Permutation_middle la' (lb ++ q) k).
  apply perm_swap.
Qed.

Lemma replaced_right k m (p la lb lb' q : list Z) :
  lb ≡ₚ m :: lb' -> p ++ la ++ k :: lb ++ q ≡ₚ k :: p ++ la ++ m :: lb' ++ q.
Proof.
  intros ->. rewrite (Permutation_middle p). f_equiv.
  by rewrite <-(Permutation_middle la _ k).
Qed.

Lemma replaced_left_sorted k m (p la la' lb q : list Z) :
  sorted (p ++ (la ++ [m]) ++ k :: lb ++ q) -> sorted la' -> la ++ [m] ≡ₚ m :: la' ->
  sorted (p ++ la' ++ m :: lb ++ q).
Proof.
  intros Hs Hs' Hp. rewrite (cons_middle k), (app_assoc (la ++ [m])) in Hs.
  rewrite (cons_middle m), (app_assoc la'). apply (sorted_subst p _ _ _ Hs).
  - apply sorted_app_inv in Hs as (_ & Hs & _). apply sorted_app_inv in Hs as (Hs & _).
    apply sorted_app_inv in Hs as (Hs & _). apply sorted_app_inv in Hs as (_ & _ & Hle).
    apply sorted_app; [done|by repeat constructor|]. intros y z Hy ->%list_elem_of_singleton.
    assert (Hy' : y ∈ la ++ [m]) by (rewrite Hp; by right).
    apply elem_of_app in Hy' as [Hy'| ->%list_elem_of_singleton]; [|done].
    apply Hle; [done|left].
  - intros y Hy. apply elem_of_app. left. rewrite Hp. set_solver.
Qed.

Lemma replaced_right_sorted k m (p la lb lb' q : list Z) :
  sorted (p ++ la ++ k :: (m :: lb) ++ q) -> sorted lb' -> m :: lb ≡ₚ m :: lb' ->
  sorted (p ++ la ++ m :: lb' ++ q).
Proof.
  intros Hs Hs' Hp. apply Permutation_cons_inv in Hp.
  rewrite app_comm_cons in Hs. rewrite (app_comm_cons lb'). rewrite app_assoc in Hs |- *.
  apply (sorted_subst _ _ _ _ Hs).
  - apply sorted_app_inv in Hs as (_ & Hs & _). apply sorted_app_inv in Hs as (Hs & _).
    inversion Hs as [|? ? Hs2 _]; subst. inversion Hs2 as [|? ? _ Hall]; subst.
    constructor; [done|]. by rewrite <-Hp.
  - intros y. rewrite Hp. set_solver.
Qed.

(** What [removeFromNonLeaf] has to achieve for the key of a pair. *)
Definition key_removed (h : nat) (k : Z) (x : BTreeNode) (l : list Z)
    (r : outcome (BTreeNode * list Z)) : Prop :=
  exists x' l' out, r = Ret (x', out) /\ tree_of (S h) x' l' /\ removed k l l' out /\
    numKeys x - 1 <= numKeys x' <= numKeys x /\ (S h <= 1 -> sorted l').

Lemma pair_sorted (p la lb q : list Z) k :
  sorted (p ++ la ++ k :: lb ++ q) -> sorted la /\ sorted lb /\ sorted (la ++ k :: lb).
Proof.
  intros Hs. apply sorted_app_inv in Hs as (_ & Hs & _).
  rewrite app_comm_cons, app_assoc in Hs. apply sorted_app_inv in Hs as (Hs & _).
  pose proof (sorted_app_inv _ _ Hs) as (Hsa & Hskb & _). inversion Hskb; subst. done.
Qed.

Lemma remove_by_pred h fuel k x i a b la lb p q :
  remove_ok h -> pair_at h x i a b la k lb p q -> sorted (p ++ la ++ k :: lb ++ q) -> h < fuel ->
  MIN_DEGREE <= numKeys a ->
  key_removed h k x (p ++ la ++ k :: lb ++ q)
    (m ← getPred i x; x ← set_key x i m; remove_below (remove fuel) i m x).
Proof.
  intros IH Hp Hs Hf Hbig. destruct (pair_sorted _ _ _ _ _ Hs) as (Hsa & _ & _).
  pose proof (pair_parts _ _ _ _ _ _ _ _ _ _ Hp) as (Ha & _ & Hta & _).
  destruct (pred_below_ok h (depth a) a la Hta) as (m & Hm & Hml & Hlast);
    [unfold MIN_DEGREE in *; lia|by eapply tree_depth|].
  destruct (pair_set_key _ _ _ _ _ _ _ _ _ _ m Hp) as (ks & _ & Hks & Hp1).
  apply pair_focus in Hp1 as [Hfo _].
  destruct (remove_below_ok h fuel m _ i a la p _ IH Hfo Hsa Hbig Hf)
    as (x2 & a' & la' & out & Hrem & Hfo2 & Hn2 & Hr & Hs').
  destruct (removed_in _ _ _ _ Hr Hml) as [Hperm ->].
  exists x2, (p ++ la' ++ m :: lb ++ q), []. unfold getPred. run_with Ha. run_with Hm.
  unfold set_key. run_with Hks. split; [done|]. split; [by eapply focus_tree|].
  split; [left; split; [set_solver|]; split; [by apply replaced_left|done]|].
  split; [rewrite Hn2; cbn; lia|]. intros Hh. destruct Hlast as (l0 & ->); [lia|].
  eapply replaced_left_sorted; [exact Hs|apply Hs'; lia|done].
Qed.

Lemma remove_by_succ h fuel k x i a b la lb p q :
  remove_ok h -> pair_at h x i a b la k lb p q -> sorted (p ++ la ++ k :: lb ++ q) -> h < fuel ->
  MIN_DEGREE <= numKeys b ->
  key_removed h k x (p ++ la ++ k :: lb ++ q)
    (m ← getSucc i x; x ← set_key x i m; remove_below (remove fuel) (S i) m x).
Proof.
  intros IH Hp Hs Hf Hbig. destruct (pair_sorted _ _ _ _ _ Hs) as (_ & Hsb & _).
  pose proof (pair_parts _ _ _ _ _ _ _ _ _ _ Hp) as (_ & Hb & _ & Htb & _).
  destruct (succ_below_ok h (depth b) b lb Htb) as (m & l0 & Hm & ->);
    [unfold MIN_DEGREE in *; lia|by eapply tree_depth|].
  destruct (pair_set_key _ _ _ _ _ _ _ _ _ _ m Hp) as (ks & _ & Hks & Hp1).
  apply pair_focus in Hp1 as [_ Hfo].
  destruct (remove_below_ok h fuel m _ (S i) b _ _ q IH Hfo Hsb Hbig Hf)
    as (x2 & b' & lb' & out & Hrem & Hfo2 & Hn2 & Hr & Hs').
  destruct (removed_in _ _ _ _ Hr) as [Hperm ->]; [left|].
  exists x2, (p ++ la ++ m :: lb' ++ q), []. unfold getSucc. run_with Hb. run_with Hm.
  unfold set_key. run_with Hks. split; [done|]. split.
  { apply focus_tree in Hfo2. by rewrite <-!app_assoc in Hfo2. }
  split; [left; split; [set_solver|]; split; [by apply replaced_right|done]|].
  split; [rewrite Hn2; cbn; lia|]. intros Hh.
  eapply replaced_right_sorted; [exact Hs|apply Hs'; lia|done].
Qed.

Lemma remove_by_merge h fuel k x i a b la lb p q :
  remove_ok h -> pair_at h x i a b la k lb p q -> sorted (p ++ la ++ k :: lb ++ q) -> h < fuel ->
  numKeys a = MIN_DEGREE - 1 -> numKeys b = MIN_DEGREE - 1 ->
  key_removed h k x (p ++ la ++ k :: lb ++ q) (x ← merge i x; remove_below (remove fuel) i k x).
Proof.
  intros IH Hp Hs Hf Ha Hb. destruct (pair_sorted _ _ _ _ _ Hs) as (_ & _ & Hsab).
  destruct (merge_ok _ _ _ _ _ _ _ _ _ _ Hp Ha Hb) as (x1 & c & Hm & Hfo & Hn1 & Hnc).
  destruct (remove_below_ok h fuel k x1 i c _ _ q IH Hfo Hsab)
    as (x2 & c' & lc' & out & Hrem & Hfo2 & Hn2 & Hr & Hs'); [unfold MIN_DEGREE in *; lia|done|].
  exists x2, (p ++ lc' ++ q), out. run_with Hm. split; [done|]. split; [by eapply focus_tree|].
  assert (Heq : p ++ la ++ k :: lb ++ q = p ++ (la ++ k :: lb) ++ q) by (by rewrite <-!app_assoc).
  rewrite Heq in *. split; [apply removed_ctx; [left; set_solver|done]|]. split; [lia|].
  intros Hh. eapply sorted_subst; [exact Hs|apply Hs'; lia|].
  intros y. by eapply removed_subset.
Qed.

Lemma removeFromNonLeaf_ok h fuel k x i a b la lb p q :
  remove_ok h -> pair_at h x i a b la k lb p q -> sorted (p ++ la ++ k :: lb ++ q) -> h < fuel ->
  key_removed h k x (p ++ la ++ k :: lb ++ q) (removeFromNonLeaf (remove fuel) i x).
Proof.
  intros IH Hp Hs Hf.
  pose proof (pair_parts _ _ _ _ _ _ _ _ _ _ Hp) as (Ha & Hb & _ & _ & Hna & Hnb & _ & _ & Hk).
  unfold removeFromNonLeaf. run_with Hk. run_with Ha.
  destruct (decide (MIN_DEGREE <= numKeys a)); [by eapply remove_by_pred|]. run_with Hb.
  destruct (decide (MIN_DEGREE <= numKeys b)); [by eapply remove_by_succ|].
  eapply remove_by_merge; try done; unfold MIN_DEGREE in *; lia.
Qed.

Lemma remove_internal_ok h : remove_ok h -> remove_ok (S h).
Proof.
  intros IH [|fuel] k x l Ht Hs Hn Hf; [lia|]. destruct Hn as [?|Hn]; [lia|].
  pose proof (tree_shape _ _ _ Ht) as Hsh.
  destruct (findKey_ok k x Hsh) as (j & Hj & Hjn & Hlt & found & Hfound & Hcase).
  assert (Hl : leaf x = false) by (by destruct Ht as (_ & Hl & _)).
  cbn [remove]. run_with Hj. run_with Hfound. rewrite Hl. destruct found.
  - destruct Hcase as [Hjlt Hk].
    destruct (tree_pair h x l j Ht Hjlt) as (a & b & la & k' & lb & p & q & Hp & ->).
    pose proof (pair_parts _ _ _ _ _ _ _ _ _ _ Hp) as (_ & _ & _ & _ & _ & _ & _ & _ & Hk').
    apply load_inv in Hk'. assert (k' = k) as -> by congruence.
    apply removeFromNonLeaf_ok with (a := a) (b := b); (done || lia).
  - destruct (remove_descend_ok h fuel k x l j) as (x' & l' & out & c & Hc & Hr & H'); try done; [lia|].
    exists x', l', out. run_with Hc. done.
Qed.

Lemma remove_all_ok h : remove_ok h.
Proof. induction h; [apply remove_leaf_ok|by apply remove_internal_ok]. Qed.

(** ** Search *)

(** No node of the subtree is full, so that the read after the scan stays inside the array. *)
Fixpoint roomy (h : nat) (x : BTreeNode) : Prop :=
  numKeys x < 2 * MIN_DEGREE - 1 /\
  match h with
  | O => True
  | S h => Forall (fun o => match o with Some c => roomy h c | None => True end) (live_kids x)
  end.

(** What [node_search] answers: a node with the key among its live keys or in the slot behind them,
    or no node, and then the key is not in the subtree. *)
Definition node_search_result (k : Z) (l : list Z) (r : option BTreeNode) : Prop :=
  match r with
  | Some y => k ∈ live_keys y \/ keys y !! numKeys y = Some k
  | None => k ∉ l
  end.

Lemma node_search_ok h : forall fuel k x l,
  tree_of h x l -> sorted l -> roomy h x -> h < fuel ->
  exists r, node_search fuel k x = Ret r /\ node_search_result k l r.
Proof.
  induction h as [|h IH]; intros [|fuel] k x l Ht Hs [Hn Hro] Hf; try lia;
    pose proof (tree_shape _ _ _ Ht) as Hsh; pose proof Hsh as (HK & HC & _); cbn [node_search];
    destruct (scan_up_spec (keys x) k (numKeys x) 0) as (j & Hscan & Hj & Hlt & Hge); try lia;
    run_with Hscan; destruct (load_lt (keys x) j) as (y & Hy & Hload); try lia; run_with Hload;
    (destruct (Z.eqb_spec y k) as [->|Hne];
     [exists (Some x); split; [done|]; cbn [node_search_result];
      destruct (decide (j < numKeys x)); [left; by eapply list_elem_of_lookup_2, elem_of_live|right;
        by replace (numKeys x) with j by lia]|]);
    assert (Hlt' : forall p z, p < j -> keys x !! p = Some z -> (z < k)%Z) by (intros; eapply Hlt; [|done]; lia);
    assert (Hgt : forall z, j < numKeys x -> keys x !! j = Some z -> (k < z)%Z)
      by (intros z Hz Hkz; specialize (Hge z Hz Hkz); assert (z = y) by congruence; lia).
  - destruct Ht as (_ & Hl & ->). rewrite Hl. exists None. split; [done|].
    apply (leaf_absent x k j); (done || lia).
  - apply tree_inode in Ht as (cs & ls & Hin & ->).
    pose proof (inode_lengths _ _ _ _ _ Hin) as (Hlk & Hlc & Hll).
    destruct (lookup_lt_is_Some_2 cs j) as [c Hc]; [lia|].
    destruct (lookup_lt_is_Some_2 ls j) as [lc Hlcj]; [lia|].
    pose proof Hin as (_ & Hl & _ & Hkids & HF). rewrite Hl.
    destruct (Forall2_lookup_lr _ _ _ _ _ _ HF Hc Hlcj) as [Htc _].
    run_with (inode_child h x _ cs ls j c Hin Hc).
    pose proof (weave_search h x cs ls k j lc Hin Hs Hlcj ltac:(lia) Hlt' Hgt) as Hiff.
    rewrite (weave_at ls (live_keys x) j lc) in Hs by (done || lia).
    apply sorted_app_inv in Hs as (_ & Hs & _). apply sorted_app_inv in Hs as (Hs & _).
    assert (Hrc : roomy h c).
    { rewrite Hkids, Forall_fmap in Hro. by apply (Forall_lookup_1 _ _ _ _ Hro Hc). }
    destruct (IH fuel k c lc Htc Hs Hrc) as (r & Hr & Hres); [lia|]. exists r. split; [done|].
    destruct r; [done|]. cbn [node_search_result] in *. by rewrite Hiff.
Qed.

(** ** Examples *)

(** Successive removals from a node. *)
Fixpoint remove_seq (ks : list Z) (x : BTreeNode) : outcome (BTreeNode * list Z) :=
  match ks with
  | [] => Ret (x, [])
  | k :: ks =>
      '(x', out) ← remove_node k x;
      '(x'', out') ← remove_seq ks x';
      Ret (x'', out ++ out')
  end.

Definition after_removals (ins del : list Z) : outcome (list Z * list Z) :=
  t ← insert_all ins None;
  match t with
  | None => Ret ([], [])
  | Some x => '(x', out) ← remove_seq del x; l ← traverse (depth x') x'; Ret (l, out)
  end.

(** On a tree of two levels the order is kept, and an absent key is reported. *)
Example removals_two_levels :
  after_removals [10; 20; 5; 6; 12; 30; 7; 17]%Z [6; 13; 7; 12]%Z =
    Ret ([5; 10; 17; 20; 30]%Z, [13]%Z).
Proof. vm_compute. reflexivity. Qed.

Definition downto (n : nat) : list Z := reverse (Z.of_nat <$> seq 1 n).

(** On a tree of three levels [getPred] takes 9 for the predecessor of 13, whose place it takes: the
    contents are right, but 9 now comes after 12. *)
Example getPred_breaks_order :
  after_removals (downto 21) [13]%Z =
    Ret ([1; 2; 3; 4; 5; 6; 7; 8; 10; 11; 12; 9; 14; 15; 16; 17; 18; 19; 20; 21]%Z, []).
Proof. vm_compute. reflexivity. Qed.

(** A key that was just removed is still found: its slot is the first one behind the live keys. *)
Example search_finds_removed :
  (t ← insert_all [1; 2; 3]%Z None;
   x ← deref t;
   '(x', _) ← remove_node 3 x;
   r ← node_search (depth x') 3 x';
   Ret (live_keys x', match r with Some y => live_keys y | None => [] end))
  = Ret ([1; 2]%Z, [1; 2]%Z).
Proof. vm_compute. reflexivity. Qed.

(** On a full leaf the search for a larger key reads behind the array. *)
Example search_out_of_range :
  (t ← insert_all [1; 2; 3; 4; 5]%Z None; x ← deref t; node_search (depth x) 6 x)
  = Undef index_out_of_range.
Proof. vm_compute. reflexivity. Qed.

(** ** Theorems *)

(** A tree of two levels for the witnesses: [1 2 | 3 | 4 5]. *)
Definition leaf2 (a b : Z) : BTreeNode := MkNode true 2 [a; b; 0; 0; 0]%Z (replicate 6 None).
Definition two_leaves : BTreeNode :=
  MkNode false 1 [3; 0; 0; 0; 0]%Z
    [Some (leaf2 1 2); Some (leaf2 4 5); None; None; None; None].

Lemma two_leaves_tree : tree_of 1 two_leaves [1; 2; 3; 4; 5]%Z.
Proof.
  split; [repeat split; cbn; lia|]. split; [done|].
  exists [leaf2 1 2; leaf2 4 5], [[1; 2]; [4; 5]]%Z. split; [done|].
  split; [|done]. repeat constructor; cbn; lia.
Qed.

(** C3.  [remove] on the root of a well-formed subtree returns a well-formed subtree (same height,
    array bounds and minimum fill respected) whose contents are the old ones without one occurrence
    of the key; a key that is not there is reported and the contents stay as they are.  The node loses at most one
    key.  Where the children are leaves, the contents stay in order. *)
Theorem btree_remove_correct (h : nat) (k : Z) (x : BTreeNode) (l : list Z) :
  tree_of h x l -> sorted l -> h = 0 \/ 1 <= numKeys x ->
  exists x' l' out, remove_node k x = Ret (x', out) /\ tree_of h x' l' /\
    traverse (depth x') x' = Ret l' /\
    (k ∈ l -> l ≡ₚ k :: l' /\ out = []) /\ (k ∉ l -> l' = l /\ out = [k]) /\
    numKeys x - 1 <= numKeys x' <= numKeys x /\ (h <= 1 -> sorted l').
Proof.
  intros Ht Hs Hn.
  destruct (remove_all_ok h (depth x) k x l Ht Hs Hn) as (x' & l' & out & Hr & Ht' & Hrem & Hb & Hs');
    [by eapply tree_depth|].
  exists x', l', out. split; [done|]. split; [done|].
  split; [eapply traverse_ok; [done|by eapply tree_depth]|].
  split; [by apply removed_in|]. split; [|done].
  intros Hk. by destruct Hrem as [(? & _)|(_ & -> & ->)].
Qed.

Lemma btree_remove_correct_witness :
  exists x' l' out, remove_node 3 two_leaves = Ret (x', out) /\ tree_of 1 x' l' /\
    traverse (depth x') x' = Ret l' /\
    (3%Z ∈ [1; 2; 3; 4; 5]%Z -> [1; 2; 3; 4; 5]%Z ≡ₚ 3%Z :: l' /\ out = []) /\
    (3%Z ∉ [1; 2; 3; 4; 5]%Z -> l' = [1; 2; 3; 4; 5]%Z /\ out = [3%Z]) /\
    numKeys two_leaves - 1 <= numKeys x' <= numKeys two_leaves /\ (1 <= 1 -> sorted l').
Proof.
  apply (btree_remove_correct 1 3 two_leaves [1; 2; 3; 4; 5]%Z).
  - apply two_leaves_tree.
  - repeat constructor; lia.
  - right. cbn. lia.
Defined.

(** [fill] on a child with the minimum number of keys keeps the contents of the node and its
    well-formedness, and the child that [remove] then descends into holds at least [MIN_DEGREE] and
    at most [2 * MIN_DEGREE - 1] keys. *)
Lemma btree_fill_bounds (h : nat) (x : BTreeNode) (l : list Z) (i : nat) (c : BTreeNode) :
  tree_of (S h) x l -> i <= numKeys x -> child x i = Ret c -> numKeys c = MIN_DEGREE - 1 ->
  1 <= numKeys x ->
  exists x' c', fill i x = Ret x' /\ tree_of (S h) x' l /\
    child x' (if bool_decide (numKeys x' < i) then i - 1 else i) = Ret c' /\
    MIN_DEGREE <= numKeys c' <= 2 * MIN_DEGREE - 1 /\
    numKeys x - 1 <= numKeys x' <= numKeys x.
Proof.
  intros Ht Hi Hc Hn Hx. destruct (tree_focus h x l i Ht Hi) as (c0 & lc & p & q & Hf & ->).
  pose proof (focus_child _ _ _ _ _ _ _ Hf) as (Hc0 & _). rewrite Hc in Hc0. injection Hc0 as <-.
  destruct (fill_ok _ _ _ _ _ _ _ Hf Hn Hx) as
    (x' & Hfill & c' & lc' & p' & q' & r & r' & Hf' & -> & -> & -> & Hc' & Hn').
  exists x', c'. split; [done|]. split.
  { apply focus_tree in Hf'. by rewrite <-!app_assoc in *. }
  apply focus_child in Hf' as (Hch & Htc & _). apply tree_shape in Htc as (_ & _ & Hmax). done.
Qed.

Lemma btree_fill_bounds_witness :
  exists x' c', fill 0 two_leaves = Ret x' /\ tree_of 1 x' [1; 2; 3; 4; 5]%Z /\
    child x' (if bool_decide (numKeys x' < 0) then 0 - 1 else 0) = Ret c' /\
    MIN_DEGREE <= numKeys c' <= 2 * MIN_DEGREE - 1 /\
    numKeys two_leaves - 1 <= numKeys x' <= numKeys two_leaves.
Proof.
  apply (btree_fill_bounds 0 two_leaves [1; 2; 3; 4; 5]%Z 0 (leaf2 1 2));
    [apply two_leaves_tree|cbn; lia|reflexivity|reflexivity|cbn; lia].
Defined.

(** Inserting a key and removing it again leaves the other keys, on every node that is not full. *)
Lemma insert_remove_contents (h : nat) (k : Z) (x : BTreeNode) (l : list Z) :
  tree_of h x l -> sorted l -> numKeys x < 2 * MIN_DEGREE - 1 -> h = 0 \/ 1 <= numKeys x ->
  exists x1 x2 l2, node_insertNonFull (depth x) k x = Ret x1 /\
    remove_node k x1 = Ret (x2, []) /\ traverse (depth x2) x2 = Ret l2 /\ l2 ≡ₚ l.
Proof.
  intros Ht Hs Hn Hx.
  destruct (insertNonFull_ok h (depth x) k x l Ht Hs Hn) as (x1 & l1 & Hi & Ht1 & Hat & Hn1);
    [by eapply tree_depth|].
  pose proof (ins_at_perm _ _ _ Hat) as Hp1.
  destruct (remove_all_ok h (depth x1) k x1 l1 Ht1) as (x2 & l2 & out & Hr & Ht2 & Hrem & _);
    [by eapply ins_at_sorted|destruct Hx; [by left|right; lia]|by eapply tree_depth|].
  destruct (removed_in _ _ _ _ Hrem) as [Hp2 ->]; [rewrite Hp1; left|].
  exists x1, x2, l2. split; [done|]. split; [done|].
  split; [eapply traverse_ok; [done|by eapply tree_depth]|].
  rewrite Hp1 in Hp2. symmetry. by apply Permutation_cons_inv in Hp2.
Qed.
