(* ===== verification/HashIndex.v ===== *)
(** * The hash index ([indexing/hash_index/hash_index.cpp])

    [HashBucket] and [HashIndex] with one mutex per initial bucket, refined to a finite map, and the
    two-thread inserts of [main_parallel]. *)

From S2P Require Import Prelude Text.

Section HashIndex.
Context {Key Value : Type} `{Countable Key} (hashFunc : Key -> nat).

(** ** Buckets *)

Abbreviation HashBucket := (list (Key * Value)).

Fixpoint bucket_insert (key : Key) (value : Value) (b : HashBucket) : HashBucket :=
  match b with
  | [] => [(key, value)]
  | (k, v) :: b => if decide (k = key) then (k, value) :: b else (k, v) :: bucket_insert key value b
  end.

Fixpoint bucket_find (key : Key) (b : HashBucket) : option Value :=
  match b with
  | [] => None
  | (k, v) :: b => if decide (k = key) then Some v else bucket_find key b
  end.

(** The bucket without the first entry of the key, and whether there was one. *)
Fixpoint bucket_remove (key : Key) (b : HashBucket) : HashBucket * bool :=
  match b with
  | [] => ([], false)
  | (k, v) :: b =>
      if decide (k = key) then (b, true)
      else let '(b', r) := bucket_remove key b in ((k, v) :: b', r)
  end.

(** ** The index *)

(** [mutexes] has the size [numBuckets] had at construction; [resize] leaves it alone. *)
Record HashIndex : Type := MkHI {
  numBuckets : nat;
  buckets : list HashBucket;
  mutexes : nat
}.

Definition make (n : nat) : HashIndex := MkHI n (replicate n []) n.

(** [hashFunc(key) % numBuckets], then [mutexes[i]] and [buckets[i]]. *)
Definition locate (key : Key) (s : HashIndex) : outcome (nat * HashBucket) :=
  if decide (numBuckets s = 0) then Undef division_by_zero
  else
    let bucketIndex := hashFunc key mod numBuckets s in
    if decide (bucketIndex < mutexes s)
    then match buckets s !! bucketIndex with
         | Some b => Ret (bucketIndex, b)
         | None => Undef index_out_of_range
         end
    else Undef index_out_of_range.

Definition set_bucket (i : nat) (b : HashBucket) (s : HashIndex) : HashIndex :=
  MkHI (numBuckets s) (<[i := b]> (buckets s)) (mutexes s).

Definition insert (key : Key) (value : Value) (s : HashIndex) : outcome HashIndex :=
  '(i, b) ← locate key s; mret (set_bucket i (bucket_insert key value b) s).

Definition find (key : Key) (s : HashIndex) : outcome (option Value) :=
  '(_, b) ← locate key s; mret (bucket_find key b).

Definition remove (key : Key) (s : HashIndex) : outcome (HashIndex * bool) :=
  '(i, b) ← locate key s;
  let '(b', r) := bucket_remove key b in
  mret (set_bucket i b' s, r).

(** One entry moved into the new buckets. *)
Definition rehash (n : nat) (newBuckets : list HashBucket) (e : Key * Value) :
    outcome (list HashBucket) :=
  if decide (n = 0) then Undef division_by_zero
  else
    let i := hashFunc e.1 mod n in
    match newBuckets !! i with
    | Some b => Ret (<[i := bucket_insert e.1 e.2 b]> newBuckets)
    | None => Undef index_out_of_range
    end.

Fixpoint rehash_all (n : nat) (entries : list (Key * Value)) (newBuckets : list HashBucket) :
    outcome (list HashBucket) :=
  match entries with
  | [] => Ret newBuckets
  | e :: entries => nb ← rehash n newBuckets e; rehash_all n entries nb
  end.

(** The buckets are visited in order, each from its front. *)
Definition resize (newNumBuckets : nat) (s : HashIndex) : outcome HashIndex :=
  nb ← rehash_all newNumBuckets (mjoin (take (numBuckets s) (buckets s)))
         (replicate newNumBuckets []);
  mret (MkHI newNumBuckets nb (mutexes s)).

(** ** Buckets as maps *)

Lemma bucket_find_elem key v b : NoDup (b.*1) -> bucket_find key b = Some v <-> (key, v) ∈ b.
Proof.
  induction b as [|[k w] b IH]; simpl; intros Hnd.
  - split; [done|]. intros Hin. by apply not_elem_of_nil in Hin.
  - apply NoDup_cons in Hnd as [Hk Hnd]. rewrite elem_of_cons. case_decide as Hd.
    + subst. split; [intros [= ->]; by left|]. intros [[= ->]|Hin]; [done|].
      by apply elem_of_fst, Hk in Hin.
    + rewrite IH by done. naive_solver.
Qed.

Lemma bucket_insert_keys key v b k : k ∈ (bucket_insert key v b).*1 <-> k = key \/ k ∈ b.*1.
Proof.
  induction b as [|[j w] b IH]; simpl; [set_solver|].
  case_decide; simpl; rewrite !elem_of_cons; [|rewrite IH]; naive_solver.
Qed.

Lemma bucket_insert_NoDup key v b : NoDup (b.*1) -> NoDup ((bucket_insert key v b).*1).
Proof.
  induction b as [|[j w] b IH]; simpl; intros Hnd; [apply NoDup_singleton|].
  apply NoDup_cons in Hnd as [Hj Hnd]. case_decide; simpl; constructor; auto.
  rewrite bucket_insert_keys. naive_solver.
Qed.

Lemma bucket_find_insert key v b k :
  bucket_find k (bucket_insert key v b) = if decide (key = k) then Some v else bucket_find k b.
Proof.
  induction b as [|[j w] b IH]; simpl; [done|].
  destruct (decide (j = key)) as [->|Hne]; simpl.
  - by case_decide.
  - rewrite IH. repeat case_decide; congruence.
Qed.

Lemma bucket_remove_spec key b b' r :
  NoDup (b.*1) -> bucket_remove key b = (b', r) ->
  NoDup (b'.*1) /\ (forall k, k ∈ b'.*1 <-> k ∈ b.*1 /\ k ≠ key) /\
  r = bool_decide (is_Some (bucket_find key b)) /\
  forall k, bucket_find k b' = if decide (key = k) then None else bucket_find k b.
Proof.
  revert b' r. induction b as [|[j w] b IH]; intros b' r Hnd; cbn [bucket_remove].
  - intros [= <- <-]. simpl. split; [done|]. split; [set_solver|]. split; [done|].
    intros k. by case_decide.
  - simpl in Hnd. apply NoDup_cons in Hnd as [Hj Hnd]. case_decide as Hd.
    + intros [= <- <-]. subst. simpl. split; [done|]. split; [set_solver|].
      rewrite decide_True by done. split; [symmetry; by apply bool_decide_eq_true_2|].
      intros k. case_decide as Hk; [|done]. subst.
      destruct (bucket_find k b) as [x|] eqn:Hx; [|done].
      apply bucket_find_elem, elem_of_fst in Hx; [done|done].
    + destruct (bucket_remove key b) as [b1 r1] eqn:Hr. intros [= <- <-].
      destruct (IH b1 r1 Hnd eq_refl) as (H1 & H2 & H3 & H4). simpl.
      split; [constructor; [rewrite H2; naive_solver|done]|].
      split; [intros k; rewrite !elem_of_cons, H2; naive_solver|].
      rewrite decide_False by done. split; [done|].
      intros k. rewrite H4. repeat case_decide; congruence.
Qed.

(** ** Invariant and refinement to a finite map *)

Record hi_inv (s : HashIndex) : Prop := {
  hi_len : length (buckets s) = numBuckets s;
  hi_pos : 0 < numBuckets s;
  hi_mutexes : numBuckets s <= mutexes s;
  hi_bucket : forall i b, buckets s !! i = Some b ->
    NoDup (b.*1) /\ forall k, k ∈ b.*1 -> hashFunc k mod numBuckets s = i
}.

(** The bucket list answers like the map. *)
Definition answers (n : nat) (bs : list HashBucket) (m : gmap Key Value) : Prop :=
  forall k, (bs !! (hashFunc k mod n)) ≫= bucket_find k = m !! k.

Lemma locate_ok key s :
  hi_inv s -> exists b, locate key s = Ret (hashFunc key mod numBuckets s, b) /\
    buckets s !! (hashFunc key mod numBuckets s) = Some b.
Proof.
  intros [Hlen Hpos Hmu Hb]. unfold locate.
  assert (Hlt : hashFunc key mod numBuckets s < numBuckets s) by (apply Nat.mod_upper_bound; lia).
  rewrite decide_False, decide_True by lia.
  destruct (lookup_lt_is_Some_2 (buckets s) (hashFunc key mod numBuckets s)) as [b Hl]; [lia|].
  exists b. by rewrite Hl.
Qed.

(** Replacing the bucket of a key. *)
Lemma set_bucket_inv s i b b' :
  hi_inv s -> buckets s !! i = Some b -> NoDup (b'.*1) ->
  (forall k, k ∈ b'.*1 -> hashFunc k mod numBuckets s = i) ->
  hi_inv (set_bucket i b' s).
Proof.
  intros [Hlen Hpos Hmu Hb] Hi Hnd Hk. constructor; simpl; auto; [by rewrite length_insert|].
  intros j c Hc. apply list_lookup_insert_Some in Hc as [(-> & <- & _)|(Hne & Hc)]; auto.
Qed.

Lemma answers_set n bs m i b key (o : option Value) m' :
  answers n bs m -> i < length bs -> i = hashFunc key mod n ->
  (forall k, bucket_find k b = if decide (key = k) then o else bs !! i ≫= bucket_find k) ->
  (forall k, m' !! k = if decide (key = k) then o else m !! k) ->
  answers n (<[i := b]> bs) m'.
Proof.
  intros Ha Hi -> Hb Hm k. rewrite Hm. destruct (decide (hashFunc k mod n = hashFunc key mod n)) as [He|Hne].
  - rewrite He, list_lookup_insert_eq by done. simpl. rewrite Hb. case_decide; [done|].
    rewrite <-He. apply Ha.
  - rewrite list_lookup_insert_ne by done. case_decide; [by subst|]. apply Ha.
Qed.

Lemma insert_ok key v s m :
  hi_inv s -> answers (numBuckets s) (buckets s) m -> exists s',
    insert key v s = Ret s' /\ hi_inv s' /\ numBuckets s' = numBuckets s /\ mutexes s' = mutexes s /\
    answers (numBuckets s') (buckets s') (<[key := v]> m).
Proof.
  intros Hi Ha. destruct (locate_ok key s Hi) as (b & Hl & Hb).
  destruct (hi_bucket s Hi _ b Hb) as [Hnd Hk]. unfold insert. run_with Hl.
  eexists. split; [done|]. split; [|do 2 (split; [done|])].
  - eapply set_bucket_inv; [done..|by apply bucket_insert_NoDup|].
    intros k Hin. apply bucket_insert_keys in Hin as [->|Hin]; auto.
  - apply (answers_set _ _ m _ _ key (Some v)); [done|by eapply lookup_lt_Some|done|..].
    + intros k. rewrite bucket_find_insert, Hb. done.
    + intros k. by rewrite lookup_insert.
Qed.

Lemma find_ok key s m :
  hi_inv s -> answers (numBuckets s) (buckets s) m -> find key s = Ret (m !! key).
Proof.
  intros Hi Ha. destruct (locate_ok key s Hi) as (b & Hl & Hb). unfold find. run_with Hl.
  specialize (Ha key). rewrite Hb in Ha. simpl in Ha. by rewrite Ha.
Qed.

Lemma remove_ok key s m :
  hi_inv s -> answers (numBuckets s) (buckets s) m -> exists s',
    remove key s = Ret (s', bool_decide (is_Some (m !! key))) /\ hi_inv s' /\
    numBuckets s' = numBuckets s /\ mutexes s' = mutexes s /\
    answers (numBuckets s') (buckets s') (delete key m).
Proof.
  intros Hi Ha. destruct (locate_ok key s Hi) as (b & Hl & Hb).
  destruct (hi_bucket s Hi _ b Hb) as [Hnd Hk]. unfold remove. run_with Hl.
  destruct (bucket_remove key b) as [b' r] eqn:Hr.
  destruct (bucket_remove_spec key b b' r Hnd Hr) as (Hnd' & Hk' & -> & Hf).
  assert (Hm : bucket_find key b = m !! key) by (rewrite <-(Ha key), Hb; done). rewrite Hm.
  eexists. split; [done|]. split; [|do 2 (split; [done|])].
  - eapply set_bucket_inv; [done..|]. intros k Hin. apply Hk' in Hin as [Hin _]. auto.
  - apply (answers_set _ _ m _ _ key None); [done|by eapply lookup_lt_Some|done|..].
    + intros k. rewrite Hf, Hb. done.
    + intros k. by rewrite lookup_delete.
Qed.

(** ** Resizing *)

(** New buckets that hold what was moved so far. *)
Record moved (n : nat) (bs : list HashBucket) (m : gmap Key Value) : Prop := {
  mv_len : length bs = n;
  mv_answers : answers n bs m;
  mv_bucket : forall i b, bs !! i = Some b ->
    NoDup (b.*1) /\ forall k, k ∈ b.*1 -> hashFunc k mod n = i
}.

Lemma rehash_ok n bs m e :
  0 < n -> moved n bs m -> exists bs', rehash n bs e = Ret bs' /\ moved n bs' (<[e.1 := e.2]> m).
Proof.
  intros Hn [Hlen Ha Hb]. unfold rehash. rewrite decide_False by lia.
  assert (Hlt : hashFunc e.1 mod n < n) by (apply Nat.mod_upper_bound; lia).
  destruct (lookup_lt_is_Some_2 bs (hashFunc e.1 mod n)) as [b Hl]; [lia|]. rewrite Hl.
  eexists. split; [done|]. destruct (Hb _ _ Hl) as [Hnd Hk]. constructor.
  - by rewrite length_insert.
  - apply (answers_set _ _ m _ _ e.1 (Some e.2)); [done|lia|done|..].
    + intros k. rewrite bucket_find_insert, Hl. done.
    + intros k. by rewrite lookup_insert.
  - intros j c Hc. apply list_lookup_insert_Some in Hc as [(<- & <- & _)|(Hne & Hc)]; [|auto].
    split; [by apply bucket_insert_NoDup|].
    intros k Hin. apply bucket_insert_keys in Hin as [->|Hin]; auto.
Qed.

Lemma rehash_all_ok n es : forall bs m,
  0 < n -> moved n bs m -> exists bs', rehash_all n es bs = Ret bs' /\
    moved n bs' (foldl (fun m e => <[e.1 := e.2]> m) m es).
Proof.
  induction es as [|e es IH]; intros bs m Hn Hm; [by exists bs|].
  destruct (rehash_ok n bs m e Hn Hm) as (bs1 & Hr & Hm1). cbn [rehash_all]. run_with Hr.
  by apply IH.
Qed.

Lemma foldl_insert_lookup (es : list (Key * Value)) : forall (m : gmap Key Value) k,
  NoDup (es.*1) ->
  foldl (fun m e => <[e.1 := e.2]> m) m es !! k =
    match bucket_find k es with Some v => Some v | None => m !! k end.
Proof.
  induction es as [|[j w] es IH]; intros m k Hnd; [done|]. simpl in *.
  apply NoDup_cons in Hnd as [Hj Hnd]. rewrite IH by done. case_decide as Hd.
  - subst. destruct (bucket_find k es) eqn:Hf; [|by rewrite lookup_insert_eq].
    apply bucket_find_elem, elem_of_fst in Hf; [done|done].
  - rewrite lookup_insert_ne by done. done.
Qed.

(** All entries: distinct keys, each in the bucket of its hash. *)
Lemma entries_ok s m :
  hi_inv s -> answers (numBuckets s) (buckets s) m ->
  NoDup ((mjoin (buckets s)).*1) /\ forall k, bucket_find k (mjoin (buckets s)) = m !! k.
Proof.
  intros Hi Ha.
  assert (Hnd : NoDup ((mjoin (buckets s)).*1)).
  { assert (Hgen : forall j (bs : list HashBucket), (forall i b, bs !! i = Some b ->
        NoDup (b.*1) /\ forall k, k ∈ b.*1 -> hashFunc k mod numBuckets s = j + i) ->
      NoDup ((mjoin bs).*1) /\ forall k, k ∈ (mjoin bs).*1 -> j <= hashFunc k mod numBuckets s).
    { intros j bs. revert j. induction bs as [|b bs IH]; intros j Hb; simpl.
      - split; [constructor|]. intros k Hk. by apply not_elem_of_nil in Hk.
      - destruct (Hb 0 b eq_refl) as [Hnd Hk]. destruct (IH (S j)) as [Hnd2 Hk2].
        { intros i c Hc. destruct (Hb (S i) c Hc) as [? Hc2]. split; [done|].
          intros k Hk'. rewrite (Hc2 k Hk'). lia. }
        rewrite fmap_app. split.
        + apply NoDup_app. split; [done|]. split; [|done]. intros k Hin Hin2.
          specialize (Hk k Hin). specialize (Hk2 k Hin2). lia.
        + intros k. rewrite elem_of_app. intros [Hin|Hin];
            [rewrite (Hk k Hin)|specialize (Hk2 k Hin)]; lia. }
    apply (Hgen 0). intros i b Hib. apply (hi_bucket s Hi i b Hib). }
  split; [done|]. intros k. apply option_eq. intros v. rewrite bucket_find_elem by done.
  destruct (locate_ok k s Hi) as (b & _ & Hb). destruct (hi_bucket s Hi _ b Hb) as [Hndb _].
  rewrite <-(Ha k), Hb. simpl. rewrite bucket_find_elem by done.
  unfold mjoin. rewrite list_elem_of_join. split.
  - intros (c & Hin & Hc). apply list_elem_of_lookup in Hc as [i Hc].
    destruct (hi_bucket s Hi i c Hc) as [_ Hh]. specialize (Hh k (elem_of_fst _ _ _ Hin)).
    rewrite Hh in Hb. by simplify_eq.
  - intros Hin. exists b. split; [done|]. by eapply list_elem_of_lookup_2.
Qed.

Lemma resize_ok n s m :
  hi_inv s -> answers (numBuckets s) (buckets s) m -> 0 < n <= mutexes s -> exists s',
    resize n s = Ret s' /\ hi_inv s' /\ numBuckets s' = n /\ mutexes s' = mutexes s /\
    answers (numBuckets s') (buckets s') m.
Proof.
  intros Hi Ha Hn. unfold resize. rewrite take_ge by (rewrite (hi_len s Hi); lia).
  destruct (entries_ok s m Hi Ha) as [Hnd Hf].
  destruct (rehash_all_ok n (mjoin (buckets s)) (replicate n []) ∅) as (bs & Hr & [Hlen Ham Hb]); [lia|..].
  { constructor; [apply length_replicate|..].
    - intros k. rewrite lookup_replicate_2 by (apply Nat.mod_upper_bound; lia). done.
    - intros i b Hb. apply lookup_replicate in Hb as [-> _]. split; [constructor|].
      intros k Hk. by apply not_elem_of_nil in Hk. }
  run_with Hr. eexists. split; [done|]. split; [by constructor; simpl; try lia|].
  do 2 (split; [done|]). intros k. simpl. rewrite Ham, foldl_insert_lookup, Hf by done.
  by destruct (m !! k).
Qed.

Lemma make_ok n : 0 < n -> hi_inv (make n) /\ answers n (buckets (make n)) ∅.
Proof.
  intros Hn. split.
  - constructor; simpl; auto; [apply length_replicate|].
    intros i b Hb. apply lookup_replicate in Hb as [-> _]. split; [constructor|].
    intros k Hk. by apply not_elem_of_nil in Hk.
  - intros k. simpl. rewrite lookup_replicate_2 by (apply Nat.mod_upper_bound; lia). done.
Qed.

(** ** Sequences of calls *)

Inductive hi_op : Type :=
| HInsert (key : Key) (value : Value)
| HFind (key : Key)
| HRemove (key : Key)
| HResize (n : nat).

Inductive hi_res : Type :=
| RNone
| RFound (v : option Value)
| RRemoved (b : bool).

Definition hi_step (o : hi_op) (s : HashIndex) : outcome (HashIndex * hi_res) :=
  match o with
  | HInsert key value => s' ← insert key value s; mret (s', RNone)
  | HFind key => v ← find key s; mret (s, RFound v)
  | HRemove key => '(s', b) ← remove key s; mret (s', RRemoved b)
  | HResize n => s' ← resize n s; mret (s', RNone)
  end.

Fixpoint hi_run (os : list hi_op) (s : HashIndex) : outcome (HashIndex * list hi_res) :=
  match os with
  | [] => mret (s, [])
  | o :: os => '(s1, r) ← hi_step o s; '(s2, rs) ← hi_run os s1; mret (s2, r :: rs)
  end.

(** The same calls on a finite map. *)
Definition map_step (o : hi_op) (m : gmap Key Value) : gmap Key Value * hi_res :=
  match o with
  | HInsert key value => (<[key := value]> m, RNone)
  | HFind key => (m, RFound (m !! key))
  | HRemove key => (delete key m, RRemoved (bool_decide (is_Some (m !! key))))
  | HResize _ => (m, RNone)
  end.

Fixpoint map_run (os : list hi_op) (m : gmap Key Value) : gmap Key Value * list hi_res :=
  match os with
  | [] => (m, [])
  | o :: os => let '(m1, r) := map_step o m in
               let '(m2, rs) := map_run os m1 in (m2, r :: rs)
  end.

(** Resizing never beyond the number of mutexes, and never to nothing. *)
Definition resize_within (n : nat) (o : hi_op) : Prop :=
  match o with HResize k => 0 < k <= n | _ => True end.

Lemma hi_step_ok o s m :
  hi_inv s -> answers (numBuckets s) (buckets s) m -> resize_within (mutexes s) o -> exists s',
    hi_step o s = Ret (s', snd (map_step o m)) /\ hi_inv s' /\ mutexes s' = mutexes s /\
    answers (numBuckets s') (buckets s') (fst (map_step o m)).
Proof.
  intros Hi Ha Hr. destruct o as [k v|k|k|n]; cbn [hi_step map_step fst snd].
  - destruct (insert_ok k v s m Hi Ha) as (s' & Hs & Hi' & _ & Hm & Ha'). run_with Hs. by exists s'.
  - run_with (find_ok k s m Hi Ha). by exists s.
  - destruct (remove_ok k s m Hi Ha) as (s' & Hs & Hi' & _ & Hm & Ha'). run_with Hs. by exists s'.
  - destruct (resize_ok n s m Hi Ha Hr) as (s' & Hs & Hi' & _ & Hm & Ha'). run_with Hs. by exists s'.
Qed.

Lemma hi_run_ok os : forall s m,
  hi_inv s -> answers (numBuckets s) (buckets s) m -> Forall (resize_within (mutexes s)) os ->
  exists s', hi_run os s = Ret (s', snd (map_run os m)) /\ hi_inv s' /\
    answers (numBuckets s') (buckets s') (fst (map_run os m)).
Proof.
  induction os as [|o os IH]; intros s m Hi Ha Hos; [by exists s|].
  apply Forall_cons in Hos as [Ho Hos]. cbn [hi_run map_run].
  destruct (hi_step_ok o s m Hi Ha Ho) as (s1 & Hs & Hi1 & Hm1 & Ha1). run_with Hs.
  destruct (map_step o m) as [m1 r]. cbn [fst snd] in *. rewrite <-Hm1 in Hos.
  destruct (IH s1 m1 Hi1 Ha1 Hos) as (s2 & Hr & Hi2 & Ha2). run_with Hr.
  destruct (map_run os m1) as [m2 rs]. by exists s2.
Qed.

(** ** Two inserting threads, each call atomic under the mutex of its bucket *)

(** [parallelInsert] over a list of keys and values. *)
Definition inserts (l : list (Key * Value)) : list hi_op := (fun e => HInsert e.1 e.2) <$> l.

(** What the inserts leave, last value per key. *)
Definition inserted (l : list (Key * Value)) : gmap Key Value :=
  foldl (fun m e => <[e.1 := e.2]> m) ∅ l.

Lemma map_run_inserts l : forall m,
  fst (map_run (inserts l) m) = foldl (fun m e => <[e.1 := e.2]> m) m l.
Proof.
  induction l as [|[k v] l IH]; intros m; [done|]. cbn. rewrite <-IH.
  unfold inserts. by destruct (map_run _ _).
Qed.

Lemma foldl_insert_union (l : list (Key * Value)) : forall m : gmap Key Value,
  foldl (fun m e => <[e.1 := e.2]> m) m l = inserted l ∪ m.
Proof.
  unfold inserted. induction l as [|e l IH]; intros m; simpl; [by rewrite (left_id_L ∅ (∪))|].
  rewrite IH, (IH (<[e.1 := e.2]> ∅)), <-(assoc_L (∪)). f_equal.
  rewrite insert_empty. apply insert_union_singleton_l.
Qed.

Lemma inserted_cons e l : inserted (e :: l) = inserted l ∪ {[e.1 := e.2]}.
Proof. unfold inserted at 1. simpl. by rewrite foldl_insert_union. Qed.

Lemma inserted_dom l k : is_Some (inserted l !! k) -> k ∈ l.*1.
Proof.
  induction l as [|e l IH]; [unfold inserted; simpl; rewrite lookup_empty; by intros [? ?]|].
  rewrite inserted_cons, lookup_union_is_Some, fmap_cons, elem_of_cons.
  intros [?|Hs]; [by right; auto|]. left. apply lookup_singleton_is_Some in Hs. done.
Qed.

Lemma interleaving_inserted (l1 l2 l : list (Key * Value)) :
  interleaving l1 l2 l -> (forall k, k ∈ l1.*1 -> k ∉ l2.*1) ->
  inserted l = inserted l1 ∪ inserted l2.
Proof.
  induction 1 as [|e l1 l2 l Hl IH|e l1 l2 l Hl IH]; intros Hd.
  - unfold inserted; simpl. by rewrite (left_id_L ∅ (∪)).
  - rewrite !inserted_cons, IH by (intros k Hk; apply Hd; set_solver).
    rewrite <-!(assoc_L (∪)). f_equal. apply map_union_comm, map_disjoint_singleton_r.
    destruct (inserted l2 !! e.1) eqn:He; [|done].
    exfalso. eapply (Hd e.1); [set_solver|]. apply inserted_dom. by rewrite He.
  - rewrite !inserted_cons, IH by (intros k Hk; specialize (Hd k Hk); set_solver).
    by rewrite (assoc_L (∪)).
Qed.
End HashIndex.
Arguments HashIndex : clear implicits.
Arguments hi_op : clear implicits.

(** C17.  The hash index refines a finite map: any sequence of [insert], [find], [remove] and
    [resize] calls, as long as [resize] asks for at least one bucket and for no more than there are
    mutexes, returns exactly what the same calls on a finite map return. *)
Theorem hash_index_refines {Key Value : Type} `{Countable Key} (hashFunc : Key -> nat) (n : nat)
    (os : list (hi_op Key Value)) :
  0 < n -> Forall (resize_within n) os ->
  exists s, hi_run hashFunc os (make n) = Ret (s, snd (map_run os ∅)) /\ hi_inv hashFunc s /\
    forall k, find hashFunc k s = Ret (fst (map_run os ∅) !! k).
Proof.
  intros Hn Hos. destruct (make_ok (Value := Value) hashFunc n Hn) as [Hi Ha].
  destruct (hi_run_ok hashFunc os (make n) ∅ Hi Ha Hos) as (s & Hr & Hi' & Ha').
  exists s. split; [done|]. split; [done|]. intros k. by apply find_ok.
Qed.

(** A few calls, with the identity as hash of a small non-negative [int]. *)
Definition some_ops : list (hi_op Z string) :=
  [HInsert 1%Z "Value1"; HInsert 2%Z "Value2"; HInsert 3%Z "Value3"; HFind 2%Z; HRemove 3%Z;
   HResize 7; HFind 3%Z].

Lemma hash_index_refines_witness :
  exists s, hi_run Z.to_nat some_ops (make 10) =
      Ret (s, [RNone; RNone; RNone; RFound (Some "Value2"); RRemoved true; RNone; RFound None]) /\
    hi_inv Z.to_nat s /\
    forall k, find Z.to_nat k s = Ret (fst (map_run some_ops ∅) !! k).
Proof.
  assert (Hm : [RNone; RNone; RNone; RFound (Some "Value2"); RRemoved true; RNone; RFound None] =
    snd (map_run some_ops ∅)) by (vm_compute; reflexivity).
  rewrite Hm. apply (hash_index_refines Z.to_nat 10 some_ops); [lia|].
  repeat (apply Forall_cons_2; [simpl; first [exact I|lia]|]). apply Forall_nil_2.
Defined.

(** Two threads that insert disjoint sets of keys leave the same index in every interleaving of
    their calls: each key has the last value its thread inserted. *)
Lemma hash_index_parallel_inserts {Key Value : Type} `{Countable Key} (hashFunc : Key -> nat)
    (n : nat) (l1 l2 l : list (Key * Value)) :
  0 < n -> interleaving l1 l2 l -> (forall k, k ∈ l1.*1 -> k ∉ l2.*1) ->
  exists s rs, hi_run hashFunc (inserts l) (make n) = Ret (s, rs) /\
    forall k, find hashFunc k s = Ret ((inserted l1 ∪ inserted l2) !! k).
Proof.
  intros Hn Hl Hd. destruct (make_ok (Value := Value) hashFunc n Hn) as [Hi Ha].
  destruct (hi_run_ok hashFunc (inserts l) (make n) ∅ Hi Ha) as (s & Hr & Hi' & Ha').
  { unfold inserts. apply Forall_fmap, Forall_true. done. }
  eexists s, _. split; [done|]. intros k. rewrite (find_ok hashFunc k s _ Hi' Ha').
  rewrite map_run_inserts, foldl_insert_union, (right_id_L ∅ (∪)).
  by rewrite (interleaving_inserted hashFunc l1 l2 l).
Qed.

(** Part of the vectors of [main_parallel]. *)
Lemma hash_index_parallel_inserts_witness :
  let l1 := [(1%Z, "Value1"); (2%Z, "Value2")] in
  let l2 := [(6%Z, "Value6"); (7%Z, "Value7")] in
  let l := [(6%Z, "Value6"); (1%Z, "Value1"); (2%Z, "Value2"); (7%Z, "Value7")] in
  exists s rs, hi_run Z.to_nat (inserts l) (make 10) = Ret (s, rs) /\
    forall k, find Z.to_nat k s = Ret ((inserted l1 ∪ inserted l2) !! k).
Proof.
  intros l1 l2 l. apply (hash_index_parallel_inserts Z.to_nat 10 l1 l2 l).
  - lia.
  - repeat constructor.
  - intros k. unfold l1, l2. simpl. set_solver.
Defined.

(** Growing the index beyond its mutexes makes the next access to a high bucket undefined. *)
Example hash_index_grow_undefined :
  hi_run Z.to_nat [HResize 20; HInsert 15%Z "x"] (make 10) = Undef index_out_of_range.
Proof. reflexivity. Qed.

(** ** The programs *)

Section Programs.
Context (hash : Z -> nat).

(** [main]: the lines it prints, then the growth to 20 buckets. *)
Definition main : outcome (HashIndex Z string * list string) :=
  s ← insert hash 1%Z "Value1" (make 10);
  s ← insert hash 2%Z "Value2" s;
  s ← insert hash 3%Z "Value3" s;
  f ← find hash 2%Z s;
  '(s, removed) ← remove hash 3%Z s;
  s ← resize hash 20 s;
  mret (s, [match f with
            | Some value => "Found key 2 with value: " +:+ value
            | None => "Key 2 not found"
            end] ++ (if removed : bool then ["Key 3 removed successfully"] else [])).

(** [parallelInsert]: [values[i]] is read for every index of [keys]. *)
Fixpoint parallelInsert (keys : list Z) (values : list string) (s : HashIndex Z string) :
    outcome (HashIndex Z string) :=
  match keys, values with
  | [], _ => Ret s
  | _ :: _, [] => Undef index_out_of_range
  | k :: keys, v :: values => s' ← insert hash k v s; parallelInsert keys values s'
  end.

(** The lines of [parallelLookup]. *)
Definition lookup_line (key : Z) (v : option string) : string :=
  match v with
  | Some value => "Key: " +:+ to_string key +:+ " found with value: " +:+ value
  | None => "Key: " +:+ to_string key +:+ " not found"
  end.

Fixpoint parallelLookup (keys : list Z) (s : HashIndex Z string) : outcome (list string) :=
  match keys with
  | [] => Ret []
  | k :: keys => v ← find hash k s; lines ← parallelLookup keys s; mret (lookup_line k v :: lines)
  end.

(** The vectors of [main_parallel]. *)
Definition keys1 : list Z := [1; 2; 3; 4; 5]%Z.
Definition keys2 : list Z := [6; 7; 8; 9; 10]%Z.
Definition values1 : list string := ["Value1"; "Value2"; "Value3"; "Value4"; "Value5"].
Definition values2 : list string := ["Value6"; "Value7"; "Value8"; "Value9"; "Value10"].

(** [main_parallel] when the inserts of [t1] and [t2] happen in the order [l]: the lines of [t3] and
    those of [t4]. *)
Definition main_parallel (l : list (Z * string)) : outcome (list string * list string) :=
  s ← parallelInsert l.*1 l.*2 (make 10);
  lines3 ← parallelLookup keys1 s;
  lines4 ← parallelLookup keys2 s;
  mret (lines3, lines4).

(** [parallelInsert] is a run of inserts. *)
Lemma parallelInsert_run l s :
  parallelInsert l.*1 l.*2 s = ('(s', _) ← hi_run hash (inserts l) s; mret s').
Proof.
  revert s. induction l as [|[k v] l IH]; intros s; [done|]. cbn. destruct (insert hash k v s) as [s1| | |]; [|done..].
  cbn. rewrite IH. unfold inserts. by destruct (hi_run hash _ s1) as [[s2 rs]| | |].
Qed.

Lemma parallelLookup_answers keys s (m : gmap Z string) :
  (forall k, find hash k s = Ret (m !! k)) ->
  parallelLookup keys s = Ret ((fun k => lookup_line k (m !! k)) <$> keys).
Proof.
  intros Hf. induction keys as [|k keys IH]; [done|]. cbn [parallelLookup]. run_with (Hf k). by run_with IH.
Qed.

(** In every interleaving of the two inserting threads, every key is found with its own value. *)
Lemma main_parallel_finds l :
  interleaving (zip keys1 values1) (zip keys2 values2) l ->
  main_parallel l =
    Ret (zip_with (fun k v => lookup_line k (Some v)) keys1 values1,
         zip_with (fun k v => lookup_line k (Some v)) keys2 values2).
Proof.
  intros Hl.
  destruct (hash_index_parallel_inserts hash 10 _ _ l ltac:(lia) Hl) as (s & rs & Hr & Hf).
  { intros k. cbn. set_solver. }
  unfold main_parallel. rewrite parallelInsert_run, Hr. obind.
  rewrite !(parallelLookup_answers _ s _ Hf). obind. vm_compute. reflexivity.
Qed.
End Programs.

(** [main] prints its two lines; the index it leaves has 20 buckets and 10 mutexes. *)
Example main_prints :
  exists s, main Z.to_nat = Ret (s, ["Found key 2 with value: Value2"; "Key 3 removed successfully"]) /\
    numBuckets s = 20 /\ mutexes s = 10.
Proof. eexists. split; [vm_compute; reflexivity|]. split; reflexivity. Qed.
