(* ===== verification/TrieIndex.v ===== *)
(** * The trie index ([indexing/trie_index/trie_index.cpp])

    [TrieNode] and [Trie]: insertion, exact and prefix search, collection of the words under a
    prefix, and removal with pruning.  A node's [unordered_map] of children is an association list
    whose order is the iteration order. *)

From S2P Require Import Prelude Text.
From Stdlib Require Import Ascii String.
Local Open Scope string_scope.
#[local] Arguments String.append !_ _ / : simpl nomatch.

Inductive TrieNode : Type :=
| MkTrie (children : list (ascii * TrieNode)) (is_end_of_word : bool).

Definition children (t : TrieNode) : list (ascii * TrieNode) := let '(MkTrie c _) := t in c.
Definition is_end_of_word (t : TrieNode) : bool := let '(MkTrie _ e) := t in e.

Definition newNode : TrieNode := MkTrie [] false.

(** [children.find(ch)], [children[ch] = n] and [children.erase(ch)]. *)
Fixpoint child (ch : ascii) (c : list (ascii * TrieNode)) : option TrieNode :=
  match c with
  | [] => None
  | (a, t) :: c => if decide (a = ch) then Some t else child ch c
  end.

Fixpoint set_child (ch : ascii) (n : TrieNode) (c : list (ascii * TrieNode)) :
    list (ascii * TrieNode) :=
  match c with
  | [] => [(ch, n)]
  | (a, t) :: c => if decide (a = ch) then (a, n) :: c else (a, t) :: set_child ch n c
  end.

Definition erase_child (ch : ascii) (c : list (ascii * TrieNode)) : list (ascii * TrieNode) :=
  filter (fun e => e.1 ≠ ch) c.

(** The node a prefix leads to; [None] is [nullptr]. *)
Fixpoint search_prefix (prefix : string) (node : TrieNode) : option TrieNode :=
  match prefix with
  | "" => Some node
  | String ch prefix =>
      match child ch (children node) with
      | None => None
      | Some n => search_prefix prefix n
      end
  end.

Fixpoint insert (word : string) (node : TrieNode) : TrieNode :=
  match word with
  | "" => MkTrie (children node) true
  | String ch word =>
      let n := match child ch (children node) with Some n => n | None => newNode end in
      MkTrie (set_child ch (insert word n) (children node)) (is_end_of_word node)
  end.

Definition search (word : string) (root : TrieNode) : bool :=
  match search_prefix word root with
  | None => false
  | Some node => is_end_of_word node
  end.

Definition starts_with (prefix : string) (root : TrieNode) : bool :=
  match search_prefix prefix root with None => false | Some _ => true end.

(** The words below a node, each with the characters that lead to it. *)
Fixpoint collect_words (node : TrieNode) (current_prefix : string) : list string :=
  match node with
  | MkTrie c e =>
      ((if e then [current_prefix] else []) ++
       (fix go (c : list (ascii * TrieNode)) : list string :=
          match c with
          | [] => []
          | (ch, n) :: c => (collect_words n (current_prefix ++ String ch "") ++ go c)%list
          end) c)%list
  end.

Definition get_words_with_prefix (prefix : string) (root : TrieNode) : list string :=
  match search_prefix prefix root with
  | None => []
  | Some node => collect_words node prefix
  end.

Definition no_children (node : TrieNode) : bool :=
  match children node with [] => true | _ => false end.

(** The new node, and whether its parent should delete it. *)
Fixpoint remove_helper (node : TrieNode) (word : string) : TrieNode * bool :=
  match word with
  | "" =>
      if is_end_of_word node
      then (MkTrie (children node) false, no_children node)
      else (node, false)
  | String ch word =>
      match child ch (children node) with
      | None => (node, false)
      | Some n =>
          let '(n', should_delete_child) := remove_helper n word in
          if should_delete_child
          then let node' := MkTrie (erase_child ch (children node)) (is_end_of_word node) in
               (node', no_children node' && negb (is_end_of_word node'))
          else (MkTrie (set_child ch n' (children node)) (is_end_of_word node), false)
      end
  end.

Definition remove (word : string) (root : TrieNode) : TrieNode * bool := remove_helper root word.

(** ** Children *)

Lemma child_set ch n c a :
  child a (set_child ch n c) = if decide (ch = a) then Some n else child a c.
Proof.
  induction c as [|[b t] c IH]; simpl; [by case_decide|].
  destruct (decide (b = ch)) as [->|Hne]; simpl.
  - by case_decide.
  - rewrite IH. repeat case_decide; congruence.
Qed.

Lemma child_erase ch c a : child a (erase_child ch c) = if decide (ch = a) then None else child a c.
Proof.
  unfold erase_child. induction c as [|[b t] c IH]; simpl; [by case_decide|].
  rewrite filter_cons. simpl. destruct (decide (b = ch)) as [->|Hne].
  - rewrite decide_False by auto. rewrite IH. by repeat case_decide.
  - rewrite decide_True by done. simpl. rewrite IH. repeat case_decide; congruence.
Qed.

Lemma set_child_keys ch n c a : a ∈ (set_child ch n c).*1 <-> a = ch \/ a ∈ c.*1.
Proof.
  induction c as [|[b t] c IH]; simpl; [set_solver|].
  case_decide; simpl; rewrite !elem_of_cons; [|rewrite IH]; naive_solver.
Qed.

Lemma set_child_NoDup ch n c : NoDup (c.*1) -> NoDup ((set_child ch n c).*1).
Proof.
  induction c as [|[b t] c IH]; simpl; intros Hnd; [apply NoDup_singleton|].
  apply NoDup_cons in Hnd as [Hb Hnd]. case_decide; simpl; constructor; auto.
  rewrite set_child_keys. naive_solver.
Qed.

Lemma child_elem ch t c : NoDup (c.*1) -> child ch c = Some t <-> (ch, t) ∈ c.
Proof.
  induction c as [|[a n] c IH]; simpl; intros Hnd.
  - split; [done|]. intros H. by apply not_elem_of_nil in H.
  - apply NoDup_cons in Hnd as [Ha Hnd]. rewrite elem_of_cons. case_decide as Hd.
    + subst. split; [intros [= ->]; by left|]. intros [[= ->]|Hin]; [done|].
      by apply elem_of_fst, Ha in Hin.
    + rewrite IH by done. naive_solver.
Qed.

Lemma child_In ch t c : child ch c = Some t -> (ch, t) ∈ c.
Proof.
  induction c as [|[a n] c IH]; simpl; [done|]. case_decide; [intros [= ->]; subst; left|].
  right. auto.
Qed.

(** ** Exact search *)

Lemma search_nil t : search "" t = is_end_of_word t.
Proof. done. Qed.

Lemma search_cons ch w t :
  search (String ch w) t = match child ch (children t) with Some n => search w n | None => false end.
Proof. unfold search. simpl. by destruct (child ch (children t)). Qed.

Lemma search_newNode w : search w newNode = false.
Proof. by destruct w. Qed.

Lemma search_insert w v t : search v (insert w t) = bool_decide (v = w) || search v t.
Proof.
  revert v t. induction w as [|ch w IH]; intros v t; simpl.
  - destruct v as [|a v]; [done|]. by rewrite !search_cons.
  - destruct v as [|a v]; [done|]. rewrite !search_cons. simpl. rewrite child_set.
    destruct (decide (ch = a)) as [->|Hne].
    + rewrite IH. assert (Hb : bool_decide (String a v = String a w) = bool_decide (v = w)).
      { apply bool_decide_ext. split; congruence. }
      rewrite Hb. f_equal. destruct (child a (children t)); [done|]. apply search_newNode.
    + rewrite bool_decide_eq_false_2 by congruence. done.
Qed.

(** A removal that asks for the deletion of its node leaves nothing below it. *)
Lemma remove_helper_empty w t t' : remove_helper t w = (t', true) -> t' = newNode.
Proof.
  revert t t'. induction w as [|ch w IH]; intros t t'; simpl.
  - destruct (is_end_of_word t); [|done]. unfold no_children.
    destruct (children t); [|done]. by intros [= <-].
  - destruct (child ch (children t)) as [n|]; [|done].
    destruct (remove_helper n w) as [n' [|]]; [|done]. intros [= <- Hb].
    apply andb_true_iff in Hb as [Hb He]. unfold no_children in Hb. simpl in *.
    destruct (erase_child ch (children t)); [|done]. by destruct (is_end_of_word t).
Qed.

Lemma search_remove w v t :
  search v (fst (remove w t)) = search v t && negb (bool_decide (v = w)).
Proof.
  unfold remove. revert v t. induction w as [|ch w IH]; intros v t; simpl.
  - destruct (is_end_of_word t) eqn:He; simpl.
    + destruct v as [|a v]; [simpl; by rewrite andb_false_r|]. rewrite !search_cons. simpl.
      by rewrite andb_true_r.
    + destruct v as [|a v]; [rewrite search_nil, He; done|].
      by rewrite bool_decide_eq_false_2, andb_true_r.
  - destruct (child ch (children t)) as [n|] eqn:Hc; simpl.
    2: { destruct (decide (v = String ch w)) as [->|Hne].
         - rewrite search_cons, Hc. done.
         - by rewrite bool_decide_eq_false_2, andb_true_r. }
    destruct (remove_helper n w) as [n' b] eqn:Hr.
    assert (Hn' : forall u, search u n' = search u n && negb (bool_decide (u = w))).
    { intros u. rewrite <-IH. by rewrite Hr. }
    assert (Hgoal : forall c e, (forall a, child a c = if decide (ch = a)
        then (if b then None else Some n') else child a (children t)) -> e = is_end_of_word t ->
      search v (MkTrie c e) = search v t && negb (bool_decide (v = String ch w))).
    { intros c e Hch ->. destruct v as [|a v]; [by rewrite andb_true_r|].
      rewrite !search_cons. simpl. rewrite Hch. destruct (decide (ch = a)) as [<-|Hne].
      - rewrite Hc. assert (Hb : bool_decide (String ch v = String ch w) = bool_decide (v = w)).
        { apply bool_decide_ext. split; congruence. }
        rewrite Hb, <-Hn'. destruct b; [|done].
        rewrite (remove_helper_empty w n n' Hr). by rewrite search_newNode.
      - rewrite bool_decide_eq_false_2 by congruence. by rewrite andb_true_r. }
    destruct b; simpl; apply Hgoal; try done.
    + intros a. by rewrite child_erase.
    + intros a. by rewrite child_set.
Qed.

(** ** Pruning *)

(** A node that holds or leads to a word. *)
Definition live (t : TrieNode) : Prop := is_end_of_word t = true \/ children t ≠ [].

(** Distinct children, and below the root no node without a word. *)
Inductive pruned : TrieNode -> Prop :=
| pruned_node c e :
    NoDup (c.*1) -> (forall ch t, (ch, t) ∈ c -> pruned t) ->
    (forall ch t, (ch, t) ∈ c -> live t) -> pruned (MkTrie c e).

Lemma pruned_inv t :
  pruned t <-> NoDup ((children t).*1) /\ forall ch n, (ch, n) ∈ children t -> pruned n /\ live n.
Proof.
  destruct t as [c e]. simpl. split.
  - inversion 1. eauto.
  - intros [? Hc]. constructor; [done|..]; intros ch t Hin; by apply (Hc ch).
Qed.

Lemma pruned_newNode : pruned newNode.
Proof. constructor; [constructor|..]; intros ch t H; by apply not_elem_of_nil in H. Qed.

Lemma set_child_elem ch n c a t :
  (a, t) ∈ set_child ch n c -> (a = ch /\ t = n) \/ (a, t) ∈ c.
Proof.
  induction c as [|[b u] c IH]; simpl.
  - intros H. apply list_elem_of_singleton in H as [= -> ->]. by left.
  - destruct (decide (b = ch)) as [->|Hne]; rewrite !elem_of_cons; intros [[= -> ->]|Hin]; auto.
    destruct (IH Hin); auto.
Qed.

Lemma set_child_not_nil ch n c : set_child ch n c ≠ [].
Proof. destruct c as [|[a t] c]; simpl; [done|]. by case_decide. Qed.

Lemma pruned_set_child c e ch n :
  pruned (MkTrie c e) -> pruned n -> live n -> pruned (MkTrie (set_child ch n c) e).
Proof.
  intros Hp Hn Hl. apply pruned_inv in Hp as [Hnd Hc]. apply pruned_inv. simpl in *.
  split; [by apply set_child_NoDup|]. intros a t Hin.
  apply set_child_elem in Hin as [[-> ->]|Hin]; eauto.
Qed.

Lemma insert_pruned w : forall t, pruned t -> pruned (insert w t) /\ live (insert w t).
Proof.
  induction w as [|ch w IH]; intros t Hp; simpl.
  - destruct t as [c e]. split; [|by left]. apply pruned_inv in Hp. by apply pruned_inv.
  - assert (Hn : pruned (match child ch (children t) with Some n => n | None => newNode end)).
    { destruct (child ch (children t)) as [n|] eqn:Hc; [|apply pruned_newNode].
      apply child_In in Hc. apply pruned_inv in Hp as [_ Hp]. by apply (Hp ch). }
    destruct (IH _ Hn) as [Hi Hl]. split; [|right; apply set_child_not_nil].
    destruct t as [c e]. by apply pruned_set_child.
Qed.

(** What is left of a node that should stay is pruned, and live if it was. *)
Lemma remove_pruned w : forall t t' b,
  pruned t -> remove_helper t w = (t', b) -> pruned t' /\ (b = false -> live t -> live t').
Proof.
  induction w as [|ch w IH]; intros t t' b Hp; simpl.
  - destruct (is_end_of_word t) eqn:He; intros [= <- <-]; [|done].
    destruct t as [c e]. simpl in *. split.
    + apply pruned_inv in Hp. by apply pruned_inv.
    + unfold no_children. simpl. intros Hc _. right. by destruct c.
  - destruct (child ch (children t)) as [n|] eqn:Hc; [|by intros [= <- <-]].
    assert (Hn : pruned n /\ live n).
    { apply child_In in Hc. apply pruned_inv in Hp as [_ Hp]. by apply (Hp ch). }
    destruct Hn as [Hn Hl]. destruct (remove_helper n w) as [n' d] eqn:Hr.
    destruct (IH n n' d Hn Hr) as [Hn' Hl']. destruct t as [c e]. simpl in *. destruct d.
    + intros [= <- <-]. apply pruned_inv in Hp as [Hnd Hc']. simpl in *. split.
      * apply pruned_inv. simpl. split.
        -- eapply sublist_NoDup; [exact Hnd|]. apply fmap_sublist, sublist_filter.
        -- intros a u Hin. apply list_elem_of_filter in Hin as [_ Hin]. eauto.
      * unfold no_children. simpl. intros Hb _.
        destruct e; [by left|]. right. by destruct (erase_child ch c).
    + intros [= <- <-]. split; [by apply pruned_set_child; auto|].
      intros _ _. right. apply set_child_not_nil.
Qed.

(** ** Prefixes *)

Lemma live_word t : pruned t -> live t -> exists w, search w t = true.
Proof.
  induction 1 as [c e Hnd Hp IH Hl]. intros [He|Hc]; simpl in *.
  - exists "". by rewrite search_nil.
  - destruct c as [|[ch n] c]; [done|].
    destruct (IH ch n) as [w Hw]; [left|eapply Hl; left|].
    exists (String ch w). rewrite search_cons. simpl. by rewrite decide_True.
Qed.

Lemma search_prefix_app p v t :
  search (p ++ v) t = match search_prefix p t with Some n => search v n | None => false end.
Proof.
  revert t. induction p as [|ch p IH]; intros t; [done|]. simpl. rewrite search_cons.
  destruct (child ch (children t)); [apply IH|done].
Qed.

Lemma search_prefix_pruned p : forall t n,
  pruned t -> search_prefix p t = Some n -> pruned n /\ (p = "" \/ live n).
Proof.
  induction p as [|ch p IH]; intros t n Hp; simpl; [intros [= <-]; auto|].
  destruct (child ch (children t)) as [u|] eqn:Hc; [|done]. intros Hs.
  apply pruned_inv in Hp as [_ Hp]. apply child_In, Hp in Hc as [Hu Hl].
  destruct (IH u n Hu Hs) as [Hn [->|Hn']]; [|auto]. simpl in Hs. simplify_eq. auto.
Qed.

Lemma starts_with_spec p t :
  pruned t -> starts_with p t = true <-> p = "" \/ exists v, search (p ++ v) t = true.
Proof.
  intros Hp. unfold starts_with. setoid_rewrite search_prefix_app.
  destruct (search_prefix p t) as [n|] eqn:Hs.
  - split; [intros _|done]. destruct (search_prefix_pruned p t n Hp Hs) as [Hn [->|Hl]]; [by left|].
    right. by apply live_word.
  - split; [done|]. intros [->|[v Hv]]; done.
Qed.

(** ** Collecting words *)

Lemma collect_words_node c e pre :
  collect_words (MkTrie c e) pre =
    ((if e then [pre] else []) ++
     (c ≫= fun x => collect_words x.2 (pre ++ String x.1 "")))%list.
Proof.
  simpl. f_equal. induction c as [|[ch n] c IH]; [done|]. simpl. f_equal. exact IH.
Qed.

Lemma snoc_char_app (p : string) ch v : (p ++ String ch "") ++ v = p ++ String ch v.
Proof. by rewrite app_string_assoc. Qed.

Lemma append_inj_l (p u v : string) : p ++ u = p ++ v -> u = v.
Proof. induction p as [|a p IH]; simpl; [done|]. intros [= H]. auto. Qed.

Lemma append_self_nil (p v : string) : p = p ++ v -> v = "".
Proof. intros H. apply (append_inj_l p). by rewrite append_nil_r. Qed.

Lemma collect_words_spec t :
  pruned t -> forall pre,
  NoDup (collect_words t pre) /\
  forall w, w ∈ collect_words t pre <-> exists v, w = pre ++ v /\ search v t = true.
Proof.
  induction 1 as [c e Hnd Hp IH _]. intros pre.
  assert (Hsub : forall w, w ∈ (c ≫= fun x => collect_words x.2 (pre ++ String x.1 "")) <->
    exists ch v, w = pre ++ String ch v /\ search (String ch v) (MkTrie c e) = true).
  { intros w. rewrite list_elem_of_bind. split.
    - intros ([ch n] & Hw & Hin). simpl in Hw. apply (IH ch n Hin) in Hw as (v & -> & Hv).
      exists ch, v. rewrite snoc_char_app. split; [done|]. rewrite search_cons. simpl.
      apply (child_elem ch n c Hnd) in Hin. by rewrite Hin.
    - intros (ch & v & -> & Hs). rewrite search_cons in Hs. simpl in Hs.
      destruct (child ch c) as [n|] eqn:Hc; [|done]. apply child_elem in Hc; [|done].
      exists (ch, n). split; [|done]. apply (IH ch n Hc). exists v. by rewrite snoc_char_app. }
  rewrite collect_words_node. split.
  - apply NoDup_app. split; [destruct e; [apply NoDup_singleton|constructor]|]. split.
    + intros w Hw Hin. apply Hsub in Hin as (ch & v & Heq & _).
      destruct e; [|by apply not_elem_of_nil in Hw]. apply list_elem_of_singleton in Hw as ->.
      by apply append_self_nil in Heq.
    + clear Hsub. induction c as [|[ch n] c IHc]; [constructor|]. simpl in *.
      apply NoDup_cons in Hnd as [Hch Hnd]. apply NoDup_app.
      split; [apply (IH ch n); left|]. split.
      * intros w Hw Hin. apply (IH ch n) in Hw as (v & -> & _); [|left].
        apply list_elem_of_bind in Hin as ([a u] & Hw & Hin). simpl in Hw.
        apply (IH a u) in Hw as (v' & Heq & _); [|by right].
        rewrite !snoc_char_app in Heq. apply append_inj_l in Heq. injection Heq as <- _.
        apply elem_of_fst in Hin. done.
      * apply IHc; [done|..]; intros a u Hin; [apply (Hp a)|apply (IH a)]; by right.
  - intros w. rewrite elem_of_app, Hsub. split.
    + intros [Hw|(ch & v & -> & Hs)]; [|eauto]. destruct e; [|by apply not_elem_of_nil in Hw].
      apply list_elem_of_singleton in Hw as ->. exists "". by rewrite append_nil_r.
    + intros ([|ch v] & -> & Hs); [|eauto]. rewrite search_nil in Hs. simpl in Hs. subst e.
      left. rewrite append_nil_r. left.
Qed.

(** ** Sequences of updates *)

Inductive trie_op : Type :=
| TInsert (word : string)
| TRemove (word : string).

Definition trie_step (t : TrieNode) (o : trie_op) : TrieNode :=
  match o with
  | TInsert w => insert w t
  | TRemove w => fst (remove w t)
  end.

Definition set_step (S : gset string) (o : trie_op) : gset string :=
  match o with
  | TInsert w => {[w]} ∪ S
  | TRemove w => S ∖ {[w]}
  end.

Definition trie_run (os : list trie_op) : TrieNode := foldl trie_step newNode os.
Definition set_run (os : list trie_op) : gset string := foldl set_step ∅ os.

Definition stores (t : TrieNode) (S : gset string) : Prop :=
  pruned t /\ forall w, search w t = bool_decide (w ∈ S).

Lemma trie_step_stores t S o : stores t S -> stores (trie_step t o) (set_step S o).
Proof.
  intros [Hp Hs]. destruct o as [w|w]; cbn [trie_step set_step]; split.
  - by apply insert_pruned.
  - intros v. rewrite search_insert, Hs. rewrite <-bool_decide_or. apply bool_decide_ext. set_solver.
  - unfold remove. destruct (remove_helper t w) as [t' b] eqn:Hr. simpl.
    by apply (remove_pruned w t t' b).
  - intros v. rewrite search_remove, Hs. rewrite <-bool_decide_not, <-bool_decide_and.
    apply bool_decide_ext. set_solver.
Qed.

Lemma trie_run_stores os : stores (trie_run os) (set_run os).
Proof.
  unfold trie_run, set_run. assert (H0 : stores newNode ∅).
  { split; [apply pruned_newNode|]. intros w. rewrite search_newNode.
    symmetry. apply bool_decide_eq_false_2. set_solver. }
  revert H0. generalize newNode, (∅ : gset string).
  induction os as [|o os IH]; intros t S H0; [done|]. simpl. by apply IH, trie_step_stores.
Qed.

(** C20.  The trie is the set of its words: after any insertions and removals, [search] answers
    membership in the set of words inserted and not removed since, [starts_with] whether one of them
    has the prefix (the empty prefix always), and [get_words_with_prefix] lists exactly those that
    have it, each once. *)
Theorem trie_index_correct (os : list trie_op) :
  let t := trie_run os in let S := set_run os in
  (forall w, search w t = bool_decide (w ∈ S)) /\
  (forall p, starts_with p t = true <-> p = "" \/ exists v, p ++ v ∈ S) /\
  (forall p, NoDup (get_words_with_prefix p t) /\
     forall w, w ∈ get_words_with_prefix p t <-> exists v, w = p ++ v /\ w ∈ S).
Proof.
  intros t S. destruct (trie_run_stores os) as [Hp Hs]. fold t S in Hp, Hs.
  split; [done|]. split.
  - intros p. rewrite starts_with_spec by done. setoid_rewrite Hs.
    by setoid_rewrite bool_decide_eq_true.
  - intros p. unfold get_words_with_prefix.
    assert (Happ : forall v, (p ++ v ∈ S) <->
      match search_prefix p t with Some n => search v n | None => false end = true).
    { intros v. rewrite <-search_prefix_app, Hs. by rewrite bool_decide_eq_true. }
    destruct (search_prefix p t) as [n|] eqn:Hn.
    + destruct (search_prefix_pruned p t n Hp Hn) as [Hpn _].
      destruct (collect_words_spec n Hpn p) as [Hnd Hw]. split; [done|].
      intros w. rewrite Hw. split; intros (v & -> & Hv); exists v; (split; [done|]); by apply Happ.
    + split; [constructor|]. intros w. split; [intros H; by apply not_elem_of_nil in H|].
      intros (v & -> & Hv). by apply Happ in Hv.
Qed.

(** ** What [remove] returns *)

Lemma remove_true_present w t t' : remove_helper t w = (t', true) -> search w t = true.
Proof.
  revert t t'. induction w as [|ch w IH]; intros t t'; simpl.
  - unfold search. simpl. by destruct (is_end_of_word t).
  - rewrite search_cons. destruct (child ch (children t)) as [n|]; [|done].
    destruct (remove_helper n w) as [n' [|]] eqn:Hr; [|done]. intros _. by eapply IH.
Qed.

Lemma remove_empty_true w : forall t,
  pruned t -> search w t = true -> (forall v, search v t = true -> v = w) ->
  snd (remove_helper t w) = true.
Proof.
  induction w as [|ch w IH]; intros t Hp Hs Hall; simpl.
  - rewrite search_nil in Hs. rewrite Hs. simpl. unfold no_children.
    destruct t as [[|[a n] c] e]; [done|]. simpl in *.
    apply pruned_inv in Hp as [_ Hp]. destruct (Hp a n) as [Hn Hl]; [left|].
    destruct (live_word n Hn Hl) as [v Hv]. specialize (Hall (String a v)).
    rewrite search_cons in Hall. simpl in Hall. rewrite decide_True in Hall by done.
    by specialize (Hall Hv).
  - rewrite search_cons in Hs. destruct (child ch (children t)) as [n|] eqn:Hc; [|done].
    pose proof (child_In _ _ _ Hc) as Hin. pose proof Hp as Hp'.
    apply pruned_inv in Hp as [Hnd Hp]. destruct (Hp ch n Hin) as [Hn Hl].
    assert (Hd : snd (remove_helper n w) = true).
    { apply IH; [done..|]. intros v Hv. specialize (Hall (String ch v)).
      rewrite search_cons, Hc in Hall. specialize (Hall Hv). congruence. }
    destruct (remove_helper n w) as [n' d]. simpl in Hd. subst d. simpl.
    assert (He : is_end_of_word t = false).
    { destruct (is_end_of_word t) eqn:He; [|done]. by specialize (Hall "" He). }
    rewrite He. apply andb_true_iff. split; [|done]. unfold no_children. simpl.
    destruct (erase_child ch (children t)) as [|[a u] c] eqn:Hec; [done|].
    assert (Hau : (a, u) ∈ erase_child ch (children t)) by (rewrite Hec; left).
    apply list_elem_of_filter in Hau as [Hne Hau]. simpl in Hne.
    destruct (Hp a u Hau) as [Hu Hlu]. destruct (live_word u Hu Hlu) as [v Hv].
    specialize (Hall (String a v)). rewrite search_cons in Hall.
    apply (child_elem a u _ Hnd) in Hau. rewrite Hau in Hall. specialize (Hall Hv). congruence.
Qed.

(** [remove] returns whether the trie became empty, not whether it removed the word: on a trie
    built by insertions and removals it returns [true] exactly when the word was the only one. *)
Lemma trie_remove_result (os : list trie_op) (w : string) :
  snd (remove w (trie_run os)) = true <-> set_run os = {[w]}.
Proof.
  destruct (trie_run_stores os) as [Hp Hs]. unfold remove. split.
  - destruct (remove_helper (trie_run os) w) as [t' b] eqn:Hr. simpl. intros ->.
    pose proof (remove_true_present w _ _ Hr) as Hw.
    apply set_eq. intros v. rewrite elem_of_singleton. split.
    + intros Hv. pose proof (search_remove w v (trie_run os)) as Hrm. unfold remove in Hrm.
      rewrite Hr, (remove_helper_empty w _ _ Hr), Hs in Hrm. simpl in Hrm.
      rewrite search_newNode, bool_decide_eq_true_2 in Hrm by done. simpl in Hrm.
      destruct (decide (v = w)); [done|]. by rewrite bool_decide_eq_false_2 in Hrm.
    + intros ->. rewrite Hs in Hw. by apply bool_decide_eq_true in Hw.
  - intros Heq. apply remove_empty_true; [done|..].
    + rewrite Hs. apply bool_decide_eq_true_2. rewrite Heq. set_solver.
    + intros v. rewrite Hs, bool_decide_eq_true, Heq. set_solver.
Qed.

(** The words of [main]: removing "apple" succeeds and returns [false]. *)
Definition main_words : list trie_op :=
  TInsert <$> ["apple"; "app"; "application"; "banana"; "band"; "bandwidth"].

Example main_remove_apple :
  let '(t, r) := remove "apple" (trie_run main_words) in r = false /\ search "apple" t = false.
Proof. done. Qed.
