(* ===== verification/TrieHeap.v ===== *)
(** * The trie in memory ([indexing/trie_index/trie_index.cpp])

    The functions of [Trie] on nodes behind pointers: [new] and [delete] change a heap, a pointer to a
    deleted node is undefined to follow, and the destructor walks what is left. The heap functions are
    shown to do what the functions of [TrieIndex] do on trees, without touching a deleted node and
    without leaving one behind. *)

From S2P Require Import Prelude Text TrieIndex.
From Stdlib Require Import Ascii.
Local Open Scope prog_scope.

(** ** Nodes *)

Abbreviation loc := nat.

(** [children] maps characters to pointers, in the order of its iteration. *)
Record hnode : Type := MkH { kids : list (ascii * loc); ends : bool }.
Abbreviation heap := (gmap loc hnode).

Fixpoint kid (ch : ascii) (c : list (ascii * loc)) : option loc :=
  match c with
  | [] => None
  | (a, q) :: c => if decide (a = ch) then Some q else kid ch c
  end.

Definition erase_kid (ch : ascii) (c : list (ascii * loc)) : list (ascii * loc) :=
  filter (fun e => e.1 ≠ ch) c.

Definition no_kids (n : hnode) : bool := match kids n with [] => true | _ => false end.

(** [*p], [*p = n] and [delete p] for a pointer that must be to a live node. *)
Definition load (p : loc) : prog heap hnode := fun h =>
  match h !! p with Some n => (h, Ret n) | None => (h, Undef dangling_iterator) end.
Definition store (p : loc) (n : hnode) : prog heap unit := fun h =>
  match h !! p with Some _ => (<[p := n]> h, Ret tt) | None => (h, Undef dangling_iterator) end.
Definition free (p : loc) : prog heap unit := fun h =>
  match h !! p with Some _ => (delete p h, Ret tt) | None => (h, Undef dangling_iterator) end.

(** ** Trees of pointers *)

(** A tree with the address of each node. *)
Inductive LTrie : Type := LNode (p : loc) (c : list (ascii * LTrie)) (e : bool).

Definition root (t : LTrie) : loc := let '(LNode p _ _) := t in p.
Definition links (c : list (ascii * LTrie)) : list (ascii * loc) := map (fun x => (x.1, root x.2)) c.

(** The nodes of a tree as they are in memory, and the tree without addresses. *)
Fixpoint flat (t : LTrie) : list (loc * hnode) :=
  match t with LNode p c e => (p, MkH (links c) e) :: concat (map (fun x => flat x.2) c) end.
Fixpoint tree (t : LTrie) : TrieNode :=
  match t with LNode _ c e => MkTrie (map (fun x => (x.1, tree x.2)) c) e end.

Definition locs (t : LTrie) : list loc := (flat t).*1.

(** The heap holds the tree: its nodes are at distinct addresses. *)
Definition owned (h : heap) (t : LTrie) : Prop :=
  NoDup (locs t) /\ forall l n, (l, n) ∈ flat t -> h !! l = Some n.

(** From [t] in [h] to [t'] in [h']: nothing else changes, what [t'] has more was free, and what it
    has less is deleted. *)
Definition turns (h : heap) (t : LTrie) (h' : heap) (t' : LTrie) : Prop :=
  (forall l, l ∉ locs t -> l ∉ locs t' -> h' !! l = h !! l) /\
  (forall l, l ∈ locs t' -> l ∈ locs t \/ h !! l = None) /\
  (forall l, l ∈ locs t -> l ∉ locs t' -> h' !! l = None).

Definition below (c : list (ascii * LTrie)) : list loc := concat (map (fun x => locs x.2) c).

Lemma locs_node p c e : locs (LNode p c e) = p :: below c.
Proof.
  unfold locs, below. cbn [flat]. rewrite fmap_cons. cbn [fst]. f_equal.
  induction c as [|x c IH]; [done|]. cbn [map concat]. by rewrite fmap_app, IH.
Qed.

Lemma below_app c1 c2 : below (c1 ++ c2) = (below c1 ++ below c2)%list.
Proof. unfold below. by rewrite map_app, concat_app. Qed.
Lemma below_cons x c : below (x :: c) = (locs x.2 ++ below c)%list.
Proof. done. Qed.

Lemma elem_of_below l c : l ∈ below c <-> exists ch t, (ch, t) ∈ c /\ l ∈ locs t.
Proof.
  induction c as [|[a u] c IH]; simpl.
  - unfold below. simpl. split; [intros H; by apply not_elem_of_nil in H|]. intros (? & ? & H & _).
    by apply not_elem_of_nil in H.
  - rewrite below_cons, elem_of_app, IH. simpl. split.
    + intros [H|(ch & t & H1 & H2)]; [exists a, u; split; [left|done]|exists ch, t; split; [by right|done]].
    + intros (ch & t & H1 & H2). apply elem_of_cons in H1 as [[= -> ->]|H1]; [by left|right; eauto].
Qed.

Lemma elem_of_flat_node l n p c e :
  (l, n) ∈ flat (LNode p c e) <->
  (l = p /\ n = MkH (links c) e) \/ exists ch t, (ch, t) ∈ c /\ (l, n) ∈ flat t.
Proof.
  simpl. rewrite elem_of_cons. split.
  - intros [[= -> ->]|H]; [by left|right]. apply list_elem_of_In, in_concat in H as (x & Hx & H).
    apply in_map_iff in Hx as ([ch t] & <- & Hx). apply list_elem_of_In in Hx, H. eauto.
  - intros [[-> ->]|(ch & t & Hc & H)]; [by left|right]. apply list_elem_of_In, in_concat.
    exists (flat t). apply list_elem_of_In in Hc, H. split; [|done]. apply in_map_iff. by exists (ch, t).
Qed.

(** A node and its children are owned together. *)
Lemma owned_node h p c e :
  owned h (LNode p c e) <->
  NoDup (p :: below c) /\ h !! p = Some (MkH (links c) e) /\
  forall ch t, (ch, t) ∈ c -> forall l n, (l, n) ∈ flat t -> h !! l = Some n.
Proof.
  unfold owned. rewrite locs_node. split.
  - intros [Hnd H]. split; [done|]. split; [apply H, elem_of_flat_node; by left|].
    intros ch t Hc l n Hl. apply H, elem_of_flat_node. eauto.
  - intros (Hnd & Hp & H). split; [done|]. intros l n Hl.
    apply elem_of_flat_node in Hl as [[-> ->]|(ch & t & Hc & Hl)]; [done|eauto].
Qed.

Lemma flat_loc l n t : (l, n) ∈ flat t -> l ∈ locs t.
Proof. unfold locs. apply elem_of_fst. Qed.

Lemma loc_flat l t : l ∈ locs t -> exists n, (l, n) ∈ flat t.
Proof. unfold locs. apply elem_of_fst_inv. Qed.

Lemma root_locs t : root t ∈ locs t.
Proof. destruct t as [p c e]. rewrite locs_node. left. Qed.

Lemma owned_child h p c1 ch t c2 e : owned h (LNode p (c1 ++ (ch, t) :: c2) e) -> owned h t.
Proof.
  intros H. apply owned_node in H as (Hnd & _ & H). split.
  - rewrite below_app, below_cons in Hnd. apply NoDup_cons in Hnd as [_ Hnd].
    apply NoDup_app in Hnd as (_ & _ & Hnd). by apply NoDup_app in Hnd as (? & _ & _).
  - intros l n. apply (H ch). apply elem_of_app. right. left.
Qed.

(** ** Steps from tree to tree *)

Lemma turns_refl h t : turns h t h t.
Proof. split; [done|]. split; [by left|done]. Qed.

Lemma turns_trans h t h1 t1 h2 t2 : turns h t h1 t1 -> turns h1 t1 h2 t2 -> turns h t h2 t2.
Proof.
  intros (A1 & A2 & A3) (B1 & B2 & B3). split; [|split]; intros l.
  - intros Ht H2. destruct (decide (l ∈ locs t1)) as [H1|H1]; [|by rewrite B1, A1].
    rewrite B3 by done. by destruct (A2 l H1) as [?| ->].
  - intros H2. destruct (decide (l ∈ locs t1)) as [H1|H1]; [auto|].
    destruct (B2 l H2) as [?|Hn]; [done|]. destruct (decide (l ∈ locs t)) as [Ht|Ht]; [by left|].
    right. by rewrite <-A1.
  - intros Ht H2. destruct (decide (l ∈ locs t1)) as [H1|H1]; [auto|]. rewrite B1 by done. auto.
Qed.

(** The children around one of them. *)
Definition around (p : loc) (c1 c2 : list (ascii * LTrie)) : list loc :=
  p :: (below c1 ++ below c2).

Lemma locs_around p c1 ch t c2 e :
  locs (LNode p (c1 ++ (ch, t) :: c2) e) ≡ₚ (locs t ++ around p c1 c2)%list.
Proof.
  rewrite locs_node, below_app, below_cons. unfold around. simpl. rewrite <-Permutation_middle.
  constructor. rewrite !(assoc_L (++)). f_equiv. apply (comm (++)).
Qed.

Lemma links_app c1 c2 : links (c1 ++ c2) = (links c1 ++ links c2)%list.
Proof. apply map_app. Qed.

Section Update.
Context (h h' : heap) (p : loc) (c1 c2 : list (ascii * LTrie)) (ch : ascii) (e : bool) (t t' : LTrie).
Context (Ho : owned h (LNode p (c1 ++ (ch, t) :: c2) e)).
Context (Ho' : owned h' t') (Hroot : root t' = root t) (Ht : turns h t h' t').

Lemma around_kept l : l ∈ around p c1 c2 -> (l ∉ locs t) /\ (l ∉ locs t') /\ h' !! l = h !! l.
Proof.
  intros Hl. destruct Ho as [Hnd Hown]. rewrite locs_around in Hnd.
  apply NoDup_app in Hnd as (_ & Hd & _). assert (Hlt : l ∉ locs t) by (intros Hin; by apply (Hd l)).
  assert (Hsome : is_Some (h !! l)).
  { destruct (loc_flat l (LNode p (c1 ++ (ch, t) :: c2) e)) as [n Hn].
    - rewrite locs_around. apply elem_of_app. by right.
    - rewrite (Hown l n Hn). eauto. }
  destruct Ht as (A1 & A2 & _). assert (Hlt' : l ∉ locs t').
  { intros Hin. destruct (A2 l Hin) as [?|Hn]; [done|]. rewrite Hn in Hsome. by destruct Hsome. }
  split; [done|]. split; [done|]. by apply A1.
Qed.

Lemma update_child_owned : owned h' (LNode p (c1 ++ (ch, t') :: c2) e).
Proof.
  pose proof Ho as [Hnd _]. pose proof Ho as Hn. apply owned_node in Hn as (_ & Hp & Hc). split.
  - rewrite locs_around in Hnd |- *. apply NoDup_app in Hnd as (_ & _ & Hnd).
    apply NoDup_app. split; [apply Ho'|]. split; [|done]. intros l Hl Ha.
    by destruct (around_kept l Ha) as (_ & ? & _).
  - intros l n Hl. apply elem_of_flat_node in Hl as [[-> ->]|(a & u & Hin & Hl)].
    + destruct (around_kept p) as (_ & _ & ->); [left|]. rewrite Hp. f_equal. f_equal.
      rewrite !links_app. f_equal. unfold links. simpl. by rewrite Hroot.
    + rewrite elem_of_app, elem_of_cons in Hin.
      assert (Hin' : (a, u) ∈ c1 ++ c2 \/ (a, u) = (ch, t')) by (rewrite elem_of_app; naive_solver).
      destruct Hin' as [Hin'|[= -> ->]]; [|by apply Ho'].
      assert (Hal : l ∈ around p c1 c2).
      { unfold around. rewrite <-below_app. right. apply elem_of_below. exists a, u.
        split; [done|by eapply flat_loc]. }
      destruct (around_kept l Hal) as (_ & _ & ->). apply (Hc a u); [|done].
      rewrite elem_of_app in Hin'. rewrite elem_of_app, elem_of_cons. naive_solver.
Qed.

Lemma update_child_turns :
  turns h (LNode p (c1 ++ (ch, t) :: c2) e) h' (LNode p (c1 ++ (ch, t') :: c2) e).
Proof.
  destruct Ht as (A1 & A2 & A3). unfold turns. setoid_rewrite locs_around. setoid_rewrite elem_of_app.
  split; [|split]; intros l.
  - intros H1 H2. apply A1; tauto.
  - intros [Hl|Hl]; [|tauto]. destruct (A2 l Hl); tauto.
  - intros [Hl|Hl] Hn; [apply A3; tauto|tauto].
Qed.
End Update.

(** Writing the mark of a node. *)
Lemma mark_owned h p c e e' :
  owned h (LNode p c e) ->
  owned (<[p := MkH (links c) e']> h) (LNode p c e') /\
  turns h (LNode p c e) (<[p := MkH (links c) e']> h) (LNode p c e').
Proof.
  intros Ho. apply owned_node in Ho as (Hnd & Hp & Hc). pose proof Hnd as Hnd'.
  apply NoDup_cons in Hnd' as [Hni _]. split.
  - apply owned_node. split; [done|]. split; [apply lookup_insert_eq|]. intros ch t Hin l n Hl.
    rewrite lookup_insert_ne; [by eapply Hc|]. intros ->. apply Hni, elem_of_below. exists ch, t.
    split; [done|by eapply flat_loc].
  - unfold turns. rewrite !locs_node. split; [|split; [by left|done]].
    intros l Hl _. rewrite lookup_insert_ne; [done|]. set_solver.
Qed.

(** Linking a new node as the last child. *)
Lemma link_owned h p c e ch q :
  owned h (LNode p c e) -> h !! q = None ->
  let h' := <[p := MkH (links c ++ [(ch, q)]) e]> (<[q := MkH [] false]> h) in
  let t' := LNode p (c ++ [(ch, LNode q [] false)]) e in
  owned h' t' /\ turns h (LNode p c e) h' t'.
Proof.
  intros Ho Hq h' t'. apply owned_node in Ho as (Hnd & Hp & Hc).
  assert (Hbelow : forall l, l ∈ below c -> is_Some (h !! l)).
  { intros l Hl. apply elem_of_below in Hl as (a & u & Hin & Hl). apply loc_flat in Hl as [n Hn].
    rewrite (Hc a u Hin l n Hn). eauto. }
  assert (Hqp : q ≠ p) by congruence. assert (Hqb : q ∉ below c).
  { intros Hin. apply Hbelow in Hin as [n Hn]. congruence. }
  assert (Hb : below (c ++ [(ch, LNode q [] false)]) = (below c ++ [q])%list) by apply below_app.
  pose proof Hnd as Hnd'. apply NoDup_cons in Hnd' as [Hpb Hnb]. split.
  - apply owned_node. rewrite Hb. split; [|split].
    + apply NoDup_cons. split; [rewrite elem_of_app, list_elem_of_singleton; naive_solver|].
      apply NoDup_app. split; [done|]. split; [|apply NoDup_singleton].
      intros l Hl Hlq. apply list_elem_of_singleton in Hlq as ->. done.
    + unfold h'. by rewrite lookup_insert_eq, links_app.
    + intros a u Hin l n Hl. apply elem_of_app in Hin as [Hin|Hin].
      * assert (Hlb : l ∈ below c) by (apply elem_of_below; exists a, u; split; [done|by eapply flat_loc]).
        unfold h'. rewrite !lookup_insert_ne by (intros ->; done). by eapply Hc.
      * apply list_elem_of_singleton in Hin as [= -> ->]. simpl in Hl.
        apply list_elem_of_singleton in Hl as [= -> ->]. unfold h'.
        by rewrite lookup_insert_ne, lookup_insert_eq.
  - unfold turns, t'. rewrite !locs_node, Hb. split; [|split].
    + intros l H1 H2. unfold h'. rewrite !lookup_insert_ne; [done|set_solver..].
    + intros l Hl. rewrite elem_of_cons, elem_of_app, list_elem_of_singleton in Hl.
      rewrite elem_of_cons. destruct Hl as [?|[?| ->]]; auto.
    + intros l H1 H2. set_solver.
Qed.

(** Unlinking a child without children and deleting it. *)
Lemma unlink_owned h p c1 ch q c2 e :
  owned h (LNode p (c1 ++ (ch, LNode q [] false) :: c2) e) ->
  let h' := delete q (<[p := MkH (links (c1 ++ c2)) e]> h) in
  let t' := LNode p (c1 ++ c2) e in
  owned h' t' /\ turns h (LNode p (c1 ++ (ch, LNode q [] false) :: c2) e) h' t'.
Proof.
  intros Ho h' t'. pose proof Ho as [Hnd _]. rewrite locs_around in Hnd. simpl in Hnd.
  apply NoDup_cons in Hnd as [Hq Hnd]. apply owned_node in Ho as (_ & Hp & Hc).
  assert (Hl' : locs t' = around p c1 c2) by (unfold t', around; by rewrite locs_node, below_app).
  assert (Hpq : p ≠ q) by (intros ->; apply Hq; left). split.
  - split; [by rewrite Hl'|]. intros l n Hl. assert (Hlq : l ≠ q).
    { intros ->. apply Hq. rewrite <-Hl'. by eapply flat_loc. }
    unfold h'. rewrite lookup_delete_ne by done.
    apply elem_of_flat_node in Hl as [[-> ->]|(a & u & Hin & Hl)]; [by rewrite lookup_insert_eq|].
    rewrite lookup_insert_ne.
    + apply (Hc a u); [|done]. rewrite elem_of_app, elem_of_cons. rewrite elem_of_app in Hin. naive_solver.
    + intros ->. apply NoDup_cons in Hnd as [Hpb _]. apply Hpb. rewrite <-below_app.
      apply elem_of_below. exists a, u. split; [done|by eapply flat_loc].
  - unfold turns. setoid_rewrite locs_around. rewrite Hl'. setoid_rewrite elem_of_app.
    assert (Hls : locs (LNode q [] false) = [q]) by done. setoid_rewrite Hls.
    setoid_rewrite list_elem_of_singleton. split; [|split].
    + intros l H1 H2. unfold h'. rewrite lookup_delete_ne by (intros ->; apply H1; by left).
      rewrite lookup_insert_ne; [done|]. intros ->. apply H2. left.
    + intros l Hl. left. by right.
    + intros l [->|Hl] Hn; [apply lookup_delete_eq|done].
Qed.

(** ** Children by character *)

Definition trees (c : list (ascii * LTrie)) : list (ascii * TrieNode) := map (fun x => (x.1, tree x.2)) c.

Lemma trees_app c1 c2 : trees (c1 ++ c2) = (trees c1 ++ trees c2)%list.
Proof. apply map_app. Qed.

Lemma trees_keys c : (trees c).*1 = c.*1.
Proof. unfold trees. induction c as [|x c IH]; [done|]. cbn [map]. by rewrite !fmap_cons, IH. Qed.

Lemma kid_cases ch c :
  (kid ch (links c) = None /\ child ch (trees c) = None /\
   forall n, set_child ch n (trees c) = (trees c ++ [(ch, n)])%list) \/
  exists c1 t c2, c = (c1 ++ (ch, t) :: c2)%list /\ kid ch (links c) = Some (root t) /\
    child ch (trees c) = Some (tree t) /\
    forall n, set_child ch n (trees c) = (trees c1 ++ (ch, n) :: trees c2)%list.
Proof.
  induction c as [|[a t] c IH]; [by left|]. simpl. destruct (decide (a = ch)) as [->|Hne].
  - right. exists [], t, c. done.
  - destruct IH as [(H1 & H2 & H3)|(c1 & u & c2 & -> & H1 & H2 & H3)].
    + left. split; [done|]. split; [done|]. intros n. by rewrite H3.
    + right. exists ((a, t) :: c1), u, c2. split; [done|]. split; [done|]. split; [done|].
      intros n. by rewrite H3.
Qed.

Lemma erase_kid_links ch t c1 c2 :
  NoDup ((c1 ++ (ch, t) :: c2).*1) ->
  erase_kid ch (links (c1 ++ (ch, t) :: c2)) = links (c1 ++ c2) /\
  erase_child ch (trees (c1 ++ (ch, t) :: c2)) = trees (c1 ++ c2).
Proof.
  intros Hnd. rewrite fmap_app, fmap_cons in Hnd. simpl in Hnd.
  apply NoDup_app in Hnd as (_ & Hd & Hnd). apply NoDup_cons in Hnd as [Hc2 _].
  assert (H1 : ch ∉ c1.*1) by (intros Hin; apply (Hd ch Hin); left).
  assert (Hk : forall {A} (f : LTrie -> A) c, ch ∉ c.*1 ->
    filter (fun e : ascii * A => e.1 ≠ ch) (map (fun x => (x.1, f x.2)) c) = map (fun x => (x.1, f x.2)) c).
  { intros A f c Hc. apply list_filter_all, Forall_forall. intros [a y] Hin.
    apply list_elem_of_In, in_map_iff in Hin as ([b u] & [= <- <-] & Hin). simpl. intros ->.
    apply Hc. apply elem_of_fst with u. by apply list_elem_of_In. }
  unfold erase_kid, erase_child, links, trees. rewrite !map_app. cbn [map]. rewrite !filter_app.
  rewrite !filter_cons_False by (simpl; naive_solver). by rewrite !Hk.
Qed.

Section Trie.
(** Where [new] puts a node. *)
Context (new_loc : heap -> loc).

Definition new_node : prog heap loc := fun h => (<[new_loc h := MkH [] false]> h, Ret (new_loc h)).

(** ** The functions of [Trie] *)

(** [search_prefix]; [None] is [nullptr]. *)
Fixpoint h_search_prefix (prefix : string) (node : loc) : prog heap (option loc) :=
  match prefix with
  | EmptyString => prog_ret (Some node)
  | String ch prefix =>
      let! n := load node in
      match kid ch (kids n) with
      | None => prog_ret None
      | Some q => h_search_prefix prefix q
      end
  end.

Fixpoint h_insert (word : string) (node : loc) : prog heap unit :=
  match word with
  | EmptyString => let! n := load node in store node (MkH (kids n) true)
  | String ch word =>
      let! n := load node in
      match kid ch (kids n) with
      | Some q => h_insert word q
      | None =>
          let! q := new_node in
          store node (MkH (kids n ++ [(ch, q)]) (ends n)) ;;; h_insert word q
      end
  end.

Definition h_search (word : string) (root : loc) : prog heap bool :=
  let! r := h_search_prefix word root in
  match r with
  | None => prog_ret false
  | Some node => let! n := load node in prog_ret (ends n)
  end.

Definition h_starts_with (prefix : string) (root : loc) : prog heap bool :=
  let! r := h_search_prefix prefix root in
  prog_ret (match r with None => false | Some _ => true end).

(** [remove_helper], which deletes the child it unlinks. *)
Fixpoint h_remove_helper (word : string) (node : loc) : prog heap bool :=
  match word with
  | EmptyString =>
      let! n := load node in
      if ends n then store node (MkH (kids n) false) ;;; prog_ret (no_kids n) else prog_ret false
  | String ch word =>
      let! n := load node in
      match kid ch (kids n) with
      | None => prog_ret false
      | Some q =>
          let! should_delete_child := h_remove_helper word q in
          if should_delete_child : bool
          then
            let! n := load node in
            let n' := MkH (erase_kid ch (kids n)) (ends n) in
            store node n' ;;; free q ;;; prog_ret (no_kids n' && negb (ends n'))
          else prog_ret false
      end
  end.

(** A call on each child in turn. *)
Fixpoint each_kid {A : Type} (call : ascii -> loc -> prog heap (list A)) (c : list (ascii * loc)) :
    prog heap (list A) :=
  match c with
  | [] => prog_ret []
  | (ch, q) :: c => let! l := call ch q in let! l' := each_kid call c in prog_ret (l ++ l')%list
  end.

(** [delete_trie] and [collect_words] call themselves on the children; the fuel bounds the depth. *)
Fixpoint delete_trie (fuel : nat) (node : loc) : prog heap unit :=
  match fuel with
  | O => fun h => (h, Hang)
  | S fuel =>
      let! n := load node in
      each_kid (A := unit) (fun _ q => delete_trie fuel q ;;; prog_ret []) (kids n) ;;; free node
  end.

Fixpoint h_collect_words (fuel : nat) (node : loc) (current_prefix : string) : prog heap (list string) :=
  match fuel with
  | O => fun h => (h, Hang)
  | S fuel =>
      let! n := load node in
      let! l := each_kid (fun ch q => h_collect_words fuel q (current_prefix +:+ String ch EmptyString))
                  (kids n) in
      prog_ret ((if ends n then [current_prefix] else []) ++ l)%list
  end.

Definition h_get_words_with_prefix (prefix : string) (root : loc) : prog heap (list string) :=
  let! r := h_search_prefix prefix root in
  match r with
  | None => prog_ret []
  | Some node => fun h => h_collect_words (size h) node prefix h
  end.

(** The constructor and the destructor. *)
Definition newTrie : prog heap loc := new_node.
Definition destroyTrie (root : loc) : prog heap unit := fun h => delete_trie (size h) root h.

(** ** The functions do what the tree functions do *)

Lemma load_root h p c e : owned h (LNode p c e) -> load p h = (h, Ret (MkH (links c) e)).
Proof. intros Ho. apply owned_node in Ho as (_ & Hp & _). unfold load. by rewrite Hp. Qed.

Lemma store_live h p n n' : h !! p = Some n -> store p n' h = (<[p := n']> h, Ret tt).
Proof. intros Hp. unfold store. by rewrite Hp. Qed.

Lemma h_search_prefix_ok w : forall h t, owned h t ->
  match search_prefix w (tree t) with
  | None => h_search_prefix w (root t) h = (h, Ret None)
  | Some n => exists u, h_search_prefix w (root t) h = (h, Ret (Some (root u))) /\ owned h u /\
                tree u = n /\ locs u ⊆ locs t
  end.
Proof.
  induction w as [|ch w IH]; intros h [p c e] Ho; cbn [search_prefix h_search_prefix root].
  - by exists (LNode p c e).
  - unfold prog_bind. rewrite (load_root h p c e Ho). cbn [kids tree children]. fold (trees c).
    destruct (kid_cases ch c) as [(Hk & Hc & _)|(c1 & t & c2 & Hs & Hk & Hc & _)]; rewrite Hk, Hc; [done|].
    subst c. pose proof (IH h t (owned_child h p c1 ch t c2 e Ho)) as IHt.
    destruct (search_prefix w (tree t)) as [n|]; [|done]. destruct IHt as (u & Hr & Hu & Htr & Hsub).
    exists u. split; [done|]. split; [done|]. split; [done|]. intros l Hl. rewrite locs_around.
    apply elem_of_app. left. auto.
Qed.

Context (new_fresh : forall h, h !! new_loc h = None).

Definition goes {A : Type} (m : prog heap A) (h : heap) (t : LTrie) (n : TrieNode) (a : A) : Prop :=
  exists h' t', m h = (h', Ret a) /\ owned h' t' /\ root t' = root t /\ tree t' = n /\ turns h t h' t'.

Lemma h_insert_ok w : forall h t, owned h t -> goes (h_insert w (root t)) h t (insert w (tree t)) tt.
Proof.
  induction w as [|ch w IH]; intros h [p c e] Ho; unfold goes; cbn [h_insert insert root];
    unfold prog_bind at 1; rewrite (load_root h p c e Ho); cbn [kids ends tree children is_end_of_word];
    fold (trees c).
  - destruct (mark_owned h p c e true Ho) as [Ho' Ht]. eexists _, (LNode p c true).
    split; [apply (store_live h p (MkH (links c) e)); by apply owned_node in Ho as (_ & ? & _)|]. done.
  - assert (Hsome : forall h0 c1 t c2, owned h0 (LNode p (c1 ++ (ch, t) :: c2) e) ->
      exists h' t', h_insert w (root t) h0 = (h', Ret tt) /\ owned h' t' /\ root t' = p /\
        tree t' = MkTrie (trees c1 ++ (ch, insert w (tree t)) :: trees c2) e /\
        turns h0 (LNode p (c1 ++ (ch, t) :: c2) e) h' t').
    { intros h0 c1 t c2 Ho0. destruct (IH h0 t (owned_child h0 p c1 ch t c2 e Ho0))
        as (h1 & t1 & Hr & Ho1 & Hroot & Htree & Ht1).
      exists h1, (LNode p (c1 ++ (ch, t1) :: c2) e). split; [done|].
      split; [by apply (update_child_owned h0 h1 p c1 c2 ch e t t1)|]. split; [done|].
      split; [|by apply update_child_turns]. cbn [tree]. fold (trees (c1 ++ (ch, t1) :: c2)).
      rewrite trees_app. by rewrite <-Htree. }
    destruct (kid_cases ch c) as [(Hk & Hc & Hs)|(c1 & t & c2 & Heq & Hk & Hc & Hs)]; rewrite Hk, Hc, Hs.
    + set (q := new_loc h). destruct (link_owned h p c e ch q Ho (new_fresh h)) as [Ho1 Ht1].
      assert (Hp : <[q := MkH [] false]> h !! p = Some (MkH (links c) e)).
      { apply owned_node in Ho as (_ & Hp & _). rewrite lookup_insert_ne; [done|].
        intros Hqp. pose proof (new_fresh h) as Hf. fold q in Hf. by rewrite Hqp, Hp in Hf. }
      destruct (Hsome _ c (LNode q [] false) [] Ho1) as (h' & t' & Hr & Ho' & Hroot & Htree & Ht').
      exists h', t'. split; [|split; [done|split; [done|split; [done|by eapply turns_trans]]]].
      unfold new_node, prog_bind. rewrite (store_live _ p _ _ Hp). exact Hr.
    + subst c. destruct (Hsome h c1 t c2 Ho) as (h' & t' & Hr & Ho' & Hroot & Htree & Ht').
      by exists h', t'.
Qed.

Lemma no_kids_trees c e e' : no_kids (MkH (links c) e) = no_children (MkTrie (trees c) e').
Proof. by destruct c. Qed.

Lemma newNode_leaf t : tree t = newNode -> exists q, t = LNode q [] false.
Proof. destruct t as [q [|x c] e]; simpl; [intros [= ->]; by exists q|done]. Qed.

(** Unlinking the child once its own removal has emptied it. *)
Lemma h_unlink_ok h p c1 ch t c2 e :
  owned h (LNode p (c1 ++ (ch, t) :: c2) e) -> NoDup ((c1 ++ (ch, t) :: c2).*1) -> tree t = newNode ->
  exists h',
    (let! n := load p in
     let n' := MkH (erase_kid ch (kids n)) (ends n) in
     store p n' ;;; free (root t) ;;; prog_ret (no_kids n' && negb (ends n'))) h =
      (h', Ret (no_kids (MkH (links (c1 ++ c2)) e) && negb e)) /\
    owned h' (LNode p (c1 ++ c2) e) /\
    turns h (LNode p (c1 ++ (ch, t) :: c2) e) h' (LNode p (c1 ++ c2) e).
Proof.
  intros Ho Hnd Hleaf. destruct (newNode_leaf t Hleaf) as [q ->]. cbn [root].
  destruct (erase_kid_links ch (LNode q [] false) c1 c2 Hnd) as [He _].
  destruct (unlink_owned h p c1 ch q c2 e Ho) as [Ho' Ht'].
  eexists. split; [|by split]. unfold prog_bind. rewrite (load_root _ _ _ _ Ho). cbn [kids ends].
  rewrite He. pose proof Ho as Hn. apply owned_node in Hn as (Hnd' & Hp & Hc). rewrite (store_live _ _ _ _ Hp).
  unfold free. assert (Hq : h !! q = Some (MkH [] false)).
  { apply (Hc ch (LNode q [] false)); [apply elem_of_app; right; left|left]. }
  rewrite lookup_insert_ne, Hq; [done|]. intros ->. apply NoDup_cons in Hnd' as [Hni _]. apply Hni.
  rewrite below_app, below_cons, elem_of_app. right. left.
Qed.

Lemma h_remove_ok w : forall h t, owned h t -> pruned (tree t) ->
  goes (h_remove_helper w (root t)) h t (fst (remove_helper (tree t) w)) (snd (remove_helper (tree t) w)).
Proof.
  induction w as [|ch w IH]; intros h [p c e] Ho Hpr; unfold goes; cbn [h_remove_helper remove_helper root];
    unfold prog_bind at 1; rewrite (load_root h p c e Ho); cbn [kids ends tree children is_end_of_word];
    fold (trees c).
  - destruct e; cbn [fst snd]; [|exists h, (LNode p c false); by split_and!; auto using turns_refl].
    destruct (mark_owned h p c true false Ho) as [Ho' Ht]. eexists _, (LNode p c false).
    split_and!; [|done..]. unfold prog_bind. rewrite (store_live h p (MkH (links c) true)).
    + by destruct c.
    + by apply owned_node in Ho as (_ & ? & _).
  - apply pruned_inv in Hpr as [Hnd Hpr]. cbn [tree children] in Hnd, Hpr. fold (trees c) in Hnd, Hpr.
    rewrite trees_keys in Hnd.
    destruct (kid_cases ch c) as [(Hk & Hc & Hs)|(c1 & t & c2 & Heq & Hk & Hc & Hs)]; rewrite Hk, Hc.
    { exists h, (LNode p c e). split_and!; auto using turns_refl. }
    subst c. destruct (IH h t (owned_child h p c1 ch t c2 e Ho)) as (h1 & t1 & Hr & Ho1 & Hroot & Htree & Ht1).
    { by eapply Hpr, child_In. }
    unfold prog_bind at 1. rewrite Hr. destruct (remove_helper (tree t) w) as [n' d] eqn:Hrem.
    cbn [fst snd] in *. subst n'.
    pose proof (update_child_owned h h1 p c1 c2 ch e t t1 Ho Ho1 Hroot Ht1) as Hou.
    pose proof (update_child_turns h h1 p c1 c2 ch e t t1 Ht1) as Htu. destruct d.
    + rewrite <-Hroot. destruct (h_unlink_ok h1 p c1 ch t1 c2 e Hou) as (h2 & Hrun & Ho2 & Ht2).
      { by rewrite fmap_app, fmap_cons in Hnd |- *. }
      { by eapply remove_helper_empty. }
      exists h2, (LNode p (c1 ++ c2) e). destruct (erase_kid_links ch t c1 c2 Hnd) as [_ ->].
      rewrite (no_kids_trees _ e e) in Hrun. split_and!; [done|done|done|done|by eapply turns_trans].
    + exists h1, (LNode p (c1 ++ (ch, t1) :: c2) e). rewrite Hs. split_and!; try done.
      cbn [tree]. fold (trees (c1 ++ (ch, t1) :: c2)). by rewrite trees_app.
Qed.

(** ** Walking the whole tree *)

(** The heap without the given nodes. *)
Definition without (ls : list loc) (h h' : heap) : Prop :=
  forall l, h' !! l = if decide (l ∈ ls) then None else h !! l.

Lemma without_app ls ls' h h1 h2 :
  without ls h h1 -> without ls' h1 h2 -> without (ls ++ ls') h h2.
Proof.
  intros H1 H2 l. rewrite H2, H1. repeat case_decide; rewrite elem_of_app in *; tauto.
Qed.

(** The children are owned side by side. *)
Definition owned_all (h : heap) (c : list (ascii * LTrie)) : Prop :=
  NoDup (below c) /\ forall ch t, (ch, t) ∈ c -> forall l n, (l, n) ∈ flat t -> h !! l = Some n.

Lemma owned_all_node h p c e : owned h (LNode p c e) -> owned_all h c.
Proof. intros Ho. apply owned_node in Ho as (Hnd & _ & Hc). by apply NoDup_cons in Hnd as [_ Hnd]. Qed.

Lemma owned_all_cons h ch t c : owned_all h ((ch, t) :: c) -> owned h t /\ owned_all h c.
Proof.
  intros [Hnd Hc]. rewrite below_cons in Hnd. apply NoDup_app in Hnd as (H1 & _ & H2).
  split; (split; [done|]); [apply (Hc ch); left|]. intros a u Hin. apply (Hc a). by right.
Qed.

Lemma owned_all_without h h' ch t c :
  owned_all h ((ch, t) :: c) -> without (locs t) h h' -> owned_all h' c.
Proof.
  intros Ho Hw. destruct (owned_all_cons h ch t c Ho) as [_ [Hnd Hc]]. split; [done|].
  intros a u Hin l n Hl. rewrite Hw, decide_False; [by eapply Hc|]. intros Hlt. destruct Ho as [Hnd' _].
  rewrite below_cons in Hnd'. apply NoDup_app in Hnd' as (_ & Hd & _). apply (Hd l Hlt).
  apply elem_of_below. exists a, u. split; [done|by eapply flat_loc].
Qed.

Lemma delete_kids_ok fuel c : forall h,
  (forall h t, owned h t -> (length (locs t) <= fuel)%nat ->
     exists h', delete_trie fuel (root t) h = (h', Ret tt) /\ without (locs t) h h') ->
  owned_all h c -> (length (below c) <= fuel)%nat ->
  exists h', each_kid (A := unit) (fun _ q => delete_trie fuel q ;;; prog_ret []) (links c) h = (h', Ret []) /\
    without (below c) h h'.
Proof.
  induction c as [|[ch t] c IH]; intros h Hd Ho Hlen.
  - exists h. split; [done|]. intros l. rewrite decide_False; [done|]. by apply not_elem_of_nil.
  - rewrite below_cons, length_app in Hlen. cbn [snd] in Hlen.
    destruct (owned_all_cons h ch t c Ho) as [Ht _].
    destruct (Hd h t Ht ltac:(lia)) as (h1 & Hr & Hw).
    destruct (IH h1 Hd (owned_all_without h h1 ch t c Ho Hw) ltac:(lia)) as (h2 & Hr2 & Hw2).
    exists h2. split; [|by eapply without_app]. cbn [links map each_kid fst snd]. fold (links c).
    unfold prog_bind in *. rewrite Hr. cbn. by rewrite Hr2.
Qed.

Lemma delete_trie_ok fuel : forall h t, owned h t -> (length (locs t) <= fuel)%nat ->
  exists h', delete_trie fuel (root t) h = (h', Ret tt) /\ without (locs t) h h'.
Proof.
  induction fuel as [|fuel IH]; intros h [p c e] Ho Hlen; rewrite locs_node in *; cbn [length] in Hlen; [lia|].
  destruct (delete_kids_ok fuel c h IH (owned_all_node _ _ _ _ Ho) ltac:(lia)) as (h1 & Hr & Hw).
  exists (delete p h1). cbn [delete_trie root]. unfold prog_bind in *. rewrite (load_root h p c e Ho).
  cbn [kids]. rewrite Hr. apply owned_node in Ho as (Hnd & Hp & _). apply NoDup_cons in Hnd as [Hni _].
  unfold free. rewrite Hw, decide_False, Hp by done. split; [done|]. intros l.
  rewrite lookup_delete. destruct (decide (p = l)) as [->|Hne].
  - rewrite decide_True; [done|left].
  - rewrite Hw. repeat case_decide; rewrite elem_of_cons in *; naive_solver.
Qed.

Lemma collect_kids_ok fuel pre c : forall h,
  (forall h t pre, owned h t -> (length (locs t) <= fuel)%nat ->
     h_collect_words fuel (root t) pre h = (h, Ret (collect_words (tree t) pre))) ->
  owned_all h c -> (length (below c) <= fuel)%nat ->
  each_kid (fun ch q => h_collect_words fuel q (pre +:+ String ch EmptyString)) (links c) h =
    (h, Ret (trees c ≫= fun x => collect_words x.2 (pre +:+ String x.1 EmptyString))).
Proof.
  induction c as [|[ch t] c IH]; intros h Hd Ho Hlen; [done|].
  rewrite below_cons, length_app in Hlen. cbn [snd] in Hlen.
  destruct (owned_all_cons h ch t c Ho) as [Ht Hc]. cbn [links map each_kid fst snd]. fold (links c).
  unfold prog_bind at 1. rewrite (Hd h t _ Ht ltac:(lia)). unfold prog_bind.
  rewrite (IH h Hd Hc ltac:(lia)). done.
Qed.

Lemma h_collect_words_ok fuel : forall h t pre, owned h t -> (length (locs t) <= fuel)%nat ->
  h_collect_words fuel (root t) pre h = (h, Ret (collect_words (tree t) pre)).
Proof.
  induction fuel as [|fuel IH]; intros h [p c e] pre Ho Hlen; rewrite locs_node in Hlen; cbn [length] in Hlen; [lia|].
  cbn [h_collect_words root]. unfold prog_bind at 1. rewrite (load_root h p c e Ho). cbn [kids ends].
  unfold prog_bind.
  rewrite (collect_kids_ok fuel pre c h IH (owned_all_node _ _ _ _ Ho) ltac:(lia)).
  cbn [tree]. fold (trees c). by rewrite collect_words_node.
Qed.

(** The number of nodes of the heap is enough fuel. *)
Lemma owned_size h t : owned h t -> (length (locs t) <= size h)%nat.
Proof.
  intros [Hnd Ho]. rewrite <-size_dom, <-(size_list_to_set (C := gset loc)) by done.
  apply subseteq_size. intros l Hl. apply elem_of_list_to_set, loc_flat in Hl as [n Hn].
  apply elem_of_dom. rewrite (Ho l n Hn). eauto.
Qed.

(** ** Programs *)

Inductive trie_call : Type :=
| CInsert (word : string)
| CRemove (word : string)
| CSearch (word : string)
| CStarts (prefix : string)
| CWords (prefix : string).

Inductive trie_res : Type :=
| RDone
| RBool (b : bool)
| RWords (l : list string).

Definition h_call (root : loc) (o : trie_call) : prog heap trie_res :=
  match o with
  | CInsert w => h_insert w root ;;; prog_ret RDone
  | CRemove w => let! b := h_remove_helper w root in prog_ret (RBool b)
  | CSearch w => let! b := h_search w root in prog_ret (RBool b)
  | CStarts w => let! b := h_starts_with w root in prog_ret (RBool b)
  | CWords w => let! l := h_get_words_with_prefix w root in prog_ret (RWords l)
  end.

Fixpoint h_calls (root : loc) (os : list trie_call) : prog heap (list trie_res) :=
  match os with
  | [] => prog_ret []
  | o :: os => let! r := h_call root o in let! rs := h_calls root os in prog_ret (r :: rs)
  end.

(** A trie that is made, used and destroyed. *)
Definition trie_program (os : list trie_call) : prog heap (list trie_res) :=
  let! root := newTrie in
  let! rs := h_calls root os in
  destroyTrie root ;;; prog_ret rs.

(** The same calls on a tree. *)
Definition t_call (t : TrieNode) (o : trie_call) : TrieNode * trie_res :=
  match o with
  | CInsert w => (insert w t, RDone)
  | CRemove w => let '(t', b) := remove w t in (t', RBool b)
  | CSearch w => (t, RBool (search w t))
  | CStarts w => (t, RBool (starts_with w t))
  | CWords w => (t, RWords (get_words_with_prefix w t))
  end.

Fixpoint t_calls (t : TrieNode) (os : list trie_call) : TrieNode * list trie_res :=
  match os with
  | [] => (t, [])
  | o :: os => let '(t, r) := t_call t o in let '(t, rs) := t_calls t os in (t, r :: rs)
  end.

Lemma t_call_pruned t o : pruned t -> pruned (fst (t_call t o)).
Proof.
  intros Hp. destruct o as [w|w|w|w|w]; cbn [t_call fst]; try done; [by apply insert_pruned|].
  unfold remove. destruct (remove_helper t w) as [t' b] eqn:Hr. by apply (remove_pruned w t t' b).
Qed.

Lemma goes_ret {A B : Type} (m : prog heap A) h t n a (f : A -> B) :
  goes m h t n a -> goes (let! x := m in prog_ret (f x)) h t n (f a).
Proof.
  intros (h' & t' & Hr & H). exists h', t'. split; [|done]. unfold prog_bind. by rewrite Hr.
Qed.

(** Calls that read leave the heap as it is. *)
Lemma goes_read {A : Type} (m : prog heap A) h t a : owned h t -> m h = (h, Ret a) -> goes m h t (tree t) a.
Proof. intros Ho Hr. exists h, t. split_and!; auto using turns_refl. Qed.

Lemma h_call_ok o h t :
  owned h t -> pruned (tree t) ->
  goes (h_call (root t) o) h t (fst (t_call (tree t) o)) (snd (t_call (tree t) o)).
Proof.
  intros Ho Hp. destruct o as [w|w|w|w|w]; cbn [h_call t_call fst snd].
  - apply (goes_ret (h_insert w (root t)) h t _ tt (fun _ => RDone)), h_insert_ok, Ho.
  - unfold remove. pose proof (h_remove_ok w h t Ho Hp) as Hr.
    destruct (remove_helper (tree t) w) as [t' b]. exact (goes_ret _ h t t' b RBool Hr).
  - apply (goes_ret _ h t _ (search w (tree t)) RBool), goes_read; [done|]. unfold h_search, search, prog_bind.
    pose proof (h_search_prefix_ok w h t Ho) as Hs. destruct (search_prefix w (tree t)) as [n|].
    + destruct Hs as ([q c e] & -> & Hu & <- & _). cbn [root]. by rewrite (load_root h q c e Hu).
    + by rewrite Hs.
  - apply (goes_ret _ h t _ (starts_with w (tree t)) RBool), goes_read; [done|].
    unfold h_starts_with, starts_with, prog_bind.
    pose proof (h_search_prefix_ok w h t Ho) as Hs. destruct (search_prefix w (tree t)) as [n|].
    + by destruct Hs as (u & -> & _).
    + by rewrite Hs.
  - apply (goes_ret _ h t _ (get_words_with_prefix w (tree t)) RWords), goes_read; [done|].
    unfold h_get_words_with_prefix, get_words_with_prefix, prog_bind.
    pose proof (h_search_prefix_ok w h t Ho) as Hs. destruct (search_prefix w (tree t)) as [n|].
    + destruct Hs as (u & -> & Hu & <- & _). apply h_collect_words_ok; [done|by apply owned_size].
    + by rewrite Hs.
Qed.

Lemma h_calls_ok os : forall h t,
  owned h t -> pruned (tree t) ->
  goes (h_calls (root t) os) h t (fst (t_calls (tree t) os)) (snd (t_calls (tree t) os)).
Proof.
  induction os as [|o os IH]; intros h t Ho Hp; [by apply goes_read|]. cbn [h_calls t_calls].
  destruct (h_call_ok o h t Ho Hp) as (h1 & t1 & Hr1 & Ho1 & Hroot1 & Htree1 & Ht1).
  pose proof (t_call_pruned (tree t) o Hp) as Hp1.
  destruct (t_call (tree t) o) as [n r]. cbn [fst snd] in *. subst n.
  destruct (IH h1 t1 Ho1 Hp1) as (h2 & t2 & Hr2 & Ho2 & Hroot2 & Htree2 & Ht2).
  destruct (t_calls (tree t1) os) as [n rs]. cbn [fst snd] in *. rewrite Hroot1 in Hr2.
  exists h2, t2. unfold prog_bind. rewrite Hr1, Hr2.
  split_and!; [done|done|by rewrite Hroot2|done|by eapply turns_trans].
Qed.

Lemma new_owned h : owned (<[new_loc h := MkH [] false]> h) (LNode (new_loc h) [] false).
Proof.
  apply owned_node. split; [apply NoDup_singleton|]. split; [apply lookup_insert_eq|].
  intros ch t Hin. by apply not_elem_of_nil in Hin.
Qed.

(** What was made and is destroyed leaves the heap as it was. *)
Lemma destroyed_heap h h2 h3 t2 :
  turns (<[new_loc h := MkH [] false]> h) (LNode (new_loc h) [] false) h2 t2 ->
  without (locs t2) h2 h3 -> h3 = h.
Proof.
  intros (A1 & A2 & A3) Hw. apply map_eq. intros l. rewrite Hw. pose proof (new_fresh h) as Hn.
  assert (Hl : locs (LNode (new_loc h) [] false) = [new_loc h]) by done. rewrite Hl in A1, A2, A3.
  destruct (decide (l = new_loc h)) as [->|Hne].
  - rewrite Hn. case_decide; [done|]. apply A3; [left|done].
  - assert (Hl1 : l ∉ [new_loc h]) by (by rewrite list_elem_of_singleton). case_decide as Hin.
    + destruct (A2 l Hin) as [?|H0]; [done|]. by rewrite lookup_insert_ne in H0.
    + rewrite (A1 l Hl1 Hin). by apply lookup_insert_ne.
Qed.
End Trie.

(** C9.  The trie is memory safe and leaks nothing. From any heap and for every placement of new
    nodes, making a trie, calling [insert], [remove], [search], [starts_with] and
    [get_words_with_prefix] in any sequence and destroying it returns, never follows or deletes a
    pointer to a deleted node, gives for every call the answer of the tree of [TrieIndex], and leaves
    the heap exactly as it was: every node made is deleted once, and no other is touched. *)
Theorem trie_memory_safe (new_loc : heap -> loc) (os : list trie_call) (h : heap) :
  (forall h, h !! new_loc h = None) ->
  trie_program new_loc os h = (h, Ret (snd (t_calls newNode os))).
Proof.
  intros Hf. pose proof (new_owned new_loc h) as Ho.
  destruct (h_calls_ok new_loc Hf os _ _ Ho pruned_newNode) as (h2 & t2 & Hr & Ho2 & Hroot & _ & Ht2).
  destruct (delete_trie_ok (size h2) h2 t2 Ho2 (owned_size h2 t2 Ho2)) as (h3 & Hd & Hw).
  rewrite <-(destroyed_heap new_loc Hf h h2 h3 t2 Ht2 Hw) at 2.
  unfold trie_program, newTrie, new_node, destroyTrie, prog_bind. cbn [root] in *. rewrite Hr.
  rewrite Hroot in Hd. by rewrite Hd.
Qed.

(** ** The program *)

(** The calls of [main], in order. *)
Definition main : list trie_call :=
  [CInsert "apple"; CInsert "app"; CInsert "application"; CInsert "banana"; CInsert "band";
   CInsert "bandwidth"; CSearch "app"; CSearch "apple"; CSearch "ban"; CStarts "app"; CStarts "ban";
   CWords "app"; CRemove "apple"; CSearch "apple"].

(** [main] next to another node of the program, with a free address for each new node. [remove]
    answers [false] for a word it removed. *)
Lemma trie_memory_safe_witness :
  let other : heap := {[ 7%nat := MkH [] true ]} in
  trie_program (fun h => fresh (dom h)) main other =
    (other, Ret (replicate 6 RDone ++
      [RBool true; RBool true; RBool false; RBool true; RBool true;
       RWords ["app"; "apple"; "application"]; RBool false; RBool false])%list).
Proof.
  intros other.
  assert (Hm : snd (t_calls newNode main) = (replicate 6 RDone ++
      [RBool true; RBool true; RBool false; RBool true; RBool true;
       RWords ["app"; "apple"; "application"]; RBool false; RBool false])%list)
    by (vm_compute; reflexivity).
  rewrite <-Hm. apply (trie_memory_safe (fun h => fresh (dom h)) main other).
  intros h. apply not_elem_of_dom, is_fresh.
Defined.
