(* ===== verification/InvertedIndex.v ===== *)
(** * The inverted index ([indexing/full_text_search/inverted_index.cpp])

    Tokenising, [InvertedIndex::addDocument] and [InvertedIndex::search], against the specification
    that a search lists the documents that contain the word, in the order they were added. *)

From S2P Require Import Prelude Text.
From Stdlib Require Import Ascii.
Local Open Scope Z_scope.

(** ** Tokens *)

(** [tolower] and [ispunct] in the C locale. *)
Definition tolower (c : ascii) : ascii :=
  let n := nat_of_ascii c in
  if (65 <=? n)%nat && (n <=? 90)%nat then ascii_of_nat (n + 32) else c.
Definition ispunct (c : ascii) : bool :=
  let n := nat_of_ascii c in
  (33 <=? n)%nat && (n <=? 126)%nat && negb (is_digit c) && negb (is_alpha c).

Fixpoint to_lowercase (s : string) : string :=
  match s with
  | EmptyString => EmptyString
  | String c s => String (tolower c) (to_lowercase s)
  end.

(** [token.erase(remove_if(..., ::ispunct), token.end())]. *)
Fixpoint strip (s : string) : string :=
  match s with
  | EmptyString => EmptyString
  | String c s => if ispunct c then strip s else String c (strip s)
  end.

Definition tokenize (content : string) : list string :=
  (fun token => to_lowercase (strip token)) <$> words content.

(** ** The index *)

(** [std::set<int>::insert] on the ascending list of its elements. *)
Fixpoint set_insert (x : Z) (l : list Z) : list Z :=
  match l with
  | [] => [x]
  | y :: l => if x <? y then x :: y :: l else if x =? y then y :: l else y :: set_insert x l
  end.

Record InvertedIndex : Type := MkInv {
  index : gmap string (list Z);
  docIdToFile : gmap Z string;
  currentDocId : Z
}.

Definition make : InvertedIndex := MkInv ∅ ∅ 0.

(** [index[token].insert(currentDocId)]. *)
Definition index_token (id : Z) (ix : gmap string (list Z)) (token : string) :
    gmap string (list Z) :=
  <[token := set_insert id (default [] (ix !! token))]> ix.

(** [currentDocId++] is undefined at [INT_MAX]. *)
Definition addDocument (filename content : string) (s : InvertedIndex) : outcome InvertedIndex :=
  let tokens := tokenize content in
  let files := <[currentDocId s := filename]> (docIdToFile s) in
  let ix := foldl (index_token (currentDocId s)) (index s) tokens in
  if currentDocId s =? int_max then Undef signed_overflow
  else Ret (MkInv ix files (currentDocId s + 1)).

(** [docIdToFile[docId]] of a missing id inserts the empty string. *)
Fixpoint file_names (docIds : list Z) (files : gmap Z string) : list string * gmap Z string :=
  match docIds with
  | [] => ([], files)
  | d :: docIds =>
      let f := default EmptyString (files !! d) in
      let '(fs, files') := file_names docIds (<[d := f]> files) in (f :: fs, files')
  end.

Definition search (query : string) (s : InvertedIndex) : InvertedIndex * list string :=
  match index s !! to_lowercase query with
  | Some docIds =>
      let '(fs, files) := file_names docIds (docIdToFile s) in
      (MkInv (index s) files (currentDocId s), fs)
  | None => (s, [])
  end.

Fixpoint add_all (docs : list (string * string)) (s : InvertedIndex) : outcome InvertedIndex :=
  match docs with
  | [] => Ret s
  | (f, c) :: docs => s' ← addDocument f c s; add_all docs s'
  end.

(** The lines of [displayIndex]; the order of the words is that of the hash table. *)
Fixpoint display_words (words : list (string * list Z)) (files : gmap Z string)
    : list string * gmap Z string :=
  match words with
  | [] => ([], files)
  | (word, docIds) :: words =>
      let '(fs, files) := file_names docIds files in
      let line := "Word: " +:+ word +:+ " -> Documents: " +:+
                  foldr (fun f r => f +:+ " " +:+ r) EmptyString fs in
      let '(lines, files) := display_words words files in (line :: lines, files)
  end.

Definition displayIndex (order : gmap string (list Z) -> list (string * list Z)) (s : InvertedIndex)
    : InvertedIndex * list string :=
  let '(lines, files) := display_words (order (index s)) (docIdToFile s) in
  (MkInv (index s) files (currentDocId s), lines).

(** ** The program *)

(** A file that cannot be opened reads as empty. *)
Definition read_file (disk : gmap string string) (filename : string) : string :=
  default EmptyString (disk !! filename).

Definition index_file (filename content : string) (s : InvertedIndex) : outcome InvertedIndex :=
  if decide (content = EmptyString) then Ret s else addDocument filename content s.

(** [main]: the lines it prints, for the word [query] read from the input. *)
Definition main (order : gmap string (list Z) -> list (string * list Z)) (disk : gmap string string)
    (query : string) : outcome (list string) :=
  s ← index_file "document1.txt" (read_file disk "document1.txt") make;
  s ← index_file "document2.txt" (read_file disk "document2.txt") s;
  let '(s, lines) := displayIndex order s in
  let '(s, searchResults) := search query s in
  Ret (["Inverted Index:"] ++ lines ++
       match searchResults with
       | [] => ["No documents contain the word '" +:+ query +:+ "'."]
       | _ => ("Documents containing the word '" +:+ query +:+ "':") :: searchResults
       end).

(** ** Specification *)

(** The positions, from [i], of the documents that contain the token. *)
Fixpoint positions (i : Z) (token : string) (docs : list (string * string)) : list Z :=
  match docs with
  | [] => []
  | d :: docs =>
      if decide (token ∈ tokenize d.2) then i :: positions (i + 1) token docs
      else positions (i + 1) token docs
  end.

(** The index holds, for each token, the ids of the documents that contain it. *)
Record indexes (docs : list (string * string)) (s : InvertedIndex) : Prop := {
  ix_cur : currentDocId s = Z.of_nat (length docs);
  ix_tokens : forall t, default [] (index s !! t) = positions 0 t docs;
  ix_files : forall i d, docs !! i = Some d -> docIdToFile s !! Z.of_nat i = Some d.1
}.

Lemma positions_app i t d1 d2 :
  positions i t (d1 ++ d2) = positions i t d1 ++ positions (i + Z.of_nat (length d1)) t d2.
Proof.
  revert i. induction d1 as [|d d1 IH]; intros i; simpl; [by rewrite Z.add_0_r|].
  rewrite !IH. replace (i + 1 + Z.of_nat (length d1)) with (i + Z.of_nat (S (length d1))) by lia.
  by case_decide.
Qed.

Lemma positions_range i t docs x :
  x ∈ positions i t docs -> exists j d, x = i + Z.of_nat j /\ docs !! j = Some d.
Proof.
  revert i. induction docs as [|d docs IH]; intros i; simpl; [intros H; by apply not_elem_of_nil in H|].
  assert (Hrec : x ∈ positions (i + 1) t docs ->
    exists j d0, x = i + Z.of_nat j /\ (d :: docs) !! j = Some d0).
  { intros Hx. destruct (IH _ Hx) as (j & d0 & -> & Hj). exists (S j), d0. split; [lia|done]. }
  case_decide; [|done]. rewrite elem_of_cons. intros [->|Hx]; [|auto].
  exists 0%nat, d. split; [lia|done].
Qed.

Lemma set_insert_max x l : Forall (fun y => y < x) l -> set_insert x l = l ++ [x].
Proof.
  induction 1 as [|y l Hy Hl IH]; [done|]. simpl.
  rewrite (proj2 (Z.ltb_ge x y)) by lia. rewrite (proj2 (Z.eqb_neq x y)) by lia. by rewrite IH.
Qed.

Lemma set_insert_same x l : Forall (fun y => y < x) l -> set_insert x (l ++ [x]) = l ++ [x].
Proof.
  induction 1 as [|y l Hy Hl IH]; simpl; [by rewrite Z.ltb_irrefl, Z.eqb_refl|].
  rewrite (proj2 (Z.ltb_ge x y)) by lia. rewrite (proj2 (Z.eqb_neq x y)) by lia. by rewrite IH.
Qed.

(** Adding the tokens of a new document appends its id once to each of its tokens. *)
Lemma index_tokens_spec id tokens : forall ix t,
  (forall t, Forall (fun y => y < id) (default [] (ix !! t)) \/
     exists l, default [] (ix !! t) = l ++ [id] /\ Forall (fun y => y < id) l) ->
  default [] (foldl (index_token id) ix tokens !! t) =
    if decide (t ∈ tokens) then set_insert id (default [] (ix !! t)) else default [] (ix !! t).
Proof.
  induction tokens as [|a tokens IH]; intros ix t Hix.
  - rewrite decide_False by apply not_elem_of_nil. done.
  - simpl. rewrite IH.
    + unfold index_token. rewrite lookup_insert. destruct (decide (a = t)) as [->|Hne].
      * rewrite (decide_True (P := t ∈ t :: tokens)) by left. simpl.
        destruct (Hix t) as [Hl|(l & Hl & Hf)].
        -- rewrite (set_insert_max id _ Hl). case_decide; [|done]. by apply set_insert_same.
        -- rewrite Hl, (set_insert_same id l Hf). case_decide; [|done]. by apply set_insert_same.
      * rewrite (decide_ext (t ∈ a :: tokens) (t ∈ tokens)); [done|].
        rewrite elem_of_cons. naive_solver.
    + intros u. unfold index_token. rewrite lookup_insert. case_decide as Hu; [|apply Hix].
      subst. simpl. right. destruct (Hix u) as [Hl|(l & Hl & Hf)].
      * eexists. split; [by apply set_insert_max|done].
      * exists l. rewrite Hl. split; [by apply set_insert_same|done].
Qed.

Lemma addDocument_ok f c docs s :
  indexes docs s -> Z.of_nat (length docs) < int_max -> exists s',
    addDocument f c s = Ret s' /\ indexes (docs ++ [(f, c)]) s'.
Proof.
  intros [Hcur Htok Hfile] Hlt. unfold addDocument.
  rewrite (proj2 (Z.eqb_neq (currentDocId s) int_max)) by lia.
  eexists. split; [done|]. constructor; simpl.
  - rewrite Hcur, length_app. simpl. lia.
  - intros t.
    assert (Hall : forall u, Forall (fun y => y < currentDocId s) (default [] (index s !! u))).
    { intros u. rewrite Htok. apply Forall_forall. intros x Hx.
      apply positions_range in Hx as (j & d & -> & Hj). apply lookup_lt_Some in Hj. lia. }
    rewrite index_tokens_spec by (intros u; left; apply Hall).
    rewrite positions_app, (set_insert_max _ _ (Hall t)), Htok. simpl. rewrite Hcur.
    case_decide; [done|]. by rewrite app_nil_r.
  - intros i d Hi. rewrite lookup_insert. case_decide as Hd.
    + rewrite Hcur in Hd. assert (i = length docs) as -> by lia.
      rewrite lookup_app_r, Nat.sub_diag in Hi by done. simpl in Hi. by simplify_eq.
    + apply Hfile. rewrite lookup_app_l in Hi; [done|].
      apply lookup_lt_Some in Hi. rewrite length_app in Hi. simpl in Hi. lia.
Qed.

Lemma add_all_ok docs : forall pre s,
  indexes pre s -> Z.of_nat (length pre + length docs) <= int_max -> exists s',
    add_all docs s = Ret s' /\ indexes (pre ++ docs) s'.
Proof.
  induction docs as [|[f c] docs IH]; intros pre s Hi Hlen; cbn [add_all length] in *.
  - exists s. by rewrite app_nil_r.
  - destruct (addDocument_ok f c pre s Hi) as (s1 & Ha & Hi1); [lia|]. run_with Ha.
    destruct (IH _ s1 Hi1) as (s2 & Hr & Hi2); [rewrite length_app; simpl; lia|].
    exists s2. split; [done|]. by rewrite <-app_assoc in Hi2.
Qed.

Lemma file_names_ok docs t : forall i pre files,
  Z.of_nat (length pre) = i ->
  (forall j d, (pre ++ docs) !! j = Some d -> files !! Z.of_nat j = Some d.1) ->
  fst (file_names (positions i t docs) files) =
    fst <$> filter (fun d => t ∈ tokenize d.2) docs /\
  snd (file_names (positions i t docs) files) = files.
Proof.
  induction docs as [|d docs IH]; intros i pre files Hi Hf; [done|].
  rewrite filter_cons. cbn [positions].
  assert (Hd : files !! i = Some d.1).
  { rewrite <-Hi. apply Hf. rewrite lookup_app_r, Nat.sub_diag by done. done. }
  destruct (IH (i + 1) (pre ++ [d]) files) as [H1 H2].
  { rewrite length_app. simpl. lia. }
  { intros j e. rewrite <-app_assoc. apply Hf. }
  case_decide; [|done]. cbn [file_names]. rewrite Hd. cbn [default].
  rewrite insert_id by done. destruct (file_names (positions (i + 1) t docs) files) as [fs files'].
  simpl in *. rewrite H1. done.
Qed.

(** What a search does on an index of the documents. *)
Lemma search_indexed docs query s :
  indexes docs s ->
  search query s = (s, fst <$> filter (fun d => to_lowercase query ∈ tokenize d.2) docs).
Proof.
  intros [Hcur Htok Hfile]. unfold search. specialize (Htok (to_lowercase query)).
  destruct (file_names_ok docs (to_lowercase query) 0 [] (docIdToFile s)) as [H1 H2]; [done..|].
  simpl in Htok. destruct (index s !! to_lowercase query) as [l|] eqn:Hl; simpl in Htok.
  - subst l. destruct (file_names _ _) as [fs files]. simpl in *. rewrite H1, H2. by destruct s.
  - rewrite <-Htok in H1. simpl in H1. by rewrite <-H1.
Qed.

Lemma make_indexed : indexes [] make.
Proof.
  constructor; [done|..]. - intros t. simpl. by rewrite lookup_empty.
  - intros i d H. by rewrite lookup_nil in H.
Qed.

(** Full-text search is exact: after adding any documents, [search] returns the file names of
    the documents with a token equal to the lower-cased query, in the order they were added, and it
    does not change the index. *)
Lemma inverted_index_search (docs : list (string * string)) (query : string) :
  Z.of_nat (length docs) <= int_max ->
  exists s, add_all docs make = Ret s /\
    search query s =
      (s, fst <$> filter (fun d => to_lowercase query ∈ tokenize d.2) docs).
Proof.
  intros Hlen. destruct (add_all_ok docs [] make) as (s & Ha & Hs); [apply make_indexed|done|].
  exists s. split; [done|]. by apply search_indexed.
Qed.

Lemma inverted_index_search_witness :
  let docs := [("document1.txt", "The quick, brown Fox."); ("document2.txt", "A lazy dog");
               ("document3.txt", "fox? FOX!")] in
  exists s, add_all docs make = Ret s /\ search "Fox" s = (s, ["document1.txt"; "document3.txt"]).
Proof.
  apply (inverted_index_search [("document1.txt", "The quick, brown Fox.");
    ("document2.txt", "A lazy dog"); ("document3.txt", "fox? FOX!")] "Fox").
  vm_compute. congruence.
Defined.

(** Documents lose their punctuation, queries do not: a query with punctuation finds nothing. *)
Example search_punctuation :
  match add_all [("d", "C++ rocks")] make with
  | Ret s => snd (search "C++" s) = [] /\ snd (search "C" s) = ["d"]
  | _ => False
  end.
Proof. vm_compute. done. Qed.

(** The line of a word: the files that contain it. *)
Definition word_line (docs : list (string * string)) (word : string) : string :=
  "Word: " +:+ word +:+ " -> Documents: " +:+
  foldr (fun f r => f +:+ " " +:+ r) EmptyString (fst <$> filter (fun d => word ∈ tokenize d.2) docs).

Lemma display_words_ok docs files words :
  (forall j d, docs !! j = Some d -> files !! Z.of_nat j = Some d.1) ->
  Forall (fun w => w.2 = positions 0 w.1 docs) words ->
  display_words words files = (word_line docs <$> words.*1, files).
Proof.
  intros Hf. induction 1 as [|[w ids] words Hw _ IH]; [done|]. cbn in Hw. subst ids.
  destruct (file_names_ok docs w 0 [] files) as [H1 H2]; [done|done|].
  cbn [display_words]. destruct (file_names _ _) as [fs files']. cbn in H1, H2. subst fs files'.
  rewrite IH. done.
Qed.

(** Displaying the index shows every word once with the files that contain it, and changes nothing. *)
Lemma displayIndex_ok order docs s :
  (forall m, order m ≡ₚ map_to_list m) -> indexes docs s ->
  displayIndex order s = (s, word_line docs <$> (order (index s)).*1).
Proof.
  intros Ho [Hcur Htok Hfile]. unfold displayIndex.
  rewrite (display_words_ok docs); [by destruct s|done|].
  rewrite Ho. apply Forall_forall. intros [w ids] Hin%elem_of_map_to_list. cbn.
  by rewrite <-(Htok w), Hin.
Qed.

Lemma index_file_ok f c docs s :
  indexes docs s -> Z.of_nat (S (length docs)) <= int_max ->
  exists s', index_file f c s = Ret s' /\
    indexes (docs ++ if decide (c = EmptyString) then [] else [(f, c)]) s'.
Proof.
  intros Hs Hlen. unfold index_file. case_decide; [exists s; by rewrite app_nil_r|].
  apply addDocument_ok; [done|lia].
Qed.

(** The program shows the index of its two files, without those that are empty or cannot be opened, and
    then the files that contain the word, or that there is none. *)
Lemma main_shows order disk query :
  (forall m, order m ≡ₚ map_to_list m) ->
  let docs := filter (fun d => d.2 <> EmptyString)
    ((fun f => (f, read_file disk f)) <$> ["document1.txt"; "document2.txt"]) in
  let found := fst <$> filter (fun d => to_lowercase query ∈ tokenize d.2) docs in
  exists s, indexes docs s /\
    main order disk query =
      Ret (["Inverted Index:"] ++ (word_line docs <$> (order (index s)).*1) ++
           if decide (found = []) then ["No documents contain the word '" +:+ query +:+ "'."]
           else ("Documents containing the word '" +:+ query +:+ "':") :: found).
Proof.
  intros Ho docs found.
  destruct (index_file_ok "document1.txt" (read_file disk "document1.txt") [] make) as (s1 & H1 & I1);
    [apply make_indexed|vm_compute; congruence|].
  destruct (index_file_ok "document2.txt" (read_file disk "document2.txt") _ s1 I1) as (s2 & H2 & I2).
  { case_decide; vm_compute; congruence. }
  assert (Hd : docs = ([] ++ if decide (read_file disk "document1.txt" = EmptyString) then []
      else [("document1.txt", read_file disk "document1.txt")]) ++
      if decide (read_file disk "document2.txt" = EmptyString) then []
      else [("document2.txt", read_file disk "document2.txt")]).
  { unfold docs. cbn [fmap list_fmap]. rewrite !filter_cons. cbn [snd].
    repeat case_decide; try done; tauto. }
  rewrite <-Hd in I2. exists s2. split; [done|]. unfold main. run_with H1. run_with H2.
  rewrite (displayIndex_ok order docs) by done. rewrite (search_indexed docs) by done.
  fold found. by destruct found.
Qed.
