(* ===== verification/RTree.v ===== *)
(** * The R-tree ([indexing/spatial_index/r_tree.cpp])

    Nodes live in a heap and point to their children and to their parent, as in the code; an entry is
    a node without children.  A bounding box that was never written is [None], and reading it is
    undefined.  Coordinates are binary32 numbers ([Floats]).  [std::sort] is a parameter with its
    contract.

    The code keeps every inserted rectangle in the tree, but its search answers with the boxes of
    leaves instead of the rectangles, and a split does not update the parent pointers of the children
    it moves: boxes above a moved child can miss later insertions. *)

From S2P Require Import Prelude Floats.
Local Open Scope nat_scope.

Definition MAX_CHILDREN : nat := 4.
Definition MIN_CHILDREN : nat := 2.

(** ** Rectangles *)

Record Rect : Type := MkRect { xmin : float; ymin : float; xmax : float; ymax : float }.

#[export] Instance Rect_eq_dec : EqDecision Rect.
Proof. solve_decision. Defined.

Definition contains (a b : Rect) : bool :=
  fle (xmin a) (xmin b) && fle (xmax b) (xmax a) && fle (ymin a) (ymin b) && fle (ymax b) (ymax a).

Definition intersects (a b : Rect) : bool :=
  negb (flt (xmax b) (xmin a) || flt (xmax a) (xmin b) ||
        flt (ymax b) (ymin a) || flt (ymax a) (ymin b)).

Definition area (a : Rect) : float :=
  f32_mul (f32_sub (xmax a) (xmin a)) (f32_sub (ymax a) (ymin a)).

(** The four [std::min] and [std::max] assignments of [enlargement] and of [updateBoundingBox]. *)
Definition enlarged (a b : Rect) : Rect :=
  MkRect (fmin (xmin a) (xmin b)) (fmin (ymin a) (ymin b))
         (fmax (xmax a) (xmax b)) (fmax (ymax a) (ymax b)).

Definition enlargement (a b : Rect) : float := f32_sub (area (enlarged a b)) (area a).

(** ** Nodes and the tree *)

Record Node : Type := MkNode {
  bounding_box : option Rect;
  leaf : bool;
  children : list nat;
  parent : option nat
}.

Definition newNode (is_leaf : bool) : Node := MkNode None is_leaf [] None.

Definition set_box (b : Rect) (n : Node) : Node := MkNode (Some b) (leaf n) (children n) (parent n).
Definition set_children (cs : list nat) (n : Node) : Node :=
  MkNode (bounding_box n) (leaf n) cs (parent n).
Definition set_parent (p : nat) (n : Node) : Node :=
  MkNode (bounding_box n) (leaf n) (children n) (Some p).
(** [children.push_back(c)]. *)
Definition push_back (c : nat) (n : Node) : Node := set_children (children n ++ [c]) n.

Definition isFull (n : Node) : bool := bool_decide (MAX_CHILDREN <= length (children n)).
Definition isUnderfilled (n : Node) : bool := bool_decide (length (children n) < MIN_CHILDREN).

(** The heap, the address of the next node and the root. *)
Record RTree : Type := MkTree { heap : gmap nat Node; next : nat; root : nat }.

Definition at_ (s : RTree) (x : nat) : outcome Node :=
  match heap s !! x with
  | Some n => Ret n
  | None => Undef null_pointer
  end.

Definition box (n : Node) : outcome Rect :=
  match bounding_box n with
  | Some b => Ret b
  | None => Undef uninitialised_read
  end.

Definition box_at (s : RTree) (x : nat) : outcome Rect := n ← at_ s x; box n.

(** An assignment to a member of the object at [x]. *)
Definition update (x : nat) (f : Node -> Node) (s : RTree) : RTree :=
  MkTree (alter f x (heap s)) (next s) (root s).

(** [new Node(...)], with the members written right after. *)
Definition alloc (n : Node) (s : RTree) : RTree * nat :=
  (MkTree (<[next s := n]> (heap s)) (S (next s)) (root s), next s).

Definition set_root (x : nat) (s : RTree) : RTree := MkTree (heap s) (next s) x.

(** [RTree()]. *)
Definition newTree : RTree := MkTree {[ 0 := newNode true ]} 1 0.

(** ** Bounding boxes *)

Fixpoint grow_loop (s : RTree) (b : Rect) (cs : list nat) : outcome Rect :=
  match cs with
  | [] => Ret b
  | c :: cs => bc ← box_at s c; grow_loop s (enlarged b bc) cs
  end.

Definition updateBoundingBox (x : nat) (s : RTree) : outcome RTree :=
  n ← at_ s x;
  match children n with
  | [] => Ret s
  | c :: _ =>
      b0 ← box_at s c;
      b ← grow_loop s b0 (children n);
      Ret (update x (set_box b) s)
  end.

(** ** Insertion *)

(** The loop of [chooseLeaf] over the children, with the best child and its enlargement so far. *)
Fixpoint best_child (s : RTree) (r : Rect) (cs : list nat) (best : option nat) (min_e : float)
    : outcome (option nat) :=
  match cs with
  | [] => Ret best
  | c :: cs =>
      b ← box_at s c;
      let e := enlargement b r in
      if flt e min_e then best_child s r cs (Some c) e else best_child s r cs best min_e
  end.

Fixpoint chooseLeaf (fuel : nat) (s : RTree) (x : nat) (r : Rect) : outcome nat :=
  match fuel with
  | O => Hang
  | S fuel =>
      n ← at_ s x;
      if leaf n then Ret x
      else
        best ← best_child s r (children n) None f32_max;
        match best with
        | Some c => chooseLeaf fuel s c r
        | None => Undef null_pointer
        end
  end.

Section Sort.
(** [std::sort] on the children with the boxes its comparison reads, by [xmin].  Where an [xmin] is NaN the
    comparison is no strict weak order and the behaviour of [std::sort] is undefined; what is shown of the
    model there presumes that it permutes its elements. *)
Variable sort : list (Rect * nat) -> list (Rect * nat).

Fixpoint with_boxes (s : RTree) (cs : list nat) : outcome (list (Rect * nat)) :=
  match cs with
  | [] => Ret []
  | c :: cs => b ← box_at s c; l ← with_boxes s cs; Ret ((b, c) :: l)
  end.

Definition splitNode (x : nat) (s : RTree) : outcome (RTree * nat) :=
  n ← at_ s x;
  l ← with_boxes s (children n);
  let sorted := snd <$> sort l in
  let mid := length sorted / 2 in
  let '(s, y) := alloc (set_children (drop mid sorted) (newNode (leaf n))) s in
  let s := update x (set_children (take mid sorted)) s in
  s ← updateBoundingBox x s;
  s ← updateBoundingBox y s;
  Ret (s, y).

Fixpoint adjustTree (fuel : nat) (node : option nat) (s : RTree) : outcome RTree :=
  match fuel with
  | O => Hang
  | S fuel =>
      match node with
      | None => Ret s
      | Some x =>
          s ← updateBoundingBox x s;
          n ← at_ s x;
          if isFull n then
            '(s, y) ← splitNode x s;
            if decide (x = root s) then
              let '(s, r) := alloc (set_children [x; y] (newNode false)) s in
              Ret (update y (set_parent r) (update x (set_parent r) (set_root r s)))
            else
              match parent n with
              | None => Undef null_pointer
              | Some p =>
                  _ ← at_ s p;
                  adjustTree fuel (Some p) (update y (set_parent p) (update p (push_back y) s))
              end
          else adjustTree fuel (parent n) s
      end
  end.

(** The recursions visit at most one node per level, so the number of nodes bounds them. *)
Definition fuel_of (s : RTree) : nat := S (S (next s)).

Definition insert (r : Rect) (s : RTree) : outcome RTree :=
  x ← chooseLeaf (fuel_of s) s (root s) r;
  let '(s, e) := alloc (set_box r (newNode true)) s in
  let s := update x (push_back e) s in
  let s := update e (set_parent x) s in
  adjustTree (fuel_of s) (Some x) s.

Fixpoint insert_all (rs : list Rect) (s : RTree) : outcome RTree :=
  match rs with
  | [] => Ret s
  | r :: rs => s' ← insert r s; insert_all rs s'
  end.
End Sort.

(** ** Search and destruction *)

Fixpoint searchHelper (fuel : nat) (s : RTree) (x : nat) (r : Rect) : outcome (list Rect) :=
  match fuel with
  | O => Hang
  | S fuel =>
      n ← at_ s x;
      b ← box n;
      if intersects b r then
        if leaf n then Ret [b]
        else
          (fix loop (cs : list nat) : outcome (list Rect) :=
             match cs with
             | [] => Ret []
             | c :: cs => l ← searchHelper fuel s c r; l' ← loop cs; Ret (l ++ l')
             end) (children n)
      else Ret []
  end.

Definition search (r : Rect) (s : RTree) : outcome (list Rect) :=
  searchHelper (fuel_of s) s (root s) r.

(** [clear(node)], called on the root by the destructor. *)
Fixpoint clear (fuel : nat) (x : nat) (s : RTree) : outcome RTree :=
  match fuel with
  | O => Hang
  | S fuel =>
      n ← at_ s x;
      s ← (if leaf n then Ret s
           else
             (fix loop (cs : list nat) (s : RTree) : outcome RTree :=
                match cs with
                | [] => Ret s
                | c :: cs => s' ← clear fuel c s; loop cs s'
                end) (children n) s);
      Ret (MkTree (delete x (heap s)) (next s) (root s))
  end.

(** ** Hulls *)

(** What [updateBoundingBox] computes from the boxes of the children. *)
Definition hull (bs : list Rect) : option Rect :=
  match bs with
  | [] => None
  | b :: _ => Some (foldl enlarged b bs)
  end.

Definition rect_ok (r : Rect) : Prop :=
  not_nan (xmin r) /\ not_nan (ymin r) /\ not_nan (xmax r) /\ not_nan (ymax r).

Lemma enlarged_ok a b : rect_ok a -> rect_ok b -> rect_ok (enlarged a b).
Proof.
  intros (? & ? & ? & ?) (? & ? & ? & ?).
  repeat split; cbn; auto using fmin_not_nan, fmax_not_nan.
Qed.

Lemma contains_iff a b :
  contains a b = true <->
  fle (xmin a) (xmin b) = true /\ fle (xmax b) (xmax a) = true /\
  fle (ymin a) (ymin b) = true /\ fle (ymax b) (ymax a) = true.
Proof. unfold contains. rewrite !andb_true_iff. tauto. Qed.

Lemma contains_trans a b c :
  rect_ok a -> rect_ok b -> rect_ok c ->
  contains a b = true -> contains b c = true -> contains a c = true.
Proof.
  intros (? & ? & ? & ?) (? & ? & ? & ?) (? & ? & ? & ?). rewrite !contains_iff.
  intros (? & ? & ? & ?) (? & ? & ? & ?).
  split; [by eapply fle_trans with (xmin b)|]. split; [by eapply fle_trans with (xmax b)|].
  split; [by eapply fle_trans with (ymin b)|by eapply fle_trans with (ymax b)].
Qed.

Lemma enlarged_contains a b :
  rect_ok a -> rect_ok b -> contains (enlarged a b) a = true /\ contains (enlarged a b) b = true.
Proof.
  intros (? & ? & ? & ?) (? & ? & ? & ?). rewrite !contains_iff. cbn.
  destruct (fmin_le (xmin a) (xmin b)), (fmin_le (ymin a) (ymin b)),
    (fmax_le (xmax a) (xmax b)), (fmax_le (ymax a) (ymax b)); auto 10.
Qed.

Lemma foldl_enlarged_contains bs : forall b,
  rect_ok b -> Forall rect_ok bs ->
  rect_ok (foldl enlarged b bs) /\ contains (foldl enlarged b bs) b = true /\
  Forall (fun r => contains (foldl enlarged b bs) r = true) bs.
Proof.
  induction bs as [|a bs IH]; intros b Hb Hbs; cbn.
  - split; [done|]. split; [|done]. destruct Hb as (? & ? & ? & ?).
    apply contains_iff. auto using fle_refl.
  - apply Forall_cons in Hbs as [Ha Hbs]. pose proof (enlarged_ok b a Hb Ha) as Hba.
    destruct (enlarged_contains b a Hb Ha) as [Hcb Hca].
    destruct (IH _ Hba Hbs) as (Hok & Hc & Hall). split; [done|].
    split; [by eapply (contains_trans _ (enlarged b a))|].
    constructor; [by eapply (contains_trans _ (enlarged b a))|done].
Qed.

(** The hull contains every rectangle it was computed from. *)
Lemma hull_contains bs b :
  Forall rect_ok bs -> hull bs = Some b -> Forall (fun r => contains b r = true) bs.
Proof.
  destruct bs as [|a bs]; [done|]. intros Hok [= <-].
  pose proof Hok as [Ha _]%Forall_cons. by apply (foldl_enlarged_contains (a :: bs) a).
Qed.

(** ** The heap as a whole *)

Section Collect.
Context {A : Type}.

(** What [f] gives for each node of the heap, in the order of the map. *)
Definition collect (f : Node -> list A) (m : gmap nat Node) : list A :=
  map_to_list m ≫= fun p => f p.2.

Lemma collect_new f m x n :
  m !! x = None -> collect f (<[x := n]> m) ≡ₚ f n ++ collect f m.
Proof. intros Hx. unfold collect. by rewrite map_to_list_insert. Qed.

Lemma collect_delete f m x n :
  m !! x = Some n -> collect f m ≡ₚ f n ++ collect f (delete x m).
Proof.
  intros Hx. rewrite <-(insert_delete_id m x n Hx) at 1.
  apply collect_new, lookup_delete_eq.
Qed.

(** Overwriting a node exchanges its contribution. *)
Lemma collect_update f m x n n' :
  m !! x = Some n -> collect f (<[x := n']> m) ++ f n ≡ₚ f n' ++ collect f m.
Proof.
  intros Hx. rewrite (collect_delete f m x n Hx), <-insert_delete_eq.
  rewrite collect_new by apply lookup_delete_eq. rewrite <-app_assoc. f_equiv.
  apply Permutation_app_comm.
Qed.

Lemma collect_same f m x n n' :
  m !! x = Some n -> f n' ≡ₚ f n -> collect f (<[x := n']> m) ≡ₚ collect f m.
Proof.
  intros Hx Hf. pose proof (collect_update f m x n n' Hx) as H. rewrite Hf in H.
  rewrite Permutation_app_comm in H. by apply Permutation_app_inv_l in H.
Qed.
End Collect.

(** Every pointer to a child in the heap. *)
Definition all_children : gmap nat Node -> list nat := collect children.

(** A node without children that is a leaf holds an inserted rectangle; the root of an empty tree
    has no box. *)
Definition entry (n : Node) : list Rect :=
  match leaf n, children n with
  | true, [] => option_list (bounding_box n)
  | _, _ => []
  end.
Definition entries : gmap nat Node -> list Rect := collect entry.

(** ** The invariant

    Levels are ghost state: entries are at level 0, leaves at level 1, and a child is one level below
    the node that points to it.  A parent pointer leads to some node of the next level, not always
    to the node that holds the child.  The hole is the node that [adjustTree] works on. *)

Definition box_of (m : gmap nat Node) (x : nat) : option Rect := m !! x ≫= bounding_box.

Record node_wf (m : gmap nat Node) (rt : nat) (lv : gmap nat nat) (hole : option nat)
    (x : nat) (n : Node) (k : nat) : Prop := {
  wf_leaf : leaf n = bool_decide (k <= 1);
  wf_kids : Forall (fun c => exists j, lv !! c = Some j /\ k = S j) (children n);
  wf_root : x = rt -> parent n = None;
  wf_parent : x <> rt -> exists p, parent n = Some p /\ lv !! p = Some (S k);
  wf_box : x <> rt -> is_Some (bounding_box n);
  wf_min : 1 <= k -> x <> rt \/ 2 <= k -> MIN_CHILDREN <= length (children n);
  wf_max : length (children n) <= if decide (hole = Some x) then MAX_CHILDREN else MAX_CHILDREN - 1;
  wf_hole : hole = Some x -> children n <> [] /\ 1 <= k;
  wf_hull : k = 1 -> hole <> Some x ->
    exists bs, Forall2 (fun c b => box_of m c = Some b) (children n) bs /\ bounding_box n = hull bs
}.

Record rt_inv (s : RTree) (lv : gmap nat nat) (hole : option nat) (rs : list Rect) : Prop := {
  inv_dom : forall x, is_Some (heap s !! x) <-> is_Some (lv !! x);
  inv_next : forall x, is_Some (heap s !! x) -> x < next s;
  inv_top : exists H, lv !! root s = Some H /\ 1 <= H /\
    forall x k, lv !! x = Some k -> x <> root s -> k < H;
  inv_nodes : forall x n k, heap s !! x = Some n -> lv !! x = Some k ->
    node_wf (heap s) (root s) lv hole x n k;
  inv_own : root s :: all_children (heap s) ≡ₚ elements (dom (heap s));
  inv_entries : entries (heap s) ≡ₚ rs
}.

Lemma newTree_inv : rt_inv newTree {[ 0 := 1 ]} None [].
Proof.
  split; cbn [newTree heap next root].
  - intros x. rewrite !lookup_singleton. by case_decide.
  - intros x [n Hn]. apply lookup_singleton_Some in Hn as [<- _]. lia.
  - exists 1. rewrite lookup_singleton_eq. split; [done|]. split; [lia|].
    intros x k Hk Hx. by apply lookup_singleton_Some in Hk as [<- _].
  - intros x n k Hn Hk. apply lookup_singleton_Some in Hn as [<- <-].
    rewrite lookup_singleton_eq in Hk. injection Hk as <-.
    split; try done; cbn; try (unfold MAX_CHILDREN; lia). intros _ _. by exists [].
  - unfold all_children, collect. rewrite map_to_list_singleton, dom_singleton_L, elements_singleton.
    done.
  - unfold entries, collect. by rewrite map_to_list_singleton.
Qed.

Section Inv.
Variable s : RTree.
Variable lv : gmap nat nat.
Variable hole : option nat.
Variable rs : list Rect.
Hypothesis Hinv : rt_inv s lv hole rs.

Lemma inv_lookup x k : lv !! x = Some k -> exists n, heap s !! x = Some n /\
  node_wf (heap s) (root s) lv hole x n k.
Proof.
  intros Hk. destruct (inv_dom _ _ _ _ Hinv x) as [_ [n Hn]]; [by rewrite Hk|].
  exists n. split; [done|]. by eapply inv_nodes.
Qed.

Lemma inv_level x n : heap s !! x = Some n -> exists k, lv !! x = Some k.
Proof. intros Hn. apply (inv_dom _ _ _ _ Hinv x). by rewrite Hn. Qed.

Lemma inv_fresh : heap s !! next s = None /\ lv !! next s = None.
Proof.
  assert (Hh : heap s !! next s = None).
  { apply eq_None_not_Some. intros Hx. apply (inv_next _ _ _ _ Hinv) in Hx. lia. }
  split; [done|]. apply eq_None_not_Some. rewrite <-(inv_dom _ _ _ _ Hinv), Hh. by intros [? ?].
Qed.

(** No level is above the one of the root. *)
Lemma inv_level_le x k H : lv !! x = Some k -> lv !! root s = Some H -> k <= H.
Proof.
  intros Hk HH. destruct (inv_top _ _ _ _ Hinv) as (H' & HH' & _ & Htop). simplify_eq.
  destruct (decide (x = root s)) as [->|Hne]; [simplify_eq; lia|].
  specialize (Htop x k Hk Hne). lia.
Qed.

(** A child is not the root, so it has a box. *)
Lemma inv_child x n k c :
  heap s !! x = Some n -> lv !! x = Some k -> c ∈ children n ->
  c <> root s /\ exists j m b, k = S j /\ lv !! c = Some j /\ heap s !! c = Some m /\
    bounding_box m = Some b.
Proof.
  intros Hn Hk Hc. pose proof (inv_nodes _ _ _ _ Hinv x n k Hn Hk) as Hwf.
  pose proof (wf_kids _ _ _ _ _ _ _ Hwf) as Hkids. rewrite Forall_forall in Hkids.
  destruct (Hkids c Hc) as (j & Hj & ->).
  assert (Hne : c <> root s).
  { intros ->. pose proof (inv_level_le x (S j) j Hk Hj). lia. }
  split; [done|]. destruct (inv_lookup c j Hj) as (m & Hm & Hwm).
  destruct (wf_box _ _ _ _ _ _ _ Hwm Hne) as [b Hb]. by exists j, m, b.
Qed.

Lemma inv_boxes x n k :
  heap s !! x = Some n -> lv !! x = Some k ->
  exists bs, Forall2 (fun c b => box_of (heap s) c = Some b) (children n) bs.
Proof.
  intros Hn Hk. assert (Hall : Forall (fun c => exists b, box_of (heap s) c = Some b) (children n)).
  { apply Forall_forall. intros c Hc.
    destruct (inv_child x n k c Hn Hk Hc) as (_ & j & m & b & _ & _ & Hm & Hb).
    exists b. unfold box_of. by rewrite Hm. }
  clear -Hall. induction Hall as [|c cs [b Hb] _ [bs IH]]; eauto using Forall2.
Qed.

(** ** The height is at most the number of nodes *)

Lemma inv_chain H i :
  lv !! root s = Some H -> i < H ->
  exists l, length l = S i /\ forall a x, l !! a = Some x -> lv !! x = Some (H - a).
Proof.
  intros HH. induction i as [|i IH]; intros Hi.
  - exists [root s]. split; [done|]. intros [|a] x Hx; simplify_eq/=. by rewrite Nat.sub_0_r.
  - destruct IH as (l & Hl & Hlv); [lia|].
    destruct (lookup_lt_is_Some_2 l i) as [x Hx]; [lia|]. pose proof (Hlv i x Hx) as Hxl.
    destruct (inv_lookup x _ Hxl) as (n & Hn & Hwf).
    assert (Hmin : MIN_CHILDREN <= length (children n)).
    { apply (wf_min _ _ _ _ _ _ _ Hwf); [lia|]. right. lia. }
    destruct (children n) as [|c cs] eqn:Hcs; [unfold MIN_CHILDREN in Hmin; simpl in Hmin; lia|].
    pose proof (wf_kids _ _ _ _ _ _ _ Hwf) as Hkids. rewrite Hcs in Hkids.
    apply Forall_cons in Hkids as [(j & Hj & HHj) _].
    exists (l ++ [c]). split; [rewrite length_app; simpl; lia|]. intros a y Hy.
    apply lookup_app_Some in Hy as [Hy|[Ha Hy]]; [by apply Hlv|].
    apply list_lookup_singleton_Some in Hy as [Ha' <-]. rewrite Hj. f_equal. lia.
Qed.

Lemma inv_height H : lv !! root s = Some H -> H <= next s.
Proof.
  intros HH. destruct (inv_top _ _ _ _ Hinv) as (H' & HH' & H1 & _). simplify_eq.
  destruct (inv_chain H (H - 1) HH) as (l & Hl & Hlv); [lia|].
  assert (Hnd : NoDup l).
  { apply NoDup_alt. intros a b x Ha Hb. pose proof (lookup_lt_Some _ _ _ Ha).
    pose proof (lookup_lt_Some _ _ _ Hb). apply Hlv in Ha, Hb. rewrite Ha in Hb.
    injection Hb. lia. }
  assert (Hsub : l ⊆+ seq 0 (next s)).
  { apply NoDup_submseteq; [done|]. intros x [a Ha]%list_elem_of_lookup_1.
    apply elem_of_seq. split; [lia|]. apply Hlv in Ha. simpl.
    apply (inv_next _ _ _ _ Hinv), (inv_dom _ _ _ _ Hinv). by rewrite Ha. }
  apply submseteq_length in Hsub. rewrite length_seq in Hsub. lia.
Qed.
End Inv.

(** ** Steps of the operations *)

Definition put (x : nat) (n : Node) (s : RTree) : RTree :=
  MkTree (<[x := n]> (heap s)) (next s) (root s).

Lemma update_put x f s n : heap s !! x = Some n -> update x f s = put x (f n) s.
Proof.
  intros Hn. unfold update, put. f_equal. apply map_eq. intros y.
  destruct (decide (x = y)) as [<-|Hne].
  - by rewrite lookup_alter_eq, Hn, lookup_insert_eq.
  - by rewrite lookup_alter_ne, lookup_insert_ne.
Qed.

Lemma at_Ret s x n : heap s !! x = Some n -> at_ s x = Ret n.
Proof. intros Hn. unfold at_. by rewrite Hn. Qed.

Lemma box_at_Ret s x b : box_of (heap s) x = Some b -> box_at s x = Ret b.
Proof.
  unfold box_of, box_at, at_, box. destruct (heap s !! x) as [n|]; [|done]. cbn. by intros ->.
Qed.

Definition has_boxes (m : gmap nat Node) (cs : list nat) (bs : list Rect) : Prop :=
  Forall2 (fun c b => box_of m c = Some b) cs bs.

Lemma has_boxes_frame m m' cs bs :
  has_boxes m cs bs -> (forall c, c ∈ cs -> box_of m' c = box_of m c) -> has_boxes m' cs bs.
Proof.
  intros Hbs. induction Hbs as [|c b cs bs Hc _ IH]; intros Hm; constructor.
  - rewrite Hm; [done|left].
  - apply IH. intros c' Hc'. apply Hm. by right.
Qed.

(** The children of a leaf are entries. *)
Lemma kids_level_0 (lv : gmap nat nat) cs c :
  Forall (fun c => exists j, lv !! c = Some j /\ 1 = S j) cs -> c ∈ cs -> lv !! c = Some 0.
Proof. rewrite Forall_forall. intros Hall Hc. by destruct (Hall c Hc) as (j & Hj & [= <-]). Qed.

Lemma grow_loop_ok s cs bs : has_boxes (heap s) cs bs ->
  forall b, grow_loop s b cs = Ret (foldl enlarged b bs).
Proof.
  induction 1 as [|c b' cs bs Hb _ IH]; intros b; cbn [grow_loop]; [done|].
  run_with (box_at_Ret _ _ _ Hb). apply IH.
Qed.

Lemma updateBoundingBox_ok s x n bs :
  heap s !! x = Some n -> has_boxes (heap s) (children n) bs -> children n <> [] ->
  exists b, hull bs = Some b /\ updateBoundingBox x s = Ret (put x (set_box b n) s).
Proof.
  intros Hn Hbs Hne. unfold updateBoundingBox. run_with (at_Ret _ _ _ Hn).
  destruct (children n) as [|c cs] eqn:Hcs; [done|]. pose proof Hbs as Hbs'.
  inversion Hbs as [|? b0 ? bs' Hb0 _]; subst.
  exists (foldl enlarged b0 (b0 :: bs')). split; [done|].
  run_with (box_at_Ret _ _ _ Hb0). run_with (grow_loop_ok _ _ _ Hbs' b0).
  by rewrite (update_put _ _ _ n Hn).
Qed.

Lemma with_boxes_ok s cs bs : has_boxes (heap s) cs bs -> with_boxes s cs = Ret (zip bs cs).
Proof.
  induction 1 as [|c b cs bs Hb _ IH]; cbn [with_boxes]; [done|].
  run_with (box_at_Ret _ _ _ Hb). by run_with IH.
Qed.

(** A node that an operation leaves alone stays well formed. *)
Lemma node_wf_frame m m' rt rt' lv lv' hole hole' z n k :
  node_wf m rt lv hole z n k -> lv ⊆ lv' ->
  (forall c, lv !! c = Some 0 -> box_of m' c = box_of m c) ->
  (z = rt <-> z = rt') -> hole <> Some z -> hole' <> Some z ->
  node_wf m' rt' lv' hole' z n k.
Proof.
  intros [] Hlv Hbox Hrt Hh Hh'. split; try done; try tauto.
  - eapply Forall_impl; [done|]. intros c (j & Hj & ->). exists j.
    split; [by eapply lookup_weaken|done].
  - intros Hz. destruct wf_parent0 as (p & Hp & Hl); [tauto|]. exists p.
    split; [done|by eapply lookup_weaken].
  - rewrite decide_False by done. by rewrite decide_False in wf_max0.
  - intros Hk _. destruct (wf_hull0 Hk Hh) as (bs & Hbs & Hb). exists bs. split; [|done].
    subst k. apply (has_boxes_frame m); [done|]. intros c Hc. by eapply Hbox, kids_level_0.
Qed.

(** ** Choosing a leaf *)

Lemma best_child_ok s r cs bs : has_boxes (heap s) cs bs -> forall best e,
  exists o, best_child s r cs best e = Ret o /\ (o = best \/ exists c, c ∈ cs /\ o = Some c) /\
    (o = None -> best = None /\ Forall (fun b => flt (enlargement b r) e = false) bs).
Proof.
  induction 1 as [|c b cs bs Hb _ IH]; intros best e; cbn [best_child]; [by exists best; auto|].
  run_with (box_at_Ret _ _ _ Hb). destruct (flt (enlargement b r) e) eqn:He.
  - destruct (IH (Some c) (enlargement b r)) as (o & Ho & Hcase & Hnone). exists o.
    split; [done|]. split; [|by intros ->; destruct Hnone].
    right. destruct Hcase as [->|(c' & Hc' & ->)]; eexists; (split; [|done]); set_solver.
  - destruct (IH best e) as (o & Ho & Hcase & Hnone). exists o. split; [done|].
    split; [destruct Hcase as [->|(c' & Hc' & ->)]; [by left|right; set_solver]|].
    intros ->. destruct (Hnone eq_refl). auto.
Qed.

(** An internal node none of whose children has an enlargement below the largest [float]. *)
Definition no_best (s : RTree) (r : Rect) : Prop :=
  exists x n bs, heap s !! x = Some n /\ leaf n = false /\ has_boxes (heap s) (children n) bs /\
    Forall (fun b => flt (enlargement b r) f32_max = false) bs.

Lemma chooseLeaf_ok s lv rs r : rt_inv s lv None rs -> forall k fuel x,
  lv !! x = Some (S k) -> k < fuel ->
  (exists y, chooseLeaf fuel s x r = Ret y /\ lv !! y = Some 1) \/
  (chooseLeaf fuel s x r = Undef null_pointer /\ no_best s r).
Proof.
  intros Hinv. induction k as [|k IH]; intros [|fuel] x Hk Hf; try lia; cbn [chooseLeaf];
    destruct (inv_lookup _ _ _ _ Hinv x _ Hk) as (n & Hn & Hwf); run_with (at_Ret _ _ _ Hn);
    rewrite (wf_leaf _ _ _ _ _ _ _ Hwf).
  - rewrite bool_decide_eq_true_2 by lia. left. by exists x.
  - rewrite bool_decide_eq_false_2 by lia.
    destruct (inv_boxes _ _ _ _ Hinv x n _ Hn Hk) as [bs Hbs].
    destruct (best_child_ok s r _ bs Hbs None f32_max) as (o & Ho & Hcase & Hnone). run_with Ho.
    destruct o as [c|].
    + destruct Hcase as [?|(c' & Hc' & [= <-])]; [done|].
      destruct (inv_child _ _ _ _ Hinv x n _ c Hn Hk Hc') as (_ & j & m & b & [= <-] & Hj & _).
      apply IH; [done|lia].
    + right. split; [done|]. exists x, n, bs. split; [done|].
      split; [rewrite (wf_leaf _ _ _ _ _ _ _ Hwf); by rewrite bool_decide_eq_false_2 by lia|].
      split; [done|]. by apply Hnone.
Qed.

(** ** Adding an entry to a leaf *)

Lemma box_of_insert_ne m x n c : c <> x -> box_of (<[x := n]> m) c = box_of m c.
Proof. intros Hne. unfold box_of. by rewrite lookup_insert_ne. Qed.

Lemma box_of_insert_eq m x n : box_of (<[x := n]> m) x = bounding_box n.
Proof. unfold box_of. by rewrite lookup_insert_eq. Qed.

Lemma dom_insert_elements (m : gmap nat Node) x n :
  m !! x = None -> elements (dom (<[x := n]> m)) ≡ₚ x :: elements (dom m).
Proof.
  intros Hx. rewrite dom_insert. rewrite elements_union_singleton; [done|].
  by rewrite not_elem_of_dom.
Qed.

Lemma dom_insert_same (m : gmap nat Node) x n n' :
  m !! x = Some n -> dom (<[x := n']> m) = dom m.
Proof. intros Hx. apply dom_insert_lookup_L. by rewrite Hx. Qed.

Lemma some_update (m : gmap nat Node) x n n' y :
  m !! x = Some n -> is_Some (<[x := n']> m !! y) <-> is_Some (m !! y).
Proof.
  intros Hx. rewrite lookup_insert_is_Some'. split; [|by right]. intros [<-|?]; [by rewrite Hx|done].
Qed.

(** Pushing a child adds one pointer; replacing the children of a node by a part of them loses the
    rest. *)
Lemma push_children m p n y :
  m !! p = Some n -> all_children (<[p := push_back y n]> m) ≡ₚ y :: all_children m.
Proof.
  intros Hp. pose proof (collect_update children m p n (push_back y n) Hp) as Hc.
  cbn [push_back set_children children] in Hc. rewrite <-app_assoc in Hc.
  rewrite Permutation_app_comm in Hc. by apply Permutation_app_inv_l in Hc.
Qed.

Lemma split_children m x n n1 l2 :
  m !! x = Some n -> children n ≡ₚ children n1 ++ l2 ->
  l2 ++ all_children (<[x := n1]> m) ≡ₚ all_children m.
Proof.
  intros Hx Hp. pose proof (collect_update children m x n n1 Hx) as Hc. rewrite Hp in Hc.
  rewrite (Permutation_app_comm (children n1) l2), app_assoc in Hc.
  rewrite Permutation_app_comm in Hc. apply Permutation_app_inv_l in Hc.
  by rewrite Permutation_app_comm.
Qed.

Lemma entry_inner n : children n <> [] -> entry n = [].
Proof. intros Hn. unfold entry. by destruct (leaf n), (children n). Qed.

Definition entry_node (r : Rect) (x : nat) : Node := MkNode (Some r) true [] (Some x).

Lemma push_entry_inv s lv rs x n r :
  rt_inv s lv None rs -> heap s !! x = Some n -> lv !! x = Some 1 ->
  rt_inv (MkTree (<[next s := entry_node r x]> (<[x := push_back (next s) n]> (heap s)))
            (S (next s)) (root s)) (<[next s := 0]> lv) (Some x) (r :: rs).
Proof.
  intros Hinv Hn Hx. destruct (inv_fresh _ _ _ _ Hinv) as [Hfh Hfl]. set (e := next s) in *.
  assert (Hxe : x <> e) by congruence.
  assert (Hsub : lv ⊆ <[e := 0]> lv) by (by apply insert_subseteq).
  pose proof (inv_nodes _ _ _ _ Hinv x n 1 Hn Hx) as Hwf.
  assert (He' : <[x := push_back e n]> (heap s) !! e = None) by (by rewrite lookup_insert_ne).
  split; cbn [heap next root].
  - intros y. rewrite lookup_insert_is_Some', (some_update _ x n) by done.
    by rewrite lookup_insert_is_Some', (inv_dom _ _ _ _ Hinv).
  - intros y. rewrite lookup_insert_is_Some', (some_update _ x n) by done.
    intros [<-|Hy]; [lia|]. apply (inv_next _ _ _ _ Hinv) in Hy. lia.
  - destruct (inv_top _ _ _ _ Hinv) as (H & HH & H1 & Htop). exists H.
    split; [by eapply lookup_weaken|]. split; [done|]. intros y k Hk Hy.
    rewrite lookup_insert in Hk. case_decide; simplify_eq; [lia|by apply (Htop y)].
  - intros z m k Hm Hk. rewrite lookup_insert in Hm. rewrite lookup_insert in Hk. case_decide as Hze; simplify_eq.
    { split; cbn; try done; try lia; try (unfold MAX_CHILDREN; rewrite decide_False by congruence; lia).
      - intros Hr. destruct (inv_top _ _ _ _ Hinv) as (H & HH & _). rewrite <-Hr in HH. congruence.
      - intros _. exists x. split; [done|]. by eapply lookup_weaken.
      - by intros [= ?]. }
    rewrite lookup_insert in Hm. case_decide as Hxz; simplify_eq.
    { pose proof Hwf as []. split; cbn; try done.
      - apply Forall_app. split; [|constructor; [|done]].
        + eapply Forall_impl; [exact wf_kids0|]. intros c (j & Hj & Hjk). exists j.
          split; [by eapply lookup_weaken|done].
        + exists 0. by rewrite lookup_insert_eq.
      - intros Hr. destruct (wf_parent0 Hr) as (p & Hp & Hpl). exists p.
        split; [done|by eapply lookup_weaken].
      - intros H1 H2. rewrite length_app. specialize (wf_min0 H1 H2). lia.
      - rewrite decide_True, length_app by done. rewrite decide_False in wf_max0 by done.
        unfold MAX_CHILDREN in *. simpl. lia.
      - intros _. split; [by destruct (children n)|lia]. }
    eapply node_wf_frame; [by eapply (inv_nodes _ _ _ _ Hinv z)|done| |done|done|congruence].
    intros c Hc. rewrite !box_of_insert_ne; [done|congruence|congruence].
  - rewrite dom_insert_elements, (dom_insert_same _ _ n) by done.
    unfold all_children. rewrite collect_new by done. cbn [entry_node children app].
    rewrite <-(inv_own _ _ _ _ Hinv). rewrite perm_swap. f_equiv. by apply push_children.
  - unfold entries. rewrite collect_new by done. change (entry (entry_node r x)) with [r].
    apply perm_skip. rewrite <-(inv_entries _ _ _ _ Hinv).
    eapply collect_same; [done|]. unfold entry; cbn [push_back set_children leaf children].
    destruct (wf_hull _ _ _ _ _ _ _ Hwf eq_refl) as (bs & Hbs & Hb); [done|].
    destruct (leaf n), (children n); try done. inversion Hbs; subst. by rewrite Hb.
Qed.

(** ** Adjusting a node *)

(** Refreshing the box of the hole; a node that is not full is no hole any more. *)
Lemma refresh_inv s lv rs x n k bs b hole :
  rt_inv s lv (Some x) rs -> heap s !! x = Some n -> lv !! x = Some k ->
  has_boxes (heap s) (children n) bs -> hull bs = Some b ->
  hole = Some x \/ (hole = None /\ length (children n) < MAX_CHILDREN) ->
  rt_inv (put x (set_box b n) s) lv hole rs.
Proof.
  intros Hinv Hn Hk Hbs Hb Hhole. pose proof (inv_nodes _ _ _ _ Hinv x n k Hn Hk) as Hwf.
  destruct (wf_hole _ _ _ _ _ _ _ Hwf eq_refl) as [Hne Hk1].
  assert (Hbox : forall c, lv !! c = Some 0 -> box_of (<[x := set_box b n]> (heap s)) c = box_of (heap s) c).
  { intros c Hc. apply box_of_insert_ne. intros ->. simplify_eq. lia. }
  split; cbn [put heap next root].
  - intros y. rewrite (some_update _ x n) by done. apply (inv_dom _ _ _ _ Hinv).
  - intros y. rewrite (some_update _ x n) by done. apply (inv_next _ _ _ _ Hinv).
  - apply (inv_top _ _ _ _ Hinv).
  - intros z m j Hm Hj. rewrite lookup_insert in Hm. case_decide as Hxz; simplify_eq.
    + pose proof Hwf as []. split; cbn [set_box leaf children parent bounding_box]; try done.
      * rewrite decide_True in wf_max0 by done. destruct Hhole as [->|[-> ?]].
        { by rewrite decide_True. } { rewrite decide_False by done. unfold MAX_CHILDREN in *. lia. }
      * intros -> Hh. exists bs. split; [|done]. destruct Hhole as [?|[_ _]]; [done|].
        apply (has_boxes_frame (heap s)); [done|]. intros c Hc. by eapply Hbox, kids_level_0.
    + eapply node_wf_frame; [by eapply (inv_nodes _ _ _ _ Hinv z)|done|done|done|congruence|].
      destruct Hhole as [->|[-> _]]; congruence.
  - rewrite (dom_insert_same _ _ n), <-(inv_own _ _ _ _ Hinv) by done. f_equiv.
    by eapply collect_same.
  - rewrite <-(inv_entries _ _ _ _ Hinv). eapply collect_same; [done|].
    unfold entry; cbn [set_box leaf children bounding_box]. by destruct (leaf n), (children n).
Qed.

(** One half of a split node. *)
Lemma half_wf m rt lv hole n k z l bs b p lv0 :
  Forall (fun c => exists j, lv0 !! c = Some j /\ k = S j) l -> lv0 ⊆ lv ->
  leaf n = bool_decide (k <= 1) -> 1 <= k -> length l = 2 -> has_boxes m l bs -> hull bs = Some b ->
  z <> rt -> hole <> Some z -> lv !! p = Some (S k) ->
  node_wf m rt lv hole z (MkNode (Some b) (leaf n) l (Some p)) k.
Proof.
  intros Hkids Hlv Hleaf Hk Hl Hbs Hb Hz Hh Hp. split; cbn; try done.
  - eapply Forall_impl; [done|]. intros c (j & Hj & ->). exists j.
    split; [by eapply lookup_weaken|done].
  - intros _. by exists p.
  - intros _ _. rewrite Hl. unfold MIN_CHILDREN. lia.
  - rewrite decide_False, Hl by done. unfold MAX_CHILDREN. lia.
  - intros -> _. by exists bs.
Qed.

Section Sort.
Variable sort : list (Rect * nat) -> list (Rect * nat).

(** [std::sort] rearranges its range. *)
Hypothesis sort_perm : forall l, sort l ≡ₚ l.

Lemma has_boxes_perm m cs cs' bs :
  has_boxes m cs bs -> cs' ≡ₚ cs -> exists bs', has_boxes m cs' bs'.
Proof.
  intros Hbs Hp. assert (Hall : Forall (fun c => is_Some (box_of m c)) cs').
  { rewrite Hp. clear -Hbs. induction Hbs; constructor; eauto. }
  clear -Hall. induction Hall as [|c cs [b Hb] _ [bs IH]]; eexists; by constructor.
Qed.

Lemma snd_zip_boxes m cs bs : has_boxes m cs bs -> snd <$> zip bs cs = cs.
Proof. intros Hbs%Forall2_length. apply snd_zip. lia. Qed.

(** The heap that [splitNode] leaves: the two halves of the children, with fresh boxes. *)
Lemma splitNode_ok s x n bs :
  heap s !! x = Some n -> heap s !! next s = None -> has_boxes (heap s) (children n) bs ->
  length (children n) = MAX_CHILDREN -> x ∉ children n ->
  exists l1 l2 b1 b2 bs1 bs2,
    splitNode sort x s = Ret (MkTree
      (<[next s := MkNode (Some b2) (leaf n) l2 None]>
         (<[x := MkNode (Some b1) (leaf n) l1 (parent n)]> (heap s))) (S (next s)) (root s), next s) /\
    children n ≡ₚ l1 ++ l2 /\ length l1 = 2 /\ length l2 = 2 /\
    has_boxes (heap s) l1 bs1 /\ has_boxes (heap s) l2 bs2 /\
    hull bs1 = Some b1 /\ hull bs2 = Some b2.
Proof.
  intros Hn Hfresh Hbs Hlen Hself. set (y := next s) in *.
  assert (Hp : snd <$> sort (zip bs (children n)) ≡ₚ children n).
  { rewrite sort_perm. by rewrite (snd_zip_boxes _ _ _ Hbs). }
  unfold splitNode. run_with (at_Ret _ _ _ Hn). run_with (with_boxes_ok _ _ _ Hbs).
  set (l := snd <$> sort (zip bs (children n))) in *.
  assert (Hll : length l = 4) by (by rewrite Hp).
  rewrite Hll. change (4 / 2) with 2. cbn [alloc]. fold y.
  set (l1 := take 2 l). set (l2 := drop 2 l).
  assert (Hl : l = l1 ++ l2) by (symmetry; apply take_drop).
  destruct (has_boxes_perm _ _ l _ Hbs Hp) as [bs' Hbs']. rewrite Hl in Hbs'.
  apply Forall2_app_inv_l in Hbs' as (bs1 & bs2 & Hbs1 & Hbs2 & _).
  assert (Hxy : x <> y) by congruence.
  assert (Hframe : forall m' cs bs, (forall c, c <> x -> c <> y -> box_of m' c = box_of (heap s) c) ->
    cs ⊆ l -> has_boxes (heap s) cs bs -> has_boxes m' cs bs).
  { intros m' cs bs0 Hm' Hin H0. apply (has_boxes_frame (heap s)); [done|]. intros c Hc.
    assert (Hcn : c ∈ children n) by (rewrite <-Hp; auto). apply Hm'; [congruence|].
    intros ->. apply list_elem_of_lookup_1 in Hcn as [i Hi].
    destruct (Forall2_lookup_l _ _ _ _ _ Hbs Hi) as (b & _ & Hb).
    unfold box_of in Hb. by rewrite Hfresh in Hb. }
  rewrite (update_put x _ _ n) by (cbn; by rewrite lookup_insert_ne).
  unfold put; cbn [heap next root]. set (nx := set_children l1 n).
  set (ny := set_children l2 (newNode (leaf n))).
  set (s2 := MkTree (<[x := nx]> (<[y := ny]> (heap s))) (S y) (root s)).
  destruct (updateBoundingBox_ok s2 x nx bs1) as (b1 & Hb1 & Hu1);
    [cbn; by rewrite lookup_insert_eq| | |].
  { apply Hframe; [|apply subseteq_take|done]. intros c Hcx Hcy. cbn.
    by rewrite !box_of_insert_ne. }
  { cbn. unfold l1. by destruct l as [|? [|? ?]]. }
  run_with Hu1.
  destruct (updateBoundingBox_ok (put x (set_box b1 nx) s2) y ny bs2) as (b2 & Hb2 & Hu2).
  { cbn. by rewrite !lookup_insert_ne, lookup_insert_eq by done. }
  { apply Hframe; [|apply subseteq_drop|done]. intros c Hcx Hcy. cbn.
    by rewrite !box_of_insert_ne. }
  { cbn. unfold l2. by destruct l as [|? [|? [|? ?]]]. }
  run_with Hu2. exists l1, l2, b1, b2, bs1, bs2.
  split; [|split; [by rewrite <-Hl, Hp|]; split; [unfold l1; rewrite length_take; lia|];
    split; [unfold l2; rewrite length_drop; lia|done]].
  f_equal. f_equal. unfold put. cbn. f_equal. apply map_eq. intros z. rewrite !lookup_insert.
  repeat case_decide; (done || congruence).
Qed.

(** The situation after the children of the full node [x] have been divided. *)
Section Split.
Variable s : RTree.
Variable lv : gmap nat nat.
Variable rs : list Rect.
Variable x k : nat.
Variable n : Node.
Variable l1 l2 : list nat.
Variable bs1 bs2 : list Rect.
Variable b1 b2 : Rect.
Hypothesis Hinv : rt_inv s lv (Some x) rs.
Hypothesis Hn : heap s !! x = Some n.
Hypothesis Hk : lv !! x = Some k.
Hypothesis Hperm : children n ≡ₚ l1 ++ l2.
Hypothesis Hl1 : length l1 = 2.
Hypothesis Hl2 : length l2 = 2.
Hypothesis Hbs1 : has_boxes (heap s) l1 bs1.
Hypothesis Hbs2 : has_boxes (heap s) l2 bs2.
Hypothesis Hb1 : hull bs1 = Some b1.
Hypothesis Hb2 : hull bs2 = Some b2.

Let y := next s.

Lemma split_kids :
  1 <= k /\ leaf n = bool_decide (k <= 1) /\
  Forall (fun c => exists j, lv !! c = Some j /\ k = S j) l1 /\
  Forall (fun c => exists j, lv !! c = Some j /\ k = S j) l2.
Proof.
  pose proof (inv_nodes _ _ _ _ Hinv x n k Hn Hk) as Hwf.
  split; [by apply (wf_hole _ _ _ _ _ _ _ Hwf)|]. split; [apply (wf_leaf _ _ _ _ _ _ _ Hwf)|].
  pose proof (wf_kids _ _ _ _ _ _ _ Hwf) as Hkids. rewrite Hperm in Hkids.
  by apply Forall_app in Hkids.
Qed.

Lemma split_fresh : heap s !! y = None /\ lv !! y = None /\ x <> y.
Proof. unfold y. destruct (inv_fresh _ _ _ _ Hinv). split; [done|]. split; [done|]. congruence. Qed.

(** The children of [x] are neither [x], nor the new node, nor a node above. *)
Lemma split_kid_ne c z j :
  c ∈ l1 ++ l2 -> lv !! z = Some j -> k <= j -> c <> z /\ c <> y.
Proof.
  intros Hc Hz Hj. rewrite <-Hperm in Hc. unfold y.
  destruct (inv_child _ _ _ _ Hinv x n k c Hn Hk Hc) as (_ & i & m & b & Hki & Hi & Hm & _).
  destruct (inv_fresh _ _ _ _ Hinv) as [Hy _]. split; [|congruence].
  intros ->. rewrite Hz in Hi. injection Hi. lia.
Qed.

(** A split below the root: the new node goes to the parent, which becomes the hole. *)
Section Inner.
Variable p : nat.
Variable np : Node.
Hypothesis Hxr : x <> root s.
Hypothesis Hnp : heap s !! p = Some np.
Hypothesis Hp : lv !! p = Some (S k).

Let nx := MkNode (Some b1) (leaf n) l1 (Some p).
Let ny := MkNode (Some b2) (leaf n) l2 (Some p).
Let m1 := <[x := nx]> (heap s).
Let m2 := <[p := push_back y np]> m1.
Let m3 := <[y := ny]> m2.

Lemma inner_facts :
  p <> x /\ p <> y /\ y <> root s /\ lv ⊆ <[y := k]> lv /\ m1 !! p = Some np /\ m2 !! y = None.
Proof.
  destruct split_fresh as (Hfy & Hly & Hxy).
  assert (Hpx : p <> x) by (intros ->; rewrite Hk in Hp; injection Hp; lia).
  assert (Hpy : p <> y) by congruence. split; [done|]. split; [done|]. split.
  { intros Hyr. destruct (inv_top _ _ _ _ Hinv) as (H & HH & _). congruence. }
  split; [by apply insert_subseteq|]. unfold m2, m1. by rewrite !lookup_insert_ne by done.
Qed.

Lemma inner_box c : c <> x -> c <> p -> c <> y -> box_of m3 c = box_of (heap s) c.
Proof. intros ? ? ?. unfold m3, m2, m1. by rewrite !box_of_insert_ne. Qed.

Lemma inner_box_0 c : lv !! c = Some 0 -> box_of m3 c = box_of (heap s) c.
Proof.
  destruct split_kids as (Hk1 & _). destruct split_fresh as (_ & Hly & _). intros Hc.
  apply inner_box; intros ->; [rewrite Hk in Hc|rewrite Hp in Hc|congruence]; injection Hc; lia.
Qed.

Lemma inner_half l bs : l ⊆ l1 ++ l2 -> has_boxes (heap s) l bs -> has_boxes m3 l bs.
Proof.
  intros Hl Hbs. apply (has_boxes_frame (heap s)); [done|]. intros c Hc. apply Hl in Hc.
  destruct (split_kid_ne c x k Hc Hk ltac:(lia)), (split_kid_ne c p (S k) Hc Hp ltac:(lia)).
  by apply inner_box.
Qed.

Lemma inner_nodes z m j :
  m3 !! z = Some m -> <[y := k]> lv !! z = Some j ->
  node_wf m3 (root s) (<[y := k]> lv) (Some p) z m j.
Proof.
  destruct split_kids as (Hk1 & Hleaf & Hkids1 & Hkids2).
  destruct inner_facts as (Hpx & Hpy & Hyr & Hsub & _). intros Hm Hj.
  pose proof (lookup_weaken _ _ _ _ Hp Hsub) as Hp'. unfold m3 in Hm.
  rewrite lookup_insert in Hm. rewrite lookup_insert in Hj. case_decide as Hzy.
  { rewrite <-Hzy. injection Hm as <-. injection Hj as <-.
    eapply half_wf; try done; [|congruence]. apply inner_half; [set_solver|done]. }
  unfold m2 in Hm. rewrite lookup_insert in Hm. case_decide as Hzp.
  { subst z. rewrite Hp in Hj. injection Hj as <-. injection Hm as <-.
    destruct (inv_nodes _ _ _ _ Hinv p np (S k) Hnp Hp). split; cbn; try done.
    - apply Forall_app. split; [|constructor; [|done]].
      + eapply Forall_impl; [exact wf_kids0|]. intros c (i & Hi & Hik). exists i.
        split; [by eapply lookup_weaken|done].
      + exists k. by rewrite lookup_insert_eq.
    - intros Hr. destruct (wf_parent0 Hr) as (q & Hq & Hql). exists q.
      split; [done|by eapply lookup_weaken].
    - intros H1 H2. rewrite length_app. specialize (wf_min0 H1 H2). lia.
    - rewrite decide_True, length_app by done. rewrite decide_False in wf_max0 by congruence.
      unfold MAX_CHILDREN in *. simpl. lia.
    - intros _. split; [by destruct (children np)|lia]. }
  unfold m1 in Hm. rewrite lookup_insert in Hm. case_decide as Hzx.
  { subst z. rewrite Hk in Hj. injection Hj as <-. injection Hm as <-.
    eapply half_wf; try done; [|congruence]. apply inner_half; [set_solver|done]. }
  eapply node_wf_frame; [by eapply (inv_nodes _ _ _ _ Hinv z)|done| |done|congruence|congruence].
  apply inner_box_0.
Qed.

Lemma split_inner_inv :
  rt_inv (MkTree m3 (S y) (root s)) (<[y := k]> lv) (Some p) rs.
Proof.
  destruct inner_facts as (Hpx & Hpy & Hyr & Hsub & Hm1p & Hm2y).
  destruct split_fresh as (Hfy & Hly & Hxy).
  assert (Hcn : children n <> []).
  { intros Hc. rewrite Hc in Hperm. apply Permutation_length in Hperm.
    rewrite length_app in Hperm. simpl in Hperm. lia. }
  assert (Hcp : children np <> []).
  { pose proof (inv_nodes _ _ _ _ Hinv p np (S k) Hnp Hp) as Hwp. intros Hc.
    assert (Hmin : MIN_CHILDREN <= length (children np)).
    { destruct split_kids as (? & _). apply (wf_min _ _ _ _ _ _ _ Hwp); [lia|right; lia]. }
    rewrite Hc in Hmin. unfold MIN_CHILDREN in Hmin. simpl in Hmin. lia. }
  split; cbn [heap next root].
  - intros z. unfold m3, m2. rewrite lookup_insert_is_Some', (some_update _ p np) by done.
    unfold m1. rewrite (some_update _ x n) by done.
    by rewrite lookup_insert_is_Some', (inv_dom _ _ _ _ Hinv).
  - intros z. unfold m3, m2. rewrite lookup_insert_is_Some', (some_update _ p np) by done.
    unfold m1. rewrite (some_update _ x n) by done.
    intros [<-|Hz]; [lia|]. apply (inv_next _ _ _ _ Hinv) in Hz. unfold y. lia.
  - destruct (inv_top _ _ _ _ Hinv) as (H & HH & H1 & Htop). exists H.
    split; [by eapply lookup_weaken|]. split; [done|]. intros z j Hj Hz.
    rewrite lookup_insert in Hj. case_decide; [|by apply (Htop z)].
    injection Hj as <-. by apply (Htop x).
  - apply inner_nodes.
  - unfold m3. rewrite dom_insert_elements by done. unfold m2.
    rewrite (dom_insert_same _ _ np) by done. unfold m1. rewrite (dom_insert_same _ _ n) by done.
    rewrite <-(inv_own _ _ _ _ Hinv). unfold all_children at 1. rewrite collect_new by done.
    cbn [children ny]. fold all_children. fold (all_children (<[p := push_back y np]> m1)).
    rewrite push_children by done.
    rewrite <-(Permutation_middle l2), perm_swap. do 2 f_equiv.
    by apply (split_children _ _ n).
  - unfold m3, entries. rewrite collect_new by done.
    rewrite entry_inner by (cbn; by destruct l2). cbn [app].
    unfold m2. rewrite collect_same; [|done|by rewrite !entry_inner by (cbn; by destruct (children np))].
    unfold m1. rewrite collect_same; [apply (inv_entries _ _ _ _ Hinv)|done|].
    rewrite !entry_inner; [done|done|]. cbn. by destruct l1.
Qed.
End Inner.

(** A split of the root: a new root holds the two halves; its box is not written. *)
Section Root.
Hypothesis Hxr : x = root s.

Let r := S y.
Let nx := MkNode (Some b1) (leaf n) l1 (Some r).
Let ny := MkNode (Some b2) (leaf n) l2 (Some r).
Let nr := MkNode None false [x; y] None.
Let m1 := <[x := nx]> (heap s).
Let m2 := <[y := ny]> m1.
Let m3 := <[r := nr]> m2.
Let lv' := <[r := S k]> (<[y := k]> lv).

Lemma root_facts :
  x <> r /\ y <> r /\ heap s !! r = None /\ lv ⊆ lv' /\ lv' !! x = Some k /\ lv' !! y = Some k /\
  m1 !! y = None /\ m2 !! r = None.
Proof.
  destruct split_fresh as (Hfy & Hly & Hxy).
  assert (Hfr : heap s !! r = None).
  { apply eq_None_not_Some. intros Hr. apply (inv_next _ _ _ _ Hinv) in Hr. unfold r, y in Hr. lia. }
  assert (Hlr : lv !! r = None).
  { apply eq_None_not_Some. rewrite <-(inv_dom _ _ _ _ Hinv), Hfr. by intros [? ?]. }
  assert (Hxr' : x <> r) by congruence. assert (Hyr : y <> r) by (unfold r; lia).
  split; [done|]. split; [done|]. split; [done|].
  assert (Hsub : lv ⊆ lv').
  { unfold lv'. transitivity (<[y := k]> lv); [by apply insert_subseteq|]. apply insert_subseteq.
    by rewrite lookup_insert_ne. }
  split; [done|]. split; [by eapply lookup_weaken|].
  split; [unfold lv'; by rewrite lookup_insert_ne, lookup_insert_eq|].
  split; [unfold m1; by rewrite lookup_insert_ne|].
  unfold m2, m1. by rewrite lookup_insert_ne, lookup_insert_ne.
Qed.

Lemma root_box c : c <> x -> c <> y -> c <> r -> box_of m3 c = box_of (heap s) c.
Proof. intros ? ? ?. unfold m3, m2, m1. by rewrite !box_of_insert_ne. Qed.

Lemma root_half l bs : l ⊆ l1 ++ l2 -> has_boxes (heap s) l bs -> has_boxes m3 l bs.
Proof.
  destruct root_facts as (_ & _ & Hfr & _).
  intros Hl Hbs. apply (has_boxes_frame (heap s)); [done|]. intros c Hc.
  destruct (split_kid_ne c x k (Hl c Hc) Hk ltac:(lia)). apply root_box; [done..|].
  intros ->. apply list_elem_of_lookup_1 in Hc as [i Hi].
  destruct (Forall2_lookup_l _ _ _ _ _ Hbs Hi) as (b & _ & Hb).
  unfold box_of in Hb. by rewrite Hfr in Hb.
Qed.

Lemma root_nodes z m j :
  m3 !! z = Some m -> lv' !! z = Some j -> node_wf m3 r lv' None z m j.
Proof.
  destruct split_kids as (Hk1 & Hleaf & Hkids1 & Hkids2).
  destruct root_facts as (Hxr' & Hyr & Hfr & Hsub & Hx' & Hy' & _). intros Hm Hj.
  assert (Hr' : lv' !! r = Some (S k)) by (unfold lv'; by rewrite lookup_insert_eq).
  unfold m3 in Hm. rewrite lookup_insert in Hm. case_decide as Hzr.
  { rewrite <-Hzr in Hj |- *. rewrite Hr' in Hj. injection Hj as <-. injection Hm as <-.
    split; cbn; try done; try lia.
    - by rewrite bool_decide_eq_false_2 by lia.
    - repeat constructor; by exists k.
    - rewrite decide_False by done. lia. }
  unfold m2 in Hm. rewrite lookup_insert in Hm. case_decide as Hzy.
  { rewrite <-Hzy in Hj |- *. rewrite Hy' in Hj. injection Hj as <-. injection Hm as <-.
    eapply half_wf; try done. apply root_half; [set_solver|done]. }
  unfold m1 in Hm. rewrite lookup_insert in Hm. case_decide as Hzx.
  { rewrite <-Hzx in Hj |- *. rewrite Hx' in Hj. injection Hj as <-. injection Hm as <-.
    eapply half_wf; try done. apply root_half; [set_solver|done]. }
  unfold lv' in Hj. rewrite !lookup_insert_ne in Hj by done.
  eapply node_wf_frame; [by eapply (inv_nodes _ _ _ _ Hinv z)|done| | |congruence|done].
  - destruct split_fresh as (_ & Hly & _). intros c Hc.
    apply root_box; intros ->; [rewrite Hk in Hc; injection Hc; lia|congruence|].
    rewrite (lookup_weaken _ _ _ _ Hc Hsub) in Hr'. done.
  - split; congruence.
Qed.

Lemma split_root_inv : rt_inv (MkTree m3 (S r) r) lv' None rs.
Proof.
  destruct root_facts as (Hxr' & Hyr & Hfr & Hsub & Hx' & Hy' & Hm1y & Hm2r).
  destruct split_fresh as (Hfy & Hly & Hxy).
  assert (Hcn : children n <> []).
  { intros Hc. rewrite Hc in Hperm. apply Permutation_length in Hperm.
    rewrite length_app in Hperm. simpl in Hperm. lia. }
  split; cbn [heap next root].
  - intros z. unfold m3, m2, lv'. rewrite !lookup_insert_is_Some'. unfold m1.
    by rewrite (some_update _ x n), (inv_dom _ _ _ _ Hinv) by done.
  - intros z. unfold m3, m2. rewrite !lookup_insert_is_Some'. unfold m1.
    rewrite (some_update _ x n) by done.
    intros [<-|[<-|Hz]]; [lia..|]. apply (inv_next _ _ _ _ Hinv) in Hz. unfold r, y. lia.
  - exists (S k). unfold lv'. rewrite lookup_insert_eq. split; [done|]. split; [lia|].
    intros z j Hj Hz. rewrite lookup_insert_ne in Hj by done. rewrite lookup_insert in Hj.
    case_decide; [injection Hj as <-; lia|].
    apply Nat.lt_succ_r. eapply (inv_level_le _ _ _ _ Hinv); [done|]. by rewrite <-Hxr.
  - apply root_nodes.
  - unfold m3. rewrite dom_insert_elements by done. unfold m2. rewrite dom_insert_elements by done.
    unfold m1. rewrite (dom_insert_same _ _ n) by done. f_equiv.
    rewrite <-(inv_own _ _ _ _ Hinv), <-Hxr. unfold all_children at 1.
    rewrite !collect_new by done. cbn [children nr ny app].
    rewrite perm_swap. do 2 f_equiv. by apply (split_children _ _ n).
  - unfold m3, entries. rewrite collect_new by done. rewrite entry_inner by done.
    unfold m2. rewrite collect_new by done. rewrite entry_inner by (cbn; by destruct l2).
    unfold m1. cbn [app]. rewrite collect_same; [apply (inv_entries _ _ _ _ Hinv)|done|].
    rewrite !entry_inner; [done|done|]. cbn. by destruct l1.
Qed.
End Root.
End Split.

Lemma inv_weaken s lv rs p j :
  rt_inv s lv None rs -> lv !! p = Some (S (S j)) -> rt_inv s lv (Some p) rs.
Proof.
  intros [Hdom Hnext Htop Hnodes Hown Hent] Hp. split; try done. intros x n k Hn Hk.
  destruct (Hnodes x n k Hn Hk). split; try done.
  - rewrite decide_False in wf_max0 by done. unfold MAX_CHILDREN in *. destruct (decide (Some p = Some x)); lia.
  - intros [= <-]. rewrite Hp in Hk. injection Hk as <-. split; [|lia]. intros Hc.
    assert (Hmin : MIN_CHILDREN <= length (children n)) by (apply wf_min0; [lia|right; lia]).
    rewrite Hc in Hmin. unfold MIN_CHILDREN in Hmin. simpl in Hmin. lia.
  - intros Hk1 _. by apply wf_hull0.
Qed.

(** One node of the climb: its box is refreshed, and then it is either not full, or split. *)
Lemma refresh_step s lv rs x k :
  rt_inv s lv (Some x) rs -> lv !! x = Some k ->
  exists n b, updateBoundingBox x s = Ret (put x (set_box b n) s) /\ heap s !! x = Some n /\
    rt_inv (put x (set_box b n) s) lv (Some x) rs /\
    (isFull (set_box b n) = false -> rt_inv (put x (set_box b n) s) lv None rs) /\
    (isFull (set_box b n) = true -> length (children n) = MAX_CHILDREN).
Proof.
  intros Hinv Hk. destruct (inv_lookup _ _ _ _ Hinv x k Hk) as (n & Hn & Hwf).
  destruct (inv_boxes _ _ _ _ Hinv x n k Hn Hk) as [bs Hbs].
  destruct (wf_hole _ _ _ _ _ _ _ Hwf eq_refl) as [Hne _].
  destruct (updateBoundingBox_ok s x n bs Hn Hbs Hne) as (b & Hb & Hu).
  exists n, b. split; [done|]. split; [done|].
  split; [eapply refresh_inv; try done; by left|].
  unfold isFull. cbn [set_box children]. split.
  - intros Hf%bool_decide_eq_false. eapply refresh_inv; try done. right. split; [done|lia].
  - intros Hf%bool_decide_eq_true. pose proof (wf_max _ _ _ _ _ _ _ Hwf) as Hmax.
    rewrite decide_True in Hmax by done. lia.
Qed.

(** The full node [x] is split, and the new node is attached at the root or at the parent. *)
Lemma split_step s lv rs x n k :
  rt_inv s lv (Some x) rs -> heap s !! x = Some n -> lv !! x = Some k ->
  length (children n) = MAX_CHILDREN ->
  exists s2 y, splitNode sort x s = Ret (s2, y) /\ root s2 = root s /\ root s < next s2 /\
    (x = root s -> exists lv',
       rt_inv (let '(s, r) := alloc (set_children [x; y] (newNode false)) s2 in
               update y (set_parent r) (update x (set_parent r) (set_root r s))) lv' None rs /\
       lv ⊆ lv') /\
    (x <> root s -> exists p np lv', parent n = Some p /\ heap s2 !! p = Some np /\
       lv' !! p = Some (S k) /\ lv ⊆ lv' /\
       rt_inv (update y (set_parent p) (update p (push_back y) s2)) lv' (Some p) rs).
Proof.
  intros Hinv Hn Hk Hfull. destruct (inv_boxes _ _ _ _ Hinv x n k Hn Hk) as [bs Hbs].
  destruct (inv_fresh _ _ _ _ Hinv) as [Hfh Hfl].
  assert (Hself : x ∉ children n).
  { intros Hx. destruct (inv_child _ _ _ _ Hinv x n k x Hn Hk Hx) as (_ & j & m & b & -> & Hj & _).
    rewrite Hk in Hj. injection Hj. lia. }
  destruct (splitNode_ok s x n bs Hn Hfh Hbs Hfull Hself)
    as (l1 & l2 & b1 & b2 & bs1 & bs2 & Hsp & Hperm & Hl1 & Hl2 & Hbs1 & Hbs2 & Hb1 & Hb2).
  eexists _, _. split; [exact Hsp|]. split; [done|]. split.
  { destruct (inv_top _ _ _ _ Hinv) as (H & HH & _). cbn [next].
    apply Nat.lt_lt_succ_r, (inv_next _ _ _ _ Hinv), (inv_dom _ _ _ _ Hinv). by rewrite HH. }
  split.
  - intros Hxr. pose proof (split_root_inv s lv rs x k n l1 l2 bs1 bs2 b1 b2 Hinv Hn Hk Hperm
      Hl1 Hl2 Hbs1 Hbs2 Hb1 Hb2 Hxr) as Hr.
    destruct (root_facts s lv rs x k n l1 l2 b1 b2 Hinv Hk Hl1 Hl2 Hxr) as (? & ? & _ & Hsub & _).
    eexists. split; [|exact Hsub]. eapply (eq_ind _ (fun t => rt_inv t _ None rs)); [exact Hr|].
    unfold alloc, set_root, update. cbn [heap next root]. f_equal. apply map_eq. intros z.
    rewrite !lookup_alter, !lookup_insert. repeat case_decide; (done || congruence).
  - intros Hxr. destruct (wf_parent _ _ _ _ _ _ _ (inv_nodes _ _ _ _ Hinv x n k Hn Hk) Hxr)
      as (p & Hp & Hpl).
    destruct (inv_lookup _ _ _ _ Hinv p (S k) Hpl) as (np & Hnp & _).
    pose proof (split_inner_inv s lv rs x k n l1 l2 bs1 bs2 b1 b2 Hinv Hn Hk Hperm
      Hl1 Hl2 Hbs1 Hbs2 Hb1 Hb2 p np Hxr Hnp Hpl) as Hr.
    destruct (inner_facts s lv rs x k n l1 l2 b1 b2 Hinv Hk Hl1 Hl2 p np Hxr Hnp Hpl)
      as (? & ? & _ & Hsub & _).
    exists p, np, (<[next s := k]> lv). split; [done|]. cbn [heap].
    split; [by rewrite !lookup_insert_ne by done|]. split; [by eapply lookup_weaken|].
    split; [done|]. eapply (eq_ind _ (fun t => rt_inv t _ _ rs)); [exact Hr|].
    unfold update. cbn [heap next root]. f_equal. apply map_eq. intros z.
    rewrite !lookup_alter, !lookup_insert. rewrite Hp.
    repeat case_decide; subst; try (done || congruence). by rewrite Hnp.
Qed.

(** The climb: one level per step, and one step past the root. *)
Lemma adjustTree_ok : forall fuel s lv x k H rs,
  rt_inv s lv (Some x) rs -> lv !! x = Some k -> lv !! root s = Some H -> H + 2 <= k + fuel ->
  exists s' lv', adjustTree sort fuel (Some x) s = Ret s' /\ rt_inv s' lv' None rs /\
    (root s' = root s -> is_Some (box_of (heap s') (root s'))).
Proof.
  induction fuel as [|fuel IH]; intros s lv x k H rs Hinv Hk HH Hf.
  { pose proof (inv_level_le _ _ _ _ Hinv x k H Hk HH). lia. }
  destruct (refresh_step s lv rs x k Hinv Hk) as (n & b & Hu & Hn & Hinv1 & Hnf & Hfu).
  set (s1 := put x (set_box b n) s) in *. cbn [adjustTree]. run_with Hu.
  assert (Hn1 : heap s1 !! x = Some (set_box b n)) by (cbn; by rewrite lookup_insert_eq).
  run_with (at_Ret _ _ _ Hn1).
  pose proof (inv_level_le _ _ _ _ Hinv x k H Hk HH) as HkH.
  destruct (isFull (set_box b n)) eqn:Hfull.
  - destruct (split_step s1 lv rs x _ k Hinv1 Hn1 Hk (Hfu eq_refl))
      as (s2 & y & Hsp & Hr2 & Hlt2 & Hroot & Hinner). run_with Hsp.
    rewrite Hr2. destruct (decide (x = root s1)) as [Hxr|Hxr].
    + destruct (Hroot Hxr) as (lv' & Hinv' & _). eexists _, lv'. split; [done|].
      split; [exact Hinv'|]. cbn in *. lia.
    + destruct (Hinner Hxr) as (p & np & lv' & Hp & Hnp & Hpl & Hsub & Hinv'). rewrite Hp.
      run_with (at_Ret _ _ _ Hnp). destruct (IH _ lv' p (S k) H rs Hinv' Hpl) as (s' & lv'' & Ha & Hi & Hb);
        [cbn; rewrite Hr2; by eapply lookup_weaken|lia|].
      exists s', lv''. split; [done|]. split; [done|]. intros Heq. apply Hb. cbn. by rewrite Hr2.
  - specialize (Hnf eq_refl). pose proof (inv_nodes _ _ _ _ Hnf x _ k Hn1 Hk) as Hwf.
    destruct (decide (x = root s)) as [Hxr|Hxr].
    + rewrite (wf_root _ _ _ _ _ _ _ Hwf Hxr). destruct fuel as [|fuel]; [subst; simplify_eq; lia|].
      exists s1, lv. split; [done|]. split; [done|]. intros _. cbn. rewrite <-Hxr.
      by rewrite box_of_insert_eq.
    + destruct (wf_parent _ _ _ _ _ _ _ Hwf Hxr) as (p & Hp & Hpl). rewrite Hp.
      assert (Hk1 : 1 <= k) by (eapply wf_hole; [by eapply (inv_nodes _ _ _ _ Hinv)|done]).
      destruct k as [|k]; [lia|].
      destruct (IH s1 lv p (S (S k)) H rs) as (s' & lv'' & Ha & Hi & Hb); [by eapply inv_weaken|done..|lia|].
      by exists s', lv''.
Qed.

(** [insert] adds the rectangle, unless [chooseLeaf] finds no child to descend into. *)
Lemma rt_insert_ok s lv rs r :
  rt_inv s lv None rs ->
  (exists s' lv', insert sort r s = Ret s' /\ rt_inv s' lv' None (r :: rs) /\
     (root s' = root s -> is_Some (box_of (heap s') (root s')))) \/
  (insert sort r s = Undef null_pointer /\ no_best s r).
Proof.
  intros Hinv. destruct (inv_top _ _ _ _ Hinv) as (H & HH & H1 & _).
  pose proof (inv_height _ _ _ _ Hinv H HH) as Hh. destruct H as [|H]; [lia|].
  unfold insert. destruct (chooseLeaf_ok s lv rs r Hinv H (fuel_of s) (root s) HH)
    as [(x & Hx & Hxl)|[Hx Hnb]]; [unfold fuel_of; lia| |right; by run_with Hx].
  left. run_with Hx. destruct (inv_lookup _ _ _ _ Hinv x 1 Hxl) as (n & Hn & _).
  destruct (inv_fresh _ _ _ _ Hinv) as [Hfh Hfl]. assert (Hxe : x <> next s) by congruence.
  pose proof (push_entry_inv s lv rs x n r Hinv Hn Hxl) as Hinv1. cbn [alloc].
  match type of Hinv1 with rt_inv ?t _ _ _ => set (s1 := t) in * end.
  assert (Heq : update (next s) (set_parent x) (update x (push_back (next s))
    (MkTree (<[next s := set_box r (newNode true)]> (heap s)) (S (next s)) (root s))) = s1).
  { unfold s1, update. cbn [heap next root]. f_equal. apply map_eq. intros z.
    rewrite !lookup_alter, !lookup_insert. repeat case_decide; subst; try (done || congruence).
    by rewrite Hn. }
  rewrite Heq. destruct (adjustTree_ok (fuel_of s1) s1 _ x 1 (S H) (r :: rs) Hinv1)
    as (s' & lv' & Ha & Hi & Hb); [by rewrite lookup_insert_ne| | |].
  - cbn. rewrite lookup_insert_ne; [done|]. intros Hr. congruence.
  - unfold fuel_of, s1. cbn [next]. lia.
  - by exists s', lv'.
Qed.
End Sort.

(** ** Search *)

(** A box that [search] may answer with: it meets the query and is the hull of some of the inserted
    rectangles. *)
Definition group_box (rs : list Rect) (q b : Rect) : Prop :=
  intersects b q = true /\
  exists group, group <> [] /\ group ⊆ rs /\ hull group = Some b.

Lemma collect_elem {A : Type} (f : Node -> list A) m x n a :
  m !! x = Some n -> a ∈ f n -> a ∈ collect f m.
Proof.
  intros Hx Ha. unfold collect. apply list_elem_of_bind. exists (x, n). split; [done|].
  by apply elem_of_map_to_list.
Qed.

(** The boxes of the children of a leaf are inserted rectangles. *)
Lemma leaf_group s lv hole rs x n bs :
  rt_inv s lv hole rs -> heap s !! x = Some n -> lv !! x = Some 1 ->
  has_boxes (heap s) (children n) bs -> bs ⊆ rs.
Proof.
  intros Hinv Hn Hx Hbs b [i Hb]%list_elem_of_lookup_1.
  destruct (Forall2_lookup_r _ _ _ _ _ Hbs Hb) as (c & Hc & Hcb).
  apply list_elem_of_lookup_2 in Hc.
  destruct (inv_child _ _ _ _ Hinv x n 1 c Hn Hx Hc) as (_ & j & m & b' & [= <-] & Hj & Hm & Hb').
  pose proof (inv_nodes _ _ _ _ Hinv c m 0 Hm Hj) as Hwf.
  rewrite <-(inv_entries _ _ _ _ Hinv). eapply collect_elem; [exact Hm|].
  assert (Hnil : children m = []).
  { pose proof (wf_kids _ _ _ _ _ _ _ Hwf) as Hk. destruct (children m); [done|].
    apply Forall_cons in Hk as [(? & _ & ?) _]. done. }
  unfold entry. rewrite (wf_leaf _ _ _ _ _ _ _ Hwf), bool_decide_eq_true_2, Hnil by lia.
  unfold box_of in Hcb. rewrite Hm in Hcb. cbn in Hcb. rewrite Hcb. cbn. set_solver.
Qed.

Lemma searchHelper_ok s lv rs q : rt_inv s lv None rs -> forall k fuel x,
  lv !! x = Some (S k) -> is_Some (box_of (heap s) x) -> k < fuel ->
  exists res, searchHelper fuel s x q = Ret res /\ Forall (group_box rs q) res.
Proof.
  intros Hinv. induction k as [|k IH]; intros [|fuel] x Hk [b Hb] Hf; try lia;
    cbn [searchHelper]; destruct (inv_lookup _ _ _ _ Hinv x _ Hk) as (n & Hn & Hwf);
    run_with (at_Ret _ _ _ Hn); unfold box_of in Hb; rewrite Hn in Hb; cbn in Hb;
    unfold box; rewrite Hb; obind; rewrite (wf_leaf _ _ _ _ _ _ _ Hwf);
    (destruct (intersects b q) eqn:Hq; [|by exists []]).
  - rewrite bool_decide_eq_true_2 by lia. exists [b]. split; [done|]. constructor; [|done].
    split; [done|]. destruct (wf_hull _ _ _ _ _ _ _ Hwf eq_refl) as (bs & Hbs & Hh); [done|].
    exists bs. split; [intros ->; by rewrite Hh in Hb|].
    split; [by eapply leaf_group|congruence].
  - rewrite bool_decide_eq_false_2 by lia.
    assert (Hall : Forall (fun c => exists res, searchHelper fuel s c q = Ret res /\
                             Forall (group_box rs q) res) (children n)).
    { apply Forall_forall. intros c Hc.
      destruct (inv_child _ _ _ _ Hinv x n _ c Hn Hk Hc) as (_ & j & m & bc & [= <-] & Hj & Hm & Hbc).
      apply IH; [done| |lia]. exists bc. unfold box_of. by rewrite Hm. }
    clear -Hall. induction Hall as [|c cs (res & Hr & Hres) _ (res' & Hr' & Hres')]; [by exists []|].
    run_with Hr. run_with Hr'. exists (res ++ res'). split; [done|]. by apply Forall_app.
Qed.

(** ** Examples *)

(** A [std::sort] for the examples. *)
Definition by_xmin (a b : Rect * nat) : Prop := fle (xmin a.1) (xmin b.1) = true.

#[export] Instance by_xmin_dec a b : Decision (by_xmin a b).
Proof. unfold by_xmin. apply _. Defined.

Definition sort_by_xmin : list (Rect * nat) -> list (Rect * nat) := merge_sort by_xmin.

Definition rect (a b c d : Z) : Rect :=
  MkRect (f32_of_Z a) (f32_of_Z b) (f32_of_Z c) (f32_of_Z d).

(** [main]: the rectangles it prints. *)
Definition main (sort : list (Rect * nat) -> list (Rect * nat)) : outcome (list Rect) :=
  s ← insert_all sort [rect 0 0 10 10; rect 5 5 15 15; rect 20 20 30 30] newTree;
  search (rect 0 0 15 15) s.

(** Two of the three rectangles meet the query; the answer is the box around all three. *)
Example main_search : main sort_by_xmin = Ret [rect 0 0 30 30].
Proof. vm_compute. reflexivity. Qed.

(** With a fourth rectangle the root splits, and the search reads the box of the new root. *)
Example search_after_root_split :
  (s ← insert_all sort_by_xmin
         [rect 0 0 10 10; rect 5 5 15 15; rect 20 20 30 30; rect 1 1 2 2] newTree;
   search (rect 0 0 15 15) s) = Undef uninitialised_read.
Proof. vm_compute. reflexivity. Qed.

(** Squares side by side along the x axis. *)
Definition squares (n : nat) : list Rect :=
  (fun i => rect (2 * Z.of_nat i) 0 (2 * Z.of_nat i + 2) 2) <$> seq 0 n.

(** The ninth square goes below a node whose parent pointer still leads to the other half of an
    earlier split: the box above it is not refreshed, and a query inside the square finds nothing. *)
Example search_misses_ninth :
  (s ← insert_all sort_by_xmin (squares 9) newTree; search (rect 17 0 18 1) s) = Ret [].
Proof. vm_compute. reflexivity. Qed.

(** The destructor deletes the nodes but not the entries below the leaves. *)
Example clear_leaks_entries :
  (s ← insert_all sort_by_xmin (squares 5) newTree;
   s' ← clear (fuel_of s) (root s) s;
   Ret (size (heap s), size (heap s'), bool_decide (entries (heap s') = entries (heap s)))) =
  Ret (8, 5, true).
Proof. vm_compute. reflexivity. Qed.

(** ** Theorems *)

(** C18.  [insert] keeps the tree well formed: every node is the child of exactly one node, one level
    above it, every parent pointer leads to the next level, every node below the root holds two or
    three children, boxes of leaves are the hulls of their entries, and the entries are the inserted
    rectangles.  The only other outcome is a null pointer, when no child of some node has an
    enlargement below the largest [float].  The box of the root is written unless the root was
    split. *)
Theorem rtree_insert_preserves (sort : list (Rect * nat) -> list (Rect * nat))
    (s : RTree) (lv : gmap nat nat) (rs : list Rect) (r : Rect) :
  (forall l, sort l ≡ₚ l) -> rt_inv s lv None rs ->
  (exists s' lv', insert sort r s = Ret s' /\ rt_inv s' lv' None (r :: rs) /\
     (root s' = root s -> is_Some (box_of (heap s') (root s')))) \/
  (insert sort r s = Undef null_pointer /\ no_best s r).
Proof. intros Hsort. by apply rt_insert_ok. Qed.

Lemma rtree_insert_preserves_witness :
  (exists s' lv', insert sort_by_xmin (rect 0 0 10 10) newTree = Ret s' /\
     rt_inv s' lv' None [rect 0 0 10 10] /\
     (root s' = root newTree -> is_Some (box_of (heap s') (root s')))) \/
  (insert sort_by_xmin (rect 0 0 10 10) newTree = Undef null_pointer /\
   no_best newTree (rect 0 0 10 10)).
Proof.
  apply (rtree_insert_preserves sort_by_xmin newTree {[ 0 := 1 ]} [] (rect 0 0 10 10)).
  - intros l. apply merge_sort_Permutation.
  - apply newTree_inv.
Defined.

(** [search] on a well-formed tree whose root has its box returns, and every rectangle it
    answers with meets the query and is the bounding box of a group of inserted rectangles; where no
    coordinate is a NaN the box contains each rectangle of its group. *)
Lemma rtree_search_boxes (s : RTree) (lv : gmap nat nat) (rs : list Rect) (q : Rect) :
  rt_inv s lv None rs -> is_Some (box_of (heap s) (root s)) -> Forall rect_ok rs ->
  exists res, search q s = Ret res /\
    Forall (fun b => intersects b q = true /\
      exists group, group <> [] /\ group ⊆ rs /\ hull group = Some b /\
        Forall (fun r => contains b r = true) group) res.
Proof.
  intros Hinv Hbox Hok. destruct (inv_top _ _ _ _ Hinv) as (H & HH & H1 & _).
  pose proof (inv_height _ _ _ _ Hinv H HH) as Hh. destruct H as [|H]; [lia|].
  destruct (searchHelper_ok s lv rs q Hinv H (fuel_of s) (root s) HH Hbox) as (res & Hr & Hres);
    [unfold fuel_of; lia|].
  exists res. split; [done|]. eapply Forall_impl; [exact Hres|].
  intros b (Hq & group & Hne & Hsub & Hhull). split; [done|]. exists group.
  do 3 (split; [done|]). apply hull_contains; [|done].
  rewrite Forall_forall in Hok. apply Forall_forall. intros r Hr'. by apply Hok, Hsub.
Qed.

(** The tree with one entry, for the witness. *)
Definition one_entry : RTree :=
  MkTree {[ 0 := MkNode (Some (rect 0 0 10 10)) true [1] None; 1 := entry_node (rect 0 0 10 10) 0 ]}
    2 0.

Lemma one_entry_inv : exists lv, rt_inv one_entry lv None [rect 0 0 10 10].
Proof.
  destruct (rt_insert_ok sort_by_xmin (fun l => merge_sort_Permutation by_xmin l) newTree _ []
    (rect 0 0 10 10) newTree_inv) as [(s' & lv' & Hs' & Hinv & _)|[Hu _]].
  - exists lv'. replace one_entry with s'; [done|].
    assert (Heq : insert sort_by_xmin (rect 0 0 10 10) newTree = Ret one_entry) by reflexivity.
    congruence.
  - assert (Heq : insert sort_by_xmin (rect 0 0 10 10) newTree = Ret one_entry) by reflexivity.
    congruence.
Qed.

Lemma rtree_search_boxes_witness :
  exists lv, rt_inv one_entry lv None [rect 0 0 10 10] /\
  exists res, search (rect 5 5 6 6) one_entry = Ret res /\
    Forall (fun b => intersects b (rect 5 5 6 6) = true /\
      exists group, group <> [] /\ group ⊆ [rect 0 0 10 10] /\ hull group = Some b /\
        Forall (fun r => contains b r = true) group) res.
Proof.
  destruct one_entry_inv as [lv Hinv]. exists lv. split; [done|].
  apply (rtree_search_boxes one_entry lv [rect 0 0 10 10] (rect 5 5 6 6)).
  - done.
  - eexists. reflexivity.
  - repeat constructor; done.
Defined.
