(* ===== verification/CostEstimator.v ===== *)
(** * The cost estimator ([query_processor/optimizer/cost_estimator.cpp])

    Costs are binary64 numbers computed as the code computes them ([Floats]); the product of two
    [int]s that does not fit an [int] is undefined.  The theorems say exactly for which plans the
    estimate is defined, and that its parts then are numbers from zero on. *)

From S2P Require Import Prelude Floats.
Local Open Scope Z_scope.

Definition DISK_IO_COST : double := d_of_Z 5.
Definition MEMORY_ACCESS_COST : double := d_of_Z 1.
Definition CPU_COST : double := d_lit 1 2.
Definition NETWORK_COST : double := d_of_Z 10.

Record PlanCost : Type := MkCost {
  disk_io_cost : double;
  memory_access_cost : double;
  cpu_cost : double;
  network_cost : double
}.

Definition total_cost (c : PlanCost) : double :=
  d_add (d_add (d_add (disk_io_cost c) (memory_access_cost c)) (cpu_cost c)) (network_cost c).

Inductive NodeType : Set := SCAN | JOIN | AGGREGATION | SORT | FILTER | INSERT | UPDATE | DELETE.

(** A node; a child pointer is the child it points to, or null. *)
Inductive PlanNode : Type :=
| MkPlan (node_type : NodeType) (rows width : Z) (selectivity : double)
    (children : list (option PlanNode)).

Definition node_type (p : PlanNode) : NodeType := let '(MkPlan t _ _ _ _) := p in t.
Definition rows (p : PlanNode) : Z := let '(MkPlan _ r _ _ _) := p in r.
Definition width (p : PlanNode) : Z := let '(MkPlan _ _ w _ _) := p in w.
Definition selectivity (p : PlanNode) : double := let '(MkPlan _ _ _ s _) := p in s.
Definition children (p : PlanNode) : list (option PlanNode) := let '(MkPlan _ _ _ _ cs) := p in cs.

(** The product of two [int]s. *)
Definition int_mul (a b : Z) : outcome Z :=
  if bool_decide (int_min <= a * b <= int_max) then Ret (a * b) else Undef signed_overflow.

(** [node->children[i]] and the call on the node it points to, for the indices the code uses. *)
Definition on_child {A : Type} (f : PlanNode -> outcome A) (o : option PlanNode) : outcome A :=
  match o with
  | Some c => f c
  | None => Undef null_pointer
  end.

(** ** The operators *)

Definition estimate_scan_cost (p : PlanNode) : outcome PlanCost :=
  b ← int_mul (rows p) (width p);
  let disk_io := d_div (d_of_Z b) (d_of_Z 1024) in
  let memory_access := d_mul disk_io (d_lit 4 5) in
  let cpu := d_mul (d_of_Z (rows p)) CPU_COST in
  Ret (MkCost (d_mul disk_io DISK_IO_COST) (d_mul memory_access MEMORY_ACCESS_COST) cpu (d_of_Z 0)).

Definition estimate_join_cost (estimate_cost : PlanNode -> outcome PlanCost) (p : PlanNode)
    : outcome PlanCost :=
  match children p with
  | [] => Undef index_out_of_range
  | l :: cs =>
      left_cost ← on_child estimate_cost l;
      match cs with
      | [] => Undef index_out_of_range
      | r :: _ =>
          right_cost ← on_child estimate_cost r;
          let output_rows := d_of_Z (rows p) in
          let memory_access := d_div (d_mul output_rows (d_of_Z (width p))) (d_of_Z 1024) in
          let cpu := d_mul (d_mul output_rows CPU_COST) (d_of_Z 2) in
          Ret (MkCost
            (d_add (disk_io_cost left_cost) (disk_io_cost right_cost))
            (d_add (d_add (memory_access_cost left_cost) (memory_access_cost right_cost))
                   (d_mul memory_access MEMORY_ACCESS_COST))
            (d_add (d_add (cpu_cost left_cost) (cpu_cost right_cost)) cpu)
            (d_of_Z 0))
      end
  end.

Definition estimate_aggregation_cost (estimate_cost : PlanNode -> outcome PlanCost) (p : PlanNode)
    : outcome PlanCost :=
  match children p with
  | [] => Undef index_out_of_range
  | c :: _ =>
      input_cost ← on_child estimate_cost c;
      let cpu := d_mul (d_mul (d_of_Z (rows p)) CPU_COST) (d_lit 3 2) in
      Ret (MkCost (disk_io_cost input_cost) (memory_access_cost input_cost)
             (d_add (cpu_cost input_cost) cpu) (d_of_Z 0))
  end.

Definition estimate_sort_cost (estimate_cost : PlanNode -> outcome PlanCost) (p : PlanNode)
    : outcome PlanCost :=
  match children p with
  | [] => Undef index_out_of_range
  | c :: _ =>
      input_cost ← on_child estimate_cost c;
      b ← int_mul (rows p) (width p);
      let memory_access := d_div (d_of_Z b) (d_of_Z 512) in
      let cpu := d_mul (d_mul (d_of_Z (rows p)) CPU_COST) (d_of_Z 2) in
      Ret (MkCost (disk_io_cost input_cost)
             (d_add (memory_access_cost input_cost) (d_mul memory_access MEMORY_ACCESS_COST))
             (d_add (cpu_cost input_cost) cpu) (d_of_Z 0))
  end.

Definition estimate_filter_cost (estimate_cost : PlanNode -> outcome PlanCost) (p : PlanNode)
    : outcome PlanCost :=
  match children p with
  | [] => Undef index_out_of_range
  | c :: _ =>
      input_cost ← on_child estimate_cost c;
      let output_rows := d_mul (d_of_Z (rows p)) (selectivity p) in
      let cpu := d_mul (d_mul output_rows CPU_COST) (d_lit 1 2) in
      Ret (MkCost (disk_io_cost input_cost) (memory_access_cost input_cost)
             (d_add (cpu_cost input_cost) cpu) (d_of_Z 0))
  end.

Definition estimate_insert_cost (p : PlanNode) : outcome PlanCost :=
  b ← int_mul (rows p) (width p);
  let disk_io := d_div (d_of_Z b) (d_of_Z 1024) in
  let cpu := d_mul (d_mul (d_of_Z (rows p)) CPU_COST) (d_lit 4 5) in
  Ret (MkCost (d_mul disk_io DISK_IO_COST) (d_of_Z 0) cpu (d_of_Z 0)).

Definition estimate_update_cost (p : PlanNode) : outcome PlanCost :=
  b ← int_mul (rows p) (width p);
  let disk_io := d_div (d_of_Z b) (d_of_Z 1024) in
  let cpu := d_mul (d_of_Z (rows p)) CPU_COST in
  Ret (MkCost (d_mul disk_io DISK_IO_COST) (d_of_Z 0) cpu (d_of_Z 0)).

Definition estimate_delete_cost (p : PlanNode) : outcome PlanCost :=
  b ← int_mul (rows p) (width p);
  let disk_io := d_div (d_of_Z b) (d_of_Z 1024) in
  let cpu := d_mul (d_mul (d_of_Z (rows p)) CPU_COST) (d_lit 1 2) in
  Ret (MkCost (d_mul disk_io DISK_IO_COST) (d_of_Z 0) cpu (d_of_Z 0)).

Fixpoint estimate_cost (p : PlanNode) : outcome PlanCost :=
  match node_type p with
  | SCAN => estimate_scan_cost p
  | JOIN => estimate_join_cost estimate_cost p
  | AGGREGATION => estimate_aggregation_cost estimate_cost p
  | SORT => estimate_sort_cost estimate_cost p
  | FILTER => estimate_filter_cost estimate_cost p
  | INSERT => estimate_insert_cost p
  | UPDATE => estimate_update_cost p
  | DELETE => estimate_delete_cost p
  end.

(** The plan of [main]. *)
Definition scan_node : PlanNode := MkPlan SCAN 100000 128 (d_of_Z 1) [].
Definition join_node : PlanNode :=
  MkPlan JOIN 50000 256 (d_of_Z 1) [Some scan_node; Some scan_node].
Definition agg_node : PlanNode := MkPlan AGGREGATION 5000 256 (d_of_Z 1) [Some join_node].

Example main_cost :
  estimate_cost agg_node = Ret (MkCost (d_of_Z 125000) (d_of_Z 32500) (d_of_Z 153750) (d_of_Z 0)) /\
  (c ← estimate_cost agg_node; Ret (total_cost c)) = Ret (d_of_Z 311250).
Proof. split; vm_compute; reflexivity. Qed.

(** A table of two gigabytes is out of the range of the estimator. *)
Example scan_overflow :
  estimate_cost (MkPlan SCAN 1000000 4096 (d_of_Z 1) []) = Undef signed_overflow.
Proof. vm_compute. reflexivity. Qed.

(** ** Which plans can be estimated *)

Section PlanInd.
Variable P : PlanNode -> Prop.
Hypothesis step : forall t r w s cs,
  Forall (fun o => match o with Some c => P c | None => True end) cs -> P (MkPlan t r w s cs).

Lemma plan_ind p : P p.
Proof.
  revert p. fix IH 1. intros [t r w s cs]. apply step.
  induction cs as [|[c|] cs IHcs]; constructor; auto.
Qed.
End PlanInd.

Definition fits (p : PlanNode) : bool := bool_decide (int_min <= rows p * width p <= int_max).

Definition on_first (f : PlanNode -> bool) (cs : list (option PlanNode)) : bool :=
  match cs with
  | Some c :: _ => f c
  | _ => false
  end.

(** The operators have the inputs they read, and no product of [int]s overflows. *)
Fixpoint estimable (p : PlanNode) : bool :=
  match node_type p with
  | SCAN | INSERT | UPDATE | DELETE => fits p
  | JOIN =>
      match children p with
      | Some l :: Some r :: _ => estimable l && estimable r
      | _ => false
      end
  | AGGREGATION | FILTER => on_first estimable (children p)
  | SORT => on_first estimable (children p) && fits p
  end.

(** Sizes are not negative and selectivities are numbers from zero on, wherever they are read. *)
Definition sane_node (p : PlanNode) : bool :=
  bool_decide (0 <= rows p <= int_max) && bool_decide (0 <= width p <= int_max) &&
  finite_nonneg (selectivity p).

Fixpoint sane (p : PlanNode) : bool :=
  sane_node p &&
  match node_type p with
  | SCAN | INSERT | UPDATE | DELETE => true
  | JOIN =>
      match children p with
      | Some l :: Some r :: _ => sane l && sane r
      | _ => true
      end
  | AGGREGATION | FILTER | SORT =>
      match children p with
      | Some c :: _ => sane c
      | _ => true
      end
  end.

Definition cost_ok (c : PlanCost) : Prop :=
  nonneg (disk_io_cost c) = true /\ nonneg (memory_access_cost c) = true /\
  nonneg (cpu_cost c) = true /\ network_cost c = d_of_Z 0.

Lemma int_mul_cases a b :
  (bool_decide (int_min <= a * b <= int_max) = true /\ int_mul a b = Ret (a * b)) \/
  (bool_decide (int_min <= a * b <= int_max) = false /\ int_mul a b = Undef signed_overflow).
Proof. unfold int_mul. destruct (bool_decide _); auto. Qed.

(** The estimate of [p] is as [estimable] says, and its parts are as they should be. *)
Definition estimate_ok (p : PlanNode) : Prop :=
  if estimable p
  then exists c, estimate_cost p = Ret c /\ (sane p = true -> cost_ok c)
  else exists u, estimate_cost p = Undef u.

Lemma sane_node_iff p :
  sane_node p = true <->
  0 <= rows p <= int_max /\ 0 <= width p <= int_max /\ finite_nonneg (selectivity p) = true.
Proof. unfold sane_node. rewrite !andb_true_iff, !bool_decide_eq_true. tauto. Qed.

Create HintDb cost.
#[local] Hint Resolve d_add_nonneg d_mul_nonneg d_div_nonneg d_of_Z_nonneg : cost.
#[local] Hint Extern 1 (positive _ = true) => vm_compute; reflexivity : cost.
#[local] Hint Extern 1 (nonneg (d_of_Z 0) = true) => reflexivity : cost.
#[local] Hint Extern 1 (0 <= _)%Z => lia : cost.

Ltac costs :=
  repeat split; cbn [disk_io_cost memory_access_cost cpu_cost rows width selectivity];
  eauto 10 with cost.

(** The operators without input, which read the product of rows and width. *)
Lemma estimate_leaf_ok t r w s cs :
  t = SCAN \/ t = INSERT \/ t = UPDATE \/ t = DELETE -> estimate_ok (MkPlan t r w s cs).
Proof.
  intros Ht. unfold estimate_ok.
  assert (estimable (MkPlan t r w s cs) = fits (MkPlan t r w s cs)) as ->
    by (by destruct Ht as [->|[->|[->| ->]]]).
  unfold fits; cbn [rows width].
  destruct (int_mul_cases r w) as [[-> Hm]|[-> Hm]];
    destruct Ht as [->|[->|[->| ->]]]; cbn [estimate_cost node_type];
    unfold estimate_scan_cost, estimate_insert_cost, estimate_update_cost, estimate_delete_cost;
    cbn [rows width]; rewrite Hm; obind; eexists; try done; (split; [done|]);
    cbn [sane node_type]; rewrite andb_true_r, sane_node_iff; cbn [rows width selectivity];
    intros ([? ?] & [? ?] & _); assert (0 <= r * w) by (apply Z.mul_nonneg_nonneg; lia); costs.
Qed.

(** The estimate of the first input. *)
Lemma on_first_ok cs :
  Forall (fun o => match o with Some c => estimate_ok c | None => True end) cs ->
  if on_first estimable cs
  then exists c cs' k, cs = Some c :: cs' /\ on_child estimate_cost (Some c) = Ret k /\
         (sane c = true -> cost_ok k)
  else cs = [] \/ exists o cs' u, cs = o :: cs' /\ on_child estimate_cost o = Undef u.
Proof.
  destruct cs as [|[c|] cs]; cbn [on_first]; [by left| |].
  - intros [Hc _]%Forall_cons. unfold estimate_ok in Hc. destruct (estimable c).
    + destruct Hc as (k & Hk & Hok). by exists c, cs, k.
    + destruct Hc as [u Hu]. right. by exists (Some c), cs, u.
  - intros _. right. by exists None, cs, null_pointer.
Qed.

Lemma estimate_unary_ok t r w s cs :
  t = AGGREGATION \/ t = SORT \/ t = FILTER ->
  Forall (fun o => match o with Some c => estimate_ok c | None => True end) cs ->
  estimate_ok (MkPlan t r w s cs).
Proof.
  intros Ht IH. pose proof (on_first_ok cs IH) as Hf. unfold estimate_ok.
  destruct (on_first estimable cs) eqn:He.
  - destruct Hf as (c & cs' & k & -> & Hk & Hok).
    destruct Ht as [->|[->| ->]]; cbn [estimable node_type children];
      unfold fits; cbn [rows width]; rewrite He; cbn [andb estimate_cost node_type];
      unfold estimate_aggregation_cost, estimate_sort_cost, estimate_filter_cost;
      cbn [children rows width selectivity];
      try (destruct (int_mul_cases r w) as [[-> Hm]|[-> Hm]]);
      rewrite Hk; obind; rewrite ?Hm; obind; eexists; try done; (split; [done|]);
      cbn [sane node_type children]; rewrite andb_true_iff, sane_node_iff;
      cbn [rows width selectivity]; intros [([? ?] & [? ?] & ?) Hs];
      destruct (Hok Hs) as (? & ? & ? & _);
      try (assert (0 <= r * w) by (apply Z.mul_nonneg_nonneg; lia)).
    + costs.
    + costs.
    + assert (nonneg (d_mul (d_of_Z r) s) = true).
      { apply d_mul_finite_nonneg; [|done]. apply d_of_Z_finite. unfold int_max in *. lia. }
      costs.
  - assert (estimable (MkPlan t r w s cs) = false) as ->
      by (destruct Ht as [->|[->| ->]]; cbn [estimable node_type children]; by rewrite He).
    destruct Hf as [->|(o & cs' & u & -> & Hu)];
      destruct Ht as [->|[->| ->]]; cbn [estimate_cost node_type];
      unfold estimate_aggregation_cost, estimate_sort_cost, estimate_filter_cost; cbn [children];
      rewrite ?Hu; by eexists.
Qed.

Lemma estimate_join_ok r w s cs :
  Forall (fun o => match o with Some c => estimate_ok c | None => True end) cs ->
  estimate_ok (MkPlan JOIN r w s cs).
Proof.
  intros IH. unfold estimate_ok. cbn [estimable node_type children estimate_cost].
  unfold estimate_join_cost; cbn [children rows width].
  destruct cs as [|[a|] cs]; [by eexists| |by eexists].
  apply Forall_cons in IH as [Ha IH]. unfold estimate_ok in Ha. cbn [on_child].
  destruct cs as [|[b|] cs].
  - destruct (estimable a); [destruct Ha as (k & -> & _)|destruct Ha as [u ->]]; by eexists.
  - apply Forall_cons in IH as [Hb _]. unfold estimate_ok in Hb. cbn [on_child].
    destruct (estimable a); [|destruct Ha as [u ->]; by eexists].
    destruct Ha as (ka & -> & Hka). obind.
    destruct (estimable b); [|destruct Hb as [u ->]; by eexists].
    destruct Hb as (kb & -> & Hkb). obind. eexists. split; [done|].
    cbn [sane node_type children]. rewrite !andb_true_iff, sane_node_iff.
    cbn [rows width selectivity]. intros (([? ?] & [? ?] & ?) & Hsa & Hsb).
    destruct (Hka Hsa) as (? & ? & ? & _), (Hkb Hsb) as (? & ? & ? & _).
    assert (nonneg (d_mul (d_of_Z r) (d_of_Z w)) = true).
    { apply d_mul_finite_nonneg; apply d_of_Z_finite; unfold int_max in *; lia. }
    costs.
  - destruct (estimable a); [destruct Ha as (k & -> & _)|destruct Ha as [u ->]]; by eexists.
Qed.

Lemma estimate_cost_ok p : estimate_ok p.
Proof.
  induction p as [t r w s cs IH] using plan_ind.
  destruct t; [apply estimate_leaf_ok|by apply estimate_join_ok|apply estimate_unary_ok|
    apply estimate_unary_ok|apply estimate_unary_ok|apply estimate_leaf_ok..]; auto.
Qed.

(** ** Theorems *)

(** C28.  [estimate_cost] returns exactly for the plans whose operators have the inputs they read and
    whose products of rows and width fit an [int], and is undefined for every other plan.  With sizes
    that are not negative and finite selectivities every part of the cost, and the total, is a number
    from zero on, never a NaN, and the network cost is zero. *)
Theorem cost_estimate_defined (p : PlanNode) :
  if estimable p
  then exists c, estimate_cost p = Ret c /\
         (sane p = true ->
          nonneg (disk_io_cost c) = true /\ nonneg (memory_access_cost c) = true /\
          nonneg (cpu_cost c) = true /\ network_cost c = d_of_Z 0 /\ nonneg (total_cost c) = true)
  else exists u, estimate_cost p = Undef u.
Proof.
  pose proof (estimate_cost_ok p) as H. unfold estimate_ok in H. destruct (estimable p); [|done].
  destruct H as (c & Hc & Hok). exists c. split; [done|]. intros Hs.
  destruct (Hok Hs) as (Hd & Hm & Hp & Hn). do 4 (split; [done|]).
  unfold total_cost. rewrite Hn. auto 10 with cost.
Qed.

(** ** The program *)

(** [main]: the total and the four parts it prints. *)
Definition main : outcome (list double) :=
  agg_cost ← estimate_cost agg_node;
  Ret [total_cost agg_cost; disk_io_cost agg_cost; memory_access_cost agg_cost; cpu_cost agg_cost;
       network_cost agg_cost].

Example cost_main : main = Ret (d_of_Z <$> [311250; 125000; 32500; 153750; 0]).
Proof. vm_compute. reflexivity. Qed.
