(* ===== verification/PlanGraph.v ===== *)
(** * Plans as graphs

    Logical plans and the plan generator keep a plan as nodes that own their children through
    [std::shared_ptr], to which children are added after construction: the nodes are kept in a heap, a
    pointer is an index into it, and a node may be the child of several.  [std::cout] is the sequence
    of what was inserted into it. *)

From S2P Require Import Prelude Floats.
Local Open Scope prog_scope.

(** ** Nodes and output *)

(** What is inserted into a stream. *)
Inductive token : Type :=
| Str (s : string)
| Dbl (d : double)
| Endl.

Abbreviation ptr := (option nat).

Record Node (K : Type) : Type := MkNode { kind : K; children : list ptr }.
Arguments MkNode {K} kind children.
Arguments kind {K} n.
Arguments children {K} n.

Record State (K : Type) : Type := MkState { heap : list (Node K); cout : list token }.
Arguments MkState {K} heap cout.
Arguments heap {K} s.
Arguments cout {K} s.

(** The plan below a pointer. *)
Inductive tree (K : Type) : Type := Tree (k : K) (cs : list (tree K)).
Arguments Tree {K} k cs.

Section graph.
Context {K : Type}.

(** [std::make_shared] of a node. *)
Definition make_shared (k : K) : prog (State K) ptr := fun s =>
  (MkState (heap s ++ [MkNode k []]) (cout s), Ret (Some (length (heap s)))).

Definition deref (p : ptr) : prog (State K) (Node K) := fun s =>
  match p ≫= (fun a => heap s !! a) with
  | Some n => (s, Ret n)
  | None => (s, Undef null_pointer)
  end.

(** [parent->children.push_back(child)] *)
Definition push_child (parent child : ptr) : prog (State K) unit := fun s =>
  match parent ≫= (fun a => (fun n => (a, n)) <$> heap s !! a) with
  | Some (a, n) =>
      (MkState (<[a := MkNode (kind n) (children n ++ [child])]> (heap s)) (cout s), Ret tt)
  | None => (s, Undef null_pointer)
  end.

Definition print (ts : list token) : prog (State K) unit :=
  prog_modify (fun s => MkState (heap s) (cout s ++ ts)).

(** A loop over the children of a node. *)
Fixpoint for_each (f : ptr -> prog (State K) unit) (ps : list ptr) : prog (State K) unit :=
  match ps with
  | [] => prog_ret tt
  | p :: ps => f p;;; for_each f ps
  end.

(** The plan below a pointer, when no pointer of it is null and no path is longer than [fuel]. *)
Fixpoint unfolding (fuel : nat) (h : list (Node K)) (p : ptr) : option (tree K) :=
  match fuel with
  | O => None
  | S n =>
      nd ← p ≫= (fun a => h !! a);
      Tree (kind nd) <$> mapM (unfolding n h) (children nd)
  end.

Fixpoint preorder (t : tree K) : list K :=
  match t with
  | Tree k cs => k :: concat (preorder <$> cs)
  end.

Lemma unfolding_S n h p t :
  unfolding (S n) h p = Some t ->
  exists a nd cs, p = Some a /\ h !! a = Some nd /\ t = Tree (kind nd) cs /\
    Forall2 (fun p c => unfolding n h p = Some c) (children nd) cs.
Proof.
  cbn. destruct p as [a|]; [|done]. cbn. destruct (h !! a) as [nd|] eqn:Ha; [|done]. cbn.
  intros (cs & Hcs & ->)%fmap_Some. exists a, nd, cs. split_and!; try done.
  by apply mapM_Some.
Qed.

Lemma deref_ok s a n : heap s !! a = Some n -> deref (Some a) s = (s, Ret n).
Proof. intros Hn. unfold deref. cbn. by rewrite Hn. Qed.

End graph.
