(* ===== verification/LogicalPlan.v ===== *)
(** * Logical plans (src/query_processor/planner/logical_plan.cpp)

    The operations of a logical plan, whose [execute] functions print what they would do, and the tree of
    nodes that executes them. *)

From S2P Require Import Prelude PlanGraph.
Local Open Scope prog_scope.

(** ** Operations *)

Inductive LogicalOperationType : Set := SCAN | PROJECT | FILTER | JOIN | AGGREGATE | SORT.

(** The classes derived from [LogicalOperation]. *)
Inductive LogicalOperation : Type :=
| LogicalScan (tableName : string)
| LogicalProject (columns : list string)
| LogicalFilter (condition : string)
| LogicalJoin (joinType leftTable rightTable condition : string)
| LogicalAggregate (groupByColumns : list string) (aggregateFunction targetColumn : string)
| LogicalSort (orderByColumns : list string) (ascending : bool).

Definition getOperationType (op : LogicalOperation) : LogicalOperationType :=
  match op with
  | LogicalScan _ => SCAN
  | LogicalProject _ => PROJECT
  | LogicalFilter _ => FILTER
  | LogicalJoin _ _ _ _ => JOIN
  | LogicalAggregate _ _ _ => AGGREGATE
  | LogicalSort _ _ => SORT
  end.

(** [for (col : columns) std::cout << col << " ";] *)
Definition spaced (columns : list string) : list token := columns ≫= (fun col => [Str col; Str " "]).

(** What [execute] of an operation inserts into [std::cout]. *)
Definition operation_text (op : LogicalOperation) : list token :=
  match op with
  | LogicalScan tableName => [Str "Scanning table: "; Str tableName; Endl]
  | LogicalProject columns => [Str "Projecting columns: "] ++ spaced columns ++ [Endl]
  | LogicalFilter condition => [Str "Applying filter: "; Str condition; Endl]
  | LogicalJoin joinType leftTable rightTable condition =>
      [Str "Performing "; Str joinType; Str " join between "; Str leftTable; Str " and ";
       Str rightTable; Str " on condition: "; Str condition; Endl]
  | LogicalAggregate groupByColumns aggregateFunction targetColumn =>
      [Str "Performing aggregation ("; Str aggregateFunction; Str ") on column: ";
       Str targetColumn; Str " with group by: "] ++ spaced groupByColumns ++ [Endl]
  | LogicalSort orderByColumns ascending =>
      [Str "Sorting by columns: "] ++ spaced orderByColumns ++
      [Str (if ascending then "ASC" else "DESC"); Endl]
  end.

(** A [LogicalPlanNode] with its operation, which may be a null pointer. *)
Definition LogicalPlanNode (operation : option LogicalOperation)
  : prog (State (option LogicalOperation)) ptr := make_shared operation.

Definition addChild (node child : ptr) : prog (State (option LogicalOperation)) unit :=
  push_child node child.

(** [operation->execute()] *)
Definition execute_operation (op : option LogicalOperation)
  : prog (State (option LogicalOperation)) unit :=
  match op with
  | Some op => print (operation_text op)
  | None => prog_undef null_pointer
  end.

(** [LogicalPlanNode::execute]; the recursion follows the children. *)
Fixpoint execute_node (fuel : nat) (p : ptr) : prog (State (option LogicalOperation)) unit :=
  match fuel with
  | O => fun s => (s, Hang)
  | S n =>
      let! nd := deref p in
      execute_operation (kind nd);;;
      for_each (execute_node n) (children nd)
  end.

(** [LogicalPlan::execute] *)
Definition execute (fuel : nat) (rootNode : ptr) : prog (State (option LogicalOperation)) unit :=
  match rootNode with
  | Some _ => execute_node fuel rootNode
  | None => prog_ret tt
  end.

(** ** What is printed *)

Fixpoint text (ops : list (option LogicalOperation)) : list token :=
  match ops with
  | [] => []
  | op :: ops => default [] (operation_text <$> op) ++ text ops
  end.

Lemma text_app xs ys : text (xs ++ ys) = text xs ++ text ys.
Proof. induction xs as [|x xs IH]; [done|]. cbn. by rewrite IH, app_assoc. Qed.

Definition prints (f : prog (State (option LogicalOperation)) unit)
  (s : State (option LogicalOperation)) (ts : list token) : Prop :=
  f s = (MkState (heap s) (cout s ++ ts), Ret tt).

Lemma for_each_prints n h ps cs :
  (forall s p t, heap s = h -> unfolding n h p = Some t -> Forall is_Some (preorder t) ->
     prints (execute_node n p) s (text (preorder t))) ->
  Forall2 (fun p c => unfolding n h p = Some c) ps cs ->
  Forall is_Some (concat (preorder <$> cs)) ->
  forall s, heap s = h -> prints (for_each (execute_node n) ps) s (text (concat (preorder <$> cs))).
Proof.
  intros IH Hcs. induction Hcs as [|p c ps cs Hp Hps IHps]; intros Hops s Hh.
  - unfold prints. cbn. rewrite app_nil_r. by destruct s.
  - cbn in Hops. apply Forall_app in Hops as [Hc Hcs]. cbn. rewrite text_app.
    unfold prints, prog_bind. cbn. rewrite (IH s p c Hh Hp Hc).
    rewrite IHps; [|done|done]. cbn. by rewrite app_assoc.
Qed.

Lemma execute_node_prints n : forall s p t,
  unfolding n (heap s) p = Some t -> Forall is_Some (preorder t) ->
  prints (execute_node n p) s (text (preorder t)).
Proof.
  induction n as [|n IH]; intros s p t; [done|].
  intros (a & nd & cs & -> & Ha & -> & Hcs)%unfolding_S. cbn [preorder].
  intros [[op Hop] Hops]%Forall_cons. unfold prints. cbn [execute_node]. unfold prog_bind at 1.
  rewrite (deref_ok _ _ _ Ha), Hop. cbn [execute_operation]. unfold prog_bind, print, prog_modify.
  cbn [text default fmap option_fmap option_map].
  rewrite (for_each_prints n (heap s) _ cs); [cbn; by rewrite <-app_assoc| |done|done|done].
  intros s' p t Hs' Ht Hall. apply IH; [by rewrite Hs'|done].
Qed.

(** A logical plan with no null pointer and no cycle is executed in preorder: [execute] returns, the
    operation of each node is printed before those of its children, the children from left to right,
    a node that is shared once for each path to it, and no node changes.  An empty plan prints nothing. *)
Lemma logical_plan_prints fuel s root t :
  unfolding fuel (heap s) root = Some t -> Forall is_Some (preorder t) ->
  execute fuel root s = (MkState (heap s) (cout s ++ text (preorder t)), Ret tt) /\
  execute fuel None s = (s, Ret tt).
Proof.
  intros Ht Hops. split; [|done]. destruct root as [a|]; [|by destruct fuel].
  by apply execute_node_prints.
Qed.

(** The plan that [main] builds. *)
Definition main_plan : prog (State (option LogicalOperation)) ptr :=
  let! scanNode := LogicalPlanNode (Some (LogicalScan "Employees")) in
  let! filterNode := LogicalPlanNode (Some (LogicalFilter "salary > 50000")) in
  let! projectNode := LogicalPlanNode (Some (LogicalProject ["name"; "salary"])) in
  let! sortNode := LogicalPlanNode (Some (LogicalSort ["salary"] true)) in
  addChild filterNode scanNode;;;
  addChild projectNode filterNode;;;
  addChild sortNode projectNode;;;
  prog_ret sortNode.

Definition main_state : State (option LogicalOperation) := (main_plan (MkState [] [])).1.

Lemma logical_plan_prints_witness :
  exists t, unfolding 4 (heap main_state) (Some 3) = Some t /\
    execute 4 (Some 3) main_state =
      (MkState (heap main_state)
         ([Str "Sorting by columns: "; Str "salary"; Str " "; Str "ASC"; Endl;
           Str "Projecting columns: "; Str "name"; Str " "; Str "salary"; Str " "; Endl;
           Str "Applying filter: "; Str "salary > 50000"; Endl;
           Str "Scanning table: "; Str "Employees"; Endl]), Ret tt).
Proof.
  edestruct (logical_plan_prints 4 main_state (Some 3)) as [He _];
    [vm_compute; reflexivity|repeat constructor; eexists; reflexivity|].
  eexists. split; [vm_compute; reflexivity|exact He].
Defined.

(** A node that is its own child is executed for ever. *)
Lemma execute_cycle fuel op out :
  exists out', execute_node fuel (Some 0) (MkState [MkNode (Some op) [Some 0]] out) =
    (MkState [MkNode (Some op) [Some 0]] out', Hang).
Proof.
  revert out. induction fuel as [|n IH]; intros out; [by exists out|].
  cbn [execute_node]. unfold prog_bind at 1. rewrite (deref_ok _ 0 (MkNode (Some op) [Some 0])) by done.
  unfold prog_bind. cbn. unfold prog_bind. destruct (IH (out ++ operation_text op)) as [out' ->]. eauto.
Qed.
