(* ===== verification/PlanGenerator.v ===== *)
(** * The plan generator (src/query_processor/optimizer/plan_generator.cpp)

    The nodes of a plan with their costs and descriptions, the estimate of the cost of a plan, and the
    physical plan that the generator makes of a logical one. *)

From S2P Require Import Prelude Text Floats PlanGraph.
Local Open Scope prog_scope.

(** ** Nodes *)

(** The classes derived from [PlanNode]. *)
Inductive PlanNode : Type :=
| ScanNode (tableName : string)
| SelectNode (predicate : string)
| JoinNode (joinType : string)
| ProjectNode (columns : list string).

Definition getCost (n : PlanNode) : double :=
  match n with
  | ScanNode _ => d_of_Z 100
  | SelectNode _ => d_of_Z 10
  | JoinNode _ => d_of_Z 300
  | ProjectNode _ => d_of_Z 5
  end.

(** [std::string::pop_back]; the last character of an empty string is not there to remove. *)
Fixpoint pop_back (s : string) : option string :=
  match s with
  | EmptyString => None
  | String _ EmptyString => Some EmptyString
  | String c s => String c <$> pop_back s
  end.

Definition joinColumns (columns : list string) : outcome string :=
  let result := fold_left (fun result col => result +:+ (col +:+ ", ")) columns ""%string in
  if decide (result = ""%string) then Ret result
  else match pop_back result ≫= pop_back with
       | Some result => Ret result
       | None => Undef empty_container
       end.

Definition getDescription (n : PlanNode) : outcome string :=
  match n with
  | ScanNode tableName => Ret ("Table Scan: " +:+ tableName)
  | SelectNode predicate => Ret ("Selection: " +:+ predicate)
  | JoinNode joinType => Ret ("Join: " +:+ joinType)
  | ProjectNode columns => cols ← joinColumns columns; Ret ("Projection: " +:+ cols)
  end.

(** The loop of [CostEstimator::estimateCost] over the children. *)
Fixpoint add_costs (estimate : ptr -> prog (State PlanNode) double) (totalCost : double)
  (ps : list ptr) : prog (State PlanNode) double :=
  match ps with
  | [] => prog_ret totalCost
  | child :: ps =>
      let! cost := estimate child in add_costs estimate (d_add totalCost cost) ps
  end.

(** [CostEstimator::estimateCost]; the recursion follows the children. *)
Fixpoint estimateCost (fuel : nat) (plan : ptr) : prog (State PlanNode) double :=
  match fuel with
  | O => fun s => (s, Hang)
  | S n =>
      let! nd := deref plan in
      add_costs (estimateCost n) (getCost (kind nd)) (children nd)
  end.

(** [PlanGenerator::generatePlan]: a physical plan is the root of the logical one. *)
Definition generatePlan (fuel : nat) (root : ptr) : prog (State PlanNode) ptr :=
  let! cost := estimateCost fuel root in
  print [Str "Estimated query cost: "; Dbl cost; Endl];;;
  prog_ret root.

(** [PhysicalPlan::execute] *)
Definition execute (root : ptr) : prog (State PlanNode) unit :=
  print [Str "Executing query plan..."; Endl];;;
  let! nd := deref root in
  match getDescription (kind nd) with
  | Ret d => print [Str "Plan: "; Str d; Endl]
  | Throw e => prog_throw e
  | Hang => fun s => (s, Hang)
  | Undef u => prog_undef u
  end.

(** ** Descriptions *)

(** The columns with ", " between them. *)
Fixpoint separated (columns : list string) : string :=
  match columns with
  | [] => ""
  | [col] => col
  | col :: cols => col +:+ ", " +:+ separated cols
  end.

Lemma pop_back_snoc s c : pop_back (s +:+ String c "") = Some s.
Proof.
  induction s as [|a [|b s] IH]; [done|done|].
  change (String a <$> pop_back (String b s +:+ String c "") = Some (String a (String b s))).
  by rewrite IH.
Qed.

Lemma fold_columns cols acc :
  fold_left (fun result col => result +:+ (col +:+ ", ")) cols acc =
  match cols with
  | [] => acc
  | _ => acc +:+ separated cols +:+ ", "
  end.
Proof.
  revert acc. induction cols as [|col cols IH]; intros acc; [done|]. cbn [fold_left]. rewrite IH.
  destruct cols as [|c cols]; [done|]. cbn [separated]. by rewrite !app_string_assoc.
Qed.

(** The loop and the two [pop_back]s put the separator between the columns only. *)
Lemma joinColumns_separated cols : joinColumns cols = Ret (separated cols).
Proof.
  unfold joinColumns. rewrite fold_columns. destruct cols as [|c cols]; [done|].
  set (r := separated (c :: cols)). change ("" +:+ ?x) with x.
  rewrite decide_False by (destruct r; done).
  change ", " with ("," +:+ " ").
  rewrite <-app_string_assoc, pop_back_snoc. cbn. by rewrite pop_back_snoc.
Qed.

Definition description (n : PlanNode) : string :=
  match n with
  | ScanNode tableName => "Table Scan: " +:+ tableName
  | SelectNode predicate => "Selection: " +:+ predicate
  | JoinNode joinType => "Join: " +:+ joinType
  | ProjectNode columns => "Projection: " +:+ separated columns
  end.

Lemma getDescription_ok n : getDescription n = Ret (description n).
Proof. destruct n; try done. cbn. by rewrite joinColumns_separated. Qed.

(** ** Costs *)

Definition node_cost (n : PlanNode) : Z :=
  match n with
  | ScanNode _ => 100
  | SelectNode _ => 10
  | JoinNode _ => 300
  | ProjectNode _ => 5
  end.

(** The sum of the costs of the nodes of a plan. *)
Definition total_cost (t : tree PlanNode) : Z := foldr Z.add 0%Z (node_cost <$> preorder t).
Definition total_costs (cs : list (tree PlanNode)) : Z :=
  foldr Z.add 0%Z (node_cost <$> concat (preorder <$> cs)).

Lemma sum_app xs ys : foldr Z.add 0%Z (xs ++ ys) = (foldr Z.add 0 xs + foldr Z.add 0 ys)%Z.
Proof. induction xs as [|x xs IH]; cbn; lia. Qed.

Lemma total_costs_cons c cs : total_costs (c :: cs) = (total_cost c + total_costs cs)%Z.
Proof. unfold total_costs, total_cost. cbn. by rewrite fmap_app, sum_app. Qed.

Lemma sum_nonneg ks : (0 <= foldr Z.add 0 (node_cost <$> ks))%Z.
Proof. induction ks as [|k ks IH]; cbn; [lia|]. destruct k; cbn; lia. Qed.

Lemma getCost_exact n : getCost n = d_of_Z (node_cost n).
Proof. by destruct n. Qed.

(** The estimate is the exact sum as long as it is below [2^53]. *)
Lemma estimateCost_exact fuel : forall s p t,
  unfolding fuel (heap s) p = Some t -> (total_cost t < 2 ^ 53)%Z ->
  estimateCost fuel p s = (s, Ret (d_of_Z (total_cost t))).
Proof.
  induction fuel as [|n IH]; intros s p t; [done|].
  intros (a & nd & cs & -> & Ha & -> & Hcs)%unfolding_S. cbn [estimateCost].
  unfold prog_bind at 1. rewrite (deref_ok _ _ _ Ha), getCost_exact.
  change (total_cost (Tree (kind nd) cs)) with (node_cost (kind nd) + total_costs cs)%Z.
  pose proof (sum_nonneg [kind nd]) as H0. cbn in H0. rewrite Z.add_0_r in H0.
  revert H0. generalize (node_cost (kind nd)) as z.
  induction Hcs as [|p c ps cs Hp Hps IHps]; intros z Hz Hlt.
  - cbn. by rewrite Z.add_0_r.
  - rewrite total_costs_cons in Hlt |- *.
    pose proof (sum_nonneg (preorder c)) as Hc. fold (total_cost c) in Hc.
    pose proof (sum_nonneg (concat (preorder <$> cs))) as Hrest. fold (total_costs cs) in Hrest.
    cbn [add_costs]. unfold prog_bind at 1. rewrite (IH s p c Hp) by lia. rewrite d_add_exact by lia.
    rewrite IHps by lia. by rewrite Z.add_assoc.
Qed.

(** For a plan with no null pointer and no cycle whose nodes' costs add up to less than [2^53],
    [generatePlan] returns: the floating-point estimate is the exact sum of the costs of its nodes, it
    is printed, and the physical plan it returns is the root of the logical one; executing that prints
    the description of the root, the columns of a projection separated by commas with none at the end,
    and nothing of the nodes below. *)
Lemma plan_generator_output fuel s root t :
  unfolding fuel (heap s) root = Some t -> (total_cost t < 2 ^ 53)%Z ->
  exists s', generatePlan fuel root s = (s', Ret root) /\
    cout s' = cout s ++ [Str "Estimated query cost: "; Dbl (d_of_Z (total_cost t)); Endl] /\
    heap s' = heap s /\
    execute root s' =
      (MkState (heap s) (cout s' ++ [Str "Executing query plan..."; Endl;
         Str "Plan: "; Str (default "" (description <$> head (preorder t))); Endl]), Ret tt).
Proof.
  intros Ht Hlt. unfold generatePlan, prog_bind. rewrite (estimateCost_exact fuel s root t Ht Hlt).
  eexists. split_and!; [done|done|done|].
  destruct fuel as [|n]; [done|]. apply unfolding_S in Ht as (a & nd & cs & -> & Ha & -> & _).
  unfold execute, prog_bind. cbn [print prog_modify heap cout].
  rewrite (deref_ok _ a nd) by done. rewrite getDescription_ok. unfold print, prog_modify. cbn [heap cout]. by rewrite <-app_assoc.
Qed.

(** The plan of [main]. *)
Definition main_plan : prog (State PlanNode) ptr :=
  let! scanNode := make_shared (ScanNode "employees") in
  let! selectNode := make_shared (SelectNode "salary > 50000") in
  let! projectNode := make_shared (ProjectNode ["name"; "salary"]) in
  push_child selectNode scanNode;;;
  push_child projectNode selectNode;;;
  prog_ret projectNode.

Definition main_state : State PlanNode := (main_plan (MkState [] [])).1.

Lemma plan_generator_output_witness :
  exists s', generatePlan 3 (Some 2) main_state = (s', Ret (Some 2)) /\
    cout s' = [Str "Estimated query cost: "; Dbl (d_of_Z 115); Endl] /\
    execute (Some 2) s' =
      (MkState (heap main_state) (cout s' ++ [Str "Executing query plan..."; Endl;
         Str "Plan: "; Str "Projection: name, salary"; Endl]), Ret tt).
Proof.
  edestruct (plan_generator_output 3 main_state (Some 2)) as (s' & Hg & Hc & _ & He);
    [vm_compute; reflexivity|vm_compute; reflexivity|].
  exists s'. split; [exact Hg|]. split; [exact Hc|exact He].
Defined.

(** [main]: it builds the plan, generates the physical plan and executes it. *)
Definition main (fuel : nat) : prog (State PlanNode) unit :=
  let! logicalPlan := main_plan in
  let! physicalPlan := generatePlan fuel logicalPlan in
  execute physicalPlan.

Example plan_main_prints :
  let '(s, o) := main 3 (MkState [] []) in
  o = Ret tt /\
  cout s = [Str "Estimated query cost: "; Dbl (d_of_Z 115); Endl; Str "Executing query plan..."; Endl;
            Str "Plan: "; Str "Projection: name, salary"; Endl].
Proof. vm_compute. done. Qed.
