(* ===== verification/PhysicalPlan.v ===== *)
(** * Physical plans (src/query_processor/planner/physical_plan.cpp)

    The functions that build the nodes of a physical plan, and [optimizePlan], which pushes filters
    below joins.  The nodes are allocated with [new], are never freed and are linked by raw pointers
    that the optimiser overwrites, so the model keeps the heap: a pointer is an index into the list of
    the nodes allocated so far.  The cost estimates and [FilterCondition::appliesTo] belong to headers
    that are not part of the repository; they are members of the class [PlanEnv]. *)

From S2P Require Import Prelude Floats.
Local Open Scope prog_scope.

(** ** Data *)

Module PlanNodeType.
Inductive t : Set :=
| SequentialScan | IndexScan | Join | Filter | Projection | Sort | Limit | Aggregate
| Union | Intersection | Difference | Distinct | Delete | Update.
End PlanNodeType.

#[export] Instance PlanNodeType_eq_dec : EqDecision PlanNodeType.t.
Proof. solve_decision. Defined.

(** The values a [JoinType] can hold: the three that the code names, and any other. *)
Module JoinType.
Inductive t : Set := HashJoin | MergeJoin | NestedLoopJoin | other (n : Z).
End JoinType.

(** The object a join node executes with. *)
Inductive JoinAlgorithm : Set := newHashJoin | newMergeJoin | newNestedLoopJoin.

(** A [PhysicalPlanNode*]: null, or the index of a node of the heap. *)
Abbreviation ptr := (option nat).

(** The types that the missing headers declare, with what their default constructors build. *)
Class PlanTypes : Type := {
  Table : Type;
  Index : Type;
  FilterCondition : Type;
  Column : Type;
  SortColumn : Type;
  AggregateFunction : Type;
  UpdateSet : Type;
  noCondition : FilterCondition;
  noUpdate : UpdateSet
}.

(** The members of a node other than its three pointers to nodes. *)
Record Fields `{PlanTypes} : Type := MkFields {
  type : PlanNodeType.t;
  table : option Table;
  index : option Index;
  joinType : option JoinType.t;
  joinAlgorithm : option JoinAlgorithm;
  filterCondition : FilterCondition;
  projectionColumns : list Column;
  sortColumns : list SortColumn;
  limit : Z;
  aggregateFunctions : list AggregateFunction;
  updateSet : UpdateSet;
  estimatedCost : double
}.

Record PhysicalPlanNode `{PlanTypes} : Type := MkNode {
  fields : Fields;
  leftChild : ptr;
  rightChild : ptr;
  input : ptr
}.

Abbreviation Heap := (list PhysicalPlanNode).

(** What the planner calls and the repository does not hold: they may read any node. *)
Class PlanEnv `{PlanTypes} : Type := {
  appliesTo : Heap -> FilterCondition -> ptr -> bool;
  estimateSequentialScanCost : option Table -> double;
  estimateIndexScanCost : option Table -> option Index -> double;
  estimateHashJoinCost : Heap -> ptr -> ptr -> double;
  estimateMergeJoinCost : Heap -> ptr -> ptr -> double;
  estimateNestedLoopJoinCost : Heap -> ptr -> ptr -> double;
  estimateFilterCost : Heap -> ptr -> FilterCondition -> double;
  estimateProjectionCost : Heap -> ptr -> list Column -> double;
  estimateSortCost : Heap -> ptr -> list SortColumn -> double;
  estimateLimitCost : Heap -> ptr -> Z -> double;
  estimateAggregateCost : Heap -> ptr -> list AggregateFunction -> double;
  estimateUnionCost : Heap -> ptr -> ptr -> double;
  estimateIntersectionCost : Heap -> ptr -> ptr -> double;
  estimateDifferenceCost : Heap -> ptr -> ptr -> double;
  estimateDistinctCost : Heap -> ptr -> double;
  estimateDeleteCost : option Table -> FilterCondition -> double;
  estimateUpdateCost : option Table -> UpdateSet -> FilterCondition -> double
}.

Section physical_plan.
Context `{PlanEnv}.

(** ** Members *)

(** The fields of [new PhysicalPlanNode()], with its type set. *)
Definition blank (ty : PlanNodeType.t) : Fields :=
  MkFields _ ty None None None None noCondition [] [] 0 [] noUpdate (S754_zero false).

Definition set_table (t : option Table) (f : Fields) : Fields :=
  MkFields _ (type f) t (index f) (joinType f) (joinAlgorithm f) (filterCondition f)
    (projectionColumns f) (sortColumns f) (limit f) (aggregateFunctions f) (updateSet f)
    (estimatedCost f).
Definition set_index (i : option Index) (f : Fields) : Fields :=
  MkFields _ (type f) (table f) i (joinType f) (joinAlgorithm f) (filterCondition f)
    (projectionColumns f) (sortColumns f) (limit f) (aggregateFunctions f) (updateSet f)
    (estimatedCost f).
Definition set_joinType (j : JoinType.t) (f : Fields) : Fields :=
  MkFields _ (type f) (table f) (index f) (Some j) (joinAlgorithm f) (filterCondition f)
    (projectionColumns f) (sortColumns f) (limit f) (aggregateFunctions f) (updateSet f)
    (estimatedCost f).
Definition set_joinAlgorithm (j : JoinAlgorithm) (f : Fields) : Fields :=
  MkFields _ (type f) (table f) (index f) (joinType f) (Some j) (filterCondition f)
    (projectionColumns f) (sortColumns f) (limit f) (aggregateFunctions f) (updateSet f)
    (estimatedCost f).
Definition set_filterCondition (c : FilterCondition) (f : Fields) : Fields :=
  MkFields _ (type f) (table f) (index f) (joinType f) (joinAlgorithm f) c
    (projectionColumns f) (sortColumns f) (limit f) (aggregateFunctions f) (updateSet f)
    (estimatedCost f).
Definition set_projectionColumns (cs : list Column) (f : Fields) : Fields :=
  MkFields _ (type f) (table f) (index f) (joinType f) (joinAlgorithm f) (filterCondition f)
    cs (sortColumns f) (limit f) (aggregateFunctions f) (updateSet f) (estimatedCost f).
Definition set_sortColumns (cs : list SortColumn) (f : Fields) : Fields :=
  MkFields _ (type f) (table f) (index f) (joinType f) (joinAlgorithm f) (filterCondition f)
    (projectionColumns f) cs (limit f) (aggregateFunctions f) (updateSet f) (estimatedCost f).
Definition set_limit (n : Z) (f : Fields) : Fields :=
  MkFields _ (type f) (table f) (index f) (joinType f) (joinAlgorithm f) (filterCondition f)
    (projectionColumns f) (sortColumns f) n (aggregateFunctions f) (updateSet f)
    (estimatedCost f).
Definition set_aggregateFunctions (a : list AggregateFunction) (f : Fields) : Fields :=
  MkFields _ (type f) (table f) (index f) (joinType f) (joinAlgorithm f) (filterCondition f)
    (projectionColumns f) (sortColumns f) (limit f) a (updateSet f) (estimatedCost f).
Definition set_updateSet (u : UpdateSet) (f : Fields) : Fields :=
  MkFields _ (type f) (table f) (index f) (joinType f) (joinAlgorithm f) (filterCondition f)
    (projectionColumns f) (sortColumns f) (limit f) (aggregateFunctions f) u (estimatedCost f).
Definition set_estimatedCost (c : double) (f : Fields) : Fields :=
  MkFields _ (type f) (table f) (index f) (joinType f) (joinAlgorithm f) (filterCondition f)
    (projectionColumns f) (sortColumns f) (limit f) (aggregateFunctions f) (updateSet f) c.

(** ** The heap *)

(** [new]: the node is at an index that no node had. *)
Definition new (n : PhysicalPlanNode) : prog Heap nat := fun h => (h ++ [n], Ret (length h)).

(** A member of the node a pointer leads to. *)
Definition load {A : Type} (p : ptr) (f : PhysicalPlanNode -> A) : prog Heap A := fun h =>
  match p ≫= (fun a => h !! a) with
  | Some n => (h, Ret (f n))
  | None => (h, Undef null_pointer)
  end.

(** An assignment to members of the node a pointer leads to. *)
Definition store (p : ptr) (f : PhysicalPlanNode -> PhysicalPlanNode) : prog Heap unit := fun h =>
  match p with
  | Some a =>
      match h !! a with
      | Some n => (<[a := f n]> h, Ret tt)
      | None => (h, Undef null_pointer)
      end
  | None => (h, Undef null_pointer)
  end.

Definition on_fields (g : Fields -> Fields) (n : PhysicalPlanNode) : PhysicalPlanNode :=
  MkNode _ (g (fields n)) (leftChild n) (rightChild n) (input n).
Definition set_leftChild (p : ptr) (n : PhysicalPlanNode) : PhysicalPlanNode :=
  MkNode _ (fields n) p (rightChild n) (input n).
Definition set_rightChild (p : ptr) (n : PhysicalPlanNode) : PhysicalPlanNode :=
  MkNode _ (fields n) (leftChild n) p (input n).

(** [node->estimatedCost = CostEstimator::...; return node;] *)
Definition with_cost (a : nat) (cost : Heap -> double) : prog Heap ptr :=
  let! h := prog_get in
  store (Some a) (on_fields (set_estimatedCost (cost h)));;;
  prog_ret (Some a).

(** ** Construction *)

Definition createSequentialScanPlan (t : option Table) : prog Heap ptr :=
  let! scanNode := new (MkNode _ (set_table t (blank PlanNodeType.SequentialScan)) None None None) in
  with_cost scanNode (fun _ => estimateSequentialScanCost t).

Definition createIndexScanPlan (t : option Table) (i : option Index) : prog Heap ptr :=
  let! scanNode :=
    new (MkNode _ (set_index i (set_table t (blank PlanNodeType.IndexScan))) None None None) in
  with_cost scanNode (fun _ => estimateIndexScanCost t i).

Definition createJoinPlan (leftPlan rightPlan : ptr) (jt : JoinType.t) : prog Heap ptr :=
  let! joinNode :=
    new (MkNode _ (set_joinType jt (blank PlanNodeType.Join)) leftPlan rightPlan None) in
  match jt with
  | JoinType.HashJoin =>
      store (Some joinNode) (on_fields (set_joinAlgorithm newHashJoin));;;
      with_cost joinNode (fun h => estimateHashJoinCost h leftPlan rightPlan)
  | JoinType.MergeJoin =>
      store (Some joinNode) (on_fields (set_joinAlgorithm newMergeJoin));;;
      with_cost joinNode (fun h => estimateMergeJoinCost h leftPlan rightPlan)
  | JoinType.NestedLoopJoin =>
      store (Some joinNode) (on_fields (set_joinAlgorithm newNestedLoopJoin));;;
      with_cost joinNode (fun h => estimateNestedLoopJoinCost h leftPlan rightPlan)
  | JoinType.other _ => prog_throw (invalid_argument "Invalid join type")
  end.

Definition createFilterPlan (inputPlan : ptr) (condition : FilterCondition) : prog Heap ptr :=
  let! filterNode :=
    new (MkNode _ (set_filterCondition condition (blank PlanNodeType.Filter))
           None None inputPlan) in
  with_cost filterNode (fun h => estimateFilterCost h inputPlan condition).

Definition createProjectionPlan (inputPlan : ptr) (columns : list Column) : prog Heap ptr :=
  let! projectionNode :=
    new (MkNode _ (set_projectionColumns columns (blank PlanNodeType.Projection))
           None None inputPlan) in
  with_cost projectionNode (fun h => estimateProjectionCost h inputPlan columns).

Definition createSortPlan (inputPlan : ptr) (columns : list SortColumn) : prog Heap ptr :=
  let! sortNode :=
    new (MkNode _ (set_sortColumns columns (blank PlanNodeType.Sort)) None None inputPlan) in
  with_cost sortNode (fun h => estimateSortCost h inputPlan columns).

Definition createLimitPlan (inputPlan : ptr) (n : Z) : prog Heap ptr :=
  let! limitNode := new (MkNode _ (set_limit n (blank PlanNodeType.Limit)) None None inputPlan) in
  with_cost limitNode (fun h => estimateLimitCost h inputPlan n).

Definition createAggregatePlan (inputPlan : ptr) (functions : list AggregateFunction)
  : prog Heap ptr :=
  let! aggregateNode :=
    new (MkNode _ (set_aggregateFunctions functions (blank PlanNodeType.Aggregate))
           None None inputPlan) in
  with_cost aggregateNode (fun h => estimateAggregateCost h inputPlan functions).

Definition createUnionPlan (leftPlan rightPlan : ptr) : prog Heap ptr :=
  let! unionNode := new (MkNode _ (blank PlanNodeType.Union) leftPlan rightPlan None) in
  with_cost unionNode (fun h => estimateUnionCost h leftPlan rightPlan).

Definition createIntersectionPlan (leftPlan rightPlan : ptr) : prog Heap ptr :=
  let! intersectionNode :=
    new (MkNode _ (blank PlanNodeType.Intersection) leftPlan rightPlan None) in
  with_cost intersectionNode (fun h => estimateIntersectionCost h leftPlan rightPlan).

Definition createDifferencePlan (leftPlan rightPlan : ptr) : prog Heap ptr :=
  let! differenceNode := new (MkNode _ (blank PlanNodeType.Difference) leftPlan rightPlan None) in
  with_cost differenceNode (fun h => estimateDifferenceCost h leftPlan rightPlan).

Definition createDistinctPlan (inputPlan : ptr) : prog Heap ptr :=
  let! distinctNode := new (MkNode _ (blank PlanNodeType.Distinct) None None inputPlan) in
  with_cost distinctNode (fun h => estimateDistinctCost h inputPlan).

Definition createDeletePlan (t : option Table) (condition : FilterCondition) : prog Heap ptr :=
  let! deleteNode :=
    new (MkNode _ (set_filterCondition condition (set_table t (blank PlanNodeType.Delete)))
           None None None) in
  with_cost deleteNode (fun _ => estimateDeleteCost t condition).

Definition createUpdatePlan (t : option Table) (u : UpdateSet) (condition : FilterCondition)
  : prog Heap ptr :=
  let! updateNode :=
    new (MkNode _ (set_filterCondition condition
                     (set_updateSet u (set_table t (blank PlanNodeType.Update)))) None None None) in
  with_cost updateNode (fun _ => estimateUpdateCost t u condition).

(** ** Optimisation *)

Definition canPushFilter (condition : FilterCondition) (node : ptr) : prog Heap bool :=
  fun h => (h, Ret (appliesTo h condition node)).

Definition pushDownFilter (filterNode : ptr) : prog Heap unit :=
  let! childNode := load filterNode input in
  let! ty := load childNode (fun n => type (fields n)) in
  if decide (ty = PlanNodeType.Join) then
    let! condition := load filterNode (fun n => filterCondition (fields n)) in
    let! left := load childNode leftChild in
    let! onLeft := canPushFilter condition left in
    if onLeft then
      let! newFilterNode := createFilterPlan left condition in
      store childNode (set_leftChild newFilterNode)
    else
      let! right := load childNode rightChild in
      let! onRight := canPushFilter condition right in
      if onRight then
        let! newFilterNode := createFilterPlan right condition in
        store childNode (set_rightChild newFilterNode)
      else prog_ret tt
  else prog_ret tt.

(** The recursion follows the pointers, which [fuel] bounds; a cyclic plan would recurse for ever. *)
Fixpoint optimizePlan (fuel : nat) (root : ptr) : prog Heap unit :=
  match fuel with
  | O => fun h => (h, Hang)
  | S n =>
      let child (p : ptr) := match p with
                             | Some _ => optimizePlan n p
                             | None => prog_ret tt
                             end in
      let! ty := load root (fun m => type (fields m)) in
      (if decide (ty = PlanNodeType.Filter) then pushDownFilter root else prog_ret tt);;;
      let! l := load root leftChild in
      child l;;;
      let! r := load root rightChild in
      child r;;;
      let! i := load root input in
      child i
  end.

End physical_plan.

(** ** Plans as trees *)

(** The tree that the pointers of a node unfold to, with labels of type [A] on its nodes: the
    addresses of a plan in the heap, or nothing. *)
Inductive plan `{PlanTypes} (A : Type) : Type :=
| Null
| Plan (a : A) (f : Fields) (left right input : plan A).
Arguments Null {_ _}.
Arguments Plan {_ _} a f left right input.

Section trees.
Context `{PlanTypes}.

Fixpoint addrs (t : plan nat) : list nat :=
  match t with
  | Null => []
  | Plan a _ l r i => a :: addrs l ++ addrs r ++ addrs i
  end.

Definition addr (t : plan nat) : ptr :=
  match t with
  | Null => None
  | Plan a _ _ _ _ => Some a
  end.

(** The heap holds the tree. *)
Fixpoint plan_at (h : Heap) (t : plan nat) : Prop :=
  match t with
  | Null => True
  | Plan a f l r i =>
      h !! a = Some (MkNode _ f (addr l) (addr r) (addr i)) /\
      plan_at h l /\ plan_at h r /\ plan_at h i
  end.

(** The heap holds the tree and no node of it is shared. *)
Definition owns (h : Heap) (t : plan nat) : Prop := plan_at h t /\ NoDup (addrs t).

Fixpoint depth {A : Type} (t : plan A) : nat :=
  match t with
  | Null => 0
  | Plan _ _ l r i => S ((depth l `max` depth r) `max` depth i)
  end.

(** Every filter of the plan has an input and every join has two. *)
Fixpoint complete {A : Type} (t : plan A) : Prop :=
  match t with
  | Null => True
  | Plan _ f l r i =>
      (type f = PlanNodeType.Filter -> i <> Null) /\
      (type f = PlanNodeType.Join -> l <> Null /\ r <> Null) /\
      complete l /\ complete r /\ complete i
  end.

(** What a part of the optimiser did to the nodes at [A]: they became the nodes at [A'], and the
    nodes elsewhere are as they were. *)
Record frame (h h' : Heap) (A A' : list nat) : Prop := {
  frame_grows : length h <= length h';
  frame_keeps : forall a, a < length h -> a ∉ A -> h' !! a = h !! a;
  frame_fresh : forall a, a ∈ A' -> a ∈ A \/ length h <= a
}.

Lemma frame_refl h A : frame h h A A.
Proof. constructor; auto. Qed.

Lemma frame_trans h1 h2 h3 A B C : frame h1 h2 A B -> frame h2 h3 B C -> frame h1 h3 A C.
Proof.
  intros [G1 K1 F1] [G2 K2 F2]. constructor; [lia| |].
  - intros a Ha Hn. rewrite K2, K1; [done|done|done|lia|].
    intros [?|?]%F1; [done|lia].
  - intros a [Ha|Ha]%F2; [|right; lia]. apply F1 in Ha. done.
Qed.

Lemma frame_weaken h h' A A' B : frame h h' A A' -> frame h h' (A ++ B) (A' ++ B).
Proof.
  intros [G K F]. constructor; [done| |].
  - intros a Ha Hn. apply K; set_solver.
  - intros a [Ha|Ha]%elem_of_app; [apply F in Ha|]; set_solver.
Qed.

Lemma frame_perm h h' A A' B B' : A ≡ₚ B -> A' ≡ₚ B' -> frame h h' A A' -> frame h h' B B'.
Proof.
  intros HA HA' [G K F]. constructor; [done| |].
  - intros a Ha Hn. apply K; [done|]. by rewrite HA.
  - intros a Ha. rewrite <-HA' in Ha. apply F in Ha. by rewrite HA in Ha.
Qed.

(** Distinct nodes stay distinct next to nodes that the step does not own. *)
Lemma frame_NoDup h h' A A' B :
  frame h h' A A' -> NoDup (A ++ B) -> (forall b, b ∈ B -> b < length h) -> NoDup A' ->
  NoDup (A' ++ B).
Proof.
  intros [_ _ F] (HA & Hd & HB)%NoDup_app Hlt HA'. apply NoDup_app. split_and!; [done| |done].
  intros a Ha Hb. destruct (F a Ha) as [Ha'|Ha']; [by eapply Hd|]. apply Hlt in Hb. lia.
Qed.

Lemma plan_at_lt h t a : plan_at h t -> a ∈ addrs t -> a < length h.
Proof.
  induction t as [|b f l IHl r IHr i IHi]; cbn; [set_solver|].
  intros (Hb & Hl & Hr & Hi). rewrite elem_of_cons, !elem_of_app.
  intros [->|[?|[?|?]]]; eauto using lookup_lt_Some.
Qed.

Lemma plan_at_agree h h' t :
  plan_at h t -> (forall a, a ∈ addrs t -> h' !! a = h !! a) -> plan_at h' t.
Proof.
  induction t as [|b f l IHl r IHr i IHi]; cbn; [done|].
  intros (Hb & Hl & Hr & Hi) Heq. rewrite Heq by set_solver.
  split_and!; [done|apply IHl|apply IHr|apply IHi]; set_solver.
Qed.

Lemma plan_at_frame h h' A A' t :
  frame h h' A A' -> plan_at h t -> (forall a, a ∈ addrs t -> a ∉ A) -> plan_at h' t.
Proof.
  intros [_ K _] Ht Hd. eapply plan_at_agree; [done|].
  intros a Ha. apply K; [by eapply plan_at_lt|by apply Hd].
Qed.

(** The tree at a pointer became another one at the same pointer. *)
Record became (h h' : Heap) (t t' : plan nat) : Prop := {
  became_owns : owns h' t';
  became_addr : addr t' = addr t;
  became_frame : frame h h' (addrs t) (addrs t')
}.

Lemma became_refl h t : owns h t -> became h h t t.
Proof. constructor; [done|done|apply frame_refl]. Qed.

Lemma became_trans h1 h2 h3 t1 t2 t3 :
  became h1 h2 t1 t2 -> became h2 h3 t2 t3 -> became h1 h3 t1 t3.
Proof.
  intros [O1 A1 F1] [O2 A2 F2]. constructor; [done|congruence|by eapply frame_trans].
Qed.

Lemma owns_parts h a f l r i :
  owns h (Plan a f l r i) -> owns h l /\ owns h r /\ owns h i.
Proof.
  intros [(? & ? & ? & ?) Hnd]. cbn in Hnd. rewrite NoDup_cons, !NoDup_app in Hnd.
  unfold owns. naive_solver.
Qed.

(** One part of a tree, at the addresses of [t], is replaced by [t'], and the node above is linked to
    it; [R] are the addresses of the other two parts. *)
Lemma relink h h1 a f l r i l' r' i' t t' R :
  addrs l ++ addrs r ++ addrs i ≡ₚ addrs t ++ R ->
  addrs l' ++ addrs r' ++ addrs i' ≡ₚ addrs t' ++ R ->
  (forall h0, plan_at h0 t' -> (forall b, b ∈ R -> h0 !! b = h !! b) ->
              plan_at h0 l' /\ plan_at h0 r' /\ plan_at h0 i') ->
  owns h (Plan a f l r i) -> owns h1 t' -> frame h h1 (addrs t) (addrs t') ->
  became h (<[a := MkNode _ f (addr l') (addr r') (addr i')]> h1)
    (Plan a f l r i) (Plan a f l' r' i').
Proof.
  intros HP HP' Hcl [Hat Hnd] [Hat' Hnd'] Hfr.
  assert (Hlt : forall b, b ∈ a :: R -> b < length h).
  { intros b Hb. eapply plan_at_lt; [exact Hat|]. cbn. rewrite HP. set_solver. }
  assert (Hperm : addrs (Plan a f l r i) ≡ₚ addrs t ++ a :: R).
  { cbn. by rewrite HP, Permutation_middle. }
  assert (Hperm' : addrs (Plan a f l' r' i') ≡ₚ addrs t' ++ a :: R).
  { cbn. by rewrite HP', Permutation_middle. }
  rewrite Hperm in Hnd. pose proof (frame_NoDup _ _ _ _ _ Hfr Hnd Hlt Hnd') as Hnd2.
  apply NoDup_app in Hnd as (_ & Hd & HaR), Hnd2 as Hd2. destruct Hd2 as (_ & Hd2 & _).
  apply NoDup_cons in HaR as [HaR _].
  pose proof (frame_grows _ _ _ _ Hfr) as Hg.
  assert (Hkeep : forall b, b < length h -> b ∉ addrs t ++ a :: R ->
            (<[a := MkNode _ f (addr l') (addr r') (addr i')]> h1) !! b = h !! b).
  { intros b Hb Hn. rewrite list_lookup_insert_ne by set_solver.
    apply (frame_keeps _ _ _ _ Hfr); set_solver. }
  constructor; [split| |].
  - cbn. split; [apply list_lookup_insert_eq; specialize (Hlt a); set_solver by lia|].
    apply Hcl.
    + eapply plan_at_agree; [exact Hat'|]. intros b Hb. apply list_lookup_insert_ne.
      intros ->. apply (Hd2 b Hb). left.
    + intros b Hb. rewrite list_lookup_insert_ne by set_solver.
      apply (frame_keeps _ _ _ _ Hfr); [apply Hlt; by right|]. intros Hb'.
      apply (Hd b Hb'). by right.
  - by rewrite Hperm'.
  - done.
  - eapply frame_perm; [symmetry; exact Hperm|symmetry; exact Hperm'|].
    constructor; [by rewrite length_insert|exact Hkeep|].
    apply (frame_fresh _ _ _ _ (frame_weaken _ _ _ _ (a :: R) Hfr)).
Qed.

Lemma relink_left h h1 a f l r i l' :
  owns h (Plan a f l r i) -> owns h1 l' -> frame h h1 (addrs l) (addrs l') ->
  became h (<[a := MkNode _ f (addr l') (addr r) (addr i)]> h1)
    (Plan a f l r i) (Plan a f l' r i).
Proof.
  intros Ho. apply (relink _ _ _ _ _ _ _ _ _ _ _ _ (addrs r ++ addrs i)); [done|done| |done].
  destruct Ho as [(_ & _ & Hr & Hi) _]. intros h0 Ht Heq.
  split_and!; [done|eapply plan_at_agree; [exact Hr|]|eapply plan_at_agree; [exact Hi|]];
    set_solver.
Qed.

Lemma relink_right h h1 a f l r i r' :
  owns h (Plan a f l r i) -> owns h1 r' -> frame h h1 (addrs r) (addrs r') ->
  became h (<[a := MkNode _ f (addr l) (addr r') (addr i)]> h1)
    (Plan a f l r i) (Plan a f l r' i).
Proof.
  intros Ho. apply (relink _ _ _ _ _ _ _ _ _ _ _ _ (addrs l ++ addrs i));
    [by rewrite Permutation_app_swap_app|by rewrite Permutation_app_swap_app| |done].
  destruct Ho as [(_ & Hl & _ & Hi) _]. intros h0 Ht Heq.
  split_and!; [eapply plan_at_agree; [exact Hl|]|done|eapply plan_at_agree; [exact Hi|]];
    set_solver.
Qed.

Lemma relink_input h h1 a f l r i i' :
  owns h (Plan a f l r i) -> owns h1 i' -> frame h h1 (addrs i) (addrs i') ->
  became h (<[a := MkNode _ f (addr l) (addr r) (addr i')]> h1)
    (Plan a f l r i) (Plan a f l r i').
Proof.
  intros Ho. apply (relink _ _ _ _ _ _ _ _ _ _ _ _ (addrs l ++ addrs r));
    [by rewrite app_assoc, Permutation_app_comm|by rewrite app_assoc, Permutation_app_comm| |done].
  destruct Ho as [(_ & Hl & Hr & _) _]. intros h0 Ht Heq.
  split_and!; [eapply plan_at_agree; [exact Hl|]|eapply plan_at_agree; [exact Hr|]|done];
    set_solver.
Qed.

(** A step on the parts of a node leaves the node. *)
Lemma untouched h h1 a f l r i A A' :
  owns h (Plan a f l r i) -> frame h h1 A A' -> A ⊆ addrs l ++ addrs r ++ addrs i ->
  h1 !! a = Some (MkNode _ f (addr l) (addr r) (addr i)).
Proof.
  intros [(Ha & _) Hnd] Hfr Hsub. cbn in Hnd. apply NoDup_cons in Hnd as [Hn _].
  rewrite (frame_keeps _ _ _ _ Hfr); [done|by eapply lookup_lt_Some|set_solver].
Qed.

(** A part that stays at its address needs no new link. *)
Lemma linked h h1 a f l r i A A' :
  owns h (Plan a f l r i) -> frame h h1 A A' -> A ⊆ addrs l ++ addrs r ++ addrs i ->
  <[a := MkNode _ f (addr l) (addr r) (addr i)]> h1 = h1.
Proof. intros Ho Hfr Hn. apply list_insert_id. by eapply untouched. Qed.

Lemma became_left h h1 a f l r i l' :
  owns h (Plan a f l r i) -> became h h1 l l' -> became h h1 (Plan a f l r i) (Plan a f l' r i).
Proof.
  intros Ho [Ho1 Ha Hfr]. pose proof (relink_left _ _ _ _ _ _ _ _ Ho Ho1 Hfr) as Hb.
  rewrite Ha, (linked _ _ _ _ _ _ _ _ _ Ho Hfr) in Hb; [done|set_solver].
Qed.

Lemma became_right h h1 a f l r i r' :
  owns h (Plan a f l r i) -> became h h1 r r' -> became h h1 (Plan a f l r i) (Plan a f l r' i).
Proof.
  intros Ho [Ho1 Ha Hfr]. pose proof (relink_right _ _ _ _ _ _ _ _ Ho Ho1 Hfr) as Hb.
  rewrite Ha, (linked _ _ _ _ _ _ _ _ _ Ho Hfr) in Hb; [done|set_solver].
Qed.

Lemma became_input h h1 a f l r i i' :
  owns h (Plan a f l r i) -> became h h1 i i' -> became h h1 (Plan a f l r i) (Plan a f l r i').
Proof.
  intros Ho [Ho1 Ha Hfr]. pose proof (relink_input _ _ _ _ _ _ _ _ Ho Ho1 Hfr) as Hb.
  rewrite Ha, (linked _ _ _ _ _ _ _ _ _ Ho Hfr) in Hb; [done|set_solver].
Qed.

End trees.

(** ** What the optimiser computes *)

Section reference.
Context `{PlanEnv}.

(** The members of a filter that [createFilterPlan] puts on top of the plan [t]; the cost is estimated in
    a heap that holds [t]. *)
Definition filter_over (c : FilterCondition) (t : plan nat) (g : Fields) : Prop :=
  exists h, plan_at h t /\
    g = set_estimatedCost (estimateFilterCost h (addr t) c)
          (set_filterCondition c (blank PlanNodeType.Filter)).

(** What [appliesTo] answers for the two sides of a join, in a heap that holds the join as it was. *)
Definition on_left (c : FilterCondition) (join l : plan nat) : Prop :=
  exists h, plan_at h join /\ appliesTo h c (addr l) = true.
Definition on_right (c : FilterCondition) (join l r : plan nat) : Prop :=
  exists h, plan_at h join /\ appliesTo h c (addr l) = false /\ appliesTo h c (addr r) = true.
Definition on_neither (c : FilterCondition) (join l r : plan nat) : Prop :=
  exists h, plan_at h join /\ appliesTo h c (addr l) = false /\ appliesTo h c (addr r) = false.

(** The condition that a node pushes into its input. *)
Definition condition_of (f : Fields) : option FilterCondition :=
  if decide (type f = PlanNodeType.Filter) then Some (filterCondition f) else None.

(** The node [Plan a f l r i] below a filter stays as it is: there is no filter right above, or it is no
    join, or the condition applies to neither side. *)
Definition stays (above : option FilterCondition) (a : nat) (f : Fields) (l r i : plan nat) : Prop :=
  forall c, above = Some c -> type f = PlanNodeType.Join -> on_neither c (Plan a f l r i) l r.

(** One filter with the condition [c] pushed into the plan [t] below it gives the second plan. *)
Inductive pushes : option FilterCondition -> plan nat -> plan nat -> Prop :=
| pushes_null above : pushes above Null Null
| pushes_stays above a f l r i :
    stays above a f l r i -> pushes above (Plan a f l r i) (Plan a f l r i)
| pushes_left c a f l r i b g :
    type f = PlanNodeType.Join -> on_left c (Plan a f l r i) l -> filter_over c l g ->
    pushes (Some c) (Plan a f l r i) (Plan a f (Plan b g Null Null l) r i)
| pushes_right c a f l r i b g :
    type f = PlanNodeType.Join -> on_right c (Plan a f l r i) l r -> filter_over c r g ->
    pushes (Some c) (Plan a f l r i) (Plan a f l (Plan b g Null Null r) i).

(** All filters of a plan pushed as far as they go; [above] is the condition of a filter right above.
    Every node stays at its address with its members; a join below a filter whose condition applies to
    a side gets one new filter on that side, which is pushed on in turn. *)
Inductive pushed : option FilterCondition -> plan nat -> plan nat -> Prop :=
| pushed_null above : pushed above Null Null
| pushed_stays above a f l r i l' r' i' :
    stays above a f l r i ->
    pushed None l l' -> pushed None r r' -> pushed (condition_of f) i i' ->
    pushed above (Plan a f l r i) (Plan a f l' r' i')
| pushed_left c a f l r i b g l' r' i' :
    type f = PlanNodeType.Join -> on_left c (Plan a f l r i) l -> filter_over c l g ->
    pushed (Some c) l l' -> pushed None r r' -> pushed (condition_of f) i i' ->
    pushed (Some c) (Plan a f l r i) (Plan a f (Plan b g Null Null l') r' i')
| pushed_right c a f l r i b g l' r' i' :
    type f = PlanNodeType.Join -> on_right c (Plan a f l r i) l r -> filter_over c r g ->
    pushed None l l' -> pushed (Some c) r r' -> pushed (condition_of f) i i' ->
    pushed (Some c) (Plan a f l r i) (Plan a f l' (Plan b g Null Null r') i').

(** ** The optimiser on the heap *)

Lemma load_ok {A} h a n (f : PhysicalPlanNode -> A) :
  h !! a = Some n -> load (Some a) f h = (h, Ret (f n)).
Proof. intros Hn. unfold load. cbn. by rewrite Hn. Qed.

Lemma store_ok h a n (f : PhysicalPlanNode -> PhysicalPlanNode) :
  h !! a = Some n -> store (Some a) f h = (<[a := f n]> h, Ret tt).
Proof. intros Hn. unfold store. by rewrite Hn. Qed.

(** A new filter over a tree of the heap. *)
Lemma createFilterPlan_ok h t c :
  owns h t ->
  exists h' g, createFilterPlan (addr t) c h = (h', Ret (Some (length h))) /\ filter_over c t g /\
    let t' := Plan (length h) g Null Null t in
    owns h' t' /\ frame h h' (addrs t) (addrs t').
Proof.
  intros [Hat Hnd].
  set (n := MkNode _ (set_filterCondition c (blank PlanNodeType.Filter)) None None (addr t)).
  set (g := set_estimatedCost (estimateFilterCost (h ++ [n]) (addr t) c)
              (set_filterCondition c (blank PlanNodeType.Filter))).
  set (n' := MkNode _ g None None (addr t)).
  assert (Hold : forall m a, a < length h -> (h ++ [m]) !! a = h !! a).
  { intros m a Ha. by rewrite lookup_app_l. }
  assert (Hat1 : forall m, plan_at (h ++ [m]) t).
  { intros m. eapply plan_at_agree; [done|]. intros a Ha. apply Hold. by eapply plan_at_lt. }
  exists (h ++ [n']), g. split_and!.
  - unfold createFilterPlan, with_cost, new, prog_bind, prog_get. fold n.
    rewrite (store_ok _ _ n) by apply list_lookup_middle, eq_refl.
    rewrite insert_app_r_alt, Nat.sub_diag by done. done.
  - exists (h ++ [n]). by split.
  - intros t'. split; [split; cbn|].
    + split_and!; [by rewrite lookup_app_r, Nat.sub_diag|done|done|apply Hat1].
    + apply NoDup_cons; split; [|done]. intros Hin. apply (plan_at_lt _ _ _ Hat) in Hin. lia.
    + constructor; [rewrite length_app; lia|intros a Ha _; apply Hold, Ha|].
      intros a [->|Ha]%elem_of_cons; [right; done|by left].
Qed.

(** [pushDownFilter] on a filter with an input. *)
Lemma pushDownFilter_ok h a f l r i :
  owns h (Plan a f l r i) -> i <> Null ->
  exists h' i', pushDownFilter (Some a) h = (h', Ret tt) /\
    became h h' i i' /\ pushes (Some (filterCondition f)) i i'.
Proof.
  intros Ho Hi. destruct (owns_parts _ _ _ _ _ _ Ho) as (_ & _ & Hoi).
  destruct Ho as [(Ha & _) _]. destruct i as [|b g l2 r2 i2]; [done|].
  pose proof Hoi as [Hat _]. pose proof (proj1 Hat) as Hb.
  destruct (owns_parts _ _ _ _ _ _ Hoi) as (Hol & Hor & _).
  unfold pushDownFilter, prog_bind.
  rewrite (load_ok _ _ _ _ Ha). cbn [input addr]. rewrite (load_ok _ _ _ _ Hb). cbn [fields].
  destruct (decide (type g = PlanNodeType.Join)) as [Hj|Hj].
  2:{ exists h, (Plan b g l2 r2 i2). split_and!; [done|by apply became_refl|].
      apply pushes_stays. by intros c _ ?. }
  rewrite (load_ok _ _ _ _ Ha), (load_ok _ _ _ _ Hb). cbn [fields leftChild].
  unfold canPushFilter. destruct (appliesTo h (filterCondition f) (addr l2)) eqn:Hal.
  - destruct (createFilterPlan_ok h l2 (filterCondition f) Hol) as (h1 & g1 & -> & Hg & Ho1 & Hfr).
    pose proof (relink_left _ _ _ _ _ _ _ _ Hoi Ho1 Hfr) as Hbec.
    rewrite (store_ok _ _ (MkNode _ g (addr l2) (addr r2) (addr i2))).
    + eexists _, _. split_and!; [done|exact Hbec|]. apply pushes_left; [done| |done]. exists h. by split.
    + eapply (untouched h h1 b); [done|done|set_solver].
  - rewrite (load_ok _ _ _ _ Hb). cbn [rightChild].
    destruct (appliesTo h (filterCondition f) (addr r2)) eqn:Har.
    + destruct (createFilterPlan_ok h r2 (filterCondition f) Hor) as (h1 & g1 & -> & Hg & Ho1 & Hfr).
      pose proof (relink_right _ _ _ _ _ _ _ _ Hoi Ho1 Hfr) as Hbec.
      rewrite (store_ok _ _ (MkNode _ g (addr l2) (addr r2) (addr i2))).
      * eexists _, _. split_and!; [done|exact Hbec|]. apply pushes_right; [done| |done]. exists h. by split.
      * eapply (untouched h h1 b); [done|done|set_solver].
    + exists h, (Plan b g l2 r2 i2). split_and!; [done|by apply became_refl|]. apply pushes_stays.
      intros c [= <-] _. exists h. by split.
Qed.

Definition run_child (n : nat) (p : ptr) : prog Heap unit :=
  match p with
  | Some _ => optimizePlan n p
  | None => prog_ret tt
  end.

(** With the fuel [n] the optimiser makes of a tree [t] of any heap one that satisfies [Q]. *)
Definition runs (n : nat) (t : plan nat) (Q : plan nat -> Prop) : Prop := forall h,
  owns h t -> exists h' t', run_child n (addr t) h = (h', Ret tt) /\ became h h' t t' /\ Q t'.

(** The three recursive calls. *)
Lemma optimizePlan_children n h a f l r i (L R I : plan nat -> Prop) :
  runs n l L -> runs n r R -> runs n i I -> owns h (Plan a f l r i) ->
  exists h' l' r' i',
    (let! l0 := load (Some a) leftChild in run_child n l0;;;
     let! r0 := load (Some a) rightChild in run_child n r0;;;
     let! i0 := load (Some a) input in run_child n i0) h = (h', Ret tt) /\
    became h h' (Plan a f l r i) (Plan a f l' r' i') /\ L l' /\ R r' /\ I i'.
Proof.
  intros HL HR HI Ho. unfold prog_bind.
  destruct (owns_parts _ _ _ _ _ _ Ho) as (Hol & _ & _).
  rewrite (load_ok _ _ _ _ (proj1 (proj1 Ho))). cbn [leftChild].
  destruct (HL h Hol) as (h1 & l' & -> & Hb1 & El).
  apply (became_left _ _ a f l r i) in Hb1; [|done].
  pose proof (became_owns _ _ _ _ Hb1) as Ho1.
  destruct (owns_parts _ _ _ _ _ _ Ho1) as (_ & Hor & _).
  rewrite (load_ok _ _ _ _ (proj1 (proj1 Ho1))). cbn [rightChild].
  destruct (HR h1 Hor) as (h2 & r' & -> & Hb2 & Er).
  apply (became_right _ _ a f l' r i) in Hb2; [|done].
  pose proof (became_owns _ _ _ _ Hb2) as Ho2.
  destruct (owns_parts _ _ _ _ _ _ Ho2) as (_ & _ & Hoi).
  rewrite (load_ok _ _ _ _ (proj1 (proj1 Ho2))). cbn [input].
  destruct (HI h2 Hoi) as (h3 & i' & -> & Hb3 & Ei).
  apply (became_input _ _ a f l' r' i) in Hb3; [|done].
  exists h3, l', r', i'. split_and!; eauto using became_trans.
Qed.

Lemma runs_null n (Q : plan nat -> Prop) : Q Null -> runs n Null Q.
Proof. intros HQ h Ho. exists h, Null. split_and!; [done|by apply became_refl|done]. Qed.

(** A node that is no filter only visits its parts. *)
Lemma runs_other n a f l r i (L R I : plan nat -> Prop) (Q : plan nat -> Prop) :
  type f <> PlanNodeType.Filter -> runs n l L -> runs n r R -> runs n i I ->
  (forall l' r' i', L l' -> R r' -> I i' -> Q (Plan a f l' r' i')) -> runs (S n) (Plan a f l r i) Q.
Proof.
  intros Hty HL HR HI HQ h Ho. cbn [run_child addr optimizePlan]. fold (run_child n). unfold prog_bind at 1.
  rewrite (load_ok _ _ _ _ (proj1 (proj1 Ho))). cbn [fields]. rewrite decide_False by done.
  destruct (optimizePlan_children n h a f l r i L R I HL HR HI Ho)
    as (h' & l' & r' & i' & Hrun & Hb & Hl & Hr & Hi).
  exists h', (Plan a f l' r' i'). split_and!; [exact Hrun|done|auto].
Qed.

(** A filter first pushes its condition into its input. *)
Lemma runs_filter n a f l r i (L R I : plan nat -> Prop) (Q : plan nat -> Prop) :
  type f = PlanNodeType.Filter -> i <> Null -> runs n l L -> runs n r R ->
  (forall i1, pushes (Some (filterCondition f)) i i1 -> runs n i1 I) ->
  (forall l' r' i', L l' -> R r' -> I i' -> Q (Plan a f l' r' i')) -> runs (S n) (Plan a f l r i) Q.
Proof.
  intros Hty Hi HL HR HI HQ h Ho. cbn [run_child addr optimizePlan]. fold (run_child n). unfold prog_bind at 1.
  rewrite (load_ok _ _ _ _ (proj1 (proj1 Ho))). cbn [fields]. rewrite decide_True by done.
  destruct (pushDownFilter_ok h a f l r i Ho Hi) as (h1 & i1 & Hp & Hb & Hpush).
  apply (became_input _ _ a f l r i) in Hb; [|done]. unfold prog_bind at 1. rewrite Hp.
  destruct (optimizePlan_children n h1 a f l r i1 L R I HL HR (HI i1 Hpush) (became_owns _ _ _ _ Hb))
    as (h' & l' & r' & i' & Hrun & Hb' & Hl & Hr & Hi').
  exists h', (Plan a f l' r' i'). split_and!; [exact Hrun|by eapply became_trans|auto].
Qed.

(** With fuel for twice its depth, a plan into which a filter has been pushed is optimised. *)
Definition optimises (n : nat) : Prop := forall above t t1,
  complete t -> 2 * depth t <= n -> pushes above t t1 -> runs n t1 (pushed above t).

(** A filter that has just been put on a side of a join. *)
Lemma runs_new_filter n b c g t :
  optimises n -> filter_over c t g -> t <> Null -> complete t -> 2 * depth t <= n ->
  runs (S n) (Plan b g Null Null t) (fun t' => exists l', t' = Plan b g Null Null l' /\ pushed (Some c) t l').
Proof.
  intros IH (h & _ & Hg) Ht Hc Hd.
  apply (runs_filter n b g Null Null t (fun t' => t' = Null) (fun t' => t' = Null) (pushed (Some c) t));
    [by rewrite Hg|done|by apply runs_null..| |].
  - intros i1 Hp. rewrite Hg in Hp. cbn in Hp. by apply IH.
  - intros l' r' i' -> -> Hi. eauto.
Qed.

Lemma pushes_none t : pushes None t t.
Proof. destruct t; constructor; done. Qed.

Lemma optimizePlan_ok n : optimises n.
Proof.
  induction n as [n IH] using lt_wf_ind. intros above t t1 Hc Hd Hp.
  destruct t as [|a f l r i]; [inversion Hp; subst; apply runs_null; constructor|].
  cbn [complete depth] in Hc, Hd. destruct Hc as (Hfi & Hjoin & Hcl & Hcr & Hci).
  destruct n as [|[|n]]; [lia|lia|].
  assert (IH1 : optimises (S n)) by (apply IH; lia). assert (IH0 : optimises n) by (apply IH; lia).
  assert (Hplain : forall t, complete t -> 2 * depth t <= S n -> runs (S n) t (pushed None t)).
  { intros t Ht Hdt. apply IH1; [done|done|apply pushes_none]. }
  inversion Hp as [|? ? ? ? ? ? Hst|c ? ? ? ? ? b g Hj Hon Hg|c ? ? ? ? ? b g Hj Hon Hg]; subst.
  - destruct (decide (type f = PlanNodeType.Filter)) as [Hty|Hty].
    + apply (runs_filter _ _ _ _ _ _ (pushed None l) (pushed None r) (pushed (Some (filterCondition f)) i));
        [done|by apply Hfi|apply Hplain; [done|lia]..| |].
      * intros i1 Hi1. apply IH1; [done|lia|done].
      * intros l' r' i' Hl Hr Hi. apply pushed_stays; [done..|]. unfold condition_of. by rewrite decide_True.
    + apply (runs_other _ _ _ _ _ _ (pushed None l) (pushed None r) (pushed None i)); [done|apply Hplain; [done|lia]..|].
      intros l' r' i' Hl Hr Hi. apply pushed_stays; [done..|]. unfold condition_of. by rewrite decide_False.
  - destruct (Hjoin Hj) as [Hl0 _].
    eapply (runs_other _ _ _ _ _ _ _ (pushed None r) (pushed None i));
      [by rewrite Hj|apply (runs_new_filter n b c g l); [done..|lia]|apply Hplain; [done|lia]..|].
    intros l' r' i' (l2 & -> & Hl) Hr Hi. eapply pushed_left; [done..|].
    unfold condition_of. by rewrite Hj.
  - destruct (Hjoin Hj) as [_ Hr0].
    eapply (runs_other _ _ _ _ _ _ (pushed None l) _ (pushed None i));
      [by rewrite Hj|apply Hplain; [done|lia]|apply (runs_new_filter n b c g r); [done..|lia]|apply Hplain; [done|lia]|].
    intros l' r' i' Hl (r2 & -> & Hr) Hi. eapply pushed_right; [done..|].
    unfold condition_of. by rewrite Hj.
Qed.

(** C7.  [optimizePlan], whatever [appliesTo] and the cost estimates do.  On a plan whose nodes are not
    shared, whose filters have an input and whose joins have two, it returns: its recursion is at most
    twice as deep as the plan.  In the plan at the root every node is then at its address with its
    members as before; a join right below a filter has got one new filter with the same condition on
    its left side if [appliesTo] says so, otherwise on its right side if it says so there, otherwise
    none; the new filter is pushed on into the plan below it in the same way; and no node outside the
    plan has changed. *)
Theorem physical_plan_optimised h t fuel :
  owns h t -> complete t -> t <> Null -> 2 * depth t <= fuel ->
  exists h' t', optimizePlan fuel (addr t) h = (h', Ret tt) /\
    owns h' t' /\ addr t' = addr t /\ pushed None t t' /\
    forall a, a < length h -> a ∉ addrs t -> h' !! a = h !! a.
Proof.
  intros Ho Hc Hn Hd.
  destruct (optimizePlan_ok fuel None t t Hc Hd (pushes_none t) h Ho) as (h' & t' & Hrun & [Ho' Ha Hfr] & Hp).
  exists h', t'. destruct t as [|a f l r i]; [done|]. split_and!; [exact Hrun|done|done|done|].
  apply (frame_keeps _ _ _ _ Hfr).
Qed.

End reference.

(** ** Examples *)

(** Tables of numbers; a condition asks for a value of a table, and applies to a scan of its table. *)
Module Employees.

#[export] Instance types : PlanTypes :=
  {| Table := nat; Index := unit; FilterCondition := nat * Z; Column := unit; SortColumn := unit;
     AggregateFunction := unit; UpdateSet := unit; noCondition := (0, 0%Z); noUpdate := tt |}.

Definition scans (f : Fields) (t : nat) : bool :=
  bool_decide (type f = PlanNodeType.SequentialScan /\ table f = Some t).

Definition noCost : double := S754_zero false.

#[export] Instance env : PlanEnv :=
  {| appliesTo h c p := match p ≫= (fun a => h !! a) with
                        | Some n => scans (fields n) c.1
                        | None => false
                        end;
     estimateSequentialScanCost _ := d_of_Z 100;
     estimateIndexScanCost _ _ := d_of_Z 10;
     estimateHashJoinCost _ _ _ := d_of_Z 300;
     estimateMergeJoinCost _ _ _ := d_of_Z 300;
     estimateNestedLoopJoinCost _ _ _ := d_of_Z 900;
     estimateFilterCost _ _ _ := d_of_Z 5;
     estimateProjectionCost _ _ _ := noCost;
     estimateSortCost _ _ _ := noCost;
     estimateLimitCost _ _ _ := noCost;
     estimateAggregateCost _ _ _ := noCost;
     estimateUnionCost _ _ _ := noCost;
     estimateIntersectionCost _ _ _ := noCost;
     estimateDifferenceCost _ _ _ := noCost;
     estimateDistinctCost _ _ := noCost;
     estimateDeleteCost _ _ := noCost;
     estimateUpdateCost _ _ _ := noCost |}.

(** Employees 1 joined with departments 2, and the rows of department 3 kept. *)
Definition build : prog Heap ptr :=
  let! employees := createSequentialScanPlan (Some 1) in
  let! departments := createSequentialScanPlan (Some 2) in
  let! join := createJoinPlan employees departments JoinType.HashJoin in
  createFilterPlan join (2, 3%Z).

Definition heap : Heap := (build []).1.

(** The tree at a pointer, as far as [fuel] reaches. *)
Fixpoint tree (fuel : nat) (h : Heap) (p : ptr) : plan nat :=
  match fuel, p with
  | S k, Some a =>
      match h !! a with
      | Some n => Plan a (fields n) (tree k h (leftChild n)) (tree k h (rightChild n))
                    (tree k h (input n))
      | None => Null
      end
  | _, _ => Null
  end.

(** The filter on the departments is pushed below the join, and stays above it too. *)
Example pushed_right :
  let h' := (optimizePlan 8 (Some 3) heap).1 in
  let name (n : PhysicalPlanNode) := (type (fields n), leftChild n, rightChild n, input n) in
  name <$> heap = [(PlanNodeType.SequentialScan, None, None, None);
                   (PlanNodeType.SequentialScan, None, None, None);
                   (PlanNodeType.Join, Some 0, Some 1, None);
                   (PlanNodeType.Filter, None, None, Some 2)] /\
  name <$> h' = [(PlanNodeType.SequentialScan, None, None, None);
                 (PlanNodeType.SequentialScan, None, None, None);
                 (PlanNodeType.Join, Some 0, Some 4, None);
                 (PlanNodeType.Filter, None, None, Some 2);
                 (PlanNodeType.Filter, None, None, Some 1)].
Proof. vm_compute. done. Qed.

(** A join that is the input of two nodes: the filter above one of them is pushed into both. *)
Definition build_shared : prog Heap ptr :=
  let! filter := build in
  createUnionPlan filter (Some 2).

Example shared_join_filtered :
  let h' := (optimizePlan 8 (Some 4) (build_shared []).1).1 in
  let parts (n : PhysicalPlanNode) := (type (fields n), leftChild n, rightChild n, input n) in
  (parts <$> h' !! 2) = Some (PlanNodeType.Join, Some 0, Some 5, None) /\
  (parts <$> h' !! 4) = Some (PlanNodeType.Union, Some 3, Some 2, None) /\
  (parts <$> h' !! 5) = Some (PlanNodeType.Filter, None, None, Some 1).
Proof. vm_compute. done. Qed.

(** A join type that the code does not know: the node is allocated and nothing refers to it. *)
Example unknown_join :
  let '(h, o) := createJoinPlan None None (JoinType.other 7) [] in
  length h = 1 /\ o = Throw (invalid_argument "Invalid join type").
Proof. vm_compute. done. Qed.

Lemma physical_plan_optimised_witness :
  exists h' t', optimizePlan 6 (Some 3) heap = (h', Ret tt) /\ addr t' = Some 3 /\
    pushed None (tree 4 heap (Some 3)) t'.
Proof.
  destruct (physical_plan_optimised heap (tree 4 heap (Some 3)) 6)
    as (h' & t' & Hrun & _ & Ha & Hp & _).
  - split; [vm_compute; repeat split|apply (bool_decide_unpack _); vm_compute; exact I].
  - vm_compute. repeat split; discriminate.
  - vm_compute. discriminate.
  - vm_compute. lia.
  - exists h', t'. split; [exact Hrun|]. split; [exact Ha|exact Hp].
Defined.

End Employees.
