(* ===== verification/SqlParser.v ===== *)
(** * The SQL parser ([query_processor/parser/sql_parser.cpp])

    The tokenizer and the recursive-descent parser for [SELECT]. The tokenizer's position is the rest
    of the input; the functions of [<cctype>] are called with a signed [char], so that the tokenizer has
    no defined behaviour on most characters outside ASCII. *)

From S2P Require Import Prelude Text.
From Stdlib Require Import Ascii.

#[local] Arguments String.append !_ _ / : simpl nomatch.

(** ** Tokens *)

Inductive TokenType : Set :=
| SELECT | INSERT | UPDATE | DELETE | FROM | WHERE | INTO | VALUES | SET_ | AND | OR
| IDENTIFIER | NUMBER | COMMA | SEMICOLON | EQUALS | STAR | UNKNOWN.
#[export] Instance TokenType_eq_dec : EqDecision TokenType.
Proof. solve_decision. Defined.

Record Token : Type := MkToken { type : TokenType; value : string }.

(** ** Syntax trees *)

Inductive ASTNode : Type :=
| ASTIdentifier (identifier : string)
| ASTValue (value : string)
| ASTBinaryExpression (left right : ASTNode) (op : string)
| ASTSQLCommand (command : string) (children : list ASTNode).

Fixpoint print (n : ASTNode) : string :=
  match n with
  | ASTIdentifier i => "Identifier(" +:+ i +:+ ")"
  | ASTValue v => "Value(" +:+ v +:+ ")"
  | ASTBinaryExpression l r op =>
      "BinaryExpression(" +:+ print l +:+ " " +:+ op +:+ " " +:+ print r +:+ ")"
  | ASTSQLCommand c cs =>
      "SQLCommand(" +:+ c +:+ foldr (fun n acc => ", " +:+ print n +:+ acc) ")" cs
  end.

(** ** The tokenizer *)

Definition keywords : gmap string TokenType :=
  {[ "SELECT" := SELECT; "INSERT" := INSERT; "UPDATE" := UPDATE; "DELETE" := DELETE; "FROM" := FROM;
     "WHERE" := WHERE; "INTO" := INTO; "VALUES" := VALUES; "SET" := SET_; "AND" := AND; "OR" := OR ]}.

(** [std::isspace], [std::isalpha] and [std::isdigit] take a value of [unsigned char] or [EOF]: a negative
    [char] is neither, except for the character 255, which is [EOF] and in no class. *)
Definition classified (c : ascii) : bool :=
  (nat_of_ascii c <? 128)%nat || (nat_of_ascii c =? 255)%nat.

Fixpoint skipSpaces (s : string) : outcome string :=
  match s with
  | EmptyString => Ret EmptyString
  | String a s' => if classified a then if is_space a then skipSpaces s' else Ret s
                   else Undef bad_character
  end.

(** The longest prefix of characters that satisfy [p], and the rest. *)
Fixpoint span (p : ascii -> bool) (s : string) : outcome (string * string) :=
  match s with
  | EmptyString => Ret (EmptyString, EmptyString)
  | String a s' =>
      if classified a then
        if p a then '(w, r) ← span p s'; mret (String a w, r) else Ret (EmptyString, s)
      else Undef bad_character
  end.

Definition is_alnum (c : ascii) : bool := is_alpha c || is_digit c.

(** The token of a word: its keyword, or an identifier. *)
Definition word_token (w : string) : Token := MkToken (default IDENTIFIER (keywords !! w)) w.

Definition nextToken (s : string) : outcome (Token * string) :=
  s ← skipSpaces s;
  match s with
  | EmptyString => Ret (MkToken UNKNOWN EmptyString, EmptyString)
  | String c r =>
      if is_alpha c then '(w, r) ← span is_alnum (String c r); mret (word_token w, r)
      else if is_digit c then '(w, r) ← span is_digit (String c r); mret (MkToken NUMBER w, r)
      else if bool_decide (c = ","%char) then Ret (MkToken COMMA ",", r)
      else if bool_decide (c = ";"%char) then Ret (MkToken SEMICOLON ";", r)
      else if bool_decide (c = "="%char) then Ret (MkToken EQUALS "=", r)
      else if bool_decide (c = "*"%char) then Ret (MkToken STAR "*", r)
      else Ret (MkToken UNKNOWN (String c EmptyString), r)
  end.

(** ** The parser *)

(** The rest of the input and the current token. *)
Record SQLParser : Type := MkParser { tokenizer : string; currentToken : Token }.

Definition SQLParseException (message : string) : exn := runtime_error message.

Definition consumeToken : prog SQLParser unit := fun s =>
  match nextToken (tokenizer s) with
  | Ret (t, r) => (MkParser r t, Ret tt)
  | Throw e => (s, Throw e)
  | Hang => (s, Hang)
  | Undef u => (s, Undef u)
  end.

(** The constructor reads the first token. *)
Definition newParser (sql : string) : outcome SQLParser :=
  '(t, r) ← nextToken sql; mret (MkParser r t).

Definition parseIdentifier : prog SQLParser ASTNode := fun s =>
  (if decide (type (currentToken s) = IDENTIFIER)
   then consumeToken ;;; prog_ret (ASTIdentifier (value (currentToken s)))
   else prog_throw (SQLParseException "Expected identifier"))%prog s.

Definition parseValue : prog SQLParser ASTNode := fun s =>
  (if decide (type (currentToken s) = NUMBER)
   then consumeToken ;;; prog_ret (ASTValue (value (currentToken s)))
   else prog_throw (SQLParseException "Expected number"))%prog s.

Definition parseCondition : prog SQLParser ASTNode :=
  (let! left := parseIdentifier in
   let! t := prog_gets (fun s => type (currentToken s)) in
   if decide (t = EQUALS)
   then consumeToken ;;;
        let! right := parseValue in prog_ret (ASTBinaryExpression left right "=")
   else prog_throw (SQLParseException "Expected '='"))%prog.

Definition parseSelect : prog SQLParser ASTNode :=
  (consumeToken ;;;
   let! column := parseIdentifier in
   consumeToken ;;;
   let! table := parseIdentifier in
   let! t := prog_gets (fun s => type (currentToken s)) in
   if decide (t = WHERE)
   then consumeToken ;;;
        let! cond := parseCondition in prog_ret (ASTSQLCommand "SELECT" [column; table; cond])
   else prog_ret (ASTSQLCommand "SELECT" [column; table]))%prog.

Definition parse : prog SQLParser ASTNode := fun s =>
  (if decide (type (currentToken s) = SELECT) then parseSelect
   else prog_throw (SQLParseException "Unknown SQL command"))%prog s.

Definition parse_sql (sql : string) : outcome ASTNode := s ← newParser sql; snd (parse s).

(** [main]: the text on the standard output, or the text on the standard error. *)
Definition main (sql : string) : outcome (string + string) :=
  match parse_sql sql with
  | Ret ast => Ret (inl (print ast))
  | Throw (runtime_error what) => Ret (inr ("SQL Parse Error: " +:+ what))
  | Throw e => Throw e
  | Hang => Hang
  | Undef u => Undef u
  end.

Example main_parses :
  main "SELECT column1 FROM table1 WHERE column1 = 10;" =
    Ret (inl "SQLCommand(SELECT, Identifier(column1), Identifier(table1), BinaryExpression(Identifier(column1) = Value(10)))").
Proof. vm_compute. reflexivity. Qed.

(** [FROM] is not checked: any token in its place is skipped. *)
Example from_not_checked :
  parse_sql "SELECT a , b" = parse_sql "SELECT a FROM b".
Proof. vm_compute. reflexivity. Qed.

(** ** Names, numbers and queries *)

Definition is_name (w : string) : Prop :=
  match w with
  | EmptyString => False
  | String a w' => is_alpha a = true /\ all_chars is_alnum w' = true
  end /\ keywords !! w = None.
Definition is_number (w : string) : Prop := w ≠ EmptyString /\ all_chars is_digit w = true.

(** The text does not continue a word or a number. *)
Definition ends_word (r : string) : Prop :=
  match r with String a _ => is_alnum a = false | EmptyString => True end.

Record query : Type := MkQuery { column : string; table : string; cond : option (string * string) }.

Definition valid_query (q : query) : Prop :=
  is_name (column q) /\ is_name (table q) /\
  match cond q with Some (x, v) => is_name x /\ is_number v | None => True end.

Definition ast_of (q : query) : ASTNode :=
  ASTSQLCommand "SELECT" ([ASTIdentifier (column q); ASTIdentifier (table q)] ++
    match cond q with
    | Some (x, v) => [ASTBinaryExpression (ASTIdentifier x) (ASTValue v) "="]
    | None => []
    end).

(** The text of a query with [sep] where [FROM] is expected. *)
Definition text_with (sep : string) (q : query) : string :=
  "SELECT " +:+ column q +:+ " " +:+ sep +:+ " " +:+ table q +:+
    match cond q with Some (x, v) => " WHERE " +:+ x +:+ " = " +:+ v | None => EmptyString end.

(** The first [n] tokens of a text. *)
Fixpoint tokenize (n : nat) (s : string) : outcome (list Token) :=
  match n with
  | O => Ret []
  | S n => '(t, r) ← nextToken s; ts ← tokenize n r; mret (t :: ts)
  end.

(** [sep] reads as exactly one token before a space. *)
Definition one_token (sep : string) : Prop :=
  forall r, exists t, nextToken (sep +:+ String " " r) = Ret (t, String " " r).

(** The tokens that make up a query: the one between the column and the table may be anything. *)
Definition select_tokens (ts : list Token) (q : query) : Prop :=
  match ts, cond q with
  | [t0; t1; skipped; t2; next], None =>
      type t0 = SELECT /\ t1 = MkToken IDENTIFIER (column q) /\ t2 = MkToken IDENTIFIER (table q) /\
      type next ≠ WHERE
  | [t0; t1; skipped; t2; t3; t4; t5; t6; next], Some (x, v) =>
      type t0 = SELECT /\ t1 = MkToken IDENTIFIER (column q) /\ t2 = MkToken IDENTIFIER (table q) /\
      type t3 = WHERE /\ t4 = MkToken IDENTIFIER x /\ type t5 = EQUALS /\ t6 = MkToken NUMBER v
  | _, _ => False
  end.

Lemma is_alpha_not_space c : is_alpha c = true -> is_space c = false.
Proof. destruct c as [[] [] [] [] [] [] [] []]; intros H; try discriminate H; reflexivity. Qed.

Lemma is_alnum_classified c : is_alnum c = true -> classified c = true.
Proof. destruct c as [[] [] [] [] [] [] [] []]; intros H; try discriminate H; reflexivity. Qed.

Lemma is_space_classified c : is_space c = true -> classified c = true.
Proof. destruct c as [[] [] [] [] [] [] [] []]; intros H; try discriminate H; reflexivity. Qed.

(** ** The tokenizer on words and numbers *)

(** Text that neither continues a word nor starts with a character the tokenizer cannot classify. *)
Definition starts_classified (r : string) : Prop :=
  match r with String a _ => classified a = true | EmptyString => True end.

Lemma nextToken_classified s x : nextToken s = Ret x -> starts_classified s.
Proof. destruct s as [|a s]; [done|]. unfold nextToken. cbn [skipSpaces]. unfold starts_classified.
  by destruct (classified a). Qed.

Lemma span_app p w r :
  (forall c, p c = true -> classified c = true) -> all_chars p w = true -> starts_classified r ->
  match r with String a _ => p a = false | EmptyString => True end ->
  span p (w +:+ r) = Ret (w, r).
Proof.
  intros Hp Hw Hc Hr. induction w as [|a w IH]; cbn [String.append].
  - destruct r as [|b r]; [done|]. cbn [span]. cbn in Hc. by rewrite Hc, Hr.
  - cbn [all_chars] in Hw. apply andb_true_iff in Hw as [Ha Hw]. cbn [span].
    rewrite (Hp a Ha), Ha, IH by done. done.
Qed.

Lemma span_all p s w r : span p s = Ret (w, r) -> all_chars p w = true.
Proof.
  revert w r. induction s as [|a s IH]; intros w r; cbn [span]; [by intros [= <- _]|].
  destruct (classified a); [|done]. destruct (p a) eqn:E; [|by intros [= <- _]].
  destruct (span p s) as [[w' r']|?| |?]; try done. intros [= <- _]. cbn [all_chars]. rewrite E. by apply (IH w' r').
Qed.

Lemma nextToken_space a s : is_space a = true -> nextToken (String a s) = nextToken s.
Proof.
  intros Ha. unfold nextToken. cbn [skipSpaces]. by rewrite (is_space_classified a), Ha.
Qed.

Lemma skipSpaces_here a s : classified a = true -> is_space a = false -> skipSpaces (String a s) = Ret (String a s).
Proof. intros Hc Hs. cbn [skipSpaces]. by rewrite Hc, Hs. Qed.

Lemma nextToken_word a w r :
  is_alpha a = true -> all_chars is_alnum w = true -> ends_word r -> starts_classified r ->
  nextToken (String a w +:+ r) = Ret (word_token (String a w), r).
Proof.
  intros Ha Hw Hr Hc. assert (Hal : is_alnum a = true) by (unfold is_alnum; by rewrite Ha).
  unfold nextToken. cbn [String.append].
  rewrite skipSpaces_here by (by apply is_alnum_classified || by apply is_alpha_not_space). obind.
  rewrite Ha. change (String a (w +:+ r)) with (String a w +:+ r).
  rewrite span_app; [done|apply is_alnum_classified| |done|done]. cbn [all_chars]. by rewrite Hal.
Qed.

Lemma nextToken_name w r :
  is_name w -> ends_word r -> starts_classified r -> nextToken (w +:+ r) = Ret (MkToken IDENTIFIER w, r).
Proof.
  intros [Hw Hk] Hr Hc. destruct w as [|a w]; [done|]. destruct Hw as [Ha Hw].
  rewrite nextToken_word by done. unfold word_token. by rewrite Hk.
Qed.

Lemma nextToken_number w r :
  is_number w -> ends_word r -> starts_classified r -> nextToken (w +:+ r) = Ret (MkToken NUMBER w, r).
Proof.
  intros [Hne Hw] Hr Hc. destruct w as [|a w]; [done|]. pose proof Hw as Hd. cbn [all_chars] in Hd.
  apply andb_true_iff in Hd as [Ha _]. unfold nextToken. cbn [String.append].
  assert (Hdig : forall c, is_digit c = true -> classified c = true)
    by (intros c Hd; apply is_alnum_classified; unfold is_alnum; rewrite Hd; by destruct (is_alpha c)).
  rewrite skipSpaces_here by (by apply Hdig || by apply is_digit_not_space). obind.
  assert (Hna : is_alpha a = false).
  { clear -Ha. destruct a as [[] [] [] [] [] [] [] []]; try discriminate Ha; reflexivity. }
  rewrite Hna, Ha. change (String a (w +:+ r)) with (String a w +:+ r). rewrite span_app; [done|done|done|done|].
  destruct r as [|b r]; [done|]. simpl in Hr. unfold is_alnum in Hr. by apply orb_false_iff in Hr as [_ Hr].
Qed.

(** What the tokens of names and numbers hold. *)
Lemma nextToken_inv s t r :
  nextToken s = Ret (t, r) ->
  (type t = IDENTIFIER -> is_name (value t)) /\ (type t = NUMBER -> is_number (value t)).
Proof.
  unfold nextToken. destruct (skipSpaces s) as [[|c x]|?| |?]; try done; obind; [by intros [= <- _]|].
  destruct (is_alpha c) eqn:Hc.
  - destruct (span is_alnum (String c x)) as [[w r']|?| |?] eqn:Hs; try done. obind. intros [= <- _].
    pose proof (span_all _ _ _ _ Hs) as Hall. cbn [span] in Hs.
    assert (Hal : is_alnum c = true) by (unfold is_alnum; by rewrite Hc).
    rewrite Hal, (is_alnum_classified c) in Hs by done.
    destruct (span is_alnum x) as [[w1 r1]|?| |?]; try done. injection Hs as <- _.
    assert (Hk : forall x y, keywords !! x = Some y -> y ≠ IDENTIFIER /\ y ≠ NUMBER).
    { intros x' y. unfold keywords. repeat (rewrite lookup_insert; case_decide; [by intros [= <-]|]).
      rewrite lookup_singleton. case_decide; [by intros [= <-]|done]. }
    unfold word_token. cbn [type value]. destruct (keywords !! String c w1) as [ty|] eqn:E.
    + apply Hk in E as [E1 E2]. simpl. by split; intros ->.
    + simpl. split; [|done]. intros _. split; [|done]. split; [done|]. cbn [all_chars] in Hall.
      by apply andb_true_iff in Hall as [_ Hall].
  - destruct (is_digit c) eqn:Hd.
    + destruct (span is_digit (String c x)) as [[w r']|?| |?] eqn:Hs; try done. obind. intros [= <- _].
      pose proof (span_all _ _ _ _ Hs) as Hall. split; [done|]. intros _. split; [|done]. cbn [value].
      cbn [span] in Hs. rewrite Hd in Hs. destruct (classified c); [|done].
      destruct (span is_digit x) as [[w1 r1]|?| |?]; try done. by injection Hs as <- _.
    + repeat case_bool_decide; by intros [= <- _].
Qed.

(** ** The parser on tokens *)

Lemma tokenize_cons n s t ts :
  tokenize (S n) s = Ret (t :: ts) <-> exists r, nextToken s = Ret (t, r) /\ tokenize n r = Ret ts.
Proof.
  cbn [tokenize]. destruct (nextToken s) as [[t' r]|?| |?]; obind; [|naive_solver..].
  destruct (tokenize n r) as [ts'|?| |?] eqn:E; obind; split; try done; [intros [= <- <-]; eauto|..];
    intros (r' & Hr & Ht); injection Hr as <- <-; rewrite E in Ht; by simplify_eq.
Qed.

Lemma consume_ret s s' :
  consumeToken s = (s', Ret tt) <-> nextToken (tokenizer s) = Ret (currentToken s', tokenizer s').
Proof.
  unfold consumeToken. destruct (nextToken (tokenizer s)) as [[t r]|?| |?]; [|done..].
  destruct s' as [r' t']. cbn. split; [by intros [= <- <-]|by intros [= <- <-]].
Qed.

Lemma bind_ret {S A B : Type} (m : prog S A) (f : A -> prog S B) s s' b :
  prog_bind m f s = (s', Ret b) <-> exists s1 a, m s = (s1, Ret a) /\ f a s1 = (s', Ret b).
Proof. unfold prog_bind. destruct (m s) as [s1 [a|?| |?]]; naive_solver. Qed.

Lemma parseIdentifier_ret s s' n :
  parseIdentifier s = (s', Ret n) <->
  exists w, currentToken s = MkToken IDENTIFIER w /\ n = ASTIdentifier w /\
    nextToken (tokenizer s) = Ret (currentToken s', tokenizer s').
Proof.
  unfold parseIdentifier. setoid_rewrite <-consume_ret. destruct s as [x [ty w]]. cbn [currentToken type value].
  split.
  - case_decide as E; [subst ty|done]. intros (s1 & [] & H & [= <- <-])%bind_ret. eauto.
  - intros (w' & [= -> <-] & -> & H). rewrite decide_True by done. apply bind_ret. eauto.
Qed.

Lemma parseValue_ret s s' n :
  parseValue s = (s', Ret n) <->
  exists w, currentToken s = MkToken NUMBER w /\ n = ASTValue w /\
    nextToken (tokenizer s) = Ret (currentToken s', tokenizer s').
Proof.
  unfold parseValue. setoid_rewrite <-consume_ret. destruct s as [x [ty w]]. cbn [currentToken type value].
  split.
  - case_decide as E; [subst ty|done]. intros (s1 & [] & H & [= <- <-])%bind_ret. eauto.
  - intros (w' & [= -> <-] & -> & H). rewrite decide_True by done. apply bind_ret. eauto.
Qed.

(** A condition, from the token it starts with. *)
Lemma parseCondition_ret s n :
  (exists s', parseCondition s = (s', Ret n)) <->
  exists x v t5 next, n = ASTBinaryExpression (ASTIdentifier x) (ASTValue v) "=" /\
    currentToken s = MkToken IDENTIFIER x /\ type t5 = EQUALS /\
    tokenize 3 (tokenizer s) = Ret [t5; MkToken NUMBER v; next].
Proof.
  unfold parseCondition. split.
  - intros (s' & (s1 & l & (x & Hx & -> & H1)%parseIdentifier_ret & H)%bind_ret).
    apply bind_ret in H as (? & t & [= <- <-] & H). case_decide as E; [|done].
    apply bind_ret in H as (s2 & [] & H2%consume_ret & H).
    apply bind_ret in H as (s3 & rv & (v & Hv & -> & H3)%parseValue_ret & [= <- <-]).
    exists x, v, (currentToken s1), (currentToken s3). split_and!; [done..|].
    rewrite tokenize_cons. eexists. split; [done|]. rewrite tokenize_cons. eexists.
    rewrite <-Hv. split; [done|]. rewrite tokenize_cons. eauto.
  - intros (x & v & t5 & next & -> & Hx & H5 & Ht).
    apply tokenize_cons in Ht as (r1 & H1 & Ht). apply tokenize_cons in Ht as (r2 & H2 & Ht).
    apply tokenize_cons in Ht as (r3 & H3 & _).
    exists (MkParser r3 next). apply bind_ret. exists (MkParser r1 t5), (ASTIdentifier x).
    split; [apply parseIdentifier_ret; eauto|]. apply bind_ret. exists (MkParser r1 t5), (type t5).
    split; [done|]. rewrite decide_True by done. apply bind_ret. exists (MkParser r2 (MkToken NUMBER v)), tt.
    split; [by apply consume_ret|]. apply bind_ret. exists (MkParser r3 next), (ASTValue v).
    split; [apply parseValue_ret; eauto|done].
Qed.

(** The part of [parseSelect] after the table. *)
Lemma select_rest_ret col tab s n :
  (exists s', (let! t := prog_gets (fun s => type (currentToken s)) in
     if decide (t = WHERE)
     then consumeToken ;;;
          let! c := parseCondition in prog_ret (ASTSQLCommand "SELECT" [col; tab; c])
     else prog_ret (ASTSQLCommand "SELECT" [col; tab]))%prog s = (s', Ret n)) <->
  (type (currentToken s) ≠ WHERE /\ n = ASTSQLCommand "SELECT" [col; tab]) \/
  (type (currentToken s) = WHERE /\ exists x v t5 next,
     n = ASTSQLCommand "SELECT" [col; tab; ASTBinaryExpression (ASTIdentifier x) (ASTValue v) "="] /\
     type t5 = EQUALS /\
     tokenize 4 (tokenizer s) = Ret [MkToken IDENTIFIER x; t5; MkToken NUMBER v; next]).
Proof.
  split.
  - intros (s' & (? & t & [= <- <-] & H)%bind_ret). case_decide as E; [right|left; by injection H as <- <-].
    split; [done|]. apply bind_ret in H as (s1 & [] & H1%consume_ret & H).
    apply bind_ret in H as (s2 & c & Hc & [= <- <-]).
    destruct (proj1 (parseCondition_ret s1 c)) as (x & v & t5 & next & -> & Hx & H5 & Ht); [eauto|].
    exists x, v, t5, next. split_and!; [done..|]. apply tokenize_cons. rewrite Hx in H1. eauto.
  - intros [[E ->]|(E & x & v & t5 & next & -> & H5 & (r & H1 & Ht)%tokenize_cons)].
    + exists s. apply bind_ret. eexists s, _. split; [done|]. by rewrite decide_False.
    + destruct (proj2 (parseCondition_ret (MkParser r (MkToken IDENTIFIER x))
        (ASTBinaryExpression (ASTIdentifier x) (ASTValue v) "="))) as (s' & Hs'); [by exists x, v, t5, next|].
      exists s'. apply bind_ret. eexists s, _. split; [done|]. rewrite decide_True by done.
      apply bind_ret. exists (MkParser r (MkToken IDENTIFIER x)), tt. split; [by apply consume_ret|].
      apply bind_ret. eauto.
Qed.

(** The parser accepts exactly the texts whose first tokens make up a query. *)
Lemma parse_sql_tokens sql ast :
  parse_sql sql = Ret ast ->
  exists q ts, tokenize (length ts) sql = Ret ts /\ select_tokens ts q /\ ast = ast_of q.
Proof.
  unfold parse_sql, newParser.
  destruct (nextToken sql) as [[t0 r0]|?| |?] eqn:H0; try done. obind. unfold parse. cbn [currentToken].
  case_decide as E; [|done]. intros H. destruct (parseSelect _) as [s' o] eqn:Hp. cbn in H. subst o.
  apply bind_ret in Hp as (s1 & [] & H1%consume_ret & Hp).
  apply bind_ret in Hp as (s2 & c & (col & Hcol & -> & H2)%parseIdentifier_ret & Hp).
  apply bind_ret in Hp as (s3 & [] & H3%consume_ret & Hp).
  apply bind_ret in Hp as (s4 & c & (tab & Htab & -> & H4)%parseIdentifier_ret & Hp).
  destruct (proj1 (select_rest_ret (ASTIdentifier col) (ASTIdentifier tab) s4 ast))
    as [[Hw ->]|(Hw & x & v & t5 & next & -> & H5 & Ht)]; [by eexists|..].
  + exists (MkQuery col tab None), [t0; currentToken s1; currentToken s2; currentToken s3; currentToken s4].
    split; [|done]. repeat (apply tokenize_cons; eexists; split; [done|]). done.
  + exists (MkQuery col tab (Some (x, v))),
      ([t0; currentToken s1; currentToken s2; currentToken s3; currentToken s4] ++
       [MkToken IDENTIFIER x; t5; MkToken NUMBER v; next]).
    split; [|done]. cbn [length app]. do 5 (apply tokenize_cons; eexists; split; [done|]). done.
Qed.

Lemma parse_tokens_sql sql ast q ts :
  tokenize (length ts) sql = Ret ts -> select_tokens ts q -> ast = ast_of q -> parse_sql sql = Ret ast.
Proof.
  intros Ht Hsel ->. destruct q as [col tab cd]. unfold parse_sql, newParser. unfold select_tokens in Hsel. cbn [column table cond] in Hsel.
  destruct ts as [|t0 [|t1 [|sk [|t2 [|t3 rest]]]]]; try done.
  cbn [length] in Ht. apply tokenize_cons in Ht as (r0 & H0 & (r1 & H1 & Ht)%tokenize_cons).
  apply tokenize_cons in Ht as (r2 & H2 & (r3 & H3 & (r4 & H4 & Ht)%tokenize_cons)%tokenize_cons).
  rewrite H0. obind. unfold parse. cbn [currentToken].
  assert (E : type t0 = SELECT /\ t1 = MkToken IDENTIFIER col /\ t2 = MkToken IDENTIFIER tab)
    by (destruct rest as [|? [|? [|? [|? [|? ?]]]]]; destruct cd as [[? ?]|]; naive_solver).
  destruct E as (E0 & -> & ->). rewrite decide_True by done.
  destruct (proj2 (select_rest_ret (ASTIdentifier col) (ASTIdentifier tab) (MkParser r4 t3)
    (ast_of (MkQuery col tab cd)))) as [s' Hs'].
  { cbn [currentToken tokenizer]. destruct rest as [|t4 [|t5 [|t6 [|next [|? ?]]]]]; destruct cd as [[x v]|];
      try done; [left; naive_solver|right]. destruct Hsel as (_ & _ & _ & Hw & -> & H5 & ->).
    split; [done|]. by exists x, v, t5, next. }
  assert (Hp : parseSelect (MkParser r0 t0) = (s', Ret (ast_of (MkQuery col tab cd)))); [|by rewrite Hp].
  apply bind_ret. exists (MkParser r1 (MkToken IDENTIFIER col)), tt. split; [by apply consume_ret|].
  apply bind_ret. exists (MkParser r2 sk), (ASTIdentifier col). split; [apply parseIdentifier_ret; eauto|].
  apply bind_ret. exists (MkParser r3 (MkToken IDENTIFIER tab)), tt. split; [by apply consume_ret|].
  apply bind_ret. exists (MkParser r4 t3), (ASTIdentifier tab). split; [apply parseIdentifier_ret; eauto|done].
Qed.

(** ** Parsing always ends *)

(** On classified characters a step of the parser returns or throws a parse error. *)
Definition safe {A : Type} (m : prog SQLParser A) : Prop :=
  forall s, all_chars classified (tokenizer s) = true ->
  match m s with
  | (s', Ret _) => all_chars classified (tokenizer s') = true
  | (_, Throw e) => exists what, e = SQLParseException what
  | _ => False
  end.

Lemma safe_ret {A : Type} (a : A) : safe (prog_ret a).
Proof. by intros s Hs. Qed.
Lemma safe_throw {A : Type} what : safe (prog_throw (A := A) (SQLParseException what)).
Proof. intros s Hs. cbn. eauto. Qed.
Lemma safe_gets {A : Type} (f : SQLParser -> A) : safe (prog_gets f).
Proof. by intros s Hs. Qed.
Lemma safe_bind {A B : Type} (m : prog SQLParser A) (f : A -> prog SQLParser B) :
  safe m -> (forall a, safe (f a)) -> safe (prog_bind m f).
Proof.
  intros Hm Hf s Hs. unfold prog_bind. specialize (Hm s Hs). destruct (m s) as [s1 [a|?| |?]]; [|done..].
  by apply Hf.
Qed.
#[local] Hint Resolve safe_ret safe_throw safe_gets safe_bind : core.

Lemma span_safe p s :
  all_chars classified s = true -> exists w r, span p s = Ret (w, r) /\ all_chars classified r = true.
Proof.
  induction s as [|a s IH]; intros Hs; [by eexists _, _|]. pose proof Hs as Hall. cbn [all_chars] in Hs.
  apply andb_true_iff in Hs as [Ha Hs]. destruct (IH Hs) as (w & r & Hw & Hr). cbn [span]. rewrite Ha, Hw.
  destruct (p a); eexists _, _; by split.
Qed.

Lemma skipSpaces_safe s :
  all_chars classified s = true -> exists r, skipSpaces s = Ret r /\ all_chars classified r = true.
Proof.
  induction s as [|a s IH]; intros Hs; [by eexists|]. pose proof Hs as Hall. cbn [all_chars] in Hs.
  apply andb_true_iff in Hs as [Ha Hs]. cbn [skipSpaces]. rewrite Ha. destruct (is_space a); eauto.
Qed.

Lemma nextToken_safe s :
  all_chars classified s = true -> exists t r, nextToken s = Ret (t, r) /\ all_chars classified r = true.
Proof.
  intros Hs. unfold nextToken. destruct (skipSpaces_safe s Hs) as (r & -> & Hr). obind.
  destruct r as [|c r]; [by eexists _, _|]. pose proof (span_safe is_alnum _ Hr) as (w1 & r1 & -> & H1).
  pose proof (span_safe is_digit _ Hr) as (w2 & r2 & -> & H2). obind.
  cbn [all_chars] in Hr. apply andb_true_iff in Hr as [_ Hr].
  repeat case_match; eexists _, _; by split.
Qed.

Lemma consumeToken_safe : safe consumeToken.
Proof.
  intros s Hs. unfold consumeToken. by destruct (nextToken_safe _ Hs) as (t & r & -> & Hr).
Qed.

Lemma parse_safe : safe parse.
Proof.
  assert (Hid : safe parseIdentifier /\ safe parseValue).
  { split; intros s Hs; unfold parseIdentifier, parseValue; case_decide; cbn; try (by eauto);
      apply (safe_bind _ _ consumeToken_safe); auto. }
  destruct Hid as [Hid Hval]. pose proof consumeToken_safe as Hc.
  assert (Hcond : safe parseCondition).
  { apply safe_bind; [done|]. intros l. apply safe_bind; [auto|]. intros t. case_decide; auto. }
  assert (Hsel : safe parseSelect).
  { apply safe_bind; [done|]. intros _. apply safe_bind; [done|]. intros c. apply safe_bind; [done|].
    intros _. apply safe_bind; [done|]. intros tb. apply safe_bind; [auto|]. intros t. case_decide; auto. }
  intros s Hs. unfold parse. case_decide; [by apply Hsel|cbn; eauto].
Qed.

(** ** Correctness *)

Lemma nextToken_after_space w r : is_name w -> ends_word r -> starts_classified r ->
  nextToken (String " " (w +:+ r)) = Ret (MkToken IDENTIFIER w, r).
Proof. intros Hw Hr Hc. rewrite nextToken_space by done. by apply nextToken_name. Qed.

Lemma tokenize_where x v trail t :
  is_name x -> is_number v -> ends_word trail -> nextToken trail = Ret t ->
  tokenize 5 (" WHERE " +:+ x +:+ " = " +:+ v +:+ trail) =
    Ret [MkToken WHERE "WHERE"; MkToken IDENTIFIER x; MkToken EQUALS "="; MkToken NUMBER v; t.1].
Proof.
  intros Hx Hv He Ht. destruct t as [t r]. pose proof (nextToken_classified _ _ Ht) as Hc.
  apply tokenize_cons. exists (" " +:+ x +:+ " = " +:+ v +:+ trail). split.
  { cbn [String.append]. rewrite nextToken_space by done.
    exact (nextToken_word "W" "HERE" (" " +:+ x +:+ " = " +:+ v +:+ trail) eq_refl eq_refl eq_refl eq_refl). }
  apply tokenize_cons. exists (" = " +:+ v +:+ trail).
  split; [by apply (nextToken_after_space x (" = " +:+ v +:+ trail))|].
  apply tokenize_cons. exists (" " +:+ v +:+ trail). split; [done|].
  apply tokenize_cons. exists trail. split.
  { cbn [String.append]. rewrite nextToken_space by done. by apply nextToken_number. }
  apply tokenize_cons. by exists r.
Qed.

Lemma tokenize_select sep q trail t :
  valid_query q -> one_token sep -> ends_word trail -> nextToken trail = Ret t ->
  (cond q = None -> type t.1 ≠ WHERE) ->
  exists ts, tokenize (length ts) (text_with sep q +:+ trail) = Ret ts /\ select_tokens ts q.
Proof.
  intros (Hc & Ht & Hcond) Hsep He Hn Hw. pose proof (nextToken_classified _ _ Hn) as Hcl.
  set (rest := match cond q with Some (x, v) => " WHERE " +:+ x +:+ " = " +:+ v | None => EmptyString end).
  assert (Hrest : exists more, tokenize (length more) (rest +:+ trail) = Ret more /\
      (forall t0 skipped, type t0 = SELECT -> select_tokens
        ([t0; MkToken IDENTIFIER (column q); skipped; MkToken IDENTIFIER (table q)] ++ more) q) /\
      ends_word (rest +:+ trail) /\ starts_classified (rest +:+ trail)).
  { unfold rest, select_tokens. destruct (cond q) as [[x v]|].
    - destruct Hcond as [Hx Hv]. eexists [_; _; _; _; _]. rewrite !app_string_assoc.
      split; [by apply tokenize_where|]. done.
    - exists [t.1]. destruct t as [t r]. split; [apply tokenize_cons; by exists r|].
      split; [|done]. intros t0 sk H0. cbn. auto. }
  destruct Hrest as (more & Hmore & Hsel & He' & Hc').
  destruct (Hsep (table q +:+ rest +:+ trail)) as [sk Hsk].
  exists ([MkToken SELECT "SELECT"; MkToken IDENTIFIER (column q); sk; MkToken IDENTIFIER (table q)] ++ more).
  split; [|by apply Hsel]. unfold text_with. fold rest. rewrite !app_string_assoc. cbn [length app].
  apply tokenize_cons. eexists. split.
  { exact (nextToken_word "S" "ELECT" (" " +:+ column q +:+ " " +:+ sep +:+ " " +:+ table q +:+ rest +:+ trail)
      eq_refl eq_refl eq_refl eq_refl). }
  apply tokenize_cons. eexists. split.
  { by apply (nextToken_after_space (column q) (" " +:+ sep +:+ " " +:+ table q +:+ rest +:+ trail)). }
  apply tokenize_cons. eexists. split; [cbn [String.append]; rewrite nextToken_space by done; exact Hsk|].
  apply tokenize_cons. eexists. split; [by apply (nextToken_after_space (table q) (rest +:+ trail))|done].
Qed.

Lemma select_tokens_valid ts q sql :
  tokenize (length ts) sql = Ret ts -> select_tokens ts q -> valid_query q.
Proof.
  assert (Hall : forall ts sql, tokenize (length ts) sql = Ret ts -> Forall (fun t =>
      (type t = IDENTIFIER -> is_name (value t)) /\ (type t = NUMBER -> is_number (value t))) ts).
  { clear. induction ts as [|t ts IH]; intros sql Ht; [constructor|].
    apply tokenize_cons in Ht as (r & H1 & Ht). constructor; [by eapply nextToken_inv|by eapply IH]. }
  intros Ht Hs. specialize (Hall _ _ Ht). destruct q as [col tab cd]. unfold select_tokens, valid_query in *.
  cbn [column table cond] in *.
  destruct ts as [|t0 [|t1 [|sk [|t2 [|t3 [|t4 [|t5 [|t6 [|t7 [|? ?]]]]]]]]]]; try done;
    destruct cd as [[x v]|]; try done; rewrite !Forall_cons in Hall.
  - destruct Hs as (_ & -> & -> & _), Hall as (_ & H1 & _ & H2 & _).
    split_and!; [by apply H1|by apply H2|done].
  - destruct Hs as (_ & -> & -> & _ & -> & _ & ->), Hall as (_ & H1 & _ & H2 & _ & H4 & _ & H6 & _).
    split_and!; [by apply H1|by apply H2|by apply H4|by apply H6].
Qed.


(** A text with [FROM], one with another token in its place, and one with a character outside ASCII. *)
Example from_is_one_token : one_token "FROM" /\ one_token ",".
Proof.
  split; intros r; eexists; [|done].
  exact (nextToken_word "F" "ROM" (String " " r) eq_refl eq_refl eq_refl eq_refl).
Qed.

Example accent_undefined :
  parse_sql ("SELECT caf" +:+ String (Ascii.ascii_of_nat 233) " FROM t") = Undef bad_character.
Proof. vm_compute. reflexivity. Qed.

