(* ===== verification/NosqlParser.v ===== *)
(** * The NoSQL parser ([query_processor/parser/nosql_parser.cpp])

    A query is split at white space; keyword positions and pairs of tokens fill the fields and the
    conditions. *)

From S2P Require Import Prelude Text.
From Stdlib Require Import Ascii.

(** ** Queries *)

Record Query : Type := MkQuery {
  operation : string;
  collection : string;
  fields : gmap string string;
  conditions : gmap string string
}.

Definition newQuery (op coll : string) : Query := MkQuery op coll ∅ ∅.
Definition addField (k v : string) (q : Query) : Query :=
  MkQuery (operation q) (collection q) (<[k := v]> (fields q)) (conditions q).
Definition addCondition (k v : string) (q : Query) : Query :=
  MkQuery (operation q) (collection q) (fields q) (<[k := v]> (conditions q)).

(** ** Parsing *)

(** [tokens[i]], undefined past the end. *)
Definition token (tokens : list string) (i : nat) : outcome string :=
  match tokens !! i with Some t => Ret t | None => Undef index_out_of_range end.

(** [for (i = start; i < stop; i += 2) add(tokens[i], tokens[i + 1])]; every round moves [i] by two,
    so the number of tokens is enough fuel. *)
Fixpoint add_pairs (fuel : nat) (add : string -> string -> Query -> Query) (tokens : list string)
    (i stop : nat) (q : Query) : outcome Query :=
  match fuel with
  | O => Ret q
  | S fuel =>
      if i <? stop then
        k ← token tokens i;
        v ← token tokens (S i);
        add_pairs fuel add tokens (S (S i)) stop (add k v q)
      else Ret q
  end.

(** [findPosition]: the first position of the keyword, or the number of tokens. *)
Fixpoint findPosition (tokens : list string) (keyword : string) : nat :=
  match tokens with
  | [] => 0
  | t :: tokens => if decide (t = keyword) then 0 else S (findPosition tokens keyword)
  end.
Definition findWherePosition (tokens : list string) : nat := findPosition tokens "WHERE".

Definition parseWhereClause (tokens : list string) (wherePos : nat) (q : Query) : outcome Query :=
  add_pairs (length tokens) addCondition tokens (S wherePos) (length tokens) q.

Definition parseInsert (tokens : list string) (q : Query) : outcome Query :=
  add_pairs (length tokens) addField tokens 3 (length tokens) q.

(** The fields of a [SELECT] are the tokens from the third up to [WHERE]. *)
Definition parseSelect (tokens : list string) (q : Query) : outcome Query :=
  let wherePos := findWherePosition tokens in
  let q := foldl (fun q t => addField t EmptyString q) q (drop 2 (take wherePos tokens)) in
  if wherePos <? length tokens then parseWhereClause tokens wherePos q else Ret q.

Definition parseUpdate (tokens : list string) (q : Query) : outcome Query :=
  let setPos := findPosition tokens "SET" in
  let wherePos := findPosition tokens "WHERE" in
  q ← add_pairs (length tokens) addField tokens (S setPos) wherePos q;
  if wherePos <? length tokens then parseWhereClause tokens wherePos q else Ret q.

Definition parseDelete (tokens : list string) (q : Query) : outcome Query :=
  let wherePos := findPosition tokens "WHERE" in
  if wherePos <? length tokens then parseWhereClause tokens wherePos q else Ret q.

Definition parse_tokens (tokens : list string) : outcome Query :=
  op ← token tokens 0;
  coll ← token tokens 1;
  let q := newQuery op coll in
  if decide (op = "INSERT") then parseInsert tokens q
  else if decide (op = "SELECT") then parseSelect tokens q
  else if decide (op = "UPDATE") then parseUpdate tokens q
  else if decide (op = "DELETE") then parseDelete tokens q
  else Ret q.

Definition parse (query : string) : outcome Query := parse_tokens (words query).

Example main_update :
  parse "UPDATE users SET name Mike age 31 WHERE id 123" =
    Ret (MkQuery "UPDATE" "users" {[ "name" := "Mike"; "age" := "31" ]} {[ "id" := "123" ]}).
Proof. vm_compute. reflexivity. Qed.

(** The collection is the second token, so [INSERT INTO users ...] names the collection [INTO]. *)
Example main_insert :
  parse "INSERT INTO users name Mike age 30" =
    Ret (MkQuery "INSERT" "INTO" {[ "name" := "Mike"; "age" := "30" ]} ∅).
Proof. vm_compute. reflexivity. Qed.

(** A key without its value reads past the tokens. *)
Example odd_tokens_undefined : parse "INSERT INTO users name" = Undef index_out_of_range.
Proof. vm_compute. reflexivity. Qed.

(** ** Pairs of tokens *)

Definition flat (kvs : list (string * string)) : list string := kvs ≫= (fun kv => [kv.1; kv.2]).

(** The map of a list of pairs, later ones first. *)
Definition pairs_map (kvs : list (string * string)) (m : gmap string string) : gmap string string :=
  foldl (fun m kv => <[kv.1 := kv.2]> m) m kvs.

Lemma length_flat kvs : length (flat kvs) = 2 * length kvs.
Proof. induction kvs as [|kv kvs IH]; [done|]. unfold flat in *. rewrite bind_cons, length_app, IH. simpl. lia. Qed.

Lemma add_pairs_flat add kvs : forall fuel pre post q,
  length kvs < fuel ->
  add_pairs fuel add (pre ++ flat kvs ++ post) (length pre) (length pre + length (flat kvs)) q =
    Ret (foldl (fun q kv => add kv.1 kv.2 q) q kvs).
Proof.
  induction kvs as [|[k v] kvs IH]; intros fuel pre post q Hf; (destruct fuel as [|fuel]; [simpl in Hf; lia|]).
  - cbn [add_pairs]. simpl. rewrite Nat.add_0_r, Nat.ltb_irrefl. done.
  - cbn [add_pairs]. rewrite length_flat. simpl in Hf.
    assert (E : (length pre <? length pre + 2 * length ((k, v) :: kvs)) = true) by (apply Nat.ltb_lt; simpl; lia).
    rewrite E. unfold flat. rewrite bind_cons. fold (flat kvs). unfold token.
    rewrite (lookup_app_r pre _ (length pre)), (lookup_app_r pre _ (S (length pre))) by lia. rewrite Nat.sub_diag. replace (S (length pre) - length pre) with 1 by lia.
    cbn [app lookup list_lookup fst snd]. obind.
    specialize (IH fuel (pre ++ [k; v]) post (add k v q) ltac:(lia)).
    rewrite length_app, length_flat, <-(assoc_L (++)) in IH. cbn [length app foldl] in *.
    replace (length pre + 2) with (S (S (length pre))) in IH by lia.
    replace (length pre + 2 * S (length kvs)) with (S (S (length pre)) + 2 * length kvs) by lia. exact IH.
Qed.

(** The loop stops at once when the start is not before the end. *)
Lemma add_pairs_stop fuel add tokens i stop q : stop <= i -> add_pairs fuel add tokens i stop q = Ret q.
Proof.
  intros H. destruct fuel as [|fuel]; [done|]. cbn [add_pairs].
  assert (E : (i <? stop) = false) by (by apply Nat.ltb_ge). by rewrite E.
Qed.

Lemma fold_fields kvs : forall q,
  foldl (fun q kv => addField kv.1 kv.2 q) q kvs =
    MkQuery (operation q) (collection q) (pairs_map kvs (fields q)) (conditions q).
Proof. induction kvs as [|kv kvs IH]; intros q; [by destruct q|]. cbn [foldl]. by rewrite IH. Qed.

Lemma fold_conditions kvs : forall q,
  foldl (fun q kv => addCondition kv.1 kv.2 q) q kvs =
    MkQuery (operation q) (collection q) (fields q) (pairs_map kvs (conditions q)).
Proof. induction kvs as [|kv kvs IH]; intros q; [by destruct q|]. cbn [foldl]. by rewrite IH. Qed.

Lemma findPosition_app l r k : k ∉ l -> findPosition (l ++ k :: r) k = length l.
Proof.
  induction l as [|x l IH]; intros Hl; simpl; [by rewrite decide_True|].
  rewrite decide_False by set_solver. rewrite IH; [done|set_solver].
Qed.

Lemma findPosition_none l k : k ∉ l -> findPosition l k = length l.
Proof.
  induction l as [|x l IH]; intros Hl; simpl; [done|]. rewrite decide_False by set_solver.
  rewrite IH; [done|set_solver].
Qed.

(** ** Statements *)

(** The forms of the four operations; [clause] holds the conditions, if any. *)
Inductive statement : Type :=
| Insert (coll target : string) (kvs : list (string * string))
| Select (coll : string) (names : list string) (clause : option (list (string * string)))
| Update (coll : string) (kvs : list (string * string)) (clause : option (list (string * string)))
| Delete (coll : string) (more : list string) (clause : option (list (string * string))).

Definition where_tokens (w : option (list (string * string))) : list string :=
  match w with Some kvs => "WHERE" :: flat kvs | None => [] end.

(** The tokens before [WHERE], and all of them. *)
Definition head_tokens (st : statement) : list string :=
  match st with
  | Insert coll target kvs => ["INSERT"; coll; target] ++ flat kvs
  | Select coll names _ => ["SELECT"; coll] ++ names
  | Update coll kvs _ => ["UPDATE"; coll; "SET"] ++ flat kvs
  | Delete coll more _ => ["DELETE"; coll] ++ more
  end.
Definition where_of (st : statement) : option (list (string * string)) :=
  match st with Insert _ _ _ => None | Select _ _ w | Update _ _ w | Delete _ _ w => w end.
Definition tokens_of (st : statement) : list string := head_tokens st ++ where_tokens (where_of st).

Definition query_of (st : statement) : Query :=
  let conds := pairs_map (default [] (where_of st)) ∅ in
  match st with
  | Insert coll _ kvs => MkQuery "INSERT" coll (pairs_map kvs ∅) ∅
  | Select coll names _ => MkQuery "SELECT" coll (pairs_map ((fun n => (n, EmptyString)) <$> names) ∅) conds
  | Update coll kvs _ => MkQuery "UPDATE" coll (pairs_map kvs ∅) conds
  | Delete coll _ _ => MkQuery "DELETE" coll ∅ conds
  end.

Definition is_word (w : string) : Prop :=
  w ≠ EmptyString /\ all_chars (fun c => negb (is_space c)) w = true.

(** Tokens are words, and no keyword stands before its place. *)
Definition wf (st : statement) : Prop :=
  Forall is_word (tokens_of st) /\
  match st with
  | Insert _ _ _ => True
  | Update coll _ _ => coll ≠ "SET" /\ ("WHERE" ∉ head_tokens st)
  | _ => "WHERE" ∉ head_tokens st
  end.

Lemma words_join ts : Forall is_word ts -> words (join " " ts) = ts.
Proof.
  intros Hts. unfold words. assert (Hp : pieces is_space (join " " ts) = match ts with [] => [EmptyString] | _ => ts end).
  { induction Hts as [|t ts [Hne Ht] Hts IH]; [done|]. destruct ts as [|u ts].
    - by apply pieces_none.
    - cbn [join] in *. rewrite (pieces_app is_space t) by done. by rewrite IH. }
  rewrite Hp. destruct ts as [|t ts]; [done|]. apply list_filter_all.
  eapply Forall_impl; [done|]. by intros w [Hw _].
Qed.

(** The [WHERE] clause after tokens without the keyword. *)
Lemma where_ok head w q :
  "WHERE" ∉ head ->
  let tokens := head ++ where_tokens w in
  let wherePos := findPosition tokens "WHERE" in
  wherePos = length head /\
  (if wherePos <? length tokens then parseWhereClause tokens wherePos q else Ret q) =
    Ret (MkQuery (operation q) (collection q) (fields q) (pairs_map (default [] w) (conditions q))).
Proof.
  intros Hh tokens wherePos. subst wherePos tokens. destruct w as [kvs|]; cbn [where_tokens default from_option].
  - assert (E : findPosition (head ++ "WHERE" :: flat kvs) "WHERE" = length head) by (by apply findPosition_app).
    rewrite E. split; [done|].
    assert (El : (length head <? length (head ++ "WHERE" :: flat kvs)) = true)
      by (apply Nat.ltb_lt; rewrite length_app; simpl; lia).
    rewrite El. unfold parseWhereClause.
    pose proof (add_pairs_flat addCondition kvs (length (head ++ "WHERE" :: flat kvs)) (head ++ ["WHERE"]) [] q) as H.
    rewrite app_nil_r, <-(assoc_L (++)) in H. cbn [app] in H.
    rewrite !length_app in *. cbn [length] in *. rewrite length_flat in *.
    replace (length head + 1) with (S (length head)) in H by lia.
    replace (length head + S (2 * length kvs)) with (S (length head) + 2 * length kvs) in * by lia.
    rewrite H by lia. by rewrite fold_conditions.
  - rewrite app_nil_r, findPosition_none by done. split; [done|]. rewrite Nat.ltb_irrefl. by destruct q.
Qed.

Lemma fold_names names : forall q,
  foldl (fun q t => addField t EmptyString q) q names =
    MkQuery (operation q) (collection q) (pairs_map ((fun n => (n, EmptyString)) <$> names) (fields q)) (conditions q).
Proof. induction names as [|n names IH]; intros q; [by destruct q|]. cbn [foldl]. by rewrite IH. Qed.

Lemma parse_tokens_ok st :
  wf st -> parse_tokens (tokens_of st) = Ret (query_of st).
Proof.
  intros [_ Hwf]. destruct st as [coll target kvs|coll names w|coll kvs w|coll more w]; unfold parse_tokens, tokens_of.
  - change (head_tokens (Insert coll target kvs) ++ where_tokens (where_of (Insert coll target kvs)))
      with (["INSERT"; coll; target] ++ flat kvs ++ []).
    unfold token. cbn [app lookup list_lookup]. obind. rewrite decide_True by done. unfold parseInsert.
    pose proof (add_pairs_flat addField kvs (length ("INSERT" :: coll :: target :: flat kvs ++ [])) ["INSERT"; coll; target] []
      (newQuery "INSERT" coll)) as H. cbn [app length] in *. rewrite app_nil_r in *. rewrite length_flat in *.
    change (3 + 2 * length kvs) with (S (S (S (2 * length kvs)))) in H. rewrite H by lia. by rewrite fold_fields.
  - destruct (where_ok (head_tokens (Select coll names w)) w
      (MkQuery "SELECT" coll (pairs_map ((fun n => (n, EmptyString)) <$> names) ∅) ∅) Hwf) as [E H].
    cbn [where_of head_tokens app] in *. unfold token. cbn [lookup list_lookup]. obind.
    rewrite decide_False, decide_True by done. unfold parseSelect, findWherePosition. rewrite E in *.
    set (tokens := "SELECT" :: coll :: names ++ where_tokens w) in *.
    assert (Ed : drop 2 (take (length ("SELECT" :: coll :: names)) tokens) = names).
    { subst tokens. cbn [length take drop]. by rewrite take_app_length. }
    rewrite Ed, fold_names. cbn [newQuery operation collection fields conditions] in *. by rewrite H.
  - destruct Hwf as [Hset Hwf].
    destruct (where_ok (head_tokens (Update coll kvs w)) w
      (MkQuery "UPDATE" coll (pairs_map kvs ∅) ∅) Hwf) as [E H].
    cbn [where_of head_tokens app] in *. unfold token. cbn [lookup list_lookup]. obind.
    rewrite decide_False, decide_False, decide_True by done. unfold parseUpdate. rewrite E in *.
    set (tokens := "UPDATE" :: coll :: "SET" :: flat kvs ++ where_tokens w) in *.
    assert (Es : findPosition tokens "SET" = 2).
    { subst tokens. simpl. by rewrite decide_False. }
    rewrite Es.
    pose proof (add_pairs_flat addField kvs (length tokens) ["UPDATE"; coll; "SET"] (where_tokens w)
      (newQuery "UPDATE" coll)) as Hp. cbn [app length] in Hp. fold tokens in Hp.
    rewrite length_flat in Hp. cbn [length] in *. rewrite length_flat in *.
    change (3 + 2 * length kvs) with (S (S (S (2 * length kvs)))) in Hp.
    rewrite Hp by (subst tokens; simpl; rewrite length_app, length_flat; lia). obind. rewrite fold_fields.
    cbn [newQuery operation collection fields conditions] in *. by rewrite H.
  - destruct (where_ok (head_tokens (Delete coll more w)) w (newQuery "DELETE" coll) Hwf) as [E H].
    cbn [where_of head_tokens app] in *. unfold token. cbn [lookup list_lookup]. obind.
    rewrite decide_False, decide_False, decide_False, decide_True by done. unfold parseDelete. by rewrite H.
Qed.

(** Parsing a well-formed statement: the text of an [INSERT], [SELECT], [UPDATE] or [DELETE] whose
    keys all have a value and whose keywords stand only in their place gives a query with the second
    token as collection, exactly the given fields and exactly the given conditions, a later pair for
    the same key replacing an earlier one. *)
Lemma nosql_parse_statement (st : statement) :
  wf st -> parse (join " " (tokens_of st)) = Ret (query_of st).
Proof. intros Hwf. unfold parse. rewrite words_join by apply Hwf. by apply parse_tokens_ok. Qed.

Lemma nosql_parse_statement_witness :
  parse "UPDATE users SET name Mike age 31 WHERE id 123" =
    Ret (MkQuery "UPDATE" "users" {[ "name" := "Mike"; "age" := "31" ]} {[ "id" := "123" ]}).
Proof.
  apply (nosql_parse_statement (Update "users" [("name", "Mike"); ("age", "31")] (Some [("id", "123")]))).
  split.
  - repeat (apply Forall_cons_2; [split; [done|reflexivity]|]). apply Forall_nil_2.
  - split; [done|]. apply (bool_decide_unpack _). vm_compute. exact I.
Defined.

(** ** Printing *)

(** The pairs of a [std::map], in the order of its keys. *)
Definition key_le (a b : string * string) : Prop := String.leb a.1 b.1 = true.
#[local] Instance key_le_dec (a b : string * string) : Decision (key_le a b).
Proof. unfold key_le. apply _. Defined.
Definition in_key_order (m : gmap string string) : list (string * string) :=
  merge_sort key_le (map_to_list m).

Definition print_pairs (m : gmap string string) : string :=
  foldr (fun kv t => kv.1 +:+ ": " +:+ kv.2 +:+ ", " +:+ t) EmptyString (in_key_order m).

Definition print (q : Query) : list string :=
  ["Operation: " +:+ operation q; "Collection: " +:+ collection q;
   "Fields: " +:+ print_pairs (fields q); "Conditions: " +:+ print_pairs (conditions q)].

Fixpoint print_all (queries : list string) : outcome (list string) :=
  match queries with
  | [] => Ret []
  | text :: queries => q ← parse text; lines ← print_all queries; mret (print q ++ lines)
  end.

Definition main : outcome (list string) :=
  print_all ["INSERT INTO users name Mike age 30"; "SELECT name age FROM users WHERE id 123";
             "UPDATE users SET name Mike age 31 WHERE id 123"; "DELETE FROM users WHERE id 123"].

(** The second token is taken for the collection: [INTO], [name] and [FROM] in three of the four. *)
Example nosql_main_prints :
  main = Ret ["Operation: INSERT"; "Collection: INTO"; "Fields: age: 30, name: Mike, "; "Conditions: ";
              "Operation: SELECT"; "Collection: name"; "Fields: FROM: , age: , users: , ";
              "Conditions: id: 123, "; "Operation: UPDATE"; "Collection: users";
              "Fields: age: 31, name: Mike, "; "Conditions: id: 123, "; "Operation: DELETE";
              "Collection: FROM"; "Fields: "; "Conditions: id: 123, "].
Proof. vm_compute. reflexivity. Qed.
