(* ===== verification/JoinAlgorithms.v ===== *)
(** * Join algorithms ([query_processor/executor/join_algorithms.cpp])

    [hashJoin], [mergeJoin] and [nestedLoopJoin] over tables of rows, and when the two optimised
    algorithms agree with the nested loop. *)

From S2P Require Import Prelude Text.
Local Open Scope Z_scope.

Record Row : Type := MkRow { id : Z; value : string }.
Record JoinedRow : Type := MkJoined { jid : Z; leftValue : string; rightValue : string }.

#[export] Instance Row_eq_dec : EqDecision Row.
Proof. solve_decision. Defined.
#[export] Instance JoinedRow_eq_dec : EqDecision JoinedRow.
Proof. solve_decision. Defined.

(** [emplace_back(leftRow.id, leftRow.value, right)]. *)
Definition joined (l : Row) (v : string) : JoinedRow := MkJoined (id l) (value l) v.

(** ** Hash join *)

(** Build phase: a later row with the same id overwrites an earlier one. *)
Definition buildTable (rightTable : list Row) : gmap Z string :=
  foldl (fun h row => <[id row := value row]> h) ∅ rightTable.

(** Probe phase. *)
Definition hashJoin (leftTable rightTable : list Row) : list JoinedRow :=
  let hashTable := buildTable rightTable in
  foldl (fun res leftRow =>
           match hashTable !! id leftRow with
           | Some v => res ++ [joined leftRow v]
           | None => res
           end) [] leftTable.

(** ** Nested loop join *)

Definition nestedLoopJoin (leftTable rightTable : list Row) : list JoinedRow :=
  foldl (fun res leftRow =>
           foldl (fun res rightRow =>
                    if id leftRow =? id rightRow
                    then res ++ [joined leftRow (value rightRow)] else res) res rightTable)
    [] leftTable.

(** ** Merge join *)

(** The [while] loop; each step advances an index, so the fuel is the total number of rows. *)
Fixpoint mergeLoop (fuel leftIndex rightIndex : nat) (leftTable rightTable : list Row)
    (joinResult : list JoinedRow) : list JoinedRow :=
  match fuel with
  | O => joinResult
  | S fuel =>
      match leftTable !! leftIndex, rightTable !! rightIndex with
      | Some l, Some r =>
          if id l =? id r
          then mergeLoop fuel (S leftIndex) (S rightIndex) leftTable rightTable
                 (joinResult ++ [joined l (value r)])
          else if id l <? id r
          then mergeLoop fuel (S leftIndex) rightIndex leftTable rightTable joinResult
          else mergeLoop fuel leftIndex (S rightIndex) leftTable rightTable joinResult
      | _, _ => joinResult
      end
  end.

(** [sort] stands for [std::sort] with the comparison on [id]; the standard fixes its result only
    up to the order of rows with equal ids. *)
Definition mergeJoin (sort : list Row -> list Row) (leftTable rightTable : list Row)
    : list JoinedRow :=
  let leftTable := sort leftTable in
  let rightTable := sort rightTable in
  mergeLoop (length leftTable + length rightTable) 0 0 leftTable rightTable [].

Definition by_id (a b : Row) : Prop := id a <= id b.

(** What [std::sort] guarantees. *)
Definition sorts (sort : list Row -> list Row) : Prop :=
  forall l, sort l ≡ₚ l /\ StronglySorted by_id (sort l).

(** ** The relational join *)

(** All pairs of rows with equal ids, in the order of the nested loops. *)
Definition matches (l : Row) (R : list Row) : list JoinedRow :=
  (fun r => joined l (value r)) <$> filter (fun r => id l = id r) R.
Definition join (L R : list Row) : list JoinedRow := L ≫= fun l => matches l R.

Lemma foldl_snoc_bind {A B : Type} (f : A -> list B) (step : list B -> A -> list B) (l : list A) :
  (forall res a, step res a = res ++ f a) -> forall res, foldl step res l = res ++ (l ≫= f).
Proof.
  intros Hf. induction l as [|a l IH]; intros res; simpl; [by rewrite app_nil_r|].
  by rewrite IH, Hf, <-app_assoc.
Qed.

Lemma nestedLoopJoin_join L R : nestedLoopJoin L R = join L R.
Proof.
  unfold nestedLoopJoin, join. rewrite (foldl_snoc_bind (fun l => matches l R)); [done|].
  intros res l. unfold matches. revert res. induction R as [|r R IH]; intros res; simpl.
  - by rewrite app_nil_r.
  - rewrite IH, filter_cons. destruct (Z.eqb_spec (id l) (id r)) as [He|Hne].
    + rewrite decide_True by done. rewrite <-app_assoc. done.
    + by rewrite decide_False.
Qed.

(** Looking a key up in the hash table is finding the last row with that id. *)
Lemma buildTable_snoc R r : buildTable (R ++ [r]) = <[id r := value r]> (buildTable R).
Proof. unfold buildTable. by rewrite foldl_app. Qed.

Lemma buildTable_lookup R l :
  NoDup (id <$> R) ->
  match buildTable R !! id l with Some v => [joined l v] | None => [] end = matches l R.
Proof.
  unfold matches. induction R as [|r R IH] using rev_ind; intros Hnd; [done|].
  rewrite buildTable_snoc, filter_app, fmap_app. rewrite fmap_app in Hnd.
  apply NoDup_app in Hnd as (Hnd & Hd & _). specialize (IH Hnd).
  destruct (decide (id r = id l)) as [He|Hne].
  - rewrite He, lookup_insert_eq, filter_cons_True by done.
    rewrite (list_filter_none (fun r => id l = id r) R); [done|].
    apply Forall_forall. intros r' Hr' Heq. eapply Hd; [by apply (list_elem_of_fmap_2 id)|].
    rewrite <-Heq, <-He. left.
  - rewrite lookup_insert_ne, IH, filter_cons_False by done. simpl. by rewrite app_nil_r.
Qed.

Lemma hashJoin_join L R : NoDup (id <$> R) -> hashJoin L R = join L R.
Proof.
  intros Hnd. unfold hashJoin, join. rewrite (foldl_snoc_bind (fun l => matches l R)); [done|].
  intros res l. rewrite <-(buildTable_lookup R l Hnd).
  destruct (buildTable R !! id l); [done|]. by rewrite app_nil_r.
Qed.

(** ** Merging strictly sorted tables *)

Definition strictly (a b : Row) : Prop := id a < id b.

Lemma strictly_sorted l :
  StronglySorted by_id l -> NoDup (id <$> l) -> StronglySorted strictly l.
Proof.
  induction 1 as [|r l Hs IH Hr]; intros Hnd; [constructor|].
  rewrite fmap_cons in Hnd. apply NoDup_cons in Hnd as [Hn Hnd].
  constructor; [by apply IH|]. rewrite Forall_forall in Hr |- *. intros r' Hr'.
  specialize (Hr r' Hr'). unfold by_id, strictly in *.
  assert (id r ≠ id r'); [|lia]. intros Heq. apply Hn. rewrite Heq.
  by apply (list_elem_of_fmap_2 id).
Qed.

Lemma matches_none l R : Forall (fun r => id l ≠ id r) R -> matches l R = [].
Proof. intros H. unfold matches. by rewrite list_filter_none. Qed.

Lemma matches_skip l r R : id l ≠ id r -> matches l (r :: R) = matches l R.
Proof. intros H. unfold matches. by rewrite filter_cons_False. Qed.

Lemma join_cons l L R : join (l :: L) R = matches l R ++ join L R.
Proof. done. Qed.

(** A right row that no left row matches can be dropped. *)
Lemma join_skip_right L r R : Forall (fun l => id l ≠ id r) L -> join L (r :: R) = join L R.
Proof.
  induction 1 as [|l L Hl HL IH]; [done|]. by rewrite !join_cons, matches_skip, IH.
Qed.

Lemma mergeLoop_join L R : StronglySorted strictly L -> StronglySorted strictly R ->
  forall fuel i j acc,
  ((length L - i) + (length R - j) <= fuel)%nat ->
  mergeLoop fuel i j L R acc = acc ++ join (drop i L) (drop j R).
Proof.
  intros HL HR. induction fuel as [|fuel IH]; intros i j acc Hf; simpl.
  - rewrite (drop_ge L) by lia. by rewrite app_nil_r.
  - destruct (L !! i) as [l|] eqn:Hl.
    2: { rewrite (drop_ge L) by (by apply lookup_ge_None). by rewrite app_nil_r. }
    pose proof (lookup_lt_Some _ _ _ Hl). rewrite (drop_S L l i Hl).
    destruct (R !! j) as [r|] eqn:Hr.
    2: { rewrite (drop_ge R) by (by apply lookup_ge_None).
         replace (join (l :: drop (S i) L) []) with (@nil JoinedRow); [by rewrite app_nil_r|].
         symmetry. clear. induction (l :: drop (S i) L); [done|]. by rewrite join_cons. }
    pose proof (lookup_lt_Some _ _ _ Hr). rewrite (drop_S R r j Hr).
    assert (HsL : Forall (strictly l) (drop (S i) L)).
    { rewrite <-(take_drop i L), (drop_S L l i Hl) in HL. apply StronglySorted_app_1_r in HL.
      by apply StronglySorted_inv in HL as [_ ?]. }
    assert (HsR : Forall (strictly r) (drop (S j) R)).
    { rewrite <-(take_drop j R), (drop_S R r j Hr) in HR. apply StronglySorted_app_1_r in HR.
      by apply StronglySorted_inv in HR as [_ ?]. }
    destruct (Z.eqb_spec (id l) (id r)) as [He|Hne].
    + rewrite IH by lia. rewrite <-app_assoc. f_equal. rewrite join_cons, join_skip_right.
      * unfold matches. rewrite filter_cons_True by done.
        rewrite (list_filter_none (fun r => id l = id r)); [done|].
        eapply Forall_impl; [exact HsR|]. unfold strictly. simpl. lia.
      * eapply Forall_impl; [exact HsL|]. unfold strictly. simpl. lia.
    + destruct (Z.ltb_spec (id l) (id r)) as [Hlt|Hge].
      * rewrite IH by lia. rewrite (drop_S R r j Hr). f_equal.
        rewrite join_cons, matches_skip by lia. rewrite matches_none; [done|].
        eapply Forall_impl; [exact HsR|]. unfold strictly. simpl. lia.
      * rewrite IH by lia. rewrite (drop_S L l i Hl). f_equal. symmetry.
        apply join_skip_right. constructor; [lia|].
        eapply Forall_impl; [exact HsL|]. unfold strictly. simpl. lia.
Qed.

#[export] Instance matches_perm l : Proper ((≡ₚ) ==> (≡ₚ)) (matches l).
Proof. intros R R' HR. unfold matches. by rewrite HR. Qed.

#[export] Instance join_perm : Proper ((≡ₚ) ==> (≡ₚ) ==> (≡ₚ)) join.
Proof.
  intros L L' HL R R' HR. unfold join. rewrite HL. clear HL L.
  induction L' as [|l L' IH]; [done|]. simpl. by rewrite IH, HR.
Qed.

(** The hash join returns the rows of the nested-loop join, in the same order, when the ids of
    the right table are distinct. *)
Lemma hash_join_is_nested_loop (L R : list Row) :
  NoDup (id <$> R) -> hashJoin L R = nestedLoopJoin L R.
Proof. intros Hnd. by rewrite hashJoin_join, nestedLoopJoin_join. Qed.

(** The tables of [generateTestData]. *)
Definition leftData : list Row := [MkRow 1 "Left_One"; MkRow 2 "Left_Two"; MkRow 3 "Left_Three"].
Definition rightData : list Row :=
  [MkRow 2 "Right_Two"; MkRow 3 "Right_Three"; MkRow 4 "Right_Four"].

(** The merge join returns the rows of the nested-loop join, up to their order, when the ids
    are distinct in each table, whatever [std::sort] does with its freedom. *)
Lemma merge_join_is_nested_loop (sort : list Row -> list Row) (L R : list Row) :
  sorts sort -> NoDup (id <$> L) -> NoDup (id <$> R) ->
  mergeJoin sort L R ≡ₚ nestedLoopJoin L R.
Proof.
  intros Hsort HL HR. destruct (Hsort L) as [HpL HsL], (Hsort R) as [HpR HsR].
  rewrite nestedLoopJoin_join. unfold mergeJoin.
  rewrite (mergeLoop_join (sort L) (sort R));
    [|apply strictly_sorted; [done|by rewrite HpL]|apply strictly_sorted; [done|by rewrite HpR]|lia].
  rewrite !drop_0. simpl. by rewrite HpL, HpR.
Qed.

#[export] Instance by_id_dec a b : Decision (by_id a b).
Proof. unfold by_id. apply _. Defined.
#[export] Instance by_id_trans : Transitive by_id.
Proof. intros a b c. unfold by_id. lia. Qed.
#[export] Instance by_id_total : Total by_id.
Proof. intros a b. unfold by_id. lia. Qed.

Lemma merge_sort_sorts : sorts (merge_sort by_id).
Proof.
  intros l. split; [apply merge_sort_Permutation|]. apply StronglySorted_merge_sort; apply _.
Qed.

(** C39.  The three join algorithms agree when the ids of the right table are distinct: the hash join
    returns the rows of the nested-loop join in the same order, and the merge join, when those of the
    left table are distinct too, the same rows in some order, whatever [std::sort] does with its
    freedom. *)
Theorem join_algorithms_agree (sort : list Row -> list Row) (L R : list Row) :
  sorts sort -> NoDup (id <$> R) ->
  hashJoin L R = nestedLoopJoin L R /\
  (NoDup (id <$> L) -> mergeJoin sort L R ≡ₚ nestedLoopJoin L R).
Proof.
  intros Hs HR. split; [by apply hash_join_is_nested_loop|].
  intros HL. by apply merge_join_is_nested_loop.
Qed.

Lemma join_algorithms_agree_witness :
  hashJoin leftData rightData = nestedLoopJoin leftData rightData /\
  mergeJoin (merge_sort by_id) leftData rightData ≡ₚ nestedLoopJoin leftData rightData /\
  nestedLoopJoin leftData rightData =
    [MkJoined 2 "Left_Two" "Right_Two"; MkJoined 3 "Left_Three" "Right_Three"].
Proof.
  destruct (join_algorithms_agree (merge_sort by_id) leftData rightData) as [Hh Hm].
  - apply merge_sort_sorts.
  - apply (bool_decide_unpack _); vm_compute; exact I.
  - split; [exact Hh|]. split; [|vm_compute; reflexivity].
    apply Hm. apply (bool_decide_unpack _); vm_compute; exact I.
Defined.

(** With a repeated id on the right the hash join keeps one row of the two, and the merge join
    loses a match of a repeated id on the left. *)
Example hash_join_duplicate :
  let R := [MkRow 1 "a"; MkRow 1 "b"] in
  hashJoin [MkRow 1 "x"] R = [MkJoined 1 "x" "b"] /\
  nestedLoopJoin [MkRow 1 "x"] R = [MkJoined 1 "x" "a"; MkJoined 1 "x" "b"].
Proof. vm_compute. done. Qed.

Example merge_join_duplicate :
  mergeJoin (merge_sort by_id) [MkRow 1 "x"; MkRow 1 "y"] [MkRow 1 "a"] = [MkJoined 1 "x" "a"] /\
  length (nestedLoopJoin [MkRow 1 "x"; MkRow 1 "y"] [MkRow 1 "a"]) = 2%nat.
Proof. vm_compute. done. Qed.

(** ** The program *)

Definition printJoinResult (result : list JoinedRow) : list string :=
  (fun row => "ID: " +:+ to_string (jid row) +:+ ", Left Value: " +:+ leftValue row +:+
     ", Right Value: " +:+ rightValue row) <$> result.

Definition main (sort : list Row -> list Row) : list string :=
  ["Executing Hash Join:"] ++ printJoinResult (hashJoin leftData rightData) ++
  [""; "Executing Merge Join:"] ++ printJoinResult (mergeJoin sort leftData rightData) ++
  [""; "Executing Nested Loop Join:"] ++ printJoinResult (nestedLoopJoin leftData rightData).

(** The three joins of [main] print the same rows. *)
Example join_main_prints :
  let rows := ["ID: 2, Left Value: Left_Two, Right Value: Right_Two";
               "ID: 3, Left Value: Left_Three, Right Value: Right_Three"] in
  main (merge_sort by_id) =
    ["Executing Hash Join:"] ++ rows ++ [""; "Executing Merge Join:"] ++ rows ++
    [""; "Executing Nested Loop Join:"] ++ rows.
Proof. vm_compute. reflexivity. Qed.
