(* ===== verification/QueryExecutor.v ===== *)
(** * Query executor (src/query_processor/executor/query_executor.cpp)

    [executeQuery] begins a transaction, dispatches on the kind of the query and commits.  The storage
    engine, the tables, the join algorithms, the transaction manager and the buffer manager are reached
    through interfaces whose headers are not part of the repository: they are the members of the class
    [ExecEnv], calls that may change the world they share in any way and may throw.  The executor's own
    state is the join algorithms it has allocated with [new] and not yet deleted; beside it the model
    keeps the calls that the executor has made, in their order. *)

From S2P Require Import Prelude.
Local Open Scope prog_scope.

(** ** Data *)

Module QueryType.
Inductive t : Set := SELECT | INSERT | UPDATE | DELETE | other.
End QueryType.

Module LogicalOperatorType.
Inductive t : Set := SCAN | JOIN | FILTER | PROJECT | other.
End LogicalOperatorType.

Module JoinType.
Inductive t : Set := HASH_JOIN | MERGE_JOIN | other.
End JoinType.

Inductive JoinAlgorithm : Set := HashJoin | MergeJoin.

(** The interfaces the executor calls. *)
Class ExecEnv : Type := {
  World : Type;
  Predicate : Type;
  JoinCondition : Type;
  Columns : Type;
  InsertData : Type;
  UpdateData : Type;
  TablePtr : Type;
  ExecutionResult : Type;
  noResult : ExecutionResult;
  success : ExecutionResult;
  beginTransaction : prog World unit;
  commitTransaction : prog World unit;
  rollbackTransaction : prog World unit;
  clearUnusedBuffers : prog World unit;
  getTable : string -> prog World TablePtr;
  table_scan : TablePtr -> Predicate -> prog World ExecutionResult;
  table_insert : TablePtr -> InsertData -> prog World unit;
  table_update : TablePtr -> Predicate -> UpdateData -> prog World unit;
  table_remove : TablePtr -> Predicate -> prog World unit;
  join_execute : JoinAlgorithm -> ExecutionResult -> TablePtr -> JoinCondition ->
                 prog World ExecutionResult;
  result_filter : ExecutionResult -> Predicate -> prog World ExecutionResult;
  result_project : ExecutionResult -> Columns -> prog World ExecutionResult
}.

(** The calls of the executor. *)
Inductive event : Type :=
| Begin | Commit | Rollback | ClearBuffers
| GetTable (name : string) | Scan | Insert | Update | Remove
| Execute (algorithm : JoinAlgorithm) | FilterResult | ProjectResult.

Record LogicalOperator `{ExecEnv} : Type := MkOperator {
  op_getType : LogicalOperatorType.t;
  op_getTableName : string;
  op_getPredicate : Predicate;
  op_getJoinType : JoinType.t;
  op_getRightTable : string;
  op_getJoinCondition : JoinCondition;
  op_getProjectedColumns : Columns
}.

Record QueryPlan `{ExecEnv} : Type := MkPlan {
  getType : QueryType.t;
  getLogicalOperators : list LogicalOperator;
  getTableName : string;
  getInsertData : InsertData;
  getPredicate : Predicate;
  getUpdateData : UpdateData
}.

Record Executor `{ExecEnv} : Type := MkExecutor {
  world : World;
  allocated : nat;
  calls : list event
}.

Section executor.
Context `{ExecEnv}.

(** A call through one of the interfaces. *)
Definition call {A : Type} (e : event) (m : prog World A) : prog Executor A := fun s =>
  let '(w, o) := m (world s) in (MkExecutor _ w (allocated s) (calls s ++ [e]), o).

Definition new_algorithm : prog Executor unit :=
  prog_modify (fun s => MkExecutor _ (world s) (S (allocated s)) (calls s)).
Definition delete_algorithm : prog Executor unit :=
  prog_modify (fun s => MkExecutor _ (world s) (pred (allocated s)) (calls s)).

(** ** Selection *)

(** The functions that take an [ExecutionContext&] return its new result. *)
Definition executeScan (op : LogicalOperator) : prog Executor ExecutionResult :=
  let! table := call (GetTable (op_getTableName op)) (getTable (op_getTableName op)) in
  call Scan (table_scan table (op_getPredicate op)).

Definition executeJoin (op : LogicalOperator) (result : ExecutionResult)
  : prog Executor ExecutionResult :=
  let! join_algorithm :=
    match op_getJoinType op with
    | JoinType.HASH_JOIN => new_algorithm;;; prog_ret HashJoin
    | JoinType.MERGE_JOIN => new_algorithm;;; prog_ret MergeJoin
    | JoinType.other => prog_throw (invalid_argument "Unsupported join type")
    end in
  let! right_table := call (GetTable (op_getRightTable op)) (getTable (op_getRightTable op)) in
  let! joined := call (Execute join_algorithm)
    (join_execute join_algorithm result right_table (op_getJoinCondition op)) in
  delete_algorithm;;;
  prog_ret joined.

Definition executeFilter (op : LogicalOperator) (result : ExecutionResult)
  : prog Executor ExecutionResult :=
  call FilterResult (result_filter result (op_getPredicate op)).

Definition executeProject (op : LogicalOperator) (result : ExecutionResult)
  : prog Executor ExecutionResult :=
  call ProjectResult (result_project result (op_getProjectedColumns op)).

(** One turn of the loop over the operators. *)
Definition executeOperator (op : LogicalOperator) (result : ExecutionResult)
  : prog Executor ExecutionResult :=
  match op_getType op with
  | LogicalOperatorType.SCAN => executeScan op
  | LogicalOperatorType.JOIN => executeJoin op result
  | LogicalOperatorType.FILTER => executeFilter op result
  | LogicalOperatorType.PROJECT => executeProject op result
  | LogicalOperatorType.other => prog_throw (invalid_argument "Unsupported logical operator")
  end.

Fixpoint executeOperators (ops : list LogicalOperator) (result : ExecutionResult)
  : prog Executor ExecutionResult :=
  match ops with
  | [] => prog_ret result
  | op :: ops => let! result := executeOperator op result in executeOperators ops result
  end.

Definition executeSelect (plan : QueryPlan) : prog Executor ExecutionResult :=
  executeOperators (getLogicalOperators plan) noResult.

(** ** Changes *)

Definition executeInsert (plan : QueryPlan) : prog Executor ExecutionResult :=
  let! table := call (GetTable (getTableName plan)) (getTable (getTableName plan)) in
  call Insert (table_insert table (getInsertData plan));;;
  prog_ret success.

Definition executeUpdate (plan : QueryPlan) : prog Executor ExecutionResult :=
  let! table := call (GetTable (getTableName plan)) (getTable (getTableName plan)) in
  call Update (table_update table (getPredicate plan) (getUpdateData plan));;;
  prog_ret success.

Definition executeDelete (plan : QueryPlan) : prog Executor ExecutionResult :=
  let! table := call (GetTable (getTableName plan)) (getTable (getTableName plan)) in
  call Remove (table_remove table (getPredicate plan));;;
  prog_ret success.

(** ** Queries *)

Definition dispatch (plan : QueryPlan) : prog Executor ExecutionResult :=
  match getType plan with
  | QueryType.SELECT => executeSelect plan
  | QueryType.INSERT => executeInsert plan
  | QueryType.UPDATE => executeUpdate plan
  | QueryType.DELETE => executeDelete plan
  | QueryType.other => prog_throw (invalid_argument "Unsupported query type")
  end.

Definition executeQuery (plan : QueryPlan) : prog Executor ExecutionResult :=
  call Begin beginTransaction;;;
  let! result := dispatch plan in
  call Commit commitTransaction;;;
  prog_ret result.

(** Declared and defined, and called by nothing. *)
Definition rollbackOnFailure : prog Executor unit := call Rollback rollbackTransaction.
Definition manageMemory : prog Executor unit := call ClearBuffers clearUnusedBuffers.

(** A client that runs queries one after the other and catches what they throw; a query that does not
    come back ends the run. *)
Fixpoint session (plans : list QueryPlan) (s : Executor)
  : Executor * list (outcome ExecutionResult) :=
  match plans with
  | [] => (s, [])
  | plan :: plans =>
      match executeQuery plan s with
      | (s', Ret r) => let '(s'', os) := session plans s' in (s'', Ret r :: os)
      | (s', Throw e) => let '(s'', os) := session plans s' in (s'', Throw e :: os)
      | (s', o) => (s', [o])
      end
  end.

(** ** What a query calls *)

(** The calls of an operator and of a query that nothing stops. *)
Definition operator_calls (op : LogicalOperator) : list event :=
  match op_getType op with
  | LogicalOperatorType.SCAN => [GetTable (op_getTableName op); Scan]
  | LogicalOperatorType.JOIN =>
      match op_getJoinType op with
      | JoinType.HASH_JOIN => [GetTable (op_getRightTable op); Execute HashJoin]
      | JoinType.MERGE_JOIN => [GetTable (op_getRightTable op); Execute MergeJoin]
      | JoinType.other => []
      end
  | LogicalOperatorType.FILTER => [FilterResult]
  | LogicalOperatorType.PROJECT => [ProjectResult]
  | LogicalOperatorType.other => []
  end.
Definition plan_calls (plan : QueryPlan) : list event :=
  match getType plan with
  | QueryType.SELECT => concat (operator_calls <$> getLogicalOperators plan)
  | QueryType.INSERT => [GetTable (getTableName plan); Insert]
  | QueryType.UPDATE => [GetTable (getTableName plan); Update]
  | QueryType.DELETE => [GetTable (getTableName plan); Remove]
  | QueryType.other => []
  end.

(** The type of the query, its operators and their joins are ones that the executor knows. *)
Definition supported_operator (op : LogicalOperator) : Prop :=
  op_getType op <> LogicalOperatorType.other /\
  (op_getType op = LogicalOperatorType.JOIN -> op_getJoinType op <> JoinType.other).
Definition supported (plan : QueryPlan) : Prop :=
  getType plan <> QueryType.other /\
  (getType plan = QueryType.SELECT -> Forall supported_operator (getLogicalOperators plan)).

(** A computation that returns only when [ok], after making the calls [es]; when it does not return, it
    has made the first of them and left at most [k] join algorithms. *)
Definition makes {A} (k : nat) (ok : Prop) (m : prog Executor A) (es : list event) : Prop := forall s,
  match m s with
  | (s', Ret _) => ok /\ calls s' = calls s ++ es /\ allocated s' = allocated s
  | (s', _) => exists t, t `prefix_of` es /\ calls s' = calls s ++ t /\
      allocated s <= allocated s' <= k + allocated s
  end.

Lemma makes_call {A} e (m : prog World A) : makes 0 True (call e m) [e].
Proof.
  intros s. unfold call. destruct (m (world s)) as [w []]; cbn; [done|..]; exists [e]; split_and!; (done || lia).
Qed.

Lemma makes_ret {A} k (a : A) : makes k True (prog_ret a) [].
Proof. intros s. cbn. by rewrite app_nil_r. Qed.

Lemma makes_throw {A} k (ok : Prop) e : makes k ok (prog_throw (A := A) e) [].
Proof. intros s. cbn. exists []. rewrite app_nil_r. split_and!; (done || lia). Qed.

Lemma makes_bind {A B} k (ok ok' : Prop) (m : prog Executor A) (f : A -> prog Executor B) es es' :
  makes k ok m es -> (forall a, makes k ok' (f a) es') -> makes k (ok /\ ok') (prog_bind m f) (es ++ es').
Proof.
  intros Hm Hf s. unfold prog_bind. specialize (Hm s). destruct (m s) as [s1 [a| | |]].
  2-4: destruct Hm as (t & Ht & Hc & Ha); exists t; split_and!; [by apply prefix_app_r|done|lia|lia].
  destruct Hm as (Hok & Hc & Ha). specialize (Hf a s1). destruct (f a s1) as [s2 [b| | |]].
  { destruct Hf as (Hok' & Hc' & Ha'). split_and!; [done|done|by rewrite Hc', Hc, app_assoc|lia]. }
  all: destruct Hf as (t & Ht & Hc' & Ha'); exists (es ++ t);
    split_and!; [by apply prefix_app|by rewrite Hc', Hc, app_assoc|lia|lia].
Qed.

Lemma makes_weaken {A} k k' (ok ok' : Prop) (m : prog Executor A) es :
  k <= k' -> (ok -> ok') -> makes k ok m es -> makes k' ok' m es.
Proof.
  intros Hk Hok Hm s. specialize (Hm s). destruct (m s) as [s' [a| | |]]; [naive_solver|..];
    destruct Hm as (t & Ht & Hc & Ha); exists t; split_and!; (done || lia).
Qed.

(** Between [new] and [delete] nothing else is allocated; a throw in between leaves the object. *)
Lemma makes_algorithm {A} (ok : Prop) (m : prog Executor A) es :
  makes 0 ok m es -> makes 1 ok (new_algorithm;;; let! a := m in delete_algorithm;;; prog_ret a) es.
Proof.
  intros Hm s. unfold prog_bind, new_algorithm, delete_algorithm, prog_modify.
  set (s1 := MkExecutor _ (world s) (S (allocated s)) (calls s)). specialize (Hm s1).
  destruct (m s1) as [s2 [a| | |]]; cbn in *.
  { destruct Hm as (? & -> & ->). done. }
  all: destruct Hm as (t & Ht & Hc & Ha); exists t; split_and!; (done || lia).
Qed.

Lemma makes_join op result :
  op_getType op = LogicalOperatorType.JOIN ->
  makes 1 (supported_operator op) (executeJoin op result) (operator_calls op).
Proof.
  intros Hty. assert (Hj : forall a, makes 1 True (new_algorithm;;; let! j :=
      (let! t := call (GetTable (op_getRightTable op)) (getTable (op_getRightTable op)) in
       call (Execute a) (join_execute a result t (op_getJoinCondition op))) in
    delete_algorithm;;; prog_ret j) [GetTable (op_getRightTable op); Execute a]).
  { intros a. apply makes_algorithm.
    apply (makes_weaken 0 0 (True /\ True)); [done|done|]. apply (makes_bind 0 True True _ _ [_] [_]);
      [apply makes_call|]. intros t. apply makes_call. }
  unfold operator_calls, supported_operator. rewrite Hty. intros s.
  pose proof (Hj HashJoin s) as Hh. pose proof (Hj MergeJoin s) as Hm.
  unfold executeJoin, prog_bind, new_algorithm, prog_modify, prog_ret, call in *.
  destruct (op_getJoinType op); cbn in *.
  - clear Hm. destruct (getTable _ _) as [w [t| | |]]; [|exact Hh..].
    destruct (join_execute _ _ _ _ _) as [w' []]; [by destruct Hh as (_ & ? & ?)|exact Hh..].
  - clear Hh. destruct (getTable _ _) as [w [t| | |]]; [|exact Hm..].
    destruct (join_execute _ _ _ _ _) as [w' []]; [by destruct Hm as (_ & ? & ?)|exact Hm..].
  - exists []. rewrite app_nil_r. split_and!; (done || lia).
Qed.

Lemma makes_operator op result :
  makes 1 (supported_operator op) (executeOperator op result) (operator_calls op).
Proof.
  unfold executeOperator. destruct (op_getType op) eqn:Hty; [|by apply makes_join|..];
    unfold operator_calls, supported_operator; rewrite Hty.
  - apply (makes_weaken 0 1 (True /\ True)); [lia|done|].
    apply (makes_bind 0 True True _ _ [_] [_]); [apply makes_call|]. intros t. apply makes_call.
  - apply (makes_weaken 0 1 True); [lia|done|apply makes_call].
  - apply (makes_weaken 0 1 True); [lia|done|apply makes_call].
  - apply makes_throw.
Qed.

Lemma makes_operators ops : forall result,
  makes 1 (Forall supported_operator ops) (executeOperators ops result) (concat (operator_calls <$> ops)).
Proof.
  induction ops as [|op ops IH]; intros result.
  - eapply makes_weaken; [done|by intros _; constructor|apply (makes_ret 1)].
  - cbn. eapply (makes_weaken 1 1 (supported_operator op /\ Forall supported_operator ops));
      [done|by intros [??]; constructor|]. apply makes_bind; [apply makes_operator|apply IH].
Qed.

(** An insertion, an update or a deletion. *)
Lemma makes_change name e (m : TablePtr -> prog World unit) :
  makes 1 True (let! table := call (GetTable name) (getTable name) in
    call e (m table);;; prog_ret success) [GetTable name; e].
Proof.
  apply (makes_weaken 0 1 (True /\ True /\ True)); [lia|done|].
  apply (makes_bind 0 _ _ _ _ [_] [_]); [apply makes_call|]. intros t.
  apply (makes_bind 0 _ _ _ _ [_] []); [apply makes_call|]. intros []. apply makes_ret.
Qed.

Lemma makes_dispatch plan : makes 1 (supported plan) (dispatch plan) (plan_calls plan).
Proof.
  unfold dispatch, plan_calls, supported. destruct (getType plan).
  - eapply makes_weaken; [done| |apply makes_operators]. done.
  - eapply makes_weaken; [done| |apply (makes_change _ Insert)]. done.
  - eapply makes_weaken; [done| |apply (makes_change _ Update)]. done.
  - eapply makes_weaken; [done| |apply (makes_change _ Remove)]. done.
  - apply makes_throw.
Qed.

Lemma executeQuery_makes plan :
  makes 1 (supported plan) (executeQuery plan) (Begin :: plan_calls plan ++ [Commit]).
Proof.
  apply (makes_weaken 1 1 (True /\ supported plan /\ True /\ True)); [done|tauto|].
  apply (makes_bind 1 _ _ _ _ [Begin]); [apply (makes_weaken 0 1 True); [lia|done|apply makes_call]|].
  intros []. apply makes_bind; [apply makes_dispatch|]. intros r.
  apply (makes_bind 1 _ _ _ _ [Commit] []); [apply (makes_weaken 0 1 True); [lia|done|apply makes_call]|].
  intros []. apply makes_ret.
Qed.

(** The first call of every query begins a transaction. *)
Lemma executeQuery_begins plan s :
  exists t, calls (executeQuery plan s).1 = calls s ++ Begin :: t.
Proof.
  set (rest := (let! r := dispatch plan in call Commit commitTransaction;;; prog_ret r)).
  assert (Hm : makes 1 (supported plan /\ True /\ True) rest (plan_calls plan ++ [Commit])).
  { apply makes_bind; [apply makes_dispatch|]. intros r. apply (makes_bind 1 _ _ _ _ [Commit] []);
      [apply (makes_weaken 0 1 True); [lia|done|apply makes_call]|]. intros []. apply makes_ret. }
  unfold executeQuery. fold rest. unfold prog_bind, call.
  destruct (beginTransaction (world s)) as [w [[]| | |]]; [|by exists []..].
  specialize (Hm (MkExecutor _ w (allocated s) (calls s ++ [Begin]))). destruct (rest _) as [s2 [r| | |]]; cbn in *.
  { destruct Hm as (_ & -> & _). eexists. by rewrite <-app_assoc. }
  all: destruct Hm as (t & _ & -> & _); exists t; by rewrite <-app_assoc.
Qed.

Definition returned {A} (o : outcome A) : bool := match o with Ret _ => true | _ => false end.

(** The calls [t] of a query with the outcome [o]. *)
Definition query_trace (plan : QueryPlan) (o : outcome ExecutionResult) (t : list event) : Prop :=
  if returned o then supported plan /\ t = Begin :: plan_calls plan ++ [Commit]
  else head t = Some Begin /\ t `prefix_of` Begin :: plan_calls plan ++ [Commit].

(** A query that comes back, with a result or an exception. *)
Definition comes_back {A} (o : outcome A) : bool := match o with Ret _ | Throw _ => true | _ => false end.

(** The calls of a session: those of its queries, one after the other, all of them unless one does not
    come back. *)
Inductive session_trace : list QueryPlan -> list (outcome ExecutionResult) -> list event -> Prop :=
| trace_end : session_trace [] [] []
| trace_query plan plans o os t ts :
    comes_back o = true -> query_trace plan o t -> session_trace plans os ts ->
    session_trace (plan :: plans) (o :: os) (t ++ ts)
| trace_stop plan plans o t :
    comes_back o = false -> query_trace plan o t -> session_trace (plan :: plans) [o] t.

Lemma executeQuery_trace plan s s' o :
  executeQuery plan s = (s', o) -> exists t, query_trace plan o t /\ calls s' = calls s ++ t /\
    allocated s <= allocated s' <= (if returned o then 0 else 1) + allocated s.
Proof.
  intros Hq. pose proof (executeQuery_makes plan s) as Hm. destruct (executeQuery_begins plan s) as [u Hu].
  rewrite Hq in Hm, Hu. unfold query_trace. destruct o as [r|e| |u']; cbn in *.
  { destruct Hm as (Hs & Hc & Ha). eexists. split_and!; [done|done|done|lia|lia]. }
  all: destruct Hm as (t & Ht & Hc & Ha); exists t; rewrite Hu in Hc; apply app_inv_head in Hc as <-;
    split_and!; (done || lia).
Qed.

(** C29.  The calls of a session of queries, whatever the interfaces do and throw.  The calls are those of
    the queries, one after the other, all of them unless one does not come back.  A query that returns is one whose type, operators and joins are
    supported; it has begun a transaction, made every call of its plan in order and then committed.  A
    query that does not return has called [beginTransaction] and made the first calls of the same sequence, up
    to the one that failed: it never rolls back, and it commits only if the commit is what failed.  At
    most one join algorithm is leaked for each of those, and none for the others. *)
Theorem executor_session_transactions plans s :
  let '(s', os) := session plans s in
  let failed := length (List.filter (fun o => negb (returned o)) os) in
  (exists ts, session_trace plans os ts /\ calls s' = calls s ++ ts /\ Rollback ∉ ts) /\
  allocated s <= allocated s' <= allocated s + failed.
Proof.
  assert (Hno : forall plan o t, query_trace plan o t -> Rollback ∉ t).
  { intros plan o t Ht. assert (Hp : t `prefix_of` Begin :: plan_calls plan ++ [Commit])
      by (unfold query_trace in Ht; destruct (returned o); [destruct Ht as [_ ->]|destruct Ht as [_ Ht]]; done).
    destruct Hp as [u Hu]. intros Hin. assert (Hx : Rollback ∈ Begin :: plan_calls plan ++ [Commit])
      by (rewrite Hu; set_solver). rewrite elem_of_cons, elem_of_app, list_elem_of_singleton in Hx.
    destruct Hx as [?|[Hx|?]]; [done| |done]. unfold plan_calls in Hx.
    destruct (getType plan); [|set_solver..]. apply list_elem_of_In, in_concat in Hx as (l & Hl & Hx).
    apply list_elem_of_In, list_elem_of_fmap in Hl as (op & -> & _). apply list_elem_of_In in Hx.
    unfold operator_calls in Hx. repeat case_match; set_solver. }
  revert s. induction plans as [|plan plans IH]; intros s.
  { cbn. split; [|lia]. exists []. rewrite app_nil_r. split_and!; [constructor|done|set_solver]. }
  cbn [session]. destruct (executeQuery plan s) as [s1 o] eqn:Hq.
  destruct (executeQuery_trace plan s s1 o Hq) as (t & Ht & Hc & Ha). pose proof (Hno _ _ _ Ht) as Hr.
  destruct o as [r|e| |u]; cbn [returned] in Ha.
  1-2: specialize (IH s1); destruct (session plans s1) as [s2 os]; cbn in IH |- *;
    destruct IH as ((ts & Hts & Hc2 & Hr2) & Ha2); (split; [|lia]); exists (t ++ ts);
    (split_and!; [by constructor|by rewrite Hc2, Hc, app_assoc|set_solver]).
  all: cbn; (split; [|lia]); exists t; (split_and!; [by apply trace_stop|done|done]).
Qed.

End executor.

(** ** A database *)

(** Tables of numbers; one that does not exist is reported with an exception. *)
Module Database.

Record State : Type := MkState { tables : gmap string (list Z); opened : nat; finished : nat }.

Definition get (n : string) : prog State string := fun w =>
  match tables w !! n with
  | Some _ => (w, Ret n)
  | None => (w, Throw (out_of_range n))
  end.

Definition change (n : string) (f : list Z -> list Z) : prog State unit := fun w =>
  (MkState (alter f n (tables w)) (opened w) (finished w), Ret tt).

#[export] Instance env : ExecEnv :=
  {| World := State; Predicate := Z; JoinCondition := unit; Columns := unit; InsertData := Z;
     UpdateData := Z; TablePtr := string; ExecutionResult := list Z; noResult := []; success := [];
     beginTransaction w := (MkState (tables w) (S (opened w)) (finished w), Ret tt);
     commitTransaction w := (MkState (tables w) (pred (opened w)) (S (finished w)), Ret tt);
     rollbackTransaction w := (MkState (tables w) (pred (opened w)) (finished w), Ret tt);
     clearUnusedBuffers := prog_ret tt;
     getTable := get;
     table_scan n p w := (w, Ret (filter (fun z => (z <= p)%Z) (default [] (tables w !! n))));
     table_insert n d := change n (fun t => t ++ [d]);
     table_update n p d := change n (fmap (fun z => if decide (z = p) then d else z));
     table_remove n p := change n (filter (fun z => z <> p));
     join_execute _ l n _ w := (w, Ret (filter (fun z => z ∈ default [] (tables w !! n)) l));
     result_filter r p := prog_ret (filter (fun z => (z <= p)%Z) r);
     result_project r _ := prog_ret r |}.

Definition start : Executor :=
  MkExecutor _ (MkState (<["a" := [1; 2; 3]%Z]> (<["b" := [2; 3; 4]%Z]> ∅)) 0 0) 0 [].

Definition operator (ty : LogicalOperatorType.t) (n : string) (p : Z) (right : string)
  : LogicalOperator := MkOperator _ ty n p JoinType.HASH_JOIN right tt tt.

Definition select (ops : list LogicalOperator) : QueryPlan :=
  MkPlan _ QueryType.SELECT ops "" 0%Z 0%Z 0%Z.
Definition insert_into (n : string) (d : Z) : QueryPlan :=
  MkPlan _ QueryType.INSERT [] n d 0%Z 0%Z.

(** A join, an insertion, a join with a table that does not exist, and a statement that is not
    supported: the last two leave a transaction open each, and the third an algorithm. *)
Definition queries : list QueryPlan :=
  [select [operator LogicalOperatorType.SCAN "a" 9 ""; operator LogicalOperatorType.JOIN "" 0 "b"];
   insert_into "a" 4;
   select [operator LogicalOperatorType.SCAN "a" 9 ""; operator LogicalOperatorType.JOIN "" 0 "c"];
   MkPlan _ QueryType.other [] "" 0%Z 0%Z 0%Z].

Example session_runs :
  let '(s, os) := session queries start in
  os = [Ret [2; 3]%Z; Ret []; Throw (out_of_range "c");
        Throw (invalid_argument "Unsupported query type")] /\
  allocated s = 1 /\ (opened (world s), finished (world s)) = (2, 2) /\
  calls s = [Begin; GetTable "a"; Scan; GetTable "b"; Execute HashJoin; Commit] ++
            [Begin; GetTable "a"; Insert; Commit] ++
            [Begin; GetTable "a"; Scan; GetTable "c"] ++ [Begin].
Proof. vm_compute. done. Qed.

Lemma executor_session_transactions_witness :
  let '(s, os) := session queries start in
  (exists ts, session_trace queries os ts /\ calls s = ts /\ Rollback ∉ ts) /\ allocated s <= 2.
Proof.
  pose proof (executor_session_transactions queries start) as Hs.
  destruct (session queries start) as [s os] eqn:E. vm_compute in E. injection E as <- <-.
  destruct Hs as [(ts & Ht & Hc & Hr) Ha]. split; [exists ts; split; [exact Ht|split; [exact Hc|exact Hr]]|exact (proj2 Ha)].
Defined.

End Database.
