(* ===== verification/TwoPhaseLocking.v ===== *)
(** * Two-phase locking ([transactions/concurrency_control/two_phase_locking.cpp])

    [LockManager]'s table of requests, [TransactionManager] with its wait-for graph, and the
    depth-first search for deadlocks. *)

From S2P Require Import Prelude.
Local Open Scope Z_scope.

Inductive LockType : Set := SHARED | EXCLUSIVE.

#[export] Instance LockType_eq_dec : EqDecision LockType.
Proof. solve_decision. Defined.

Record LockRequest : Type := MkReq { txn_id : Z; lock_type : LockType; granted : bool }.

(** ** The lock manager *)

(** Resource id to its requests, oldest first. *)
Abbreviation LockTable := (gmap Z (list LockRequest)).

(** The requests of two transactions exclude each other. *)
Definition conflicts (txn : Z) (ty : LockType) (req : LockRequest) : bool :=
  negb (txn_id req =? txn) &&
  (bool_decide (lock_type req = EXCLUSIVE) || bool_decide (ty = EXCLUSIVE)).

(** The condition a waiting transaction waits for: some request of its own is granted. *)
Definition wait_over (txn : Z) (requests : list LockRequest) : bool :=
  existsb (fun req => (txn_id req =? txn) && granted req) requests.

(** The table after [acquireLock] has queued its request, and whether the call returns at once. *)
Definition lm_acquireLock (txn resource : Z) (ty : LockType) (t : LockTable) : LockTable * bool :=
  match t !! resource with
  | None => (<[resource := [MkReq txn ty true]]> t, true)
  | Some requests =>
      let can_grant := negb (existsb (conflicts txn ty) requests) in
      let requests' := requests ++ [MkReq txn ty can_grant] in
      (<[resource := requests']> t, can_grant || wait_over txn requests')
  end.

(** The first request that is not granted is granted. *)
Fixpoint grant_first (requests : list LockRequest) : list LockRequest :=
  match requests with
  | [] => []
  | req :: rest =>
      if granted req then req :: grant_first rest
      else MkReq (txn_id req) (lock_type req) true :: rest
  end.

Definition lm_releaseLock (txn resource : Z) (t : LockTable) : LockTable :=
  match t !! resource with
  | None => t
  | Some requests =>
      match filter (fun req => txn_id req ≠ txn) requests with
      | [] => delete resource t
      | requests' => <[resource := grant_first requests']> t
      end
  end.

(** ** The transaction manager *)

(** A set kept in the order of its iteration. *)
Definition set_add (x : Z) (l : list Z) : list Z := if decide (x ∈ l) then l else l ++ [x].
Definition set_del (x : Z) (l : list Z) : list Z := filter (fun y => y ≠ x) l.

Record TransactionManager : Type := MkTM {
  lock_table : LockTable;
  txn_locks : gmap Z (list Z);
  active_transactions : gset Z;
  wait_for_graph : gmap Z (list Z);
  mtx : bool
}.

Definition make : TransactionManager := MkTM ∅ ∅ ∅ ∅ false.

#[export] Instance tm_lockable : Lockable TransactionManager.
Proof.
  refine {| held := mtx;
            set_held b s := MkTM (lock_table s) (txn_locks s) (active_transactions s)
                              (wait_for_graph s) b |}.
  - done.
  - by intros [].
  - done.
Defined.

Definition beginTransaction (txn : Z) : prog TransactionManager unit := lock_guard (fun s =>
  (MkTM (lock_table s) (txn_locks s) ({[txn]} ∪ active_transactions s) (wait_for_graph s) (mtx s),
   Ret tt)).

(** The transactions that wait on the resource, other than this one. *)
Definition waiters (txn : Z) (requests : list LockRequest) : list Z :=
  txn_id <$> filter (fun req => txn_id req ≠ txn /\ granted req = false) requests.

(** [wait_for_graph[txn_id].insert(...)] for each of them. *)
Definition add_edges (txn : Z) (ws : list Z) (g : gmap Z (list Z)) : gmap Z (list Z) :=
  foldl (fun g w => <[txn := set_add w (default [] (g !! txn))]> g) g ws.

(** Records the lock and extends the wait-for graph; [lock_table[resource_id]] inserts an empty
    vector for a missing resource. *)
Definition record_lock (txn resource : Z) : prog TransactionManager unit := fun s =>
  let requests := default [] (lock_table s !! resource) in
  (MkTM (<[resource := requests]> (lock_table s))
     (<[txn := set_add resource (default [] (txn_locks s !! txn))]> (txn_locks s))
     (active_transactions s) (add_edges txn (waiters txn requests) (wait_for_graph s)) (mtx s),
   Ret tt).

(** Waits until the lock manager returns: a call whose wait is not over blocks its thread. *)
Definition acquireLock (txn resource : Z) (ty : LockType) : prog TransactionManager unit := fun s =>
  let '(t, now) := lm_acquireLock txn resource ty (lock_table s) in
  let s' := MkTM t (txn_locks s) (active_transactions s) (wait_for_graph s) (mtx s) in
  if now then lock_guard (record_lock txn resource) s' else (s', Hang).

(** One iteration of the loop of [releaseLocks]. *)
Definition release_one (txn : Z) (s : TransactionManager) (resource : Z) : TransactionManager :=
  MkTM (lm_releaseLock txn resource (lock_table s)) (txn_locks s) (active_transactions s)
    (set_del txn <$> delete txn (wait_for_graph s)) (mtx s).

Definition releaseLocks (txn : Z) : prog TransactionManager unit := lock_guard (fun s =>
  match txn_locks s !! txn with
  | None => (s, Ret tt)
  | Some resources =>
      let s' := foldl (release_one txn) s resources in
      (MkTM (lock_table s') (delete txn (txn_locks s')) (active_transactions s')
         (wait_for_graph s') (mtx s'), Ret tt)
  end).

(** The common body of [commitTransaction] and [rollbackTransaction]. *)
Definition end_transaction (txn : Z) : prog TransactionManager unit := lock_guard (fun s =>
  if decide (txn ∈ active_transactions s)
  then prog_bind (releaseLocks txn) (fun _ =>
         prog_modify (fun s => MkTM (lock_table s) (txn_locks s) (active_transactions s ∖ {[txn]})
                                 (wait_for_graph s) (mtx s))) s
  else (s, Ret tt)).
Definition commitTransaction (txn : Z) : prog TransactionManager unit := end_transaction txn.
Definition rollbackTransaction (txn : Z) : prog TransactionManager unit := end_transaction txn.

(** ** Deadlock detection *)

Section Dfs.
Context (g : gmap Z (list Z)).

Definition waits_for (x : Z) : list Z := default [] (g !! x).

(** The loop over the successors, up to the first that finds a cycle. *)
Fixpoint dfs_all (visit : Z -> gset Z -> gset Z -> bool * gset Z * gset Z) (ys : list Z)
    (visited rec_stack : gset Z) : bool * gset Z * gset Z :=
  match ys with
  | [] => (false, visited, rec_stack)
  | y :: ys =>
      let '(found, visited, rec_stack) := visit y visited rec_stack in
      if found then (true, visited, rec_stack) else dfs_all visit ys visited rec_stack
  end.

(** Each nested call visits a new transaction, so the number of transactions is enough fuel. *)
Fixpoint dfs (fuel : nat) (x : Z) (visited rec_stack : gset Z) : bool * gset Z * gset Z :=
  match fuel with
  | O => (false, visited, rec_stack)
  | S fuel =>
      if decide (x ∈ rec_stack) then (true, visited, rec_stack)
      else if decide (x ∈ visited) then (false, visited, rec_stack)
      else
        let '(found, visited, rec_stack) :=
          dfs_all (dfs fuel) (waits_for x) ({[x]} ∪ visited) ({[x]} ∪ rec_stack) in
        if found then (true, visited, rec_stack) else (false, visited, rec_stack ∖ {[x]})
  end.

(** All transactions of the graph. *)
Definition txns : gset Z := dom g ∪ list_to_set (map_to_list g ≫= snd).

Fixpoint detect_from (entries : list Z) (visited rec_stack : gset Z) : bool :=
  match entries with
  | [] => false
  | x :: entries =>
      if decide (x ∈ visited) then detect_from entries visited rec_stack
      else let '(found, visited, rec_stack) := dfs (S (size txns)) x visited rec_stack in
           if found then true else detect_from entries visited rec_stack
  end.
End Dfs.

(** [order] is the order in which the graph's entries are visited. *)
Definition detectDeadlock (order : gmap Z (list Z) -> list Z) : prog TransactionManager bool :=
  lock_guard (fun s => (s, Ret (detect_from (wait_for_graph s) (order (wait_for_graph s)) ∅ ∅))).

(** ** Correctness of the search *)

Section Search.
Context (g : gmap Z (list Z)).

Definition edge (x y : Z) : Prop := y ∈ waits_for g x.

(** Every finished transaction's successors are finished, and none of them is on a cycle. *)
Definition search_ok (visited rec_stack : gset Z) : Prop :=
  rec_stack ⊆ visited /\
  forall x, x ∈ visited ∖ rec_stack ->
    (forall y, edge x y -> y ∈ visited ∖ rec_stack) /\ ¬ tc edge x x.

(** What a search from [x] that found nothing has done. *)
Definition searched (x : Z) (V R V' R' : gset Z) : Prop :=
  R' = R /\ V ⊆ V' /\ x ∈ V' ∖ R /\ search_ok V' R.

Lemma closed_tc (D : gset Z) x y :
  (forall a b, a ∈ D -> edge a b -> b ∈ D) -> tc edge x y -> x ∈ D -> y ∈ D.
Proof. intros Hc. induction 1; eauto. Qed.

(** One more level of fuel, given the specification of the level below. *)
Definition dfs_spec (visit : Z -> gset Z -> gset Z -> bool * gset Z * gset Z) (n : nat) : Prop :=
  forall x V R, search_ok V R -> (forall r, r ∈ R -> tc edge r x) ->
    x ∈ txns g -> (size (txns g ∖ V) < n)%nat ->
    match visit x V R with
    | (true, _, _) => exists c, tc edge c c
    | (false, V', R') => searched x V R V' R'
    end.

Lemma dfs_all_ok visit n ys : forall V R,
  dfs_spec visit n -> search_ok V R -> (forall r y, r ∈ R -> y ∈ ys -> tc edge r y) ->
  (forall y, y ∈ ys -> y ∈ txns g) -> (size (txns g ∖ V) < n)%nat ->
  match dfs_all visit ys V R with
  | (true, _, _) => exists c, tc edge c c
  | (false, V', R') => R' = R /\ V ⊆ V' /\ search_ok V' R /\ forall y, y ∈ ys -> y ∈ V' ∖ R
  end.
Proof.
  induction ys as [|y ys IH]; intros V R Hv Hok Hr Ht Hn; simpl.
  - split; [done|]. split; [done|]. split; [done|]. intros y Hy. by apply not_elem_of_nil in Hy.
  - pose proof (Hv y V R Hok (fun r H => Hr r y H ltac:(left)) (Ht y ltac:(left)) Hn) as Hy.
    destruct (visit y V R) as [[[|] V1] R1]; [done|]. destruct Hy as (-> & Hsub & Hyd & Hok1).
    assert (Hn1 : (size (txns g ∖ V1) < n)%nat).
    { eapply Nat.le_lt_trans; [|exact Hn]. apply subseteq_size. set_solver. }
    specialize (IH V1 R Hv Hok1 (fun r z H Hz => Hr r z H ltac:(by right))
                  (fun z Hz => Ht z ltac:(by right)) Hn1).
    destruct (dfs_all visit ys V1 R) as [[[|] V2] R2]; [done|].
    destruct IH as (-> & Hsub2 & Hok2 & Hall). split; [done|]. split; [set_solver|].
    split; [done|]. intros z Hz. apply elem_of_cons in Hz as [->|Hz]; [set_solver|auto].
Qed.

Lemma waits_for_txns x y : edge x y -> y ∈ txns g.
Proof.
  unfold edge, waits_for, txns. intros Hy. destruct (g !! x) as [l|] eqn:Hl; simpl in Hy.
  - apply elem_of_union. right. apply elem_of_list_to_set, list_elem_of_bind. exists (x, l).
    split; [done|]. by apply elem_of_map_to_list.
  - by apply not_elem_of_nil in Hy.
Qed.

Lemma dfs_ok n : dfs_spec (dfs g n) n.
Proof.
  induction n as [|n IH]; intros x V R Hok Hr Hx Hn; [lia|]. cbn [dfs].
  destruct (decide (x ∈ R)) as [HxR|HxR]; [exists x; auto|].
  destruct (decide (x ∈ V)) as [HxV|HxV].
  { split; [done|]. split; [done|]. split; [set_solver|done]. }
  assert (Hok1 : search_ok ({[x]} ∪ V) ({[x]} ∪ R)).
  { destruct Hok as [Hsub Hd]. split; [set_solver|]. intros z Hz.
    assert (HzV : z ∈ V ∖ R) by set_solver. destruct (Hd z HzV) as [Hc Hn']. split; [|done].
    intros y Hy. specialize (Hc y Hy). set_solver. }
  assert (Hn1 : (size (txns g ∖ ({[x]} ∪ V)) < n)%nat).
  { assert (Hs : (size (txns g ∖ ({[x]} ∪ V)) < size (txns g ∖ V))%nat); [|lia].
    apply subset_size. split; [set_solver|]. intros Hc. specialize (Hc x). set_solver. }
  assert (Hr1 : forall r y, r ∈ {[x]} ∪ R -> y ∈ waits_for g x -> tc edge r y).
  { intros r y Hrx Hy. apply elem_of_union in Hrx as [Hrx|Hrx].
    - apply elem_of_singleton in Hrx as ->. by apply tc_once.
    - eapply tc_r; [by apply Hr|done]. }
  pose proof (dfs_all_ok (dfs g n) n (waits_for g x) _ _ IH Hok1 Hr1
                (fun y Hy => waits_for_txns x y Hy) Hn1) as Hall.
  destruct (dfs_all (dfs g n) (waits_for g x) ({[x]} ∪ V) ({[x]} ∪ R)) as [[[|] V2] R2]; [done|].
  destruct Hall as (-> & Hsub & [Hrs Hd] & Hsucc).
  assert (HR : ({[x]} ∪ R) ∖ {[x]} = R) by set_solver. rewrite HR.
  split; [done|]. split; [set_solver|]. split; [set_solver|]. split; [set_solver|].
  assert (Hclosed : forall a b, a ∈ V2 ∖ ({[x]} ∪ R) -> edge a b -> b ∈ V2 ∖ ({[x]} ∪ R)).
  { intros a b Ha Hab. by apply (Hd a Ha). }
  intros z Hz. destruct (decide (z = x)) as [->|Hne].
  - split; [intros y Hy; specialize (Hsucc y Hy); set_solver|].
    intros Hcyc. assert (Hxin : x ∈ V2 ∖ ({[x]} ∪ R)); [|set_solver].
    inversion Hcyc as [? ? Hxx|? y ? Hxy Hyx]; subst; [by apply Hsucc|].
    apply (closed_tc _ y x Hclosed Hyx). by apply Hsucc.
  - assert (Hz2 : z ∈ V2 ∖ ({[x]} ∪ R)) by set_solver.
    destruct (Hd z Hz2) as [Hc Hn']. split; [|done]. intros y Hy. specialize (Hc y Hy). set_solver.
Qed.

Lemma detect_from_ok entries : forall V,
  search_ok V ∅ -> (forall x, x ∈ entries -> x ∈ txns g) ->
  if detect_from g entries V ∅ then exists c, tc edge c c
  else exists V', V ⊆ V' /\ search_ok V' ∅ /\ forall x, x ∈ entries -> x ∈ V'.
Proof.
  induction entries as [|x entries IH]; intros V Hok Ht; cbn [detect_from].
  - exists V. split; [done|]. split; [done|]. intros x Hx. by apply not_elem_of_nil in Hx.
  - destruct (decide (x ∈ V)) as [HxV|HxV].
    + specialize (IH V Hok (fun z Hz => Ht z ltac:(by right))).
      destruct (detect_from g entries V ∅); [done|]. destruct IH as (V' & Hs & Hok' & Hall).
      exists V'. split; [done|]. split; [done|]. intros z Hz.
      apply elem_of_cons in Hz as [->|Hz]; [set_solver|auto].
    + assert (Hn : (size (txns g ∖ V) < S (size (txns g)))%nat).
      { apply Nat.lt_succ_r, subseteq_size. set_solver. }
      pose proof (dfs_ok (S (size (txns g))) x V ∅ Hok) as Hd.
      specialize (Hd (fun r H => match not_elem_of_empty r H with end) (Ht x ltac:(left)) Hn).
      destruct (dfs g (S (size (txns g))) x V ∅) as [[[|] V1] R1]; [done|].
      destruct Hd as (-> & Hs & Hx & Hok1).
      specialize (IH V1 Hok1 (fun z Hz => Ht z ltac:(by right))).
      destruct (detect_from g entries V1 ∅); [done|]. destruct IH as (V' & Hs' & Hok' & Hall).
      exists V'. split; [set_solver|]. split; [done|]. intros z Hz.
      apply elem_of_cons in Hz as [->|Hz]; [set_solver|auto].
Qed.

Lemma tc_dom x y : tc edge x y -> x ∈ dom g.
Proof.
  intros Hxy. assert (He : exists z, edge x z) by (destruct Hxy; eauto).
  destruct He as [z Hz]. unfold edge, waits_for in Hz. apply elem_of_dom.
  destruct (g !! x); [eauto|]. simpl in Hz. by apply not_elem_of_nil in Hz.
Qed.
End Search.

(** Every entry of the map is visited. *)
Definition visits_all (order : gmap Z (list Z) -> list Z) : Prop :=
  forall g x, x ∈ order g <-> x ∈ dom g.

Lemma detect_from_exact (order : gmap Z (list Z) -> list Z) (g : gmap Z (list Z)) :
  visits_all order ->
  detect_from g (order g) ∅ ∅ = true <-> exists x, tc (edge g) x x.
Proof.
  intros Ho. pose proof (detect_from_ok g (order g) ∅) as Hd.
  assert (Hok : search_ok g ∅ ∅) by (split; [done|]; intros x Hx; set_solver).
  specialize (Hd Hok). assert (Ht : forall x, x ∈ order g -> x ∈ txns g).
  { intros x Hx. apply Ho in Hx. unfold txns. set_solver. }
  specialize (Hd Ht). destruct (detect_from g (order g) ∅ ∅); [done|]. split; [done|].
  intros [x Hx]. destruct Hd as (V & _ & [_ Hok'] & Hall).
  destruct (Hok' x) as [_ Hn]; [|done]. pose proof (tc_dom g x x Hx) as Hdom.
  apply Ho, Hall in Hdom. set_solver.
Qed.

(** C14.  Deadlock detection is exact: in every state, and for every order in which the entries are
    visited, [detectDeadlock] returns, leaves the state as it was, and answers [true] exactly when
    the wait-for graph has a cycle. *)
Theorem deadlock_detection_exact (order : gmap Z (list Z) -> list Z) (s : TransactionManager) :
  visits_all order -> mtx s = false ->
  exists b, detectDeadlock order s = (s, Ret b) /\
    (b = true <-> exists x, tc (edge (wait_for_graph s)) x x).
Proof.
  intros Ho Hm. exists (detect_from (wait_for_graph s) (order (wait_for_graph s)) ∅ ∅). split.
  - unfold detectDeadlock, lock_guard. cbn [held tm_lockable]. rewrite Hm. cbn. by destruct s; simpl in *; subst.
  - by apply detect_from_exact.
Qed.

(** The entries in the map's own order, and a graph in which 1 and 2 wait for each other. *)
Definition keys_in_order (g : gmap Z (list Z)) : list Z := (map_to_list g).*1.
Definition deadlocked : TransactionManager := MkTM ∅ ∅ ∅ {[ 1 := [2]; 2 := [3; 1] ]} false.

Lemma keys_in_order_all : visits_all keys_in_order.
Proof.
  intros g x. unfold keys_in_order. rewrite elem_of_dom. split.
  - intros Hx. apply elem_of_fst_inv in Hx as [l Hx]. apply elem_of_map_to_list in Hx. eauto.
  - intros [l Hl]. apply elem_of_fst with l. by apply elem_of_map_to_list.
Qed.

Lemma deadlock_detection_exact_witness :
  (exists b, detectDeadlock keys_in_order deadlocked = (deadlocked, Ret b) /\
     (b = true <-> exists x, tc (edge (wait_for_graph deadlocked)) x x)) /\
  detectDeadlock keys_in_order deadlocked = (deadlocked, Ret true).
Proof.
  split; [|vm_compute; reflexivity].
  apply (deadlock_detection_exact keys_in_order deadlocked); [exact keys_in_order_all|reflexivity].
Defined.

(** ** Granted locks *)

(** On each resource, granted requests of different transactions do not conflict. *)
Definition compatible (l : list LockRequest) : Prop :=
  forall a b, a ∈ l -> b ∈ l -> granted a = true -> granted b = true ->
    conflicts (txn_id a) (lock_type a) b = false.

Definition safe (t : LockTable) : Prop := forall r l, t !! r = Some l -> compatible l.

Lemma conflicts_sym a b :
  conflicts (txn_id a) (lock_type a) b = conflicts (txn_id b) (lock_type b) a.
Proof.
  unfold conflicts. rewrite Z.eqb_sym. f_equal. apply orb_comm.
Qed.

Lemma conflicts_self a : conflicts (txn_id a) (lock_type a) a = false.
Proof. unfold conflicts. by rewrite Z.eqb_refl. Qed.

Lemma safe_insert t r l : safe t -> compatible l -> safe (<[r := l]> t).
Proof. intros Ht Hl j l' Hj. apply lookup_insert_Some in Hj as [[_ <-]|[_ Hj]]; [done|by eapply Ht]. Qed.

Lemma compatible_snoc l a :
  compatible l ->
  (granted a = true -> forall b, b ∈ l -> conflicts (txn_id a) (lock_type a) b = false) ->
  compatible (l ++ [a]).
Proof.
  intros Hl Ha x y Hx Hy Gx Gy. rewrite elem_of_app, list_elem_of_singleton in Hx, Hy.
  destruct Hx as [Hx| ->], Hy as [Hy| ->].
  - by apply Hl.
  - rewrite conflicts_sym. by apply Ha.
  - by apply Ha.
  - apply conflicts_self.
Qed.

Lemma existsb_false {A : Type} (f : A -> bool) l :
  existsb f l = false -> forall x, x ∈ l -> f x = false.
Proof.
  intros Hf x Hx. destruct (f x) eqn:Hfx; [|done].
  assert (Ht : existsb f l = true); [|congruence].
  apply existsb_exists. exists x. split; [by apply list_elem_of_In|done].
Qed.

(** Grants are compatible: queueing a request never grants it against a conflicting one of
    another transaction, and a request is granted on arrival exactly when no other transaction's
    request on the resource, granted or waiting, conflicts with it. *)
Lemma acquire_keeps_grants_compatible (txn resource : Z) (ty : LockType) (t : LockTable) :
  safe t ->
  let l := default [] (t !! resource) in
  let '(t', now) := lm_acquireLock txn resource ty t in
  safe t' /\ t' !! resource = Some (l ++ [MkReq txn ty (negb (existsb (conflicts txn ty) l))]).
Proof.
  intros Ht l. unfold lm_acquireLock, l. destruct (t !! resource) as [l'|] eqn:Hl; simpl;
    (split; [apply safe_insert; [done|]|apply lookup_insert_eq]).
  - apply compatible_snoc; [by eapply Ht|]. cbn [granted txn_id lock_type].
    intros Hg. apply existsb_false. by apply negb_true_iff.
  - intros x y Hx Hy _ _. apply list_elem_of_singleton in Hx as ->, Hy as ->. apply conflicts_self.
Qed.

Definition shared_pair : LockTable := {[ 7 := [MkReq 1 SHARED true; MkReq 2 SHARED true] ]}.

Lemma shared_pair_safe : safe shared_pair.
Proof.
  intros r l Hl. unfold shared_pair in Hl. apply lookup_singleton_Some in Hl as [_ <-].
  intros a b Ha Hb _ _. rewrite elem_of_cons, list_elem_of_singleton in Ha, Hb.
  by destruct Ha as [-> | ->], Hb as [-> | ->].
Qed.

Lemma acquire_keeps_grants_compatible_witness :
  let '(t', now) := lm_acquireLock 3 7 EXCLUSIVE shared_pair in
  safe t' /\
  t' !! 7 = Some [MkReq 1 SHARED true; MkReq 2 SHARED true; MkReq 3 EXCLUSIVE false].
Proof. apply (acquire_keeps_grants_compatible 3 7 EXCLUSIVE shared_pair shared_pair_safe). Defined.

(** A transaction that holds a shared lock and asks for an exclusive one while another transaction
    shares the resource is not granted it, but its wait is over at once. *)
Example upgrade_returns_ungranted :
  lm_acquireLock 1 7 EXCLUSIVE shared_pair =
    (<[7 := [MkReq 1 SHARED true; MkReq 2 SHARED true; MkReq 1 EXCLUSIVE false]]> shared_pair, true).
Proof. reflexivity. Qed.

(** Releasing one of two shared locks grants a waiting exclusive lock against the other. *)
Example release_grants_conflicting :
  lm_releaseLock 1 7 (fst (lm_acquireLock 3 7 EXCLUSIVE shared_pair)) =
    {[ 7 := [MkReq 2 SHARED true; MkReq 3 EXCLUSIVE true] ]}.
Proof. reflexivity. Qed.

(** ** Releasing *)

Lemma grant_first_alone l :
  Forall (fun a => granted a = false) l -> compatible (grant_first l).
Proof.
  intros Hl. destruct l as [|a l]; [intros x y Hx; by apply not_elem_of_nil in Hx|]. simpl.
  apply Forall_cons in Hl as [-> Hl]. rewrite Forall_forall in Hl.
  intros x y Hx Hy Gx Gy. apply elem_of_cons in Hx as [->|Hx], Hy as [->|Hy].
  - apply conflicts_self.
  - by rewrite (Hl y Hy) in Gy.
  - by rewrite (Hl x Hx) in Gx.
  - by rewrite (Hl x Hx) in Gx.
Qed.

(** Releasing hands the lock over: when the releasing transaction was the only holder on the
    resource, its requests disappear, the oldest waiting request is granted and no other, and the
    grants stay compatible. *)
Lemma release_hands_over (txn resource : Z) (t : LockTable) (l : list LockRequest) :
  safe t -> t !! resource = Some l ->
  Forall (fun a => granted a = true -> txn_id a = txn) l ->
  let t' := lm_releaseLock txn resource t in
  safe t' /\
  match filter (fun a => txn_id a ≠ txn) l with
  | [] => t' !! resource = None
  | a :: rest => t' !! resource = Some (MkReq (txn_id a) (lock_type a) true :: rest)
  end.
Proof.
  intros Ht Hl Hall t'. unfold t', lm_releaseLock. rewrite Hl.
  assert (Hw : Forall (fun a => granted a = false) (filter (fun a => txn_id a ≠ txn) l)).
  { apply Forall_forall. intros a Ha. apply list_elem_of_filter in Ha as [Hne Ha].
    rewrite Forall_forall in Hall. specialize (Hall a Ha). destruct (granted a); [|done].
    by destruct Hne; apply Hall. }
  destruct (filter (fun a => txn_id a ≠ txn) l) as [|a rest] eqn:Hf.
  - split; [|apply lookup_delete_eq]. intros r l' Hr. apply lookup_delete_Some in Hr as [_ Hr]. by eapply Ht.
  - split; [apply safe_insert; [done|]; by apply grant_first_alone|].
    rewrite lookup_insert_eq. simpl. apply Forall_cons in Hw as [-> _]. done.
Qed.

Definition one_holder : LockTable :=
  {[ 7 := [MkReq 1 EXCLUSIVE true; MkReq 2 SHARED false; MkReq 3 SHARED false] ]}.

Lemma one_holder_safe : safe one_holder.
Proof.
  intros r l Hl. unfold one_holder in Hl. apply lookup_singleton_Some in Hl as [_ <-].
  intros a b Ha Hb Ga Gb. rewrite !elem_of_cons, elem_of_nil in Ha. rewrite !elem_of_cons, elem_of_nil in Hb.
  destruct Ha as [-> |[-> |[-> |[]]]], Hb as [-> |[-> |[-> |[]]]]; done.
Qed.

Lemma release_hands_over_witness :
  safe (lm_releaseLock 1 7 one_holder) /\
  lm_releaseLock 1 7 one_holder !! 7 = Some [MkReq 2 SHARED true; MkReq 3 SHARED false].
Proof.
  apply (release_hands_over 1 7 one_holder
           [MkReq 1 EXCLUSIVE true; MkReq 2 SHARED false; MkReq 3 SHARED false]).
  - exact one_holder_safe.
  - reflexivity.
  - repeat (apply Forall_cons_2; [done|]). apply Forall_nil_2.
Defined.

(** Ending a transaction never returns: [commitTransaction] and [rollbackTransaction] of an
    active transaction call [releaseLocks] under the mutex it locks again, so its locks are never
    released; for any other transaction they return and change nothing. *)
Lemma commit_outcome (txn : Z) (s : TransactionManager) :
  mtx s = false ->
  (txn ∈ active_transactions s ->
     commitTransaction txn s = (set_held true s, Hang) /\
     rollbackTransaction txn s = (set_held true s, Hang)) /\
  (txn ∉ active_transactions s ->
     commitTransaction txn s = (s, Ret tt) /\ rollbackTransaction txn s = (s, Ret tt)).
Proof.
  intros Hm.
  assert (He : end_transaction txn s =
    if decide (txn ∈ active_transactions s) then (set_held true s, Hang) else (s, Ret tt)).
  { unfold end_transaction, lock_guard at 1. cbn [held tm_lockable]. rewrite Hm.
    cbn [set_held tm_lockable active_transactions]. case_decide; [done|].
    destruct s; simpl in *; by subst. }
  unfold commitTransaction, rollbackTransaction. rewrite He.
  split; intros Hin; [by rewrite decide_True by done|by rewrite decide_False by done].
Qed.

Lemma commit_outcome_witness :
  snd (commitTransaction 1 (fst (beginTransaction 1 make))) = Hang /\
  commitTransaction 2 make = (make, Ret tt).
Proof.
  destruct (commit_outcome 1 (fst (beginTransaction 1 make))) as [H1 _]; [reflexivity|].
  destruct (commit_outcome 2 make) as [_ H2]; [reflexivity|]. split.
  - destruct H1 as [H1 _]; [|rewrite H1; reflexivity].
    apply (bool_decide_unpack _). vm_compute. exact I.
  - destruct H2 as [H2 _]; [|exact H2]. apply (bool_decide_unpack _). vm_compute. exact I.
Defined.
