(* ===== verification/LockThreads.v ===== *)
(** * Threads on the two-phase locking manager
    ([transactions/concurrency_control/two_phase_locking.cpp])

    Any number of threads call the manager of [TwoPhaseLocking]; each step is one critical section of
    one thread, and a thread waits for a lock, for the manager's mutex or for another thread. Threads may
    call every public operation, [releaseLocks] and the lock manager's [releaseLock] included. Recording a
    lock reads the lock table without the lock manager's mutex; the model takes that read as one step of
    its own and leaves aside that it races with the lock manager. The file holds the demo program ([transaction1], [transaction2], [main]) and shows how every run ends and
    what deadlock detection can report. *)

From S2P Require Import Prelude TwoPhaseLocking.
Local Open Scope Z_scope.

(** ** Threads *)

(** The calls a thread makes, and [std::thread::join]. [Release] is [TransactionManager::releaseLocks],
    [Unlock] is [LockManager::releaseLock]. *)
Inductive call : Type :=
| Begin (txn : Z)
| Acquire (txn resource : Z) (ty : LockType)
| Commit (txn : Z)
| Rollback (txn : Z)
| Release (txn : Z)
| Unlock (txn resource : Z)
| Detect
| Join (thread : nat).

(** Where a thread is: between calls; waiting on the condition variable of its request; past the lock
    manager, about to record the lock; in [releaseLocks], with the resources its loop still has before
    it and the manager's mutex; inside a call that never returns; waiting on a request, and with it on a
    condition variable, that another thread has destroyed, which has no defined behaviour. *)
Inductive phase : Type :=
| Running
| Waiting (txn resource : Z)
| Recording (txn resource : Z)
| Releasing (txn : Z) (resources : list Z)
| Stuck
| Dangling.

Record thread : Type := MkThread { todo : list call; at_ : phase }.

Definition finished (th : thread) : Prop := th = MkThread [] Running.

(** The answers of [detectDeadlock] are kept in the order they are given. *)
Record world : Type := MkWorld {
  manager : TransactionManager;
  threads : list thread;
  answers : list bool
}.

Definition start (scripts : list (list call)) : world :=
  MkWorld make ((fun script => MkThread script Running) <$> scripts) [].

Definition with_table (t : LockTable) (s : TransactionManager) : TransactionManager :=
  MkTM t (txn_locks s) (active_transactions s) (wait_for_graph s) (mtx s).

(** The end of [releaseLocks]: the transaction's locks are forgotten and the mutex is unlocked. *)
Definition release_end (txn : Z) (s : TransactionManager) : TransactionManager :=
  MkTM (lock_table s) (delete txn (txn_locks s)) (active_transactions s) (wait_for_graph s) false.

Section Steps.
Context (order : gmap Z (list Z) -> list Z).

(** The calls that run under the manager's mutex from beginning to end, with what they answer. *)
Definition guarded_call (c : call) : option (prog TransactionManager (list bool)) :=
  match c with
  | Begin txn => Some (prog_bind (beginTransaction txn) (fun _ => prog_ret []))
  | Commit txn => Some (prog_bind (commitTransaction txn) (fun _ => prog_ret []))
  | Rollback txn => Some (prog_bind (rollbackTransaction txn) (fun _ => prog_ret []))
  | Detect => Some (prog_bind (detectDeadlock order) (fun b => prog_ret [b]))
  | Acquire _ _ _ | Release _ | Unlock _ _ | Join _ => None
  end.

(** The transaction has a request on the resource. *)
Definition has_request (txn : Z) (requests : list LockRequest) : bool :=
  existsb (fun req => txn_id req =? txn) requests.

(** A step of one thread on the manager. [TransactionManager::acquireLock] takes two or three: the
    request, the end of the wait when there is one, and the record. [releaseLocks] takes one for each
    resource, since the lock manager's mutex is free between them, and one at either end. *)
Inductive thread_step : TransactionManager -> thread -> TransactionManager -> thread ->
    list bool -> Prop :=
| ts_returns s c p rest s' bs :
    guarded_call c = Some p -> mtx s = false -> p s = (s', Ret bs) ->
    thread_step s (MkThread (c :: rest) Running) s' (MkThread rest Running) bs
| ts_hangs s c p rest s' :
    guarded_call c = Some p -> mtx s = false -> p s = (s', Hang) ->
    thread_step s (MkThread (c :: rest) Running) s' (MkThread rest Stuck) []
| ts_request s txn resource ty rest t now :
    lm_acquireLock txn resource ty (lock_table s) = (t, now) ->
    thread_step s (MkThread (Acquire txn resource ty :: rest) Running) (with_table t s)
      (MkThread rest (if now : bool then Recording txn resource else Waiting txn resource)) []
| ts_wake s txn resource rest :
    wait_over txn (default [] (lock_table s !! resource)) = true ->
    thread_step s (MkThread rest (Waiting txn resource)) s (MkThread rest (Recording txn resource)) []
| ts_record s txn resource rest s' :
    mtx s = false -> lock_guard (record_lock txn resource) s = (s', Ret tt) ->
    thread_step s (MkThread rest (Recording txn resource)) s' (MkThread rest Running) []
| ts_release_none s txn rest :
    mtx s = false -> txn_locks s !! txn = None ->
    thread_step s (MkThread (Release txn :: rest) Running) s (MkThread rest Running) []
| ts_release s txn rest resources :
    mtx s = false -> txn_locks s !! txn = Some resources ->
    thread_step s (MkThread (Release txn :: rest) Running) (set_held true s)
      (MkThread rest (Releasing txn resources)) []
| ts_release_one s txn resource resources rest :
    thread_step s (MkThread rest (Releasing txn (resource :: resources))) (release_one txn s resource)
      (MkThread rest (Releasing txn resources)) []
| ts_release_end s txn rest :
    thread_step s (MkThread rest (Releasing txn [])) (release_end txn s) (MkThread rest Running) []
| ts_unlock s txn resource rest :
    thread_step s (MkThread (Unlock txn resource :: rest) Running)
      (with_table (lm_releaseLock txn resource (lock_table s)) s) (MkThread rest Running) []
| ts_dangling s txn resource rest :
    has_request txn (default [] (lock_table s !! resource)) = false ->
    thread_step s (MkThread rest (Waiting txn resource)) s (MkThread rest Dangling) [].

Inductive step : world -> world -> Prop :=
| step_thread s ths ans i th s' th' bs :
    ths !! i = Some th -> thread_step s th s' th' bs ->
    step (MkWorld s ths ans) (MkWorld s' (<[i := th']> ths) (ans ++ bs))
| step_join s ths ans i j rest th :
    ths !! i = Some (MkThread (Join j :: rest) Running) -> ths !! j = Some th -> finished th ->
    step (MkWorld s ths ans) (MkWorld s (<[i := MkThread rest Running]> ths) ans).
End Steps.

(** ** The demo program *)

Definition transaction1 : list call :=
  [Begin 1; Acquire 1 1 SHARED; Acquire 1 2 EXCLUSIVE; Commit 1].
Definition transaction2 : list call :=
  [Begin 2; Acquire 2 1 EXCLUSIVE; Acquire 2 2 SHARED; Commit 2].

(** Thread 0 is the one that runs [main]; 1 and 2 are [t1] and [t2]. *)
Definition main : list (list call) := [[Detect; Join 1; Join 2]; transaction1; transaction2].

(** ** Running a schedule *)

Section Schedules.
Context (order : gmap Z (list Z) -> list Z).

(** The step of a thread as a function; [None] when it has to wait. *)
Definition exec_thread (s : TransactionManager) (th : thread) :
    option (TransactionManager * thread * list bool) :=
  match at_ th, todo th with
  | Running, Acquire txn resource ty :: rest =>
      let '(t, now) := lm_acquireLock txn resource ty (lock_table s) in
      Some (with_table t s,
            MkThread rest (if now then Recording txn resource else Waiting txn resource), [])
  | Running, Unlock txn resource :: rest =>
      Some (with_table (lm_releaseLock txn resource (lock_table s)) s, MkThread rest Running, [])
  | Running, Release txn :: rest =>
      if mtx s then None
      else match txn_locks s !! txn with
           | None => Some (s, MkThread rest Running, [])
           | Some resources => Some (set_held true s, MkThread rest (Releasing txn resources), [])
           end
  | Running, c :: rest =>
      match guarded_call order c with
      | Some p =>
          if mtx s then None
          else match p s with
               | (s', Ret bs) => Some (s', MkThread rest Running, bs)
               | (s', Hang) => Some (s', MkThread rest Stuck, [])
               | _ => None
               end
      | None => None
      end
  | Waiting txn resource, rest =>
      if wait_over txn (default [] (lock_table s !! resource))
      then Some (s, MkThread rest (Recording txn resource), [])
      else if has_request txn (default [] (lock_table s !! resource)) then None
      else Some (s, MkThread rest Dangling, [])
  | Releasing txn (resource :: resources), rest =>
      Some (release_one txn s resource, MkThread rest (Releasing txn resources), [])
  | Releasing txn [], rest => Some (release_end txn s, MkThread rest Running, [])
  | Recording txn resource, rest =>
      if mtx s then None
      else match lock_guard (record_lock txn resource) s with
           | (s', Ret tt) => Some (s', MkThread rest Running, [])
           | _ => None
           end
  | _, _ => None
  end.

#[local] Instance call_eq_dec : EqDecision call.
Proof. solve_decision. Defined.
#[local] Instance phase_eq_dec : EqDecision phase.
Proof. solve_decision. Defined.
#[local] Instance thread_eq_dec : EqDecision thread.
Proof. solve_decision. Defined.

(** A step of thread [i]. *)
Definition exec (i : nat) (w : world) : option world :=
  th ← threads w !! i;
  match th with
  | MkThread (Join j :: rest) Running =>
      th' ← threads w !! j;
      if decide (th' = MkThread [] Running)
      then Some (MkWorld (manager w) (<[i := MkThread rest Running]> (threads w)) (answers w))
      else None
  | _ =>
      r ← exec_thread (manager w) th;
      let '(s', th', bs) := r in
      Some (MkWorld s' (<[i := th']> (threads w)) (answers w ++ bs))
  end.

Fixpoint run (schedule : list nat) (w : world) : option world :=
  match schedule with
  | [] => Some w
  | i :: schedule => w' ← exec i w; run schedule w'
  end.

Lemma exec_thread_sound s th s' th' bs :
  exec_thread s th = Some (s', th', bs) -> thread_step order s th s' th' bs.
Proof.
  destruct th as [l ph]. unfold exec_thread. cbn [at_ todo].
  destruct ph as [|txn res|txn res|txn [|res rs]| |]; intros He; try done.
  - destruct l as [|c rest]; [done|]. destruct (guarded_call order c) as [p|] eqn:Hc.
    + assert (Hg : mtx s = false /\ match p s with
               | (s', Ret bs) => Some (s', MkThread rest Running, bs)
               | (s', Hang) => Some (s', MkThread rest Stuck, [])
               | _ => None end = Some (s', th', bs)).
      { destruct c; try done; destruct (mtx s); done. }
      destruct Hg as [Hm Hp]. destruct (p s) as [s1 [bs1| | |]] eqn:Hps; simplify_eq;
        [by eapply ts_returns|by eapply ts_hangs].
    + destruct c as [|txn res ty| | |txn|txn res| |]; try done.
      * destruct (lm_acquireLock txn res ty (lock_table s)) as [t now] eqn:Ht. simplify_eq.
        by apply ts_request.
      * destruct (mtx s) eqn:Hm; [done|]. destruct (txn_locks s !! txn) as [rs|] eqn:Hl; simplify_eq;
          [by apply ts_release|by apply ts_release_none].
      * simplify_eq. apply ts_unlock.
  - destruct (wait_over txn _) eqn:Hw; [simplify_eq; by apply ts_wake|].
    destruct (has_request txn _) eqn:Hq; simplify_eq. by apply ts_dangling.
  - destruct (mtx s) eqn:Hm; [done|].
    destruct (lock_guard (record_lock txn res) s) as [s1 [[]| | |]] eqn:Hr; simplify_eq.
    by apply ts_record.
  - simplify_eq. apply ts_release_end.
  - simplify_eq. apply ts_release_one.
Qed.

Lemma exec_sound i w w' : exec i w = Some w' -> step order w w'.
Proof.
  destruct w as [s ths ans]. unfold exec. cbn [threads manager answers]. intros He.
  apply bind_Some in He as (th & Hi & He).
  assert (Ht : (r ← exec_thread s th; let '(s', th', bs) := r in
                 Some (MkWorld s' (<[i := th']> ths) (ans ++ bs))) = Some w' ->
               step order (MkWorld s ths ans) w').
  { intros Hr. apply bind_Some in Hr as ([[s' th'] bs] & Hx & [= <-]).
    eapply step_thread; [done|by apply exec_thread_sound]. }
  destruct th as [[|[] rest] []]; try (by apply Ht).
  apply bind_Some in He as (th' & Hj & He). case_decide; [|done]. simplify_eq. by eapply step_join.
Qed.

Lemma run_sound schedule w w' :
  run schedule w = Some w' -> nsteps (step order) (length schedule) w w'.
Proof.
  revert w. induction schedule as [|i schedule IH]; intros w Hr; simpl in Hr.
  - simplify_eq. constructor.
  - apply bind_Some in Hr as (w1 & H1 & Hr). econstructor; [by eapply exec_sound|auto].
Qed.
End Schedules.

(** ** What each step does *)

Definition ends (txn : Z) (c : call) : bool :=
  match c with Commit txn' | Rollback txn' => txn' =? txn | _ => false end.

(** The outcome of a guarded call on a free mutex. *)
Definition guarded_effect (order : gmap Z (list Z) -> list Z) (c : call) (s : TransactionManager) :
    TransactionManager * outcome (list bool) :=
  match c with
  | Begin txn => (MkTM (lock_table s) (txn_locks s) ({[txn]} ∪ active_transactions s)
                    (wait_for_graph s) false, Ret [])
  | Commit txn | Rollback txn =>
      if decide (txn ∈ active_transactions s) then (set_held true s, Hang) else (s, Ret [])
  | _ => (s, Ret [detect_from (wait_for_graph s) (order (wait_for_graph s)) ∅ ∅])
  end.

Lemma guarded_call_effect order c p s :
  guarded_call order c = Some p -> mtx s = false -> p s = guarded_effect order c s.
Proof.
  intros Hc Hm. destruct c as [txn| |txn|txn| | | |]; try done; injection Hc as <-;
    unfold prog_bind, guarded_effect.
  - unfold beginTransaction, lock_guard. cbn. by rewrite Hm.
  - pose proof (commit_outcome txn s Hm) as [Ha Hn].
    case_decide as Hin; [destruct (Ha Hin) as [-> _]|destruct (Hn Hin) as [-> _]]; done.
  - pose proof (commit_outcome txn s Hm) as [Ha Hn].
    case_decide as Hin; [destruct (Ha Hin) as [_ ->]|destruct (Hn Hin) as [_ ->]]; done.
  - unfold detectDeadlock, lock_guard. cbn. rewrite Hm. cbn. by destruct s; simpl in *; subst.
Qed.

(** A guarded call that returns starts a transaction or changes nothing. *)
Lemma guarded_returns order c p s s' bs :
  guarded_call order c = Some p -> mtx s = false -> p s = (s', Ret bs) ->
  lock_table s' = lock_table s /\ wait_for_graph s' = wait_for_graph s /\ mtx s' = false /\
  active_transactions s ⊆ active_transactions s' /\
  (forall txn, c = Begin txn -> txn ∈ active_transactions s') /\
  (forall txn, ends txn c = true -> txn ∉ active_transactions s) /\
  (bs = [] \/ bs = [detect_from (wait_for_graph s) (order (wait_for_graph s)) ∅ ∅]).
Proof.
  intros Hc Hm Hp. rewrite (guarded_call_effect order c p s Hc Hm) in Hp.
  destruct c as [txn| |txn|txn| | | |]; try done; unfold guarded_effect in Hp;
    [|case_decide; [done|]|case_decide; [done|]|]; injection Hp as <- <-; simpl;
    (split; [done|]); (split; [done|]); (split; [done|]); (split; [set_solver|]);
    (split; [by intros ? [= <-]; set_solver|]);
    (split; [intros txn' He; try apply Z.eqb_eq in He; by subst|]); (by left) || (by right).
Qed.

Lemma guarded_hangs order c p s s' :
  guarded_call order c = Some p -> mtx s = false -> p s = (s', Hang) -> s' = set_held true s.
Proof.
  intros Hc Hm Hp. rewrite (guarded_call_effect order c p s Hc Hm) in Hp.
  destruct c; try done; unfold guarded_effect in Hp; try done; case_decide; try done; by injection Hp.
Qed.

Lemma record_frame (s s' : TransactionManager) txn resource :
  mtx s = false -> lock_guard (record_lock txn resource) s = (s', Ret tt) ->
  let l := default [] (lock_table s !! resource) in
  lock_table s' = <[resource := l]> (lock_table s) /\
  wait_for_graph s' = add_edges txn (waiters txn l) (wait_for_graph s) /\
  active_transactions s' = active_transactions s /\ mtx s' = false.
Proof.
  intros Hm Hr. unfold lock_guard, record_lock in Hr. cbn in Hr. rewrite Hm in Hr. by simplify_eq/=.
Qed.

(** ** Scripts that release nothing *)

Definition releases (c : call) : bool := match c with Release _ | Unlock _ _ => true | _ => false end.

(** No thread calls [releaseLocks] or [releaseLock]. *)
Definition never_releases (scripts : list (list call)) : Prop :=
  Forall (fun script => existsb releases script = false) scripts.

(** The thread neither releases locks nor will. *)
Definition quiet_thread (th : thread) : Prop :=
  existsb releases (todo th) = false /\ (forall txn rs, at_ th ≠ Releasing txn rs).
Definition quiet (w : world) : Prop := Forall quiet_thread (threads w).

Lemma start_quiet scripts : never_releases scripts -> quiet (start scripts).
Proof. intros Hn. apply Forall_fmap. eapply Forall_impl; [done|]. intros l Hl. by split. Qed.

(** A step shortens the calls that are left. *)
Lemma thread_step_todo order s th s' th' bs :
  thread_step order s th s' th' bs -> todo th' = todo th \/ exists c, todo th = c :: todo th'.
Proof. destruct 1; simpl; eauto. Qed.

Lemma thread_step_quiet order s th s' th' bs :
  thread_step order s th s' th' bs -> quiet_thread th -> quiet_thread th'.
Proof.
  intros Hst [Hq Hr]. split.
  - destruct (thread_step_todo _ _ _ _ _ _ Hst) as [->|[c Hc]]; [done|]. rewrite Hc in Hq.
    cbn [existsb] in Hq. by apply orb_false_iff in Hq as [_ Hq].
  - destruct Hst as [| |? ? ? ? ? ? [] ?| | | | | | | |]; simpl in *; try done. by destruct (Hr txn (resource :: resources)).
Qed.

Lemma step_quiet order w w' : step order w w' -> quiet w -> quiet w'.
Proof.
  unfold quiet. destruct 1 as [s ths ans i th s' th' bs Hi Hst|s ths ans i j rest th Hi Hj Hf]; simpl; intros Hq.
  - apply Forall_insert; [done|]. eapply thread_step_quiet; [done|]. by eapply Forall_lookup_1.
  - apply Forall_insert; [done|]. apply (Forall_lookup_1 _ _ _ _ Hq) in Hi as [Hi _].
    split; [|done]. by cbn in Hi.
Qed.

(** Grants stay compatible in every step that releases nothing. *)
Lemma thread_step_safe order s th s' th' bs :
  thread_step order s th s' th' bs -> quiet_thread th -> safe (lock_table s) -> safe (lock_table s').
Proof.
  intros Hst [Hq Hr] Hs. destruct Hst as [s c p rest s' bs Hc Hm Hp|s c p rest s' Hc Hm Hp
    |s txn res ty rest t now Ht|s txn res rest Hw|s txn res rest s' Hm Hrec| | |s txn res rs rest| | |];
    try done; [..|by destruct (Hr txn (res :: rs))].
  - by destruct (guarded_returns order c p s s' bs Hc Hm Hp) as [-> _].
  - by rewrite (guarded_hangs order c p s s' Hc Hm Hp).
  - pose proof (acquire_keeps_grants_compatible txn res ty (lock_table s) Hs) as Ha.
    rewrite Ht in Ha. by destruct Ha.
  - destruct (record_frame s s' txn res Hm Hrec) as [-> _]. apply safe_insert; [done|].
    destruct (lock_table s !! res) as [l|] eqn:Hl; simpl; [by eapply Hs|].
    intros a b Ha. by apply not_elem_of_nil in Ha.
Qed.

Lemma run_safe order w w' :
  rtc (step order) w w' -> quiet w -> safe (lock_table (manager w)) -> safe (lock_table (manager w')).
Proof.
  induction 1 as [|w w1 w2 Hst _ IH]; intros Hq Hs; [done|]. apply IH; [by eapply step_quiet|].
  destruct Hst as [s ths ans i th s' th' bs Hi Hst|]; simpl in *; [|done].
  eapply thread_step_safe; [done| |done]. by eapply Forall_lookup_1.
Qed.

(** ** What a thread asks for *)

(** The locks a script asks for. *)
Definition asks (l : list call) : list (Z * Z) :=
  omap (fun c => match c with Acquire txn resource _ => Some (txn, resource) | _ => None end) l.

Definition phase_asks (p : phase) : list (Z * Z) :=
  match p with Waiting txn r | Recording txn r => [(txn, r)] | _ => [] end.
Definition mine (th : thread) : list (Z * Z) := phase_asks (at_ th) ++ asks (todo th).

(** What a thread asks for only shrinks. *)
Lemma thread_step_mine order s th s' th' bs :
  thread_step order s th s' th' bs ->
  mine th' `sublist_of` mine th /\ asks (todo th') ⊆ asks (todo th).
Proof.
  destruct 1 as [? c ? rest ? ? Hc|? c ? rest ? Hc|? txn r ty rest ? [] ?| | | | | | | |]; unfold mine; simpl;
    try (split; [done|set_solver]); try (destruct c; done).
  - split; [|done]. by apply sublist_cons.
  - split; [|done]. by apply sublist_cons.
Qed.

(** ** The mutex *)

Definition guarded_part (s : TransactionManager) :=
  (txn_locks s, active_transactions s, wait_for_graph s, mtx s).

(** The thread holds the manager's mutex between two of its steps. *)
Definition holds_mutex (p : phase) : bool :=
  match p with Releasing _ _ | Stuck => true | _ => false end.

(** While another thread holds the mutex, what it guards stays as it is. *)
Lemma thread_step_held order s th s' th' bs :
  thread_step order s th s' th' bs -> mtx s = true -> holds_mutex (at_ th) = false ->
  guarded_part s' = guarded_part s /\ bs = [] /\ holds_mutex (at_ th') = false.
Proof. intros Hst Hm Hh. destruct Hst as [| |? ? ? ? ? ? [] ?| | | | | | | |]; try congruence; done. Qed.

(** A thread takes the mutex when it is free and keeps it until it is done. *)
Lemma thread_step_mutex order s th s' th' bs :
  thread_step order s th s' th' bs -> at_ th ≠ Stuck /\
  (holds_mutex (at_ th) = false -> mtx s = false -> mtx s' = holds_mutex (at_ th')) /\
  (holds_mutex (at_ th) = true -> mtx s = true -> mtx s' = holds_mutex (at_ th')).
Proof.
  destruct 1 as [s c p rest s' bs Hc Hm Hp|s c p rest s' Hc Hm Hp|? ? ? ? ? ? [] ?| |s txn res rest s' Hm Hr| | | | | |];
    simpl; try done; (split; [done|]); split; try done; intros _ Hm'.
  - by destruct (guarded_returns order c p s s' bs Hc Hm Hp) as (_ & _ & -> & _).
  - by rewrite (guarded_hangs order c p s s' Hc Hm Hp).
  - by destruct (record_frame s s' txn res Hm Hr) as (_ & _ & _ & ->).
Qed.

(** The mutex is held by at most one thread, and by no thread when it is free. *)
Definition one_holder (w : world) : Prop :=
  (forall i th, threads w !! i = Some th -> holds_mutex (at_ th) = true -> mtx (manager w) = true) /\
  (forall i j th th', threads w !! i = Some th -> threads w !! j = Some th' ->
     holds_mutex (at_ th) = true -> holds_mutex (at_ th') = true -> i = j).

Lemma step_one_holder order w w' : step order w w' -> one_holder w -> one_holder w'.
Proof.
  destruct 1 as [s ths ans k th s' th' bs Hk Hst|s ths ans k j rest th Hk Hj Hf]; intros [Hm Hu]; simpl in *.
  - destruct (thread_step_mutex _ _ _ _ _ _ Hst) as (_ & Hfree & Hheld).
    assert (Hother : forall i x, i ≠ k -> ths !! i = Some x -> holds_mutex (at_ x) = true ->
        mtx s' = true /\ holds_mutex (at_ th') = false).
    { intros i x Hne Hi Hx. pose proof (Hm i x Hi Hx) as Hmt.
      assert (Hth : holds_mutex (at_ th) = false).
      { destruct (holds_mutex (at_ th)) eqn:E; [|done]. by destruct Hne; eapply Hu. }
      destruct (thread_step_held _ _ _ _ _ _ Hst Hmt Hth) as (Hg & _ & ?). by injection Hg as _ _ _ ->. }
    split; simpl.
    + intros i x Hi Hx. apply list_lookup_insert_Some in Hi as [(-> & <- & _)|[Hne Hi]].
      * destruct (holds_mutex (at_ th)) eqn:E; [rewrite Hheld; eauto|].
        destruct (mtx s) eqn:Hms; [|rewrite Hfree; auto].
        destruct (thread_step_held _ _ _ _ _ _ Hst Hms E) as (_ & _ & Hx'). congruence.
      * by eapply (Hother i x).
    + intros i i' x x' Hi Hi' Hx Hx'.
      apply list_lookup_insert_Some in Hi as [(-> & <- & _)|[Hne Hi]],
        Hi' as [(-> & <- & _)|[Hne' Hi']]; [done|..|eauto].
      * destruct (Hother i' x') as [_ ?]; [done..|]. congruence.
      * destruct (Hother i x) as [_ ?]; [done..|]. congruence.
  - split; simpl.
    + intros i x Hi Hx. apply list_lookup_insert_Some in Hi as [(_ & <- & _)|[_ Hi]]; [done|eauto].
    + intros i i' x x' Hi Hi' Hx Hx'.
      apply list_lookup_insert_Some in Hi as [(-> & <- & _)|[_ Hi]]; [done|].
      apply list_lookup_insert_Some in Hi' as [(-> & <- & _)|[_ Hi']]; [done|eauto].
Qed.

(** ** No committing thread finishes *)

(** The script begins the transaction and later commits it or rolls it back. *)
Fixpoint ends_own (txn : Z) (l : list call) : bool :=
  match l with
  | [] => false
  | c :: rest =>
      match c with
      | Begin txn' => ((txn' =? txn) && existsb (ends txn) rest) || ends_own txn rest
      | _ => ends_own txn rest
      end
  end.

(** The thread still has the end of the transaction before it, or never goes on. *)
Definition pending (txn : Z) (active : gset Z) (th : thread) : Prop :=
  at_ th = Stuck \/ ends_own txn (todo th) = true \/
  (txn ∈ active /\ existsb (ends txn) (todo th) = true).

Lemma pending_unfinished txn active th : pending txn active th -> ¬ finished th.
Proof. intros Hp ->. by destruct Hp as [?|[?|[_ ?]]]. Qed.

Lemma pending_mono txn A B th : A ⊆ B -> pending txn A th -> pending txn B th.
Proof. intros HAB [?|[?|[? ?]]]; [by left|right; by left|right; right; split; [set_solver|done]]. Qed.

Lemma thread_step_active order s th s' th' bs :
  thread_step order s th s' th' bs -> active_transactions s ⊆ active_transactions s'.
Proof.
  destruct 1 as [s c p rest s' bs Hc Hm Hp|s c p rest s' Hc Hm Hp| | |s txn res rest s' Hm Hr| | | | | |]; try done.
  - by apply (guarded_returns order c p s s' bs Hc Hm Hp).
  - by rewrite (guarded_hangs order c p s s' Hc Hm Hp).
  - by destruct (record_frame s s' txn res Hm Hr) as (_ & _ & -> & _).
Qed.

Lemma thread_step_pending order s th s' th' bs txn :
  thread_step order s th s' th' bs -> pending txn (active_transactions s) th ->
  pending txn (active_transactions s') th'.
Proof.
  intros Hst Hp. pose proof (thread_step_active _ _ _ _ _ _ Hst) as Hact.
  destruct Hst as [s c p rest s' bs Hc Hm Hr|s c p rest s' Hc Hm Hr| | | | | | | | |]; simpl in *;
    [|by left|by destruct Hp as [?|[?|[? ?]]]; [done|right; left|right; right; split; [set_solver|]]..].
  destruct (guarded_returns order c p s s' bs Hc Hm Hr) as (_ & _ & _ & _ & Hb & He & _).
  destruct Hp as [?|[Ho|[Hin Hx]]]; [done|..]; simpl in *.
  - destruct c as [t| | | | | | |]; try (right; by left). apply orb_true_iff in Ho as [Ho|Ho]; [|right; by left].
    apply andb_true_iff in Ho as [Ht Ho]. apply Z.eqb_eq in Ht as ->. right; right. split; [by apply Hb|done].
  - apply orb_true_iff in Hx as [Hx|Hx]; [by destruct (He txn Hx)|]. right; right. split; [set_solver|done].
Qed.

Lemma thread_step_join order s th s' th' bs j :
  thread_step order s th s' th' bs -> Join j ∈ todo th -> Join j ∈ todo th'.
Proof.
  destruct 1 as [s c p rest s' bs Hc|s c p rest s' Hc| | | | | | | | |]; simpl; try done;
    rewrite elem_of_cons; (by intros [?|?]) || (by intros [<-|?]).
Qed.

(** The script ends a transaction of its own. *)
Definition commits (script : list call) : Prop := exists txn, ends_own txn script = true.

(** The locks recorded for a transaction are distinct resources that the scripts ask for. *)
Definition recorded (scripts : list (list call)) (s : TransactionManager) : Prop :=
  forall txn l, txn_locks s !! txn = Some l -> NoDup l /\ forall r, r ∈ l -> r ∈ (asks (concat scripts)).*2.

Record run_inv (scripts : list (list call)) (w : world) : Prop := {
  ri_holder : one_holder w;
  ri_asks : forall i th a, threads w !! i = Some th -> a ∈ mine th -> a ∈ asks (concat scripts);
  ri_recorded : recorded scripts (manager w);
  ri_pending : forall i script txn, scripts !! i = Some script -> ends_own txn script = true ->
    exists th, threads w !! i = Some th /\ pending txn (active_transactions (manager w)) th;
  ri_join : forall i j script script', scripts !! i = Some script -> commits script ->
    scripts !! j = Some script' -> Join i ∈ script' ->
    exists th, threads w !! j = Some th /\ Join i ∈ todo th
}.

Lemma asks_app l l' : asks (l ++ l') = asks l ++ asks l'.
Proof. apply omap_app. Qed.

Lemma asks_concat scripts i l a : scripts !! i = Some l -> a ∈ asks l -> a ∈ asks (concat scripts).
Proof.
  intros Hi Ha. apply take_drop_middle in Hi. rewrite <-Hi, concat_app, asks_app. cbn [concat].
  rewrite asks_app. set_solver.
Qed.

Lemma start_inv scripts : run_inv scripts (start scripts).
Proof.
  assert (Hth : forall i th, threads (start scripts) !! i = Some th ->
            exists l, scripts !! i = Some l /\ th = MkThread l Running).
  { intros i th Hi. apply list_lookup_fmap_Some in Hi as (l & -> & Hl). eauto. }
  constructor.
  - split; [intros i th Hi|intros i j th th' Hi _]; apply Hth in Hi as (l & _ & ->); done.
  - intros i th a Hi Ha. apply Hth in Hi as (l & Hl & ->). by eapply asks_concat.
  - by intros txn l Hl.
  - intros i l txn Hi He. exists (MkThread l Running). cbn [start threads]. rewrite list_lookup_fmap, Hi.
    split; [done|]. right. by left.
  - intros i j l l' _ _ Hj Hin. exists (MkThread l' Running). cbn [start threads]. by rewrite list_lookup_fmap, Hj.
Qed.

(** What holds of the thread at [i] before a step of thread [k] and is kept by it holds after. *)
Lemma lookup_kept (P Q : thread -> Prop) (ths : list thread) i k th th' :
  ths !! k = Some th -> (exists x, ths !! i = Some x /\ P x) ->
  (P th -> Q th') -> (forall x, P x -> Q x) ->
  exists x, <[k := th']> ths !! i = Some x /\ Q x.
Proof.
  intros Hk (x & Hx & HP) Hst Hmono. destruct (decide (i = k)) as [->|Hne].
  - simplify_eq. exists th'. split; [by apply list_lookup_insert_eq, lookup_lt_Some with th|auto].
  - exists x. rewrite list_lookup_insert_ne by done. auto.
Qed.

Lemma set_add_NoDup x l : NoDup l -> NoDup (set_add x l).
Proof.
  intros Hl. unfold set_add. case_decide; [done|]. apply NoDup_app. split; [done|].
  split; [set_solver|apply NoDup_singleton].
Qed.

Lemma thread_step_recorded order scripts s th s' th' bs :
  thread_step order s th s' th' bs -> (forall a, a ∈ mine th -> a ∈ asks (concat scripts)) ->
  recorded scripts s -> recorded scripts s'.
Proof.
  intros Hst Ha Hr. destruct Hst as [s c p rest s' bs Hc Hm Hp|s c p rest s' Hc Hm Hp
    | | |s txn res rest s' Hm Hrec| | | | | |]; try done.
  - rewrite (guarded_call_effect order c p s Hc Hm) in Hp. unfold guarded_effect in Hp.
    destruct c; try done; try case_decide; by simplify_eq.
  - by rewrite (guarded_hangs order c p s s' Hc Hm Hp).
  - unfold lock_guard, record_lock in Hrec. cbn in Hrec. rewrite Hm in Hrec. simplify_eq/=.
    intros t l. cbn [txn_locks]. rewrite lookup_insert. case_decide as E; [|apply Hr]. intros [= <-].
    assert (Hold : NoDup (default [] (txn_locks s !! txn)) /\
        forall r, r ∈ default [] (txn_locks s !! txn) -> r ∈ (asks (concat scripts)).*2).
    { destruct (txn_locks s !! txn) as [l|] eqn:Hl; [by eapply Hr|]. split; [constructor|set_solver]. }
    destruct Hold as [Hnd Hin]. split; [by apply set_add_NoDup|]. intros r Hrl.
    unfold set_add in Hrl. case_decide; [by apply Hin|]. apply elem_of_app in Hrl as [Hrl|Hrl]; [by apply Hin|].
    apply list_elem_of_singleton in Hrl as ->. apply list_elem_of_fmap. exists (txn, res). split; [done|].
    apply Ha. unfold mine. simpl. left.
  - intros t l. cbn [txn_locks release_end]. rewrite lookup_delete_Some. intros [_ Hl]. by eapply Hr.
Qed.

Lemma step_inv order scripts w w' : run_inv scripts w -> step order w w' -> run_inv scripts w'.
Proof.
  intros [Hone Hasks Hrec Hpend Hjoin] Hst. pose proof (step_one_holder _ _ _ Hst Hone) as Hone'.
  destruct Hst as [s ths ans k th s' th' bs Hk Hst|s ths ans k j rest th Hk Hj Hf]; simpl in *.
  - constructor; simpl; [done|..].
    + intros i x a Hi Hx. apply list_lookup_insert_Some in Hi as [(-> & <- & _)|[_ Hi]]; [|by eapply Hasks].
      destruct (thread_step_mine _ _ _ _ _ _ Hst) as [Hm _]. eapply Hasks; [done|]. by eapply elem_of_sublist.
    + eapply thread_step_recorded; [done| |done]. by intros a; apply (Hasks k).
    + intros i l txn Hi He. eapply lookup_kept; [done|by eapply Hpend|by eapply thread_step_pending|].
      intros x. apply pending_mono. by eapply thread_step_active.
    + intros i i' l l' Hi Hc Hi' Hin.
      eapply lookup_kept; [done|by eapply (Hjoin i i')|by eapply thread_step_join|done].
  - constructor; simpl; [done|..].
    + intros i x a Hi Hx. apply list_lookup_insert_Some in Hi as [(-> & <- & _)|[_ Hi]]; [|by eapply Hasks].
      by apply (Hasks i _ a Hk).
    + done.
    + intros i l txn Hi He. eapply lookup_kept; [done|by eapply Hpend| |done].
      intros [?|[?|[? ?]]]; [done|right; by left|right; by right].
    + intros i i' l l' Hi [txn Hc] Hi' Hin.
      eapply lookup_kept; [done|eapply (Hjoin i i'); [done|by exists txn|done..]| |done].
      intros Hx. apply elem_of_cons in Hx as [[= ->]|Hx]; [|done].
      destruct (Hpend _ _ _ Hi Hc) as (y & Hy & Hp). simplify_eq. by apply pending_unfinished in Hp.
Qed.

Lemma nsteps_inv order scripts n w :
  nsteps (step order) n (start scripts) w -> run_inv scripts w.
Proof.
  intros Hn. assert (Hw : run_inv scripts (start scripts)) by apply start_inv.
  induction Hn; [done|]. eauto using step_inv.
Qed.

(** ** Every run ends *)

(** A call of [releaseLocks] takes a step for each lock of its transaction, and [m] bounds these. *)
Section Cost.
Context (m : nat).

Definition call_cost (c : call) : nat :=
  match c with Acquire _ _ _ => 3 | Release _ => 2 + m | _ => 1 end.
Definition phase_cost (p : phase) : nat :=
  match p with
  | Waiting _ _ => 2 | Recording _ _ => 1 | Releasing _ rs => S (length rs)
  | Running | Stuck | Dangling => 0
  end.
Definition cost (th : thread) : nat := phase_cost (at_ th) + sum_list_with call_cost (todo th).
Definition total (ths : list thread) : nat := sum_list_with cost ths.

Lemma thread_step_cost order s th s' th' bs :
  (forall txn l, txn_locks s !! txn = Some l -> (length l <= m)%nat) ->
  thread_step order s th s' th' bs -> (cost th' < cost th)%nat.
Proof.
  intros Hm. destruct 1 as [? c ? ? ? ? Hc|? c ? ? ? Hc|? ? ? ? ? ? [] ?| | | |s txn rest rs _ Hl| | | |];
    unfold cost; simpl; try (destruct c; try done; simpl; lia); try lia.
  apply Hm in Hl. lia.
Qed.

Lemma total_set ths i th th' :
  ths !! i = Some th -> (total (<[i := th']> ths) + cost th = total ths + cost th')%nat.
Proof.
  intros Hi. unfold total. rewrite (sum_list_with_insert cost ths i th th' Hi). lia.
Qed.

Lemma step_total order w w' :
  (forall txn l, txn_locks (manager w) !! txn = Some l -> (length l <= m)%nat) ->
  step order w w' -> (total (threads w') < total (threads w))%nat.
Proof.
  intros Hm. destruct 1 as [s ths ans i th s' th' bs Hi Hst|s ths ans i j rest th Hi Hj Hf]; simpl.
  - pose proof (total_set ths i th th' Hi). apply thread_step_cost in Hst; [lia|done].
  - pose proof (total_set ths i _ (MkThread rest Running) Hi) as Ht. unfold cost in Ht. simpl in Ht. lia.
Qed.

Lemma start_total scripts : (total (threads (start scripts)) <= (3 + m) * length (concat scripts))%nat.
Proof.
  unfold total. cbn [start threads]. induction scripts as [|l scripts IH]; [simpl; lia|].
  rewrite fmap_cons. cbn [sum_list_with concat]. rewrite length_app.
  assert (Hl : (cost (MkThread l Running) <= (3 + m) * length l)%nat); [|lia].
  unfold cost. simpl. clear. induction l as [|[] l IH]; simpl; lia.
Qed.
End Cost.

Lemma recorded_length scripts s txn l :
  recorded scripts s -> txn_locks s !! txn = Some l -> (length l <= length (asks (concat scripts)))%nat.
Proof.
  intros Hr Hl. destruct (Hr txn l Hl) as [Hnd Hin]. rewrite <-(length_fmap snd).
  by apply submseteq_length, NoDup_submseteq.
Qed.

Lemma nsteps_total order scripts n w w' :
  let m := length (asks (concat scripts)) in
  nsteps (step order) n w w' -> run_inv scripts w -> (n + total m (threads w') <= total m (threads w))%nat.
Proof.
  intros m. induction 1 as [|n x y z Hxy _ IH]; intros Hinv; [lia|].
  specialize (IH (step_inv _ _ _ _ Hinv Hxy)). apply (step_total m) in Hxy; [lia|].
  intros txn l. apply recorded_length, (ri_recorded _ _ Hinv).
Qed.

(** A thread that hangs does so for good, and with it everything the mutex guards. *)
Lemma held_frozen order w w' i rest :
  rtc (step order) w w' -> one_holder w -> threads w !! i = Some (MkThread rest Stuck) ->
  guarded_part (manager w') = guarded_part (manager w) /\ answers w' = answers w /\
  threads w' !! i = Some (MkThread rest Stuck).
Proof.
  induction 1 as [|w w1 w2 Hst _ IH]; intros Hone Hi; [done|].
  assert (H1 : guarded_part (manager w1) = guarded_part (manager w) /\ answers w1 = answers w /\
               threads w1 !! i = Some (MkThread rest Stuck)).
  { destruct Hone as [Hm Hu]. specialize (Hm i _ Hi eq_refl).
    destruct Hst as [s ths ans k th s' th' bs Hk Hst|s ths ans k j rest' th Hk Hj Hf]; simpl in *.
    - assert (Hne : k ≠ i) by (intros ->; simplify_eq; by destruct (thread_step_mutex _ _ _ _ _ _ Hst)).
      assert (Hth : holds_mutex (at_ th) = false).
      { destruct (holds_mutex (at_ th)) eqn:E; [|done]. by destruct Hne; eapply Hu. }
      destruct (thread_step_held _ _ _ _ _ _ Hst Hm Hth) as (-> & -> & _). rewrite app_nil_r.
      by rewrite list_lookup_insert_ne.
    - assert (k ≠ i) by (intros ->; simplify_eq). by rewrite list_lookup_insert_ne. }
  destruct H1 as (Hg & Ha & H1).
  destruct (IH (step_one_holder _ _ _ Hst Hone) H1) as (-> & -> & H2). done.
Qed.

(** C12.  Every run of threads on the manager ends, and commit and rollback never return. Whatever the
    threads call, releases included, and however they interleave: a run takes at most three steps for
    each call and, for [releaseLocks], one more for each lock that the scripts ask for; a thread that
    ends a transaction it began never finishes, nor does a thread that joins it; and once such a thread
    hangs it holds the manager's mutex for good, so that no transaction begins, records a lock, releases
    its locks, ends or looks for a deadlock any more. When no script calls [releaseLocks] or
    [releaseLock], granted locks never conflict. *)
Theorem lock_manager_stops (order : gmap Z (list Z) -> list Z) (scripts : list (list call))
    (n : nat) (w : world) :
  nsteps (step order) n (start scripts) w ->
  (n <= (3 + length (asks (concat scripts))) * length (concat scripts))%nat /\
  (forall i script, scripts !! i = Some script -> commits script ->
     forall j script' th, scripts !! j = Some script' -> j = i \/ Join i ∈ script' ->
       threads w !! j = Some th -> ¬ finished th) /\
  (forall i rest w', threads w !! i = Some (MkThread rest Stuck) -> rtc (step order) w w' ->
     guarded_part (manager w') = guarded_part (manager w) /\ answers w' = answers w /\
     threads w' !! i = Some (MkThread rest Stuck) /\ mtx (manager w') = true) /\
  (never_releases scripts -> safe (lock_table (manager w))).
Proof.
  intros Hn. pose proof (nsteps_inv order scripts n w Hn) as [Hone Hasks Hrec Hpend Hjoin].
  split; [pose proof (nsteps_total order scripts n _ _ Hn (start_inv scripts));
          pose proof (start_total (length (asks (concat scripts))) scripts); lia|].
  split; [|split].
  - intros i l Hi Hc j l' th Hj Hij Hth Hf. destruct Hij as [->|Hin].
    + destruct Hc as [txn Hc]. destruct (Hpend i l txn Hi Hc) as (x & Hx & Hp). simplify_eq.
      by apply (pending_unfinished _ _ _ Hp).
    + destruct (Hjoin i j l l' Hi Hc Hj Hin) as (x & Hx & Hp). simplify_eq.
      rewrite Hf in Hp. by apply not_elem_of_nil in Hp.
  - intros i rest w' Hi Hrun. pose proof (proj1 Hone i _ Hi eq_refl) as Hm.
    destruct (held_frozen order w w' i rest Hrun Hone Hi) as (Hg & Ha & Ht).
    split; [done|]. split; [done|]. split; [done|]. by injection Hg as _ _ _ ->.
  - intros Hnr. eapply run_safe; [by eapply rtc_nsteps_2|by apply start_quiet|]. by intros r l Hl.
Qed.

(** ** What deadlock detection reports *)

(** Each transaction runs in one thread and asks for a resource at most once. *)
Definition private (scripts : list (list call)) : Prop :=
  (forall i l, scripts !! i = Some l -> NoDup (asks l)) /\
  (forall i j l l' txn r r', scripts !! i = Some l -> scripts !! j = Some l' ->
     (txn, r) ∈ asks l -> (txn, r') ∈ asks l' -> i = j).

(** The requests on a resource. *)
Definition requests_on (s : TransactionManager) (r : Z) : list LockRequest :=
  default [] (lock_table s !! r).

Definition waiting_in (ths : list thread) (txn r : Z) : Prop :=
  exists i rest, ths !! i = Some (MkThread rest (Waiting txn r)).

Definition acyclic (g : gmap Z (list Z)) : Prop := forall x, ¬ tc (edge g) x x.

Record graph_inv (w : world) : Prop := {
  gi_once : forall i th, threads w !! i = Some th -> NoDup (mine th);
  gi_own : forall i j th th' txn r r', threads w !! i = Some th -> threads w !! j = Some th' ->
    (txn, r) ∈ mine th -> (txn, r') ∈ mine th' -> i = j;
  gi_asked : forall r q i th, q ∈ requests_on (manager w) r -> threads w !! i = Some th ->
    (txn_id q, r) ∉ asks (todo th);
  gi_waits : forall r q, q ∈ requests_on (manager w) r -> granted q = false ->
    waiting_in (threads w) (txn_id q) r;
  gi_blocked : forall txn r, waiting_in (threads w) txn r ->
    wait_over txn (requests_on (manager w) r) = false;
  gi_present : forall txn r, waiting_in (threads w) txn r ->
    has_request txn (requests_on (manager w) r) = true;
  gi_targets : forall x y, edge (wait_for_graph (manager w)) x y ->
    exists r, waiting_in (threads w) y r;
  gi_acyclic : acyclic (wait_for_graph (manager w));
  gi_answers : Forall (fun b => b = false) (answers w)
}.

Lemma add_edges_spec x ws g z y :
  y ∈ waits_for (add_edges x ws g) z <-> y ∈ waits_for g z \/ (z = x /\ y ∈ ws).
Proof.
  unfold add_edges. revert g. induction ws as [|w ws IH]; intros g; simpl; [set_solver|].
  rewrite IH. unfold waits_for. destruct (decide (z = x)) as [->|Hne].
  - rewrite lookup_insert_eq. simpl. unfold set_add. case_decide; set_solver.
  - rewrite lookup_insert_ne by done. set_solver.
Qed.

(** Edges out of a node with no edges into it close no cycle. *)
Lemma acyclic_source (R R' : Z -> Z -> Prop) x :
  (forall a b, R' a b -> R a b \/ a = x) -> (forall a, ¬ R' a x) ->
  (forall a, ¬ tc R a a) -> forall a, ¬ tc R' a a.
Proof.
  intros HR Hx Hac a Ha.
  assert (Hold : forall b c, tc R' b c -> b ≠ x -> tc R b c).
  { induction 1 as [b c Hbc|b c d Hbc Hcd IH]; intros Hne; destruct (HR _ _ Hbc) as [Hr| ->]; try done.
    - by apply tc_once.
    - eapply tc_l; [done|]. apply IH. intros ->. by apply (Hx b). }
  apply (Hac a), Hold; [done|]. intros ->.
  assert (Hlast : forall b c, tc R' b c -> exists d, R' d c) by (induction 1; eauto).
  destruct (Hlast _ _ Ha) as [b Hb]. by apply (Hx b).
Qed.

Definition is_waiting (p : phase) : bool := match p with Waiting _ _ => true | _ => false end.

Lemma waiting_in_set ths k th th' txn r :
  ths !! k = Some th -> is_waiting (at_ th) = false ->
  waiting_in ths txn r -> waiting_in (<[k := th']> ths) txn r.
Proof.
  intros Hk Hw (i & rest & Hi). exists i, rest. rewrite list_lookup_insert_ne; [done|].
  intros ->. by simplify_eq.
Qed.

Lemma waiting_in_back ths k th' txn r :
  waiting_in (<[k := th']> ths) txn r ->
  waiting_in ths txn r \/ exists rest, th' = MkThread rest (Waiting txn r).
Proof.
  intros (i & rest & Hi). apply list_lookup_insert_Some in Hi as [(_ & -> & _)|[_ Hi]]; [|left; by exists i, rest].
  right. by exists rest.
Qed.

Section Own.
Context (ths : list thread) (k : nat) (th th' : thread).
Context (Hk : ths !! k = Some th) (Hm : mine th' `sublist_of` mine th).
Context (Hasks : asks (todo th') ⊆ asks (todo th)).

Lemma set_once :
  (forall i x, ths !! i = Some x -> NoDup (mine x)) ->
  forall i x, <[k := th']> ths !! i = Some x -> NoDup (mine x).
Proof.
  intros Ho i x Hi. apply list_lookup_insert_Some in Hi as [(_ & <- & _)|[_ Hi]]; [|eauto].
  eapply sublist_NoDup; [|done]. eauto.
Qed.

(** The thread at [i] asked for no less before the step. *)
Lemma set_before i x :
  <[k := th']> ths !! i = Some x ->
  exists y, ths !! i = Some y /\ (forall a, a ∈ mine x -> a ∈ mine y) /\ asks (todo x) ⊆ asks (todo y).
Proof.
  intros Hi. apply list_lookup_insert_Some in Hi as [(-> & <- & _)|[_ Hi]]; [|exists x; done].
  exists th. split; [done|]. split; [|done]. intros a Ha. by eapply elem_of_sublist.
Qed.
End Own.

(** Steps that leave the requests as they are and neither start nor end a wait. *)
Lemma keep_inv s s' ths ans k th th' bs :
  graph_inv (MkWorld s ths ans) -> ths !! k = Some th ->
  mine th' `sublist_of` mine th -> asks (todo th') ⊆ asks (todo th) ->
  is_waiting (at_ th) = false -> is_waiting (at_ th') = false ->
  (forall r, requests_on s' r = requests_on s r) ->
  (forall x y, edge (wait_for_graph s') x y -> exists r, waiting_in ths y r) ->
  acyclic (wait_for_graph s') -> Forall (fun b => b = false) bs ->
  graph_inv (MkWorld s' (<[k := th']> ths) (ans ++ bs)).
Proof.
  intros [Honce Hown Hasked Hwaits Hblk Hpres _ _ Hans] Hk Hm Ha Hw Hw' Hreq Htgt Hac Hbs. simpl in *.
  constructor; simpl.
  - by eapply set_once.
  - intros i j x x' txn r r' Hi Hj Hx Hx'.
    apply (set_before ths k th th' Hk Hm Ha) in Hi as (y & Hi & Hy & _), Hj as (y' & Hj & Hy' & _).
    eapply Hown; eauto.
  - intros r q i x Hq Hi. rewrite Hreq in Hq.
    apply (set_before ths k th th' Hk Hm Ha) in Hi as (y & Hi & _ & Hy).
    specialize (Hasked r q i y Hq Hi). set_solver.
  - intros r q Hq Hg. rewrite Hreq in Hq. eapply waiting_in_set; eauto.
  - intros txn r Hin. rewrite Hreq. apply Hblk. apply waiting_in_back in Hin as [Hin|[rest ->]]; done.
  - intros txn r Hin. rewrite Hreq. apply Hpres. apply waiting_in_back in Hin as [Hin|[rest ->]]; done.
  - intros x y Hxy. destruct (Htgt x y Hxy) as [r Hr]. exists r. by eapply waiting_in_set.
  - done.
  - by apply Forall_app_2.
Qed.

Lemma lm_acquire_requests s txn res ty t now :
  lm_acquireLock txn res ty (lock_table s) = (t, now) ->
  exists g, requests_on (with_table t s) res = requests_on s res ++ [MkReq txn ty g] /\
    (forall r, r ≠ res -> requests_on (with_table t s) r = requests_on s r) /\
    now = g || wait_over txn (requests_on s res ++ [MkReq txn ty g]).
Proof.
  unfold lm_acquireLock, requests_on. intros Ht.
  destruct (lock_table s !! res) as [l|] eqn:Hl; simplify_eq/=;
    [exists (negb (existsb (conflicts txn ty) l))|exists true];
    (split; [by rewrite lookup_insert_eq|]); (split; [|done]);
    intros r Hr; by rewrite lookup_insert_ne.
Qed.

Lemma wait_over_snoc txn l q :
  wait_over txn (l ++ [q]) = wait_over txn l || ((txn_id q =? txn) && granted q).
Proof. unfold wait_over. rewrite existsb_app. simpl. by rewrite orb_false_r. Qed.

Lemma wait_over_none txn l : (forall q, q ∈ l -> txn_id q ≠ txn) -> wait_over txn l = false.
Proof.
  induction l as [|q l IH]; intros Hq; [done|]. unfold wait_over. simpl.
  assert (Hne : txn_id q ≠ txn) by (apply Hq; left). apply Z.eqb_neq in Hne as ->. simpl.
  apply IH. intros x Hx. apply Hq. by right.
Qed.

Section Request.
Context (s : TransactionManager) (ths : list thread) (ans : list bool) (k : nat).
Context (txn res : Z) (ty : LockType) (rest : list call) (t : LockTable) (now : bool).
Context (Hinv : graph_inv (MkWorld s ths ans)).
Context (Hk : ths !! k = Some (MkThread (Acquire txn res ty :: rest) Running)).
Context (Ht : lm_acquireLock txn res ty (lock_table s) = (t, now)).

Let th' : thread := MkThread rest (if now then Recording txn res else Waiting txn res).

(** The transaction has no request on the resource yet, so it waits exactly when it is not granted. *)
Lemma request_fresh q : q ∈ requests_on s res -> txn_id q ≠ txn.
Proof.
  intros Hq <-. apply (gi_asked _ Hinv res q k _ Hq Hk). simpl. left.
Qed.

Lemma request_grant :
  requests_on (with_table t s) res = requests_on s res ++ [MkReq txn ty now] /\
  forall r, r ≠ res -> requests_on (with_table t s) r = requests_on s r.
Proof.
  destruct (lm_acquire_requests s txn res ty t now Ht) as (g & Hr & Hne & Hn).
  rewrite wait_over_snoc, (wait_over_none txn _ request_fresh) in Hn. simpl in Hn.
  rewrite Z.eqb_refl in Hn. simpl in Hn. rewrite orb_diag in Hn. by subst.
Qed.

(** No other thread asks for locks of this transaction. *)
Lemma request_other i x r : i ≠ k -> ths !! i = Some x -> (txn, r) ∉ mine x.
Proof.
  intros Hne Hi Hin. apply Hne. eapply (gi_own _ Hinv i k x _ txn r res Hi Hk Hin). left.
Qed.

Lemma request_asked r q i x :
  q ∈ requests_on (with_table t s) r -> <[k := th']> ths !! i = Some x ->
  (txn_id q, r) ∉ asks (todo x).
Proof.
  intros Hq Hi. destruct request_grant as [Hr Hne].
  assert (Hold : q ∈ requests_on s r -> (txn_id q, r) ∉ asks (todo x)).
  { intros Ho Hin. apply list_lookup_insert_Some in Hi as [(-> & <- & _)|[_ Hi]].
    - apply (gi_asked _ Hinv r q _ _ Ho Hk). simpl. by right.
    - by apply (gi_asked _ Hinv r q _ _ Ho Hi). }
  destruct (decide (r = res)) as [->|Hd]; [|rewrite Hne in Hq by done; auto].
  rewrite Hr, elem_of_app, list_elem_of_singleton in Hq. destruct Hq as [Hq|Hq]; [auto|].
  subst q. simpl. apply list_lookup_insert_Some in Hi as [(-> & <- & _)|[Hik Hi]].
  - pose proof (gi_once _ Hinv _ _ Hk) as Hnd. unfold mine in Hnd. simpl in Hnd.
    by apply NoDup_cons in Hnd as [Hni _].
  - intros Hin. apply (request_other i x res); [done..|]. unfold mine. apply elem_of_app. by right.
Qed.

Lemma request_waits r q :
  q ∈ requests_on (with_table t s) r -> granted q = false ->
  waiting_in (<[k := th']> ths) (txn_id q) r.
Proof.
  intros Hq Hg. destruct request_grant as [Hr Hne].
  assert (Hold : q ∈ requests_on s r -> waiting_in (<[k := th']> ths) (txn_id q) r).
  { intros Ho. eapply waiting_in_set; [done|done|]. by apply (gi_waits _ Hinv). }
  destruct (decide (r = res)) as [->|Hd]; [|rewrite Hne in Hq by done; auto].
  rewrite Hr, elem_of_app, list_elem_of_singleton in Hq. destruct Hq as [Hq|Hq]; [auto|].
  subst q. simpl in *. exists k, rest.
  rewrite list_lookup_insert_eq by (by eapply lookup_lt_Some). unfold th'. by rewrite Hg.
Qed.

Lemma request_blocked txn' r :
  waiting_in (<[k := th']> ths) txn' r -> wait_over txn' (requests_on (with_table t s) r) = false.
Proof.
  intros Hin. destruct request_grant as [Hr Hne].
  apply waiting_in_back in Hin as [Hin|[rest' Hth]].
  - pose proof (gi_blocked _ Hinv txn' r Hin) as Hb. simpl in Hb.
    destruct (decide (r = res)) as [->|Hd]; [|by rewrite Hne].
    rewrite Hr, wait_over_snoc, Hb. simpl. destruct (Z.eqb_spec txn txn') as [<-|]; [|done].
    destruct Hin as (i & rest' & Hi). destruct (decide (i = k)) as [->|Hik]; [by rewrite Hk in Hi|].
    destruct (request_other i _ res Hik Hi). left.
  - pose proof (wait_over_none _ _ request_fresh) as Hf. unfold th' in Hth.
    destruct now; [done|]. injection Hth as <- <- <-.
    rewrite Hr, wait_over_snoc, Hf. simpl. by rewrite andb_false_r.
Qed.

Lemma request_present txn' r :
  waiting_in (<[k := th']> ths) txn' r -> has_request txn' (requests_on (with_table t s) r) = true.
Proof.
  intros Hin. destruct request_grant as [Hr Hne].
  apply waiting_in_back in Hin as [Hin|[rest' Hth]].
  - pose proof (gi_present _ Hinv txn' r Hin) as Hp. simpl in Hp.
    destruct (decide (r = res)) as [->|Hd]; [|by rewrite Hne].
    rewrite Hr. unfold has_request in *. by rewrite existsb_app, Hp.
  - unfold th' in Hth. destruct now; [done|]. injection Hth as <- <- <-. rewrite Hr.
    unfold has_request. rewrite existsb_app. simpl. by rewrite Z.eqb_refl, orb_true_r.
Qed.

Lemma request_inv : graph_inv (MkWorld (with_table t s) (<[k := th']> ths) (ans ++ [])).
Proof.
  assert (Hm : mine th' `sublist_of` mine (MkThread (Acquire txn res ty :: rest) Running)).
  { unfold mine, th'. by destruct now. }
  assert (Ha : asks (todo th') ⊆ asks (Acquire txn res ty :: rest)) by (simpl; set_solver).
  constructor; simpl.
  - eapply set_once; [done|done|]. apply (gi_once _ Hinv).
  - intros i j x x' a r r' Hi Hj Hx Hx'.
    apply (set_before _ _ _ _ Hk Hm Ha) in Hi as (y & Hi & Hy & _), Hj as (y' & Hj & Hy' & _).
    eapply (gi_own _ Hinv); eauto.
  - exact request_asked.
  - exact request_waits.
  - exact request_blocked.
  - exact request_present.
  - intros x y Hxy. destruct (gi_targets _ Hinv x y Hxy) as [r Hr]. exists r. by eapply waiting_in_set.
  - exact (gi_acyclic _ Hinv).
  - rewrite app_nil_r. exact (gi_answers _ Hinv).
Qed.
End Request.

Lemma record_inv s s' ths ans k txn res rest :
  graph_inv (MkWorld s ths ans) -> ths !! k = Some (MkThread rest (Recording txn res)) ->
  mtx s = false -> lock_guard (record_lock txn res) s = (s', Ret tt) ->
  graph_inv (MkWorld s' (<[k := MkThread rest Running]> ths) (ans ++ [])).
Proof.
  intros Hinv Hk Hm Hr. destruct (record_frame s s' txn res Hm Hr) as (Hlt & Hg & _ & _).
  assert (Hedge : forall x y, edge (wait_for_graph s') x y ->
            edge (wait_for_graph s) x y \/ (x = txn /\ y ∈ waiters txn (requests_on s res))).
  { intros x y Hxy. unfold edge in *. rewrite Hg in Hxy. by apply add_edges_spec in Hxy. }
  assert (Htgt : forall x y, edge (wait_for_graph s') x y -> exists r, waiting_in ths y r).
  { intros x y Hxy. destruct (Hedge x y Hxy) as [He|[-> Hy]]; [by eapply (gi_targets _ Hinv)|].
    apply list_elem_of_fmap in Hy as (q & -> & Hq). apply list_elem_of_filter in Hq as [[_ Hf] Hq].
    exists res. by apply (gi_waits _ Hinv). }
  eapply (keep_inv s s' ths ans k); simpl; [done|done| | |done|done| |done| |done].
  - unfold mine. simpl. by apply sublist_cons.
  - done.
  - intros r. unfold requests_on. rewrite Hlt. destruct (decide (r = res)) as [->|Hne].
    + by rewrite lookup_insert_eq.
    + by rewrite lookup_insert_ne.
  - refine (acyclic_source (edge (wait_for_graph s)) (edge (wait_for_graph s')) txn _ _ _).
    + intros a b Hab. destruct (Hedge a b Hab) as [?|[? _]]; auto.
    + intros a Ha. destruct (Htgt a txn Ha) as (r & i & rest' & Hi).
      assert (Hik : i = k) by (eapply (gi_own _ Hinv i k _ _ txn r res Hi Hk); left).
      subst. by rewrite Hk in Hi.
    + exact (gi_acyclic _ Hinv).
Qed.

Lemma graph_step_inv order w w' :
  visits_all order -> quiet w -> graph_inv w -> step order w w' -> graph_inv w'.
Proof.
  intros Ho Hquiet Hinv Hst.
  destruct Hst as [s ths ans k th s' th' bs Hk Hst|s ths ans k j rest th Hk Hj Hf].
  - destruct (thread_step_mine _ _ _ _ _ _ Hst) as [Hm Ha].
    apply (Forall_lookup_1 _ _ _ _ Hquiet) in Hk as Hq. destruct Hq as [Hq1 Hq2].
    destruct Hst as [s c p rest s' bs Hc Hmt Hp|s c p rest s' Hc Hmt Hp
      |s txn res ty rest t now Ht|s txn res rest Hw|s txn res rest s' Hmt Hr|
      | |s txn res rs rest|s txn rest| |s txn res rest Hw]; try done.
    + destruct (guarded_returns order c p s s' bs Hc Hmt Hp) as (Hlt & Hg & _ & _ & _ & _ & Hbs).
      eapply keep_inv; eauto; unfold requests_on; rewrite ?Hlt, ?Hg; try done;
        [apply (gi_targets _ Hinv)|apply (gi_acyclic _ Hinv)|].
      destruct Hbs as [->| ->]; [done|]. apply Forall_singleton, not_true_is_false.
      rewrite (detect_from_exact order _ Ho). intros [x Hx]. by apply (gi_acyclic _ Hinv x).
    + rewrite (guarded_hangs order c p s s' Hc Hmt Hp).
      eapply keep_inv; eauto; [apply (gi_targets _ Hinv)|apply (gi_acyclic _ Hinv)].
    + by eapply request_inv.
    + pose proof (gi_blocked _ Hinv txn res) as Hb. simpl in Hb. unfold requests_on in Hb.
      rewrite Hb in Hw; [done|]. by exists k, rest.
    + by eapply record_inv.
    + by destruct (Hq2 txn (res :: rs)).
    + by destruct (Hq2 txn []).
    + pose proof (gi_present _ Hinv txn res) as Hb. simpl in Hb. unfold requests_on in Hb.
      rewrite Hb in Hw; [done|]. by exists k, rest.
  - rewrite <-(app_nil_r ans).
    eapply keep_inv; eauto; [apply (gi_targets _ Hinv)|apply (gi_acyclic _ Hinv)].
Qed.

Lemma start_graph_inv scripts : private scripts -> graph_inv (start scripts).
Proof.
  intros [Hnd Hown].
  assert (Hth : forall i th, threads (start scripts) !! i = Some th ->
            exists l, scripts !! i = Some l /\ th = MkThread l Running).
  { intros i th Hi. apply list_lookup_fmap_Some in Hi as (l & -> & Hl). eauto. }
  constructor.
  - intros i th Hi. apply Hth in Hi as (l & Hl & ->). by eapply Hnd.
  - intros i j th th' txn r r' Hi Hj. apply Hth in Hi as (l & Hl & ->), Hj as (l' & Hl' & ->).
    by eapply Hown.
  - intros r q i th Hq. by apply not_elem_of_nil in Hq.
  - intros r q Hq. by apply not_elem_of_nil in Hq.
  - done.
  - intros txn r (i & rest & Hi). apply Hth in Hi as (l & _ & [=]).
  - intros x y Hxy. by apply not_elem_of_nil in Hxy.
  - intros x Hx. assert (Hy : exists y, edge ∅ x y) by (destruct Hx; eauto).
    destruct Hy as [y Hy]. by apply not_elem_of_nil in Hy.
  - constructor.
Qed.

Lemma rtc_graph_inv order w w' :
  visits_all order -> rtc (step order) w w' -> quiet w -> graph_inv w -> quiet w' /\ graph_inv w'.
Proof. intros Ho. induction 1; eauto using graph_step_inv, step_quiet. Qed.

Lemma waits_for_good order w w' i rest txn r :
  visits_all order -> rtc (step order) w w' -> quiet w -> graph_inv w ->
  threads w !! i = Some (MkThread rest (Waiting txn r)) ->
  threads w' !! i = Some (MkThread rest (Waiting txn r)).
Proof.
  intros Ho Hrun. induction Hrun as [|w w1 w2 Hst _ IH]; intros Hq Hinv Hi; [done|].
  apply IH; [by eapply step_quiet|by eapply graph_step_inv|]. clear IH.
  destruct Hst as [s ths ans k th s' th' bs Hk Hst|s ths ans k j rest' th Hk Hj Hf]; simpl in *.
  - destruct (decide (k = i)) as [->|Hne]; [|by rewrite list_lookup_insert_ne].
    rewrite Hk in Hi. simplify_eq. exfalso.
    assert (Hin : waiting_in ths txn r) by (by exists i, rest).
    pose proof (gi_blocked _ Hinv txn r Hin) as Hb. pose proof (gi_present _ Hinv txn r Hin) as Hp.
    simpl in Hb, Hp. unfold requests_on in Hb, Hp.
    inversion Hst as [| | |? ? ? ? Hw| | | | | | |? ? ? ? Hw]; subst; congruence.
  - assert (k ≠ i) by (intros ->; simplify_eq). by rewrite list_lookup_insert_ne.
Qed.

(** C11.  Deadlock detection never reports a deadlock of waiting transactions. When each transaction
    runs in one thread and asks for each resource at most once, and no script calls [releaseLocks] or
    [releaseLock] itself, then in every interleaving every call of [detectDeadlock] answers [false] and
    the wait-for graph has no cycle, although a transaction that waits for a lock waits for good: its
    edges would have to be recorded before it waits. *)
Theorem deadlock_never_reported (order : gmap Z (list Z) -> list Z) (scripts : list (list call))
    (w : world) :
  visits_all order -> private scripts -> never_releases scripts -> rtc (step order) (start scripts) w ->
  Forall (fun b => b = false) (answers w) /\
  (forall x, ¬ tc (edge (wait_for_graph (manager w))) x x) /\
  (forall i rest txn r, threads w !! i = Some (MkThread rest (Waiting txn r)) ->
     forall w', rtc (step order) w w' -> threads w' !! i = Some (MkThread rest (Waiting txn r))).
Proof.
  intros Ho Hp Hnr Hrun.
  destruct (rtc_graph_inv order _ _ Ho Hrun (start_quiet scripts Hnr) (start_graph_inv scripts Hp)) as [Hq Hinv].
  split; [apply (gi_answers _ Hinv)|]. split; [apply (gi_acyclic _ Hinv)|].
  intros i rest txn r Hi w' Hw'. by eapply waits_for_good.
Qed.

(** ** Runs *)

(** The demo under a schedule in which both transactions begin, [t2] is first on resource 1 and [t1]
    waits for it; [t2] commits and hangs, and [main] waits for [t1]. *)
Definition demo_schedule : list nat := [1; 2; 2; 1; 2; 0; 2; 2; 2]%nat.

Lemma lock_manager_stops_witness :
  exists w, run keys_in_order demo_schedule (start main) = Some w /\
    threads w = [MkThread [Join 1; Join 2] Running;
                 MkThread [Acquire 1 2 EXCLUSIVE; Commit 1] (Waiting 1 1); MkThread [] Stuck] /\
    answers w = [false] /\
    (length demo_schedule <= (3 + length (asks (concat main))) * length (concat main))%nat /\
    safe (lock_table (manager w)) /\
    (forall th, threads w !! 0%nat = Some th -> ¬ finished th).
Proof.
  eexists. split; [vm_compute; reflexivity|]. split; [reflexivity|]. split; [reflexivity|].
  edestruct (lock_manager_stops keys_in_order main (length demo_schedule)) as (Hn & Hf & _ & Hs).
  { apply run_sound. vm_compute. reflexivity. }
  split; [exact Hn|]. split; [apply Hs; repeat constructor|].
  intros th. apply (Hf 1%nat transaction1 eq_refl (ex_intro _ 1 eq_refl) 0%nat _ _ eq_refl).
  right. right. left.
Defined.

(** Two transactions take their locks in opposite orders; a third thread looks for a deadlock. *)
Definition crossing : list (list call) :=
  [[Begin 1; Acquire 1 1 EXCLUSIVE; Acquire 1 2 EXCLUSIVE; Commit 1];
   [Begin 2; Acquire 2 2 EXCLUSIVE; Acquire 2 1 EXCLUSIVE; Commit 2];
   [Detect]].
Definition crossing_schedule : list nat := [0; 1; 0; 0; 1; 1; 0; 1; 2]%nat.

Lemma crossing_asks i l a :
  crossing !! i = Some l -> a ∈ asks l ->
  (i = 0%nat /\ a.1 = 1) \/ (i = 1%nat /\ a.1 = 2).
Proof.
  destruct i as [|[|[|i]]]; intros [= <-] Ha; simpl in Ha;
    rewrite ?elem_of_cons, ?elem_of_nil in Ha; destruct_or?; subst; auto.
Qed.

Lemma crossing_private : private crossing.
Proof.
  split.
  - intros [|[|[|i]]] l [= <-]; apply (bool_decide_unpack _); vm_compute; exact I.
  - intros i j l l' txn r r' Hl Hl' Hin Hin'.
    pose proof (crossing_asks i l _ Hl Hin) as Hi. pose proof (crossing_asks j l' _ Hl' Hin') as Hj.
    simpl in *. lia.
Qed.

(** Both transactions wait for each other and the answer is [false]. *)
Lemma deadlock_never_reported_witness :
  exists w, run keys_in_order crossing_schedule (start crossing) = Some w /\
    threads w = [MkThread [Commit 1] (Waiting 1 2); MkThread [Commit 2] (Waiting 2 1);
                 MkThread [] Running] /\
    answers w = [false] /\
    (forall w', rtc (step keys_in_order) w w' ->
       threads w' !! 0%nat = Some (MkThread [Commit 1] (Waiting 1 2))).
Proof.
  eexists. split; [vm_compute; reflexivity|]. split; [reflexivity|]. split; [reflexivity|].
  edestruct (deadlock_never_reported keys_in_order crossing) as (_ & _ & Hw);
    [exact keys_in_order_all|exact crossing_private|repeat constructor| |].
  { eapply rtc_nsteps_2, (run_sound _ crossing_schedule). vm_compute. reflexivity. }
  apply (Hw 0%nat [Commit 1] 1 2). reflexivity.
Defined.

(** Two transactions that share a resource and both ask for it exclusively go on with their calls, and
    detection reports a deadlock. *)
Definition upgrading : list (list call) :=
  [[Begin 1; Acquire 1 7 SHARED; Acquire 1 7 EXCLUSIVE];
   [Begin 2; Acquire 2 7 SHARED; Acquire 2 7 EXCLUSIVE];
   [Detect]].

Example upgrade_reported :
  exists w, run keys_in_order [0; 1; 0; 0; 1; 1; 0; 1; 0; 1; 2]%nat (start upgrading) = Some w /\
    Forall finished (threads w) /\ answers w = [true].
Proof.
  eexists. split; [vm_compute; reflexivity|]. split; [repeat constructor|reflexivity].
Qed.

(** With releases the picture changes. Releasing one of two shared locks grants a waiting exclusive one:
    transactions 2 and 3 hold conflicting locks. *)
Definition releasing : list (list call) :=
  [[Acquire 1 7 SHARED; Release 1]; [Acquire 2 7 SHARED]; [Acquire 3 7 EXCLUSIVE]].

Example release_conflicts :
  exists w, run keys_in_order [0; 0; 1; 1; 2; 0; 0; 0; 2; 2]%nat (start releasing) = Some w /\
    Forall finished (threads w) /\
    lock_table (manager w) = {[ 7 := [MkReq 2 SHARED true; MkReq 3 EXCLUSIVE true] ]}.
Proof. eexists. split; [vm_compute; reflexivity|]. split; [repeat constructor|reflexivity]. Qed.

(** Unlocking through the lock manager keeps the edges of the graph: transaction 1 waits for 2, which
    waits for nobody, and detection reports a deadlock. *)
Definition unlocking : list (list call) :=
  [[Acquire 1 1 EXCLUSIVE; Unlock 1 1; Acquire 1 2 EXCLUSIVE];
   [Acquire 2 1 EXCLUSIVE; Acquire 2 2 EXCLUSIVE];
   [Detect]].

Example unlock_reported :
  exists w, run keys_in_order [0; 1; 0; 0; 1; 1; 1; 0; 1; 2]%nat (start unlocking) = Some w /\
    threads w = [MkThread [] (Waiting 1 2); MkThread [] Running; MkThread [] Running] /\
    answers w = [true].
Proof. eexists. split; [vm_compute; reflexivity|]. by split. Qed.

(** A transaction that another thread releases while it waits is left on a destroyed request. *)
Example released_while_waiting :
  exists w, run keys_in_order [0; 0; 1; 2; 1]%nat
      (start [[Acquire 1 1 EXCLUSIVE]; [Acquire 2 1 SHARED]; [Unlock 2 1]]) = Some w /\
    threads w !! 1%nat = Some (MkThread [] Dangling).
Proof. eexists. split; [vm_compute; reflexivity|]. reflexivity. Qed.

Lemma releasing_steps order txn rest rs : forall s,
  rtc (fun a b => thread_step order a.1 a.2 b.1 b.2 [])
    (s, MkThread rest (Releasing txn rs)) (release_end txn (foldl (release_one txn) s rs), MkThread rest Running).
Proof.
  induction rs as [|r rs IH]; intros s.
  - apply rtc_once. apply (ts_release_end order s txn rest).
  - apply rtc_l with (release_one txn s r, MkThread rest (Releasing txn rs)); [apply ts_release_one|apply IH].
Qed.

(** The steps of a call of [releaseLocks] that nothing interrupts are the whole call. *)
Lemma release_steps order txn rest s s' :
  releaseLocks txn s = (s', Ret tt) ->
  rtc (fun a b => thread_step order a.1 a.2 b.1 b.2 [])
    (s, MkThread (Release txn :: rest) Running) (s', MkThread rest Running).
Proof.
  unfold releaseLocks, lock_guard. cbn [held tm_lockable]. destruct (mtx s) eqn:Hm; [done|].
  change (txn_locks (set_held true s)) with (txn_locks s).
  destruct (txn_locks s !! txn) as [rs|] eqn:Hl; intros [= <-].
  - apply rtc_l with (set_held true s, MkThread rest (Releasing txn rs)); [by apply ts_release|].
    exact (releasing_steps order txn rest rs (set_held true s)).
  - apply rtc_once. destruct s; cbn in Hm. subst. by apply ts_release_none.
Qed.
