(* ===== verification/TimestampOrdering.v ===== *)
(** * Timestamp ordering ([transactions/concurrency_control/timestamp_ordering.cpp])

    [TimestampOrdering] with its data items and active transactions, and the history of the accesses
    it accepts. *)

From S2P Require Import Prelude Text.
Local Open Scope Z_scope.

(** [unsigned long long] timestamps are only compared and copied. *)
Record Transaction : Type := MkTxn { start_ts : Z; commit_ts : Z }.
Record DataItem : Type := MkItem { read_ts : Z; write_ts : Z; value : Z }.

Record TimestampOrdering : Type := MkTO {
  data_items : gmap Z DataItem;
  active_transactions : gmap Z Transaction;
  mtx : bool
}.

Definition make : TimestampOrdering := MkTO ∅ ∅ false.

#[export] Instance to_lockable : Lockable TimestampOrdering.
Proof.
  refine {| held := mtx; set_held b s := MkTO (data_items s) (active_transactions s) b |}.
  - done.
  - by intros [].
  - done.
Defined.

Definition set_items (f : gmap Z DataItem -> gmap Z DataItem) (s : TimestampOrdering) :
    TimestampOrdering :=
  MkTO (f (data_items s)) (active_transactions s) (mtx s).
Definition set_active (f : gmap Z Transaction -> gmap Z Transaction) (s : TimestampOrdering) :
    TimestampOrdering :=
  MkTO (data_items s) (f (active_transactions s)) (mtx s).

Definition begin_transaction (txn ts : Z) : prog TimestampOrdering unit := lock_guard (fun s =>
  match active_transactions s !! txn with
  | None => (set_active (<[txn := MkTxn ts 0]>) s, Ret tt)
  | Some _ => (s, Ret tt)
  end).

Definition abort_transaction (txn : Z) : prog TimestampOrdering unit := lock_guard (fun s =>
  match active_transactions s !! txn with
  | None => (s, Ret tt)
  | Some _ => (set_active (delete txn) s, Ret tt)
  end).

Definition read (txn item_id : Z) : prog TimestampOrdering bool := lock_guard (fun s =>
  match active_transactions s !! txn with
  | None => (s, Ret false)
  | Some t =>
      match data_items s !! item_id with
      | None => (s, Ret false)
      | Some item =>
          if start_ts t <? write_ts item
          then prog_bind (abort_transaction txn) (fun _ => prog_ret false) s
          else (set_items (<[item_id := MkItem (Z.max (read_ts item) (start_ts t)) (write_ts item)
                                          (value item)]>) s, Ret true)
      end
  end).

Definition write (txn item_id new_value : Z) : prog TimestampOrdering bool := lock_guard (fun s =>
  match active_transactions s !! txn with
  | None => (s, Ret false)
  | Some t =>
      let item := default (MkItem 0 0 0) (data_items s !! item_id) in
      let s := set_items (<[item_id := item]>) s in
      if (start_ts t <? read_ts item) || (start_ts t <? write_ts item)
      then prog_bind (abort_transaction txn) (fun _ => prog_ret false) s
      else (set_items (<[item_id := MkItem (read_ts item) (Z.max (write_ts item) (start_ts t))
                                      new_value]>) s, Ret true)
  end).

(** The committed transaction is erased and deleted with its [commit_ts]. *)
Definition commit_transaction (txn ts : Z) : prog TimestampOrdering unit := lock_guard (fun s =>
  match active_transactions s !! txn with
  | None => (s, Ret tt)
  | Some t => (set_active (fun a => delete txn (<[txn := MkTxn (start_ts t) ts]> a)) s, Ret tt)
  end).

(** ** Histories *)

Inductive to_op : Type :=
| OBegin (txn ts : Z)
| ORead (txn item : Z)
| OWrite (txn item v : Z)
| OCommit (txn ts : Z)
| OAbort (txn : Z).

(** An accepted access: the timestamp of its transaction, the item, and the value read or written. *)
Inductive event : Type :=
| ERead (ts item v : Z)
| EWrite (ts item v : Z).

Definition ts_of (e : event) : Z := match e with ERead t _ _ | EWrite t _ _ => t end.
Definition item_of (e : event) : Z := match e with ERead _ i _ | EWrite _ i _ => i end.
Definition is_write (e : event) : bool := match e with EWrite _ _ _ => true | _ => false end.

(** The event of an access by [txn] that returned [true]. *)
Definition event_of (o : to_op) (s : TimestampOrdering) : list event :=
  match o with
  | ORead txn item =>
      match active_transactions s !! txn, data_items s !! item with
      | Some t, Some d => [ERead (start_ts t) item (value d)]
      | _, _ => []
      end
  | OWrite txn item v =>
      match active_transactions s !! txn with
      | Some t => [EWrite (start_ts t) item v]
      | None => []
      end
  | _ => []
  end.

Definition to_step (o : to_op) : prog TimestampOrdering bool :=
  match o with
  | OBegin txn ts => prog_bind (begin_transaction txn ts) (fun _ => prog_ret false)
  | ORead txn item => read txn item
  | OWrite txn item v => write txn item v
  | OCommit txn ts => prog_bind (commit_transaction txn ts) (fun _ => prog_ret false)
  | OAbort txn => prog_bind (abort_transaction txn) (fun _ => prog_ret false)
  end.

(** The calls up to the first that does not return, with the history of the accepted accesses. *)
Fixpoint to_run (os : list to_op) (s : TimestampOrdering) (h : list event) :
    TimestampOrdering * list event :=
  match os with
  | [] => (s, h)
  | o :: os =>
      match to_step o s with
      | (s', Ret true) => to_run os s' (h ++ event_of o s)
      | (s', Ret false) => to_run os s' h
      | (s', _) => (s', h)
      end
  end.

(** Two accesses conflict when they touch one item and one of them writes. *)
Definition conflict (a b : event) : Prop :=
  item_of a = item_of b /\ (is_write a = true \/ is_write b = true).

(** Conflicting accesses were accepted in timestamp order. *)
Definition ordered (h : list event) : Prop :=
  StronglySorted (fun a b => conflict a b -> ts_of a <= ts_of b) h.

(** The store after the writes of a history. *)
Definition apply_event (m : gmap Z Z) (e : event) : gmap Z Z :=
  match e with EWrite _ i v => <[i := v]> m | ERead _ _ _ => m end.
Definition store (h : list event) : gmap Z Z := foldl apply_event ∅ h.

(** Every read returned the value last written to its item. *)
Definition legal (h : list event) : Prop :=
  forall h1 h2 ts i v, h = h1 ++ ERead ts i v :: h2 -> store h1 !! i = Some v.

(** ** Invariant *)

Record to_inv (h : list event) (s : TimestampOrdering) : Prop := {
  inv_ordered : ordered h;
  inv_legal : legal h;
  inv_reads : forall t i v, ERead t i v ∈ h ->
    exists d, data_items s !! i = Some d /\ t <= read_ts d;
  inv_writes : forall t i v, EWrite t i v ∈ h ->
    exists d, data_items s !! i = Some d /\ t <= write_ts d;
  inv_value : forall i d, data_items s !! i = Some d -> store h !! i = Some (value d);
  inv_free : mtx s = false
}.

Lemma StronglySorted_snoc {A : Type} (R : A -> A -> Prop) l x :
  StronglySorted R l -> Forall (fun a => R a x) l -> StronglySorted R (l ++ [x]).
Proof.
  induction 1 as [|a l Hs IH Hall]; intros Hx; simpl; [repeat constructor|].
  apply Forall_cons in Hx as [Ha Hx]. constructor; [by apply IH|].
  apply Forall_app_2; [done|]. by constructor.
Qed.

Lemma legal_snoc h e :
  legal h -> (forall t i v, e = ERead t i v -> store h !! i = Some v) -> legal (h ++ [e]).
Proof.
  intros Hl He h1 h2 t i v Heq.
  destruct (snoc_inv h2) as [->|(h3 & x & ->)].
  - apply app_inj_tail in Heq as [-> ->]. by eapply He.
  - rewrite app_comm_cons, app_assoc in Heq. apply app_inj_tail in Heq as [-> _]. by eapply Hl.
Qed.

Lemma store_snoc h e : store (h ++ [e]) = apply_event (store h) e.
Proof. unfold store. by rewrite foldl_app. Qed.

(** What stays true when only the items' timestamps grow. *)
Lemma inv_grow h s s' :
  to_inv h s ->
  (forall i d, data_items s !! i = Some d ->
     exists d', data_items s' !! i = Some d' /\ read_ts d <= read_ts d' /\ write_ts d <= write_ts d') ->
  (forall t i v, ERead t i v ∈ h -> exists d, data_items s' !! i = Some d /\ t <= read_ts d) /\
  (forall t i v, EWrite t i v ∈ h -> exists d, data_items s' !! i = Some d /\ t <= write_ts d).
Proof.
  intros [_ _ Hr Hw _ _] Hg. split; intros t i v Hin.
  - destruct (Hr t i v Hin) as (d & Hd & Ht). destruct (Hg i d Hd) as (d' & Hd' & ? & ?).
    exists d'. split; [done|lia].
  - destruct (Hw t i v Hin) as (d & Hd & Ht). destruct (Hg i d Hd) as (d' & Hd' & ? & ?).
    exists d'. split; [done|lia].
Qed.

(** ** Outcomes of the accesses *)

Lemma abort_held txn s : mtx s = true -> abort_transaction txn s = (s, Hang).
Proof. intros Hm. by apply (lock_guard_relock (S := TimestampOrdering)). Qed.

Lemma read_outcome txn i s :
  mtx s = false ->
  read txn i s =
    match active_transactions s !! txn, data_items s !! i with
    | Some t, Some d =>
        if start_ts t <? write_ts d then (set_held true s, Hang)
        else (set_items (<[i := MkItem (Z.max (read_ts d) (start_ts t)) (write_ts d) (value d)]>) s,
              Ret true)
    | _, _ => (s, Ret false)
    end.
Proof.
  intros Hm. unfold read, lock_guard at 1. cbn [held to_lockable]. rewrite Hm.
  cbn [set_held to_lockable active_transactions data_items].
  assert (Hs : MkTO (data_items s) (active_transactions s) false = s) by (destruct s; simpl in *; by subst).
  destruct (active_transactions s !! txn) as [t|]; [|simpl; by rewrite Hs].
  destruct (data_items s !! i) as [d|]; [|simpl; by rewrite Hs].
  destruct (start_ts t <? write_ts d); [done|]. simpl. unfold set_items. simpl. by rewrite Hm.
Qed.

Lemma write_outcome txn i v s :
  mtx s = false ->
  write txn i v s =
    match active_transactions s !! txn with
    | None => (s, Ret false)
    | Some t =>
        let d := default (MkItem 0 0 0) (data_items s !! i) in
        if (start_ts t <? read_ts d) || (start_ts t <? write_ts d)
        then (set_held true (set_items (<[i := d]>) s), Hang)
        else (set_items (<[i := MkItem (read_ts d) (Z.max (write_ts d) (start_ts t)) v]>) s, Ret true)
    end.
Proof.
  intros Hm. unfold write, lock_guard at 1. cbn [held to_lockable]. rewrite Hm.
  cbn [set_held to_lockable active_transactions data_items].
  assert (Hs : MkTO (data_items s) (active_transactions s) false = s) by (destruct s; simpl in *; by subst).
  destruct (active_transactions s !! txn) as [t|]; [|simpl; by rewrite Hs]. cbv zeta.
  destruct ((start_ts t <? _) || (start_ts t <? _)); [done|].
  simpl. unfold set_items. simpl. by rewrite Hm, insert_insert_eq.
Qed.

(** The outcome of every access: an access by an unknown transaction, or a read of an unknown
    item, returns [false]; one that arrives too late (a read older than the last write, or a write
    older than the last read or write) calls [abort_transaction] under the mutex it holds and never
    returns; every other access returns [true] and moves the item's timestamps up to the
    transaction's. *)
Lemma timestamp_access_outcome (txn i v : Z) (s : TimestampOrdering) :
  mtx s = false ->
  snd (read txn i s) =
    match active_transactions s !! txn, data_items s !! i with
    | Some t, Some d => if decide (start_ts t < write_ts d) then Hang else Ret true
    | _, _ => Ret false
    end /\
  snd (write txn i v s) =
    match active_transactions s !! txn with
    | None => Ret false
    | Some t =>
        let d := default (MkItem 0 0 0) (data_items s !! i) in
        if decide (start_ts t < read_ts d \/ start_ts t < write_ts d) then Hang else Ret true
    end.
Proof.
  intros Hm. rewrite read_outcome, write_outcome by done. split.
  - destruct (active_transactions s !! txn) as [t|]; [|done].
    destruct (data_items s !! i) as [d|]; [|done].
    destruct (Z.ltb_spec (start_ts t) (write_ts d)); case_decide; (done || lia).
  - destruct (active_transactions s !! txn) as [t|]; [|done]. cbv zeta.
    destruct (Z.ltb_spec (start_ts t) (read_ts (default (MkItem 0 0 0) (data_items s !! i))));
    destruct (Z.ltb_spec (start_ts t) (write_ts (default (MkItem 0 0 0) (data_items s !! i))));
      case_decide; (done || lia).
Qed.

Lemma timestamp_access_outcome_witness :
  let s := fst (to_run [OBegin 1 100; OWrite 1 1 10; OBegin 2 50] make []) in
  snd (read 2 1 s) = Hang /\ snd (write 1 1 7 s) = Ret true.
Proof.
  intros s. assert (Hm : mtx s = false) by reflexivity. split.
  - rewrite (proj1 (timestamp_access_outcome 2 1 7 s Hm)). reflexivity.
  - rewrite (proj2 (timestamp_access_outcome 1 1 7 s Hm)). reflexivity.
Defined.

(** ** Serialisability *)

Lemma to_inv_same h s s' :
  to_inv h s -> data_items s' = data_items s -> mtx s' = false -> to_inv h s'.
Proof. intros [] Hd Hm. by constructor; rewrite ?Hd. Qed.

Lemma read_inv h s txn i :
  to_inv h s ->
  match read txn i s with
  | (s', Ret true) => to_inv (h ++ event_of (ORead txn i) s) s'
  | (s', Ret false) => to_inv h s'
  | _ => True
  end.
Proof.
  intros Hi. pose proof Hi as [Ho Hl Hr Hw Hv Hm]. rewrite read_outcome by done. cbn [event_of].
  destruct (active_transactions s !! txn) as [t|] eqn:Ht; [|done].
  destruct (data_items s !! i) as [d|] eqn:Hd; [|done].
  destruct (Z.ltb_spec (start_ts t) (write_ts d)) as [|Hge]; [done|].
  destruct (inv_grow h s (set_items (<[i := MkItem (Z.max (read_ts d) (start_ts t)) (write_ts d) (value d)]>) s) Hi)
    as [Hr' Hw'].
  { intros j e Hj. simpl. rewrite lookup_insert. case_decide as Hij; [subst j|exists e; split; [done|lia]].
    eexists. split; [done|]. simplify_eq/=. lia. }
  constructor.
  - apply StronglySorted_snoc; [done|]. apply Forall_forall. intros [t' j v'|t' j v'] Hin [Hj Hk];
      simpl in *; [by destruct Hk|]. subst j. destruct (Hw _ _ _ Hin) as (d' & Hd' & Hle).
    simplify_eq. lia.
  - apply legal_snoc; [done|]. intros t' j v' [= <- <- <-]. by apply Hv.
  - intros t' j v' Hin. apply elem_of_app in Hin as [Hin|Hin]; [by eapply Hr'|].
    apply list_elem_of_singleton in Hin as [= -> -> ->]. simpl. rewrite lookup_insert_eq.
    eexists. split; [done|]. simpl. lia.
  - intros t' j v' Hin. apply elem_of_app in Hin as [Hin|Hin]; [by eapply Hw'|].
    by apply list_elem_of_singleton in Hin.
  - intros j e. rewrite store_snoc. simpl. rewrite lookup_insert. case_decide as Hij; [|apply Hv].
    intros [= <-]. simpl. subst j. by apply Hv.
  - done.
Qed.

Lemma write_inv h s txn i v :
  to_inv h s ->
  match write txn i v s with
  | (s', Ret true) => to_inv (h ++ event_of (OWrite txn i v) s) s'
  | (s', Ret false) => to_inv h s'
  | _ => True
  end.
Proof.
  intros Hi. pose proof Hi as [Ho Hl Hr Hw Hv Hm]. rewrite write_outcome by done. cbn [event_of].
  destruct (active_transactions s !! txn) as [t|] eqn:Ht; [|done]. cbv zeta.
  set (d := default (MkItem 0 0 0) (data_items s !! i)).
  destruct (Z.ltb_spec (start_ts t) (read_ts d)) as [|Hge1]; [done|].
  destruct (Z.ltb_spec (start_ts t) (write_ts d)) as [|Hge2]; [done|]. cbn [orb].
  destruct (inv_grow h s (set_items (<[i := MkItem (read_ts d) (Z.max (write_ts d) (start_ts t)) v]>) s) Hi)
    as [Hr' Hw'].
  { intros j e Hj. simpl. rewrite lookup_insert. case_decide as Hij; [subst j|exists e; split; [done|lia]].
    eexists. split; [done|]. unfold d. rewrite Hj. simpl. lia. }
  constructor.
  - apply StronglySorted_snoc; [done|]. apply Forall_forall. intros [t' j v'|t' j v'] Hin [Hj Hk];
      simpl in *; subst j.
    + destruct (Hr _ _ _ Hin) as (d' & Hd' & Hle). unfold d in *. rewrite Hd' in *. simpl in *. lia.
    + destruct (Hw _ _ _ Hin) as (d' & Hd' & Hle). unfold d in *. rewrite Hd' in *. simpl in *. lia.
  - apply legal_snoc; [done|]. done.
  - intros t' j v' Hin. apply elem_of_app in Hin as [Hin|Hin]; [by eapply Hr'|].
    by apply list_elem_of_singleton in Hin.
  - intros t' j v' Hin. apply elem_of_app in Hin as [Hin|Hin]; [by eapply Hw'|].
    apply list_elem_of_singleton in Hin as [= -> -> ->]. simpl. rewrite lookup_insert_eq.
    eexists. split; [done|]. simpl. lia.
  - intros j e. rewrite store_snoc. simpl. rewrite !lookup_insert. case_decide as Hij; [|apply Hv].
    by intros [= <-].
  - done.
Qed.

(** The other calls touch no item. *)
Lemma other_inv {A : Type} (body : prog TimestampOrdering A) h s :
  (forall s0, exists s1 a, body s0 = (s1, Ret a) /\ data_items s1 = data_items s0) ->
  to_inv h s ->
  exists s', prog_bind (lock_guard body) (fun _ => prog_ret false) s = (s', Ret false) /\ to_inv h s'.
Proof.
  intros Hb Hi. pose proof (inv_free _ _ Hi) as Hm.
  destruct (Hb (set_held true s)) as (s1 & a & Hs1 & Hd).
  unfold prog_bind. rewrite (lock_guard_ret body s s1 a) by done. eexists. split; [done|].
  by apply to_inv_same with s.
Qed.

Lemma to_step_inv h s o :
  to_inv h s ->
  match to_step o s with
  | (s', Ret true) => to_inv (h ++ event_of o s) s'
  | (s', Ret false) => to_inv h s'
  | _ => True
  end.
Proof.
  intros Hi. destruct o as [txn ts|txn i|txn i v|txn ts|txn]; cbn [to_step];
    [|by apply read_inv|by apply write_inv|..];
    unfold begin_transaction, commit_transaction, abort_transaction;
    (match goal with |- context [lock_guard ?b] =>
       destruct (other_inv b h s) as (s' & -> & Hi'); [|done..] end);
    intros s0; destruct (active_transactions s0 !! txn); eauto.
Qed.

Lemma to_run_inv os : forall s h,
  to_inv h s -> ordered (snd (to_run os s h)) /\ legal (snd (to_run os s h)).
Proof.
  induction os as [|o os IH]; intros s h Hi; cbn [to_run]; [split; apply Hi|].
  pose proof (to_step_inv h s o Hi) as Hs.
  destruct (to_step o s) as [s' [[|]|e| |u]]; [by apply IH|by apply IH|..]; split; apply Hi.
Qed.

(** C15.  Accepted histories are serialisable in timestamp order: whatever transactions begin, read,
    write, commit and abort, in the history of accepted accesses any two conflicting accesses stand
    in the order of their transactions' timestamps, and every read returned the value of the last
    accepted write to its item. *)
Theorem timestamp_history_serialisable (os : list to_op) :
  let h := snd (to_run os make []) in ordered h /\ legal h.
Proof.
  apply to_run_inv. constructor; simpl; try done.
  - constructor.
  - intros h1 h2 t i v Heq. by destruct h1.
  - intros t i v Hin. by apply not_elem_of_nil in Hin.
  - intros t i v Hin. by apply not_elem_of_nil in Hin.
Qed.

(** The schedule of [main]. *)
Definition main_ops : list to_op :=
  [OBegin 1 100; OWrite 1 1 10; ORead 1 1; OCommit 1 150;
   OBegin 2 200; ORead 2 1; OWrite 2 1 20; OCommit 2 250;
   OBegin 3 300; ORead 3 1; OCommit 3 350].

Example main_history :
  snd (to_run main_ops make []) =
    [EWrite 100 1 10; ERead 100 1 10; ERead 200 1 10; EWrite 200 1 20; ERead 300 1 20].
Proof. reflexivity. Qed.

(** ** The program *)

Definition item_line (e : Z * DataItem) : string :=
  "Item " +:+ to_string e.1 +:+ " -> Value: " +:+ to_string (value e.2) +:+ ", Read TS: " +:+
  to_string (read_ts e.2) +:+ ", Write TS: " +:+ to_string (write_ts e.2).

(** [print_state]: the lines it prints; [order] lists the unordered map. *)
Definition print_state (order : gmap Z DataItem -> list (Z * DataItem)) :
    prog TimestampOrdering (list string) :=
  lock_guard (fun s => (s, Ret ("Current Database State:" :: (item_line <$> order (data_items s))))).

(** [main], with the lines of [print_state]; the other calls print what they do. *)
Definition main (order : gmap Z DataItem -> list (Z * DataItem)) :
    prog TimestampOrdering (list string) :=
  (begin_transaction 1 100;;; write 1 1 10;;; read 1 1;;; commit_transaction 1 150;;;
   begin_transaction 2 200;;; read 2 1;;; write 2 1 20;;; commit_transaction 2 250;;;
   begin_transaction 3 300;;; read 3 1;;; commit_transaction 3 350;;;
   print_state order)%prog.

(** [print_state] prints every item once and changes nothing. *)
Lemma print_state_all order s :
  (forall m, order m ≡ₚ map_to_list m) -> mtx s = false ->
  exists l, print_state order s = (s, Ret ("Current Database State:" :: l)) /\
    l ≡ₚ item_line <$> map_to_list (data_items s).
Proof.
  intros Ho Hm. unfold print_state, lock_guard. cbn [held set_held to_lockable]. rewrite Hm.
  eexists. split; [|by rewrite <-(Ho (data_items s))]. destruct s; simpl in *. by subst.
Qed.

Example timestamp_main :
  snd (main map_to_list make) =
    Ret ["Current Database State:"; "Item 1 -> Value: 20, Read TS: 300, Write TS: 200"].
Proof. vm_compute. reflexivity. Qed.
