(* ===== verification/IsolationLevels.v ===== *)
(** * Isolation levels ([transactions/isolation_levels.cpp])

    [Transaction]'s reads and writes at the four isolation levels, and [Database].  The model
    runs calls one after the other.  The data are
    guarded by [data_mutex] and changes of [active_transactions] by [db_mutex], but [get_transaction]
    walks [active_transactions] without it and the reference it returns is used without it: a thread
    that begins or ends a transaction meanwhile races with that.  The theorems are about sequences of
    calls, not about calls that overlap. *)

From S2P Require Import Prelude Text.
Local Open Scope Z_scope.

Inductive IsolationLevel : Set :=
| READ_UNCOMMITTED
| READ_COMMITTED
| REPEATABLE_READ
| SERIALIZABLE.

(** The levels that work on a local copy. *)
Definition buffered (l : IsolationLevel) : bool :=
  match l with REPEATABLE_READ | SERIALIZABLE => true | _ => false end.

Record Transaction : Type := MkTxn {
  transaction_id : Z;
  isolation_level : IsolationLevel;
  active : bool;
  local_data : gmap Z Z
}.

Abbreviation store := (gmap Z Z).

(** [global_data.at(key)]. *)
Definition at_key (key : Z) (global_data : store) : outcome Z :=
  match global_data !! key with
  | Some v => Ret v
  | None => Throw (out_of_range "unordered_map::at")
  end.

Definition set_local (m : gmap Z Z) (t : Transaction) : Transaction :=
  MkTxn (transaction_id t) (isolation_level t) (active t) m.

Definition txn_read (key : Z) (global_data : store) (t : Transaction) : Transaction * outcome Z :=
  match isolation_level t with
  | READ_UNCOMMITTED => (t, at_key key global_data)
  | READ_COMMITTED => (t, at_key key global_data)
  | REPEATABLE_READ | SERIALIZABLE =>
      match local_data t !! key with
      | Some v => (t, Ret v)
      | None =>
          match at_key key global_data with
          | Ret v => (set_local (<[key := v]> (local_data t)) t, Ret v)
          | e => (t, e)
          end
      end
  end.

Definition txn_write (key value : Z) (global_data : store) (t : Transaction) : Transaction * store :=
  match isolation_level t with
  | READ_UNCOMMITTED | READ_COMMITTED => (t, <[key := value]> global_data)
  | _ => (set_local (<[key := value]> (local_data t)) t, global_data)
  end.

(** The local values overwrite the global ones. *)
Definition txn_commit (global_data : store) (t : Transaction) : Transaction * store :=
  (MkTxn (transaction_id t) (isolation_level t) false (local_data t), local_data t ∪ global_data).

Definition txn_rollback (t : Transaction) : Transaction :=
  MkTxn (transaction_id t) (isolation_level t) false ∅.

(** ** The database *)

Record Database : Type := MkDb { data : store; active_transactions : list Transaction }.

Definition make : Database := MkDb {[ 1 := 100; 2 := 200; 3 := 300 ]} [].

Definition begin_transaction (id : Z) (level : IsolationLevel) (s : Database) : Database :=
  MkDb (data s) (active_transactions s ++ [MkTxn id level true ∅]).

(** The first transaction with the id; [None] throws. *)
Fixpoint get_transaction (id : Z) (ts : list Transaction) : option Transaction :=
  match ts with
  | [] => None
  | t :: ts => if decide (transaction_id t = id) then Some t else get_transaction id ts
  end.

(** An assignment through the reference [get_transaction] returned. *)
Fixpoint set_transaction (id : Z) (t' : Transaction) (ts : list Transaction) : list Transaction :=
  match ts with
  | [] => []
  | t :: ts => if decide (transaction_id t = id) then t' :: ts else t :: set_transaction id t' ts
  end.

Definition remove_transaction (id : Z) (ts : list Transaction) : list Transaction :=
  filter (fun t => transaction_id t ≠ id) ts.

Definition not_found {A : Type} : outcome A := Throw (runtime_error "Transaction not found").

Definition read (id key : Z) : prog Database Z := fun s =>
  match get_transaction id (active_transactions s) with
  | None => (s, not_found)
  | Some t =>
      let '(t', r) := txn_read key (data s) t in
      (MkDb (data s) (set_transaction id t' (active_transactions s)), r)
  end.

Definition write (id key value : Z) : prog Database unit := fun s =>
  match get_transaction id (active_transactions s) with
  | None => (s, not_found)
  | Some t =>
      let '(t', d) := txn_write key value (data s) t in
      (MkDb d (set_transaction id t' (active_transactions s)), Ret tt)
  end.

Definition commit_transaction (id : Z) : prog Database unit := fun s =>
  match get_transaction id (active_transactions s) with
  | None => (s, not_found)
  | Some t =>
      let '(t', d) := txn_commit (data s) t in
      (MkDb d (remove_transaction id (set_transaction id t' (active_transactions s))), Ret tt)
  end.

Definition rollback_transaction (id : Z) : prog Database unit := fun s =>
  match get_transaction id (active_transactions s) with
  | None => (s, not_found)
  | Some t =>
      (MkDb (data s)
         (remove_transaction id (set_transaction id (txn_rollback t) (active_transactions s))), Ret tt)
  end.

(** ** Sequences of calls; a caller catches the exceptions *)

Inductive db_op : Type :=
| DBegin (id : Z) (level : IsolationLevel)
| DRead (id key : Z)
| DWrite (id key value : Z)
| DCommit (id : Z)
| DRollback (id : Z).

Definition op_txn (o : db_op) : Z :=
  match o with
  | DBegin id _ | DRead id _ | DWrite id _ _ | DCommit id | DRollback id => id
  end.

Definition db_step (s : Database) (o : db_op) : Database :=
  match o with
  | DBegin id level => begin_transaction id level s
  | DRead id key => fst (read id key s)
  | DWrite id key value => fst (write id key value s)
  | DCommit id => fst (commit_transaction id s)
  | DRollback id => fst (rollback_transaction id s)
  end.

Definition db_run (os : list db_op) (s : Database) : Database := foldl db_step s os.

(** ** Lemmas on the list of transactions *)

Lemma get_set id t' ts u :
  transaction_id t' = id ->
  get_transaction u (set_transaction id t' ts) =
    if decide (id = u) then (fun _ => t') <$> get_transaction id ts else get_transaction u ts.
Proof.
  intros Ht. induction ts as [|t ts IH]; simpl; [by case_decide|].
  destruct (decide (transaction_id t = id)) as [He|Hne]; simpl.
  - rewrite Ht. destruct (decide (id = u)); [done|]. rewrite decide_False by congruence. done.
  - rewrite IH. destruct (decide (id = u)) as [->|]; [by rewrite decide_False by done|done].
Qed.

Lemma get_remove id ts u :
  get_transaction u (remove_transaction id ts) = if decide (id = u) then None else get_transaction u ts.
Proof.
  unfold remove_transaction. induction ts as [|t ts IH]; simpl; [by case_decide|].
  rewrite filter_cons. destruct (decide (transaction_id t = id)) as [He|Hne].
  - rewrite decide_False by auto. rewrite IH. destruct (decide (id = u)); [done|].
    by rewrite decide_False by congruence.
  - rewrite decide_True by done. simpl. rewrite IH.
    destruct (decide (id = u)) as [->|]; [by rewrite decide_False by done|done].
Qed.

Lemma get_snoc ts t u :
  get_transaction u (ts ++ [t]) =
    match get_transaction u ts with
    | Some x => Some x
    | None => if decide (transaction_id t = u) then Some t else None
    end.
Proof. induction ts as [|x ts IH]; simpl; [done|]. by destruct (decide (transaction_id x = u)). Qed.

Lemma get_id u ts t : get_transaction u ts = Some t -> transaction_id t = u.
Proof. induction ts as [|x ts IH]; simpl; [done|]. case_decide; [by intros [= <-]|done]. Qed.

Lemma remove_set_same id t' ts :
  transaction_id t' = id -> remove_transaction id (set_transaction id t' ts) = remove_transaction id ts.
Proof.
  intros Ht. unfold remove_transaction. induction ts as [|t ts IH]; simpl; [done|].
  destruct (decide (transaction_id t = id)) as [He|Hne].
  - rewrite !filter_cons_False by auto. done.
  - rewrite !filter_cons_True by done. by rewrite IH.
Qed.

Lemma remove_set_ne id u t' ts :
  transaction_id t' = u -> u ≠ id ->
  remove_transaction id (set_transaction u t' ts) = set_transaction u t' (remove_transaction id ts).
Proof.
  intros Ht Hne. unfold remove_transaction. induction ts as [|t ts IH]; simpl; [done|].
  destruct (decide (transaction_id t = u)) as [He|Hne'].
  - rewrite !filter_cons_True by congruence. simpl. by rewrite decide_True.
  - destruct (decide (transaction_id t = id)) as [Hi|Hni].
    + rewrite !filter_cons_False by auto. done.
    + rewrite !filter_cons_True by done. simpl. rewrite decide_False by done. by rewrite IH.
Qed.

Lemma remove_comm id u ts :
  remove_transaction id (remove_transaction u ts) = remove_transaction u (remove_transaction id ts).
Proof.
  unfold remove_transaction. rewrite !list_filter_filter. apply list_filter_iff. naive_solver.
Qed.

Lemma txn_read_id key d t : transaction_id (fst (txn_read key d t)) = transaction_id t.
Proof.
  unfold txn_read. destruct (isolation_level t); try done;
    (destruct (local_data t !! key); [done|]; unfold at_key; by destruct (d !! key)).
Qed.

Lemma txn_write_id key v d t : transaction_id (fst (txn_write key v d t)) = transaction_id t.
Proof. unfold txn_write. by destruct (isolation_level t). Qed.

(** ** Repeatable reads *)

(** The transaction works on a local copy in which [key] has the value [v]. *)
Definition pinned (id key v : Z) (s : Database) : Prop :=
  exists t, get_transaction id (active_transactions s) = Some t /\
    buffered (isolation_level t) = true /\ local_data t !! key = Some v.

Lemma txn_read_pinned key d t j v :
  buffered (isolation_level t) = true -> local_data t !! key = Some v ->
  isolation_level (fst (txn_read j d t)) = isolation_level t /\
  local_data (fst (txn_read j d t)) !! key = Some v.
Proof.
  intros Hb Hk. unfold txn_read. destruct (isolation_level t) eqn:Hl; try done;
    (destruct (local_data t !! j) as [w|] eqn:Hj; [done|]; unfold at_key;
     destruct (d !! j); [|done]; simpl; rewrite lookup_insert_ne by congruence; done).
Qed.

Lemma pinned_read id key v s : pinned id key v s -> snd (read id key s) = Ret v.
Proof.
  intros (t & Ht & Hb & Hk). unfold read. rewrite Ht. unfold txn_read.
  destruct (isolation_level t); try done; by rewrite Hk.
Qed.

(** The transaction neither ends nor overwrites the key. *)
Definition keeps (id key : Z) (o : db_op) : Prop :=
  match o with
  | DCommit u | DRollback u => u ≠ id
  | DWrite u k _ => u ≠ id \/ k ≠ key
  | _ => True
  end.

Lemma pinned_step id key v s o : keeps id key o -> pinned id key v s -> pinned id key v (db_step s o).
Proof.
  intros Ho (t & Ht & Hb & Hk). unfold pinned. destruct o as [u lvl|u j|u j w|u|u]; cbn [db_step].
  - exists t. simpl. by rewrite get_snoc, Ht.
  - unfold read. destruct (get_transaction u (active_transactions s)) as [t0|] eqn:Hu; [|by exists t].
    pose proof (txn_read_id j (data s) t0) as Hid.
    destruct (decide (u = id)) as [->|Hne].
    + rewrite Ht in Hu. injection Hu as <-.
      destruct (txn_read_pinned key (data s) t j v Hb Hk) as [Hl Hlk].
      destruct (txn_read j (data s) t) as [t' r]. simpl in *. exists t'.
      rewrite get_set by (rewrite Hid; by eapply get_id). rewrite decide_True, Ht by done.
      by rewrite Hl.
    + destruct (txn_read j (data s) t0) as [t' r]. simpl in *. exists t.
      rewrite get_set by (rewrite Hid; by eapply get_id). by rewrite decide_False by done.
  - unfold write. destruct (get_transaction u (active_transactions s)) as [t0|] eqn:Hu; [|by exists t].
    pose proof (txn_write_id j w (data s) t0) as Hid.
    destruct (decide (u = id)) as [->|Hne].
    + rewrite Ht in Hu. injection Hu as <-. destruct Ho as [?|Hj]; [done|].
      assert (Hw : txn_write j w (data s) t = (set_local (<[j := w]> (local_data t)) t, data s)).
      { unfold txn_write. by destruct (isolation_level t). }
      rewrite Hw in Hid |- *. simpl in *. eexists. rewrite get_set by (simpl; by eapply get_id).
      rewrite decide_True, Ht by done. split; [done|]. simpl. by rewrite lookup_insert_ne.
    + destruct (txn_write j w (data s) t0) as [t' d]. simpl in *. exists t.
      rewrite get_set by (rewrite Hid; by eapply get_id). by rewrite decide_False by done.
  - unfold commit_transaction. destruct (get_transaction u (active_transactions s)) as [t0|] eqn:Hu; [|by exists t].
    exists t. simpl. rewrite remove_set_same by (simpl; by eapply get_id).
    by rewrite get_remove, decide_False by done.
  - unfold rollback_transaction. destruct (get_transaction u (active_transactions s)) as [t0|] eqn:Hu; [|by exists t].
    exists t. simpl. rewrite remove_set_same by (simpl; by eapply get_id).
    by rewrite get_remove, decide_False by done.
Qed.

Lemma pinned_run id key v os : forall s,
  Forall (keeps id key) os -> pinned id key v s -> pinned id key v (db_run os s).
Proof.
  induction os as [|o os IH]; intros s Hos Hp; [done|]. apply Forall_cons in Hos as [Ho Hos].
  apply IH; [done|]. by apply pinned_step.
Qed.

(** Reads are repeatable at the levels that promise it: once a transaction at [REPEATABLE_READ]
    or [SERIALIZABLE] has read a value for a key, it reads the same value again after any calls of
    any transactions, until it ends or writes that key itself. *)
Lemma repeatable_read (id key v : Z) (t : Transaction) (os : list db_op) (s s1 : Database) :
  get_transaction id (active_transactions s) = Some t -> buffered (isolation_level t) = true ->
  read id key s = (s1, Ret v) -> Forall (keeps id key) os ->
  snd (read id key (db_run os s1)) = Ret v.
Proof.
  intros Ht Hb Hr Hos. apply pinned_read, pinned_run; [done|].
  unfold read in Hr. rewrite Ht in Hr. pose proof (txn_read_id key (data s) t) as Hid.
  destruct (txn_read key (data s) t) as [t' r] eqn:Hx. injection Hr as <- ->. simpl in Hid.
  exists t'. simpl. rewrite get_set by (rewrite Hid; by eapply get_id).
  rewrite decide_True, Ht by done. split; [done|]. revert Hx. unfold txn_read.
  destruct (isolation_level t) eqn:Hl; try done;
    (destruct (local_data t !! key) as [w|] eqn:Hw;
      [intros [= <- <-]; by rewrite Hl|]; unfold at_key; destruct (data s !! key); [|done];
      intros [= <- <-]; simpl; by rewrite Hl, lookup_insert_eq).
Qed.

Lemma repeatable_read_witness :
  let s := begin_transaction 2 REPEATABLE_READ make in
  let os := [DBegin 1 READ_COMMITTED; DWrite 1 1 150; DCommit 1; DWrite 2 2 250; DRead 2 3] in
  snd (read 2 1 (db_run os (fst (read 2 1 s)))) = Ret 100.
Proof.
  intros s os.
  apply (repeatable_read 2 1 100 (MkTxn 2 REPEATABLE_READ true ∅) os s (fst (read 2 1 s))).
  - reflexivity.
  - reflexivity.
  - reflexivity.
  - repeat (apply Forall_cons_2; [simpl; lia|]). apply Forall_nil_2.
Defined.

(** ** Rolling back *)

(** [s'] is [s] without the transaction [id], which works on local copies only. *)
Definition without (id : Z) (s s' : Database) : Prop :=
  data s' = data s /\ active_transactions s' = remove_transaction id (active_transactions s) /\
  Forall (fun t => transaction_id t = id -> buffered (isolation_level t) = true)
    (active_transactions s).

Lemma get_Forall (P : Transaction -> Prop) u ts t :
  Forall P ts -> get_transaction u ts = Some t -> P t.
Proof. induction 1 as [|x ts Hx Hts IH]; simpl; [done|]. case_decide; [by intros [= <-]|done]. Qed.

Lemma set_Forall (P : Transaction -> Prop) u t' ts :
  Forall P ts -> P t' -> Forall P (set_transaction u t' ts).
Proof. intros Hts Ht. induction Hts; simpl; [constructor|]. case_decide; by constructor. Qed.

Lemma remove_Forall (P : Transaction -> Prop) u ts : Forall P ts -> Forall P (remove_transaction u ts).
Proof.
  intros Hts. apply Forall_forall. intros t Ht. apply list_elem_of_filter in Ht as [_ Ht].
  rewrite Forall_forall in Hts. auto.
Qed.

Lemma txn_read_level key d t : isolation_level (fst (txn_read key d t)) = isolation_level t.
Proof.
  unfold txn_read. destruct (isolation_level t) eqn:Hl; try done;
    (destruct (local_data t !! key); [done|]; unfold at_key; by destruct (d !! key)).
Qed.

Lemma txn_write_level key v d t : isolation_level (fst (txn_write key v d t)) = isolation_level t.
Proof. unfold txn_write. by destruct (isolation_level t) eqn:Hl. Qed.

Lemma remove_id id ts : get_transaction id ts = None -> remove_transaction id ts = ts.
Proof.
  intros Hn. apply list_filter_all. induction ts as [|t ts IH]; [constructor|]. simpl in Hn.
  case_decide; [done|]. constructor; auto.
Qed.

(** An operation of the transaction itself leaves the rest alone. *)
Lemma without_own id s s' o :
  without id s s' -> op_txn o = id ->
  match o with DRead _ _ | DWrite _ _ _ => True | _ => False end -> without id (db_step s o) s'.
Proof.
  intros (Hd & Ha & Hf) Ho Hk. destruct o as [u lvl|u j|u j w|u|u]; try done; simpl in Ho; subst u; cbn [db_step].
  - unfold read. destruct (get_transaction id (active_transactions s)) as [t|] eqn:Ht; [|done].
    pose proof (txn_read_id j (data s) t) as Hid. pose proof (txn_read_level j (data s) t) as Hlv.
    destruct (txn_read j (data s) t) as [t' r]. simpl in *. split; [done|]. simpl. split.
    + rewrite remove_set_same; [done|]. rewrite Hid. by eapply get_id.
    + apply set_Forall; [done|]. intros _. rewrite Hlv.
      by apply (get_Forall _ id _ t Hf Ht), (get_id _ _ _ Ht).
  - unfold write. destruct (get_transaction id (active_transactions s)) as [t|] eqn:Ht; [|done].
    pose proof (txn_write_id j w (data s) t) as Hid. pose proof (txn_write_level j w (data s) t) as Hlv.
    pose proof (get_Forall _ id _ t Hf Ht (get_id _ _ _ Ht)) as Hb.
    destruct (txn_write j w (data s) t) as [t' d] eqn:Hw. simpl in *.
    assert (d = data s) as ->. { unfold txn_write in Hw. destruct (isolation_level t); by simplify_eq. }
    split; [done|]. simpl. split.
    + rewrite remove_set_same; [done|]. rewrite Hid. by eapply get_id.
    + apply set_Forall; [done|]. intros _. by rewrite Hlv.
Qed.

(** An operation of another transaction does the same with and without it. *)
Lemma without_other id s s' o :
  without id s s' -> op_txn o ≠ id -> without id (db_step s o) (db_step s' o).
Proof.
  intros (Hd & Ha & Hf) Ho.
  assert (Hg : forall u, u ≠ id ->
    get_transaction u (active_transactions s') = get_transaction u (active_transactions s)).
  { intros u Hu. by rewrite Ha, get_remove, decide_False by congruence. }
  destruct o as [u lvl|u j|u j w|u|u]; simpl in Ho; cbn [db_step].
  - split; [done|]. simpl. split.
    + rewrite Ha. unfold remove_transaction. rewrite filter_app, filter_cons_True by done. done.
    + apply Forall_app_2; [done|]. constructor; [done|constructor].
  - unfold read. rewrite Hg, Hd by done.
    destruct (get_transaction u (active_transactions s)) as [t|] eqn:Ht; [|done].
    pose proof (txn_read_id j (data s) t) as Hid.
    destruct (txn_read j (data s) t) as [t' r]. simpl in *. apply get_id in Ht as Hu.
    split; [done|]. simpl. rewrite Ha. split.
    + symmetry. apply remove_set_ne; congruence.
    + apply set_Forall; [done|]. congruence.
  - unfold write. rewrite Hg, Hd by done.
    destruct (get_transaction u (active_transactions s)) as [t|] eqn:Ht; [|done].
    pose proof (txn_write_id j w (data s) t) as Hid.
    destruct (txn_write j w (data s) t) as [t' d]. simpl in *. apply get_id in Ht as Hu.
    split; [done|]. simpl. rewrite Ha. split.
    + symmetry. apply remove_set_ne; congruence.
    + apply set_Forall; [done|]. congruence.
  - unfold commit_transaction. rewrite Hg, Hd by done.
    destruct (get_transaction u (active_transactions s)) as [t|] eqn:Ht; [|done].
    apply get_id in Ht as Hu. split; [done|]. simpl. rewrite !remove_set_same by done. rewrite Ha.
    split; [apply remove_comm|by apply remove_Forall].
  - unfold rollback_transaction. rewrite Hg, Hd by done.
    destruct (get_transaction u (active_transactions s)) as [t|] eqn:Ht; [|done].
    apply get_id in Ht as Hu. split; [done|]. simpl. rewrite !remove_set_same by done. rewrite Ha.
    split; [apply remove_comm|by apply remove_Forall].
Qed.

(** The transaction only reads and writes. *)
Definition no_control (id : Z) (o : db_op) : Prop :=
  op_txn o = id -> match o with DRead _ _ | DWrite _ _ _ => True | _ => False end.

Lemma without_run id os : forall s s',
  without id s s' -> Forall (no_control id) os ->
  without id (db_run os s) (db_run (filter (fun o => op_txn o ≠ id) os) s').
Proof.
  induction os as [|o os IH]; intros s s' Hw Hos; [done|]. apply Forall_cons in Hos as [Ho Hos].
  rewrite filter_cons. case_decide as Hd; simpl.
  - apply IH; [|done]. by apply without_other.
  - assert (He : op_txn o = id) by (destruct (decide (op_txn o = id)); [done|by destruct Hd]). apply IH; [|done].
    apply without_own; [done|done|by apply Ho].
Qed.

(** C37.  A rollback leaves no trace at [REPEATABLE_READ] and [SERIALIZABLE]: after a transaction
    begins, reads and writes among the calls of others, and rolls back, the database is exactly what
    the calls of the others alone would have made it. *)
Theorem rollback_leaves_no_trace (id : Z) (level : IsolationLevel) (os : list db_op) (s : Database) :
  buffered level = true -> get_transaction id (active_transactions s) = None ->
  Forall (no_control id) os ->
  db_run ([DBegin id level] ++ os ++ [DRollback id]) s =
  db_run (filter (fun o => op_txn o ≠ id) os) s.
Proof.
  intros Hb Hn Hos. unfold db_run. rewrite !foldl_app. simpl.
  set (s1 := begin_transaction id level s).
  assert (Hw : without id s1 s).
  { split; [done|]. simpl. split.
    - unfold remove_transaction. rewrite filter_app, filter_cons_False by (simpl; auto).
      rewrite filter_nil, app_nil_r. symmetry. by apply remove_id.
    - apply Forall_app_2; [|by constructor].
      apply Forall_forall. intros t Ht Hid. clear - Hn Ht Hid.
      induction (active_transactions s) as [|x ts IH]; [by apply not_elem_of_nil in Ht|].
      simpl in Hn. case_decide; [done|]. apply elem_of_cons in Ht as [->|Ht]; [done|auto]. }
  destruct (without_run id os s1 s Hw Hos) as (Hd & Ha & Hf). fold (db_run os s1).
  fold (db_run (filter (fun o => op_txn o ≠ id) os) s).
  destruct (db_run (filter (fun o => op_txn o ≠ id) os) s) as [d ts]. simpl in Hd, Ha. subst d ts.
  unfold rollback_transaction.
  destruct (get_transaction id (active_transactions (db_run os s1))) as [t|] eqn:Ht; simpl.
  - rewrite remove_set_same; [done|]. simpl. by eapply get_id.
  - rewrite remove_id by done. by destruct (db_run os s1).
Qed.

Lemma rollback_leaves_no_trace_witness :
  let os := [DRead 5 1; DBegin 1 READ_COMMITTED; DWrite 5 1 999; DWrite 1 2 7; DCommit 1; DWrite 5 2 8] in
  db_run ([DBegin 5 SERIALIZABLE] ++ os ++ [DRollback 5]) make =
  db_run [DBegin 1 READ_COMMITTED; DWrite 1 2 7; DCommit 1] make.
Proof.
  intros os. apply (rollback_leaves_no_trace 5 SERIALIZABLE os make).
  - reflexivity.
  - reflexivity.
  - repeat (apply Forall_cons_2; [intros H; simpl in *; first [exact I|lia]|]). apply Forall_nil_2.
Defined.

(** At [READ_COMMITTED] a write is global at once and a rollback does not undo it. *)
Example dirty_write_survives_rollback :
  data (db_run [DBegin 1 READ_COMMITTED; DWrite 1 1 150; DRollback 1] make) !! 1 = Some 150.
Proof. reflexivity. Qed.

(** ** The program *)

(** A transaction that reads a key, prints what it read, writes and commits. *)
Definition simulate_one (id : Z) (level : IsolationLevel) (read_key write_key value : Z) :
    prog Database (list string) :=
  (prog_modify (begin_transaction id level) ;;;
   let! v := read id read_key in
   write id write_key value ;;;
   commit_transaction id ;;;
   prog_ret ["Transaction " +:+ to_string id +:+ " Read: " +:+ to_string v])%prog.

Definition simulate_transactions : prog Database (list string) :=
  (let! l1 := simulate_one 1 READ_COMMITTED 1 1 150 in
   let! l2 := simulate_one 2 REPEATABLE_READ 1 2 250 in
   let! l3 := simulate_one 3 SERIALIZABLE 3 3 350 in
   prog_ret (l1 ++ l2 ++ l3))%prog.

(** [main] runs them on a new database. *)
Definition main : Database * outcome (list string) := simulate_transactions make.

Example isolation_main :
  let '(s, o) := main in
  o = Ret ["Transaction 1 Read: 100"; "Transaction 2 Read: 150"; "Transaction 3 Read: 300"] /\
  data s = {[ 1 := 150; 2 := 250; 3 := 350 ]} /\ active_transactions s = [].
Proof. vm_compute. done. Qed.
