(* ===== verification/Transactions.v ===== *)
(** * The transaction manager ([transactions/transactions.cpp])

    [ConcurrencyControl]'s locks and [TransactionManager]'s life cycle of a transaction, with the
    records the write-ahead log receives.  The source uses a member [write_set] that its
    [Transaction] does not declare: the write set of a transaction is a parameter. *)

From S2P Require Import Prelude.
Local Open Scope Z_scope.

Inductive TransactionState : Set := ACTIVE | COMMITTED | ABORTED.
Inductive IsolationLevel : Set := READ_UNCOMMITTED | READ_COMMITTED | REPEATABLE_READ | SERIALIZABLE.

Record Transaction : Type := MkTx {
  transaction_id : Z;
  state : TransactionState;
  log_entries : list string;
  isolation_level : IsolationLevel
}.

(** What [WriteAheadLog] is told, oldest first. *)
Inductive wal_record : Type :=
| LogBegin (tx_id : Z)
| LogCommit (tx_id : Z)
| LogAbort (tx_id : Z)
| LogRollback (tx_id : Z).

(** ** Concurrency control *)

Definition lockResource (resource : Z) (locked : gset Z) : option (gset Z) :=
  if decide (resource ∈ locked) then None else Some ({[resource]} ∪ locked).

Definition releaseLocks (write_set : list Z) (locked : gset Z) : gset Z :=
  foldl (fun l r => l ∖ {[r]}) locked write_set.

Fixpoint lockAll (resources : list Z) (locked : gset Z) : gset Z * bool :=
  match resources with
  | [] => (locked, true)
  | r :: resources =>
      match lockResource r locked with
      | None => (locked, false)
      | Some locked => lockAll resources locked
      end
  end.

(** A failed commit rolls back, which releases every resource of the write set. *)
Definition cc_commit (write_set : list Z) (locked : gset Z) : gset Z * bool :=
  let '(locked, ok) := lockAll write_set locked in (releaseLocks write_set locked, ok).

Definition cc_rollback (write_set : list Z) (locked : gset Z) : gset Z :=
  releaseLocks write_set locked.

(** ** Locks between calls *)

Lemma releaseLocks_spec ws locked : releaseLocks ws locked = locked ∖ list_to_set ws.
Proof.
  unfold releaseLocks. revert locked. induction ws as [|r ws IH]; intros locked; simpl; [set_solver|].
  rewrite IH. set_solver.
Qed.

Lemma lockAll_spec ws : forall locked,
  list_to_set ws ## locked ->
  (fst (lockAll ws locked) ⊆ list_to_set ws ∪ locked) /\
  (snd (lockAll ws locked) = true <-> NoDup ws).
Proof.
  induction ws as [|r ws IH]; intros locked Hd; simpl; [split; [set_solver|split; [constructor|done]]|].
  unfold lockResource. rewrite decide_False by set_solver. rewrite NoDup_cons.
  destruct (decide (r ∈ ws)) as [Hin|Hin].
  - assert (Hf : forall l, r ∈ l -> r ∈ ws -> snd (lockAll ws l) = false /\
      (fst (lockAll ws l) ⊆ list_to_set ws ∪ l)).
    { clear. induction ws as [|x ws IH]; intros l Hl Hin; [by apply not_elem_of_nil in Hin|]. simpl.
      unfold lockResource. destruct (decide (x ∈ l)) as [|Hx]; [split; [done|set_solver]|].
      apply elem_of_cons in Hin as [->|Hin]; [done|].
      destruct (IH ({[x]} ∪ l)) as [H1 H2]; [set_solver|done|]. split; [done|set_solver]. }
    destruct (Hf ({[r]} ∪ locked)) as [H1 H2]; [set_solver|done|]. rewrite H1. split; [set_solver|].
    split; [done|]. by intros [? _].
  - destruct (IH ({[r]} ∪ locked)) as [H1 H2].
    { intros x Hx Hx2. apply elem_of_list_to_set in Hx. set_solver. }
    split; [set_solver|]. rewrite H2. naive_solver.
Qed.

(** From free locks a commit succeeds exactly when its write set has no duplicate, and leaves the
    locks free. *)
Lemma cc_commit_spec ws : fst (cc_commit ws ∅) = ∅ /\ (snd (cc_commit ws ∅) = true <-> NoDup ws).
Proof.
  unfold cc_commit. destruct (lockAll_spec ws ∅) as [H1 H2]; [set_solver|].
  destruct (lockAll ws ∅) as [l ok]. simpl in *. rewrite releaseLocks_spec. split; [set_solver|done].
Qed.

Lemma cc_rollback_empty ws : cc_rollback ws ∅ = ∅.
Proof. unfold cc_rollback. rewrite releaseLocks_spec. set_solver. Qed.

(** ** The transaction manager *)

Record TransactionManager : Type := MkTM {
  active_transactions : gmap Z Transaction;
  wal : list wal_record;
  locked_resources : gset Z;
  next_id : Z;
  tx_mutex : bool
}.

Definition make : TransactionManager := MkTM ∅ [] ∅ 0 false.

#[export] Instance tm_lockable : Lockable TransactionManager.
Proof.
  refine {| held := tx_mutex;
            set_held b s := MkTM (active_transactions s) (wal s) (locked_resources s) (next_id s) b |}.
  - done.
  - by intros [].
  - done.
Defined.

Section Manager.
Context (write_set : Z -> list Z).

Definition log_record (r : wal_record) (s : TransactionManager) : TransactionManager :=
  MkTM (active_transactions s) (wal s ++ [r]) (locked_resources s) (next_id s) (tx_mutex s).

Definition set_locked (l : gset Z) (s : TransactionManager) : TransactionManager :=
  MkTM (active_transactions s) (wal s) l (next_id s) (tx_mutex s).

Definition set_tx (id : Z) (tx : Transaction) (s : TransactionManager) : TransactionManager :=
  MkTM (<[id := tx]> (active_transactions s)) (wal s) (locked_resources s) (next_id s) (tx_mutex s).

(** [cleanupTransaction]: the transaction is deleted and erased. *)
Definition cleanupTransaction (id : Z) (s : TransactionManager) : TransactionManager :=
  MkTM (delete id (active_transactions s)) (wal s) (locked_resources s) (next_id s) (tx_mutex s).

(** [++next_id] is undefined at [INT_MAX]. *)
Definition generateTransactionId : prog TransactionManager Z := fun s =>
  if next_id s =? int_max then (s, Undef signed_overflow)
  else (MkTM (active_transactions s) (wal s) (locked_resources s) (next_id s + 1) (tx_mutex s),
        Ret (next_id s + 1)).

Definition beginTransaction (level : IsolationLevel) : prog TransactionManager Z :=
  lock_guard (prog_bind generateTransactionId (fun id s =>
    (log_record (LogBegin id) (set_tx id (MkTx id ACTIVE [] level) s), Ret id))).

Definition abortTransaction (id : Z) : prog TransactionManager unit := lock_guard (fun s =>
  match active_transactions s !! id with
  | None => (s, Ret tt)
  | Some tx =>
      let s := log_record (LogAbort id) s in
      let s := set_locked (cc_rollback (write_set id) (locked_resources s)) s in
      let s := set_tx id (MkTx id ABORTED (log_entries tx) (isolation_level tx)) s in
      (cleanupTransaction id s, Ret tt)
  end).

Definition commitTransaction (id : Z) : prog TransactionManager unit := lock_guard (fun s =>
  match active_transactions s !! id with
  | None => (s, Ret tt)
  | Some tx =>
      let '(l, ok) := cc_commit (write_set id) (locked_resources s) in
      let s := set_locked l s in
      if ok
      then let s := log_record (LogCommit id) s in
           let s := set_tx id (MkTx id COMMITTED (log_entries tx) (isolation_level tx)) s in
           (cleanupTransaction id s, Ret tt)
      else prog_bind (abortTransaction id) (fun _ => prog_modify (cleanupTransaction id)) s
  end).

(** The transaction stays active. *)
Definition rollbackTransaction (id : Z) : prog TransactionManager unit := lock_guard (fun s =>
  match active_transactions s !! id with
  | None => (s, Ret tt)
  | Some tx =>
      let s := log_record (LogRollback id) s in
      (set_locked (cc_rollback (write_set id) (locked_resources s)) s, Ret tt)
  end).

(** [tx->addLogEntry(entry)] through the pointer [beginTransaction] returned. *)
Definition addLogEntry (id : Z) (entry : string) : prog TransactionManager unit := fun s =>
  match active_transactions s !! id with
  | None => (s, Undef null_pointer)
  | Some tx =>
      (set_tx id (MkTx (transaction_id tx) (state tx) (log_entries tx ++ [entry])
                    (isolation_level tx)) s, Ret tt)
  end.

(** ** The log *)

(** Reads the log: which transactions are open ([true]) and which are closed; [None] when a record
    is out of place. *)
Definition scan_record (m : gmap Z bool) (r : wal_record) : option (gmap Z bool) :=
  match r with
  | LogBegin id => match m !! id with None => Some (<[id := true]> m) | Some _ => None end
  | LogCommit id | LogAbort id =>
      match m !! id with Some true => Some (<[id := false]> m) | _ => None end
  | LogRollback id => match m !! id with Some true => Some m | _ => None end
  end.

Fixpoint scan (l : list wal_record) (m : gmap Z bool) : option (gmap Z bool) :=
  match l with
  | [] => Some m
  | r :: l => scan_record m r ≫= scan l
  end.

Lemma scan_snoc l r m : scan (l ++ [r]) m = scan l m ≫= fun m' => scan_record m' r.
Proof.
  revert m. induction l as [|x l IH]; intros m; simpl.
  - by destruct (scan_record m r).
  - destruct (scan_record m x) as [m'|]; simpl; [apply IH|done].
Qed.

(** The log is in order, and its open transactions are the active ones. *)
Record tm_inv (s : TransactionManager) : Prop := {
  inv_free : tx_mutex s = false;
  inv_locks : locked_resources s = ∅;
  inv_log : exists m, scan (wal s) ∅ = Some m /\
    (forall id, m !! id = Some true <-> is_Some (active_transactions s !! id)) /\
    (forall id, is_Some (m !! id) -> id <= next_id s)
}.

Inductive tm_op : Type :=
| TBegin (level : IsolationLevel)
| TCommit (id : Z)
| TAbort (id : Z)
| TRollback (id : Z).

Definition tm_step (o : tm_op) : prog TransactionManager unit :=
  match o with
  | TBegin level => prog_bind (beginTransaction level) (fun _ => prog_ret tt)
  | TCommit id => commitTransaction id
  | TAbort id => abortTransaction id
  | TRollback id => rollbackTransaction id
  end.

Fixpoint tm_run (os : list tm_op) : prog TransactionManager unit :=
  match os with
  | [] => prog_ret tt
  | o :: os => prog_bind (tm_step o) (fun _ => tm_run os)
  end.

(** The state with the mutex taken. *)
Lemma guard_step {A : Type} (body : prog TransactionManager A) s s1 a :
  tx_mutex s = false -> body (set_held true s) = (s1, Ret a) ->
  lock_guard body s = (set_held false s1, Ret a).
Proof. intros. by apply lock_guard_ret. Qed.

(** A call that changes nothing. *)
Lemma guard_same {A : Type} (body : prog TransactionManager A) s a :
  tx_mutex s = false -> body (set_held true s) = (set_held true s, Ret a) ->
  lock_guard body s = (s, Ret a).
Proof.
  intros Hm Hb. rewrite (guard_step body s _ a Hm Hb). destruct s; simpl in *; by subst.
Qed.

(** Closing an open transaction. *)
Lemma close_inv s id r :
  tm_inv s -> is_Some (active_transactions s !! id) ->
  r = LogCommit id \/ r = LogAbort id ->
  tm_inv (MkTM (delete id (active_transactions s)) (wal s ++ [r]) ∅ (next_id s) false).
Proof.
  intros [_ _ (m & Hm & Ha & Hn)] Hid Hr. constructor; simpl; try done.
  apply Ha in Hid as Ht. exists (<[id := false]> m). split; [|split].
  - rewrite scan_snoc, Hm. simpl. by destruct Hr as [-> | ->]; simpl; rewrite Ht.
  - intros j. rewrite lookup_insert, lookup_delete. case_decide.
    + split; [done|by intros [? ?]].
    + apply Ha.
  - intros j. rewrite lookup_insert. case_decide; [|apply Hn]. intros _. subst j. apply Hn. eauto.
Qed.

Lemma tm_step_ok o s :
  tm_inv s -> (forall id, o = TCommit id -> NoDup (write_set id)) -> next_id s < int_max ->
  exists s', tm_step o s = (s', Ret tt) /\ tm_inv s' /\ next_id s' <= next_id s + 1.
Proof.
  intros Hi Hws Hn. pose proof Hi as [Hfree Hl (m & Hm & Ha & Hid)].
  destruct o as [lvl|id|id|id]; cbn [tm_step].
  - unfold prog_bind, beginTransaction, lock_guard, prog_bind, generateTransactionId.
    cbn [held tm_lockable]. rewrite Hfree.
    cbn [set_held tm_lockable next_id]. rewrite (proj2 (Z.eqb_neq (next_id s) int_max)) by lia.
    eexists. split; [done|]. simpl. split; [|lia]. constructor; simpl; [done|done|].
    assert (Hnone : m !! (next_id s + 1) = None).
    { destruct (m !! (next_id s + 1)) eqn:He; [|done]. specialize (Hid (next_id s + 1)).
      rewrite He in Hid. specialize (Hid ltac:(eauto)). lia. }
    exists (<[next_id s + 1 := true]> m). split; [|split].
    + rewrite scan_snoc, Hm. simpl. by rewrite Hnone.
    + intros j. rewrite !lookup_insert. case_decide; [split; eauto|apply Ha].
    + intros j. rewrite lookup_insert. case_decide; [lia|]. intros Hj. apply Hid in Hj. lia.
  - destruct (active_transactions s !! id) as [tx|] eqn:Htx.
    + destruct (cc_commit_spec (write_set id)) as [H1 H2].
      destruct (cc_commit (write_set id) ∅) as [l ok] eqn:Hc. simpl in H1, H2. subst l.
      rewrite (proj2 H2) in Hc by auto. eexists. split.
      { apply guard_step; [done|]. cbn [set_held tm_lockable active_transactions locked_resources].
        rewrite Htx, Hl, Hc. done. }
      simpl. split; [|lia]. rewrite delete_insert_eq.
      apply (close_inv s id (LogCommit id)); eauto.
    + exists s. split; [|split; [done|lia]]. apply guard_same; [done|].
      simpl. by rewrite Htx.
  - destruct (active_transactions s !! id) as [tx|] eqn:Htx.
    + eexists. split.
      { apply guard_step; [done|]. simpl. rewrite Htx. done. }
      simpl. split; [|lia]. rewrite Hl, cc_rollback_empty, delete_insert_eq.
      apply (close_inv s id (LogAbort id)); eauto.
    + exists s. split; [|split; [done|lia]]. apply guard_same; [done|].
      simpl. by rewrite Htx.
  - destruct (active_transactions s !! id) as [tx|] eqn:Htx.
    + eexists. split.
      { apply guard_step; [done|]. simpl. rewrite Htx. done. }
      simpl. split; [|lia]. constructor; simpl; [done|by rewrite Hl, cc_rollback_empty|].
      exists m. split; [|done]. rewrite scan_snoc, Hm. simpl.
      by rewrite (proj2 (Ha id)) by (rewrite Htx; eauto).
    + exists s. split; [|split; [done|lia]]. apply guard_same; [done|].
      simpl. by rewrite Htx.
Qed.

Lemma tm_run_ok os : forall s,
  tm_inv s -> (forall id, TCommit id ∈ os -> NoDup (write_set id)) ->
  next_id s + Z.of_nat (length os) <= int_max ->
  exists s', tm_run os s = (s', Ret tt) /\ tm_inv s'.
Proof.
  induction os as [|o os IH]; intros s Hi Hws Hn; [by exists s|]. cbn [tm_run length] in *.
  destruct (tm_step_ok o s Hi) as (s1 & Hs & Hi1 & Hle); [|lia|].
  { intros id ->. apply Hws. left. }
  unfold prog_bind. rewrite Hs. apply IH; [done| |lia]. intros id Hin. apply Hws. by right.
Qed.

Lemma tm_make_inv : tm_inv make.
Proof.
  constructor; simpl; [done|done|]. exists ∅. split; [done|]. split.
  - intros id. rewrite !lookup_empty. split; [done|by intros [? ?]].
  - intros id. rewrite lookup_empty. by intros [? ?].
Qed.
End Manager.

(** The life cycle of transactions: when no committed transaction has a duplicate in its write
    set, any sequence of begins, commits, aborts and rollbacks returns; no lock is left behind; the
    write-ahead log holds for each transaction one begin, then only rollbacks, then at most one
    commit or abort and nothing after it; and the active transactions are exactly the open ones of
    the log. *)
Lemma transaction_life_cycle (write_set : Z -> list Z) (os : list tm_op) :
  (forall id, TCommit id ∈ os -> NoDup (write_set id)) -> Z.of_nat (length os) <= int_max ->
  exists s m, tm_run write_set os make = (s, Ret tt) /\ locked_resources s = ∅ /\
    scan (wal s) ∅ = Some m /\
    forall id, m !! id = Some true <-> is_Some (active_transactions s !! id).
Proof.
  intros Hws Hn. destruct (tm_run_ok write_set os make tm_make_inv Hws) as (s & Hs & [_ Hl (m & Hm & Ha & _)]).
  { simpl. lia. }
  by exists s, m.
Qed.

Lemma transaction_life_cycle_witness :
  let os := [TBegin REPEATABLE_READ; TCommit 1; TBegin SERIALIZABLE; TRollback 2; TAbort 2] in
  exists s m, tm_run (fun _ => [1; 2]) os make = (s, Ret tt) /\ locked_resources s = ∅ /\
    scan (wal s) ∅ = Some m /\
    forall id, m !! id = Some true <-> is_Some (active_transactions s !! id).
Proof.
  apply (transaction_life_cycle (fun _ => [1; 2])
    [TBegin REPEATABLE_READ; TCommit 1; TBegin SERIALIZABLE; TRollback 2; TAbort 2]).
  - intros id _. apply (bool_decide_unpack _). vm_compute. exact I.
  - vm_compute. congruence.
Defined.

(** A commit that concurrency control refuses never returns: it calls [abortTransaction] under
    the mutex it holds.  From free locks that is exactly a write set with a duplicate. *)
Lemma failed_commit_hangs (write_set : Z -> list Z) (id : Z) (s : TransactionManager) :
  tm_inv s -> is_Some (active_transactions s !! id) ->
  (snd (commitTransaction write_set id s) = Hang <-> ¬ NoDup (write_set id)).
Proof.
  intros [Hfree Hl _] [tx Htx]. destruct (cc_commit_spec (write_set id)) as [_ H2].
  unfold commitTransaction, lock_guard at 1. cbn [held tm_lockable]. rewrite Hfree.
  cbn [set_held tm_lockable active_transactions locked_resources]. rewrite Htx, Hl.
  destruct (cc_commit (write_set id) ∅) as [l ok]. simpl in H2. destruct ok; simpl.
  - split; [done|]. intros Hnd. destruct Hnd. by apply H2.
  - split; [|done]. intros _ Hnd. by apply H2 in Hnd.
Qed.

Lemma failed_commit_hangs_witness :
  snd (commitTransaction (fun _ => [7; 7]) 1 (fst (tm_run (fun _ => []) [TBegin SERIALIZABLE] make))) = Hang.
Proof.
  apply (failed_commit_hangs (fun _ => [7; 7]) 1 (fst (tm_run (fun _ => []) [TBegin SERIALIZABLE] make))).
  - destruct (tm_run_ok (fun _ => []) [TBegin SERIALIZABLE] make tm_make_inv) as (s & Hs & Hi).
    + intros id _. constructor.
    + vm_compute. congruence.
    + rewrite Hs. exact Hi.
  - vm_compute. eauto.
  - intros Hnd. apply NoDup_cons in Hnd as [Hn _]. apply Hn. left.
Defined.

(** ** The program *)

(** [TransactionManager()] runs [recover], which prints and changes nothing. *)
Definition recover : list string := ["Recovering from previous failure, replaying logs..."].
Definition newTransactionManager : TransactionManager * list string := (make, recover).

(** [~TransactionManager]: the transactions it deletes. *)
Definition destroy (s : TransactionManager) : list Transaction := (map_to_list (active_transactions s)).*2.

(** [main]; [tx1->transaction_id] is what [beginTransaction] returned. *)
Definition main (write_set : Z -> list Z) : prog TransactionManager unit :=
  (let! tx1 := beginTransaction REPEATABLE_READ in
   addLogEntry tx1 "Operation 1" ;;;
   addLogEntry tx1 "Operation 2" ;;;
   commitTransaction write_set tx1 ;;;
   let! tx2 := beginTransaction SERIALIZABLE in
   addLogEntry tx2 "Operation A" ;;;
   abortTransaction write_set tx2)%prog.

(** [main] logs a commit and an abort and leaves the destructor nothing to delete. *)
Example transactions_main :
  let '(s, o) := main (fun _ => []) (fst newTransactionManager) in
  o = Ret tt /\ wal s = [LogBegin 1; LogCommit 1; LogBegin 2; LogAbort 2] /\ destroy s = [].
Proof. vm_compute. done. Qed.

(** A transaction that is only rolled back stays active until the destructor deletes it. *)
Example rollback_stays_active :
  let '(s, o) := tm_run (fun _ => []) [TBegin SERIALIZABLE; TRollback 1] make in
  o = Ret tt /\ destroy s = [MkTx 1 ACTIVE [] SERIALIZABLE].
Proof. vm_compute. done. Qed.

(** The pointer of a committed transaction dangles: its object was deleted. *)
Example use_after_commit :
  let p := (let! tx := beginTransaction SERIALIZABLE in
            commitTransaction (fun _ => []) tx ;;; addLogEntry tx "late")%prog in
  snd (p make) = Undef null_pointer.
Proof. vm_compute. reflexivity. Qed.
