(* ===== verification/WriteAheadLog.v ===== *)
(** * The write-ahead log ([transactions/logging/write_ahead_log.cpp])

    Log records as comma-separated lines of a file: writing, reading and parsing them back, and the
    recovery pass. *)

From S2P Require Import Prelude Text.
From Stdlib Require Import Ascii.
Local Open Scope Z_scope.

(** [LogRecordType] has [int] as its underlying type, and parsing casts any [int] to it. *)
Abbreviation LogRecordType := Z (only parsing).
Definition BEGIN_TRANSACTION : LogRecordType := 0.
Definition COMMIT_TRANSACTION : LogRecordType := 1.
Definition ABORT_TRANSACTION : LogRecordType := 2.
Definition UPDATE : LogRecordType := 3.

Record LogRecord : Type := MkRec {
  type : LogRecordType;
  transaction_id : Z;
  page_id : Z;
  old_data : string;
  new_data : string;
  timestamp : Z
}.

(** [ToString] without its final newline, and the line it writes. *)
Definition fields (r : LogRecord) : list string :=
  [to_string (type r); to_string (transaction_id r); to_string (page_id r); old_data r; new_data r;
   to_string (timestamp r)].
Definition ToString (r : LogRecord) : string := (join "," (fields r) +:+ String nl "").

(** [parts[i]], undefined when there are fewer parts. *)
Definition part (i : nat) (parts : list string) : outcome string :=
  match parts !! i with Some p => Ret p | None => Undef index_out_of_range end.

(** The constructor stamps the record with the clock; the parsed timestamp is dropped. *)
Definition ParseLogRecord (now : Z) (log_line : string) : outcome LogRecord :=
  let parts := getlines "," log_line in
  p0 ← part 0 parts; ty ← stoi p0;
  p1 ← part 1 parts; tx_id ← stoi p1;
  p2 ← part 2 parts; pg_id ← stoi p2;
  old_d ← part 3 parts;
  new_d ← part 4 parts;
  p5 ← part 5 parts; _ ← stoll p5;
  mret (MkRec ty tx_id pg_id old_d new_d now).

(** The log file; [None] when it does not exist. *)
Abbreviation WriteAheadLog := (option string) (only parsing).

(** The constructor creates the file if there is none. *)
Definition open_log (f : WriteAheadLog) : WriteAheadLog := Some (default "" f).

(** Opening for append creates the file. *)
Definition WriteLog (r : LogRecord) (f : WriteAheadLog) : WriteAheadLog :=
  Some (default "" f +:+ ToString r).

(** [clock] gives the time at which each record is constructed. *)
Fixpoint parse_lines (clock : nat -> Z) (i : nat) (lines : list string) : outcome (list LogRecord) :=
  match lines with
  | [] => Ret []
  | l :: lines =>
      r ← ParseLogRecord (clock i) l;
      rs ← parse_lines clock (S i) lines;
      mret (r :: rs)
  end.

Definition ReadLogs (clock : nat -> Z) (f : WriteAheadLog) : outcome (list LogRecord) :=
  match f with
  | None => Ret []
  | Some text => parse_lines clock 0 (getlines nl text)
  end.

Definition ClearLogs (f : WriteAheadLog) : WriteAheadLog := None.

Definition write_all (rs : list LogRecord) (f : WriteAheadLog) : WriteAheadLog :=
  foldl (fun f r => WriteLog r f) f rs.

(** ** Simulated transactions and recovery *)

(** The records one simulated transaction writes, with the times of its records. *)
Definition SimulateTransaction (txn : Z) (clock : nat -> Z) : list LogRecord :=
  [MkRec BEGIN_TRANSACTION txn (-1) "" "" (clock 0%nat)] ++
  ((fun i => MkRec UPDATE txn (Z.of_nat i) ("old_data_" +:+ to_string (Z.of_nat i))
               ("new_data_" +:+ to_string (Z.of_nat i)) (clock (S i))) <$> seq 0 5) ++
  [MkRec COMMIT_TRANSACTION txn (-1) "" "" (clock 6%nat)].

(** What recovery prints for a record. *)
Inductive recovery_event : Type :=
| Recovering (txn : Z)
| Replaying (page txn : Z)
| Committed (txn : Z).

Definition recover_record (r : LogRecord) : list recovery_event :=
  if type r =? BEGIN_TRANSACTION then [Recovering (transaction_id r)]
  else if type r =? UPDATE then [Replaying (page_id r) (transaction_id r)]
  else if type r =? COMMIT_TRANSACTION then [Committed (transaction_id r)]
  else [].

Definition RecoverFromLogs (clock : nat -> Z) (f : WriteAheadLog) :
    outcome (WriteAheadLog * list recovery_event) :=
  logs ← ReadLogs clock f; mret (ClearLogs f, logs ≫= recover_record).

(** ** Round trip *)

(** The record can be written on one line of six fields. *)
Definition writable (r : LogRecord) : Prop :=
  is_int (type r) /\ is_int (transaction_id r) /\ is_int (page_id r) /\
  (- 2 ^ 63 <= timestamp r <= 2 ^ 63 - 1) /\
  has "," (old_data r) = false /\ has "," (new_data r) = false /\
  has nl (old_data r) = false /\ has nl (new_data r) = false.

Definition stamp (now : Z) (r : LogRecord) : LogRecord :=
  MkRec (type r) (transaction_id r) (page_id r) (old_data r) (new_data r) now.

Lemma parse_fields now r :
  writable r -> ParseLogRecord now (join "," (fields r)) = Ret (stamp now r).
Proof.
  intros (H0 & H1 & H2 & H5 & Ho & Hn & _). unfold ParseLogRecord.
  assert (Hp : getlines "," (join "," (fields r)) = fields r).
  { apply (getlines_join "," [to_string (type r); to_string (transaction_id r); to_string (page_id r);
      old_data r; new_data r] (to_string (timestamp r))); [|apply to_string_not_empty].
    repeat (apply Forall_cons_2; [first [by apply to_string_has|done]|]). apply Forall_nil_2. }
  rewrite Hp. unfold fields, part. obind. simpl lookup. obind.
  run_with (stoi_to_string (type r) H0). run_with (stoi_to_string (transaction_id r) H1).
  run_with (stoi_to_string (page_id r) H2). by run_with (stoll_to_string (timestamp r) H5).
Qed.

Lemma join_no_nl r : writable r -> has nl (join "," (fields r)) = false.
Proof.
  intros (_ & _ & _ & _ & _ & _ & Ho & Hn). unfold fields. cbn [join].
  repeat (rewrite has_app || cbn [has]). rewrite !to_string_has by done. by rewrite Ho, Hn.
Qed.

Lemma write_all_text rs : forall f,
  default "" (write_all rs f) =
    (default "" f +:+ unlines nl ((fun r => join "," (fields r)) <$> rs)).
Proof.
  induction rs as [|r rs IH]; intros f; [by rewrite append_nil_r|].
  change (write_all (r :: rs) f) with (write_all rs (WriteLog r f)). rewrite IH, fmap_cons.
  change (default "" (WriteLog r f)) with (default "" f +:+ ToString r). unfold ToString.
  generalize (join "," (fields r)) as l. intros l.
  change (unlines nl (l :: ?x)) with (l +:+ String nl (unlines nl x)).
  by rewrite !app_string_assoc.
Qed.

Lemma parse_lines_ok clock rs : forall i,
  Forall writable rs ->
  parse_lines clock i ((fun r => join "," (fields r)) <$> rs) =
    Ret (imap (fun j r => stamp (clock (i + j)%nat) r) rs).
Proof.
  induction rs as [|r rs IH]; intros i Hrs; [done|]. apply Forall_cons in Hrs as [Hr Hrs].
  rewrite fmap_cons. cbn [parse_lines]. run_with (parse_fields (clock i) r Hr).
  run_with (IH (S i) Hrs). simpl. rewrite Nat.add_0_r. do 2 f_equal. apply imap_ext.
  intros j x _. simpl. by rewrite Nat.add_succ_r.
Qed.

Lemma ReadLogs_write_all clock rs :
  Forall writable rs ->
  ReadLogs clock (write_all rs (open_log None)) = Ret (imap (fun j r => stamp (clock j) r) rs).
Proof.
  intros Hrs. assert (Ht : write_all rs (open_log None) =
    Some (unlines nl ((fun r => join "," (fields r)) <$> rs))).
  { pose proof (write_all_text rs (open_log None)) as Ht. cbn [open_log default] in Ht.
    assert (Hs : is_Some (write_all rs (open_log None))).
    { unfold write_all. destruct rs as [|r rs'] using rev_ind; [by eexists|]. rewrite foldl_app. by eexists. }
    destruct Hs as [t Hs]. rewrite Hs in Ht |- *. simpl in Ht. by rewrite Ht. }
  rewrite Ht. cbn [ReadLogs]. rewrite getlines_unlines.
  - by rewrite parse_lines_ok.
  - apply Forall_fmap. eapply Forall_impl; [done|]. intros r Hr. by apply join_no_nl.
Qed.

Lemma recover_all clock rs :
  Forall writable rs ->
  RecoverFromLogs clock (write_all rs (open_log None)) = Ret (None, rs ≫= recover_record).
Proof.
  intros Hrs. unfold RecoverFromLogs. run_with (ReadLogs_write_all clock rs Hrs). do 2 f_equal. clear.
  assert (Hg : forall g : nat -> Z, (imap (fun j r => stamp (g j) r) rs ≫= recover_record) =
    rs ≫= recover_record).
  { induction rs as [|r rs IH]; intros g; [done|]. rewrite imap_cons, !bind_cons. f_equal.
    apply (IH (fun j => g (S j))). }
  apply Hg.
Qed.

(** The log reads back: when the data of the records holds no comma and no newline, reading the
    log returns every record written, in order, each with all its fields but the timestamp, which is
    the time of reading; recovery replays them in that order and removes the log. *)
Lemma wal_roundtrip (clock : nat -> Z) (rs : list LogRecord) :
  Forall writable rs ->
  ReadLogs clock (write_all rs (open_log None)) = Ret (imap (fun j r => stamp (clock j) r) rs) /\
  RecoverFromLogs clock (write_all rs (open_log None)) = Ret (None, rs ≫= recover_record).
Proof. intros Hrs. split; [by apply ReadLogs_write_all|by apply recover_all]. Qed.

Lemma wal_roundtrip_witness :
  let rs := SimulateTransaction 1 (fun i => 1000 + Z.of_nat i) in
  ReadLogs (fun i => 5000 + Z.of_nat i) (write_all rs (open_log None)) =
    Ret (imap (fun j r => stamp (5000 + Z.of_nat j) r) rs) /\
  RecoverFromLogs (fun i => 5000 + Z.of_nat i) (write_all rs (open_log None)) =
    Ret (None, [Recovering 1; Replaying 0 1; Replaying 1 1; Replaying 2 1; Replaying 3 1;
                Replaying 4 1; Committed 1]).
Proof.
  apply (wal_roundtrip (fun i => 5000 + Z.of_nat i) (SimulateTransaction 1 (fun i => 1000 + Z.of_nat i))).
  repeat (apply Forall_cons_2; [repeat split; vm_compute; congruence|]). apply Forall_nil_2.
Defined.

(** A comma in the data shifts the fields: here the rest of the data is read as the timestamp. *)
Example comma_breaks_record :
  ParseLogRecord 0 (join "," (fields (MkRec UPDATE 1 2 "a,b" "7" 9))) =
    Ret (MkRec UPDATE 1 2 "a" "b" 0).
Proof. reflexivity. Qed.

(** ** The program *)

(** [main] when the records of its two threads reach the log in the order [rs]: the log file it leaves
    and what recovery prints. *)
Definition main (rs : list LogRecord) (clock : nat -> Z) :
    outcome (WriteAheadLog * list recovery_event) :=
  RecoverFromLogs clock (write_all rs (open_log None)).

Lemma simulated_writable txn times :
  is_int txn -> (forall i, - 2 ^ 63 <= times i <= 2 ^ 63 - 1) ->
  Forall writable (SimulateTransaction txn times).
Proof.
  intros Ht Hc. repeat (apply Forall_cons_2;
    [repeat (split; [first [done|apply Hc|vm_compute; split; congruence]|]); first [done|reflexivity]|]).
  apply Forall_nil_2.
Qed.

(** However the two transactions interleave, recovery replays both of them completely, each in its own
    order, and removes the log. *)
Lemma main_recovers_both (times1 times2 clock : nat -> Z) (rs : list LogRecord) :
  (forall i, - 2 ^ 63 <= times1 i <= 2 ^ 63 - 1) -> (forall i, - 2 ^ 63 <= times2 i <= 2 ^ 63 - 1) ->
  interleaving (SimulateTransaction 1 times1) (SimulateTransaction 2 times2) rs ->
  main rs clock = Ret (None, rs ≫= recover_record) /\
  rs ≡ₚ SimulateTransaction 1 times1 ++ SimulateTransaction 2 times2.
Proof.
  intros H1 H2 Hrs. split; [|by apply interleaving_perm].
  apply recover_all. eapply interleaving_Forall; [done|by apply simulated_writable..].
Qed.
