(* ===== verification/LogReplay.v ===== *)
(** * Log replay ([transactions/recovery/log_replay.cpp])

    The recovery pass over a text log: reading the records with formatted input, and replaying them
    in order on a table of transaction states. *)

From S2P Require Import Prelude Text.
From Stdlib Require Import Ascii.
Local Open Scope Z_scope.

#[local] Arguments String.append !_ _ / : simpl nomatch.

(** ** Records *)

(** [LogType] has [int] as its underlying type, and the reader casts any [int] to it. *)
Abbreviation LogType := Z (only parsing).
Definition INSERT : LogType := 0.
Definition DELETE : LogType := 1.
Definition UPDATE : LogType := 2.
Definition COMMIT : LogType := 3.
Definition ABORT : LogType := 4.

Inductive TxState : Set := ACTIVE | COMMITTED | ABORTED.
#[export] Instance TxState_eq_dec : EqDecision TxState.
Proof. solve_decision. Defined.

Record LogRecord : Type := MkLog {
  txID : Z;
  logType : LogType;
  tableName : string;
  data : string;
  lsn : Z
}.

(** ** Reading the log file *)

(** [file >> txID >> logType >> tableName >> data >> lsn]; [None] when one of them fails. *)
Definition read_record (s : string) : option (LogRecord * string) :=
  '(tx, s) ← read_int s;
  '(ty, s) ← read_int s;
  '(table, s) ← read_word s;
  '(d, s) ← read_word s;
  '(n, s) ← read_int s;
  Some (MkLog tx ty table d n, s).

(** The loop; every record takes at least one character, so the length of the text is enough. *)
Fixpoint read_records (fuel : nat) (s : string) : list LogRecord :=
  match fuel with
  | O => []
  | S fuel =>
      match read_record s with
      | None => []
      | Some (r, s) => r :: read_records fuel s
      end
  end.

(** The file; [None] when it cannot be opened. *)
Definition readLogsFromFile (file : option string) : outcome (list LogRecord) :=
  match file with
  | None => Throw (runtime_error "Failed to open log file")
  | Some s => Ret (read_records (S (String.length s)) s)
  end.

(** ** Replaying *)

(** What [applyInsert], [applyDelete] and [applyUpdate] report, in order. *)
Inductive applied : Type :=
| Inserted (data table : string)
| Deleted (data table : string)
| Updated (data table : string).

Record LogReplay : Type := MkReplay {
  transactions : gmap Z TxState;
  done_ops : list applied
}.

Definition make : LogReplay := MkReplay ∅ [].

Definition apply (a : applied) (s : LogReplay) : LogReplay :=
  MkReplay (transactions s) (done_ops s ++ [a]).

Definition applyInsert (l : LogRecord) : LogReplay -> LogReplay := apply (Inserted (data l) (tableName l)).
Definition applyDelete (l : LogRecord) : LogReplay -> LogReplay := apply (Deleted (data l) (tableName l)).
Definition applyUpdate (l : LogRecord) : LogReplay -> LogReplay := apply (Updated (data l) (tableName l)).

(** [processCommit] and [processAbort]: only a known transaction changes its state. *)
Definition processEnd (st : TxState) (tx : Z) (s : LogReplay) : LogReplay :=
  match transactions s !! tx with
  | Some _ => MkReplay (<[tx := st]> (transactions s)) (done_ops s)
  | None => s
  end.
Definition processCommit : Z -> LogReplay -> LogReplay := processEnd COMMITTED.
Definition processAbort : Z -> LogReplay -> LogReplay := processEnd ABORTED.

(** A transaction starts with its first record. *)
Definition start (tx : Z) (s : LogReplay) : LogReplay :=
  match transactions s !! tx with
  | Some _ => s
  | None => MkReplay (<[tx := ACTIVE]> (transactions s)) (done_ops s)
  end.

(** The body of the loop over the logs. *)
Definition replay_record (l : LogRecord) : prog LogReplay unit := fun s =>
  let s := start (txID l) s in
  if logType l =? INSERT then (applyInsert l s, Ret tt)
  else if logType l =? DELETE then (applyDelete l s, Ret tt)
  else if logType l =? UPDATE then (applyUpdate l s, Ret tt)
  else if logType l =? COMMIT then (processCommit (txID l) s, Ret tt)
  else if logType l =? ABORT then (processAbort (txID l) s, Ret tt)
  else (s, Throw (runtime_error "Unknown log type")).

Fixpoint replayLogs (logs : list LogRecord) : prog LogReplay unit :=
  match logs with
  | [] => prog_ret tt
  | l :: logs => (replay_record l ;;; replayLogs logs)%prog
  end.

(** The whole program: read the file and replay it on a fresh object. *)
Definition recover (file : option string) : LogReplay * outcome unit :=
  match readLogsFromFile file with
  | Ret logs => replayLogs logs make
  | Throw e => (make, Throw e)
  | Hang => (make, Hang)
  | Undef u => (make, Undef u)
  end.

(** ** The text of a log *)

Definition line (r : LogRecord) : string :=
  join " " [to_string (txID r); to_string (logType r); tableName r; data r; to_string (lsn r)].
Definition log_text (rs : list LogRecord) : string := unlines nl (line <$> rs).

Definition is_word (w : string) : Prop :=
  w ≠ "" /\ all_chars (fun c => negb (is_space c)) w = true.

Definition loggable (r : LogRecord) : Prop :=
  is_int (txID r) /\ is_int (logType r) /\ is_int (lsn r) /\ is_word (tableName r) /\ is_word (data r).

Lemma read_record_line r a s :
  loggable r -> is_space a = true ->
  read_record (line r +:+ String a s) = Some (r, String a s) /\
  read_record (String a (line r +:+ String a s)) = Some (r, String a s).
Proof.
  intros (Ht & Hy & Hl & [Hn Hn'] & [Hd Hd']) Ha.
  assert (Hdig : forall b x, is_space b = true -> starts_digit (String b x) = false).
  { intros b x Hb. cbn [starts_digit]. destruct (is_digit b) eqn:E; [|done].
    apply is_digit_not_space in E. congruence. }
  assert (H : read_record (line r +:+ String a s) = Some (r, String a s)).
  { unfold read_record, line. cbn [join]. rewrite !app_string_assoc. cbn [String.append].
    rewrite (read_int_app (txID r)) by first [done|by apply Hdig]. cbn [mbind option_bind].
    rewrite read_int_space, !app_string_assoc by done. cbn [String.append].
    rewrite (read_int_app (logType r)) by first [done|by apply Hdig]. cbn [mbind option_bind].
    rewrite read_word_space, !app_string_assoc by done. cbn [String.append].
    rewrite read_word_app by done. cbn [mbind option_bind].
    rewrite read_word_space, !app_string_assoc by done. cbn [String.append].
    rewrite read_word_app by done. cbn [mbind option_bind].
    rewrite read_int_space by done.
    rewrite (read_int_app (lsn r)) by first [done|by apply Hdig]. cbn [mbind option_bind].
    by destruct r. }
  split; [done|]. rewrite <-H. unfold read_record. by rewrite read_int_space.
Qed.

Lemma log_text_length rs : (length rs <= String.length (log_text rs))%nat.
Proof.
  induction rs as [|r rs IH]; [simpl; lia|]. unfold log_text in *. rewrite fmap_cons. cbn [unlines foldr].
  fold (unlines nl (line <$> rs)). rewrite length_append. simpl. lia.
Qed.

(** The records come back from their lines; the first line has no newline in front. *)
Lemma read_records_log rs : forall fuel,
  Forall loggable rs -> (length rs < fuel)%nat ->
  read_records fuel (log_text rs) = rs /\ read_records fuel (String nl (log_text rs)) = rs.
Proof.
  induction rs as [|r rs IH]; intros fuel Hrs Hf; (destruct fuel as [|fuel]; [simpl in Hf; lia|]); [done|].
  apply Forall_cons in Hrs as [Hr Hrs]. simpl in Hf.
  destruct (IH fuel Hrs ltac:(lia)) as [_ H2]. destruct (read_record_line r nl (log_text rs) Hr eq_refl) as [R1 R2].
  change (log_text (r :: rs)) with (line r +:+ String nl (log_text rs)). cbn [read_records].
  rewrite R1, R2. by rewrite H2.
Qed.

(** ** What a replay leaves *)

Definition known (ty : LogType) : Prop := 0 <= ty <= 4.

(** The state after a record: ends are final until another end, other records start it. *)
Definition tx_after (o : option TxState) (ty : LogType) : TxState :=
  if ty =? COMMIT then COMMITTED else if ty =? ABORT then ABORTED else default ACTIVE o.

Definition last_state (tx : Z) (rs : list LogRecord) : option TxState :=
  foldl (fun o r => if decide (txID r = tx) then Some (tx_after o (logType r)) else o) None rs.

(** The data operation of a record. *)
Definition op_of (r : LogRecord) : list applied :=
  if logType r =? INSERT then [Inserted (data r) (tableName r)]
  else if logType r =? DELETE then [Deleted (data r) (tableName r)]
  else if logType r =? UPDATE then [Updated (data r) (tableName r)] else [].

(** The state of the table after [rs], with [m] before. *)
Definition states_after (m : gmap Z TxState) (rs : list LogRecord) : gmap Z TxState :=
  foldl (fun m r => <[txID r := tx_after (m !! txID r) (logType r)]> m) m rs.

Lemma states_after_lookup rs : forall m tx,
  states_after m rs !! tx =
    foldl (fun o r => if decide (txID r = tx) then Some (tx_after o (logType r)) else o) (m !! tx) rs.
Proof.
  induction rs as [|r rs IH]; intros m tx; [done|]. unfold states_after in *. cbn [foldl]. rewrite IH. f_equal.
  case_decide as E; [by rewrite E, lookup_insert_eq|by rewrite lookup_insert_ne].
Qed.

Lemma replay_record_ok r s :
  known (logType r) ->
  replay_record r s =
    (MkReplay (<[txID r := tx_after (transactions s !! txID r) (logType r)]> (transactions s))
       (done_ops s ++ op_of r), Ret tt).
Proof.
  intros Hk. unfold replay_record, op_of, tx_after, start, applyInsert, applyDelete, applyUpdate, apply,
    processCommit, processAbort, processEnd.
  assert (Hty : logType r = 0 \/ logType r = 1 \/ logType r = 2 \/ logType r = 3 \/ logType r = 4)
    by (unfold known in Hk; lia).
  destruct s as [m ops]. cbn [transactions done_ops].
  destruct Hty as [E|[E|[E|[E|E]]]]; rewrite E; cbn -[insert lookup];
    (destruct (m !! txID r) as [st|] eqn:Em; cbn -[insert lookup];
     rewrite ?Em, ?lookup_insert_eq, ?insert_insert_eq, ?app_nil_r; try done; by rewrite insert_id).
Qed.

Lemma replayLogs_ok rs : forall s,
  Forall (fun r => known (logType r)) rs ->
  replayLogs rs s = (MkReplay (states_after (transactions s) rs) (done_ops s ++ (rs ≫= op_of)), Ret tt).
Proof.
  induction rs as [|r rs IH]; intros s Hrs.
  - simpl. rewrite app_nil_r. by destruct s.
  - apply Forall_cons in Hrs as [Hr Hrs]. cbn [replayLogs]. unfold prog_bind.
    rewrite replay_record_ok by done. rewrite IH by done. cbn [transactions done_ops].
    by rewrite bind_cons, (assoc_L (++)).
Qed.

(** Replay stops at the first record of an unknown type, with what came before it done. *)
Lemma replayLogs_unknown rs r rs' s :
  Forall (fun r => known (logType r)) rs -> ~ known (logType r) ->
  replayLogs (rs ++ r :: rs') s =
    (start (txID r) (MkReplay (states_after (transactions s) rs) (done_ops s ++ (rs ≫= op_of))),
     Throw (runtime_error "Unknown log type")).
Proof.
  intros Hrs Hr. revert s. induction Hrs as [|x rs Hx Hrs IH]; intros s.
  - simpl. rewrite app_nil_r. unfold prog_bind, replay_record.
    assert (Hn : forall k, 0 <= k <= 4 -> (logType r =? k) = false)
      by (intros k Hk; apply Z.eqb_neq; intros E; apply Hr; unfold known; lia).
    unfold INSERT, DELETE, UPDATE, COMMIT, ABORT. rewrite !Hn by lia. by destruct s.
  - cbn [replayLogs app]. unfold prog_bind. rewrite replay_record_ok by done. rewrite IH.
    cbn [transactions done_ops]. by rewrite bind_cons, (assoc_L (++)).
Qed.

(** C34.  Recovery from a log file: a written log reads back exactly; replaying it applies every data
    operation in log order, the operations of transactions that never commit included, and leaves
    each transaction in the state of its last commit or abort record (active without one, absent
    without a record); an unknown record type stops the replay there with what came before done; and
    a missing file is an error. *)
Theorem log_replay_correct (rs : list LogRecord) :
  Forall loggable rs ->
  readLogsFromFile (Some (log_text rs)) = Ret rs /\
  recover None = (make, Throw (runtime_error "Failed to open log file")) /\
  (Forall (fun r => known (logType r)) rs ->
   exists s, recover (Some (log_text rs)) = (s, Ret tt) /\
     done_ops s = rs ≫= op_of /\ forall tx, transactions s !! tx = last_state tx rs) /\
  (forall rs1 r rs2, rs = rs1 ++ r :: rs2 -> Forall (fun r => known (logType r)) rs1 ->
   ~ known (logType r) ->
   exists s, recover (Some (log_text rs)) = (s, Throw (runtime_error "Unknown log type")) /\
     done_ops s = rs1 ≫= op_of).
Proof.
  intros Hrs.
  assert (Hread : readLogsFromFile (Some (log_text rs)) = Ret rs).
  { cbn [readLogsFromFile]. f_equal. apply read_records_log; [done|]. pose proof (log_text_length rs). lia. }
  split; [done|]. split; [done|]. split.
  - intros Hk. unfold recover. rewrite Hread, replayLogs_ok by done. eexists. split; [done|].
    split; [done|]. intros tx. cbn [transactions]. rewrite states_after_lookup. cbn [make transactions]. by rewrite lookup_empty.
  - intros rs1 r rs2 E Hk Hr. unfold recover. rewrite Hread, E, replayLogs_unknown by done.
    eexists. split; [done|]. unfold start. cbn [transactions]. by destruct (_ !! _).
Qed.

Lemma log_replay_correct_witness :
  let rs := [MkLog 1 INSERT "accounts" "100" 1; MkLog 2 UPDATE "users" "alice" 2;
             MkLog 1 COMMIT "-" "-" 3; MkLog 2 ABORT "-" "-" 4] in
  exists s, recover (Some (log_text rs)) = (s, Ret tt) /\
    done_ops s = [Inserted "100" "accounts"; Updated "alice" "users"] /\
    transactions s !! 1 = Some COMMITTED /\ transactions s !! 2 = Some ABORTED.
Proof.
  intros rs. destruct (log_replay_correct rs) as (_ & _ & H & _).
  - repeat (apply Forall_cons_2; [repeat split; vm_compute; congruence|]). apply Forall_nil_2.
  - destruct H as (s & H1 & H2 & H3).
    + repeat (apply Forall_cons_2; [unfold known; simpl; vm_compute; split; congruence|]). apply Forall_nil_2.
    + exists s. split; [done|]. split; [done|]. by rewrite !H3.
Defined.
