(* ===== verification/Checkpointing.v ===== *)
(** * Checkpoints and recovery ([transactions/recovery/checkpointing.cpp])

    Transactions with their operations, the files of the system, the write-ahead log and the checkpoint
    file behind buffered streams that append to them, and recovery of transaction states by searching
    the lines of the file ["wal.log"], whatever file the log was opened with. *)

From S2P Require Import Prelude Text.
From Stdlib Require Import Ascii.
Local Open Scope Z_scope.

#[local] Arguments String.append !_ _ / : simpl nomatch.

(** ** Transactions *)

Inductive TransactionState : Set := ACTIVE | COMMITTED | ABORTED.
#[export] Instance TransactionState_eq_dec : EqDecision TransactionState.
Proof. solve_decision. Defined.

Record Transaction : Type := MkTxn {
  id : Z;
  state : TransactionState;
  operations : list string
}.

Definition newTransaction (tid : Z) : Transaction := MkTxn tid ACTIVE [].

Definition add_operation (op : string) (t : Transaction) : Transaction :=
  MkTxn (id t) (state t) (operations t ++ [op]).

Definition set_state (st : TransactionState) (t : Transaction) : Transaction :=
  MkTxn (id t) st (operations t).
Definition commit : Transaction -> Transaction := set_state COMMITTED.
Definition abort : Transaction -> Transaction := set_state ABORTED.

Abbreviation Table := (gmap Z Transaction) (only parsing).

(** ** Text of the log *)

Definition op_line (tid : Z) (op : string) : string :=
  "Transaction " +:+ to_string tid +:+ ": " +:+ op.
Definition end_line (tid : Z) (what : string) : string :=
  "Transaction " +:+ to_string tid +:+ " " +:+ what +:+ ".".

Definition newline (s : string) : string := s +:+ String nl "".

Definition log_transaction (t : Transaction) : string :=
  foldr (fun op acc => newline (op_line (id t) op) +:+ acc) "" (operations t).
Definition log_commit (tid : Z) : string := newline (end_line tid "committed").
Definition log_abort (tid : Z) : string := newline (end_line tid "aborted").

(** The text of one checkpoint; [entries] lists the table in the order of the unordered map. *)
Definition checkpoint_line (t : Transaction) : string :=
  "Transaction " +:+ to_string (id t) +:+ " state: " +:+
    (if decide (state t = COMMITTED) then "committed" else "active").
Definition checkpoint_text (entries : list (Z * Transaction)) : string :=
  newline "Checkpoint begin" +:+
  foldr (fun e acc => newline (checkpoint_line e.2) +:+ acc) (newline "Checkpoint end") entries.

(** ** Recovery *)

(** [size_t] arithmetic wraps: a missing word or colon gives positions from [npos]. *)
Definition extract_transaction_id (line : string) : outcome Z :=
  let pos := find_pos "Transaction " line in
  t ← substr line (to_size_t (pos + 12)) (to_size_t (find_pos ":" line - pos - 12));
  stoi t.

(** [transactions[txn_id].commit()] for a known transaction. *)
Definition end_known (st : TransactionState) (line : string) : prog Table unit := fun m =>
  match extract_transaction_id line with
  | Ret tid => (alter (set_state st) tid m, Ret tt)
  | Throw e => (m, Throw e)
  | Hang => (m, Hang)
  | Undef u => (m, Undef u)
  end.

Definition recover_line (line : string) : prog Table unit :=
  if contains "committed" line then end_known COMMITTED line
  else if contains "aborted" line then end_known ABORTED line
  else prog_ret tt.

Fixpoint recover_lines (lines : list string) : prog Table unit :=
  match lines with
  | [] => prog_ret tt
  | l :: lines => (recover_line l ;;; recover_lines lines)%prog
  end.

Definition recover_from_log (file : option string) : prog Table unit :=
  match file with
  | None => prog_throw (runtime_error "Failed to open log file.")
  | Some text => recover_lines (getlines nl text)
  end.

(** ** The transaction manager *)

(** The files by name, with their contents. *)
Abbreviation Files := (gmap string string) (only parsing).

(** A stream opened for appending writes behind what the file has; the file is created if it is not
    there. *)
Definition append_file (name text : string) (fs : Files) : Files :=
  <[name := default "" (fs !! name) +:+ text]> fs.

(** What was written to a stream is in its buffer until it is flushed to the file of that name. *)
Record TransactionManager : Type := MkTM {
  last_transaction_id : Z;
  transactions : gmap Z Transaction;
  wal_name : string;
  wal_buffer : string;
  checkpoint_name : string;
  checkpoint_buffer : string;
  files : gmap string string
}.

(** The constructors of the two streams; [writable] says which files the system lets the process open. *)
Definition open_wal (writable : string -> bool) (name : string) : prog Files unit := fun fs =>
  if writable name then (append_file name "" fs, Ret tt)
  else (fs, Throw (runtime_error "Failed to open WAL file.")).
Definition open_checkpoint (writable : string -> bool) (name : string) : prog Files unit := fun fs =>
  if writable name then (append_file name "" fs, Ret tt)
  else (fs, Throw (runtime_error "Failed to open checkpoint file.")).

Definition newTransactionManager (writable : string -> bool) (wal_file checkpoint_file : string) :
    prog Files TransactionManager :=
  (open_wal writable wal_file ;;;
   open_checkpoint writable checkpoint_file ;;;
   prog_gets (MkTM 0 ∅ wal_file "" checkpoint_file ""))%prog.

Definition set_table (last : Z) (m : gmap Z Transaction) (s : TransactionManager) : TransactionManager :=
  MkTM last m (wal_name s) (wal_buffer s) (checkpoint_name s) (checkpoint_buffer s) (files s).
Definition log (text : string) (s : TransactionManager) : TransactionManager :=
  MkTM (last_transaction_id s) (transactions s) (wal_name s) (wal_buffer s +:+ text)
    (checkpoint_name s) (checkpoint_buffer s) (files s).
Definition set_txn (tid : Z) (t : Transaction) (s : TransactionManager) : TransactionManager :=
  set_table (last_transaction_id s) (<[tid := t]> (transactions s)) s.

Definition begin_transaction : prog TransactionManager Z := fun s =>
  if last_transaction_id s =? int_max then (s, Undef signed_overflow)
  else
    let tid := last_transaction_id s + 1 in
    (set_table tid (<[tid := newTransaction tid]> (transactions s)) s, Ret tid).

(** [txn.add_operation(op)] through the reference [begin_transaction] returned. *)
Definition add_op (tid : Z) (op : string) : prog TransactionManager unit := fun s =>
  match transactions s !! tid with
  | None => (s, Undef null_pointer)
  | Some t => (set_txn tid (add_operation op t) s, Ret tt)
  end.

Definition commit_transaction (tid : Z) : prog TransactionManager unit := fun s =>
  match transactions s !! tid with
  | None => (s, Ret tt)
  | Some t =>
      let s := set_txn tid (commit t) s in
      let s := log (log_transaction (commit t)) s in
      (log (log_commit tid) s, Ret tt)
  end.

Definition abort_transaction (tid : Z) : prog TransactionManager unit := fun s =>
  match transactions s !! tid with
  | None => (s, Ret tt)
  | Some t => (log (log_abort tid) (set_txn tid (abort t) s), Ret tt)
  end.

Definition create_checkpoint (order : gmap Z Transaction -> list (Z * Transaction)) :
    prog TransactionManager unit := fun s =>
  (MkTM (last_transaction_id s) (transactions s) (wal_name s) (wal_buffer s) (checkpoint_name s)
     (checkpoint_buffer s +:+ checkpoint_text (order (transactions s))) (files s), Ret tt).

(** A stream writes the first [n] characters of its buffer to its file. *)
Definition flush (n : nat) : prog TransactionManager unit := fun s =>
  let b := wal_buffer s in
  (MkTM (last_transaction_id s) (transactions s) (wal_name s)
     (String.substring n (String.length b - n) b) (checkpoint_name s) (checkpoint_buffer s)
     (append_file (wal_name s) (String.substring 0 n b) (files s)), Ret tt).
Definition flush_checkpoint (n : nat) : prog TransactionManager unit := fun s =>
  let b := checkpoint_buffer s in
  (MkTM (last_transaction_id s) (transactions s) (wal_name s) (wal_buffer s) (checkpoint_name s)
     (String.substring n (String.length b - n) b)
     (append_file (checkpoint_name s) (String.substring 0 n b) (files s)), Ret tt).

(** [std::ifstream log_file(name)]: the text of a file that is there and that the system lets the process
    read. *)
Definition open_in (readable : string -> bool) (name : string) (fs : Files) : option string :=
  if readable name then fs !! name else None.

(** The name is a literal of [recover], not the one the log was opened with. *)
Definition recover (readable : string -> bool) : prog TransactionManager unit := fun s =>
  let '(m, o) := recover_from_log (open_in readable "wal.log" (files s)) (transactions s) in
  (set_table (last_transaction_id s) m s, o).

(** ** The lines of the log *)

Inductive entry : Type :=
| EOp (tid : Z) (op : string)
| EEnd (tid : Z) (st : TransactionState).

Definition text (e : entry) : string :=
  match e with
  | EOp tid op => op_line tid op
  | EEnd tid st => end_line tid (if decide (st = COMMITTED) then "committed" else "aborted")
  end.

(** An operation that neither breaks the line nor looks like the end of a transaction. *)
Definition plain (op : string) : Prop :=
  has nl op = false /\ contains "committed" op = false /\ contains "aborted" op = false.

Definition entry_ok (e : entry) : Prop :=
  match e with
  | EOp tid op => plain op
  | EEnd tid st => is_int tid /\ st ≠ ACTIVE
  end.

Definition apply_entry (m : gmap Z Transaction) (e : entry) : gmap Z Transaction :=
  match e with
  | EOp _ _ => m
  | EEnd tid st => alter (set_state st) tid m
  end.

(** How the log of a transaction ends. *)
Definition end_of (tid : Z) (o : option TransactionState) (e : entry) : option TransactionState :=
  match e with
  | EEnd i st => if decide (i = tid) then Some st else o
  | EOp _ _ => o
  end.
Definition last_end (tid : Z) (es : list entry) : option TransactionState := foldl (end_of tid) None es.

Lemma contains_header c pat tid s :
  is_digit c = false -> c ≠ "-"%char ->
  (forall x, contains (String c pat) ("Transaction " +:+ x) = contains (String c pat) x) ->
  contains (String c pat) ("Transaction " +:+ to_string tid +:+ s) = contains (String c pat) s.
Proof. intros Hd Hc Ht. rewrite Ht. apply contains_app_skip. by apply to_string_has. Qed.

Lemma header_committed x : contains "committed" ("Transaction " +:+ x) = contains "committed" x.
Proof. cbn [String.append]. by rewrite !contains_cons. Qed.
Lemma header_aborted x : contains "aborted" ("Transaction " +:+ x) = contains "aborted" x.
Proof. cbn [String.append]. by rewrite !contains_cons. Qed.

Lemma op_line_quiet tid op :
  plain op -> contains "committed" (op_line tid op) = false /\ contains "aborted" (op_line tid op) = false.
Proof.
  intros (_ & Hc & Ha). unfold op_line.
  rewrite (contains_header "c" "ommitted" tid) by first [done|apply header_committed].
  rewrite (contains_header "a" "borted" tid) by first [done|apply header_aborted].
  cbn [String.append]. rewrite !contains_cons. by rewrite Hc, Ha.
Qed.

(** The number after the word is the transaction, when no colon follows it. *)
Lemma extract_end tid s :
  is_int tid -> starts_digit s = false -> has ":" s = false ->
  (Z.of_nat (String.length (to_string tid +:+ s)) < size_t_mod - 13) ->
  extract_transaction_id ("Transaction " +:+ to_string tid +:+ s) = Ret tid.
Proof.
  intros Ht Hs Hc Hlen. unfold extract_transaction_id, find_pos.
  assert (Hcolon : find_sub ":" ("Transaction " +:+ to_string tid +:+ s) = None).
  { assert (H : contains ":" ("Transaction " +:+ to_string tid +:+ s) = false).
    { rewrite (contains_app_skip ":" "" "Transaction ") by done.
      rewrite (contains_app_skip ":" "") by (by apply to_string_has).
      rewrite <-(append_nil_r s), (contains_app_skip ":" "") by done. reflexivity. }
    unfold contains in H. apply bool_decide_eq_false in H. by apply eq_None_not_Some. }
  rewrite Hcolon. set (x := to_string tid +:+ s) in *.
  assert (Hpos : find_sub "Transaction " ("Transaction " +:+ x) = Some 0%nat).
  { unfold find_sub. cbn [String.append]. by destruct x. }
  rewrite Hpos. unfold substr.
  assert (Hl : Z.of_nat (String.length ("Transaction " +:+ x)) = 12 + Z.of_nat (String.length x)).
  { rewrite length_append. change (String.length "Transaction ") with 12%nat. lia. }
  rewrite Hl. change (to_size_t (Z.of_nat 0 + 12)) with 12.
  change (to_size_t (npos - Z.of_nat 0 - 12)) with (size_t_mod - 13).
  assert (E : (12 + Z.of_nat (String.length x) <? 12) = false) by (apply Z.ltb_ge; lia).
  rewrite E. replace (Z.min (size_t_mod - 13) (12 + Z.of_nat (String.length x) - 12)) with
    (Z.of_nat (String.length x)) by lia. rewrite Nat2Z.id. obind.
  change (Z.to_nat 12) with 12%nat. cbn [String.append String.substring]. rewrite substring_all.
  unfold stoi, x. rewrite strtol_to_string by done. by rewrite bool_decide_eq_true_2.
Qed.

Lemma to_string_short tid : is_int tid -> (String.length (to_string tid) <= 33)%nat.
Proof.
  assert (Hd : forall fuel n acc, (String.length (digits fuel n acc) <= fuel + String.length acc)%nat).
  { induction fuel as [|fuel IH]; intros n acc; cbn [digits]; [lia|]. destruct (n <? 10); simpl; [lia|].
    etrans; [apply IH|]. simpl. lia. }
  unfold is_int, int_min, int_max. intros Ht. unfold to_string.
  assert (Hlog : Z.log2 (Z.abs tid) <= 31).
  { change 31 with (Z.log2 (2 ^ 31)). apply Z.log2_le_mono. lia. }
  pose proof (Hd (S (Z.to_nat (Z.log2 (Z.abs tid)))) (Z.abs tid) "") as H. cbn [String.length] in H.
  destruct (tid <? 0); cbn [String.append String.length]; lia.
Qed.

Lemma recover_entry e m :
  entry_ok e -> recover_line (text e) m = (apply_entry m e, Ret tt).
Proof.
  destruct e as [tid op|tid st]; cbn [entry_ok text apply_entry]; intros He.
  - destruct (op_line_quiet tid op He) as [Hc Ha]. unfold recover_line. by rewrite Hc, Ha.
  - destruct He as [Ht Hst]. pose proof (to_string_short tid Ht) as Hlen.
    assert (Hx : forall w, has ":" w = false -> (String.length w <= 20)%nat ->
      extract_transaction_id (end_line tid w) = Ret tid).
    { intros w Hw Hl. unfold end_line. apply extract_end; try done.
      - by rewrite !has_app, Hw.
      - rewrite !length_append. simpl. unfold size_t_mod. lia. }
    unfold recover_line, end_known, end_line.
    rewrite (contains_header "c" "ommitted" tid) by first [done|apply header_committed].
    rewrite (contains_header "a" "borted" tid) by first [done|apply header_aborted].
    fold (end_line tid (if decide (st = COMMITTED) then "committed" else "aborted")).
    destruct st; [done| |]; rewrite Hx by (vm_compute; first [done|lia]); reflexivity.
Qed.

Lemma recover_entries es : forall m,
  Forall entry_ok es -> recover_lines (text <$> es) m = (foldl apply_entry m es, Ret tt).
Proof.
  induction es as [|e es IH]; intros m Hes; [done|]. apply Forall_cons in Hes as [He Hes].
  rewrite fmap_cons. cbn [recover_lines]. unfold prog_bind. by rewrite recover_entry, IH.
Qed.

Lemma text_one_line e : entry_ok e -> has nl (text e) = false.
Proof.
  destruct e as [tid op|tid st]; cbn [entry_ok text]; unfold op_line, end_line; intros He;
    rewrite !has_app, to_string_has by done.
  - destruct He as [-> _]. reflexivity.
  - by destruct st.
Qed.

Lemma recover_from_entries es m :
  Forall entry_ok es ->
  recover_from_log (Some (unlines nl (text <$> es))) m = (foldl apply_entry m es, Ret tt).
Proof.
  intros Hes. cbn [recover_from_log]. rewrite getlines_unlines; [by apply recover_entries|].
  apply Forall_fmap. eapply Forall_impl; [done|]. intros e He. by apply text_one_line.
Qed.

Lemma foldl_end_Some tid es : forall o, is_Some o -> is_Some (foldl (end_of tid) o es).
Proof.
  induction es as [|[? ?|i st] es IH]; intros o Ho; cbn [foldl end_of]; [done|by apply IH|].
  apply IH. by case_decide.
Qed.

(** The state a transaction of the table ends up with. *)
Lemma foldl_apply_lookup es : forall m tid,
  foldl apply_entry m es !! tid =
    (fun t => set_state (default (state t) (last_end tid es)) t) <$> m !! tid.
Proof.
  assert (Hg : forall es m tid o,
    (forall t, m !! tid = Some t -> default (state t) o = state t) ->
    foldl apply_entry m es !! tid =
      (fun t => set_state (default (state t) (foldl (end_of tid) o es)) t) <$> m !! tid).
  { clear es. induction es as [|e es IH]; intros m tid o Ho; cbn [foldl].
    - destruct (m !! tid) as [[i st ops]|] eqn:E; [|done]. specialize (Ho _ eq_refl). simpl in *.
      unfold set_state. simpl. by rewrite Ho.
    - destruct e as [i op|i st]; cbn [apply_entry end_of]; [by apply IH|].
      case_decide as E.
      + subst i. rewrite (IH _ _ (Some st)).
        * destruct (foldl_end_Some tid es (Some st)) as [y Hy]; [by eexists|]. rewrite Hy, lookup_alter_eq.
          by destruct (m !! tid).
        * intros t. rewrite lookup_alter_eq. destruct (m !! tid); [|done]. by intros [= <-].
      + rewrite (IH _ _ o); [by rewrite lookup_alter_ne|].
        intros t. rewrite lookup_alter_ne by done. apply Ho. }
  intros m tid. by apply Hg.
Qed.

(** ** Runs *)

Inductive tm_op : Type :=
| OBegin
| OAdd (tid : Z) (op : string)
| OCommit (tid : Z)
| OAbort (tid : Z)
| OCheckpoint (order : gmap Z Transaction -> list (Z * Transaction))
| OFlush (n : nat)
| OFlushCheckpoint (n : nat).

Definition tm_step (o : tm_op) : prog TransactionManager unit :=
  match o with
  | OBegin => (let! _ := begin_transaction in prog_ret tt)%prog
  | OAdd tid op => add_op tid op
  | OCommit tid => commit_transaction tid
  | OAbort tid => abort_transaction tid
  | OCheckpoint order => create_checkpoint order
  | OFlush n => flush n
  | OFlushCheckpoint n => flush_checkpoint n
  end.

Fixpoint tm_run (os : list tm_op) : prog TransactionManager unit :=
  match os with
  | [] => prog_ret tt
  | o :: os => (tm_step o ;;; tm_run os)%prog
  end.

Definition op_plain (o : tm_op) : Prop := match o with OAdd _ op => plain op | _ => True end.

(** What was logged, flushed or not, follows the text [old] that the file had before as the lines of
    [es], which end the transactions as the table has them. *)
Record tm_inv (old : string) (es : list entry) (s : TransactionManager) : Prop := {
  inv_file : exists now, files s !! wal_name s = Some now /\
    (now +:+ wal_buffer s) = (old +:+ unlines nl (text <$> es));
  inv_names : checkpoint_name s ≠ wal_name s;
  inv_ok : Forall entry_ok es;
  inv_last : 0 <= last_transaction_id s <= int_max;
  inv_ids tid t : transactions s !! tid = Some t ->
    id t = tid /\ 1 <= tid <= last_transaction_id s /\ Forall plain (operations t);
  inv_state tid : default ACTIVE (last_end tid es) = default ACTIVE (state <$> transactions s !! tid)
}.

Lemma cp_make_inv writable wal ckpt fs fs' s :
  ckpt ≠ wal -> newTransactionManager writable wal ckpt fs = (fs', Ret s) ->
  tm_inv (default "" (fs !! wal)) [] s /\ wal_name s = wal /\ wal_buffer s = "" /\ transactions s = ∅.
Proof.
  intros Hne. unfold newTransactionManager, open_wal, open_checkpoint, prog_bind, prog_gets.
  destruct (writable wal); [|done]. destruct (writable ckpt); [|done]. intros [= <- <-].
  split; [|done]. split; cbn [files wal_name wal_buffer checkpoint_name last_transaction_id transactions];
    try done.
  - unfold append_file. rewrite lookup_insert_ne, lookup_insert_eq by done.
    eexists. split; [done|]. by rewrite !append_nil_r.
Qed.

Lemma last_end_app tid es es' : last_end tid (es ++ es') = foldl (end_of tid) (last_end tid es) es'.
Proof. apply foldl_app. Qed.

Lemma last_end_ops tid i o ops : foldl (end_of tid) o (EOp i <$> ops) = o.
Proof. induction ops as [|op ops IH]; [done|]. by rewrite fmap_cons. Qed.

Lemma log_transaction_text t :
  log_transaction t = unlines nl (text <$> (EOp (id t) <$> operations t)).
Proof.
  unfold log_transaction. induction (operations t) as [|op ops IH]; [done|]. cbn [foldr]. rewrite IH.
  rewrite !fmap_cons. change (unlines nl (?x :: ?y)) with (x +:+ String nl (unlines nl y)).
  unfold newline. by rewrite app_string_assoc.
Qed.

Lemma unlines_app d ls ls' : unlines d (ls ++ ls') = (unlines d ls +:+ unlines d ls').
Proof.
  induction ls as [|l ls IH]; [done|]. change ((l :: ls) ++ ls') with (l :: (ls ++ ls')).
  change (unlines d (?x :: ?y)) with (x +:+ String d (unlines d y)). rewrite IH.
  by rewrite app_string_assoc.
Qed.

Lemma inv_log old es es' txt s tid t :
  tm_inv old es s -> transactions s !! tid = Some t ->
  txt = unlines nl (text <$> es') -> Forall entry_ok es' ->
  forall st, (forall i, foldl (end_of i) (last_end i es) es' = if decide (i = tid) then Some st else last_end i es) ->
  tm_inv old (es ++ es') (log txt (set_txn tid (set_state st t) s)).
Proof.
  intros [(now & Hnow & Htext) Hnames Hok Hlast Hids Hst] Ht -> Hes' st Hend.
  split; cbn [log set_txn set_table transactions files wal_name wal_buffer checkpoint_name last_transaction_id];
    [|done|by apply Forall_app|done| |].
  - exists now. split; [done|]. by rewrite <-app_string_assoc, Htext, app_string_assoc, fmap_app, unlines_app.
  - intros i u. rewrite lookup_insert. case_decide; [|apply Hids]. subst i. intros [= <-].
    exact (Hids tid t Ht).
  - intros i. rewrite last_end_app, Hend, lookup_insert.
    destruct (decide (i = tid)) as [->|]; [by rewrite decide_True|]. rewrite decide_False by done. apply Hst.
Qed.

Lemma substring_split s : forall n,
  (String.substring 0 n s +:+ String.substring n (String.length s - n) s) = s.
Proof.
  induction s as [|a s IH]; intros [|n]; try done; cbn [String.substring String.append String.length Nat.sub].
  - f_equal. apply substring_all.
  - f_equal. apply IH.
Qed.

(** Only the table matters besides the log. *)
Lemma inv_set_table old es s last m :
  tm_inv old es s -> 0 <= last <= int_max ->
  (forall tid t, m !! tid = Some t -> id t = tid /\ 1 <= tid <= last /\ Forall plain (operations t)) ->
  (forall tid, default ACTIVE (state <$> m !! tid) = default ACTIVE (state <$> transactions s !! tid)) ->
  tm_inv old es (set_table last m s).
Proof. intros [Hf Hn Hok Hl Hi Hst] Hlast Hids Hm. split; try done. intros tid. cbn. by rewrite Hm. Qed.

Lemma begin_inv old es s s' tid :
  tm_inv old es s -> begin_transaction s = (s', Ret tid) -> tm_inv old es s'.
Proof.
  intros Hinv. pose proof Hinv as [_ _ _ Hlast Hids _]. unfold begin_transaction.
  destruct (_ =? _) eqn:E; [done|]. apply Z.eqb_neq in E. intros [= <- <-].
  assert (Hfresh : transactions s !! (last_transaction_id s + 1) = None).
  { destruct (transactions s !! _) as [t|] eqn:Et; [|done]. apply Hids in Et. lia. }
  apply inv_set_table; [done|lia| |].
  - intros i u. rewrite lookup_insert. case_decide.
    + intros [= <-]. subst. repeat split; [lia|lia|apply Forall_nil_2].
    + intros Hu. apply Hids in Hu. repeat split; [apply Hu|lia|lia|apply Hu].
  - intros i. rewrite lookup_insert. case_decide; [|done]. subst i. by rewrite Hfresh.
Qed.

Lemma add_op_inv old es s s' tid op :
  plain op -> tm_inv old es s -> add_op tid op s = (s', Ret tt) -> tm_inv old es s'.
Proof.
  intros Hp Hinv. pose proof Hinv as [_ _ _ Hlast Hids _]. unfold add_op.
  destruct (transactions s !! tid) as [t|] eqn:Et; [|done]. intros [= <-].
  apply inv_set_table; [done|done| |].
  - intros i u. rewrite lookup_insert. case_decide; [|apply Hids]. subst i. intros [= <-].
    destruct (Hids tid t Et) as (H1 & H2 & H3). repeat split; try done; [lia|lia|].
    apply Forall_app. split; [done|]. by apply Forall_singleton.
  - intros i. rewrite lookup_insert. case_decide; [|done]. subst i. by rewrite Et.
Qed.

Lemma flush_table_inv old es s n : tm_inv old es s -> tm_inv old es (flush n s).1.
Proof.
  intros [(now & Hnow & Htext) Hnames Hok Hlast Hids Hst]. split; cbn; try done.
  unfold append_file. rewrite lookup_insert_eq, Hnow. eexists. split; [done|].
  cbn [default]. by rewrite app_string_assoc, substring_split.
Qed.

Lemma flush_checkpoint_inv old es s n : tm_inv old es s -> tm_inv old es (flush_checkpoint n s).1.
Proof.
  intros [Hf Hnames Hok Hlast Hids Hst]. split; cbn; try done.
  unfold append_file. by rewrite lookup_insert_ne.
Qed.

Lemma cp_step_inv old o es s s' :
  op_plain o -> tm_inv old es s -> tm_step o s = (s', Ret tt) -> exists es', tm_inv old es' s'.
Proof.
  intros Hp Hinv. pose proof Hinv as [_ _ Hok Hlast Hids _].
  assert (Hint : forall tid t, transactions s !! tid = Some t -> is_int tid).
  { intros tid t Ht. destruct (Hids tid t Ht) as (_ & H & _). unfold is_int, int_min, int_max in *. lia. }
  destruct o as [|tid op|tid|tid|order|n|n]; cbn [tm_step].
  - unfold prog_bind. destruct (begin_transaction s) as [s1 [tid|?| |?]] eqn:Hb; try done.
    intros [= <-]. exists es. by eapply begin_inv.
  - intros H. exists es. by eapply add_op_inv.
  - unfold commit_transaction. destruct (transactions s !! tid) as [t|] eqn:Et; [|intros [= <-]; by exists es].
    destruct (Hids tid t Et) as (H1 & H2 & H3). intros [= <-].
    exists (es ++ ((EOp tid <$> operations t) ++ [EEnd tid COMMITTED])).
    assert (Hlog : forall x y u, log x (log y u) = log (y +:+ x) u)
      by (intros x y u; unfold log; cbn; by rewrite app_string_assoc).
    rewrite Hlog. apply inv_log; [done|done| | |].
    + rewrite log_transaction_text, fmap_app, unlines_app. cbn [commit set_state id operations]. by rewrite H1.
    + apply Forall_app. split; [|apply Forall_singleton; split; [by eapply Hint|done]].
      apply Forall_fmap. by eapply Forall_impl.
    + intros i. rewrite foldl_app, last_end_ops. cbn [foldl end_of]. repeat case_decide; congruence.
  - unfold abort_transaction. destruct (transactions s !! tid) as [t|] eqn:Et; [|intros [= <-]; by exists es].
    intros [= <-]. exists (es ++ [EEnd tid ABORTED]). apply inv_log; [done|done|done| |].
    + apply Forall_singleton. split; [by eapply Hint|done].
    + intros i. cbn [foldl end_of]. repeat case_decide; congruence.
  - intros [= <-]. exists es. destruct Hinv. by split.
  - intros [= <-]. exists es. by apply flush_table_inv.
  - intros [= <-]. exists es. by apply flush_checkpoint_inv.
Qed.

Lemma tm_step_names o s s' r :
  tm_step o s = (s', r) -> wal_name s' = wal_name s /\ checkpoint_name s' = checkpoint_name s.
Proof.
  destruct o as [|tid op|tid|tid|order|n|n]; cbn [tm_step]; unfold prog_bind, prog_ret, begin_transaction, add_op,
    commit_transaction, abort_transaction, create_checkpoint, flush, flush_checkpoint;
    repeat case_match; intros; simplify_eq; done.
Qed.

Lemma cp_run_inv old os : forall es s s',
  Forall op_plain os -> tm_inv old es s -> tm_run os s = (s', Ret tt) ->
  wal_name s' = wal_name s /\ exists es', tm_inv old es' s'.
Proof.
  induction os as [|o os IH]; intros es s s' Hos Hinv Hrun.
  - injection Hrun as <-. split; [done|]. by exists es.
  - apply Forall_cons in Hos as [Ho Hos]. cbn [tm_run] in Hrun. unfold prog_bind in Hrun.
    destruct (tm_step o s) as [s1 [[]|?| |?]] eqn:Hs; try done.
    destruct (cp_step_inv old o es s s1 Ho Hinv Hs) as [es1 H1]. rewrite <-(proj1 (tm_step_names _ _ _ _ Hs)).
    by apply (IH es1 s1).
Qed.

Lemma last_end_not_active tid es : Forall entry_ok es -> last_end tid es ≠ Some ACTIVE.
Proof.
  intros Hes. unfold last_end. assert (H0 : (None : option TransactionState) ≠ Some ACTIVE) by done.
  revert H0. generalize (None : option TransactionState). induction Hes as [|e es He Hes IH]; intros o Ho; [done|].
  cbn [foldl]. apply IH. destruct e as [i op|i st]; cbn [end_of]; [done|]. case_decide; [|done].
  destruct He as [_ He]. congruence.
Qed.

(** The state recovery gives a transaction that ended with [st] before the failure. *)
Definition restored (st : TransactionState) (t : Transaction) : Transaction :=
  match st with ACTIVE => t | _ => set_state st t end.

Lemma recover_lines_app ls ls' : forall m,
  recover_lines (ls ++ ls') m = (recover_lines ls ;;; recover_lines ls')%prog m.
Proof.
  induction ls as [|l ls IH]; intros m; [done|]. cbn [app recover_lines]. unfold prog_bind in *.
  destruct (recover_line l m) as [m1 [[]|?| |?]]; [|done..]. by rewrite IH.
Qed.

(** The table [m'] has the outcomes of [s] for the transactions that ended there, and [m] otherwise. *)
Definition outcomes_of (s : TransactionManager) (m m' : gmap Z Transaction) : Prop :=
  forall tid, m' !! tid = restored (default ACTIVE (state <$> transactions s !! tid)) <$> m !! tid.

Lemma outcomes_of_self s m' : outcomes_of s (transactions s) m' -> m' = transactions s.
Proof.
  intros Hm. apply map_eq. intros tid. rewrite Hm.
  by destruct (transactions s !! tid) as [[i [] ops]|].
Qed.

(** What recovery makes of the lines [ls] that were there before, and then of those of the run. *)
Definition recovers (ls : list string) (s : TransactionManager) (m : gmap Z Transaction)
    (r : gmap Z Transaction * outcome unit) : Prop :=
  match recover_lines ls m with
  | (m1, Ret tt) => exists m', r = (m', Ret tt) /\ outcomes_of s m1 m'
  | failed => r = failed
  end.

Lemma recover_restores ls es s m :
  Forall (fun l => has nl l = false) ls -> tm_inv (unlines nl ls) es s -> wal_buffer s = "" ->
  recovers ls s m (recover_from_log (files s !! wal_name s) m).
Proof.
  intros Hls [(now & Hnow & Htext) Hnames Hok Hlast Hids Hst] Hb. rewrite Hb, append_nil_r in Htext.
  rewrite Hnow, Htext, <-unlines_app. cbn [recover_from_log]. rewrite getlines_unlines.
  2:{ apply Forall_app. split; [done|]. apply Forall_fmap. eapply Forall_impl; [done|].
      intros e He. by apply text_one_line. }
  rewrite recover_lines_app. unfold recovers, prog_bind.
  destruct (recover_lines ls m) as [m1 [[]|?| |?]]; [|done..].
  exists (foldl apply_entry m1 es). split; [by apply recover_entries|]. intros tid.
  rewrite foldl_apply_lookup, <-Hst. destruct (m1 !! tid) as [t|]; [|done]. cbn. f_equal.
  pose proof (last_end_not_active tid es Hok) as Hna.
  destruct (last_end tid es) as [[]|]; cbn; [done|done|done|]. by destruct t.
Qed.

(** C26.  Recovery restores the outcomes of a run.  A manager whose log is the file that [recover] opens
    and whose checkpoint file is another one is started on files whose log holds the complete lines [ls],
    runs any operations, commits, aborts, checkpoints and partial flushes that return, with operations
    that hold neither a newline nor the words the search looks for, and its log stream is flushed in the
    end.  Then recovery into any table first does what the earlier lines say, failing if they make it
    fail, and then marks committed exactly the transactions that this run committed and aborted the ones
    it aborted, changing nothing else.  On the manager itself the transactions that ended stay as they
    are; with no earlier lines recovery changes nothing at all. *)
Theorem checkpoint_recovery (writable readable : string -> bool) (ckpt : string) (fs fs' : Files)
    (ls : list string) (s0 : TransactionManager) (os : list tm_op) (s : TransactionManager) :
  newTransactionManager writable "wal.log" ckpt fs = (fs', Ret s0) -> ckpt ≠ "wal.log" ->
  readable "wal.log" = true ->
  default "" (fs !! "wal.log") = unlines nl ls -> Forall (fun l => has nl l = false) ls ->
  Forall op_plain os -> tm_run os s0 = (s, Ret tt) -> wal_buffer s = "" ->
  (forall m, recovers ls s m (recover_from_log (open_in readable "wal.log" (files s)) m)) /\
  (forall m1, recover_lines ls (transactions s) = (m1, Ret tt) ->
     exists s', recover readable s = (s', Ret tt) /\ outcomes_of s m1 (transactions s')) /\
  (ls = [] -> recover readable s = (s, Ret tt)).
Proof.
  intros Hnew Hne Hread Hold Hls Hos Hrun Hb.
  destruct (cp_make_inv _ _ _ _ _ _ Hne Hnew) as (H0 & Hname & _ & _). rewrite Hold in H0.
  destruct (cp_run_inv _ os [] s0 s Hos H0 Hrun) as [Hn [es Hinv]]. rewrite Hname in Hn.
  assert (Hall : forall m, recovers ls s m (recover_from_log (open_in readable "wal.log" (files s)) m)).
  { intros m. unfold open_in. rewrite Hread, <-Hn. by eapply recover_restores. }
  split; [done|]. pose proof (Hall (transactions s)) as Hself. unfold recovers in Hself. unfold recover. split.
  - intros m1 Hm1. rewrite Hm1 in Hself. destruct Hself as (m' & -> & Hm'). eexists. split; [done|]. done.
  - intros ->. cbn in Hself. destruct Hself as (m' & -> & Hm'). apply outcomes_of_self in Hm' as ->.
    by destruct s.
Qed.

(** [simulate_transactions], then the stream flushing its buffer. *)
Definition simulate_transactions : list tm_op :=
  [OBegin; OAdd 1 "UPDATE account SET balance = balance - 100 WHERE id = 1";
   OAdd 1 "UPDATE account SET balance = balance + 100 WHERE id = 2";
   OBegin; OAdd 2 "DELETE FROM account WHERE id = 3"; OCommit 1; OAbort 2; OCheckpoint map_to_list].

Definition started (fs : Files) : TransactionManager :=
  MkTM 0 ∅ "wal.log" "" "checkpoint.log" ""
    (append_file "checkpoint.log" "" (append_file "wal.log" "" fs)).

(** The log of an earlier run, which committed its transaction 3. *)
Definition earlier : Files := {[ "wal.log" := log_commit 3 ]}.

Definition four : gmap Z Transaction :=
  {[ 1 := newTransaction 1; 2 := newTransaction 2; 3 := newTransaction 3; 4 := newTransaction 4 ]}.

Lemma checkpoint_recovery_witness :
  let s := (tm_run (simulate_transactions ++ [OFlush 1000]) (started earlier)).1 in
  exists m', recover_from_log (open_in (fun _ => true) "wal.log" (files s))
      four = (m', Ret tt) /\
    (state <$> m' !! 1) = Some COMMITTED /\ (state <$> m' !! 2) = Some ABORTED /\
    (state <$> m' !! 3) = Some COMMITTED /\ (state <$> m' !! 4) = Some ACTIVE.
Proof.
  intros s.
  destruct (checkpoint_recovery (fun _ => true) (fun _ => true) "checkpoint.log" earlier
    (append_file "checkpoint.log" "" (append_file "wal.log" "" earlier)) [end_line 3 "committed"]
    (started earlier) (simulate_transactions ++ [OFlush 1000]) s) as [H _].
  1-5: first [reflexivity|done|repeat constructor].
  - repeat (apply Forall_cons_2; [first [exact I|split; [reflexivity|split; reflexivity]]|]). apply Forall_nil_2.
  - vm_compute. reflexivity.
  - vm_compute. reflexivity.
  - specialize (H four). unfold recovers in H.
    assert (E : recover_lines [end_line 3 "committed"] four = (alter (set_state COMMITTED) 3 four, Ret tt))
      by (vm_compute; reflexivity).
    rewrite E in H.
    destruct H as (m' & Hr & Hm). exists m'. split; [done|]. rewrite !Hm. vm_compute. done.
Defined.

(** A log under another name: whatever the run does, recovery reads a file the run never wrote. *)
Lemma other_log_not_recovered os : forall s s',
  wal_name s ≠ "wal.log" -> checkpoint_name s ≠ "wal.log" -> tm_run os s = (s', Ret tt) ->
  files s' !! "wal.log" = files s !! "wal.log".
Proof.
  induction os as [|o os IH]; intros s s' Hw Hc Hrun; [by injection Hrun as <-|].
  cbn [tm_run] in Hrun. unfold prog_bind in Hrun.
  destruct (tm_step o s) as [s1 [[]|?| |?]] eqn:Hs; try done.
  destruct (tm_step_names _ _ _ _ Hs) as [Hw1 Hc1].
  rewrite (IH s1 s') by congruence. clear IH Hrun Hw1 Hc1.
  destruct o as [|tid op|tid|tid|order|n|n]; cbn [tm_step] in Hs; unfold prog_bind, prog_ret, begin_transaction, add_op,
    commit_transaction, abort_transaction, create_checkpoint, flush, flush_checkpoint in Hs;
    repeat case_match; simplify_eq; try done; cbn [files]; unfold append_file; by rewrite lookup_insert_ne.
Qed.

Example other_log_recovery_fails :
  exists s0, (newTransactionManager (fun _ => true) "my.log" "checkpoint.log" ∅).2 = Ret s0 /\
    (recover (fun _ => true) (tm_run (simulate_transactions ++ [OFlush 1000]) s0).1).2 =
      Throw (runtime_error "Failed to open log file.").
Proof. eexists. split; [vm_compute; reflexivity|]. vm_compute. reflexivity. Qed.

(** Before the stream is flushed the log file is still empty: recovery changes nothing. *)
Example recovery_before_flush :
  let s := (tm_run simulate_transactions (started ∅)).1 in
  files s !! "wal.log" = Some "" /\
  recover_from_log (files s !! "wal.log") {[ 1 := newTransaction 1 ]} = ({[ 1 := newTransaction 1 ]}, Ret tt).
Proof. vm_compute. done. Qed.

(** An operation with the word in its text ends the transaction. *)
Example operation_looks_committed :
  (recover_lines [op_line 1 "SET status = 'committed'"] {[ 1 := newTransaction 1 ]}).1 =
    {[ 1 := MkTxn 1 COMMITTED [] ]}.
Proof. vm_compute. done. Qed.

(** ** The program *)

(** The destructors close the streams, which write what is left in their buffers. *)
Definition close_wal (s : TransactionManager) : TransactionManager :=
  (flush (String.length (wal_buffer s)) s).1.
Definition close_checkpoint (s : TransactionManager) : TransactionManager :=
  (flush_checkpoint (String.length (checkpoint_buffer s)) s).1.

(** [main]: what it prints, and the manager it leaves behind. *)
Definition main (writable readable : string -> bool) (fs : Files) : list string * outcome TransactionManager :=
  match (newTransactionManager writable "wal.log" "checkpoint.log" fs).2 with
  | Ret s =>
      match tm_run simulate_transactions s with
      | (s, Ret tt) =>
          match recover readable s with
          | (s, Ret tt) => (["Recovery process initiated..."; "Recovery completed."],
                            Ret (close_wal (close_checkpoint s)))
          | (_, Throw e) => (["Recovery process initiated..."], Throw e)
          | (_, Hang) => (["Recovery process initiated..."], Hang)
          | (_, Undef u) => (["Recovery process initiated..."], Undef u)
          end
      | (_, Throw e) => ([], Throw e)
      | (_, Hang) => ([], Hang)
      | (_, Undef u) => ([], Undef u)
      end
  | Throw e => ([], Throw e)
  | Hang => ([], Hang)
  | Undef u => ([], Undef u)
  end.

(** A first run recovers from an empty file, and leaves the log of its transactions behind. *)
Example checkpoint_main_first :
  exists s, main (fun _ => true) (fun _ => true) ∅ =
      (["Recovery process initiated..."; "Recovery completed."], Ret s) /\
    (state <$> transactions s !! 1) = Some COMMITTED /\
    getlines nl <$> (files s !! "wal.log") = Some
      ["Transaction 1: UPDATE account SET balance = balance - 100 WHERE id = 1";
       "Transaction 1: UPDATE account SET balance = balance + 100 WHERE id = 2";
       "Transaction 1 committed."; "Transaction 2 aborted."].
Proof. eexists. split; [vm_compute; reflexivity|]. split; reflexivity. Qed.

(** A file that cannot be opened ends [main] with an exception before anything is logged. *)
Example checkpoint_main_no_wal :
  main (fun name => bool_decide (name ≠ "wal.log")) (fun _ => true) ∅ =
    ([], Throw (runtime_error "Failed to open WAL file.")).
Proof. reflexivity. Qed.

(** The log survives the process and its transaction ids start again: a log left by an earlier run that
    aborted its first transaction makes recovery abort the committed one of this run. *)
Example old_log_aborts :
  exists s, main (fun _ => true) (fun _ => true) {[ "wal.log" := log_abort 1 ]} =
      (["Recovery process initiated..."; "Recovery completed."], Ret s) /\
    (state <$> transactions s !! 1) = Some ABORTED.
Proof. eexists. split; [vm_compute; reflexivity|]. reflexivity. Qed.
