(* ===== verification/ConsistentHashing.v ===== *)
(** * Consistent hashing ([networking/load_balancing/consistent_hashing.cpp])

    The hash ring, the round-robin balancer and the load balancer that keeps both.  The hash
    function is a parameter: the standard leaves [std::hash<string>] to the implementation. *)

From S2P Require Import Prelude Text.
Local Open Scope Z_scope.

(** A node is known by its id. *)
Record Node : Type := MkNode { id : string }.

#[export] Instance Node_eq_dec : EqDecision Node.
Proof. solve_decision. Defined.

(** ** The ring *)

(** [std::map<size_t, Node*>], in ascending order of its keys. *)
Abbreviation Ring := (list (Z * Node)).

(** [hashRing[hash] = node]. *)
Fixpoint ring_set (p : Z) (n : Node) (r : Ring) : Ring :=
  match r with
  | [] => [(p, n)]
  | (q, m) :: r =>
      if p <? q then (p, n) :: (q, m) :: r
      else if p =? q then (q, n) :: r
      else (q, m) :: ring_set p n r
  end.

(** [hashRing.erase(hash)]. *)
Definition ring_erase (p : Z) (r : Ring) : Ring := filter (fun e => e.1 ≠ p) r.

(** [hashRing.lower_bound(hash)]: the first entry whose key is not below it. *)
Fixpoint lower_bound (h : Z) (r : Ring) : option (Z * Node) :=
  match r with
  | [] => None
  | (q, m) :: r => if h <=? q then Some (q, m) else lower_bound h r
  end.

Section Hashing.
Context (hash : string -> Z).

Record ConsistentHashing : Type := MkCH { hashRing : Ring; numReplicas : nat }.

(** The point of a replica: [hashKey(node->id + to_string(i))]. *)
Definition point (n : Node) (i : nat) : Z := hash (id n +:+ to_string (Z.of_nat i)).

Definition addNode (n : Node) (s : ConsistentHashing) : ConsistentHashing :=
  MkCH (foldl (fun r i => ring_set (point n i) n r) (hashRing s) (seq 0 (numReplicas s)))
    (numReplicas s).

Definition removeNode (n : Node) (s : ConsistentHashing) : ConsistentHashing :=
  MkCH (foldl (fun r i => ring_erase (point n i) r) (hashRing s) (seq 0 (numReplicas s)))
    (numReplicas s).

(** [None] is [nullptr]. *)
Definition owner (h : Z) (r : Ring) : option Node :=
  match lower_bound h r with
  | Some (_, m) => Some m
  | None => snd <$> head r
  end.
Definition getNode (key : string) (s : ConsistentHashing) : option Node :=
  owner (hash key) (hashRing s).

(** ** The ring stays sorted, and the owner is the next point clockwise *)

Definition ring_sorted (r : Ring) : Prop := StronglySorted (fun a b => a.1 < b.1) r.

Lemma ring_set_Forall (P : Z * Node -> Prop) p n r :
  P (p, n) -> (forall q m, P (q, m) -> q = p -> P (q, n)) -> Forall P r -> Forall P (ring_set p n r).
Proof.
  intros Hp Hq. induction 1 as [|[q m] r Hqm Hr IH]; simpl; [by constructor|].
  destruct (p <? q); [by repeat constructor|]. destruct (Z.eqb_spec p q) as [->|].
  - constructor; eauto.
  - by constructor.
Qed.

Lemma ring_set_sorted p n r : ring_sorted r -> ring_sorted (ring_set p n r).
Proof.
  induction 1 as [|[q m] r Hs IH Hall]; simpl; [repeat constructor|].
  destruct (Z.ltb_spec p q) as [Hlt|Hge].
  - constructor; [by constructor|]. constructor; [done|].
    eapply Forall_impl; [exact Hall|]. simpl. lia.
  - destruct (Z.eqb_spec p q) as [->|Hne]; constructor; auto.
    apply ring_set_Forall; simpl; auto. lia.
Qed.

Lemma ring_erase_sorted p r : ring_sorted r -> ring_sorted (ring_erase p r).
Proof.
  unfold ring_erase. induction 1 as [|e r Hs IH Hall]; [constructor|]. rewrite filter_cons.
  case_decide; [|done]. constructor; [done|]. rewrite Forall_forall in Hall |- *.
  intros x Hx. apply list_elem_of_filter in Hx as [_ Hx]. auto.
Qed.

(** The successor of a hash on the ring: no point lies between them, going round. *)
Definition successor (h : Z) (r : Ring) (n : Node) : Prop :=
  exists q, (q, n) ∈ r /\
    ((h <= q /\ forall q' m, (q', m) ∈ r -> h <= q' -> q <= q') \/
     ((forall q' m, (q', m) ∈ r -> q' < h /\ q <= q'))).

Lemma lower_bound_Some h r q m :
  ring_sorted r -> lower_bound h r = Some (q, m) ->
  (q, m) ∈ r /\ h <= q /\ forall q' m', (q', m') ∈ r -> h <= q' -> q <= q'.
Proof.
  induction 1 as [|[a n] r Hs IH Hall]; simpl; [done|].
  destruct (Z.leb_spec h a) as [Hle|Hgt].
  - intros [= <- <-]. split; [left|]. split; [done|]. intros q' m' Hin _.
    apply elem_of_cons in Hin as [[= -> ->]|Hin]; [lia|].
    rewrite Forall_forall in Hall. apply Hall in Hin. simpl in Hin. lia.
  - intros Hl. destruct (IH Hl) as (Hin & Hle & Hmin). split; [by right|]. split; [done|].
    intros q' m' Hin' Hle'. apply elem_of_cons in Hin' as [[= -> ->]|Hin']; [lia|eauto].
Qed.

Lemma lower_bound_None h r : lower_bound h r = None <-> forall q m, (q, m) ∈ r -> q < h.
Proof.
  induction r as [|[a n] r IH]; simpl.
  - split; [intros _ q m H; by apply not_elem_of_nil in H|done].
  - destruct (Z.leb_spec h a) as [Hle|Hgt].
    + split; [done|]. intros H. specialize (H a n ltac:(left)). lia.
    + rewrite IH. split; intros H q m Hin; [|apply (H q m); by right].
      apply elem_of_cons in Hin as [[= -> ->]|Hin]; [done|eauto].
Qed.

Lemma owner_successor h r n : ring_sorted r -> owner h r = Some n -> successor h r n.
Proof.
  intros Hs. unfold owner. destruct (lower_bound h r) as [[q m]|] eqn:Hl.
  - intros [= ->]. destruct (lower_bound_Some h r q n Hs Hl) as (Hin & Hle & Hmin).
    exists q. split; [done|]. left. eauto.
  - intros Hh. destruct r as [|[q m] r]; [done|]. simpl in Hh. simplify_eq.
    exists q. split; [left|]. right. intros q' m' Hin.
    split; [by apply (proj1 (lower_bound_None h ((q, n) :: r)) Hl q' m')|].
    apply elem_of_cons in Hin as [[= -> ->]|Hin]; [done|].
    apply StronglySorted_inv in Hs as [_ Hall]. rewrite Forall_forall in Hall.
    apply Hall in Hin. simpl in Hin. lia.
Qed.

Lemma owner_None h r : owner h r = None <-> r = [].
Proof.
  unfold owner. split; [|by intros ->]. destruct r as [|[q m] r]; [done|].
  by destruct (lower_bound h ((q, m) :: r)) as [[? ?]|].
Qed.

(** ** Minimal disruption *)

Lemma lower_bound_set h p n r :
  match lower_bound h (ring_set p n r) with
  | Some (_, m) => m = n \/ snd <$> lower_bound h r = Some m
  | None => lower_bound h r = None
  end.
Proof.
  induction r as [|[q m] r IH]; simpl.
  - destruct (h <=? p); auto.
  - destruct (Z.ltb_spec p q) as [Hlt|Hge]; simpl.
    + destruct (h <=? p); [auto|]. destruct (h <=? q); [by right|].
      destruct (lower_bound h r) as [[? ?]|]; [by right|done].
    + destruct (Z.eqb_spec p q) as [->|Hne]; simpl.
      * destruct (h <=? q); [auto|]. destruct (lower_bound h r) as [[? ?]|]; [by right|done].
      * destruct (h <=? q); [by right|]. done.
Qed.

Lemma head_set p n r : snd <$> head (ring_set p n r) = Some n \/ head (ring_set p n r) = head r.
Proof.
  destruct r as [|[q m] r]; simpl; [by left|]. destruct (p <? q); [by left|].
  destruct (p =? q); [by left|by right].
Qed.

Lemma owner_set h p n r : owner h (ring_set p n r) = Some n \/ owner h (ring_set p n r) = owner h r.
Proof.
  unfold owner. pose proof (lower_bound_set h p n r) as Hl.
  destruct (lower_bound h (ring_set p n r)) as [[q m]|].
  - destruct Hl as [->|Hl]; [by left|]. right. destruct (lower_bound h r) as [[? ?]|]; simpl in Hl; congruence.
  - rewrite Hl. destruct (head_set p n r) as [H|H]; [by left|]. right. by rewrite H.
Qed.

(** The entry that [getNode] takes a key's node from. *)
Definition owner_point (h : Z) (r : Ring) : option (Z * Node) :=
  match lower_bound h r with Some e => Some e | None => head r end.

Lemma owner_owner_point h r : owner h r = snd <$> owner_point h r.
Proof. unfold owner, owner_point. by destruct (lower_bound h r) as [[? ?]|]. Qed.

Lemma lower_bound_erase h p r :
  (forall m, lower_bound h r ≠ Some (p, m)) -> lower_bound h (ring_erase p r) = lower_bound h r.
Proof.
  unfold ring_erase. induction r as [|[q m] r IH]; intros Hne; [done|].
  rewrite filter_cons. simpl in *. destruct (decide (q = p)) as [->|Hqp].
  - rewrite decide_False by auto. destruct (h <=? p) eqn:Hh; [by destruct (Hne m)|auto].
  - rewrite decide_True by done. simpl. destruct (h <=? q); auto.
Qed.

(** Erasing a point moves only the keys that point owned. *)
Lemma owner_point_erase h p r :
  (forall m, owner_point h r ≠ Some (p, m)) -> owner_point h (ring_erase p r) = owner_point h r.
Proof.
  unfold owner_point. intros Hne. rewrite lower_bound_erase.
  - destruct (lower_bound h r) as [e|]; [done|]. destruct r as [|[q m] r]; [done|].
    unfold ring_erase. rewrite filter_cons. simpl in *.
    rewrite decide_True; [done|]. intros ->. by apply (Hne m).
  - intros m Hl. apply (Hne m). by rewrite Hl.
Qed.

(** Every point of the ring was put there for its node. *)
Definition placed (s : ConsistentHashing) : Prop :=
  forall q m, (q, m) ∈ hashRing s -> exists i, (i < numReplicas s)%nat /\ q = point m i.

Lemma elem_of_ring_set p n r q m :
  (q, m) ∈ ring_set p n r -> (q = p /\ m = n) \/ (q, m) ∈ r.
Proof.
  induction r as [|[a b] r IH]; simpl.
  - intros H. apply list_elem_of_singleton in H as [= -> ->]. by left.
  - destruct (p <? a); [rewrite elem_of_cons; naive_solver|].
    destruct (Z.eqb_spec p a) as [->|]; rewrite !elem_of_cons; naive_solver.
Qed.

Definition ch_inv (s : ConsistentHashing) : Prop := ring_sorted (hashRing s) /\ placed s.

Lemma addNode_inv n s : ch_inv s -> ch_inv (addNode n s).
Proof.
  intros [Hs Hp]. unfold addNode, ch_inv, placed. cbn [hashRing numReplicas].
  assert (Hi : Forall (fun i => (i < numReplicas s)%nat) (seq 0 (numReplicas s))).
  { apply Forall_forall. intros i Hin. apply elem_of_seq in Hin. lia. }
  revert Hi. unfold placed in Hp. revert Hs Hp. generalize (hashRing s) as r.
  induction (seq 0 (numReplicas s)) as [|i js IH]; intros r Hs Hp Hi; simpl; [done|].
  apply Forall_cons in Hi as [Hi Hjs]. apply IH; [by apply ring_set_sorted| |done].
  intros q m Hin. apply elem_of_ring_set in Hin as [[-> ->]|Hin]; eauto.
Qed.

Lemma elem_of_erases e n r l :
  e ∈ foldl (fun r i => ring_erase (point n i) r) r l <->
  e ∈ r /\ forall i, i ∈ l -> e.1 ≠ point n i.
Proof.
  revert r. induction l as [|i l IH]; intros r; simpl.
  - split; [intros H; split; [done|]|by intros [? _]]. intros i Hi. by apply not_elem_of_nil in Hi.
  - rewrite IH. unfold ring_erase. rewrite list_elem_of_filter. setoid_rewrite elem_of_cons.
    naive_solver.
Qed.

Lemma removeNode_inv n s : ch_inv s -> ch_inv (removeNode n s).
Proof.
  intros [Hs Hp]. split.
  - unfold removeNode. cbn [hashRing]. revert Hs. generalize (hashRing s) as r.
    induction (seq 0 (numReplicas s)) as [|i js IH]; intros r Hs; simpl; [done|].
    apply IH, ring_erase_sorted, Hs.
  - intros q m Hin. apply elem_of_erases in Hin as [Hin _]. by apply Hp.
Qed.

Lemma removeNode_gone n s : ch_inv s -> forall q, (q, n) ∉ hashRing (removeNode n s).
Proof.
  intros [_ Hp] q Hin. apply elem_of_erases in Hin as [Hin Hno].
  destruct (Hp q n Hin) as (i & Hi & ->). apply (Hno i); [|done]. apply elem_of_seq. lia.
Qed.

Lemma owner_elem h r n : owner h r = Some n -> exists q, (q, n) ∈ r.
Proof.
  unfold owner. destruct (lower_bound h r) as [[q m]|] eqn:Hl.
  - intros [= ->]. exists q. clear - Hl. induction r as [|[a b] r IH]; simpl in *; [done|].
    destruct (h <=? a); [simplify_eq; left|right; auto].
  - destruct r as [|[q m] r]; [done|]. intros [= ->]. exists q. left.
Qed.

Lemma addNode_owner n s h :
  owner h (hashRing (addNode n s)) = Some n \/
  owner h (hashRing (addNode n s)) = owner h (hashRing s).
Proof.
  unfold addNode. cbn [hashRing]. generalize (hashRing s) as r.
  induction (seq 0 (numReplicas s)) as [|i js IH]; intros r; simpl; [by right|].
  destruct (IH (ring_set (point n i) n r)) as [H|H]; [by left|]. rewrite H. apply owner_set.
Qed.

Lemma owner_point_elem h r e : owner_point h r = Some e -> e ∈ r.
Proof.
  unfold owner_point. destruct (lower_bound h r) as [x|] eqn:Hl.
  - intros [= ->]. induction r as [|[a b] r IH]; simpl in *; [done|].
    destruct (h <=? a); [simplify_eq; left|right; auto].
  - destruct r; [done|]. intros [= ->]. left.
Qed.

(** Removing a node moves only the keys whose entry stands at a point of the removed id. *)
Lemma removeNode_owner_point n s h :
  owner_point h (hashRing (removeNode n s)) = owner_point h (hashRing s) \/
  exists i m, (i < numReplicas s)%nat /\ owner_point h (hashRing s) = Some (point n i, m).
Proof.
  unfold removeNode. cbn [hashRing].
  assert (Hi : Forall (fun i => (i < numReplicas s)%nat) (seq 0 (numReplicas s))).
  { apply Forall_forall. intros i Hin. apply elem_of_seq in Hin. lia. }
  revert Hi. generalize (hashRing s) as r.
  induction (seq 0 (numReplicas s)) as [|i js IH]; intros r Hi; simpl; [by left|].
  apply Forall_cons in Hi as [Hi Hjs].
  destruct (owner_point h r) as [[q m]|] eqn:Ho; [destruct (decide (q = point n i)) as [->|Hq]|].
  - right. eauto.
  - rewrite <-Ho. rewrite <-(owner_point_erase h (point n i) r) by (rewrite Ho; congruence). auto.
  - rewrite <-Ho. rewrite <-(owner_point_erase h (point n i) r) by (rewrite Ho; congruence). auto.
Qed.
End Hashing.

(** ** The round-robin balancer and the load balancer *)

Record RoundRobinBalancer : Type := MkRR { nodes : list Node; currentIndex : Z }.

Definition rr_addNode (n : Node) (b : RoundRobinBalancer) : RoundRobinBalancer :=
  MkRR (nodes b ++ [n]) (currentIndex b).

Definition rr_removeNode (i : string) (b : RoundRobinBalancer) : RoundRobinBalancer :=
  MkRR (filter (fun n => id n ≠ i) (nodes b)) (currentIndex b).

(** [int idx = currentIndex.fetch_add(1) % nodes.size()]: the counter wraps around, and converts to
    [size_t] before the division. *)
Definition getNextNode (b : RoundRobinBalancer) : RoundRobinBalancer * option Node :=
  match nodes b with
  | [] => (b, None)
  | _ =>
      let idx := to_size_t (currentIndex b) mod Z.of_nat (length (nodes b)) in
      (MkRR (nodes b) (wrap_int (currentIndex b + 1)), nodes b !! Z.to_nat idx)
  end.

Record LoadBalancer : Type := MkLB {
  consistentHasher : ConsistentHashing;
  roundRobinBalancer : RoundRobinBalancer
}.

Definition lb_make : LoadBalancer := MkLB (MkCH [] 100) (MkRR [] 0).

Definition lb_addNode (hash : string -> Z) (i : string) (s : LoadBalancer) : LoadBalancer :=
  let node := MkNode i in
  MkLB (addNode hash node (consistentHasher s)) (rr_addNode node (roundRobinBalancer s)).

Definition lb_removeNode (hash : string -> Z) (i : string) (s : LoadBalancer) : LoadBalancer :=
  MkLB (removeNode hash (MkNode i) (consistentHasher s)) (rr_removeNode i (roundRobinBalancer s)).

Definition getNodeForKey (hash : string -> Z) (key : string) (s : LoadBalancer) : option Node :=
  getNode hash key (consistentHasher s).

Definition getRoundRobinNode (s : LoadBalancer) : LoadBalancer * option Node :=
  let '(b, n) := getNextNode (roundRobinBalancer s) in (MkLB (consistentHasher s) b, n).

Inductive lb_op : Type :=
| LAdd (i : string)
| LRemove (i : string)
| LNext.

Definition lb_step (hash : string -> Z) (s : LoadBalancer) (o : lb_op) : LoadBalancer :=
  match o with
  | LAdd i => lb_addNode hash i s
  | LRemove i => lb_removeNode hash i s
  | LNext => fst (getRoundRobinNode s)
  end.

Definition lb_run (hash : string -> Z) (os : list lb_op) : LoadBalancer :=
  foldl (lb_step hash) lb_make os.

(** ** Reachable states *)

(** The ids added and not removed since. *)
Definition live_step (L : gset string) (o : lb_op) : gset string :=
  match o with
  | LAdd i => {[i]} ∪ L
  | LRemove i => L ∖ {[i]}
  | LNext => L
  end.
Definition live (os : list lb_op) : gset string := foldl live_step ∅ os.

(** What every operation keeps. *)
Definition lb_inv (hash : string -> Z) (L : gset string) (s : LoadBalancer) : Prop :=
  ch_inv hash (consistentHasher s) /\
  (forall q m, (q, m) ∈ hashRing (consistentHasher s) -> id m ∈ L) /\
  (forall m, m ∈ nodes (roundRobinBalancer s) -> id m ∈ L).

Lemma elem_of_addNode hash n s e :
  e ∈ hashRing (addNode hash n s) -> e ∈ hashRing s \/ e.2 = n.
Proof.
  unfold addNode. cbn [hashRing]. generalize (hashRing s) as r.
  induction (seq 0 (numReplicas s)) as [|i js IH]; intros r; simpl; [by left|].
  intros Hin. destruct (IH _ Hin) as [H|H]; [|by right]. destruct e as [q m].
  apply elem_of_ring_set in H as [[-> ->]|H]; [by right|by left].
Qed.

Lemma lb_step_inv hash L s o : lb_inv hash L s -> lb_inv hash (live_step L o) (lb_step hash s o).
Proof.
  intros (Hi & Hr & Hn). destruct o as [i|i|]; cbn [lb_step live_step].
  - split; [by apply addNode_inv|]. split.
    + intros q m Hin. apply elem_of_addNode in Hin as [Hin|Hin]; simpl in Hin; [|subst; set_solver].
      apply Hr in Hin. set_solver.
    + intros m Hin. simpl in Hin. apply elem_of_app in Hin as [Hin|Hin]; [apply Hn in Hin; set_solver|].
      apply list_elem_of_singleton in Hin as ->. simpl. set_solver.
  - split; [by apply removeNode_inv|]. split.
    + intros q m Hin. pose proof (removeNode_gone hash (MkNode i) _ Hi q) as Hg.
      assert (Hne : id m ≠ i) by (intros <-; apply Hg; by destruct m).
      apply elem_of_erases in Hin as [Hin _]. apply Hr in Hin. set_solver.
    + intros m Hin. simpl in Hin. apply list_elem_of_filter in Hin as [Hne Hin].
      apply Hn in Hin. set_solver.
  - unfold getRoundRobinNode. destruct (getNextNode (roundRobinBalancer s)) as [b x] eqn:Hb.
    split; [done|]. split; [done|]. simpl. intros m Hin. apply Hn. revert Hb. unfold getNextNode.
    destruct (nodes (roundRobinBalancer s)) as [|y l] eqn:Hl; intros [= <- _]; [|done].
    by rewrite Hl in Hin.
Qed.

Lemma lb_run_inv hash os : lb_inv hash (live os) (lb_run hash os).
Proof.
  unfold lb_run, live. assert (H0 : lb_inv hash ∅ lb_make).
  { split; [split; [apply SSorted_nil|]|split].
    - intros q m H. by apply not_elem_of_nil in H.
    - intros q m H. by apply not_elem_of_nil in H.
    - intros m H. by apply not_elem_of_nil in H. }
  revert H0. generalize lb_make as s, (∅ : gset string) as L.
  induction os as [|o os IH]; intros s L H0; [done|]. simpl. by apply IH, lb_step_inv.
Qed.

(** After any additions and removals of nodes, [getNodeForKey] returns the node of the first
    ring point at or after the key's hash, going round, and that node was added and not removed
    since; it returns no node only from an empty ring. *)
Lemma consistent_hash_successor (hash : string -> Z) (os : list lb_op) (key : string) :
  let s := lb_run hash os in
  match getNodeForKey hash key s with
  | Some n => successor (hash key) (hashRing (consistentHasher s)) n /\ id n ∈ live os
  | None => hashRing (consistentHasher s) = []
  end.
Proof.
  intros s. destruct (lb_run_inv hash os) as ((Hs & _) & Hr & _). fold s in Hs, Hr.
  unfold getNodeForKey, getNode.
  destruct (owner (hash key) (hashRing (consistentHasher s))) as [n|] eqn:Ho.
  - split; [by apply owner_successor|]. apply owner_elem in Ho as [q Hq]. eauto.
  - by apply owner_None in Ho.
Qed.

Lemma lb_run_replicas hash os : numReplicas (consistentHasher (lb_run hash os)) = 100%nat.
Proof.
  unfold lb_run. assert (H : numReplicas (consistentHasher lb_make) = 100%nat) by done. revert H.
  generalize lb_make as s. induction os as [|o os IH]; intros s H; [done|]. simpl. apply IH.
  destruct o; [done|done|]. cbn [lb_step]. unfold getRoundRobinNode.
  by destruct (getNextNode (roundRobinBalancer s)).
Qed.

(** No point of the id [i] is a point of another id of [L]. *)
Definition points_apart (hash : string -> Z) (i : string) (L : gset string) : Prop :=
  forall m j k, m ∈ L -> m ≠ i -> (j < 100)%nat -> (k < 100)%nat ->
  point hash (MkNode i) j ≠ point hash (MkNode m) k.

(** C38.  Minimal disruption, after any additions and removals of nodes and for any hash.  Adding a
    node moves keys only to that node.  After a removal no key is served by the removed node, and a
    key moves only when the ring entry it was served from stands at a point of the removed id; that
    entry can be another node's.  When no point of the removed id is a point of another node of the
    ring, only the keys that the removed node served move. *)
Theorem consistent_hash_minimal (hash : string -> Z) (os : list lb_op) (i key : string) :
  let s := lb_run hash os in
  let before := getNodeForKey hash key s in
  let after := getNodeForKey hash key (lb_removeNode hash i s) in
  (getNodeForKey hash key (lb_addNode hash i s) = Some (MkNode i) \/
   getNodeForKey hash key (lb_addNode hash i s) = before) /\
  after ≠ Some (MkNode i) /\
  (after = before \/ exists j m, (j < 100)%nat /\
     owner_point (hash key) (hashRing (consistentHasher s)) = Some (point hash (MkNode i) j, m)) /\
  (points_apart hash i (live os) -> before ≠ Some (MkNode i) -> after = before).
Proof.
  intros s before after. destruct (lb_run_inv hash os) as (Hi & Hr & _). fold s in Hi, Hr.
  pose proof (lb_run_replicas hash os) as Hn. fold s in Hn.
  assert (Hm : after = before \/ exists j m, (j < 100)%nat /\
     owner_point (hash key) (hashRing (consistentHasher s)) = Some (point hash (MkNode i) j, m)).
  { unfold after, before, getNodeForKey, getNode. cbn [lb_removeNode consistentHasher].
    destruct (removeNode_owner_point hash (MkNode i) (consistentHasher s) (hash key)) as [H|H].
    - left. by rewrite !owner_owner_point, H.
    - right. by rewrite Hn in H. }
  split_and!; [apply addNode_owner| |done|].
  - unfold after, getNodeForKey, getNode. intros Ho. apply owner_elem in Ho as [q Hq].
    by apply removeNode_gone in Hq.
  - intros Hc Hne. destruct Hm as [H|(j & m & Hj & Ho)]; [done|]. exfalso.
    pose proof (owner_point_elem _ _ _ Ho) as Hin. destruct (proj2 Hi _ _ Hin) as (k & Hk & Hp).
    rewrite Hn in Hk. destruct m as [m]. destruct (decide (m = i)) as [->|Hmi].
    + apply Hne. unfold before, getNodeForKey, getNode. by rewrite owner_owner_point, Ho.
    + by apply (Hc m j k (Hr _ _ Hin) Hmi Hj Hk).
Qed.

(** A hash that keeps the points of ids with different first letters apart. *)
Definition first_letter (s : string) : Z :=
  match s with String c _ => 200 - Z.of_nat (Ascii.nat_of_ascii c) | EmptyString => 0 end.

Lemma consistent_hash_minimal_witness :
  let s := lb_run first_letter [LAdd "a"; LAdd "b"] in
  points_apart first_letter "b" (live [LAdd "a"; LAdd "b"]) /\
  getNodeForKey first_letter "aa" s = Some (MkNode "a") /\
  getNodeForKey first_letter "aa" (lb_removeNode first_letter "b" s) = getNodeForKey first_letter "aa" s.
Proof.
  intros s. assert (Hc : points_apart first_letter "b" (live [LAdd "a"; LAdd "b"])).
  { intros m j k Hm Hne _ _. unfold live in Hm. simpl in Hm.
    rewrite !elem_of_union, !elem_of_singleton in Hm.
    destruct Hm as [->|[->|Hm]]; [done|done|].
    by apply elem_of_empty in Hm. }
  assert (Hk : getNodeForKey first_letter "aa" s = Some (MkNode "a")) by (vm_compute; reflexivity).
  split; [exact Hc|]. split; [exact Hk|].
  apply (consistent_hash_minimal first_letter [LAdd "a"; LAdd "b"] "b" "aa"); [exact Hc|].
  fold s. rewrite Hk. congruence.
Defined.

(** The points of different ids can be the same for every hash: the text of a point does not say where
    the id ends.  Removing [Node1] then takes a point of [Node11] off the ring, and keys that [Node11]
    served move although it is still there. *)
Example shared_points (hash : string -> Z) :
  point hash (MkNode "Node1") 10 = point hash (MkNode "Node11") 0.
Proof. reflexivity. Qed.

Definition shared_hash (s : string) : Z :=
  if decide (s = "key") then 5 else if decide (s = "Node110") then 7 else 100 + Z.of_nat (String.length s).

Example removal_moves_others_key :
  let s := lb_run shared_hash [LAdd "Node1"; LAdd "Node11"; LAdd "B"] in
  getNodeForKey shared_hash "key" s = Some (MkNode "Node11") /\
  getNodeForKey shared_hash "key" (lb_removeNode shared_hash "Node1" s) = Some (MkNode "B").
Proof. vm_compute. by split. Qed.

(** ** Round robin *)

(** The nodes that [k] calls in a row return. *)
Fixpoint next_nodes (k : nat) (b : RoundRobinBalancer) : list (option Node) :=
  match k with
  | O => []
  | S k => let '(b', n) := getNextNode b in n :: next_nodes k b'
  end.

Lemma getNextNode_ok b :
  nodes b ≠ [] -> 0 <= currentIndex b < int_max ->
  getNextNode b = (MkRR (nodes b) (currentIndex b + 1),
    nodes b !! Z.to_nat (currentIndex b mod Z.of_nat (length (nodes b)))).
Proof.
  intros Hne Hc. unfold getNextNode. destruct (nodes b) as [|x l]; [done|].
  unfold int_max in Hc. f_equal.
  - f_equal. unfold wrap_int. rewrite Z.mod_small by lia. lia.
  - unfold to_size_t, size_t_mod. by rewrite (Z.mod_small (currentIndex b)) by lia.
Qed.

Lemma next_nodes_spec k : forall b,
  nodes b ≠ [] -> 0 <= currentIndex b -> currentIndex b + Z.of_nat k <= int_max ->
  next_nodes k b = (fun j => nodes b !! Z.to_nat ((currentIndex b + Z.of_nat j) mod Z.of_nat (length (nodes b))))
                     <$> seq 0 k.
Proof.
  induction k as [|k IH]; intros b Hne Hc Hk; [done|]. cbn [next_nodes].
  rewrite getNextNode_ok by (done || lia). rewrite IH by (simpl; done || lia).
  cbn [seq fmap list_fmap nodes currentIndex]. rewrite Z.add_0_r. f_equal.
  rewrite <-fmap_S_seq, <-list_fmap_compose. apply list_fmap_ext. intros j x _. simpl.
  do 3 f_equal. lia.
Qed.

(** Rotating the positions of a list visits each of them once. *)
Lemma rotation_perm {A : Type} (l : list A) (c : Z) :
  0 <= c -> l ≠ [] ->
  (fun j => l !! Z.to_nat ((c + Z.of_nat j) mod Z.of_nat (length l))) <$> seq 0 (length l)
  ≡ₚ Some <$> l.
Proof.
  intros Hc Hne. assert (Hpos : 0 < Z.of_nat (length l)) by (destruct l; [done|simpl; lia]).
  set (r := Z.to_nat (c mod Z.of_nat (length l))).
  assert (Hr : (r < length l)%nat) by (pose proof (Z.mod_pos_bound c _ Hpos); lia).
  transitivity (Some <$> (drop r l ++ take r l)).
  2: { by rewrite (comm (++)), take_drop. }
  match goal with |- ?a ≡ₚ ?b => assert (Heq : a = b); [|by rewrite Heq] end.
  apply (list_eq_same_length _ _ (length l)).
  { rewrite length_fmap, length_app, length_drop, length_take. lia. }
  { by rewrite length_fmap, length_seq. }
  intros j x y Hj Hx Hy. rewrite list_lookup_fmap, lookup_seq_lt in Hx by done. simpl in Hx.
  injection Hx as <-. rewrite list_lookup_fmap in Hy.
  assert (Hm : Z.to_nat ((c + Z.of_nat j) mod Z.of_nat (length l)) = ((r + j) mod length l)%nat).
  { rewrite <-Z.add_mod_idemp_l by lia. unfold r.
    pose proof (Z.mod_pos_bound c _ Hpos). rewrite Z2Nat.inj_mod by lia.
    rewrite Z2Nat.inj_add by lia. by rewrite !Nat2Z.id. }
  rewrite Hm. destruct (decide (r + j < length l)%nat) as [Hlt|Hge].
  - rewrite Nat.mod_small by done. rewrite lookup_app_l in Hy by (rewrite length_drop; lia).
    rewrite lookup_drop in Hy. destruct (l !! (r + j)%nat); simpl in Hy; congruence.
  - rewrite lookup_app_r in Hy by (rewrite length_drop; lia).
    rewrite length_drop, lookup_take_lt in Hy by lia.
    replace ((r + j) mod length l)%nat with (j - (length l - r))%nat; [destruct (l !! _); simpl in Hy; congruence|].
    apply Nat.mod_unique with 1%nat; lia.
Qed.

(** Round robin is fair: as long as the counter has not wrapped, any [n] calls in a row on [n]
    nodes return every node exactly once. *)
Lemma round_robin_fair (b : RoundRobinBalancer) :
  nodes b ≠ [] -> 0 <= currentIndex b -> currentIndex b + Z.of_nat (length (nodes b)) <= int_max ->
  next_nodes (length (nodes b)) b ≡ₚ Some <$> nodes b.
Proof. intros Hne Hc Hk. rewrite next_nodes_spec by done. by apply rotation_perm. Qed.

Lemma round_robin_fair_witness :
  let b := MkRR [MkNode "Node1"; MkNode "Node2"; MkNode "Node3"] 5 in
  next_nodes 3 b ≡ₚ Some <$> nodes b /\
  next_nodes 3 b = [Some (MkNode "Node3"); Some (MkNode "Node1"); Some (MkNode "Node2")].
Proof.
  intros b. split; [|vm_compute; reflexivity].
  apply (round_robin_fair b); [done|simpl; lia|unfold int_max; simpl; lia].
Defined.

(** ** The server and its clients *)

Record ClientRequest : Type := MkRequest { key : string }.

(** The lines that [displayNodes] prints, in the order of the ring. *)
Definition displayNodes (s : ConsistentHashing) : list string :=
  (fun e => "Hash: " +:+ to_string e.1 +:+ ", Node ID: " +:+ id e.2) <$> hashRing s.

Definition handled (key node : string) : string :=
  "Request for key: " +:+ key +:+ " handled by node: " +:+ node.
Definition no_nodes : string := "No available nodes to handle the request.".

(** [Server::handleRequest]: the line it prints. *)
Definition handleRequest (hash : string -> Z) (s : LoadBalancer) (request : ClientRequest) : string :=
  match getNodeForKey hash (key request) s with
  | Some node => handled (key request) (id node)
  | None => no_nodes
  end.

(** [Server::receiveRequest] runs it in a thread and joins that thread. *)
Definition receiveRequest (hash : string -> Z) (s : LoadBalancer) (request : ClientRequest)
    (out : list string) : list string := out ++ [handleRequest hash s request].

Definition request_keys : list string := ["apple"; "banana"; "cherry"; "date"; "elderberry"].

(** The loop of [simulateClientRequests] with the values that [rand] returns to it, which are not
    negative: [keys[rand() % keys.size()]]. *)
Fixpoint simulateClientRequests (hash : string -> Z) (s : LoadBalancer) (rands : list nat)
    (out : list string) : outcome (list string) :=
  match rands with
  | [] => Ret out
  | r :: rands =>
      match request_keys !! (r mod length request_keys)%nat with
      | Some k => simulateClientRequests hash s rands (receiveRequest hash s (MkRequest k) out)
      | None => Undef index_out_of_range
      end
  end.

(** Every request of a client is answered in turn, by the node of the first ring point at or after the
    hash of its key; while a node is left, by one that was added and not removed since. *)
Lemma clients_served (hash : string -> Z) (os : list lb_op) (rands : list nat) (out : list string) :
  let s := lb_run hash os in
  exists keys, simulateClientRequests hash s rands out =
      Ret (out ++ ((fun k => handleRequest hash s (MkRequest k)) <$> keys)) /\
    length keys = length rands /\ Forall (.∈ request_keys) keys /\
    (hashRing (consistentHasher s) <> [] -> Forall (fun k => exists n,
       handleRequest hash s (MkRequest k) = handled k n /\ n ∈ live os) keys).
Proof.
  intros s. revert out. induction rands as [|r rands IH]; intros out.
  - exists []. rewrite app_nil_r. done.
  - cbn [simulateClientRequests].
    destruct (lookup_lt_is_Some_2 request_keys (r mod length request_keys)) as [k Hk];
      [apply Nat.mod_upper_bound; done|]. rewrite Hk.
    destruct (IH (receiveRequest hash s (MkRequest k) out)) as (keys & -> & Hl & Hin & Hlive).
    exists (k :: keys). unfold receiveRequest. rewrite <-app_assoc. split_and!; [done|cbn; lia| |].
    + constructor; [by eapply list_elem_of_lookup_2|done].
    + intros Hne. constructor; [|by apply Hlive]. pose proof (consistent_hash_successor hash os k) as Hs.
      cbn in Hs. fold s in Hs. unfold handleRequest. cbn [key].
      destruct (getNodeForKey hash k s) as [n|]; [|done]. destruct Hs as [_ Hn]. eauto.
Qed.

(** ** The program *)

(** [main]: the nodes, two clients at a time with the numbers [rand] gives to each, a removal, and one
    more client; the lines of each client. *)
Definition main_nodes : list lb_op := [LAdd "Node1"; LAdd "Node2"; LAdd "Node3"].
Definition main (hash : string -> Z) (rands1 rands2 rands3 : list nat) :
    outcome (list string * list string * list string) :=
  let s := lb_run hash main_nodes in
  out1 ← simulateClientRequests hash s rands1 [];
  out2 ← simulateClientRequests hash s rands2 [];
  let s := lb_removeNode hash "Node2" s in
  out3 ← simulateClientRequests hash s rands3 [];
  mret (out1, out2, out3).

(** After the removal, while points are left on the ring, no request is handled by the removed node. *)
Lemma main_avoids_removed (hash : string -> Z) (rands1 rands2 rands3 : list nat) :
  hashRing (consistentHasher (lb_removeNode hash "Node2" (lb_run hash main_nodes))) ≠ [] ->
  exists out1 out2 out3, main hash rands1 rands2 rands3 = Ret (out1, out2, out3) /\
    length out1 = length rands1 /\ length out2 = length rands2 /\ length out3 = length rands3 /\
    Forall (fun line => exists k n, line = handled k n /\ (n = "Node1" \/ n = "Node3")) out3.
Proof.
  intros Hne. unfold main.
  destruct (clients_served hash main_nodes rands1 []) as (k1 & H1 & L1 & _).
  destruct (clients_served hash main_nodes rands2 []) as (k2 & H2 & L2 & _).
  destruct (clients_served hash (main_nodes ++ [LRemove "Node2"]) rands3 []) as (k3 & H3 & L3 & _ & Hl).
  assert (Hs : lb_run hash (main_nodes ++ [LRemove "Node2"]) =
               lb_removeNode hash "Node2" (lb_run hash main_nodes)) by (unfold lb_run; by rewrite foldl_app).
  cbv zeta in H3, Hl. rewrite Hs in H3, Hl. run_with H1. run_with H2. run_with H3.
  eexists _, _, _. split; [done|]. rewrite !app_nil_l, !length_fmap. split_and!; [done..|].
  apply Forall_fmap. eapply Forall_impl; [by apply Hl|]. intros k (n & Hn & Hlive). exists k, n.
  split; [done|]. assert (Hset : live (main_nodes ++ [LRemove "Node2"]) ⊆ {["Node1"; "Node3"]}).
  { clear. unfold live, main_nodes. simpl. set_solver. }
  apply Hset in Hlive. by rewrite elem_of_union, !elem_of_singleton in Hlive.
Qed.
