(* ===== verification/RoundRobin.v ===== *)
(** * Round-robin load balancing ([networking/load_balancing/round_robin.cpp])

    [LoadBalancer], [RequestQueue] and the pool of threads that run [handleRequests], as a step
    relation in which every step is one critical section of one thread. *)

From S2P Require Import Prelude Text.
Local Open Scope Z_scope.

Record Server : Type := MkServer { srv_id : Z; name : string }.

(** The line [processRequest] prints. *)
Definition processRequest (requestId : Z) (server : Server) : string :=
  "Server " +:+ name server +:+ " processing request " +:+ to_string requestId.

(** ** The two shared objects *)

Record LoadBalancer : Type := MkLB { servers : list Server; currentIndex : nat }.

(** [servers[currentIndex]] is undefined without servers. *)
Definition getNextServer (lb : LoadBalancer) : outcome (LoadBalancer * Server) :=
  match servers lb !! currentIndex lb with
  | None => Undef index_out_of_range
  | Some server =>
      Ret (MkLB (servers lb) ((currentIndex lb + 1) mod length (servers lb))%nat, server)
  end.

Record RequestQueue : Type := MkRQ { requestQueue : list Z; stopped : bool }.

Definition addRequest (requestId : Z) (q : RequestQueue) : RequestQueue :=
  MkRQ (requestQueue q ++ [requestId]) (stopped q).

(** [None] while the wait's condition is false; -1 once the queue has stopped and is empty. *)
Definition getNextRequest (q : RequestQueue) : option (RequestQueue * Z) :=
  match requestQueue q with
  | [] => if stopped q then Some (q, -1) else None
  | requestId :: rest => Some (MkRQ rest (stopped q), requestId)
  end.

Definition stop (q : RequestQueue) : RequestQueue := MkRQ (requestQueue q) true.

(** ** The threads *)

(** Where a thread is in the loop of [handleRequests]. *)
Inductive worker : Type :=
| Fetching
| Handling (requestId : Z)
| Exited.

Record system : Type := MkSys {
  balancer : LoadBalancer;
  queue : RequestQueue;
  workers : list worker;
  added : list Z;
  processed : list (Z * Server)
}.

Definition init (servers : list Server) (threads : nat) : system :=
  MkSys (MkLB servers 0) (MkRQ [] false) (replicate threads Fetching) [] [].

(** The main thread adds requests and then stops the queue.  [addRequest] tests neither the id nor
    [stopped]: the steps are those of a client that, like [main], uses no id equal to the sentinel -1 and
    adds nothing after the stop.  Each worker fetches a request, leaves the loop on -1, and handles any other. *)
Inductive step : system -> system -> Prop :=
| step_add s r :
    stopped (queue s) = false -> r ≠ -1 ->
    step s (MkSys (balancer s) (addRequest r (queue s)) (workers s) (added s ++ [r]) (processed s))
| step_stop s :
    stopped (queue s) = false ->
    step s (MkSys (balancer s) (stop (queue s)) (workers s) (added s) (processed s))
| step_fetch s i q r :
    workers s !! i = Some Fetching -> getNextRequest (queue s) = Some (q, r) ->
    step s (MkSys (balancer s) q (<[i := if r =? -1 then Exited else Handling r]> (workers s))
              (added s) (processed s))
| step_handle s i r lb srv :
    workers s !! i = Some (Handling r) -> getNextServer (balancer s) = Ret (lb, srv) ->
    step s (MkSys lb (queue s) (<[i := Fetching]> (workers s)) (added s) (processed s ++ [(r, srv)])).

Definition reachable (srvs : list Server) (threads : nat) (s : system) : Prop :=
  rtc step (init srvs threads) s.

(** All workers have left their loop. *)
Definition finished (s : system) : Prop := Forall (fun w => w = Exited) (workers s).

(** ** Invariant *)

(** The requests the workers hold. *)
Definition in_hand (ws : list worker) : list Z :=
  ws ≫= fun w => match w with Handling r => [r] | _ => [] end.

Record sys_inv (srvs : list Server) (s : system) : Prop := {
  inv_servers : servers (balancer s) = srvs;
  inv_index : currentIndex (balancer s) = (length (processed s) mod length srvs)%nat;
  inv_once : (processed s).*1 ++ in_hand (workers s) ++ requestQueue (queue s) ≡ₚ added s;
  inv_ids : Forall (fun r => r ≠ -1) (requestQueue (queue s));
  inv_exit : Exited ∈ workers s -> stopped (queue s) = true /\ requestQueue (queue s) = [];
  inv_turns : forall k r srv, processed s !! k = Some (r, srv) ->
    srvs !! (k mod length srvs)%nat = Some srv
}.

Lemma in_hand_set (ws : list worker) i w w' :
  ws !! i = Some w ->
  in_hand (<[i := w']> ws) ++ match w with Handling r => [r] | _ => [] end ≡ₚ
  match w' with Handling r => [r] | _ => [] end ++ in_hand ws.
Proof.
  intros Hi. rewrite <-(take_drop_middle ws i w Hi) at 2.
  rewrite insert_take_drop by (by eapply lookup_lt_Some).
  unfold in_hand. rewrite !bind_app, !bind_cons. simpl. solve_Permutation.
Qed.

Lemma exited_set (ws : list worker) i w' w :
  ws !! i = Some w -> Exited ∈ <[i := w']> ws -> w' = Exited \/ Exited ∈ ws.
Proof.
  intros Hi Hin. apply list_elem_of_lookup in Hin as [j Hj].
  apply list_lookup_insert_Some in Hj as [(-> & -> & _)|(_ & Hj)]; [by left|].
  right. by eapply list_elem_of_lookup_2.
Qed.

Lemma rr_init_inv srvs threads : sys_inv srvs (init srvs threads).
Proof.
  constructor; simpl.
  - done.
  - symmetry. destruct (length srvs); [done|]. by apply Nat.Div0.mod_0_l.
  - unfold in_hand. induction threads; [done|]. simpl. done.
  - constructor.
  - intros Hin. apply elem_of_replicate in Hin as [? _]. done.
  - intros k r srv Hk. by rewrite lookup_nil in Hk.
Qed.

Lemma getNextRequest_cases q q' r :
  getNextRequest q = Some (q', r) ->
  (requestQueue q = [] /\ stopped q = true /\ q' = q /\ r = -1) \/
  (requestQueue q = r :: requestQueue q' /\ stopped q' = stopped q).
Proof.
  unfold getNextRequest. destruct (requestQueue q) as [|a l] eqn:Hq.
  - destruct (stopped q) eqn:Hs; [|done]. intros [= <- <-]. by left.
  - intros [= <- <-]. by right.
Qed.

Lemma rr_step_inv srvs s s' : srvs ≠ [] -> sys_inv srvs s -> step s s' -> sys_inv srvs s'.
Proof.
  intros Hne [Hsrv Hidx Honce Hids Hexit Hturn] Hst.
  destruct Hst as [s r Hrun Hr|s Hrun|s i q r Hw Hg|s i r lb srv Hw Hg]; constructor; simpl; try done.
  - rewrite <-Honce, !app_assoc. done.
  - by apply Forall_app_2; [|constructor].
  - intros Hx. apply Hexit in Hx as [Hs _]. congruence.
  - intros Hx. apply Hexit in Hx as [Hs _]. congruence.
  - pose proof (in_hand_set _ i Fetching (if r =? -1 then Exited else Handling r) Hw) as Hset.
    rewrite app_nil_r in Hset. rewrite <-Honce, Hset.
    apply getNextRequest_cases in Hg as [(Hq & _ & -> & ->)|(Hq & _)].
    + done.
    + rewrite Hq in Hids |- *. apply Forall_cons in Hids as [Hr _].
      rewrite (proj2 (Z.eqb_neq r (-1))) by done. solve_Permutation.
  - apply getNextRequest_cases in Hg as [(Hq & _ & -> & ->)|(Hq & _)]; [done|].
    rewrite Hq in Hids. by apply Forall_cons in Hids as [_ ?].
  - intros Hx. apply (exited_set _ i _ Fetching Hw) in Hx.
    apply getNextRequest_cases in Hg as [(Hq & Hs & -> & ->)|(Hq & Hs)]; [done|].
    destruct Hx as [Hx|Hx].
    + rewrite Hq in Hids. apply Forall_cons in Hids as [Hr _].
      rewrite (proj2 (Z.eqb_neq r (-1))) in Hx by done. done.
    + apply Hexit in Hx as [_ Hx]. congruence.
  - unfold getNextServer in Hg. destruct (servers (balancer s) !! _); [|done]. by simplify_eq/=.
  - unfold getNextServer in Hg. destruct (servers (balancer s) !! _); [|done]. simplify_eq/=.
    rewrite Hidx, length_app. simpl. apply Nat.Div0.add_mod_idemp_l.
  - pose proof (in_hand_set _ i (Handling r) Fetching Hw) as Hset. simpl in Hset.
    rewrite <-Honce, <-Hset, fmap_app. simpl. solve_Permutation.
  - intros Hx. apply (exited_set _ i _ _ Hw) in Hx as [Hx|Hx]; [done|]. by apply Hexit.
  - unfold getNextServer in Hg. destruct (servers (balancer s) !! _) as [sv|] eqn:Hl; [|done].
    simplify_eq/=. intros k r' srv' Hk.
    apply lookup_app_Some in Hk as [Hk|[Hge Hk]]; [by eapply Hturn|].
    apply list_lookup_singleton_Some in Hk as [Hk Hp]. simplify_eq/=.
    replace k with (length (processed s)) by lia. by rewrite <-Hidx.
Qed.

Lemma rr_reachable_inv srvs threads s : srvs ≠ [] -> reachable srvs threads s -> sys_inv srvs s.
Proof.
  intros Hne Hr. unfold reachable in Hr. pose proof (rr_init_inv srvs threads) as Hi.
  revert Hi. induction Hr as [|a b c Hab _ IH]; [done|]. intros Hi. apply IH. by eapply rr_step_inv.
Qed.

Lemma step_workers s s' : step s s' -> length (workers s') = length (workers s).
Proof. destruct 1; simpl; by rewrite ?length_insert. Qed.

Lemma reachable_workers srvs threads s :
  reachable srvs threads s -> length (workers s) = threads.
Proof.
  intros Hr. unfold reachable in Hr. remember (init srvs threads) as a eqn:Ha.
  assert (Hl : length (workers a) = threads) by (subst; apply length_replicate). clear Ha.
  induction Hr as [|a b c Hab _ IH]; [done|]. apply IH. by rewrite (step_workers a b).
Qed.

(** When all workers have left, nothing is held or queued. *)
Lemma finished_drained srvs s :
  sys_inv srvs s -> (0 < length (workers s))%nat -> finished s -> (processed s).*1 ≡ₚ added s.
Proof.
  intros [_ _ Honce _ Hexit _] Hl Hfin. unfold finished in Hfin.
  assert (Hh : in_hand (workers s) = []).
  { clear - Hfin. unfold in_hand. induction Hfin as [|w ws -> _ IH]; [done|]. simpl. done. }
  destruct (workers s) as [|w ws]; [simpl in Hl; lia|]. apply Forall_cons in Hfin as [-> _].
  destruct Hexit as [_ Hq]; [left|]. by rewrite Hh, Hq, !app_nil_r in Honce.
Qed.

(** C32.  Every request with an id other than the sentinel -1 is handled exactly once, and in turn: in every reachable state the handled,
    held and queued requests are together the added ones, the [k]-th handled request went to server
    [k mod n], and once all workers have left, the handled requests are exactly the added ones. *)
Theorem requests_exactly_once (srvs : list Server) (threads : nat) (s : system) :
  srvs ≠ [] -> (0 < threads)%nat -> reachable srvs threads s ->
  (processed s).*1 ++ in_hand (workers s) ++ requestQueue (queue s) ≡ₚ added s /\
  (forall k r srv, processed s !! k = Some (r, srv) -> srvs !! (k mod length srvs)%nat = Some srv) /\
  (finished s -> (processed s).*1 ≡ₚ added s).
Proof.
  intros Hne Ht Hr. pose proof (rr_reachable_inv _ _ _ Hne Hr) as Hi.
  split; [apply Hi|]. split; [apply Hi|]. intros Hfin.
  eapply finished_drained; [done| |done]. by rewrite (reachable_workers _ _ _ Hr).
Qed.

(** Two requests, one worker, two servers. *)
Definition two_servers : list Server := [MkServer 1 "Server1"; MkServer 2 "Server2"].
Definition final_state : system :=
  MkSys (MkLB two_servers 0) (MkRQ [] true) [Exited] [1; 2]
    [(1, MkServer 1 "Server1"); (2, MkServer 2 "Server2")].

Lemma final_state_reachable : reachable two_servers 1 final_state.
Proof.
  unfold reachable, init.
  eapply rtc_l; [apply (step_add _ 1); [done|lia]|].
  eapply rtc_l; [apply (step_add _ 2); [done|lia]|].
  eapply rtc_l; [by eapply (step_fetch _ 0)|].
  eapply rtc_l; [by apply step_stop|].
  eapply rtc_l; [by eapply (step_handle _ 0)|].
  eapply rtc_l; [by eapply (step_fetch _ 0)|].
  eapply rtc_l; [by eapply (step_handle _ 0)|].
  eapply rtc_l; [by eapply (step_fetch _ 0)|].
  apply rtc_refl.
Qed.

Lemma requests_exactly_once_witness :
  (processed final_state).*1 ≡ₚ added final_state /\ finished final_state.
Proof.
  assert (Hf : finished final_state) by (apply Forall_singleton; reflexivity).
  split; [|exact Hf].
  apply (requests_exactly_once two_servers 1 final_state);
    [done|lia|exact final_state_reachable|exact Hf].
Defined.

(** ** Termination *)

Definition weight (w : worker) : nat :=
  match w with Fetching => 1 | Handling _ => 2 | Exited => 0 end.

(** What is left to do: three for a queued request, and the way of each worker to its exit. *)
Definition work (s : system) : nat :=
  3 * length (requestQueue (queue s)) + sum_list_with weight (workers s).

Lemma step_work s s' :
  stopped (queue s) = true -> step s s' -> stopped (queue s') = true /\ (work s' < work s)%nat.
Proof.
  intros Hs Hst. destruct Hst as [s r Hrun _|s Hrun|s i q r Hw Hg|s i r lb srv Hw Hg];
    [congruence..| |]; unfold work; simpl.
  - pose proof (sum_list_with_insert weight _ i Fetching (if r =? -1 then Exited else Handling r) Hw) as Hsum.
    apply getNextRequest_cases in Hg as [(Hq & _ & -> & ->)|(Hq & Hs')].
    + split; [done|]. simpl in *. lia.
    + rewrite Hs', Hq. split; [done|]. destruct (r =? -1); simpl in *; lia.
  - split; [done|]. pose proof (sum_list_with_insert weight _ i (Handling r) Fetching Hw) as Hsum. simpl in Hsum. lia.
Qed.

Lemma not_finished s : ¬ finished s -> exists i w, workers s !! i = Some w /\ w ≠ Exited.
Proof.
  intros Hn. unfold finished in Hn. induction (workers s) as [|w ws IH]; [destruct Hn; constructor|].
  destruct w as [|r|]; [by exists 0%nat, Fetching|by exists 0%nat, (Handling r)|].
  destruct IH as (i & w & Hi & Hw).
  { intros Hf. apply Hn. by constructor. }
  by exists (S i), w.
Qed.

Lemma stopped_progress srvs s :
  srvs ≠ [] -> sys_inv srvs s -> stopped (queue s) = true -> finished s \/ exists s', step s s'.
Proof.
  intros Hne [Hsrv Hidx _ _ _ _] Hs.
  destruct (decide (Forall (fun w => weight w = 0%nat) (workers s))) as [Hf|Hf].
  - left. eapply Forall_impl; [done|]. by intros [].
  - right. destruct (not_finished s) as (i & w & Hi & Hw).
    { intros Hfin. apply Hf. eapply Forall_impl; [done|]. by intros w ->. }
    destruct w as [|r|]; [|..|done].
    + destruct (getNextRequest (queue s)) as [[q r]|] eqn:Hg; [eexists; by eapply step_fetch|].
      unfold getNextRequest in Hg. rewrite Hs in Hg. by destruct (requestQueue (queue s)).
    + assert (Hlen : length srvs ≠ 0%nat) by (by destruct srvs).
      destruct (lookup_lt_is_Some_2 srvs (length (processed s) mod length srvs)%nat) as [sv Hsv].
      { by apply Nat.mod_upper_bound. }
      eexists. eapply (step_handle s i r); [done|]. unfold getNextServer.
      rewrite Hsrv, Hidx, Hsv. done.
Qed.

(** C33.  After [stop] the pool drains: from every reachable stopped state the workers, in whatever
    order they run, take a bounded number of steps, and when none can run all have left their loop
    and every added request was handled. *)
Theorem workers_terminate (srvs : list Server) (threads : nat) (s : system) :
  srvs ≠ [] -> (0 < threads)%nat -> reachable srvs threads s -> stopped (queue s) = true ->
  (forall n s', nsteps step n s s' -> (n <= work s)%nat) /\
  (forall s', rtc step s s' -> (forall s'', ¬ step s' s'') ->
     finished s' /\ (processed s').*1 ≡ₚ added s).
Proof.
  intros Hne Ht Hr Hs. split.
  - intros n s' Hn. clear Hr. induction Hn as [|n a b c Hab _ IH]; [lia|].
    destruct (step_work a b Hs Hab) as [Hs' Hlt]. specialize (IH Hs'). lia.
  - intros s' Hss Hstuck.
    assert (Hr' : reachable srvs threads s') by (unfold reachable in *; by transitivity s).
    assert (Hkeep : stopped (queue s') = true /\ added s' = added s).
    { clear Hr Hr' Hstuck. revert Hs. induction Hss as [|a b c Hab _ IH]; [done|]. intros Hs.
      destruct (step_work a b Hs Hab) as [Hb _]. destruct (IH Hb) as [Hc Hadd].
      split; [done|]. rewrite Hadd. destruct Hab; simpl in *; [congruence|done..]. }
    destruct Hkeep as [Hs' Hadd]. pose proof (rr_reachable_inv _ _ _ Hne Hr') as Hi.
    destruct (stopped_progress srvs s' Hne Hi Hs') as [Hf|[s'' Hst]]; [|by apply Hstuck in Hst].
    split; [done|]. rewrite <-Hadd.
    eapply finished_drained; [done| |done]. by rewrite (reachable_workers _ _ _ Hr').
Qed.

Lemma workers_terminate_witness :
  stopped (queue final_state) = true /\
  forall s', rtc step final_state s' -> (forall s'', ¬ step s' s'') ->
    finished s' /\ (processed s').*1 ≡ₚ [1; 2].
Proof.
  split; [reflexivity|]. apply (workers_terminate two_servers 1 final_state);
    [done|lia|exact final_state_reachable|reflexivity].
Defined.

(** ** The program *)

(** [main]: three servers, three threads, ten requests. *)
Definition main_servers : list Server :=
  [MkServer 1 "Server1"; MkServer 2 "Server2"; MkServer 3 "Server3"].
Definition main_requests : list Z := [1; 2; 3; 4; 5; 6; 7; 8; 9; 10].

(** A state of [main] after its thread has called [stop]: it has added the ten requests, and the
    three workers ran in any order. *)
Definition main_stopped (s : system) : Prop :=
  reachable main_servers 3 s /\ stopped (queue s) = true /\ added s = main_requests.

(** The lines the workers print. *)
Definition printed (s : system) : list string :=
  (fun p => processRequest p.1 p.2) <$> processed s.

(** Once the three threads can be joined, ten lines were printed: one for each request. *)
Lemma requests_printed s : main_stopped s -> finished s ->
  length (printed s) = 10%nat /\
  forall r, r ∈ main_requests -> exists srv, srv ∈ main_servers /\ processRequest r srv ∈ printed s.
Proof.
  intros (Hr & _ & Hadd) Hf.
  pose proof (rr_reachable_inv main_servers 3 s ltac:(done) Hr) as Hi.
  assert (Hp : (processed s).*1 ≡ₚ main_requests).
  { rewrite <-Hadd. eapply finished_drained; [done| |done]. rewrite (reachable_workers _ _ _ Hr). lia. }
  split.
  - unfold printed. rewrite length_fmap, <-(length_fmap fst), Hp. done.
  - intros r Hin. rewrite <-Hp in Hin. apply list_elem_of_fmap in Hin as ([r' srv] & -> & Hin).
    pose proof Hin as [k Hk]%list_elem_of_lookup. exists srv. split.
    + apply (inv_turns _ _ Hi) in Hk. by eapply list_elem_of_lookup_2.
    + unfold printed. apply (list_elem_of_fmap_2 (fun p => processRequest p.1 p.2) _ _ Hin).
Qed.
