(* ===== verification/RangeSharding.v ===== *)
(** * Range sharding ([distributed_systems/sharding/range_sharding.cpp])

    [RangeShard] and [ShardManager], refined to one finite map over the keys that some shard
    accepts, also when shards are added between other calls and their ranges overlap. *)

From S2P Require Import Prelude.
Local Open Scope Z_scope.

Record RangeShard : Type := MkShard { min_range : Z; max_range : Z; storage : gmap Z string }.

Definition can_accept (key : Z) (s : RangeShard) : bool :=
  (min_range s <=? key) && (key <=? max_range s).

Definition shard_insert (key : Z) (value : string) (s : RangeShard) : RangeShard :=
  MkShard (min_range s) (max_range s) (<[key := value]> (storage s)).

Definition shard_retrieve (key : Z) (s : RangeShard) : string :=
  match storage s !! key with Some v => v | None => "Key not found" end.

Definition shard_remove (key : Z) (s : RangeShard) : RangeShard :=
  MkShard (min_range s) (max_range s) (delete key (storage s)).

(** [ShardManager] is its vector of shards. *)
Abbreviation ShardManager := (list RangeShard).

Definition add_shard (lo hi : Z) (shards : ShardManager) : ShardManager :=
  shards ++ [MkShard lo hi ∅].

(** The first shard that accepts the key takes the value; without one an error is printed. *)
Fixpoint insert (key : Z) (value : string) (shards : ShardManager) : ShardManager :=
  match shards with
  | [] => []
  | s :: shards =>
      if can_accept key s then shard_insert key value s :: shards
      else s :: insert key value shards
  end.

Fixpoint retrieve (key : Z) (shards : ShardManager) : string :=
  match shards with
  | [] => "No shard found for key."
  | s :: shards => if can_accept key s then shard_retrieve key s else retrieve key shards
  end.

Fixpoint remove (key : Z) (shards : ShardManager) : ShardManager :=
  match shards with
  | [] => []
  | s :: shards =>
      if can_accept key s then shard_remove key s :: shards else s :: remove key shards
  end.

(** ** Sequences of calls *)

Inductive shard_op : Type :=
| AddShard (lo hi : Z)
| Insert (key : Z) (value : string)
| Remove (key : Z).

Definition shard_step (shards : ShardManager) (o : shard_op) : ShardManager :=
  match o with
  | AddShard lo hi => add_shard lo hi shards
  | Insert key value => insert key value shards
  | Remove key => remove key shards
  end.
Definition shard_run (os : list shard_op) : ShardManager := foldl shard_step [] os.

(** ** Specification: the ranges, and one map for all keys *)

Record spec : Type := MkSpec { ranges : list (Z * Z); contents : gmap Z string }.

Definition covered (key : Z) (rs : list (Z * Z)) : Prop :=
  Exists (fun r => r.1 <= key <= r.2) rs.

#[export] Instance covered_dec key rs : Decision (covered key rs).
Proof. unfold covered. apply _. Defined.

Definition spec_step (s : spec) (o : shard_op) : spec :=
  match o with
  | AddShard lo hi => MkSpec (ranges s ++ [(lo, hi)]) (contents s)
  | Insert key value =>
      MkSpec (ranges s) (if decide (covered key (ranges s)) then <[key := value]> (contents s)
                         else contents s)
  | Remove key => MkSpec (ranges s) (delete key (contents s))
  end.
Definition spec_run (os : list shard_op) : spec := foldl spec_step (MkSpec [] ∅) os.

Definition range_of (s : RangeShard) : Z * Z := (min_range s, max_range s).

(** The shard that answers for a key. *)
Definition home (key : Z) (shards : ShardManager) : option RangeShard :=
  head (filter (fun s => can_accept key s = true) shards).

(** What the manager holds for a key: nothing if no shard accepts it. *)
Definition value_at (key : Z) (shards : ShardManager) : option (option string) :=
  (fun s => storage s !! key) <$> home key shards.

Record refines (shards : ShardManager) (s : spec) : Prop := {
  ref_ranges : range_of <$> shards = ranges s;
  ref_value : forall key,
    value_at key shards = if decide (covered key (ranges s)) then Some (contents s !! key) else None;
  ref_none : forall key, ¬ covered key (ranges s) -> contents s !! key = None
}.

Lemma can_accept_spec key s : can_accept key s = true <-> min_range s <= key <= max_range s.
Proof. unfold can_accept. rewrite andb_true_iff, !Z.leb_le. done. Qed.

Lemma home_cons key s shards :
  home key (s :: shards) = if can_accept key s then Some s else home key shards.
Proof.
  unfold home. rewrite filter_cons. destruct (can_accept key s) eqn:Hc.
  - by rewrite decide_True.
  - by rewrite decide_False.
Qed.

Lemma home_covered key shards : is_Some (home key shards) <-> covered key (range_of <$> shards).
Proof.
  unfold covered. induction shards as [|s shards IH].
  - rewrite Exists_nil. split; [by intros [? ?]|done].
  - rewrite home_cons, fmap_cons, Exists_cons. simpl. rewrite <-IH, <-can_accept_spec.
    destruct (can_accept key s); [split; eauto|]. naive_solver.
Qed.

Lemma home_snoc key s shards :
  home key (shards ++ [s]) =
    match home key shards with
    | Some h => Some h
    | None => if can_accept key s then Some s else None
    end.
Proof.
  induction shards as [|x shards IH]; simpl; rewrite ?home_cons; [done|].
  destruct (can_accept key x); [done|apply IH].
Qed.

Lemma value_at_cons key s shards :
  value_at key (s :: shards) =
    if can_accept key s then Some (storage s !! key) else value_at key shards.
Proof. unfold value_at. rewrite home_cons. by destruct (can_accept key s). Qed.

Lemma value_at_update (f : option string -> option string) (upd : RangeShard -> RangeShard)
    (go : ShardManager -> ShardManager) key shards k :
  (go [] = []) ->
  (forall s l, go (s :: l) = if can_accept key s then upd s :: l else s :: go l) ->
  (forall s, range_of (upd s) = range_of s) ->
  (forall s j, storage (upd s) !! j = if decide (key = j) then f (storage s !! j) else storage s !! j) ->
  value_at k (go shards) =
    if decide (key = k) then f <$> value_at k shards else value_at k shards.
Proof.
  intros Hnil Hcons Hr Hst.
  assert (Hacc : forall s j, can_accept j (upd s) = can_accept j s).
  { intros s j. specialize (Hr s). unfold range_of in Hr. unfold can_accept.
    injection Hr as H1 H2. by rewrite H1, H2. }
  induction shards as [|s l IH].
  - rewrite Hnil. by case_decide.
  - rewrite Hcons. destruct (can_accept key s) eqn:Hk; rewrite !value_at_cons.
    + rewrite Hacc. destruct (decide (key = k)) as [->|Hne].
      * rewrite Hk, Hst, decide_True by done. done.
      * by rewrite Hst, decide_False.
    + rewrite IH. destruct (can_accept k s) eqn:Hk'; [|done].
      rewrite decide_False by congruence. done.
Qed.

Lemma value_at_insert key v shards k :
  value_at k (insert key v shards) =
    if decide (key = k) then (fun _ => Some v) <$> value_at k shards else value_at k shards.
Proof.
  apply (value_at_update (fun _ => Some v) (shard_insert key v)); try done.
  intros s j. simpl. by rewrite lookup_insert.
Qed.

Lemma value_at_remove key shards k :
  value_at k (remove key shards) =
    if decide (key = k) then (fun _ => None) <$> value_at k shards else value_at k shards.
Proof.
  apply (value_at_update (fun _ => None) (shard_remove key)); try done.
  intros s j. simpl. by rewrite lookup_delete.
Qed.

Lemma ranges_insert key v shards : range_of <$> insert key v shards = range_of <$> shards.
Proof.
  induction shards as [|s l IH]; [done|]. simpl. destruct (can_accept key s); [done|].
  rewrite !fmap_cons. by rewrite IH.
Qed.

Lemma ranges_remove key shards : range_of <$> remove key shards = range_of <$> shards.
Proof.
  induction shards as [|s l IH]; [done|]. simpl. destruct (can_accept key s); [done|].
  rewrite !fmap_cons. by rewrite IH.
Qed.

Lemma value_at_snoc key s shards :
  value_at key (shards ++ [s]) =
    match value_at key shards with
    | Some v => Some v
    | None => if can_accept key s then Some (storage s !! key) else None
    end.
Proof.
  unfold value_at. rewrite home_snoc. destruct (home key shards); [done|].
  by destruct (can_accept key s).
Qed.

Lemma covered_snoc k rs lo hi :
  covered k (rs ++ [(lo, hi)]) <-> covered k rs \/ can_accept k (MkShard lo hi ∅) = true.
Proof.
  unfold covered. rewrite Exists_app, Exists_cons, Exists_nil, can_accept_spec. simpl. naive_solver.
Qed.

Lemma shard_step_refines shards s o : refines shards s -> refines (shard_step shards o) (spec_step s o).
Proof.
  intros [Hr Hv Hn]. destruct o as [lo hi|key v|key]; constructor; simpl.
  - unfold add_shard. by rewrite fmap_app, Hr.
  - intros k. unfold add_shard. rewrite value_at_snoc, Hv. cbn [storage]. rewrite lookup_empty.
    rewrite (decide_ext _ _ _ _ (covered_snoc k (ranges s) lo hi)).
    destruct (decide (covered k (ranges s))) as [Hc|Hc]; [by rewrite decide_True by auto|].
    destruct (can_accept k (MkShard lo hi ∅)) eqn:Ha.
    + rewrite decide_True by auto. by rewrite Hn.
    + rewrite decide_False by naive_solver. done.
  - intros k Hk. apply Hn. intros Hc. apply Hk. unfold covered in *. rewrite Exists_app. by left.
  - by rewrite ranges_insert.
  - intros k. rewrite value_at_insert, Hv. destruct (decide (key = k)) as [->|Hne].
    + destruct (decide (covered k (ranges s))); [|done]. by rewrite lookup_insert_eq.
    + destruct (decide (covered k (ranges s))); [|done].
      destruct (decide (covered key (ranges s))); [by rewrite lookup_insert_ne|done].
  - intros k Hk. destruct (decide (covered key (ranges s))) as [Hc|]; [|auto].
    rewrite lookup_insert_ne by congruence. auto.
  - by rewrite ranges_remove.
  - intros k. rewrite value_at_remove, Hv. destruct (decide (key = k)) as [->|Hne].
    + destruct (decide (covered k (ranges s))); [|done]. by rewrite lookup_delete_eq.
    + by rewrite lookup_delete_ne.
  - intros k Hk. rewrite lookup_delete_None. auto.
Qed.

Lemma shard_run_refines os : refines (shard_run os) (spec_run os).
Proof.
  unfold shard_run, spec_run. assert (H0 : refines [] (MkSpec [] ∅)).
  { constructor; cbn [ranges contents]; [done|..]; intros k; [|by rewrite lookup_empty].
    rewrite decide_False; [done|]. unfold covered. intros H. by apply Exists_nil in H. }
  revert H0. generalize (@nil RangeShard) as shards, (MkSpec [] ∅) as s.
  induction os as [|o os IH]; intros shards s H0; [done|]. simpl. by apply IH, shard_step_refines.
Qed.

Lemma retrieve_value key shards :
  retrieve key shards =
    match value_at key shards with
    | Some (Some v) => v
    | Some None => "Key not found"
    | None => "No shard found for key."
    end.
Proof.
  induction shards as [|s l IH]; [done|]. simpl. rewrite value_at_cons.
  destruct (can_accept key s); [|done]. unfold shard_retrieve. by destruct (storage s !! key).
Qed.

(** Range sharding refines one map: after any sequence of [add_shard], [insert] and [remove],
    with ranges that may overlap, [retrieve] returns the value last inserted and not removed since
    for a key in some range at the time, "Key not found" for a covered key without a value, and "No
    shard found for key." for a key in no range. *)
Lemma range_sharding_refines (os : list shard_op) (key : Z) :
  retrieve key (shard_run os) =
    if decide (covered key (ranges (spec_run os)))
    then default "Key not found" (contents (spec_run os) !! key)
    else "No shard found for key.".
Proof.
  destruct (shard_run_refines os) as [_ Hv _]. rewrite retrieve_value, Hv.
  destruct (decide _); [|done]. by destruct (contents (spec_run os) !! key).
Qed.

(** [main]: the lines it prints. *)
Definition main : list string :=
  let s := shard_run [AddShard 0 100; AddShard 101 200; AddShard 201 300; Insert 50 "Value for key 50";
                      Insert 150 "Value for key 150"; Insert 250 "Value for key 250"] in
  let s' := remove 50 s in
  ["Retrieve key 50: " +:+ retrieve 50 s; "Retrieve key 150: " +:+ retrieve 150 s;
   "Retrieve key 250: " +:+ retrieve 250 s; "Retrieve key 50 after removal: " +:+ retrieve 50 s'].

Example range_main_prints :
  main = ["Retrieve key 50: Value for key 50"; "Retrieve key 150: Value for key 150";
          "Retrieve key 250: Value for key 250"; "Retrieve key 50 after removal: Key not found"].
Proof. vm_compute. reflexivity. Qed.
