(* ===== verification/HashSharding.v ===== *)
(** * Hash sharding ([distributed_systems/sharding/hash_sharding.cpp])

    [Node] and [ShardingManager]: a key lives on node [hash(key) % nodes.size()].  Puts and gets on a
    fixed set of nodes behave as one map; adding a node moves keys without their data. *)

From S2P Require Import Prelude.

Record Node : Type := MkNode { nodeId : string; data : gmap string string }.

Definition storeData (key value : string) (n : Node) : Node :=
  MkNode (nodeId n) (<[key := value]> (data n)).

Definition retrieveData (key : string) (n : Node) : string :=
  match data n !! key with Some v => v | None => "Key not found!" end.

Section Sharding.
(** [std::hash<std::string>]. *)
Context (hashFunction : string -> nat).

(** [ShardingManager] is its vector of nodes. *)
Abbreviation ShardingManager := (list Node).

Definition make (nodeIds : list string) : ShardingManager := (fun i => MkNode i ∅) <$> nodeIds.

(** [hashFunction(key) % nodes.size()], undefined without nodes. *)
Definition nodeIndex (key : string) (nodes : ShardingManager) : outcome nat :=
  if decide (length nodes = 0) then Undef division_by_zero
  else Ret (hashFunction key mod length nodes).

Definition putData (key value : string) (nodes : ShardingManager) : outcome ShardingManager :=
  i ← nodeIndex key nodes;
  match nodes !! i with
  | Some n => Ret (<[i := storeData key value n]> nodes)
  | None => Undef index_out_of_range
  end.

Definition getData (key : string) (nodes : ShardingManager) : outcome string :=
  i ← nodeIndex key nodes;
  match nodes !! i with
  | Some n => Ret (retrieveData key n)
  | None => Undef index_out_of_range
  end.

Definition addNode (id : string) (nodes : ShardingManager) : ShardingManager :=
  nodes ++ [MkNode id ∅].

(** The first node with the id is erased. *)
Fixpoint removeNode (id : string) (nodes : ShardingManager) : ShardingManager :=
  match nodes with
  | [] => []
  | n :: nodes => if decide (nodeId n = id) then nodes else n :: removeNode id nodes
  end.

Fixpoint putAll (l : list (string * string)) (nodes : ShardingManager) : outcome ShardingManager :=
  match l with
  | [] => Ret nodes
  | (k, v) :: l => nodes' ← putData k v nodes; putAll l nodes'
  end.

(** ** Refinement to one map *)

(** Each key's data is on its node, and no other key is there. *)
Definition holds (m : gmap string string) (nodes : ShardingManager) : Prop :=
  nodes ≠ [] /\
  forall i n k, nodes !! i = Some n ->
    data n !! k = if decide (hashFunction k mod length nodes = i) then m !! k else None.

Lemma nodeIndex_ok key nodes :
  nodes ≠ [] -> exists n, nodeIndex key nodes = Ret (hashFunction key mod length nodes) /\
    nodes !! (hashFunction key mod length nodes) = Some n.
Proof.
  intros Hne. assert (Hl : length nodes ≠ 0) by (by destruct nodes).
  unfold nodeIndex. rewrite decide_False by done.
  destruct (lookup_lt_is_Some_2 nodes (hashFunction key mod length nodes)) as [n Hn]; [|eauto].
  by apply Nat.mod_upper_bound.
Qed.

Lemma putData_ok key v m nodes :
  holds m nodes -> exists nodes', putData key v nodes = Ret nodes' /\
    holds (<[key := v]> m) nodes' /\ length nodes' = length nodes.
Proof.
  intros [Hne Hd]. destruct (nodeIndex_ok key nodes Hne) as (n & Hi & Hn).
  unfold putData. run_with Hi. rewrite Hn. eexists. split; [done|].
  rewrite length_insert. split; [|done]. split; [by rewrite <-length_zero_iff_nil, length_insert, length_zero_iff_nil|].
  intros i x k Hx. rewrite length_insert.
  apply list_lookup_insert_Some in Hx as [(<- & <- & _)|(Hix & Hx)]; simpl.
  - rewrite !lookup_insert, (Hd _ n k Hn). destruct (decide (key = k)) as [->|]; [|done].
    by rewrite decide_True.
  - rewrite (Hd i x k Hx), lookup_insert. case_decide; [|done]. rewrite decide_False; congruence.
Qed.

Lemma putAll_ok l : forall m nodes, holds m nodes -> exists nodes', putAll l nodes = Ret nodes' /\
  holds (foldl (fun m e => <[e.1 := e.2]> m) m l) nodes' /\ length nodes' = length nodes.
Proof.
  induction l as [|[k v] l IH]; intros m nodes Hh; [by exists nodes|].
  destruct (putData_ok k v m nodes Hh) as (n1 & Hp & Hh1 & Hl1). cbn [putAll]. run_with Hp.
  destruct (IH _ n1 Hh1) as (n2 & Hr & Hh2 & Hl2). exists n2. rewrite Hr, Hl2. done.
Qed.

Lemma make_holds ids : ids ≠ [] -> holds ∅ (make ids).
Proof.
  intros Hne. split; [by destruct ids|]. intros i n k Hn.
  apply list_lookup_fmap_Some in Hn as (id & -> & _). simpl. rewrite lookup_empty. by case_decide.
Qed.

Lemma getData_ok m nodes key :
  holds m nodes -> getData key nodes = Ret (default "Key not found!" (m !! key)).
Proof.
  intros [Hne Hd]. destruct (nodeIndex_ok key nodes Hne) as (n & Hi & Hn).
  unfold getData. run_with Hi. rewrite Hn. unfold retrieveData.
  rewrite (Hd _ n key Hn), decide_True by done. by destruct (m !! key).
Qed.

Lemma getData_added m nodes id key :
  holds m nodes ->
  getData key (addNode id nodes) =
    if decide (hashFunction key mod S (length nodes) = hashFunction key mod length nodes)
    then getData key nodes else Ret "Key not found!".
Proof.
  intros Hh. rewrite (getData_ok m nodes key Hh). destruct Hh as [Hne Hd].
  destruct (nodeIndex_ok key (addNode id nodes)) as (n & Hi & Hn); [by destruct nodes|].
  unfold getData. run_with Hi. rewrite Hn. unfold retrieveData, addNode in *.
  assert (Hlen : length (nodes ++ [MkNode id ∅]) = S (length nodes)) by (rewrite length_app; simpl; lia).
  rewrite Hlen in Hn.
  apply lookup_app_Some in Hn as [Hn|[Hge Hn]].
  - rewrite (Hd _ n key Hn). case_decide as H1; case_decide as H2; [|congruence..|done].
    by destruct (m !! key).
  - apply list_lookup_singleton_Some in Hn as [Heq <-]. cbn [data]. rewrite lookup_empty.
    rewrite decide_False; [done|]. assert (Hl : length nodes ≠ 0) by (by destruct nodes).
    pose proof (Nat.mod_upper_bound (hashFunction key) (length nodes) Hl) as Hub.
    intros He. rewrite He in Hge. lia.
Qed.
End Sharding.

(** The last value put for each key. *)
Definition lastPut (l : list (string * string)) : gmap string string :=
  foldl (fun m e => <[e.1 := e.2]> m) ∅ l.

(** On a fixed set of nodes sharding is transparent: after any puts, [getData] returns the value
    last put for a key, or "Key not found!".  Adding a node keeps exactly the keys whose node index
    does not change: the data of every other key is no longer found. *)
Lemma hash_sharding_correct (hashFunction : string -> nat) (ids : list string)
    (l : list (string * string)) (newId : string) :
  ids ≠ [] ->
  exists nodes, putAll hashFunction l (make ids) = Ret nodes /\
    (forall key, getData hashFunction key nodes =
       Ret (default "Key not found!" (lastPut l !! key))) /\
    (forall key, getData hashFunction key (addNode newId nodes) =
       if decide (hashFunction key mod S (length ids) = hashFunction key mod length ids)
       then getData hashFunction key nodes else Ret "Key not found!").
Proof.
  intros Hne. destruct (putAll_ok hashFunction l ∅ (make ids)) as (nodes & Hp & Hh & Hl).
  { by apply make_holds. }
  exists nodes. split; [done|]. split.
  - intros key. by apply getData_ok.
  - intros key. rewrite (getData_added _ _ nodes newId key Hh), Hl. unfold make.
    by rewrite length_fmap.
Qed.

(** The puts of [testShardingSystem], under a hash that counts characters. *)
Lemma hash_sharding_correct_witness :
  let l := [("user123", "Data for user123"); ("user456", "Data for user456")] in
  exists nodes, putAll String.length l (make ["Node1"; "Node2"; "Node3"]) = Ret nodes /\
    (forall key, getData String.length key nodes =
       Ret (default "Key not found!" (lastPut l !! key))) /\
    (forall key, getData String.length key (addNode "Node4" nodes) =
       if decide (String.length key mod 4 = String.length key mod 3)
       then getData String.length key nodes else Ret "Key not found!").
Proof.
  apply (hash_sharding_correct String.length ["Node1"; "Node2"; "Node3"]
    [("user123", "Data for user123"); ("user456", "Data for user456")] "Node4"). done.
Defined.

(** ** The program *)

(** [testShardingSystem]: the lines it prints. *)
Definition testShardingSystem (hashFunction : string -> nat) : outcome (list string) :=
  nodes ← putAll hashFunction [("user123", "Data for user123"); ("user456", "Data for user456");
                               ("user789", "Data for user789")] (make ["Node1"; "Node2"; "Node3"]);
  a ← getData hashFunction "user123" nodes;
  b ← getData hashFunction "user456" nodes;
  c ← getData hashFunction "user789" nodes;
  nodes ← putData hashFunction "user101" "Data for user101" (addNode "Node4" nodes);
  d ← getData hashFunction "user101" nodes;
  nodes ← putData hashFunction "user202" "Data for user202" (removeNode "Node2" nodes);
  e ← getData hashFunction "user202" nodes;
  mret ["Data for user123: " +:+ a; "Data for user456: " +:+ b; "Data for user789: " +:+ c;
        "Data for user101: " +:+ d; "Data for user202: " +:+ e].

Definition main (hashFunction : string -> nat) : outcome (list string) := testShardingSystem hashFunction.

(** The test only reads what it put since the last change of the nodes, and finds all of it. *)
Example sharding_test_prints :
  main String.length =
    Ret ["Data for user123: Data for user123"; "Data for user456: Data for user456";
         "Data for user789: Data for user789"; "Data for user101: Data for user101";
         "Data for user202: Data for user202"].
Proof. vm_compute. reflexivity. Qed.
