(* ===== verification/MasterSlave.v ===== *)
(** * Master-slave replication ([distributed_systems/replication/master_slave.cpp])

    A master and its slaves share one replication queue: clients write to the master, which pushes a
    message, and every slave thread polls the queue, pops and applies. The threads interleave as a
    step relation whose steps are the critical sections of the mutexes. *)

From S2P Require Import Prelude Text.
From stdpp Require Import relations.
Local Open Scope Z_scope.

(** ** The data store *)

Abbreviation DataStore := (gmap Z string) (only parsing).

Record ReplicationMessage : Type := MkMsg { key : Z; value : string }.

Definition ds_write (k : Z) (v : string) (d : DataStore) : DataStore := <[k := v]> d.

(** [data[key]] inserts an empty string for a missing key. *)
Definition ds_read (k : Z) (d : DataStore) : DataStore * string :=
  match d !! k with
  | Some v => (d, v)
  | None => (<[k := EmptyString]> d, EmptyString)
  end.

(** What a read of the store returns. *)
Definition value_of (d : DataStore) (k : Z) : string := default EmptyString (d !! k).

(** ** The replication queue *)

Abbreviation ReplicationQueue := (list ReplicationMessage) (only parsing).

Definition push (m : ReplicationMessage) (q : ReplicationQueue) : ReplicationQueue := q ++ [m].

(** [pop] waits while the queue is empty: [None]. *)
Definition pop (q : ReplicationQueue) : option (ReplicationMessage * ReplicationQueue) :=
  match q with
  | [] => None
  | m :: q => Some (m, q)
  end.

Definition empty (q : ReplicationQueue) : bool := match q with [] => true | _ => false end.

(** ** Nodes *)

(** Where a slave thread is in its loop: at the test, before [pop], or before the write. *)
Inductive phase : Type :=
| Polling
| Popping
| Applying (m : ReplicationMessage).

Record SlaveNode : Type := MkSlave {
  datastore : gmap Z string;
  running : bool;
  at_phase : phase
}.

Definition newSlave : SlaveNode := MkSlave ∅ true Polling.
Definition set_phase (p : phase) (s : SlaveNode) : SlaveNode := MkSlave (datastore s) (running s) p.
Definition set_store (d : gmap Z string) (s : SlaveNode) : SlaveNode := MkSlave d (running s) (at_phase s).
Definition stop (s : SlaveNode) : SlaveNode := MkSlave (datastore s) false (at_phase s).

(** The master, its queue and slaves, and each client thread with the message it still has to push;
    [writes] and [pushes] record the order of the writes to the master and to the queue. *)
Record system : Type := MkSys {
  master : gmap Z string;
  queue : list ReplicationMessage;
  slaves : list SlaveNode;
  clients : list (option ReplicationMessage);
  writes : list ReplicationMessage;
  pushes : list ReplicationMessage
}.

Definition init (numSlaves numClients : nat) : system :=
  MkSys ∅ [] (replicate numSlaves newSlave) (replicate numClients None) [] [].

Definition set_slave (i : nat) (sl : SlaveNode) (s : system) : system :=
  MkSys (master s) (queue s) (<[i := sl]> (slaves s)) (clients s) (writes s) (pushes s).

(** ** The functions of the master *)

Definition stopSlaves (s : system) : system :=
  MkSys (master s) (queue s) (stop <$> slaves s) (clients s) (writes s) (pushes s).

(** [index < slaves.size()] compares as [size_t], after the test that the [int] is not negative. *)
Definition getSlave (index : Z) (s : system) : option SlaveNode :=
  if bool_decide (0 <= index /\ to_size_t index < Z.of_nat (length (slaves s)))
  then slaves s !! Z.to_nat index else None.

(** [SlaveNode::read] and [MasterNode::read]. *)
Definition slave_read (k : Z) (sl : SlaveNode) : SlaveNode * string :=
  let '(d, v) := ds_read k (datastore sl) in (set_store d sl, v).
Definition master_read (k : Z) (s : system) : system * string :=
  let '(d, v) := ds_read k (master s) in
  (MkSys d (queue s) (slaves s) (clients s) (writes s) (pushes s), v).

(** The lines that [clientRead] and [clientReadSlave] print. *)
Definition clientRead (k : Z) (s : system) : system * string :=
  let '(s, v) := master_read k s in
  (s, "Client read from master: key = " +:+ to_string k +:+ ", value = " +:+ v).
Definition clientReadSlave (k : Z) (sl : SlaveNode) : SlaveNode * string :=
  let '(sl, v) := slave_read k sl in
  (sl, "Client read from slave: key = " +:+ to_string k +:+ ", value = " +:+ v).

(** A slave is returned for the indexes of the vector and for no other [int]. *)
Lemma getSlave_range index s :
  is_int index -> is_Some (getSlave index s) <-> 0 <= index < Z.of_nat (length (slaves s)).
Proof.
  unfold is_int, int_min, int_max, getSlave, to_size_t, size_t_mod. intros Hi.
  case_bool_decide as Hb.
  - destruct Hb as [H0 Hlt]. rewrite Z.mod_small in Hlt by lia. rewrite lookup_lt_is_Some. lia.
  - split; [by intros [? ?]|]. intros [H0 Hlt]. destruct Hb. rewrite Z.mod_small; lia.
Qed.

(** ** Steps *)

Inductive step : system -> system -> Prop :=
(** [MasterNode::write]: first the store of the master, then the queue. *)
| step_write s c k v : clients s !! c = Some None ->
    step s (MkSys (ds_write k v (master s)) (queue s) (slaves s) (<[c := Some (MkMsg k v)]> (clients s))
              (writes s ++ [MkMsg k v]) (pushes s))
| step_push s c m : clients s !! c = Some (Some m) ->
    step s (MkSys (master s) (push m (queue s)) (slaves s) (<[c := None]> (clients s))
              (writes s) (pushes s ++ [m]))
(** [SlaveNode::replicate]: the test of [running] and that of [empty] are one step; a stop between the two
    has the effect of one right after both. *)
| step_poll s i sl : slaves s !! i = Some sl -> running sl = true -> at_phase sl = Polling ->
    empty (queue s) = false -> step s (set_slave i (set_phase Popping sl) s)
| step_pop s i sl m q : slaves s !! i = Some sl -> at_phase sl = Popping -> pop (queue s) = Some (m, q) ->
    step s (MkSys (master s) q (<[i := set_phase (Applying m) sl]> (slaves s)) (clients s)
              (writes s) (pushes s))
| step_apply s i sl m : slaves s !! i = Some sl -> at_phase sl = Applying m ->
    step s (set_slave i (set_phase Polling (set_store (ds_write (key m) (value m) (datastore sl)) sl)) s)
(** Reads and [stop]. *)
| step_read_master s k :
    step s (MkSys (ds_read k (master s)).1 (queue s) (slaves s) (clients s) (writes s) (pushes s))
| step_read_slave s i sl k : slaves s !! i = Some sl ->
    step s (set_slave i (set_store (ds_read k (datastore sl)).1 sl) s)
| step_stop s i sl : slaves s !! i = Some sl -> step s (set_slave i (stop sl) s).

Definition reachable (numSlaves numClients : nat) (s : system) : Prop :=
  rtc step (init numSlaves numClients) s.

(** ** What is replicated *)

(** What a store reads after the messages of a list, in order. *)
Definition last_value (ms : list ReplicationMessage) (k : Z) : string :=
  foldl (fun v m => if decide (key m = k) then value m else v) EmptyString ms.

Definition holds (d : gmap Z string) (ms : list ReplicationMessage) : Prop :=
  forall k, value_of d k = last_value ms k.

Definition in_hand (sl : SlaveNode) : list ReplicationMessage :=
  match at_phase sl with Applying m => [m] | _ => [] end.

(** The messages slave [i] popped, in order, from the list of all pops. *)
Definition popped_by (i : nat) (ps : list (nat * ReplicationMessage)) : list ReplicationMessage :=
  (filter (fun p => p.1 = i) ps).*2.

Definition in_flight (cs : list (option ReplicationMessage)) : list ReplicationMessage :=
  cs ≫= option_list.

Lemma last_value_snoc ms m k :
  last_value (ms ++ [m]) k = if decide (key m = k) then value m else last_value ms k.
Proof. unfold last_value. by rewrite foldl_app. Qed.

Lemma holds_write d ms k v : holds d ms -> holds (ds_write k v d) (ms ++ [MkMsg k v]).
Proof.
  intros Hd k'. rewrite last_value_snoc. unfold value_of, ds_write. cbn [key value].
  rewrite lookup_insert. case_decide; [done|]. apply Hd.
Qed.

Lemma ds_read_value k d : (ds_read k d).2 = value_of d k.
Proof. unfold ds_read, value_of. by destruct (d !! k). Qed.

Lemma holds_read d ms k : holds d ms -> holds (ds_read k d).1 ms.
Proof.
  intros Hd k'. rewrite <-Hd. unfold ds_read, value_of. destruct (d !! k) eqn:E; [done|]. simpl.
  rewrite lookup_insert. case_decide; [|done]. subst. by rewrite E.
Qed.

Lemma popped_by_snoc i j m ps :
  popped_by i (ps ++ [(j, m)]) = popped_by i ps ++ (if decide (j = i) then [m] else []).
Proof.
  unfold popped_by. rewrite filter_app, fmap_app. f_equal. case_decide.
  - by rewrite filter_cons_True.
  - by rewrite filter_cons_False.
Qed.

Lemma in_flight_insert cs c x y :
  cs !! c = Some x ->
  in_flight (<[c := y]> cs) ++ option_list x ≡ₚ in_flight cs ++ option_list y.
Proof.
  intros Hc. apply list_elem_of_split_length in Hc as (l1 & l2 & -> & ->).
  rewrite insert_app_r_alt, Nat.sub_diag by done. simpl. unfold in_flight.
  rewrite !bind_app, !bind_cons. generalize (l1 ≫= option_list) (l2 ≫= option_list). intros a b.
  rewrite <-!(assoc_L (++)). f_equiv. rewrite (comm (++) b (option_list x)), (comm (++) b (option_list y)).
  rewrite !(assoc_L (++)). f_equiv. apply (comm (++)).
Qed.

Record ms_inv (n c : nat) (ps : list (nat * ReplicationMessage)) (s : system) : Prop := {
  inv_master : holds (master s) (writes s);
  inv_queue : pushes s = ps.*2 ++ queue s;
  inv_writes : writes s ≡ₚ pushes s ++ in_flight (clients s);
  inv_clients : length (clients s) = c;
  inv_single : c = 1%nat -> writes s = pushes s ++ in_flight (clients s);
  inv_slaves : length (slaves s) = n;
  inv_popped : Forall (fun p => (p.1 < n)%nat) ps;
  inv_slave i sl : slaves s !! i = Some sl ->
    exists applied, popped_by i ps = applied ++ in_hand sl /\ holds (datastore sl) applied
}.

Lemma ms_init_inv n c : ms_inv n c [] (init n c).
Proof.
  assert (Hf : in_flight (replicate c None) = []) by (induction c as [|c IH]; [done|exact IH]).
  split; cbn [init master queue slaves clients writes pushes]; rewrite ?Hf; try done.
  - by rewrite length_replicate.
  - by rewrite length_replicate.
  - intros i sl Hi. apply lookup_replicate in Hi as [-> _]. by exists [].
Qed.

(** A change of one slave that keeps what it popped. *)
Lemma set_slave_inv n c ps s i sl sl' :
  ms_inv n c ps s -> slaves s !! i = Some sl ->
  (forall applied, popped_by i ps = applied ++ in_hand sl -> holds (datastore sl) applied ->
     exists applied', popped_by i ps = applied' ++ in_hand sl' /\ holds (datastore sl') applied') ->
  ms_inv n c ps (set_slave i sl' s).
Proof.
  intros Hinv Hi Hsl. pose proof Hinv as [Hm Hq Hw Hc H1 Hn Hp Hs].
  split; cbn [set_slave master queue slaves clients writes pushes]; try done.
  - by rewrite length_insert.
  - intros j sl0. rewrite list_lookup_insert. case_decide as E; [|apply Hs].
    intros [= <-]. destruct E as [-> _]. destruct (Hs _ sl Hi) as (a & Ha & Hd). by apply (Hsl a).
Qed.

Lemma single_clients (cs : list (option ReplicationMessage)) c x :
  length cs = 1%nat -> cs !! c = Some x -> cs = [x] /\ c = 0%nat.
Proof. destruct cs as [|y [|? ?]]; try done. intros _. destruct c as [|c]; [by intros [= ->]|done]. Qed.

Lemma ms_step_inv n c ps s s' : step s s' -> ms_inv n c ps s -> exists ps', ms_inv n c ps' s'.
Proof.
  intros Hstep Hinv. pose proof Hinv as [Hm Hq Hw Hc H1 Hn Hp Hs].
  destruct Hstep as [s j k v Hj|s j m Hj|s i sl Hi Hr Hph He|s i sl m q Hi Hph Hpop|s i sl m Hi Hph|s k|s i sl k Hi|s i sl Hi].
  - exists ps. pose proof (in_flight_insert (clients s) j None (Some (MkMsg k v)) Hj) as Hf.
    simpl in Hf. rewrite app_nil_r in Hf.
    split; cbn [master queue slaves clients writes pushes]; try done.
    + by apply holds_write.
    + by rewrite Hf, Hw, <-(assoc_L (++)).
    + by rewrite length_insert.
    + intros Hc1. destruct (single_clients (clients s) j None) as [E ->]; [congruence|done|].
      rewrite H1, E by done. simpl. by rewrite app_nil_r.
  - exists ps. pose proof (in_flight_insert (clients s) j (Some m) None Hj) as Hf.
    simpl in Hf. rewrite app_nil_r in Hf.
    split; cbn [master queue slaves clients writes pushes]; try done.
    + unfold push. by rewrite Hq, <-(assoc_L (++)).
    + rewrite Hw, <-Hf, <-(assoc_L (++)). f_equiv. apply (comm (++)).
    + by rewrite length_insert.
    + intros Hc1. destruct (single_clients (clients s) j (Some m)) as [E ->]; [congruence|done|].
      rewrite H1, E by done. simpl. by rewrite app_nil_r.
  - exists ps. apply (set_slave_inv _ _ _ _ _ sl); [done|done|]. unfold in_hand. rewrite Hph. eauto.
  - destruct (queue s) as [|m0 q0] eqn:Eq; [done|]. injection Hpop as -> ->.
    exists (ps ++ [(i, m)]). assert (Hin : (i < n)%nat) by (apply lookup_lt_Some in Hi; lia).
    split; cbn [master queue slaves clients writes pushes]; try done.
    + rewrite fmap_app. simpl. by rewrite <-(assoc_L (++)).
    + by rewrite length_insert.
    + apply Forall_app. split; [done|]. by apply Forall_singleton.
    + intros j sl0. rewrite popped_by_snoc, list_lookup_insert. case_decide as E.
      * intros [= <-]. destruct E as [-> _]. destruct (Hs _ sl Hi) as (a & Ha & Hd).
        unfold in_hand in *. rewrite Hph, app_nil_r in Ha. exists a.
        rewrite decide_True by done. by rewrite Ha.
      * intros Hj. rewrite decide_False, app_nil_r; [by apply Hs|]. intros ->. apply E. split; [done|].
        by apply lookup_lt_Some in Hj.
  - exists ps. apply (set_slave_inv _ _ _ _ _ sl); [done|done|]. unfold in_hand. rewrite Hph.
    intros a Ha Hd. exists (a ++ [m]). split; [by rewrite app_nil_r|]. destruct m as [k v]. by apply holds_write.
  - exists ps. split; cbn [master queue slaves clients writes pushes]; try done. by apply holds_read.
  - exists ps. apply (set_slave_inv _ _ _ _ _ sl); [done|done|]. intros a Ha Hd. exists a. split; [done|]. by apply holds_read.
  - exists ps. apply (set_slave_inv _ _ _ _ _ sl); [done|done|]. intros a Ha Hd. by exists a.
Qed.

Lemma ms_reachable_inv n c s : reachable n c s -> exists ps, ms_inv n c ps s.
Proof.
  intros Hr. assert (H : forall s0, rtc step s0 s -> forall ps, ms_inv n c ps s0 -> exists ps', ms_inv n c ps' s).
  { induction 1 as [|s0 s1 s2 Hstep _ IH]; intros ps Hinv; [eauto|].
    destruct (ms_step_inv n c ps s0 s1 Hstep Hinv) as [ps1 H1]. by apply (IH Hr ps1). }
  by apply (H _ Hr []), ms_init_inv.
Qed.

Lemma popped_by_only ps : Forall (fun p : nat * ReplicationMessage => (p.1 < 1)%nat) ps -> popped_by 0 ps = ps.*2.
Proof.
  intros Hps. unfold popped_by. rewrite list_filter_all; [done|]. eapply Forall_impl; [done|].
  intros p Hp. simpl in Hp. lia.
Qed.

(** C40.  Delivery of the replication queue, in every state that any interleaving of clients, slaves,
    reads and stops can reach: the master reads what was last written to it; the pushed messages are
    those popped followed by those queued, nothing lost, repeated or reordered; every write is pushed
    or still in the hands of its client; every slave reads what the messages it popped and applied
    wrote, in order, so a message reaches one slave only. With one slave and one client the slave is
    always at a prefix of the writes of the master and, once nothing is under way, reads the same
    value as the master for every key. *)
Theorem master_slave_replication (n c : nat) (s : system) :
  reachable n c s ->
  holds (master s) (writes s) /\
  writes s ≡ₚ pushes s ++ in_flight (clients s) /\
  (exists ps : list (nat * ReplicationMessage),
     pushes s = ps.*2 ++ queue s /\ Forall (fun p => (p.1 < n)%nat) ps /\
     forall i sl, slaves s !! i = Some sl ->
       exists applied, popped_by i ps = applied ++ in_hand sl /\ holds (datastore sl) applied) /\
  (n = 1%nat -> c = 1%nat -> forall sl, slaves s !! 0%nat = Some sl ->
   exists applied rest, writes s = applied ++ rest /\ holds (datastore sl) applied /\
     (queue s = [] -> in_hand sl = [] -> in_flight (clients s) = [] ->
      forall k, (ds_read k (datastore sl)).2 = (ds_read k (master s)).2)).
Proof.
  intros Hr. destruct (ms_reachable_inv n c s Hr) as [ps [Hm Hq Hw Hc H1 Hn Hp Hs]].
  split; [done|]. split; [done|]. split; [by exists ps|].
  intros -> -> sl Hsl. destruct (Hs 0%nat sl Hsl) as (a & Ha & Hd).
  rewrite popped_by_only in Ha by done.
  exists a, (in_hand sl ++ queue s ++ in_flight (clients s)).
  assert (E : writes s = a ++ in_hand sl ++ queue s ++ in_flight (clients s)).
  { rewrite H1, Hq, Ha by done. by rewrite <-!(assoc_L (++)). }
  split; [done|]. split; [done|]. intros E1 E2 E3 k.
  rewrite E1, E2, E3, !app_nil_r in E. by rewrite !ds_read_value, Hm, Hd, E.
Qed.

(** The steps one message takes through slave [i]. *)
Lemma deliver_steps s i sl m q :
  slaves s !! i = Some sl -> running sl = true -> at_phase sl = Polling -> queue s = m :: q ->
  rtc step s (MkSys (master s) q
    (<[i := set_phase Polling (set_store (ds_write (key m) (value m) (datastore sl)) sl)]> (slaves s))
    (clients s) (writes s) (pushes s)).
Proof.
  intros Hi Hr Hp Hq. assert (Hl : (i < length (slaves s))%nat) by (by apply lookup_lt_Some in Hi).
  eapply rtc_l; [eapply (step_poll s i sl); try done; by rewrite Hq|].
  eapply rtc_l; [eapply (step_pop _ i (set_phase Popping sl) m q); cbn; [by rewrite list_lookup_insert_eq|done|by rewrite Hq]|].
  eapply rtc_l; [eapply (step_apply _ i (set_phase (Applying m) (set_phase Popping sl)) m); cbn; [|done]|].
  - by rewrite list_lookup_insert_eq by (by rewrite length_insert).
  - unfold set_slave. cbn. rewrite !list_insert_insert_eq. done.
Qed.

(** One client write and its delivery to slave [i]. *)
Definition delivered : system :=
  MkSys {[ 1 := "value1" ]} [] [set_store {[ 1 := "value1" ]} newSlave] [None]
    [MkMsg 1 "value1"] [MkMsg 1 "value1"].

Lemma master_slave_replication_witness :
  reachable 1 1 delivered /\ (ds_read 1 {[ 1 := "value1" ]}).2 = "value1" /\
  (ds_read 1 (datastore (set_store {[ 1 := "value1" ]} newSlave))).2 = (ds_read 1 (master delivered)).2.
Proof.
  assert (Hr : reachable 1 1 delivered).
  { eapply rtc_l; [eapply (step_write _ 0 1 "value1"); reflexivity|].
    eapply rtc_l; [eapply (step_push _ 0 (MkMsg 1 "value1")); reflexivity|].
    refine (deliver_steps _ 0 newSlave (MkMsg 1 "value1") [] _ _ _ _); reflexivity. }
  split; [done|]. split; [reflexivity|].
  destruct (master_slave_replication 1 1 delivered Hr) as (_ & _ & _ & H).
  destruct (H eq_refl eq_refl _ eq_refl) as (a & r & _ & _ & Hk). by apply Hk.
Defined.

(** With two slaves a message reaches one of them: the other reads an empty string for good. *)
Example second_slave_misses :
  exists s, reachable 2 1 s /\ queue s = [] /\ in_flight (clients s) = [] /\
    (ds_read 1 (master s)).2 = "value1" /\
    option_map (fun sl => (ds_read 1 (datastore sl)).2) (slaves s !! 1%nat) = Some EmptyString.
Proof.
  eexists. split; [|].
  - eapply rtc_l; [eapply (step_write _ 0 1 "value1"); reflexivity|].
    eapply rtc_l; [eapply (step_push _ 0 (MkMsg 1 "value1")); reflexivity|].
    refine (deliver_steps _ 0 newSlave (MkMsg 1 "value1") [] _ _ _ _); reflexivity.
  - done.
Qed.

(** Two clients can push in the other order than they wrote: the only slave then ends with the older
    value of the key. *)
Example clients_reorder :
  exists s, reachable 1 2 s /\ queue s = [] /\ in_flight (clients s) = [] /\
    (ds_read 1 (master s)).2 = "new" /\
    option_map (fun sl => (ds_read 1 (datastore sl)).2) (slaves s !! 0%nat) = Some "old".
Proof.
  eexists. split; [|].
  - eapply rtc_l; [eapply (step_write _ 0 1 "old"); reflexivity|].
    eapply rtc_l; [eapply (step_write _ 1 1 "new"); reflexivity|].
    eapply rtc_l; [eapply (step_push _ 1 (MkMsg 1 "new")); reflexivity|].
    eapply rtc_l; [eapply (step_push _ 0 (MkMsg 1 "old")); reflexivity|].
    etrans;
      [refine (deliver_steps _ 0 newSlave (MkMsg 1 "new") [MkMsg 1 "old"] _ _ _ _); reflexivity|].
    refine (deliver_steps _ 0 (set_store {[ 1 := "new" ]} newSlave) (MkMsg 1 "old") [] _ _ _ _); reflexivity.
  - done.
Qed.
