(* ===== verification/MasterLifetime.v ===== *)
(** * Lifetime of the replication nodes ([distributed_systems/replication/master_slave.cpp])

    [MasterNode] owns its slaves and their queue, and each slave runs [replicate] in a detached thread.
    The file models who may touch what and when: the constructor, the loop of [replicate] access by
    access, [stop], the destructor and the program of [main]. An access to a slave or a queue that is
    gone is undefined behaviour, which is recorded in the state. *)

From S2P Require Import Prelude Text MasterSlave.
Local Open Scope Z_scope.

(** ** Threads *)

(** Where the thread of a slave is in [replicate]: before the test of [running], before
    [replicationQueue.empty()], in [pop], before the write, asleep, or out of the loop. *)
Inductive slave_pos : Type :=
| Testing
| Checking
| InPop
| Writing (m : ReplicationMessage)
| Sleeping
| Left.

#[local] Instance message_eq_dec : EqDecision ReplicationMessage.
Proof. solve_decision. Defined.
#[local] Instance slave_pos_eq_dec : EqDecision slave_pos.
Proof. solve_decision. Defined.

(** A slave object: [alive] until it is deleted. *)
Record slave_obj : Type := MkObj { store : gmap Z string; runs : bool; alive : bool }.

(** A client thread runs [clientWrite]: the store of the master, then the queue. *)
Inductive client_pos : Type :=
| ToWrite (m : ReplicationMessage)
| ToPush (m : ReplicationMessage)
| ClientDone.

(** What the thread that owns the master calls after it has joined its clients. *)
Inductive owner_call : Type :=
| ReadMaster (k : Z)
| ReadSlave (index k : Z)
| StopSlaves.

(** The owner joins the clients, makes its calls and leaves the scope of the master: the destructor
    stops and deletes one slave after the other, then the members go. *)
Inductive owner_pos : Type :=
| Joining (calls : list owner_call)
| Calling (calls : list owner_call)
| Destroying (k : nat)
| Deleting (k : nat)
| Destroyed.

Record world : Type := MkWorld {
  m_store : gmap Z string;
  m_queue : list ReplicationMessage;
  queue_alive : bool;
  objs : list slave_obj;
  slave_threads : list slave_pos;
  client_threads : list client_pos;
  owner : owner_pos;
  output : list string;
  undefined : bool
}.

(** [MasterNode(numSlaves)]: the slaves are made, then their threads start. *)
Definition newMaster (numSlaves : nat) (clients : list ReplicationMessage) (calls : list owner_call) :
    world :=
  MkWorld ∅ [] true (replicate numSlaves (MkObj ∅ true true)) (replicate numSlaves Testing)
    (ToWrite <$> clients) (Joining calls) [] false.

(** Updates of one part of the world. *)
Definition set_owner (o : owner_pos) (w : world) : world :=
  MkWorld (m_store w) (m_queue w) (queue_alive w) (objs w) (slave_threads w) (client_threads w) o
    (output w) (undefined w).
Definition set_obj (i : nat) (o : slave_obj) (w : world) : world :=
  MkWorld (m_store w) (m_queue w) (queue_alive w) (<[i := o]> (objs w)) (slave_threads w)
    (client_threads w) (owner w) (output w) (undefined w).
Definition move (i : nat) (p : slave_pos) (w : world) : world :=
  MkWorld (m_store w) (m_queue w) (queue_alive w) (objs w) (<[i := p]> (slave_threads w))
    (client_threads w) (owner w) (output w) (undefined w).
Definition set_queue (q : list ReplicationMessage) (w : world) : world :=
  MkWorld (m_store w) q (queue_alive w) (objs w) (slave_threads w) (client_threads w) (owner w)
    (output w) (undefined w).
Definition say (line : string) (w : world) : world :=
  MkWorld (m_store w) (m_queue w) (queue_alive w) (objs w) (slave_threads w) (client_threads w) (owner w)
    (output w ++ [line]) (undefined w).
Definition fault (w : world) : world :=
  MkWorld (m_store w) (m_queue w) (queue_alive w) (objs w) (slave_threads w) (client_threads w) (owner w)
    (output w) true.

(** ** The steps of each thread *)

Definition replicated_line (m : ReplicationMessage) : string :=
  "Slave replicated key: " +:+ to_string (key m) +:+ ", value: " +:+ value m.
Definition wrote_line (m : ReplicationMessage) : string :=
  "Master wrote key: " +:+ to_string (key m) +:+ ", value: " +:+ value m.

(** One access of the loop of [replicate] in the thread of slave [i]; [None] while [pop] waits and
    once the loop is left. *)
Definition replicate_step (i : nat) (w : world) : option world :=
  p ← slave_threads w !! i;
  o ← objs w !! i;
  match p with
  | Testing =>
      Some (if alive o then move i (if runs o then Checking else Left) w else fault w)
  | Checking =>
      Some (if alive o && queue_alive w
            then move i (if empty (m_queue w) then Sleeping else InPop) w else fault w)
  | InPop =>
      if queue_alive w
      then '(m, q) ← pop (m_queue w); Some (move i (Writing m) (set_queue q w))
      else Some (fault w)
  | Writing m =>
      Some (if alive o
            then say (replicated_line m) (move i Sleeping
                   (set_obj i (MkObj (ds_write (key m) (value m) (store o)) (runs o) true) w))
            else fault w)
  | Sleeping => Some (move i Testing w)
  | Left => None
  end.

(** [clientWrite]. *)
Definition clientWrite_step (c : nat) (w : world) : option world :=
  p ← client_threads w !! c;
  match p with
  | ToWrite m =>
      Some (MkWorld (ds_write (key m) (value m) (m_store w)) (m_queue w) (queue_alive w) (objs w)
              (slave_threads w) (<[c := ToPush m]> (client_threads w)) (owner w)
              (output w ++ [wrote_line m]) (undefined w))
  | ToPush m =>
      Some (MkWorld (m_store w) (push m (m_queue w)) (queue_alive w) (objs w) (slave_threads w)
              (<[c := ClientDone]> (client_threads w)) (owner w) (output w) (undefined w))
  | ClientDone => None
  end.

Definition stop_obj (o : slave_obj) : slave_obj := MkObj (store o) false (alive o).
Definition free_obj (o : slave_obj) : slave_obj := MkObj (store o) (runs o) false.

(** The calls of the owner: [clientRead], [getSlave] with [clientReadSlave], [stopSlaves]. *)
Definition owner_call_step (c : owner_call) (w : world) : world :=
  match c with
  | ReadMaster k =>
      let '(d, v) := ds_read k (m_store w) in
      MkWorld d (m_queue w) (queue_alive w) (objs w) (slave_threads w) (client_threads w) (owner w)
        (output w ++ ["Client read from master: key = " +:+ to_string k +:+ ", value = " +:+ v])
        (undefined w)
  | ReadSlave index k =>
      match (if bool_decide (0 <= index /\ to_size_t index < Z.of_nat (length (objs w)))
             then objs w !! Z.to_nat index else None) with
      | None => say "Invalid slave index!" w
      | Some o =>
          let '(d, v) := ds_read k (store o) in
          say ("Client read from slave: key = " +:+ to_string k +:+ ", value = " +:+ v)
            (set_obj (Z.to_nat index) (MkObj d (runs o) (alive o)) w)
      end
  | StopSlaves =>
      MkWorld (m_store w) (m_queue w) (queue_alive w) (stop_obj <$> objs w) (slave_threads w)
        (client_threads w) (owner w) (output w) (undefined w)
  end.

Definition client_done (p : client_pos) : bool := match p with ClientDone => true | _ => false end.

(** The owner: joins, calls, and [~MasterNode]. *)
Definition owner_step (w : world) : option world :=
  match owner w with
  | Joining calls =>
      if forallb client_done (client_threads w) then Some (set_owner (Calling calls) w) else None
  | Calling (c :: calls) => Some (set_owner (Calling calls) (owner_call_step c w))
  | Calling [] => Some (set_owner (Destroying 0) w)
  | Destroying k =>
      match objs w !! k with
      | Some o => Some (set_owner (Deleting k) (set_obj k (stop_obj o) w))
      | None =>
          Some (MkWorld (m_store w) (m_queue w) false (objs w) (slave_threads w) (client_threads w)
                  Destroyed (output w) (undefined w))
      end
  | Deleting k =>
      o ← objs w !! k; Some (set_owner (Destroying (S k)) (set_obj k (free_obj o) w))
  | Destroyed => None
  end.

Inductive actor : Type := Owner | Client (c : nat) | Slave (i : nat).

Definition act (a : actor) (w : world) : option world :=
  match a with
  | Owner => owner_step w
  | Client c => clientWrite_step c w
  | Slave i => replicate_step i w
  end.

(** Any thread may go on until an access is undefined. *)
Inductive step : world -> world -> Prop :=
| step_act a w w' : undefined w = false -> act a w = Some w' -> step w w'.

Fixpoint run (schedule : list actor) (w : world) : option world :=
  match schedule with
  | [] => Some w
  | a :: schedule => if undefined w then None else w' ← act a w; run schedule w'
  end.

(** [main]: three slaves, three clients, reads from the master and from slave 0, [stopSlaves]. *)
Definition main_calls : list owner_call :=
  [ReadMaster 1; ReadMaster 2; ReadMaster 3; ReadSlave 0 1; ReadSlave 0 2; ReadSlave 0 3; StopSlaves].
Definition main : world :=
  newMaster 3 [MkMsg 1 "value1"; MkMsg 2 "value2"; MkMsg 3 "value3"] main_calls.

(** ** What is alive *)

(** How many slaves the owner has deleted. *)
Definition freed (n : nat) (o : owner_pos) : nat :=
  match o with
  | Joining _ | Calling _ => 0
  | Destroying k | Deleting k => k
  | Destroyed => n
  end.

(** The owner is in the destructor or past it. *)
Definition leaving (o : owner_pos) : bool :=
  match o with Joining _ | Calling _ => false | _ => true end.

Record life_inv (n : nat) (w : world) : Prop := {
  li_objs : length (objs w) = n;
  li_threads : length (slave_threads w) = n;
  li_alive : forall i o, objs w !! i = Some o -> alive o = negb (i <? freed n (owner w))%nat;
  li_queue : queue_alive w = match owner w with Destroyed => false | _ => true end;
  li_clients : match owner w with Joining _ => True | _ => forallb client_done (client_threads w) = true end;
  li_fault : undefined w = true -> leaving (owner w) = true
}.

Lemma newMaster_inv n clients calls : life_inv n (newMaster n clients calls).
Proof.
  split; simpl; try done; [by rewrite length_replicate..|].
  intros i o Hi. apply lookup_replicate in Hi as [-> _]. done.
Qed.

(** A thread that faults does so on an object that is gone, so the owner is leaving. *)
Lemma replicate_fault n i w p o :
  life_inv n w -> slave_threads w !! i = Some p -> objs w !! i = Some o ->
  alive o && queue_alive w = false -> leaving (owner w) = true.
Proof.
  intros Hinv Hp Ho. rewrite (li_alive n w Hinv i o Ho), (li_queue n w Hinv).
  by destruct (owner w).
Qed.

(** Setting the parts that the invariant does not speak of keeps it. *)
Lemma life_inv_frame n w w' :
  life_inv n w -> length (objs w') = n -> length (slave_threads w') = n ->
  (forall i o', objs w' !! i = Some o' -> exists o, objs w !! i = Some o /\ alive o' = alive o) ->
  queue_alive w' = queue_alive w -> owner w' = owner w ->
  (forallb client_done (client_threads w) = true -> forallb client_done (client_threads w') = true) ->
  (undefined w' = true -> undefined w = true \/ leaving (owner w) = true) ->
  life_inv n w'.
Proof.
  intros [Hn Ht Ha Hq Hc Hu] Hn' Ht' Ho Hq' Hw' Hc' Hu'. split; rewrite ?Hw', ?Hq'; try done.
  - intros i o' Hi. destruct (Ho i o' Hi) as (o & Hoi & ->). by apply Ha.
  - destruct (owner w); auto.
  - intros H. apply Hu' in H as [H|H]; auto.
Qed.

Lemma move_inv n w i p : life_inv n w -> life_inv n (move i p w).
Proof.
  intros Hinv. eapply life_inv_frame; simpl; eauto using li_objs.
  rewrite length_insert. by eapply li_threads.
Qed.

Lemma fault_inv n w : life_inv n w -> leaving (owner w) = true -> life_inv n (fault w).
Proof. intros Hinv Hl. eapply life_inv_frame; simpl; eauto using li_objs, li_threads. Qed.

Lemma say_inv n w line : life_inv n w -> life_inv n (say line w).
Proof. intros Hinv. eapply life_inv_frame; simpl; eauto using li_objs, li_threads. Qed.

Lemma set_queue_inv n w q : life_inv n w -> life_inv n (set_queue q w).
Proof. intros Hinv. eapply life_inv_frame; simpl; eauto using li_objs, li_threads. Qed.

Lemma set_obj_inv n w i o o' :
  life_inv n w -> objs w !! i = Some o -> alive o' = alive o -> life_inv n (set_obj i o' w).
Proof.
  intros Hinv Hi Ha. eapply life_inv_frame; simpl; eauto using li_threads.
  - rewrite length_insert. by eapply li_objs.
  - intros j x Hx. apply list_lookup_insert_Some in Hx as [(-> & <- & _)|[_ Hx]]; eauto.
Qed.
#[local] Hint Resolve move_inv fault_inv say_inv set_queue_inv : hpdb.

Lemma replicate_step_inv n i w w' : life_inv n w -> replicate_step i w = Some w' -> life_inv n w'.
Proof.
  intros Hinv Hs. unfold replicate_step in Hs. apply bind_Some in Hs as (p & Hp & Hs).
  apply bind_Some in Hs as (o & Ho & Hs). pose proof (replicate_fault n i w p o Hinv Hp Ho) as Hf.
  destruct p as [| | |m| |]; try (injection Hs as <-); try done.
  - destruct (alive o); eauto with hpdb.
  - destruct (alive o && queue_alive w); eauto with hpdb.
  - destruct (queue_alive w); [|rewrite andb_false_r in Hf; injection Hs as <-; eauto with hpdb].
    apply bind_Some in Hs as ([m q] & _ & [= <-]). eauto with hpdb.
  - destruct (alive o) eqn:Ha; [|eauto with hpdb]. by eapply say_inv, move_inv, set_obj_inv.
  - eauto with hpdb.
Qed.

Lemma clientWrite_step_inv n c w w' : life_inv n w -> clientWrite_step c w = Some w' -> life_inv n w'.
Proof.
  intros Hinv Hs. unfold clientWrite_step in Hs. apply bind_Some in Hs as (p & Hp & Hs).
  assert (Hd : p ≠ ClientDone -> forallb client_done (client_threads w) = true -> False).
  { intros Hne Hall. rewrite forallb_forall in Hall.
    specialize (Hall p). rewrite <-list_elem_of_In in Hall.
    specialize (Hall (list_elem_of_lookup_2 _ _ _ Hp)). by destruct p. }
  destruct p as [m|m|]; simplify_eq/=; eapply life_inv_frame; simpl;
    eauto using li_objs, li_threads; intros Hall; by destruct Hd.
Qed.

Lemma owner_call_inv n w c : life_inv n w -> life_inv n (owner_call_step c w).
Proof.
  intros Hinv. destruct c as [k|index k|]; cbn [owner_call_step].
  - destruct (ds_read k (m_store w)) as [d v]. eapply life_inv_frame; simpl; eauto using li_objs, li_threads.
  - case_match eqn:Ho; [|eauto with hpdb]. destruct (ds_read k (store s)) as [d v].
    apply say_inv. case_bool_decide; [|done]. by eapply set_obj_inv.
  - eapply life_inv_frame; simpl; eauto using li_threads.
    + rewrite length_fmap. by eapply li_objs.
    + intros i o' Hi. apply list_lookup_fmap_Some in Hi as (o & -> & Hi). eauto.
Qed.

(** A move of the owner that deletes nothing. *)
Lemma set_owner_inv n w o :
  life_inv n w -> freed n o = freed n (owner w) -> o ≠ Destroyed -> owner w ≠ Destroyed ->
  (leaving (owner w) = true -> leaving o = true) ->
  match o with Joining _ => True | _ => forallb client_done (client_threads w) = true end ->
  life_inv n (set_owner o w).
Proof.
  intros [Hn Ht Ha Hq Hc Hu] Hf Hd Hd' Hl Hcl. split; simpl; try done.
  - intros i x Hi. rewrite Hf. by apply Ha.
  - rewrite Hq. by destruct o, (owner w).
  - auto.
Qed.

Lemma owner_call_frame c w :
  owner (owner_call_step c w) = owner w /\
  client_threads (owner_call_step c w) = client_threads w.
Proof.
  destruct c as [k|index k|]; simpl; [by destruct (ds_read k (m_store w))| |done].
  case_match; [|done]. by destruct (ds_read k (store _)).
Qed.

Lemma delete_inv n w k o :
  life_inv n w -> owner w = Deleting k -> objs w !! k = Some o ->
  life_inv n (set_owner (Destroying (S k)) (set_obj k (free_obj o) w)).
Proof.
  intros [Hn Ht Ha Hq Hc Hu] Hw Ho. rewrite Hw in *. split; simpl; try done.
  - by rewrite length_insert.
  - intros i x Hi. apply list_lookup_insert_Some in Hi as [(-> & <- & _)|[Hne Hi]].
    + simpl. by rewrite (proj2 (Nat.ltb_lt i (S i)) ltac:(lia)).
    + rewrite (Ha i x Hi). simpl. f_equal. apply eq_bool_prop_intro. rewrite !Is_true_true, !Nat.ltb_lt. lia.
Qed.

Lemma owner_step_inv n w w' : life_inv n w -> owner_step w = Some w' -> life_inv n w'.
Proof.
  intros Hinv Hs. unfold owner_step in Hs. pose proof (li_clients n w Hinv) as Hc.
  destruct (owner w) as [calls|[|c calls]|k|k|] eqn:Hw; simplify_eq/=.
  - case_match eqn:Hall; [|done]. injection Hs as <-. apply set_owner_inv; rewrite ?Hw; done.
  - apply set_owner_inv; rewrite ?Hw; done.
  - destruct (owner_call_frame c w) as [Ho Hcl].
    apply set_owner_inv; rewrite ?Ho, ?Hw, ?Hcl; try done. by apply owner_call_inv.
  - destruct (objs w !! k) as [o|] eqn:Hk; injection Hs as <-.
    + apply set_owner_inv; simpl; rewrite ?Hw; try done. by eapply set_obj_inv.
    + destruct Hinv as [Hn Ht Ha Hq _ Hu]. rewrite Hw in *. split; simpl; try done.
      intros i x Hi. rewrite (Ha i x Hi). simpl. f_equal. apply lookup_lt_Some in Hi.
      apply lookup_ge_None in Hk. apply eq_bool_prop_intro. rewrite !Is_true_true, !Nat.ltb_lt. lia.
  - apply bind_Some in Hs as (o & Ho & [= <-]). by apply delete_inv.
Qed.

Lemma life_step_inv n w w' : life_inv n w -> step w w' -> life_inv n w'.
Proof.
  intros Hinv Hst. destruct Hst as [[|c|i] w w' _ Ha]; cbn [act] in Ha.
  - by eapply owner_step_inv.
  - by eapply clientWrite_step_inv.
  - by eapply replicate_step_inv.
Qed.

Lemma life_reachable_inv n clients calls w : rtc step (newMaster n clients calls) w -> life_inv n w.
Proof.
  assert (H : forall w0, rtc step w0 w -> life_inv n w0 -> life_inv n w).
  { induction 1; eauto using life_step_inv. }
  intros Hr. by eapply H, newMaster_inv.
Qed.

(** ** The destructor and the threads *)

(** The threads have left their loops before the destructor: nothing is touched any more. *)
Definition at_rest (w : world) : Prop :=
  Forall (fun p => p = Left) (slave_threads w) /\ forallb client_done (client_threads w) = true /\
  leaving (owner w) = true /\ undefined w = false.

Lemma at_rest_step w w' : at_rest w -> step w w' -> at_rest w'.
Proof.
  intros (Hl & Hc & Ho & Hu) Hst. destruct Hst as [[|c|i] w w' _ Ha]; cbn [act] in Ha.
  - unfold owner_step in Ha. destruct (owner w) as [| |k|k|]; try done.
    + case_match; by injection Ha as <-.
    + apply bind_Some in Ha as (o & _ & [= <-]). done.
  - unfold clientWrite_step in Ha. apply bind_Some in Ha as (p & Hp & Ha).
    rewrite forallb_forall in Hc. specialize (Hc p). rewrite <-list_elem_of_In in Hc.
    specialize (Hc (list_elem_of_lookup_2 _ _ _ Hp)). by destruct p.
  - unfold replicate_step in Ha. apply bind_Some in Ha as (p & Hp & Ha).
    apply bind_Some in Ha as (o & _ & Ha). rewrite Forall_lookup in Hl. by rewrite (Hl i p Hp) in Ha.
Qed.

Lemma at_rest_run w w' : at_rest w -> rtc step w w' -> undefined w' = false.
Proof. intros Hr. induction 1; [apply Hr|eauto using at_rest_step]. Qed.

(** The destructor runs to its end without a step of any slave. *)
Lemma destructor_runs n k : forall w,
  life_inv n w -> owner w = Destroying k -> undefined w = false ->
  exists w', rtc step w w' /\ owner w' = Destroyed /\ slave_threads w' = slave_threads w /\
    undefined w' = false.
Proof.
  remember (n - k)%nat as d eqn:Hd. revert k Hd. induction d as [|d IH]; intros k Hd w Hinv Hw Hu.
  - eexists. split; [eapply rtc_once, (step_act Owner); [done|]|].
    + cbn [act]. unfold owner_step. rewrite Hw, (lookup_ge_None_2 (objs w) k); [reflexivity|].
      rewrite (li_objs n w Hinv). lia.
    + done.
  - destruct (lookup_lt_is_Some_2 (objs w) k) as [o Ho]; [rewrite (li_objs n w Hinv); lia|].
    set (w1 := set_owner (Deleting k) (set_obj k (stop_obj o) w)).
    assert (H1 : step w w1) by (apply (step_act Owner); [done|]; cbn [act]; unfold owner_step; by rewrite Hw, Ho).
    set (w2 := set_owner (Destroying (S k)) (set_obj k (free_obj (stop_obj o)) w1)).
    assert (H2 : step w1 w2).
    { apply (step_act Owner); [done|]. cbn [act]. unfold owner_step. simpl.
      by rewrite list_lookup_insert_eq by (by eapply lookup_lt_Some). }
    destruct (IH (S k) ltac:(lia) w2) as (w' & Hr & Ho' & Ht & Hu'); [|done|done|].
    { eapply life_step_inv, H2. by eapply life_step_inv. }
    exists w'. split; [|by rewrite Ht]. eapply rtc_l; [exact H1|]. by eapply rtc_l; [exact H2|].
Qed.

(** After the destructor a thread that is still in its loop touches what is gone. *)
Lemma thread_faults n w i p :
  life_inv n w -> owner w = Destroyed -> undefined w = false -> slave_threads w !! i = Some p ->
  p ≠ Left -> exists w', rtc step w w' /\ undefined w' = true.
Proof.
  intros Hinv Hw Hu Hp Hne. assert (Hi : (i < n)%nat).
  { rewrite <-(li_threads n w Hinv). by eapply lookup_lt_Some. }
  destruct (lookup_lt_is_Some_2 (objs w) i) as [o Ho]; [by rewrite (li_objs n w Hinv)|].
  assert (Ha : alive o = false).
  { rewrite (li_alive n w Hinv i o Ho), Hw. simpl. by rewrite (proj2 (Nat.ltb_lt i n) Hi). }
  assert (Hq : queue_alive w = false) by (by rewrite (li_queue n w Hinv), Hw).
  assert (Hf : p ≠ Sleeping -> replicate_step i w = Some (fault w)).
  { intros Hs. unfold replicate_step. rewrite Hp, Ho. simpl. by destruct p; rewrite ?Ha, ?Hq. }
  destruct (decide (p = Sleeping)) as [->|Hs].
  - exists (fault (move i Testing w)). split; [|done].
    eapply rtc_l; [apply (step_act (Slave i) _ (move i Testing w)); [done|]|].
    + cbn [act]. unfold replicate_step. by rewrite Hp, Ho.
    + eapply rtc_once, (step_act (Slave i)); [done|]. cbn [act]. unfold replicate_step.
      cbn [move slave_threads objs]. rewrite list_lookup_insert_eq by (by eapply lookup_lt_Some).
      cbn [mbind option_bind]. rewrite Ho. cbn [mbind option_bind]. by rewrite Ha.
  - exists (fault w). split; [|done]. eapply rtc_once, (step_act (Slave i)); [done|]. by apply Hf.
Qed.

(** A thread that waits in [pop] on an empty queue with no client left. *)
Definition starved (i : nat) (w : world) : Prop :=
  slave_threads w !! i = Some InPop /\ m_queue w = [] /\
  forallb client_done (client_threads w) = true.

Lemma owner_step_frame w w' :
  owner_step w = Some w' ->
  slave_threads w' = slave_threads w /\ m_queue w' = m_queue w /\
  client_threads w' = client_threads w.
Proof.
  unfold owner_step. intros Hs. destruct (owner w) as [calls|[|c calls]|k|k|]; simplify_eq/=; try done.
  - case_match; by simplify_eq.
  - destruct c as [k|index k|]; simpl; [by destruct (ds_read k (m_store w))| |done].
    case_match; [|done]. by destruct (ds_read k (store _)).
  - case_match; by simplify_eq.
  - apply bind_Some in Hs as (o & _ & [= <-]). done.
Qed.

Lemma starved_step n i w w' :
  life_inv n w -> starved i w -> step w w' -> undefined w' = false -> starved i w'.
Proof.
  intros Hinv (Hi & Hq & Hc) Hst Hu. destruct Hst as [[|c|j] w w' Hu0 Ha]; cbn [act] in Ha.
  - destruct (owner_step_frame w w' Ha) as (Ht & Hq' & Hc'). unfold starved. by rewrite Ht, Hq', Hc'.
  - unfold clientWrite_step in Ha. apply bind_Some in Ha as (p & Hp & Ha).
    rewrite forallb_forall in Hc. specialize (Hc p). rewrite <-list_elem_of_In in Hc.
    specialize (Hc (list_elem_of_lookup_2 _ _ _ Hp)). by destruct p.
  - unfold replicate_step in Ha. apply bind_Some in Ha as (p & Hp & Ha).
    apply bind_Some in Ha as (o & Ho & Ha). rewrite Hq in Ha.
    assert (Hne : p ≠ InPop).
    { intros ->. destruct (queue_alive w); [done|]. by injection Ha as <-. }
    assert (Hij : j ≠ i) by (intros ->; rewrite Hi in Hp; congruence).
    destruct p as [| | |m| |]; try done; repeat case_match; try done; injection Ha as <-; try done;
      (split; [simpl; by rewrite list_lookup_insert_ne|]); by split.
Qed.

(** C21.  Lifetimes of the slaves. Whatever the clients write and the owner calls, and however the
    threads interleave: nothing is used after its end before the destructor of the master begins; when
    it begins, some continuation uses a deleted slave or queue exactly when some slave thread has not
    left its loop, since the destructor stops a slave and deletes it without waiting; and a thread in
    [pop] on the empty queue, once the clients are done, never leaves it, stopped or not. *)
Theorem slave_lifetime (n : nat) (clients : list ReplicationMessage) (calls : list owner_call)
    (w : world) :
  rtc step (newMaster n clients calls) w ->
  (undefined w = true -> leaving (owner w) = true) /\
  (owner w = Destroying 0 -> undefined w = false ->
     (exists w', rtc step w w' /\ undefined w' = true) <->
     exists i p, slave_threads w !! i = Some p /\ p ≠ Left) /\
  (forall i w', slave_threads w !! i = Some InPop -> m_queue w = [] ->
     (forall rest, owner w ≠ Joining rest) -> rtc step w w' -> undefined w' = false ->
     slave_threads w' !! i = Some InPop).
Proof.
  intros Hr. pose proof (life_reachable_inv n clients calls w Hr) as Hinv.
  split; [apply (li_fault n w Hinv)|]. split.
  - intros Hw Hu. split.
    + intros (w' & Hrun & Hf).
      destruct (Forall_Exists_dec (fun p => p = Left) _ (fun p => decide (p = Left)) (slave_threads w))
        as [He|He].
      * assert (Hrest : at_rest w); [|by rewrite (at_rest_run w w' Hrest Hrun) in Hf].
        pose proof (li_clients n w Hinv) as Hc. rewrite Hw in Hc. split; [done|by rewrite Hw].
      * apply Exists_exists in He as (p & Hp & Hne). apply list_elem_of_lookup in Hp as [i Hp]. eauto.
    + intros (i & p & Hp & Hne).
      destruct (destructor_runs n 0 w Hinv Hw Hu) as (w1 & Hrun & Hw1 & Ht & Hu1).
      rewrite <-Ht in Hp. assert (Hinv1 : life_inv n w1).
      { eapply life_reachable_inv. by etrans. }
      destruct (thread_faults n w1 i p Hinv1 Hw1 Hu1 Hp Hne) as (w' & Hrun' & Hf).
      exists w'. split; [by etrans|done].
  - intros i w' Hi Hq Hj Hrun Hu. assert (Hst : starved i w).
    { split; [done|]. split; [done|]. pose proof (li_clients n w Hinv) as Hc.
      destruct (owner w) as [rest| | | |] eqn:Hw; try done. by destruct (Hj rest). }
    clear Hi Hq Hj Hr. revert Hst. induction Hrun as [|w w1 w2 H1 H2 IH]; [by intros [? _]|].
    intros Hst. assert (Hu1 : undefined w1 = false).
    { destruct H2 as [|? ? ? [? ? ? ? _] _]; done. }
    apply IH; [by eapply life_step_inv|done|by eapply starved_step].
Qed.

(** ** Runs of [main] *)

Lemma life_run_sound schedule w w' : run schedule w = Some w' -> rtc step w w'.
Proof.
  revert w. induction schedule as [|a schedule IH]; intros w Hr; simpl in Hr; [by simplify_eq|].
  destruct (undefined w) eqn:Hu; [done|]. apply bind_Some in Hr as (w1 & H1 & Hr).
  eapply rtc_l; [by eapply step_act|auto].
Qed.

(** The clients write and slave 0 takes all their messages; the owner then makes its calls. *)
Definition replicate_round (i : nat) : list actor :=
  [Slave i; Slave i; Slave i; Slave i; Slave i].
Definition replicated_schedule : list actor :=
  [Client 0; Client 0; Client 1; Client 1; Client 2; Client 2] ++
  replicate_round 0 ++ replicate_round 0 ++ replicate_round 0 ++ replicate 8 Owner.

(** The owner leaves while every thread is at the test of its loop: each will read the [running] of a
    deleted slave. *)
Lemma slave_lifetime_witness :
  exists w, run (replicated_schedule ++ [Owner]) main = Some w /\ owner w = Destroying 0 /\
    slave_threads w = [Testing; Testing; Testing] /\
    (exists w', rtc step w w' /\ undefined w' = true).
Proof.
  eexists. split; [vm_compute; reflexivity|]. split; [reflexivity|]. split; [reflexivity|].
  edestruct (slave_lifetime 3 [MkMsg 1 "value1"; MkMsg 2 "value2"; MkMsg 3 "value3"] main_calls)
    as (_ & Hd & _).
  { apply (life_run_sound (replicated_schedule ++ [Owner])). vm_compute. reflexivity. }
  apply Hd; [reflexivity..|]. exists 0%nat, Testing. done.
Defined.

(** When each thread gets to its test after [stopSlaves] and before the destructor, [main] ends well. *)
Example main_ends :
  option_map (fun w => (owner w, undefined w, slave_threads w, drop 6 (output w)))
    (run (replicated_schedule ++ [Slave 0; Slave 1; Slave 2] ++ replicate 8 Owner) main) =
  Some (Destroyed, false, [Left; Left; Left],
        ["Client read from master: key = 1, value = value1";
         "Client read from master: key = 2, value = value2";
         "Client read from master: key = 3, value = value3";
         "Client read from slave: key = 1, value = value1";
         "Client read from slave: key = 2, value = value2";
         "Client read from slave: key = 3, value = value3"]).
Proof. vm_compute. reflexivity. Qed.

(** Two slaves see the only message; one takes it, and the other stays in [pop] through [stopSlaves] and
    the destructor, until it uses the queue that is gone. *)
Example stopped_slave_in_pop :
  option_map (fun w => (owner w, undefined w, slave_threads w))
    (run ([Client 0; Client 0; Slave 0; Slave 1; Slave 0; Slave 1; Slave 0; Slave 0; Slave 0] ++
          [Client 1; Client 1; Client 2; Client 2] ++ replicate_round 2 ++ replicate_round 2 ++
          replicate 8 Owner ++ [Slave 0; Slave 2] ++ replicate 8 Owner ++ [Slave 1]) main) =
  Some (Destroyed, true, [Left; InPop; Left]).
Proof. vm_compute. reflexivity. Qed.
