(* ===== verification/MultiMaster.v ===== *)
(** * Multi-master replication ([distributed_systems/replication/multi_master.cpp])

    Nodes that each accept writes and replicate them to their peers, resolving conflicts by
    timestamp. A writer holds the mutex of its node while it replicates; the threads interleave as a
    step relation whose steps are bounded by the acquisition of a mutex. *)

From S2P Require Import Prelude.
From stdpp Require Import relations.
Local Open Scope Z_scope.

(** ** Nodes *)

Record DataEntry : Type := MkEntry { value : string; timestamp : Z }.

Record MasterNode : Type := MkNode {
  dataStore : gmap string DataEntry;
  dataMutex : bool;
  peers : list nat
}.

Definition newNode : MasterNode := MkNode ∅ false [].

(** Nodes are addressed by their position. *)
Definition addPeer (peer : nat) (n : MasterNode) : MasterNode :=
  MkNode (dataStore n) (dataMutex n) (peers n ++ [peer]).

Definition set_mutex (b : bool) (n : MasterNode) : MasterNode := MkNode (dataStore n) b (peers n).

(** The local store of [writeData]: no comparison of timestamps. *)
Definition local_write (k v : string) (currentTime : Z) (n : MasterNode) : MasterNode :=
  MkNode (<[k := MkEntry v currentTime]> (dataStore n)) (dataMutex n) (peers n).

(** [replicateData]: a known key is replaced only by a newer entry. *)
Definition replicateData (k v : string) (ts : Z) (n : MasterNode) : MasterNode :=
  match dataStore n !! k with
  | Some e => if timestamp e <? ts
              then MkNode (<[k := MkEntry v ts]> (dataStore n)) (dataMutex n) (peers n) else n
  | None => MkNode (<[k := MkEntry v ts]> (dataStore n)) (dataMutex n) (peers n)
  end.

Definition readData (k : string) (n : MasterNode) : string :=
  match dataStore n !! k with
  | Some e => value e
  | None => "Key not found"
  end.

(** ** Threads *)

Record write : Type := MkWrite { w_key : string; w_value : string; w_time : Z }.
#[export] Instance write_eq_dec : EqDecision write.
Proof. solve_decision. Defined.

(** A client thread between requests, or inside [writeData] of node [i] with the peers still to be
    replicated to. *)
Inductive thread : Type :=
| Idle
| Replicating (i : nat) (w : write) (todo : list nat).

(** [history] lists the writes in the order in which they read the clock; [applied] has, for every node, the
    writes it has seen. *)
Record system : Type := MkSys {
  nodes : list MasterNode;
  threads : list thread;
  history : list write;
  applied : list (list write)
}.

Inductive step : system -> system -> Prop :=
(** [writeData] takes the mutex, reads the clock and stores, before any other thread gets to the node.
    [std::time] may give any time, also one before an earlier reading when the clock is set back. *)
| step_write s th i n a k v t :
    threads s !! th = Some Idle -> nodes s !! i = Some n -> applied s !! i = Some a ->
    dataMutex n = false ->
    step s (MkSys (<[i := set_mutex true (local_write k v t n)]> (nodes s))
              (<[th := Replicating i (MkWrite k v t) (peers n)]> (threads s))
              (history s ++ [MkWrite k v t]) (<[i := a ++ [MkWrite k v t]]> (applied s)))
(** One call of [replicateData] on a peer whose mutex is free. *)
| step_replicate s th i w p todo n a :
    threads s !! th = Some (Replicating i w (p :: todo)) -> nodes s !! p = Some n ->
    applied s !! p = Some a -> dataMutex n = false ->
    step s (MkSys (<[p := replicateData (w_key w) (w_value w) (w_time w) n]> (nodes s))
              (<[th := Replicating i w todo]> (threads s))
              (history s) (<[p := a ++ [w]]> (applied s)))
(** [writeData] returns and releases the mutex. *)
| step_return s th i w n :
    threads s !! th = Some (Replicating i w []) -> nodes s !! i = Some n ->
    step s (MkSys (<[i := set_mutex false n]> (nodes s)) (<[th := Idle]> (threads s))
              (history s) (applied s)).

(** Nodes with the given peers, and idle clients. *)
Definition init (ps : list (list nat)) (clients : nat) : system :=
  MkSys ((fun l => foldl (fun n p => addPeer p n) newNode l) <$> ps) (replicate clients Idle) []
    (replicate (length ps) []).

Definition reachable (ps : list (list nat)) (clients : nat) (s : system) : Prop :=
  rtc step (init ps clients) s.

(** Every node replicates to every other one. *)
Definition full_mesh (ps : list (list nat)) : Prop :=
  forall i l, ps !! i = Some l -> forall j, (j < length ps)%nat -> j ≠ i -> j ∈ l.

(** ** What a node holds *)

(** The clock was never set back between the writes. *)
Definition clock_forward (h : list write) : Prop :=
  StronglySorted (fun u w => w_time u <= w_time w) h.

Lemma clock_forward_snoc h w :
  clock_forward (h ++ [w]) -> clock_forward h /\ forall u, u ∈ h -> w_time u <= w_time w.
Proof.
  unfold clock_forward. induction h as [|u h IH]; cbn [app].
  { intros _. split; [constructor|]. set_solver. }
  intros [Hs Hall]%StronglySorted_inv. destruct (IH Hs) as [Hh Hw].
  apply Forall_app in Hall as [Hu Hl]. rewrite Forall_singleton in Hl. split; [by constructor|].
  intros x [->|Hx]%elem_of_cons; auto.
Qed.

(** A node holds for every key one of the writes of the key that it has seen, and a newest one
    when [P]; it holds nothing only for a key it has seen no write of. *)
Definition holds (P : Prop) (a : list write) (d : gmap string DataEntry) : Prop :=
  forall k, match d !! k with
            | Some e => MkWrite k (value e) (timestamp e) ∈ a /\
                        (P -> forall w, w ∈ a -> w_key w = k -> w_time w <= timestamp e)
            | None => forall w, w ∈ a -> w_key w ≠ k
            end.

Lemma holds_weaken (P Q : Prop) a d : (Q -> P) -> holds P a d -> holds Q a d.
Proof. intros HQ Hd k. specialize (Hd k). destruct (d !! k); [|done]. destruct Hd. auto. Qed.

Lemma holds_insert (P : Prop) a d k v t :
  holds P a d -> (P -> forall w, w ∈ a -> w_key w = k -> w_time w <= t) ->
  holds P (a ++ [MkWrite k v t]) (<[k := MkEntry v t]> d).
Proof.
  intros Hd Ht k'. rewrite lookup_insert. case_decide as E.
  - subst k'. simpl. split; [set_solver|]. intros HP w Hw Hk.
    apply elem_of_app in Hw as [Hw|Hw]; [by apply Ht|].
    apply list_elem_of_singleton in Hw as ->. simpl. lia.
  - specialize (Hd k'). destruct (d !! k') as [e|].
    + destruct Hd as [H1 H2]. split; [set_solver|]. intros HP w Hw Hk.
      apply elem_of_app in Hw as [Hw|Hw]; [by apply H2|]. apply list_elem_of_singleton in Hw as ->. by destruct E.
    + intros w Hw. apply elem_of_app in Hw as [Hw|Hw]; [by apply Hd|].
      apply list_elem_of_singleton in Hw as ->. done.
Qed.

Lemma holds_replicate (P : Prop) a n w :
  holds P a (dataStore n) ->
  holds P (a ++ [w]) (dataStore (replicateData (w_key w) (w_value w) (w_time w) n)).
Proof.
  intros Hn. destruct w as [k v t]. unfold replicateData. cbn [w_key w_value w_time].
  pose proof (Hn k) as Hk. destruct (dataStore n !! k) as [e|] eqn:E.
  - destruct Hk as [H1 H2]. destruct (timestamp e <? t) eqn:Et.
    + apply Z.ltb_lt in Et. apply holds_insert; [done|]. intros HP w Hw Hwk. specialize (H2 HP w Hw Hwk). lia.
    + apply Z.ltb_ge in Et. intros k'. specialize (Hn k'). destruct (dataStore n !! k') as [e'|] eqn:E'.
      * destruct Hn as [H3 H4]. split; [set_solver|]. intros HP w Hw Hwk.
        apply elem_of_app in Hw as [Hw|Hw]; [by apply H4|]. apply list_elem_of_singleton in Hw as ->.
        simpl in Hwk. subst k'. rewrite E in E'. injection E' as <-. done.
      * intros w Hw. apply elem_of_app in Hw as [Hw|Hw]; [by apply Hn|].
        apply list_elem_of_singleton in Hw as ->. simpl. congruence.
  - apply holds_insert; [done|]. intros HP w Hw Hwk. by destruct (Hk w Hw).
Qed.

(** ** Delivery *)

(** Write [w] of node [o] has reached node [j], or its thread still has [j] to do. *)
Definition on_its_way (s : system) (o : nat) (w : write) (j : nat) : Prop :=
  (exists a, applied s !! j = Some a /\ w ∈ a) \/
  (exists th todo, threads s !! th = Some (Replicating o w todo) /\ j ∈ todo).

Record mm_inv (ps : list (list nat)) (s : system) : Prop := {
  inv_nodes i n : nodes s !! i = Some n -> ps !! i = Some (peers n);
  inv_len : length (nodes s) = length ps /\ length (applied s) = length ps;
  inv_newest i n a : nodes s !! i = Some n -> applied s !! i = Some a ->
    holds (clock_forward (history s)) a (dataStore n);
  inv_applied i a w : applied s !! i = Some a -> w ∈ a -> w ∈ history s;
  inv_thread th i w todo : threads s !! th = Some (Replicating i w todo) -> w ∈ history s;
  inv_way w : w ∈ history s -> exists o l, ps !! o = Some l /\
    forall j, (j < length ps)%nat -> j = o \/ j ∈ l -> on_its_way s o w j
}.

Lemma foldl_addPeer l : forall n, foldl (fun n p => addPeer p n) n l = MkNode (dataStore n) (dataMutex n) (peers n ++ l).
Proof.
  induction l as [|p l IH]; intros n; cbn [foldl].
  - rewrite app_nil_r. by destruct n.
  - rewrite IH. cbn. by rewrite <-(assoc_L (++)).
Qed.

Lemma mm_init_inv ps clients : mm_inv ps (init ps clients).
Proof.
  split; cbn [init nodes threads history applied].
  - intros i n. rewrite list_lookup_fmap. destruct (ps !! i) as [l|]; [|done]. intros [= <-].
    by rewrite foldl_addPeer.
  - by rewrite length_fmap, length_replicate.
  - intros i n a. rewrite list_lookup_fmap. destruct (ps !! i) as [l|]; [|done]. intros [= <-] Ha.
    apply lookup_replicate in Ha as [-> _]. rewrite foldl_addPeer. intros k. cbn. rewrite lookup_empty. set_solver.
  - intros i a w Ha. apply lookup_replicate in Ha as [-> _]. set_solver.
  - intros th i w todo Hth. by apply lookup_replicate in Hth as [? _].
  - set_solver.
Qed.

(** Whatever a step appends to the lists of seen writes, the ones already seen stay. *)
Lemma applied_grows (ap : list (list write)) p a b w j x :
  ap !! p = Some a -> ap !! j = Some x -> w ∈ x -> exists y, <[p := a ++ b]> ap !! j = Some y /\ w ∈ y.
Proof.
  intros Hp Hj Hw. rewrite list_lookup_insert. case_decide as E.
  - destruct E as [<- _]. exists (a ++ b). split; [done|]. rewrite Hp in Hj. injection Hj as ->. set_solver.
  - eauto.
Qed.

(** Lookups after the update of one node and of what it has seen. *)
Lemma node_update_inv (P : Prop) ps s p n n' a w :
  mm_inv ps s -> nodes s !! p = Some n -> applied s !! p = Some a -> peers n' = peers n ->
  (P -> clock_forward (history s)) -> holds P (a ++ [w]) (dataStore n') ->
  (forall i m, <[p := n']> (nodes s) !! i = Some m -> ps !! i = Some (peers m)) /\
  (length (<[p := n']> (nodes s)) = length ps /\ length (<[p := a ++ [w]]> (applied s)) = length ps) /\
  (forall i m x, <[p := n']> (nodes s) !! i = Some m -> <[p := a ++ [w]]> (applied s) !! i = Some x ->
     holds P x (dataStore m)) /\
  (forall i x u, <[p := a ++ [w]]> (applied s) !! i = Some x -> u ∈ x -> u = w \/ u ∈ history s).
Proof.
  intros [Hn [Hl1 Hl2] Hnew Hap Hthr Hway] Hp Ha Hpe HP Hw. rewrite !length_insert.
  split; [|split; [done|split]].
  - intros i m. rewrite list_lookup_insert. case_decide as E; [|apply Hn]. destruct E as [-> _].
    intros [= <-]. rewrite Hpe. by apply Hn.
  - intros i m x. rewrite !list_lookup_insert. destruct (decide (p = i)) as [->|Hne].
    + apply lookup_lt_Some in Hp, Ha. rewrite !decide_True by done. by intros [= <-] [= <-].
    + rewrite !decide_False by tauto. intros Hm Hx. eapply holds_weaken; [exact HP|by eapply Hnew].
  - intros i x u. rewrite list_lookup_insert. case_decide as E.
    + intros [= <-] Hu. apply elem_of_app in Hu as [Hu|Hu]; [right; by eapply Hap|].
      left. by apply list_elem_of_singleton in Hu.
    + intros Hx Hu. right. by eapply Hap.
Qed.

Lemma mm_write_inv ps s th i n a k v t :
  mm_inv ps s -> threads s !! th = Some Idle -> nodes s !! i = Some n -> applied s !! i = Some a ->
  mm_inv ps (MkSys (<[i := set_mutex true (local_write k v t n)]> (nodes s))
              (<[th := Replicating i (MkWrite k v t) (peers n)]> (threads s))
              (history s ++ [MkWrite k v t]) (<[i := a ++ [MkWrite k v t]]> (applied s))).
Proof.
  intros Hinv Hth Hi Ha. pose proof Hinv as [Hn [Hl1 Hl2] Hnew Hap Hthr Hway].
  pose proof (clock_forward_snoc (history s) (MkWrite k v t)) as Hfwd.
  destruct (node_update_inv (clock_forward (history s ++ [MkWrite k v t])) ps s i n
    (set_mutex true (local_write k v t n)) a (MkWrite k v t)) as (H1 & H2 & H3 & H4); [done..|naive_solver| |].
  { cbn [set_mutex local_write dataStore]. apply holds_insert.
    - eapply holds_weaken; [|by eapply Hnew]. naive_solver.
    - intros HP w Hw _. apply (proj2 (Hfwd HP)). by eapply Hap. }
  split; cbn [nodes threads history applied]; try done.
  + intros j x u Hx Hu. destruct (H4 j x u Hx Hu) as [->|?]; set_solver.
  + intros th' i' w' td. rewrite list_lookup_insert. case_decide; [intros [= <- <- <-]; set_solver|].
    intros Hx. apply Hthr in Hx. set_solver.
  + intros w Hw. apply elem_of_app in Hw as [Hw|Hw].
    * destruct (Hway w Hw) as (o & l & Ho & Hj). exists o, l. split; [done|]. intros j Hj1 Hj2.
      destruct (Hj j Hj1 Hj2) as [(x & Hx & Hwx)|(th' & td & Ht' & Hjt)].
      -- left. by eapply applied_grows.
      -- right. exists th', td. split; [|done]. cbn [threads]. rewrite list_lookup_insert_ne; [done|]. congruence.
    * apply list_elem_of_singleton in Hw as ->. exists i, (peers n). split; [by apply Hn|].
      intros j Hj1 [->|Hj2].
      -- left. exists (a ++ [MkWrite k v t]). cbn [applied].
         rewrite list_lookup_insert_eq by (by apply lookup_lt_Some in Ha). split; [done|]. set_solver.
      -- right. exists th, (peers n). cbn [threads].
         by rewrite list_lookup_insert_eq by (by apply lookup_lt_Some in Hth).
Qed.

Lemma mm_replicate_inv ps s th i w p todo n a :
  mm_inv ps s -> threads s !! th = Some (Replicating i w (p :: todo)) -> nodes s !! p = Some n ->
  applied s !! p = Some a ->
  mm_inv ps (MkSys (<[p := replicateData (w_key w) (w_value w) (w_time w) n]> (nodes s))
              (<[th := Replicating i w todo]> (threads s))
              (history s) (<[p := a ++ [w]]> (applied s))).
Proof.
  intros Hinv Hth Hp Ha. pose proof Hinv as [Hn [Hl1 Hl2] Hnew Hap Hthr Hway].
  destruct (node_update_inv (clock_forward (history s)) ps s p n
    (replicateData (w_key w) (w_value w) (w_time w) n) a w) as (H1 & H2 & H3 & H4); try done.
  { unfold replicateData. by repeat case_match. }
  { apply holds_replicate. by eapply Hnew. }
  pose proof (Hthr _ _ _ _ Hth) as Hw.
  split; cbn [nodes threads history applied]; try done.
  + intros j x u Hx Hu. by destruct (H4 j x u Hx Hu) as [->|?].
  + intros th' i' w' td. rewrite list_lookup_insert. case_decide; [by intros [= <- <- <-]|apply Hthr].
  + intros w' Hw'. destruct (Hway w' Hw') as (o & l & Ho & Hj). exists o, l. split; [done|]. intros j Hj1 Hj2.
    destruct (Hj j Hj1 Hj2) as [(x & Hx & Hwx)|(th' & td & Ht' & Hjt)]; [left; by eapply applied_grows|].
    destruct (decide (th' = th)) as [->|Hne].
    * rewrite Hth in Ht'. injection Ht' as <- <- <-. apply elem_of_cons in Hjt as [->|Hjt].
      -- left. exists (a ++ [w]). cbn [applied].
         rewrite list_lookup_insert_eq by (by apply lookup_lt_Some in Ha). split; [done|]. set_solver.
      -- right. exists th, todo. cbn [threads].
         by rewrite list_lookup_insert_eq by (by apply lookup_lt_Some in Hth).
    * right. exists th', td. cbn [threads]. by rewrite list_lookup_insert_ne.
Qed.

Lemma mm_return_inv ps s th i w n :
  mm_inv ps s -> threads s !! th = Some (Replicating i w []) -> nodes s !! i = Some n ->
  mm_inv ps (MkSys (<[i := set_mutex false n]> (nodes s)) (<[th := Idle]> (threads s))
              (history s) (applied s)).
Proof.
  intros Hinv Hth Hi. pose proof Hinv as [Hn [Hl1 Hl2] Hnew Hap Hthr Hway].
  split; cbn [nodes threads history applied].
  + intros j m. rewrite list_lookup_insert. case_decide as E; [|apply Hn]. destruct E as [-> _].
    intros [= <-]. exact (Hn j n Hi).
  + by rewrite length_insert.
  + intros j m x. rewrite list_lookup_insert. case_decide as E; [|apply Hnew]. destruct E as [-> _].
    intros [= <-]. exact (Hnew j n x Hi).
  + done.
  + intros th' i' w' td. rewrite list_lookup_insert. case_decide; [done|apply Hthr].
  + intros w' Hw. destruct (Hway w' Hw) as (o & l & Ho & Hj). exists o, l. split; [done|]. intros j Hj1 Hj2.
    destruct (Hj j Hj1 Hj2) as [Hx|(th' & td & Ht' & Hjt)]; [by left|]. right. exists th', td. split; [|done].
    cbn [threads]. rewrite list_lookup_insert_ne; [done|]. intros <-. rewrite Hth in Ht'. injection Ht' as <- <- <-. set_solver.
Qed.

Lemma mm_step_inv ps s s' : step s s' -> mm_inv ps s -> mm_inv ps s'.
Proof. intros Hstep Hinv. destruct Hstep; eauto using mm_write_inv, mm_replicate_inv, mm_return_inv. Qed.

Lemma mm_reachable_inv ps clients s : reachable ps clients s -> mm_inv ps s.
Proof.
  assert (H : forall s0 s1, rtc step s0 s1 -> mm_inv ps s0 -> mm_inv ps s1).
  { induction 1 as [|s0 s1 s2 Hstep _ IH]; [done|]. intros H0. apply IH. by apply (mm_step_inv ps s0). }
  intros Hr. apply (H _ _ Hr), mm_init_inv.
Qed.

(** Two newest entries of the same writes with distinct times are equal. *)
Lemma newest_unique a b d e :
  NoDup (w_time <$> a) -> (forall w, w ∈ a <-> w ∈ b) -> holds True a d -> holds True b e -> d = e.
Proof.
  intros Hnd Hab Ha Hb. apply map_eq. intros k. specialize (Ha k). specialize (Hb k).
  destruct (d !! k) as [[v t]|], (e !! k) as [[v' t']|]; simpl in *; [| | |done].
  - destruct Ha as [Ha1 Ha2], Hb as [Hb1 Hb2]. apply Hab in Hb1 as Hb1'. apply Hab in Ha1 as Ha1'.
    specialize (Ha2 I _ Hb1' eq_refl). specialize (Hb2 I _ Ha1' eq_refl). simpl in *.
    assert (E : MkWrite k v t = MkWrite k v' t')
      by (apply (NoDup_fmap_inj_on w_time a); try done; simpl; lia).
    by injection E as -> ->.
  - destruct Ha as [Ha1 _]. apply Hab in Ha1. by destruct (Hb _ Ha1).
  - destruct Hb as [Hb1 _]. apply Hab in Hb1. by destruct (Ha _ Hb1).
Qed.

Lemma holds_same P a b d : (forall w, w ∈ a <-> w ∈ b) -> holds P a d -> holds P b d.
Proof.
  intros Hab Hd k. specialize (Hd k). destruct (d !! k) as [e|].
  - destruct Hd as [H1 H2]. split; [by apply Hab|]. intros HP w Hw. apply H2; [done|]. by apply Hab.
  - intros w Hw. apply Hd. by apply Hab.
Qed.

(** At rest every node of a full mesh has seen every write. *)
Lemma at_rest_seen ps clients s i a w :
  full_mesh ps -> reachable ps clients s -> Forall (fun t => t = Idle) (threads s) ->
  applied s !! i = Some a -> w ∈ history s <-> w ∈ a.
Proof.
  intros Hmesh Hr Hidle Ha. destruct (mm_reachable_inv ps clients s Hr) as [Hn [Hl1 Hl2] Hnew Hap Hthr Hway].
  split; [|by apply (Hap i)]. intros Hw. destruct (Hway w Hw) as (o & l & Ho & Hj).
  assert (Hi : (i < length ps)%nat) by (apply lookup_lt_Some in Ha; lia).
  destruct (Hj i Hi) as [(x & Hx & Hwx)|(th & td & Ht & _)].
  - destruct (decide (i = o)) as [->|Hne]; [by left|]. right. by apply (Hmesh o l).
  - congruence.
  - rewrite Forall_lookup in Hidle. by specialize (Hidle th _ Ht).
Qed.

(** Then every node holds a write of each key that was written, and a newest one when the clock was
    not set back. *)
Lemma at_rest_holds ps clients s i n :
  full_mesh ps -> reachable ps clients s -> Forall (fun t => t = Idle) (threads s) ->
  nodes s !! i = Some n -> holds (clock_forward (history s)) (history s) (dataStore n).
Proof.
  intros Hmesh Hr Hidle Hi.
  pose proof (mm_reachable_inv ps clients s Hr) as [Hn [Hl1 Hl2] Hnew Hap Hthr Hway].
  destruct (lookup_lt_is_Some_2 (applied s) i) as [a Ha]; [apply lookup_lt_Some in Hi; lia|].
  apply (holds_same _ a); [|by apply (Hnew i)]. intros w. symmetry. by eapply at_rest_seen.
Qed.

(** C25.  Convergence by timestamps, in every state that any interleaving of the client threads can
    reach, whatever times the clock gives.  Each node holds, for every key it has seen a write of, one
    of those writes, and a newest one if the clock was not set back between the writes.  Once no write
    is under way in a full mesh, every node has seen every write.  If moreover the clock was not set
    back and gave no time twice, all nodes hold the same data, and a read returns the same value
    everywhere. *)
Theorem multi_master_converges (ps : list (list nat)) (clients : nat) (s : system) :
  full_mesh ps -> reachable ps clients s ->
  (forall i n a, nodes s !! i = Some n -> applied s !! i = Some a ->
     holds (clock_forward (history s)) a (dataStore n)) /\
  (Forall (fun t => t = Idle) (threads s) ->
   (forall i a, applied s !! i = Some a -> forall w, w ∈ history s <-> w ∈ a) /\
   (forall i n, nodes s !! i = Some n -> holds (clock_forward (history s)) (history s) (dataStore n)) /\
   (clock_forward (history s) -> NoDup (w_time <$> history s) ->
    forall i j n m k, nodes s !! i = Some n -> nodes s !! j = Some m -> readData k n = readData k m)).
Proof.
  intros Hmesh Hr. pose proof (mm_reachable_inv ps clients s Hr) as [Hn [Hl1 Hl2] Hnew Hap Hthr Hway].
  split; [exact Hnew|]. intros Hidle.
  split; [intros i a Ha w; by eapply at_rest_seen|].
  assert (Hall : forall i n, nodes s !! i = Some n ->
      holds (clock_forward (history s)) (history s) (dataStore n))
    by (intros i n; by eapply at_rest_holds).
  split; [done|]. intros Hf Hnd i j n m k Hi Hj.
  assert (Hnewest : forall i n, nodes s !! i = Some n -> holds True (history s) (dataStore n))
    by (intros; eapply holds_weaken; [|by eapply Hall]; done).
  assert (E : dataStore n = dataStore m)
    by (apply (newest_unique (history s) (history s)); [done|done|by eapply Hnewest..]).
  unfold readData. by rewrite E.
Qed.

(** Two nodes that are peers of each other. *)
Definition pair : list (list nat) := [[1%nat]; [0%nat]].

Lemma pair_full_mesh : full_mesh pair.
Proof.
  intros [|[|i]] l Hl j Hj Hne; simpl in *; try done; injection Hl as <-; destruct j as [|[|j]]; try lia; set_solver.
Qed.

(** One complete write of an idle client at node [i], replicated to node [j]. *)
Lemma write_steps s i j n m a b k v t :
  threads s = [Idle] -> i ≠ j -> nodes s !! i = Some n -> nodes s !! j = Some m ->
  applied s !! i = Some a -> applied s !! j = Some b ->
  dataMutex n = false -> dataMutex m = false -> peers n = [j] ->
  rtc step s (MkSys
    (<[i := set_mutex false (set_mutex true (local_write k v t n))]>
      (<[j := replicateData k v t m]> (<[i := set_mutex true (local_write k v t n)]> (nodes s)))) [Idle]
    (history s ++ [MkWrite k v t])
    (<[j := b ++ [MkWrite k v t]]> (<[i := a ++ [MkWrite k v t]]> (applied s)))).
Proof.
  intros Ht Hij Hn Hm Ha Hb Hln Hlm Hp.
  assert (Hi : (i < length (nodes s))%nat) by (by apply lookup_lt_Some in Hn).
  eapply rtc_l; [eapply (step_write s 0 i n a k v t); try done; by rewrite Ht|]. rewrite Ht, Hp.
  eapply rtc_l; [eapply (step_replicate _ 0 i (MkWrite k v t) j [] m b); cbn; try done;
    by rewrite list_lookup_insert_ne|].
  eapply rtc_l; [|apply rtc_refl]. cbn.
  match goal with |- step ?x _ =>
    refine (step_return x 0 i (MkWrite k v t) (set_mutex true (local_write k v t n)) _ _) end; cbn; [done|].
  rewrite list_lookup_insert_ne by done. by rewrite list_lookup_insert_eq.
Qed.

Lemma multi_master_converges_witness :
  exists s, reachable pair 1 s /\ history s = [MkWrite "key1" "value1" 5] /\
    forall n m, nodes s !! 0%nat = Some n -> nodes s !! 1%nat = Some m ->
      readData "key1" n = readData "key1" m.
Proof.
  assert (Hr : reachable pair 1 (MkSys
    [MkNode {[ "key1" := MkEntry "value1" 5 ]} false [1%nat]; MkNode {[ "key1" := MkEntry "value1" 5 ]} false [0%nat]]
    [Idle] [MkWrite "key1" "value1" 5] [[MkWrite "key1" "value1" 5]; [MkWrite "key1" "value1" 5]])).
  { refine (write_steps _ 0 1 (MkNode ∅ false [1%nat]) (MkNode ∅ false [0%nat]) [] [] "key1" "value1" 5
      _ _ _ _ _ _ _ _ _); first [reflexivity|done|simpl; lia]. }
  eexists. split; [exact Hr|]. split; [reflexivity|]. intros n m Hn Hm.
  destruct (multi_master_converges pair 1 _ pair_full_mesh Hr) as [_ H].
  destruct H as (_ & _ & H); [by apply Forall_singleton|].
  apply (H ltac:(repeat constructor) ltac:(apply NoDup_singleton) 0%nat 1%nat n m "key1" Hn Hm).
Defined.

(** Two writes in the same second: each node keeps its own and ignores the other for good. *)
Example same_second_diverges :
  exists s n m, reachable pair 1 s /\ nodes s !! 0%nat = Some n /\ nodes s !! 1%nat = Some m /\
    threads s = [Idle] /\ readData "k" n = "a" /\ readData "k" m = "b".
Proof.
  do 3 eexists. split.
  - unfold reachable. etrans.
    + refine (write_steps _ 0 1 (MkNode ∅ false [1%nat]) (MkNode ∅ false [0%nat]) [] [] "k" "a" 5
        _ _ _ _ _ _ _ _ _); first [reflexivity|done|simpl; lia].
    + refine (write_steps _ 1 0 (MkNode {[ "k" := MkEntry "a" 5 ]} false [0%nat])
        (MkNode {[ "k" := MkEntry "a" 5 ]} false [1%nat]) [MkWrite "k" "a" 5] [MkWrite "k" "a" 5] "k" "b" 5
        _ _ _ _ _ _ _ _ _); first [reflexivity|done|simpl; lia].
  - vm_compute. done.
Qed.

(** The clock is set back between two writes at different nodes, with different times: the writer stores
    the older write without a comparison and the other node ignores it; they differ for good. *)
Example clock_set_back_diverges :
  exists s n m, reachable pair 1 s /\ nodes s !! 0%nat = Some n /\ nodes s !! 1%nat = Some m /\
    threads s = [Idle] /\ NoDup (w_time <$> history s) /\ readData "k" n = "a" /\ readData "k" m = "b".
Proof.
  do 3 eexists. split.
  - unfold reachable. etrans.
    + refine (write_steps _ 0 1 (MkNode ∅ false [1%nat]) (MkNode ∅ false [0%nat]) [] [] "k" "a" 5
        _ _ _ _ _ _ _ _ _); first [reflexivity|done|simpl; lia].
    + refine (write_steps _ 1 0 (MkNode {[ "k" := MkEntry "a" 5 ]} false [0%nat])
        (MkNode {[ "k" := MkEntry "a" 5 ]} false [1%nat]) [MkWrite "k" "a" 5] [MkWrite "k" "a" 5] "k" "b" 3
        _ _ _ _ _ _ _ _ _); first [reflexivity|done|simpl; lia].
  - split_and!; [vm_compute; reflexivity..| |vm_compute; reflexivity|vm_compute; reflexivity].
    apply (bool_decide_unpack _). vm_compute. exact I.
Qed.

(** Two clients that write to different nodes at the same time: each holds the mutex of its node and
    waits for the other, and no thread can go on. *)
Example writers_deadlock :
  exists s, reachable pair 2 s /\ (forall s', ~ step s s') /\
    ~ Forall (fun t => t = Idle) (threads s).
Proof.
  eexists. split; [|split].
  - eapply rtc_l; [refine (step_write _ 0 0 _ _ "k" "a" 5 _ _ _ _); first [reflexivity|done|simpl; lia]|].
    eapply rtc_l; [refine (step_write _ 1 1 _ _ "k" "b" 5 _ _ _ _); first [reflexivity|done|simpl; lia]|].
    apply rtc_refl.
  - intros s' Hs. inversion Hs as [s th i n a k v t Hth|s th i w p todo n a Hth Hp Ha Hm|s th i w n Hth]; subst;
      destruct th as [|[|th]]; vm_compute in Hth; try done; injection Hth as <- <- <- <-;
      vm_compute in Hp; injection Hp as <-; done.
  - intros H. vm_compute in H. by inversion H.
Qed.

(** ** The program *)

(** The line of [readRequest]. *)
Definition readRequest (k : string) (n : MasterNode) : string :=
  "Read data from node: " +:+ k +:+ " -> " +:+ readData k n.

(** The peers [main] adds, and the requests of its three client threads, node by node. *)
Definition main_peers : list (list nat) := [[1; 2]; [0; 2]; [0; 1]]%nat.
Definition main_requests : list (nat * (string * string)) :=
  [(0%nat, ("key1", "value1")); (1%nat, ("key2", "value2")); (2%nat, ("key1", "new_value1"))].

(** [main] can hang before its reads: each client holds the mutex of its node when it replicates. *)
Example main_deadlocks :
  exists s, reachable main_peers 3 s /\
    (forall i j kv, main_requests !! i = Some (j, kv) -> exists t,
       threads s !! i = Some (Replicating j (MkWrite kv.1 kv.2 t) (default [] (main_peers !! j)))) /\
    forall s', ~ step s s'.
Proof.
  eexists. split; [|split].
  - eapply rtc_l; [refine (step_write _ 0 0 _ _ "key1" "value1" 5 _ _ _ _); first [reflexivity|done|simpl; lia]|].
    eapply rtc_l; [refine (step_write _ 1 1 _ _ "key2" "value2" 5 _ _ _ _); first [reflexivity|done|simpl; lia]|].
    eapply rtc_l; [refine (step_write _ 2 2 _ _ "key1" "new_value1" 6 _ _ _ _); first [reflexivity|done|simpl; lia]|].
    apply rtc_refl.
  - intros [|[|[|i]]] j kv [= <- <-]; eexists; reflexivity.
  - intros s' Hs. inversion Hs as [s th i n a k v t Hth|s th i w p todo n a Hth Hp Ha Hm|s th i w n Hth]; subst;
      destruct th as [|[|[|th]]]; vm_compute in Hth; try done; injection Hth as <- <- <- <-;
      vm_compute in Hp; injection Hp as <-; done.
Qed.

(** What the three reads of [main] print, after the three writes have returned. *)
Definition main_reads (s : system) : list string :=
  omap (fun '(i, k) => readRequest k <$> nodes s !! i) [(0%nat, "key1"); (1%nat, "key2"); (2%nat, "key1")].

Definition main_writes (t1 t2 t3 : Z) : list write :=
  [MkWrite "key1" "value1" t1; MkWrite "key2" "value2" t2; MkWrite "key1" "new_value1" t3].

Lemma main_full_mesh : full_mesh main_peers.
Proof.
  intros [|[|[|i]]] l Hl j Hj Hne; simpl in *; try done; injection Hl as <-;
    destruct j as [|[|[|j]]]; try lia; set_solver.
Qed.

Lemma newest_main_read a t1 t2 t3 d ds :
  a ≡ₚ main_writes t1 t2 t3 -> t1 ≠ t3 -> holds True a d -> dataStore ds = d ->
  readData "key1" ds = (if t1 <? t3 then "new_value1" else "value1") /\ readData "key2" ds = "value2".
Proof.
  intros Hp Hne Hnew <-. unfold readData.
  assert (Hin : forall w, w ∈ a <-> w ∈ main_writes t1 t2 t3) by (intros w; by rewrite Hp).
  unfold main_writes in Hin. split.
  - specialize (Hnew "key1"). destruct (dataStore ds !! "key1") as [e|].
    + destruct Hnew as [He Hmax].
      assert (H1 := Hmax I (MkWrite "key1" "value1" t1) ltac:(apply Hin; set_solver) eq_refl).
      assert (H3 := Hmax I (MkWrite "key1" "new_value1" t3) ltac:(apply Hin; set_solver) eq_refl). cbn in *.
      apply Hin, list_elem_of_In in He. destruct (Z.ltb_spec t1 t3); destruct He as [[= Hv Ht]|[[=]|[[= Hv Ht]|[]]]];
        try done; lia.
    + by destruct (Hnew (MkWrite "key1" "value1" t1)); [apply Hin; set_solver|].
  - specialize (Hnew "key2"). destruct (dataStore ds !! "key2") as [e|].
    + destruct Hnew as [He _]. apply Hin, list_elem_of_In in He. by destruct He as [[=]|[[= <- _]|[[=]|[]]]].
    + by destruct (Hnew (MkWrite "key2" "value2" t2)); [apply Hin; set_solver|].
Qed.

(** When the clients of [main] return, the clock was not set back and the two writes to the same key were
    in different seconds, all nodes print the later one. *)
Lemma main_reads_latest s t1 t2 t3 :
  reachable main_peers 3 s -> Forall (fun t => t = Idle) (threads s) ->
  history s ≡ₚ main_writes t1 t2 t3 -> clock_forward (history s) -> t1 ≠ t3 ->
  let latest := if t1 <? t3 then "new_value1" else "value1" in
  main_reads s = ["Read data from node: key1 -> " +:+ latest; "Read data from node: key2 -> value2";
                  "Read data from node: key1 -> " +:+ latest].
Proof.
  intros Hr Hidle Hh Hf Hne latest.
  destruct (mm_reachable_inv _ _ _ Hr) as [_ [Hl1 Hl2] _ _ _ _]. cbn in Hl1, Hl2.
  assert (Hread : forall i, (i < 3)%nat -> exists n, nodes s !! i = Some n /\ readData "key1" n = latest /\
    readData "key2" n = "value2").
  { intros i Hi. destruct (lookup_lt_is_Some_2 (nodes s) i) as [n Hn]; [lia|]. exists n. split; [done|].
    eapply newest_main_read; [exact Hh|done| |done].
    eapply holds_weaken; [|by eapply at_rest_holds; [apply main_full_mesh|..]]. done. }
  destruct (Hread 0%nat) as (n0 & H0 & H0' & _), (Hread 1%nat) as (n1 & H1 & _ & H1'),
    (Hread 2%nat) as (n2 & H2 & H2' & _); try lia.
  unfold main_reads. cbn [omap list_omap fmap option_fmap option_map]. rewrite H0, H1, H2. cbn. unfold readRequest.
  by rewrite H0', H1', H2'.
Qed.
