(* ===== verification/Paxos.v ===== *)
(** * Paxos ([distributed_systems/consensus/paxos.go])

    Proposers, acceptors and learners, and any number of goroutines that propose, as steps of which
    each is one critical section.  The code wires no acceptors to its proposers, and a proposal does
    not take over the value an acceptor reports: what holds is one value for each proposal number. *)

From S2P Require Import Prelude.
Local Open Scope Z_scope.

(** The two errors of [Propose]. *)
Inductive propose_error : Set := NoPromises | NoAccepts.
Definition error_text (e : propose_error) : string :=
  match e with
  | NoPromises => "failed to get majority for prepare phase"
  | NoAccepts => "failed to get majority for accept phase"
  end.

(** [ProposalID], a comparable struct and the key of a map. *)
Definition ProposalID : Type := Z * Z.
Definition Number (i : ProposalID) : Z := fst i.
Definition NodeID (i : ProposalID) : Z := snd i.

(** Where a goroutine of [RunElection] or [RunConsensus] is: before the lock of its proposer, in one
    of the loops of [Propose], and, once [Propose] has returned, in the loop over the learners. *)
Inductive pos : Type :=
| Waiting
| Preparing (todo : list nat)
| Accepting (accepted : Z) (todo : list nat)
| Failed (err : propose_error)
| Learning (todo : list (nat * nat))
| LearningVal (id : ProposalID) (l a : nat) (todo : list (nat * nat)).

Section Paxos.
Context {V : Type}.

(** An [interface{}] is [None] while it is nil. *)
Record Acceptor : Type := MkAcceptor {
  a_ID : Z; PromisedID : ProposalID; AcceptedID : ProposalID; AcceptedVal : option V
}.

(** The acceptors a proposer points to are indices into those of the system; [p_mu] is the goroutine
    that holds the mutex.  The fields [PromiseID] and [accepted] are never used. *)
Record Proposer : Type := MkProposer {
  p_ID : Z; ProposeID : ProposalID; Value : option V; p_Acceptors : list nat; Majority : Z;
  p_mu : option nat
}.

Record Learner : Type := MkLearner { l_ID : Z; AcceptedVals : gmap ProposalID (option V) }.

Record PaxosSystem : Type := MkPaxos {
  Proposers : list Proposer; Acceptors : list Acceptor; Learners : list Learner
}.

Definition zero_id : ProposalID := (0, 0).

Definition NewPaxosSystem (numProposers numAcceptors numLearners : nat) : PaxosSystem :=
  MkPaxos
    ((fun i => MkProposer (Z.of_nat i) zero_id None [] (Z.quot (Z.of_nat numAcceptors) 2 + 1) None)
       <$> seq 0 numProposers)
    ((fun i => MkAcceptor (Z.of_nat i) zero_id zero_id None) <$> seq 0 numAcceptors)
    ((fun i => MkLearner (Z.of_nat i) ∅) <$> seq 0 numLearners).

(** ** The critical sections *)

Definition SendPrepare (p : Proposer) (a : Acceptor) : Acceptor * bool :=
  if Number (PromisedID a) >=? Number (ProposeID p) then (a, false)
  else (MkAcceptor (a_ID a) (ProposeID p) (AcceptedID a) (AcceptedVal a), true).

Definition SendAccept (p : Proposer) (a : Acceptor) : Acceptor * bool :=
  if Number (PromisedID a) >? Number (ProposeID p) then (a, false)
  else (MkAcceptor (a_ID a) (PromisedID a) (ProposeID p) (Value p), true).

Definition ReceivePrepare (proposalID : ProposalID) (a : Acceptor) : Acceptor * bool :=
  if Number (PromisedID a) >? Number proposalID then (a, false)
  else (MkAcceptor (a_ID a) proposalID (AcceptedID a) (AcceptedVal a), true).

Definition ReceiveAccept (proposalID : ProposalID) (value : option V) (a : Acceptor) : Acceptor * bool :=
  if Number (PromisedID a) >? Number proposalID then (a, false)
  else (MkAcceptor (a_ID a) (PromisedID a) proposalID value, true).

Definition Learn (proposalID : ProposalID) (value : option V) (l : Learner) : Learner :=
  MkLearner (l_ID l) (<[proposalID := value]> (AcceptedVals l)).

(** The start of [Propose], under the mutex of the proposer. *)
Definition begin_propose (g : nat) (value : V) (p : Proposer) : Proposer :=
  MkProposer (p_ID p) (Number (ProposeID p) + 1, NodeID (ProposeID p)) (Some value) (p_Acceptors p)
    (Majority p) (Some g).
Definition unlock (p : Proposer) : Proposer :=
  MkProposer (p_ID p) (ProposeID p) (Value p) (p_Acceptors p) (Majority p) None.

(** ** Goroutines *)

(** A goroutine proposes one value at one proposer; [g_learns] in [RunConsensus], which then tells
    the learners.  [g_number] and [g_promised] record the number it proposes with and the acceptors
    that promised, of which the code keeps the count. *)
Record goroutine : Type := MkG {
  g_on : nat; g_value : V; g_learns : bool; g_at : pos; g_number : Z; g_promised : list nat
}.

Record world : Type := MkWorld { sys : PaxosSystem; gs : list goroutine }.

Definition set_at (at' : pos) (r : goroutine) : goroutine :=
  MkG (g_on r) (g_value r) (g_learns r) at' (g_number r) (g_promised r).
Definition set_proposer (i : nat) (p : Proposer) (s : PaxosSystem) : PaxosSystem :=
  MkPaxos (<[i := p]> (Proposers s)) (Acceptors s) (Learners s).
Definition set_acceptor (i : nat) (a : Acceptor) (s : PaxosSystem) : PaxosSystem :=
  MkPaxos (Proposers s) (<[i := a]> (Acceptors s)) (Learners s).
Definition set_learner (i : nat) (l : Learner) (s : PaxosSystem) : PaxosSystem :=
  MkPaxos (Proposers s) (Acceptors s) (<[i := l]> (Learners s)).

(** The pairs of the nested loops over learners and acceptors. *)
Definition learn_pairs (s : PaxosSystem) : list (nat * nat) :=
  l ← seq 0 (length (Learners s)); (fun a => (l, a)) <$> seq 0 (length (Acceptors s)).

(** One step of goroutine [r], the [g]-th: the new system and where the goroutine is then.  The read
    of an acceptor for a learner takes no lock, so the id and the value are two steps. *)
Definition goroutine_step (g : nat) (r : goroutine) (s : PaxosSystem) : option (PaxosSystem * goroutine) :=
  p ← Proposers s !! g_on r;
  match g_at r with
  | Waiting =>
      match p_mu p with
      | Some _ => None
      | None =>
          let p' := begin_propose g (g_value r) p in
          Some (set_proposer (g_on r) p' s,
                MkG (g_on r) (g_value r) (g_learns r) (Preparing (p_Acceptors p)) (Number (ProposeID p')) [])
      end
  | Preparing (a :: todo) =>
      acc ← Acceptors s !! a;
      let '(acc', ok) := SendPrepare p acc in
      Some (set_acceptor a acc' s,
            MkG (g_on r) (g_value r) (g_learns r) (Preparing todo) (g_number r)
              (if ok then a :: g_promised r else g_promised r))
  | Preparing [] =>
      if Z.of_nat (length (g_promised r)) <? Majority p
      then Some (set_proposer (g_on r) (unlock p) s, set_at (Failed NoPromises) r)
      else Some (s, set_at (Accepting 0 (p_Acceptors p)) r)
  | Accepting accepted (a :: todo) =>
      acc ← Acceptors s !! a;
      let '(acc', ok) := SendAccept p acc in
      Some (set_acceptor a acc' s, set_at (Accepting (if ok then accepted + 1 else accepted) todo) r)
  | Accepting accepted [] =>
      Some (set_proposer (g_on r) (unlock p) s,
            set_at (if accepted <? Majority p then Failed NoAccepts
                    else Learning (if g_learns r then learn_pairs s else [])) r)
  | Learning ((l, a) :: todo) =>
      acc ← Acceptors s !! a;
      Some (s, set_at (LearningVal (AcceptedID acc) l a todo) r)
  | LearningVal id l a todo =>
      acc ← Acceptors s !! a;
      learner ← Learners s !! l;
      Some (set_learner l (Learn id (AcceptedVal acc) learner) s, set_at (Learning todo) r)
  | Learning [] | Failed _ => None
  end.

Definition world_step (g : nat) (w : world) : option world :=
  r ← gs w !! g;
  '(s, r') ← goroutine_step g r (sys w);
  Some (MkWorld s (<[g := r']> (gs w))).

Definition step (w w' : world) : Prop := exists g, world_step g w = Some w'.

(** A goroutine as [RunElection] ([false]) or [RunConsensus] ([true]) starts it. *)
Definition spawn (learns : bool) (on : nat) (value : V) : goroutine := MkG on value learns Waiting 0 [].
Definition run (s : PaxosSystem) (rs : list goroutine) : world := MkWorld s rs.
Definition RunElection (values : list V) : list goroutine := imap (spawn false) values.
Definition RunConsensus (values : list V) : list goroutine := imap (spawn true) values.

(** ** Invariant *)

(** The acceptor at [a] has promised [n] or more. *)
Definition promised_at (s : PaxosSystem) (n : Z) (a : nat) : Prop :=
  exists acc, Acceptors s !! a = Some acc /\ n <= Number (PromisedID acc).

(** Past the prepare phase; [Propose] returned without an error. *)
Definition passed (at' : pos) : Prop :=
  match at' with Waiting | Preparing _ | Failed NoPromises => False | _ => True end.
Definition succeeded (at' : pos) : Prop :=
  match at' with Learning _ | LearningVal _ _ _ _ => True | _ => False end.

(** Every proposer has distinct acceptors of the system, and its majority is one of the system. *)
Definition wired (s : PaxosSystem) : Prop := forall i p, Proposers s !! i = Some p ->
  NoDup (p_Acceptors p) /\ Forall (fun a => (a < length (Acceptors s))%nat) (p_Acceptors p) /\
  Z.of_nat (length (Acceptors s)) < 2 * Majority p.

(** The goroutine holds its proposer. *)
Definition holds (g : nat) (r : goroutine) (p : Proposer) : Prop :=
  p_mu p = Some g /\ Number (ProposeID p) = g_number r /\ Value p = Some (g_value r).

Definition at_ok (s : PaxosSystem) (g : nat) (r : goroutine) (p : Proposer) : Prop :=
  match g_at r with
  | Waiting => g_promised r = []
  | Preparing todo => holds g r p /\ exists done, p_Acceptors p = done ++ todo /\
      (forall a, a ∈ g_promised r -> a ∈ done) /\ Forall (promised_at s (g_number r)) done
  | Accepting _ todo => holds g r p /\ Majority p <= Z.of_nat (length (g_promised r)) /\
      Forall (promised_at s (g_number r)) todo
  | Failed NoPromises => True
  | _ => Majority p <= Z.of_nat (length (g_promised r))
  end.

Definition g_ok (s : PaxosSystem) (g : nat) (r : goroutine) : Prop :=
  (exists p, Proposers s !! g_on r = Some p /\ at_ok s g r p) /\
  NoDup (g_promised r) /\ Forall (promised_at s (g_number r)) (g_promised r) /\
  (g_at r ≠ Waiting -> 0 < g_number r).

(** An acceptor accepted nothing, or the value of a goroutine past the prepare phase, with its
    number, which the acceptor has promised. *)
Definition acc_ok (rs : list goroutine) (acc : Acceptor) : Prop :=
  Number (AcceptedID acc) <= Number (PromisedID acc) /\
  (Number (AcceptedID acc) = 0 /\ AcceptedVal acc = None \/
   0 < Number (AcceptedID acc) /\
   exists g r, rs !! g = Some r /\ passed (g_at r) /\ g_number r = Number (AcceptedID acc) /\
     AcceptedVal acc = Some (g_value r)).

Record px_inv (w : world) : Prop := {
  px_wired : wired (sys w);
  px_numbers : Forall (fun p => 0 <= Number (ProposeID p)) (Proposers (sys w));
  px_acc : Forall (acc_ok (gs w)) (Acceptors (sys w));
  px_g : forall g r, gs w !! g = Some r -> g_ok (sys w) g r;
  px_once : forall g g' r r' a, gs w !! g = Some r -> gs w !! g' = Some r' -> g ≠ g' ->
    g_number r = g_number r' -> a ∈ g_promised r -> a ∈ g_promised r' -> False
}.

(** *** Changes of the system *)

(** What a step of goroutine [g] may change: promises grow, and a proposer that another goroutine
    holds stays as it is. *)
Definition grows (g : nat) (s s' : PaxosSystem) : Prop :=
  length (Acceptors s') = length (Acceptors s) /\
  (forall n a, promised_at s n a -> promised_at s' n a) /\
  (forall i p, Proposers s !! i = Some p -> exists p', Proposers s' !! i = Some p' /\
     p_Acceptors p' = p_Acceptors p /\ Majority p' = Majority p /\
     (forall h, p_mu p = Some h -> h ≠ g -> p' = p)).

Lemma at_ok_grows g s s' h r p p' :
  grows g s s' -> h ≠ g -> at_ok s h r p ->
  p_Acceptors p' = p_Acceptors p -> Majority p' = Majority p ->
  (forall h, p_mu p = Some h -> h ≠ g -> p' = p) -> at_ok s' h r p'.
Proof.
  intros (_ & Hg & _) Hne Hok Ha Hm Hsame. unfold at_ok in *.
  assert (Hh : holds h r p -> holds h r p').
  { intros Hold. pose proof Hold as (Hmu & _). by rewrite (Hsame h). }
  destruct (g_at r) as [|todo|k todo|[]|todo|id l a todo]; rewrite ?Hm; try done.
  - destruct Hok as (Hold & d & Hd & Hin & Hall). split; [by apply Hh|]. exists d.
    rewrite Ha. split_and!; [done..|]. eapply Forall_impl; [done|]. auto.
  - destruct Hok as (Hold & Hmaj & Hall). split; [by apply Hh|]. split; [done|].
    eapply Forall_impl; [done|]. auto.
Qed.

Lemma g_ok_grows g s s' h r : grows g s s' -> h ≠ g -> g_ok s h r -> g_ok s' h r.
Proof.
  intros Hg Hne ((p & Hp & Hat) & Hnd & Hall & Hpos).
  pose proof Hg as (_ & Hgr & Hprop). destruct (Hprop _ _ Hp) as (p' & Hp' & Ha & Hm & Hsame).
  split; [|split_and!; [done| |done]].
  - exists p'. split; [done|]. by eapply at_ok_grows.
  - eapply Forall_impl; [done|]. auto.
Qed.

Lemma wired_grows g s s' :
  grows g s s' -> length (Proposers s') = length (Proposers s) -> wired s -> wired s'.
Proof.
  intros (Hlen & _ & Hprop) Hl Hw i p' Hp'.
  destruct (lookup_lt_is_Some_2 (Proposers s) i) as [p Hp].
  { rewrite <-Hl. by eapply lookup_lt_Some. }
  destruct (Hprop _ _ Hp) as (q & Hq & Ha & Hm & _). rewrite Hp' in Hq. injection Hq as ->.
  rewrite Ha, Hm, Hlen. by apply (Hw i).
Qed.

Lemma grows_refl g s : grows g s s.
Proof. split; [done|]. split; [done|]. intros i p Hp. by exists p. Qed.

Lemma grows_acceptor g s a acc acc' :
  Acceptors s !! a = Some acc -> Number (PromisedID acc) <= Number (PromisedID acc') ->
  grows g s (set_acceptor a acc' s).
Proof.
  intros Ha Hle. split; [apply length_insert|]. split; [|intros i p Hp; by exists p].
  intros n b (bcc & Hb & Hn). destruct (decide (a = b)) as [->|Hne].
  - exists acc'. cbn. rewrite list_lookup_insert_eq by (by eapply lookup_lt_Some).
    split; [done|]. simplify_eq. lia.
  - exists bcc. cbn. by rewrite list_lookup_insert_ne.
Qed.

Lemma grows_proposer g s i p p' :
  Proposers s !! i = Some p -> p_Acceptors p' = p_Acceptors p -> Majority p' = Majority p ->
  (forall h, p_mu p = Some h -> h = g) -> grows g s (set_proposer i p' s).
Proof.
  intros Hp Ha Hm Hmu. split; [done|]. split; [done|]. intros j q Hq. cbn.
  destruct (decide (i = j)) as [->|Hne].
  - simplify_eq. exists p'. rewrite list_lookup_insert_eq by (by eapply lookup_lt_Some).
    split_and!; [done..|]. intros h Hh Hhg. by apply Hmu in Hh.
  - exists q. by rewrite list_lookup_insert_ne.
Qed.

Lemma grows_learner g s l x : grows g s (set_learner l x s).
Proof. split; [done|]. split; [done|]. intros i p Hp. by exists p. Qed.
(** *** Preservation *)

(** What a goroutine does not take back. *)
Definition keeps (r r' : goroutine) : Prop :=
  g_value r' = g_value r /\ (passed (g_at r) -> passed (g_at r') /\ g_number r' = g_number r).

Lemma acc_ok_keeps rs g r r' acc :
  rs !! g = Some r -> keeps r r' -> acc_ok rs acc -> acc_ok (<[g := r']> rs) acc.
Proof.
  intros Hr (Hv & Hp) (Hle & Hok). split; [done|].
  destruct Hok as [?|(Hpos & h & q & Hq & Hpass & Hn & Hval)]; [by left|]. right. split; [done|].
  destruct (decide (g = h)) as [->|Hne].
  - simplify_eq. exists h, r'. rewrite list_lookup_insert_eq by (by eapply lookup_lt_Some).
    destruct (Hp Hpass) as [Hp' Hn']. rewrite Hv, Hn'. done.
  - exists h, q. by rewrite list_lookup_insert_ne.
Qed.

Lemma px_inv_update w g r s' r' :
  px_inv w -> gs w !! g = Some r -> grows g (sys w) s' ->
  length (Proposers s') = length (Proposers (sys w)) ->
  Forall (fun p => 0 <= Number (ProposeID p)) (Proposers s') ->
  Forall (acc_ok (<[g := r']> (gs w))) (Acceptors s') ->
  g_ok s' g r' ->
  (forall h q a, h ≠ g -> gs w !! h = Some q -> g_number r' = g_number q ->
     a ∈ g_promised r' -> a ∈ g_promised q -> False) ->
  px_inv (MkWorld s' (<[g := r']> (gs w))).
Proof.
  intros Hi Hr Hgr Hl Hn Hacc Hg Hd. constructor; cbn [sys gs]; [|done|done|..].
  - by eapply wired_grows, px_wired.
  - intros h q Hq. destruct (decide (g = h)) as [->|Hne].
    + rewrite list_lookup_insert_eq in Hq by (by eapply lookup_lt_Some). by simplify_eq.
    + rewrite list_lookup_insert_ne in Hq by done. eapply g_ok_grows; [done..|]. by apply px_g.
  - intros h h' q q' a Hq Hq' Hne Hnum Hin Hin'.
    apply list_lookup_insert_Some in Hq as [(<- & <- & _)|(Hg1 & Hq)],
      Hq' as [(<- & <- & _)|(Hg2 & Hq')]; [done|..].
    + by eapply (Hd h' q').
    + by eapply (Hd h q).
    + by eapply (px_once w Hi h h').
Qed.

(** A step that only moves the goroutine on. *)
Lemma px_inv_move w g r s' at' :
  px_inv w -> gs w !! g = Some r -> grows g (sys w) s' ->
  length (Proposers s') = length (Proposers (sys w)) ->
  Forall (fun p => 0 <= Number (ProposeID p)) (Proposers s') ->
  Forall (acc_ok (<[g := set_at at' r]> (gs w))) (Acceptors s') ->
  (exists p, Proposers s' !! g_on r = Some p /\ at_ok s' g (set_at at' r) p) ->
  g_at r ≠ Waiting ->
  px_inv (MkWorld s' (<[g := set_at at' r]> (gs w))).
Proof.
  intros Hi Hr Hgr Hl Hn Hacc Hat Hnw. eapply px_inv_update; [done..| |].
  - destruct (px_g w Hi g r Hr) as (_ & Hnd & Hall & Hpos). split; [done|].
    cbn [g_promised g_number g_at set_at]. split; [done|]. split; [|by auto].
    eapply Forall_impl; [done|]. destruct Hgr as (_ & Hgr & _). auto.
  - intros h q a Hne Hq Hnum Hin Hin'. by eapply (px_once w Hi h g q r a).
Qed.

Lemma numbers_set w i p :
  px_inv w -> 0 <= Number (ProposeID p) ->
  Forall (fun p => 0 <= Number (ProposeID p)) (<[i := p]> (Proposers (sys w))).
Proof. intros Hi Hp. by apply Forall_insert; [apply px_numbers|]. Qed.

Lemma acc_keep w g r r' :
  px_inv w -> gs w !! g = Some r -> keeps r r' ->
  Forall (acc_ok (<[g := r']> (gs w))) (Acceptors (sys w)).
Proof.
  intros Hi Hr Hk. eapply Forall_impl; [by apply px_acc|]. intros acc. by eapply acc_ok_keeps.
Qed.

Lemma acc_set w g r r' a acc :
  px_inv w -> gs w !! g = Some r -> keeps r r' -> acc_ok (<[g := r']> (gs w)) acc ->
  Forall (acc_ok (<[g := r']> (gs w))) (<[a := acc]> (Acceptors (sys w))).
Proof. intros Hi Hr Hk Ha. apply Forall_insert; [by eapply acc_keep|done]. Qed.

Lemma px_start w g r p :
  px_inv w -> gs w !! g = Some r -> Proposers (sys w) !! g_on r = Some p ->
  g_at r = Waiting -> p_mu p = None ->
  px_inv (MkWorld (set_proposer (g_on r) (begin_propose g (g_value r) p) (sys w))
    (<[g := MkG (g_on r) (g_value r) (g_learns r) (Preparing (p_Acceptors p))
              (Number (ProposeID p) + 1) []]> (gs w))).
Proof.
  intros Hi Hr Hp Hat Hmu.
  assert (Hn : 0 <= Number (ProposeID p)).
  { by eapply (Forall_lookup_1 _ _ _ _ (px_numbers w Hi) Hp). }
  eapply px_inv_update; try done.
  - eapply grows_proposer; [done..|]. by rewrite Hmu.
  - apply length_insert.
  - apply numbers_set; [done|]. cbn. lia.
  - eapply acc_keep; [done..|]. split; [done|]. by rewrite Hat.
  - split; [|split_and!; [constructor|constructor|cbn; lia]].
    eexists. cbn. rewrite list_lookup_insert_eq by (by eapply lookup_lt_Some). split; [done|].
    unfold at_ok. cbn. split; [done|]. exists []. split_and!; [done| |done]. by intros a Ha%not_elem_of_nil.
  - intros h q a _ _ _ Ha. by apply not_elem_of_nil in Ha.
Qed.

Lemma SendPrepare_spec p acc :
  let acc' := (SendPrepare p acc).1 in
  Number (PromisedID acc) <= Number (PromisedID acc') /\
  Number (ProposeID p) <= Number (PromisedID acc') /\
  AcceptedID acc' = AcceptedID acc /\ AcceptedVal acc' = AcceptedVal acc /\
  ((SendPrepare p acc).2 = true -> Number (PromisedID acc) < Number (ProposeID p)).
Proof.
  unfold SendPrepare. destruct (Z.geb_spec (Number (PromisedID acc)) (Number (ProposeID p)));
    cbn; split_and!; lia || done.
Qed.

Lemma px_prepare w g r p a todo acc :
  px_inv w -> gs w !! g = Some r -> Proposers (sys w) !! g_on r = Some p ->
  g_at r = Preparing (a :: todo) -> Acceptors (sys w) !! a = Some acc ->
  px_inv (MkWorld (set_acceptor a (SendPrepare p acc).1 (sys w))
    (<[g := MkG (g_on r) (g_value r) (g_learns r) (Preparing todo) (g_number r)
              (if (SendPrepare p acc).2 then a :: g_promised r else g_promised r)]> (gs w))).
Proof.
  intros Hi Hr Hp Hat Ha.
  destruct (px_g w Hi g r Hr) as ((p' & Hp' & Hok) & Hnd & Hall & Hpos). simplify_eq.
  unfold at_ok in Hok. rewrite Hat in Hok. destruct Hok as (Hold & d & Hd & Hin & Hd_all).
  pose proof Hold as (_ & Hnum & _).
  assert (Hacc : acc_ok (gs w) acc) by (by eapply (Forall_lookup_1 _ _ _ _ (px_acc w Hi))).
  destruct (SendPrepare_spec p acc) as (Hmono & Hge & Hid & Hval & Hlt). rewrite Hnum in Hge, Hlt.
  set (acc' := (SendPrepare p acc).1) in *. set (ok := (SendPrepare p acc).2) in *.
  assert (Hgr : grows g (sys w) (set_acceptor a acc' (sys w))) by (by eapply grows_acceptor).
  assert (Hnow : promised_at (set_acceptor a acc' (sys w)) (g_number r) a).
  { exists acc'. cbn. by rewrite list_lookup_insert_eq by (by eapply lookup_lt_Some). }
  pose proof Hgr as (_ & Hup & _).
  eapply px_inv_update; try done.
  - by apply px_numbers.
  - eapply acc_set; [done..| |].
    + split; [done|]. by rewrite Hat.
    + eapply acc_ok_keeps; [done| |].
      { split; [done|]. by rewrite Hat. }
      destruct Hacc as [Hle Hcase]. split; rewrite Hid; [lia|]. by rewrite Hval.
  - destruct (px_wired w Hi _ _ Hp) as (Hndp & _). rewrite Hd in Hndp.
    assert (Hna : a ∉ d).
    { apply NoDup_app in Hndp as (_ & Hdis & _). intros Hx. apply (Hdis a Hx). left. }
    split; [|split; [|split]]; cbn [g_promised g_number g_on g_at].
    + exists p. split; [done|]. unfold at_ok. cbn [g_at g_number g_promised].
      split; [done|]. exists (d ++ [a]). split; [by rewrite <-app_assoc|]. split.
      * intros b Hb. apply elem_of_app. destruct ok; [|left; by apply Hin].
        apply elem_of_cons in Hb as [->|Hb]; [right; by left|left; by apply Hin].
      * apply Forall_app. split; [|by apply Forall_singleton]. eapply Forall_impl; [done|]. auto.
    + destruct ok; [|done]. constructor; [|done]. intros Hx. by apply Hna, Hin.
    + assert (Forall (promised_at (set_acceptor a acc' (sys w)) (g_number r)) (g_promised r)).
      { eapply Forall_impl; [done|]. auto. }
      destruct ok; [|done]. by constructor.
    + intros _. apply Hpos. by rewrite Hat.
  - intros h q b Hne Hq Hsame Hb Hb'. cbn [g_promised g_number] in *.
    destruct (decide (b ∈ g_promised r)) as [Hold'|Hnew]; [by eapply (px_once w Hi h g q r b)|].
    destruct ok eqn:Eok; [|done]. apply elem_of_cons in Hb as [->|Hb]; [|done].
    destruct (px_g w Hi h q Hq) as (_ & _ & Hq_all & _).
    rewrite Forall_forall in Hq_all. destruct (Hq_all _ Hb') as (acc2 & Ha2 & Hn2).
    simplify_eq. specialize (Hlt eq_refl). lia.
Qed.
Lemma px_prepared w g r p :
  px_inv w -> gs w !! g = Some r -> Proposers (sys w) !! g_on r = Some p ->
  g_at r = Preparing [] -> Majority p <= Z.of_nat (length (g_promised r)) ->
  px_inv (MkWorld (sys w) (<[g := set_at (Accepting 0 (p_Acceptors p)) r]> (gs w))).
Proof.
  intros Hi Hr Hp Hat Hmaj.
  destruct (px_g w Hi g r Hr) as ((p' & Hp' & Hok) & _). simplify_eq.
  unfold at_ok in Hok. rewrite Hat in Hok. destruct Hok as (Hold & d & Hd & _ & Hall).
  rewrite app_nil_r in Hd. subst d.
  eapply px_inv_move; try done; [apply grows_refl|by apply px_numbers|..].
  - eapply acc_keep; [done..|]. split; [done|]. by rewrite Hat.
  - exists p. split; [done|]. unfold at_ok. done.
  - by rewrite Hat.
Qed.

(** [Propose] returns, with or without an error, and releases its proposer. *)
Lemma px_return w g r p at' :
  px_inv w -> gs w !! g = Some r -> Proposers (sys w) !! g_on r = Some p ->
  holds g r p -> g_at r ≠ Waiting ->
  (at' = Failed NoPromises /\ ~ passed (g_at r) \/
   Majority p <= Z.of_nat (length (g_promised r)) /\ (at' = Failed NoAccepts \/ succeeded at')) ->
  px_inv (MkWorld (set_proposer (g_on r) (unlock p) (sys w)) (<[g := set_at at' r]> (gs w))).
Proof.
  intros Hi Hr Hp (Hmu & _) Hnw Hcase. eapply px_inv_move; try done.
  - eapply grows_proposer; [done..|]. intros h Hh. congruence.
  - apply length_insert.
  - apply numbers_set; [done|]. cbn. by eapply (Forall_lookup_1 _ _ _ _ (px_numbers w Hi) Hp).
  - eapply acc_keep; [done..|]. split; [done|]. intros Hpass.
    destruct Hcase as [(-> & Hnp)|(_ & [->|Hs])]; [done|done|]. cbn. split; [|done]. by destruct at'.
  - eexists. cbn. rewrite list_lookup_insert_eq by (by eapply lookup_lt_Some). split; [done|].
    unfold at_ok. cbn. destruct Hcase as [(-> & _)|(Hmaj & [->|Hs])]; [done..|]. by destruct at'.
Qed.

Lemma px_accept w g r p k a todo acc k' :
  px_inv w -> gs w !! g = Some r -> Proposers (sys w) !! g_on r = Some p ->
  g_at r = Accepting k (a :: todo) -> Acceptors (sys w) !! a = Some acc ->
  px_inv (MkWorld (set_acceptor a (SendAccept p acc).1 (sys w))
    (<[g := set_at (Accepting k' todo) r]> (gs w))).
Proof.
  intros Hi Hr Hp Hat Ha.
  destruct (px_g w Hi g r Hr) as ((p' & Hp' & Hok) & _ & _ & Hpos). simplify_eq.
  unfold at_ok in Hok. rewrite Hat in Hok. destruct Hok as (Hold & Hmaj & Hall).
  apply Forall_cons in Hall as [(acc2 & Ha2 & Hle) Hall]. simplify_eq.
  pose proof Hold as (_ & Hnum & Hval).
  assert (Hk : keeps r (set_at (Accepting k' todo) r)) by (split; [done|]; by rewrite Hat).
  assert (Hprom : PromisedID (SendAccept p acc).1 = PromisedID acc).
  { unfold SendAccept. by destruct (_ >? _). }
  assert (Hgr : grows g (sys w) (set_acceptor a (SendAccept p acc).1 (sys w))).
  { eapply grows_acceptor; [done|]. by rewrite Hprom. }
  eapply px_inv_move; try done.
  - by apply px_numbers.
  - eapply acc_set; [done..|]. unfold SendAccept.
    destruct (Z.gtb_spec (Number (PromisedID acc)) (Number (ProposeID p))) as [|Hge]; cbn [fst].
    + eapply acc_ok_keeps; [done..|]. by eapply (Forall_lookup_1 _ _ _ _ (px_acc w Hi)).
    + split; cbn [AcceptedID PromisedID AcceptedVal]; [lia|]. right. rewrite Hnum, Hval.
      split; [apply Hpos; by rewrite Hat|]. exists g, (set_at (Accepting k' todo) r).
      by rewrite list_lookup_insert_eq by (by eapply lookup_lt_Some).
  - exists p. split; [done|]. split; [done|]. split; [done|].
    eapply Forall_impl; [done|]. destruct Hgr as (_ & Hup & _). apply Hup.
  - by rewrite Hat.
Qed.

(** A step in the loop over the learners. *)
Lemma px_learn w g r s' at' :
  px_inv w -> gs w !! g = Some r -> succeeded (g_at r) -> succeeded at' ->
  grows g (sys w) s' -> Proposers s' = Proposers (sys w) -> Acceptors s' = Acceptors (sys w) ->
  px_inv (MkWorld s' (<[g := set_at at' r]> (gs w))).
Proof.
  intros Hi Hr Hs Hs' Hgr HP HA.
  destruct (px_g w Hi g r Hr) as ((p & Hp & Hok) & _).
  assert (Hmaj : Majority p <= Z.of_nat (length (g_promised r))).
  { unfold at_ok in Hok. by destruct (g_at r). }
  eapply px_inv_move; rewrite ?HP, ?HA; try done.
  - by apply px_numbers.
  - eapply acc_keep; [done..|]. split; [done|]. by destruct at'.
  - exists p. split; [done|]. unfold at_ok. cbn. by destruct at'.
  - by destruct (g_at r).
Qed.

Lemma px_step w w' : px_inv w -> step w w' -> px_inv w'.
Proof.
  intros Hi (g & Hst). unfold world_step in Hst.
  destruct (gs w !! g) as [r|] eqn:Hr; cbn in Hst; [|done].
  destruct (goroutine_step g r (sys w)) as [[s' r']|] eqn:Hg; cbn in Hst; [|done].
  injection Hst as <-. unfold goroutine_step in Hg.
  destruct (Proposers (sys w) !! g_on r) as [p|] eqn:Hp; cbn in Hg; [|done].
  destruct (px_g w Hi g r Hr) as ((p' & Hp' & Hok) & _). simplify_eq. unfold at_ok in Hok.
  destruct (g_at r) as [|[|a todo]|k [|a todo]|e|[|[l a] todo]|id l a todo] eqn:Hat; try done.
  - destruct (p_mu p) eqn:Hmu; [done|]. simplify_eq. by apply px_start.
  - destruct (Z.ltb_spec (Z.of_nat (length (g_promised r))) (Majority p)); simplify_eq.
    + apply px_return; try done; [apply Hok|by rewrite Hat|]. left. rewrite Hat. split; [done|]. by intros [].
    + by apply px_prepared.
  - destruct (Acceptors (sys w) !! a) as [acc|] eqn:Ha; cbn in Hg; [|done].
    pose proof (px_prepare w g r p a todo acc Hi Hr Hp Hat Ha) as Hx.
    destruct (SendPrepare p acc) as [acc' ok]. by simplify_eq.
  - simplify_eq. apply px_return; try done; [apply Hok|by rewrite Hat|]. right.
    split; [apply Hok|]. destruct (k <? Majority p); [by left|by right].
  - destruct (Acceptors (sys w) !! a) as [acc|] eqn:Ha; cbn in Hg; [|done].
    pose proof (fun k' => px_accept w g r p k a todo acc k' Hi Hr Hp Hat Ha) as Hx.
    destruct (SendAccept p acc) as [acc' ok]. simplify_eq. apply Hx.
  - destruct (Acceptors (sys w) !! a) as [acc|]; cbn in Hg; [|done]. simplify_eq.
    eapply px_learn; try done; [by rewrite Hat|apply grows_refl].
  - destruct (Acceptors (sys w) !! a) as [acc|]; cbn in Hg; [|done].
    destruct (Learners (sys w) !! l) as [lr|]; cbn in Hg; [|done]. simplify_eq.
    eapply px_learn; try done; [by rewrite Hat|apply grows_learner].
Qed.

(** ** One value for each number *)

(** Goroutines that have not begun, on proposers of a system in which nothing was promised. *)
Definition fresh (s : PaxosSystem) (rs : list goroutine) : Prop :=
  wired s /\ Forall (fun p => 0 <= Number (ProposeID p) /\ p_mu p = None) (Proposers s) /\
  Forall (fun a => PromisedID a = zero_id /\ AcceptedID a = zero_id /\ AcceptedVal a = None) (Acceptors s) /\
  Forall (fun r => (g_on r < length (Proposers s))%nat /\ r = spawn (g_learns r) (g_on r) (g_value r)) rs.

Definition reachable (s : PaxosSystem) (rs : list goroutine) (w : world) : Prop :=
  rtc step (run s rs) w.

Lemma px_init s rs : fresh s rs -> px_inv (run s rs).
Proof.
  intros (Hw & Hp & Ha & Hr). constructor; cbn [sys gs run].
  - done.
  - eapply Forall_impl; [done|]. by intros p [? _].
  - eapply Forall_impl; [done|]. intros a (Hpr & Hac & Hv). split; rewrite Hac, ?Hpr; [done|].
    by left.
  - intros g r Hg. destruct (Forall_lookup_1 _ _ _ _ Hr Hg) as [Hon ->].
    destruct (lookup_lt_is_Some_2 _ _ Hon) as [p Hpi].
    split; [by exists p|]. cbn. split_and!; [constructor|constructor|done].
  - intros g g' r r' a Hg _ _ _ Hin. destruct (Forall_lookup_1 _ _ _ _ Hr Hg) as [_ Heq].
    rewrite Heq in Hin. by apply not_elem_of_nil in Hin.
Qed.

Lemma px_reachable s rs w : fresh s rs -> reachable s rs w -> px_inv w.
Proof.
  intros Hf Hr. unfold reachable in Hr. pose proof (px_init s rs Hf) as Hi. revert Hi.
  induction Hr as [|a b c Hab _ IH]; [done|]. intros Hi. apply IH. by eapply px_step.
Qed.

Lemma passed_majority w g r :
  px_inv w -> gs w !! g = Some r -> passed (g_at r) ->
  Z.of_nat (length (Acceptors (sys w))) < 2 * Z.of_nat (length (g_promised r)).
Proof.
  intros Hi Hr Hp. destruct (px_g w Hi g r Hr) as ((p & Hlp & Hok) & _).
  destruct (px_wired w Hi _ _ Hlp) as (_ & _ & Hmaj).
  enough (Majority p <= Z.of_nat (length (g_promised r))) by lia.
  unfold at_ok in Hok. destruct (g_at r) as [| | |[]| |]; try done; by destruct Hok as (_ & ? & _).
Qed.

Lemma promised_below w g r :
  px_inv w -> gs w !! g = Some r -> forall a, a ∈ g_promised r -> (a < length (Acceptors (sys w)))%nat.
Proof.
  intros Hi Hr a Ha. destruct (px_g w Hi g r Hr) as (_ & _ & Hall & _).
  rewrite Forall_forall in Hall. destruct (Hall a Ha) as (acc & Hacc & _). by eapply lookup_lt_Some.
Qed.

(** Two majorities share an acceptor, and an acceptor promises a number once. *)
Lemma passed_unique w g g' r r' :
  px_inv w -> gs w !! g = Some r -> gs w !! g' = Some r' -> passed (g_at r) -> passed (g_at r') ->
  g_number r = g_number r' -> g = g'.
Proof.
  intros Hi Hr Hr' Hp Hp' Hn. destruct (decide (g = g')) as [|Hne]; [done|]. exfalso.
  pose proof (passed_majority _ _ _ Hi Hr Hp). pose proof (passed_majority _ _ _ Hi Hr' Hp').
  destruct (px_g w Hi g r Hr) as (_ & Hnd & _), (px_g w Hi g' r' Hr') as (_ & Hnd' & _).
  assert (Hdis : NoDup (g_promised r ++ g_promised r')).
  { apply NoDup_app. split_and!; [done| |done]. intros a Ha Ha'. by eapply (px_once w Hi g g' r r' a). }
  assert (Hlen : (length (g_promised r ++ g_promised r') <= length (seq 0 (length (Acceptors (sys w)))))%nat).
  { apply submseteq_length, NoDup_submseteq; [done|]. intros a Ha. apply elem_of_seq.
    apply elem_of_app in Ha as [Ha|Ha]; [pose proof (promised_below w g r Hi Hr a Ha)|
      pose proof (promised_below w g' r' Hi Hr' a Ha)]; lia. }
  rewrite length_app, length_seq in Hlen. lia.
Qed.

(** ** Every proposal returns *)

Definition running (at' : pos) : Prop :=
  match at' with Preparing _ | Accepting _ _ => True | _ => False end.

(** The goroutine has returned. *)
Definition returned (at' : pos) : Prop :=
  match at' with Failed _ | Learning [] => True | _ => False end.

(** The indices a loop has left are those of acceptors and learners. *)
Definition todo_ok (s : PaxosSystem) (at' : pos) : Prop :=
  let pair_ok := fun x : nat * nat => (x.1 < length (Learners s))%nat /\ (x.2 < length (Acceptors s))%nat in
  match at' with
  | Preparing t | Accepting _ t => Forall (fun a => (a < length (Acceptors s))%nat) t
  | Learning t => Forall pair_ok t
  | LearningVal _ l a t => Forall pair_ok ((l, a) :: t)
  | Waiting | Failed _ => True
  end.

(** An upper bound of the steps a goroutine has left. *)
Definition work (s : PaxosSystem) (r : goroutine) : nat :=
  let acceptors := from_option (fun p => length (p_Acceptors p)) 0%nat (Proposers s !! g_on r) in
  let learning := (2 * length (learn_pairs s))%nat in
  match g_at r with
  | Waiting => 3 + 2 * acceptors + learning
  | Preparing t => 2 + length t + acceptors + learning
  | Accepting _ t => 1 + length t + learning
  | Learning t => 2 * length t
  | LearningVal _ _ _ t => 1 + 2 * length t
  | Failed _ => 0
  end.

Lemma learn_pairs_ok s :
  Forall (fun x => (x.1 < length (Learners s))%nat /\ (x.2 < length (Acceptors s))%nat) (learn_pairs s).
Proof.
  apply Forall_forall. intros [l a] Hin. unfold learn_pairs in Hin.
  apply list_elem_of_bind in Hin as (l' & Hin & Hl). apply list_elem_of_fmap in Hin as (a' & [= -> ->] & Ha).
  apply elem_of_seq in Hl, Ha. cbn. lia.
Qed.

(** The parts of a system a step leaves alone. *)
Definition same_shape (s s' : PaxosSystem) : Prop :=
  length (Acceptors s') = length (Acceptors s) /\ length (Learners s') = length (Learners s) /\
  length (Proposers s') = length (Proposers s) /\
  forall i p, Proposers s !! i = Some p -> exists p', Proposers s' !! i = Some p' /\ p_Acceptors p' = p_Acceptors p.

Lemma same_shape_refl s : same_shape s s.
Proof. split_and!; try done. intros i p Hp. by exists p. Qed.

Lemma same_shape_proposer s i p p' :
  Proposers s !! i = Some p -> p_Acceptors p' = p_Acceptors p -> same_shape s (set_proposer i p' s).
Proof.
  intros Hp Ha. split_and!; try done; [apply length_insert|]. intros j q Hq. cbn.
  destruct (decide (i = j)) as [->|Hne].
  - simplify_eq. exists p'. by rewrite list_lookup_insert_eq by (by eapply lookup_lt_Some).
  - exists q. by rewrite list_lookup_insert_ne.
Qed.

Lemma same_shape_acceptor s a acc : same_shape s (set_acceptor a acc s).
Proof. split_and!; try done; [apply length_insert|]. intros i p Hp. by exists p. Qed.

Lemma same_shape_learner s l x : same_shape s (set_learner l x s).
Proof. split_and!; try done; [apply length_insert|]. intros i p Hp. by exists p. Qed.

Lemma todo_ok_shape s s' at' : same_shape s s' -> todo_ok s at' -> todo_ok s' at'.
Proof. intros (HA & HL & _). unfold todo_ok. by rewrite HA, HL. Qed.

Lemma work_shape s s' r p :
  same_shape s s' -> Proposers s !! g_on r = Some p -> work s' r = work s r.
Proof.
  intros (HA & HL & _ & HP) Hp. destruct (HP _ _ Hp) as (p' & Hp' & Ha).
  unfold work, learn_pairs. by rewrite HA, HL, Hp, Hp'; cbn; rewrite Ha.
Qed.

Lemma step_same_shape g r s s' r' :
  goroutine_step g r s = Some (s', r') -> same_shape s s' /\ g_on r' = g_on r.
Proof.
  intros Hst. unfold goroutine_step in Hst.
  destruct (Proposers s !! g_on r) as [p|] eqn:Hp; cbn in Hst; [|done].
  destruct (g_at r) as [|[|a todo]|k [|a todo]|e|[|[l a] todo]|id l a todo]; try done;
    try (destruct (Acceptors s !! a) as [acc|]; cbn in Hst; [|done]).
  - destruct (p_mu p); [done|]. simplify_eq. split; [|done]. by eapply same_shape_proposer.
  - destruct (_ <? _); simplify_eq; (split; [|done]); [by eapply same_shape_proposer|apply same_shape_refl].
  - destruct (SendPrepare p acc). simplify_eq. split; [apply same_shape_acceptor|done].
  - simplify_eq. split; [by eapply same_shape_proposer|done].
  - destruct (SendAccept p acc). simplify_eq. split; [apply same_shape_acceptor|done].
  - simplify_eq. split; [apply same_shape_refl|done].
  - destruct (Learners s !! l); cbn in Hst; [|done]. simplify_eq. split; [apply same_shape_learner|done].
Qed.

(** A step brings its goroutine closer to the end. *)
Lemma step_works g r s s' r' :
  wired s -> todo_ok s (g_at r) -> goroutine_step g r s = Some (s', r') ->
  todo_ok s' (g_at r') /\ (work s' r' < work s r)%nat.
Proof.
  intros Hw Ht Hst. pose proof (step_same_shape _ _ _ _ _ Hst) as [Hsh Hon].
  unfold goroutine_step in Hst. destruct (Proposers s !! g_on r) as [p|] eqn:Hp; cbn in Hst; [|done].
  rewrite (work_shape s s' r' p) by (done || by rewrite Hon).
  enough (todo_ok s (g_at r') /\ (work s r' < work s r)%nat) as [H ?] by (split; [by eapply todo_ok_shape|done]).
  pose proof (Hw _ _ Hp) as (_ & Hall & _). pose proof (learn_pairs_ok s) as Hpairs.
  unfold work. rewrite Hon, Hp. unfold todo_ok in *. cbn [from_option].
  destruct (g_at r) as [|[|a todo]|k [|a todo]|e|[|[l a] todo]|id l a todo]; try done;
    try (destruct (Acceptors s !! a) as [acc|]; cbn [mbind option_bind] in Hst; [|done]).
  - destruct (p_mu p); [done|]. simplify_eq. cbn [g_at]. split; [done|lia].
  - destruct (_ <? _); simplify_eq; cbn [g_at set_at length]; (split; [done|lia]).
  - destruct (SendPrepare p acc). simplify_eq. cbn [g_at length]. by apply Forall_cons in Ht as [_ ?]; split; [|lia].
  - simplify_eq. cbn [g_at set_at length]. destruct (_ <? _); [split; [done|lia]|].
    destruct (g_learns r); (split; [done|simpl length; lia]).
  - destruct (SendAccept p acc). simplify_eq. cbn [g_at set_at length].
    by apply Forall_cons in Ht as [_ ?]; split; [|lia].
  - simplify_eq. cbn [g_at set_at length]. split; [done|lia].
  - destruct (Learners s !! l); cbn [mbind option_bind] in Hst; [|done]. simplify_eq.
    cbn [g_at set_at length]. by apply Forall_cons in Ht as [_ ?]; split; [|lia].
Qed.

Lemma step_lock g r s s' r' i p' h :
  goroutine_step g r s = Some (s', r') -> Proposers s' !! i = Some p' -> p_mu p' = Some h ->
  h = g /\ i = g_on r /\ running (g_at r') \/
  Proposers s !! i = Some p' /\ (i = g_on r -> running (g_at r) -> running (g_at r')).
Proof.
  intros Hst Hi Hmu. unfold goroutine_step in Hst.
  destruct (Proposers s !! g_on r) as [p|] eqn:Hp; cbn in Hst; [|done].
  assert (Hset : forall q, <[g_on r := q]> (Proposers s) !! i = Some p' ->
    i = g_on r /\ p' = q \/ Proposers s !! i = Some p' /\ i ≠ g_on r).
  { intros q Hq. apply list_lookup_insert_Some in Hq as [(<- & <- & _)|(Hne & Hq)]; [by left|by right]. }
  destruct (g_at r) as [|[|a todo]|k [|a todo]|e|[|[l a] todo]|id l a todo]; try done;
    try (destruct (Acceptors s !! a) as [acc|]; cbn in Hst; [|done]).
  - destruct (p_mu p); [done|]. simplify_eq.
    destruct (Hset _ Hi) as [(-> & ->)|[Hq Hne]]; [|by right]. cbn in Hmu. left. by simplify_eq.
  - destruct (_ <? _); simplify_eq; [|by right].
    destruct (Hset _ Hi) as [(-> & ->)|[Hq Hne]]; [done|by right].
  - destruct (SendPrepare p acc). simplify_eq. by right.
  - simplify_eq. destruct (Hset _ Hi) as [(-> & ->)|[Hq Hne]]; [done|by right].
  - destruct (SendAccept p acc). simplify_eq. by right.
  - simplify_eq. by right.
  - destruct (Learners s !! l); cbn in Hst; [|done]. simplify_eq. by right.
Qed.

Record px_live (w : world) : Prop := {
  lv_inv : px_inv w;
  lv_lock : forall i p h, Proposers (sys w) !! i = Some p -> p_mu p = Some h ->
    exists r, gs w !! h = Some r /\ g_on r = i /\ running (g_at r);
  lv_todo : Forall (fun r => todo_ok (sys w) (g_at r)) (gs w)
}.

Definition total_work (w : world) : nat := sum_list_with (work (sys w)) (gs w).

Lemma px_live_step w w' : px_live w -> step w w' -> px_live w' /\ (total_work w' < total_work w)%nat.
Proof.
  intros [Hi Hlock Htodo] Hs. pose proof (px_step w w' Hi Hs) as Hi'. destruct Hs as (g & Hst).
  unfold world_step in Hst. destruct (gs w !! g) as [r|] eqn:Hr; cbn in Hst; [|done].
  destruct (goroutine_step g r (sys w)) as [[s' r']|] eqn:Hg; cbn in Hst; [|done]. injection Hst as <-.
  destruct (step_same_shape _ _ _ _ _ Hg) as [Hsh Hon].
  destruct (step_works _ _ _ _ _ (px_wired w Hi) (Forall_lookup_1 _ _ _ _ Htodo Hr) Hg) as [Ht Hwork].
  assert (Hlt : (g < length (gs w))%nat) by (by eapply lookup_lt_Some).
  split; [constructor; [done|..]|]; cbn [sys gs].
  - intros i p' h Hp' Hmu. destruct (step_lock _ _ _ _ _ _ _ _ Hg Hp' Hmu) as [(-> & -> & Hrun)|[Hp Hkeep]].
    + exists r'. by rewrite list_lookup_insert_eq.
    + destruct (Hlock i p' h Hp Hmu) as (q & Hq & Hqi & Hrun). destruct (decide (g = h)) as [->|Hne].
      * simplify_eq. exists r'. rewrite list_lookup_insert_eq by done. auto.
      * exists q. by rewrite list_lookup_insert_ne.
  - apply Forall_insert; [|done]. eapply Forall_impl; [done|]. intros q. by apply todo_ok_shape.
  - unfold total_work. cbn [sys gs]. pose proof (sum_list_with_insert (work s') (gs w) g r r' Hr) as Hsum.
    assert (Hsame : Forall (fun q => work s' q = work (sys w) q) (gs w)).
    { apply Forall_lookup. intros h q Hq. destruct (px_g w Hi h q Hq) as ((p & Hp & _) & _).
      by eapply work_shape. }
    rewrite (sum_list_with_ext _ _ _ Hsame) in Hsum. rewrite (Forall_lookup_1 _ _ _ _ Hsame Hr) in Hsum. lia.
Qed.

Lemma px_live_init s rs : fresh s rs -> px_live (run s rs).
Proof.
  intros Hf. constructor; [by apply px_init|..]; destruct Hf as (_ & Hp & _ & Hr); cbn [sys gs run].
  - intros i p h Hi Hmu. destruct (Forall_lookup_1 _ _ _ _ Hp Hi) as [_ ?]. congruence.
  - eapply Forall_impl; [done|]. by intros r [_ ->].
Qed.

Lemma px_live_nsteps n w w' : px_live w -> nsteps step n w w' -> px_live w' /\ (n + total_work w' <= total_work w)%nat.
Proof.
  intros Hl Hn. revert Hl. induction Hn as [|n a b c Hab _ IH]; intros Hl; [by split; [|lia]|].
  destruct (px_live_step a b Hl Hab) as [Hb Hlt]. destruct (IH Hb) as [Hc Hle]. split; [done|lia].
Qed.

(** A goroutine in one of its loops can go on. *)
Lemma loop_steps w g r :
  px_live w -> gs w !! g = Some r -> ~ returned (g_at r) -> g_at r ≠ Waiting ->
  exists w', step w w'.
Proof.
  intros [Hi _ Htodo] Hr Hnr Hnw. destruct (px_g w Hi g r Hr) as ((p & Hp & _) & _).
  pose proof (Forall_lookup_1 _ _ _ _ Htodo Hr) as Ht.
  enough (is_Some (goroutine_step g r (sys w))) as [[s' r'] Hg].
  { eexists. exists g. unfold world_step. rewrite Hr. cbn. rewrite Hg. done. }
  unfold goroutine_step. rewrite Hp. cbn. unfold todo_ok in Ht.
  destruct (g_at r) as [|[|a todo]|k [|a todo]|e|[|[l a] todo]|id l a todo]; try (by destruct Hnr); try done.
  - by destruct (_ <? _).
  - apply Forall_cons in Ht as [Ha _]. destruct (lookup_lt_is_Some_2 _ _ Ha) as [acc ->]. cbn.
    by destruct (SendPrepare p acc).
  - apply Forall_cons in Ht as [Ha _]. destruct (lookup_lt_is_Some_2 _ _ Ha) as [acc ->]. cbn.
    by destruct (SendAccept p acc).
  - apply Forall_cons in Ht as [[_ Ha] _]. destruct (lookup_lt_is_Some_2 _ _ Ha) as [acc Hacc].
    cbn in Hacc. by rewrite Hacc.
  - apply Forall_cons in Ht as [[Hl Ha] _].
    destruct (lookup_lt_is_Some_2 _ _ Ha) as [acc Hacc], (lookup_lt_is_Some_2 _ _ Hl) as [lr Hlr].
    cbn in Hacc, Hlr. by rewrite Hacc, Hlr.
Qed.

Lemma px_progress w g r :
  px_live w -> gs w !! g = Some r -> ~ returned (g_at r) -> exists w', step w w'.
Proof.
  intros Hl Hr Hnr. destruct (g_at r) as [| | | | |] eqn:Hat; try (eapply loop_steps; by rewrite ?Hat).
  destruct (px_g w (lv_inv w Hl) g r Hr) as ((p & Hp & _) & _).
  destruct (p_mu p) as [h|] eqn:Hmu.
  - destruct (lv_lock w Hl _ _ _ Hp Hmu) as (q & Hq & _ & Hrun).
    eapply (loop_steps w h q); try done; by destruct (g_at q).
  - eexists. exists g. unfold world_step. rewrite Hr. cbn. unfold goroutine_step.
    rewrite Hp. cbn. by rewrite Hat, Hmu.
Qed.

(** ** The system as it is built *)

(** No proposer of [NewPaxosSystem] has an acceptor to ask, so no goroutine gets past its first
    majority. *)
Record unwired (s0 : PaxosSystem) (w : world) : Prop := {
  uw_proposers : Forall (fun p => p_Acceptors p = [] /\ 1 <= Majority p) (Proposers (sys w));
  uw_acceptors : Acceptors (sys w) = Acceptors s0;
  uw_learners : Learners (sys w) = Learners s0;
  uw_gs : Forall (fun r => g_promised r = [] /\
    (g_at r = Waiting \/ g_at r = Preparing [] \/ g_at r = Failed NoPromises)) (gs w)
}.

Lemma unwired_step s0 w w' : unwired s0 w -> step w w' -> unwired s0 w'.
Proof.
  intros [HP HA HL HG] (g & Hst). unfold world_step in Hst.
  destruct (gs w !! g) as [r|] eqn:Hr; cbn in Hst; [|done].
  destruct (goroutine_step g r (sys w)) as [[s' r']|] eqn:Hg; cbn in Hst; [|done]. injection Hst as <-.
  unfold goroutine_step in Hg. destruct (Proposers (sys w) !! g_on r) as [p|] eqn:Hp; cbn in Hg; [|done].
  destruct (Forall_lookup_1 _ _ _ _ HP Hp) as [Hnil Hmaj].
  destruct (Forall_lookup_1 _ _ _ _ HG Hr) as [Hpr [Hat|[Hat|Hat]]]; rewrite Hat in Hg; [..|done].
  - destruct (p_mu p); [done|]. simplify_eq. constructor; cbn; try done.
    + by apply Forall_insert.
    + apply Forall_insert; [done|]. cbn. rewrite Hnil. auto.
  - destruct (Z.ltb_spec (Z.of_nat (length (g_promised r))) (Majority p)) as [_|Hge];
      [|rewrite Hpr in Hge; simpl in Hge; lia]. simplify_eq.
    constructor; cbn; try done; apply Forall_insert; cbn; auto.
Qed.

Lemma unwired_reachable s0 w w' : unwired s0 w -> rtc step w w' -> unwired s0 w'.
Proof.
  intros Hu Hr. revert Hu. induction Hr as [|a b c Hab _ IH]; [done|].
  intros Ha. apply IH. by eapply unwired_step.
Qed.

Lemma new_system_fresh np na nl rs :
  Forall (fun r => (g_on r < np)%nat /\ r = spawn (g_learns r) (g_on r) (g_value r)) rs ->
  fresh (NewPaxosSystem np na nl) rs.
Proof.
  intros Hr. split_and!.
  - intros i p Hp. cbn in Hp. apply list_lookup_fmap_Some in Hp as (j & -> & _). cbn.
    split; [constructor|]. split; [constructor|]. rewrite length_fmap, length_seq.
    pose proof (Z.quot_rem' (Z.of_nat na) 2). pose proof (Z.rem_bound_pos (Z.of_nat na) 2). lia.
  - apply Forall_fmap, Forall_true. by intros i.
  - apply Forall_fmap, Forall_true. by intros i.
  - cbn. by rewrite length_fmap, length_seq.
Qed.

Lemma new_system_unwired np na nl rs :
  Forall (fun r => (g_on r < np)%nat /\ r = spawn (g_learns r) (g_on r) (g_value r)) rs ->
  unwired (NewPaxosSystem np na nl) (run (NewPaxosSystem np na nl) rs).
Proof.
  intros Hr. constructor; cbn; try done.
  - apply Forall_fmap, Forall_true. intros i. cbn. split; [done|].
    pose proof (Z.quot_pos (Z.of_nat na) 2). lia.
  - eapply Forall_impl; [done|]. intros r [_ ->]. cbn. auto.
Qed.

(** The system with every proposer pointing to every acceptor. *)
Definition wire (s : PaxosSystem) : PaxosSystem :=
  MkPaxos ((fun p => MkProposer (p_ID p) (ProposeID p) (Value p) (seq 0 (length (Acceptors s)))
                       (Majority p) (p_mu p)) <$> Proposers s) (Acceptors s) (Learners s).

Lemma wire_fresh s rs : fresh s rs -> fresh (wire s) rs.
Proof.
  intros (Hw & Hp & Ha & Hr). split_and!.
  - intros i p Hi. cbn in Hi. apply list_lookup_fmap_Some in Hi as (q & -> & Hq). cbn.
    split; [apply NoDup_seq|]. split; [|by apply (Hw i q)]. apply Forall_forall. intros a Hin.
    apply elem_of_seq in Hin. lia.
  - apply Forall_fmap. done.
  - done.
  - cbn. by rewrite length_fmap.
Qed.

(** Runs a schedule: the goroutines in the order they take their steps. *)
Fixpoint schedule (l : list nat) (w : world) : option world :=
  match l with
  | [] => Some w
  | g :: l => w' ← world_step g w; schedule l w'
  end.

Lemma schedule_rtc l : forall w w', schedule l w = Some w' -> rtc step w w'.
Proof.
  induction l as [|g l IH]; intros w w' Hs; cbn in Hs; [by simplify_eq|].
  destruct (world_step g w) as [w1|] eqn:Hg; cbn in Hs; [|done].
  eapply rtc_l; [by exists g|by apply IH].
Qed.
End Paxos.
Arguments Acceptor : clear implicits.
Arguments Proposer : clear implicits.
Arguments Learner : clear implicits.
Arguments PaxosSystem : clear implicits.
Arguments goroutine : clear implicits.
Arguments world : clear implicits.

(** C10.  Paxos with any number of proposers and goroutines in any interleaving: no two goroutines get
    past the prepare phase with the same proposal number, acceptors that accepted the same number hold
    the same value, which a goroutine past its prepare phase proposed, and no acceptor accepts above
    its promise.  Every proposer may point to any acceptors, as long as its majority is more than half
    of all of them. *)
Theorem paxos_one_value_per_number {V : Type} (s : PaxosSystem V) (rs : list (goroutine V)) (w : world V) :
  fresh s rs -> reachable s rs w ->
  (forall g g' r r', gs w !! g = Some r -> gs w !! g' = Some r' ->
     passed (g_at r) -> passed (g_at r') -> g_number r = g_number r' -> g = g') /\
  (forall a a' acc acc', Acceptors (sys w) !! a = Some acc -> Acceptors (sys w) !! a' = Some acc' ->
     Number (AcceptedID acc) = Number (AcceptedID acc') -> AcceptedVal acc = AcceptedVal acc') /\
  (forall a acc, Acceptors (sys w) !! a = Some acc ->
     Number (AcceptedID acc) <= Number (PromisedID acc) /\
     (AcceptedVal acc = None \/
      exists g r, gs w !! g = Some r /\ passed (g_at r) /\ AcceptedVal acc = Some (g_value r))).
Proof.
  intros Hf Hr. pose proof (px_reachable s rs w Hf Hr) as Hi. split; [|split].
  - intros g g' r r'. by apply passed_unique.
  - intros a a' acc acc' Ha Ha' Hn.
    destruct (Forall_lookup_1 _ _ _ _ (px_acc w Hi) Ha) as [_ [[H1 V1]|(H1 & g & r & Hg & Hp & Hnr & V1)]],
      (Forall_lookup_1 _ _ _ _ (px_acc w Hi) Ha') as [_ [[H2 V2]|(H2 & g' & r' & Hg' & Hp' & Hnr' & V2)]];
      [congruence|lia|lia|].
    assert (g = g') as -> by (eapply (passed_unique w); try done; lia). congruence.
  - intros a acc Ha. destruct (Forall_lookup_1 _ _ _ _ (px_acc w Hi) Ha) as [Hle Hc].
    split; [done|]. destruct Hc as [[_ ?]|(_ & g & r & ? & ? & _ & ?)]; [by left|right; eauto].
Qed.

(** Three goroutines at two proposers with three acceptors. *)
Definition three : list (goroutine Z) := [spawn false 0 10; spawn false 1 20; spawn true 1 30].
Definition wired_system : PaxosSystem Z := wire (NewPaxosSystem 2 3 1).

Lemma three_fresh : fresh wired_system three.
Proof.
  apply wire_fresh, new_system_fresh. repeat constructor; cbn; lia.
Qed.

(** The first two meet at number 1, of which only one gets a majority. *)
Definition race : list nat := [0; 1; 0; 1; 0; 1; 0; 1; 0; 1]%nat.

Lemma paxos_one_value_per_number_witness :
  exists w, reachable wired_system three w /\
    (g_number <$> gs w) = [1; 1; 0] /\
    forall g r, gs w !! g = Some r -> passed (g_at r) -> g_number r = 1 -> g = 0%nat.
Proof.
  destruct (schedule race (run wired_system three)) as [w|] eqn:Hs; [|vm_compute in Hs; done].
  assert (Hr : reachable wired_system three w) by (by eapply schedule_rtc).
  exists w. split; [exact Hr|]. vm_compute in Hs. injection Hs as <-. split; [reflexivity|].
  intros g r Hg Hp Hn. cbn in Hg.
  exact (proj1 (paxos_one_value_per_number _ _ _ three_fresh Hr) g 0%nat r _ Hg eq_refl Hp I Hn).
Defined.

(** A later proposal does not take over the value: two goroutines at two proposers are both told that
    their value was chosen, and the acceptors end with the second. *)
Example two_values_chosen :
  match schedule (repeat 0%nat 9 ++ repeat 1%nat 5 ++ repeat 2%nat 9) (run wired_system three) with
  | Some w => (g_at <$> gs w) !! 0%nat = Some (Learning []) /\
      (g_at <$> gs w) !! 2%nat = Some (Learning [(0, 0); (0, 1); (0, 2)]%nat) /\
      AcceptedVal <$> Acceptors (sys w) = [Some 30; Some 30; Some 30]
  | None => False
  end.
Proof. vm_compute. done. Qed.

(** A learner reads an acceptor without its lock, and can record the value of one proposal under the
    id of another. *)
Example learner_mixes :
  match schedule (repeat 0%nat 10 ++ repeat 1%nat 5 ++ repeat 2%nat 9 ++ [0%nat])
          (run wired_system [spawn true 0 10; spawn false 1 20; spawn false 1 30]) with
  | Some w => AcceptedVals <$> Learners (sys w) = [{[ (1, 0) := Some 30 ]}]
  | None => False
  end.
Proof. vm_compute. done. Qed.

(** C23.  Every proposal returns: from any start, runs are bounded, and when no goroutine can go on all
    have returned, so the mutexes never deadlock.  In the system that [NewPaxosSystem] builds, all
    return the error of the prepare phase, and no acceptor or learner ever changes. *)
Theorem paxos_proposals_return {V : Type} (s : PaxosSystem V) (rs : list (goroutine V)) :
  fresh s rs ->
  (forall n w, nsteps step n (run s rs) w -> (n <= total_work (run s rs))%nat) /\
  (forall w, reachable s rs w -> (forall w', ~ step w w') -> Forall (fun r => returned (g_at r)) (gs w)) /\
  (forall np na nl w, s = NewPaxosSystem np na nl -> reachable s rs w ->
     Acceptors (sys w) = Acceptors s /\ Learners (sys w) = Learners s /\
     ((forall w', ~ step w w') -> Forall (fun r => g_at r = Failed NoPromises) (gs w))).
Proof.
  intros Hf. pose proof (px_live_init s rs Hf) as Hl.
  assert (Hret : forall w, reachable s rs w -> (forall w', ~ step w w') ->
    Forall (fun r => returned (g_at r)) (gs w)).
  { intros w Hr Hstuck. apply rtc_nsteps in Hr as [n Hn]. apply Forall_lookup. intros g r Hg.
    destruct (px_live_nsteps n _ w Hl Hn) as [Hw _].
    assert (Hdec : returned (g_at r) \/ ~ returned (g_at r)).
    { destruct (g_at r) as [| | | |[|x t]|]; cbn; auto. }
    destruct Hdec as [?|Hnr]; [done|]. destruct (px_progress w g r Hw Hg Hnr) as [w' Hs].
    by apply Hstuck in Hs. }
  split; [|split; [done|]].
  - intros n w Hn. destruct (px_live_nsteps n _ w Hl Hn). lia.
  - intros np na nl w -> Hr.
    assert (Hu : unwired (NewPaxosSystem np na nl) w).
    { eapply unwired_reachable; [|done]. apply new_system_unwired. destruct Hf as (_ & _ & _ & Hg).
      cbn in Hg. by rewrite length_fmap, length_seq in Hg. }
    split; [apply Hu|]. split; [apply Hu|]. intros Hstuck. specialize (Hret w Hr Hstuck).
    apply Forall_lookup. intros g r Hg. pose proof (Forall_lookup_1 _ _ _ _ Hret Hg) as Hx. cbn in Hx.
    destruct (Forall_lookup_1 _ _ _ _ (uw_gs _ _ Hu) Hg) as [_ [H|[H|H]]]; [..|done]; by rewrite H in Hx.
Qed.

(** The goroutines of [main]: three proposers, five acceptors, two learners. *)
Definition main (election consensus : list Z) : world Z :=
  run (NewPaxosSystem 3 5 2) (RunElection election ++ RunConsensus consensus).

Lemma paxos_proposals_return_witness :
  let w := main [10; 20; 30] [40; 50; 60] in
  (forall n w', nsteps step n w w' -> (n <= total_work w)%nat) /\
  (forall w', reachable (sys w) (gs w) w' -> (forall w'', ~ step w' w'') ->
     Forall (fun r => g_at r = Failed NoPromises) (gs w')).
Proof.
  intros w.
  destruct (paxos_proposals_return (sys w) (gs w)) as (Hn & _ & Hnew).
  - apply new_system_fresh. repeat constructor; cbn; lia.
  - split; [exact Hn|]. intros w' Hr. apply (Hnew 3%nat 5%nat 2%nat w' eq_refl Hr).
Defined.
