(* ===== verification/Raft.v ===== *)
(** * Raft ([distributed_systems/consensus/raft.go])

    One node: its state, the critical sections of its goroutines, and every interleaving of them with
    whatever heartbeats and timeouts arrive.  The RPC of the source sends nothing and leaves the reply
    as it was, which decides the fate of a node. *)

From S2P Require Import Prelude.
Local Open Scope Z_scope.

(** ** Data *)

Inductive Role : Set := Follower | Candidate | Leader.

(** A command is any value; a node never reads it. *)
Record LogEntry : Type := MkEntry { Term : Z; Command : string }.

(** The channels are fields of [world] below; [stopCh] is never used. *)
Record Raft : Type := MkRaft {
  id : Z;
  peers : list Z;
  role : Role;
  term : Z;
  votedFor : Z;
  log : list LogEntry;
  commitIdx : Z;
  lastApplied : Z;
  nextIndex : gmap Z Z;
  matchIndex : gmap Z Z;
  voteCount : Z
}.

Record RequestVoteArgs : Type := MkVoteArgs {
  v_Term : Z; CandidateID : Z; LastLogIdx : Z; LastLogTerm : Z
}.
Record RequestVoteReply : Type := MkVoteReply { r_Term : Z; VoteGranted : bool }.
Record AppendEntriesArgs : Type := MkAppendArgs {
  a_Term : Z; LeaderID : Z; PrevLogIdx : Z; PrevLogTerm : Z; Entries : list LogEntry; LeaderCommit : Z
}.
Record AppendEntriesReply : Type := MkAppendReply { ar_Term : Z; Success : bool }.

Definition newNode (i : Z) (ps : list Z) : Raft :=
  MkRaft i ps Follower 0 (-1) [] 0 0 ∅ ∅ 0.

Definition set_role (r : Role) (rf : Raft) : Raft :=
  MkRaft (id rf) (peers rf) r (term rf) (votedFor rf) (log rf) (commitIdx rf) (lastApplied rf)
    (nextIndex rf) (matchIndex rf) (voteCount rf).
Definition set_indices (next match_ : gmap Z Z) (rf : Raft) : Raft :=
  MkRaft (id rf) (peers rf) (role rf) (term rf) (votedFor rf) (log rf) (commitIdx rf) (lastApplied rf)
    next match_ (voteCount rf).
Definition set_votes (n : Z) (rf : Raft) : Raft :=
  MkRaft (id rf) (peers rf) (role rf) (term rf) (votedFor rf) (log rf) (commitIdx rf) (lastApplied rf)
    (nextIndex rf) (matchIndex rf) n.

(** A node that hears of a higher term. *)
Definition step_down (t : Z) (rf : Raft) : Raft :=
  MkRaft (id rf) (peers rf) Follower t (-1) (log rf) (commitIdx rf) (lastApplied rf)
    (nextIndex rf) (matchIndex rf) (voteCount rf).

(** ** Critical sections *)

Definition len_log (rf : Raft) : Z := Z.of_nat (length (log rf)).
Definition len_peers (rf : Raft) : Z := Z.of_nat (length (peers rf)).

Definition getLogTerm (index : Z) (rf : Raft) : Z :=
  if (index <? 0) || (index >=? len_log rf) then -1
  else from_option Term (-1) (log rf !! Z.to_nat index).

Definition getLastLogTerm (rf : Raft) : Z :=
  match last (log rf) with None => -1 | Some e => Term e end.

Definition initializeLeaderState (rf : Raft) : Raft :=
  set_indices (foldl (fun m peer => <[peer := len_log rf]> m) (nextIndex rf) (peers rf))
    (foldl (fun m peer => <[peer := 0]> m) (matchIndex rf) (peers rf)) rf.

Definition becomeLeader (rf : Raft) : Raft := initializeLeaderState (set_role Leader rf).

(** The first critical section of [startElection]. *)
Definition startElection (rf : Raft) : Raft :=
  MkRaft (id rf) (peers rf) Candidate (term rf + 1) (id rf) (log rf) (commitIdx rf) (lastApplied rf)
    (nextIndex rf) (matchIndex rf) 1.

(** The two ways its [select] goes on. *)
Definition election_heartbeat (rf : Raft) : Raft := set_role Follower rf.
Definition election_timeout (rf : Raft) : Raft :=
  if voteCount rf >? Z.quot (len_peers rf) 2 then becomeLeader rf else set_role Follower rf.

Definition requestVoteArgs (rf : Raft) : RequestVoteArgs :=
  MkVoteArgs (term rf) (id rf) (len_log rf - 1) (getLastLogTerm rf).

Definition requestVote_reply (reply : RequestVoteReply) (rf : Raft) : Raft :=
  if VoteGranted reply then
    let rf := set_votes (voteCount rf + 1) rf in
    if voteCount rf >? Z.quot (len_peers rf) 2 then becomeLeader rf else rf
  else if r_Term reply >? term rf then step_down (r_Term reply) rf else rf.

(** A missing key of the map reads as 0, and the slice panics outside the log. *)
Definition appendEntriesArgs (peer : Z) (rf : Raft) : outcome AppendEntriesArgs :=
  let next := default 0 (nextIndex rf !! peer) in
  if (next <? 0) || (len_log rf <? next) then Throw (runtime_error "slice bounds out of range")
  else Ret (MkAppendArgs (term rf) (id rf) (next - 1) (getLogTerm (next - 1) rf)
              (drop (Z.to_nat next) (log rf)) (commitIdx rf)).

Definition appendEntries_reply (peer : Z) (reply : AppendEntriesReply) (rf : Raft) : Raft :=
  if Success reply then
    set_indices (<[peer := len_log rf]> (nextIndex rf)) (<[peer := len_log rf - 1]> (matchIndex rf)) rf
  else if ar_Term reply >? term rf then step_down (ar_Term reply) rf
  else set_indices (<[peer := default 0 (nextIndex rf !! peer) - 1]> (nextIndex rf)) (matchIndex rf) rf.

(** [sendRPC] logs the call and returns true; the reply keeps the zero values it was declared with. *)
Definition sendRPC {A B : Type} (peer : Z) (method : string) (args : B) (reply : A) : bool * A :=
  (true, reply).

(** ** Goroutines *)

(** Where [run] is: before its [switch], or in the [select] of [startElection]. *)
Inductive run_pos : Set := AtSwitch | Electing.

(** A goroutine of [sendRequestVote] or [sendAppendEntries], before each of its critical sections. *)
Inductive call : Type :=
| VoteSend (peer : Z)
| VoteReply (peer : Z) (reply : RequestVoteReply)
| AppendSend (peer : Z)
| AppendReply (peer : Z) (reply : AppendEntriesReply).

(** [timeouts] and [heartbeats] count the goroutines that wait to send on the two channels; a panic
    ends the program. *)
Record world : Type := MkWorld {
  node : Raft;
  runner : run_pos;
  calls : list call;
  timeouts : nat;
  heartbeats : nat;
  panicked : bool
}.

(** [NewRaft] starts [run] and arms no timer. *)
Definition NewRaft (i : Z) (ps : list Z) : world := MkWorld (newNode i ps) AtSwitch [] 0 0 false.

Inductive step : world -> world -> Prop :=
| run_timeout rf cs t h :
    role rf = Follower ->
    step (MkWorld rf AtSwitch cs (S t) h false)
         (MkWorld (startElection rf) Electing (cs ++ (VoteSend <$> peers rf)) t h false)
| run_heartbeat rf cs t h :
    role rf = Follower ->
    step (MkWorld rf AtSwitch cs t (S h) false) (MkWorld rf AtSwitch cs (S t) h false)
| run_candidate rf cs t h :
    role rf = Candidate ->
    step (MkWorld rf AtSwitch cs t h false)
         (MkWorld (startElection rf) Electing (cs ++ (VoteSend <$> peers rf)) t h false)
| run_leader rf cs t h :
    role rf = Leader ->
    step (MkWorld rf AtSwitch cs t h false)
         (MkWorld rf AtSwitch (cs ++ (AppendSend <$> peers rf)) t h false)
| elect_heartbeat rf cs t h :
    step (MkWorld rf Electing cs t (S h) false) (MkWorld (election_heartbeat rf) AtSwitch cs t h false)
| elect_timeout rf cs t h :
    step (MkWorld rf Electing cs t h false) (MkWorld (election_timeout rf) AtSwitch cs t h false)
| vote_send rf r cs1 cs2 t h peer reply :
    sendRPC peer "Raft.RequestVote" (requestVoteArgs rf) (MkVoteReply 0 false) = (true, reply) ->
    step (MkWorld rf r (cs1 ++ VoteSend peer :: cs2) t h false)
         (MkWorld rf r (cs1 ++ VoteReply peer reply :: cs2) t h false)
| vote_reply rf r cs1 cs2 t h peer reply :
    step (MkWorld rf r (cs1 ++ VoteReply peer reply :: cs2) t h false)
         (MkWorld (requestVote_reply reply rf) r (cs1 ++ cs2) t h false)
| append_send rf r cs1 cs2 t h peer args reply :
    appendEntriesArgs peer rf = Ret args ->
    sendRPC peer "Raft.AppendEntries" args (MkAppendReply 0 false) = (true, reply) ->
    step (MkWorld rf r (cs1 ++ AppendSend peer :: cs2) t h false)
         (MkWorld rf r (cs1 ++ AppendReply peer reply :: cs2) t h false)
| append_panic rf r cs1 cs2 t h peer e :
    appendEntriesArgs peer rf = Throw e ->
    step (MkWorld rf r (cs1 ++ AppendSend peer :: cs2) t h false) (MkWorld rf r (cs1 ++ cs2) t h true)
| append_reply rf r cs1 cs2 t h peer reply :
    step (MkWorld rf r (cs1 ++ AppendReply peer reply :: cs2) t h false)
         (MkWorld (appendEntries_reply peer reply rf) r (cs1 ++ cs2) t h false).

(** What else in the program may do: offer a heartbeat or a timeout. *)
Inductive offer : world -> world -> Prop :=
| offer_heartbeat rf r cs t h b : offer (MkWorld rf r cs t h b) (MkWorld rf r cs t (S h) b)
| offer_timeout rf r cs t h b : offer (MkWorld rf r cs t h b) (MkWorld rf r cs (S t) h b).

Definition any_step (w w' : world) : Prop := step w w' \/ offer w w'.

(** ** Invariant *)

(** Replies in flight hold zero values, and only a leader appends. *)
Definition call_ok (rf : Raft) (c : call) : Prop :=
  match c with
  | VoteSend _ => True
  | VoteReply _ r => r = MkVoteReply 0 false
  | AppendSend p => role rf = Leader /\ p ∈ peers rf
  | AppendReply _ r => role rf = Leader /\ r = MkAppendReply 0 false
  end.

Record raft_inv (ps : list Z) (w : world) : Prop := {
  ri_peers : peers (node w) = ps;
  ri_log : log (node w) = [];
  ri_commit : commitIdx (node w) = 0;
  ri_term : 0 <= term (node w);
  ri_votes : voteCount (node w) <= 1;
  ri_calls : Forall (call_ok (node w)) (calls w);
  ri_runner : role (node w) = Candidate <-> runner w = Electing;
  ri_leader : role (node w) = Leader -> (length ps <= 1)%nat;
  ri_next : forall p, default 0 (nextIndex (node w) !! p) <= 0;
  ri_panic : panicked w = true -> role (node w) = Leader /\ exists p, ps = [p]
}.

Lemma raft_init i ps : raft_inv ps (NewRaft i ps).
Proof. constructor; cbn; try done. Qed.

(** A change of role other than a leader's keeps the calls in order. *)
Lemma calls_role rf rf' cs :
  (role rf = Leader -> role rf' = Leader) -> peers rf' = peers rf ->
  Forall (call_ok rf) cs -> Forall (call_ok rf') cs.
Proof.
  intros Hr Hp Hc. eapply Forall_impl; [done|]. intros [] H; cbn in *; rewrite ?Hp; [done|done|..];
    destruct H; auto.
Qed.

Lemma foldl_insert_le (m : gmap Z Z) ps k p :
  k <= 0 -> (forall p, default 0 (m !! p) <= 0) ->
  default 0 (foldl (fun m peer => <[peer := k]> m) m ps !! p) <= 0.
Proof.
  intros Hk. revert m. induction ps as [|q ps IH]; intros m Hm; cbn; [done|]. apply IH.
  intros p'. destruct (decide (p' = q)) as [->|Hne]; [by rewrite lookup_insert_eq|].
  by rewrite lookup_insert_ne.
Qed.

Lemma raft_elect ps rf r cs t t' h :
  raft_inv ps (MkWorld rf r cs t' h false) -> role rf ≠ Leader ->
  raft_inv ps (MkWorld (startElection rf) Electing (cs ++ (VoteSend <$> peers rf)) t h false).
Proof.
  intros [Hp Hl Hc Ht Hv Hcs Hr Hld Hn Hpa] Hrole. constructor; cbn in *; try done; try lia.
  - apply Forall_app. split; [|by apply Forall_fmap, Forall_true].
    apply (calls_role rf); [|done|done]. done.
Qed.

Lemma raft_elected ps rf cs t h :
  raft_inv ps (MkWorld rf Electing cs t h false) ->
  raft_inv ps (MkWorld (election_timeout rf) AtSwitch cs t h false).
Proof.
  intros [Hp Hl Hc Ht Hv Hcs Hr Hld Hn Hpa]. cbn in *.
  assert (Hcand : role rf = Candidate) by (by apply Hr).
  unfold election_timeout. destruct (Z.gtb_spec (voteCount rf) (Z.quot (len_peers rf) 2)) as [Hgt|_];
    constructor; cbn; try done.
  - apply (calls_role rf); [|done|done]. done.
  - intros _. unfold len_peers in Hgt. rewrite Hp in Hgt.
    destruct (decide (length ps <= 1)%nat) as [|Hge]; [done|].
    pose proof (Z.quot_le_mono 2 (Z.of_nat (length ps)) 2). change (2 ÷ 2) with 1 in *. lia.
  - intros p. unfold len_log. cbn. rewrite Hl. by apply foldl_insert_le.
  - apply (calls_role rf); [|done|done]. by rewrite Hcand.
Qed.

Lemma raft_vote_noop rf : 0 <= term rf -> requestVote_reply (MkVoteReply 0 false) rf = rf.
Proof. intros Ht. unfold requestVote_reply. cbn. destruct (Z.gtb_spec 0 (term rf)); [lia|done]. Qed.

Lemma raft_append_reply ps rf r cs1 cs2 t h peer reply :
  raft_inv ps (MkWorld rf r (cs1 ++ AppendReply peer reply :: cs2) t h false) ->
  raft_inv ps (MkWorld (appendEntries_reply peer reply rf) r (cs1 ++ cs2) t h false) /\
  role (appendEntries_reply peer reply rf) = role rf /\ term (appendEntries_reply peer reply rf) = term rf.
Proof.
  intros [Hp Hl Hc Ht Hv Hcs Hr Hld Hn Hpa]. cbn in *.
  apply Forall_app in Hcs as [H1 H2]. apply Forall_cons in H2 as [[Hlead ->] H2].
  unfold appendEntries_reply. cbn. destruct (Z.gtb_spec 0 (term rf)); [lia|].
  split; [|done]. constructor; cbn; try done.
  - apply Forall_app. by split; (apply (calls_role rf); [|done|done]).
  - intros p. destruct (decide (p = peer)) as [->|Hne].
    + rewrite lookup_insert_eq. cbn. specialize (Hn peer). lia.
    + by rewrite lookup_insert_ne.
Qed.

Lemma args_log rf peer :
  log rf = [] -> default 0 (nextIndex rf !! peer) <= 0 ->
  (default 0 (nextIndex rf !! peer) = 0 /\ exists args, appendEntriesArgs peer rf = Ret args) \/
  (default 0 (nextIndex rf !! peer) < 0 /\ exists e, appendEntriesArgs peer rf = Throw e).
Proof.
  intros Hl Hn. unfold appendEntriesArgs, len_log. rewrite Hl. cbn.
  destruct (Z.ltb_spec (default 0 (nextIndex rf !! peer)) 0); cbn.
  { right. split; [done|]. eexists. reflexivity. }
  destruct (Z.ltb_spec (Z.of_nat 0) (default 0 (nextIndex rf !! peer))); cbn; [lia|]. left. split; [lia|]. eexists. reflexivity.
Qed.

(** Replacing one goroutine. *)
Lemma raft_take ps rf r cs1 c cs2 t h :
  raft_inv ps (MkWorld rf r (cs1 ++ c :: cs2) t h false) ->
  call_ok rf c /\
  forall cs, Forall (call_ok rf) cs -> raft_inv ps (MkWorld rf r (cs1 ++ cs ++ cs2) t h false).
Proof.
  intros [Hp Hl Hc Ht Hv Hcs Hr Hld Hn Hpa]. cbn in Hcs. apply Forall_app in Hcs as [H1 H2].
  apply Forall_cons in H2 as [H2 H3]. split; [done|]. intros cs Hcs. constructor; try done.
  by apply Forall_app_2, Forall_app_2.
Qed.

(** A step keeps the invariant, and a leader its role and term. *)
Lemma raft_step ps w w' :
  raft_inv ps w -> any_step w w' ->
  raft_inv ps w' /\ (role (node w) = Leader -> role (node w') = Leader /\ term (node w') = term (node w)).
Proof.
  intros Hi [Hs|Ho].
  - destruct Hs as [rf cs t h Hrole|rf cs t h Hrole|rf cs t h Hrole|rf cs t h Hrole|rf cs t h|rf cs t h
      |rf r cs1 cs2 t h peer reply Hrpc|rf r cs1 cs2 t h peer reply|rf r cs1 cs2 t h peer args reply Ha Hrpc
      |rf r cs1 cs2 t h peer e Ha|rf r cs1 cs2 t h peer reply]; cbn [node].
    + split; [|congruence]. apply (raft_elect _ _ _ _ _ _ _ Hi). congruence.
    + split; [|congruence]. destruct Hi. by constructor.
    + split; [|congruence]. apply (raft_elect _ _ _ _ _ _ _ Hi). congruence.
    + split; [|done]. destruct Hi. constructor; try done. cbn in *. apply Forall_app. split; [done|].
      apply Forall_fmap, Forall_forall. intros p Hp. by split.
    + pose proof (proj2 (ri_runner _ _ Hi) eq_refl) as Hc. cbn in Hc. split; [|congruence].
      destruct Hi. constructor; cbn in *; try done. apply (calls_role rf); [|done|done]. congruence.
    + pose proof (proj2 (ri_runner _ _ Hi) eq_refl) as Hc. cbn in Hc.
      split; [by apply raft_elected|congruence].
    + destruct (raft_take _ _ _ _ _ _ _ _ Hi) as (_ & Hk). injection Hrpc as <-. split; [|done].
      by apply (Hk [_]), Forall_singleton.
    + destruct (raft_take _ _ _ _ _ _ _ _ Hi) as (Hc & Hk). cbn in Hc. subst reply.
      rewrite raft_vote_noop by apply Hi. split; [|done]. by apply (Hk []), Forall_nil.
    + destruct (raft_take _ _ _ _ _ _ _ _ Hi) as ((Hc & _) & Hk). injection Hrpc as <-. split; [|done].
      by apply (Hk [_]), Forall_singleton.
    + destruct (raft_take _ _ _ _ _ _ _ _ Hi) as ((Hc & Hin) & Hk). split; [|done].
      pose proof (ri_leader _ _ Hi Hc) as Hlen. pose proof (ri_peers _ _ Hi) as Hp. cbn in Hp. rewrite Hp in Hin.
      destruct (Hk []) as [Hp' Hl Hcm Ht Hv Hcs Hr Hld Hn _]; [by apply Forall_nil|].
      constructor; try done. intros _. split; [done|].
      destruct ps as [|p [|q ps]]; cbn in Hlen; [by apply not_elem_of_nil in Hin|eauto|lia].
    + destruct (raft_append_reply _ _ _ _ _ _ _ _ _ Hi) as (Hi' & Hrole & Hterm).
      split; [done|]. by rewrite Hrole, Hterm.
  - destruct Ho; destruct Hi; (split; [by constructor|done]).
Qed.

Lemma raft_runs ps w w' :
  raft_inv ps w -> rtc any_step w w' ->
  raft_inv ps w' /\ (role (node w) = Leader -> role (node w') = Leader /\ term (node w') = term (node w)).
Proof.
  intros Hi Hr. revert Hi. induction Hr as [|a b c Hab _ IH]; intros Hi; [done|].
  destruct (raft_step ps a b Hi Hab) as [Hb Hab']. destruct (IH Hb) as [Hc Hbc]. split; [done|].
  intros Hl. destruct (Hab' Hl) as [Hlb Htb]. destruct (Hbc Hlb) as [Hlc Htc]. by rewrite Htc, Htb.
Qed.

(** ** A leader with a peer panics *)

(** Its next request panics once a reply has come back. *)
Lemma leader_panics_next p rf cs t h :
  raft_inv [p] (MkWorld rf AtSwitch cs t h false) -> role rf = Leader ->
  default 0 (nextIndex rf !! p) < 0 ->
  exists w, rtc step (MkWorld rf AtSwitch cs t h false) w /\ panicked w = true.
Proof.
  intros Hi Hl Hn. pose proof (ri_peers _ _ Hi) as Hp. cbn in Hp.
  destruct (args_log rf p) as [(Hz & _)|(_ & e & He)]; [apply Hi|lia|lia|].
  eexists. split; [|shelve]. eapply rtc_l; [by apply run_leader|]. rewrite Hp. cbn.
  eapply rtc_l; [by apply (append_panic rf AtSwitch cs [] t h p e)|]. apply rtc_refl.
  Unshelve. done.
Qed.

Lemma leader_panics p rf cs t h :
  raft_inv [p] (MkWorld rf AtSwitch cs t h false) -> role rf = Leader ->
  exists w, rtc step (MkWorld rf AtSwitch cs t h false) w /\ panicked w = true.
Proof.
  intros Hi Hl. pose proof (ri_peers _ _ Hi) as Hp. cbn in Hp.
  destruct (args_log rf p) as [(Hz & args & Ha)|(Hlt & _)]; [apply Hi|apply Hi|..].
  2: by eapply leader_panics_next.
  set (w1 := MkWorld rf AtSwitch (cs ++ AppendSend p :: []) t h false).
  set (w2 := MkWorld rf AtSwitch (cs ++ AppendReply p (MkAppendReply 0 false) :: []) t h false).
  set (rf' := appendEntries_reply p (MkAppendReply 0 false) rf).
  set (w3 := MkWorld rf' AtSwitch (cs ++ []) t h false).
  assert (Hs1 : step (MkWorld rf AtSwitch cs t h false) w1).
  { replace w1 with (MkWorld rf AtSwitch (cs ++ (AppendSend <$> peers rf)) t h false) by (by rewrite Hp).
    by apply run_leader. }
  assert (Hs2 : step w1 w2) by (by eapply append_send).
  assert (Hs3 : step w2 w3) by apply append_reply.
  destruct (raft_step [p] _ _ Hi (or_introl Hs1)) as [Hi1 _].
  destruct (raft_step [p] _ _ Hi1 (or_introl Hs2)) as [Hi2 _].
  destruct (raft_step [p] _ _ Hi2 (or_introl Hs3)) as [Hi3 Hl3].
  destruct (leader_panics_next p rf' (cs ++ []) t h Hi3) as (w & Hw & Hpan).
  - by apply Hl3.
  - unfold rf', appendEntries_reply. cbn. pose proof (ri_term _ _ Hi) as Ht. cbn in Ht.
    destruct (Z.gtb_spec 0 (term rf)); [lia|]. cbn. rewrite lookup_insert_eq. cbn. lia.
  - exists w. split; [|done]. by do 3 (eapply rtc_l; [done|]).
Qed.

(** C13.  The fate of a node, under any heartbeats and timeouts and any interleaving of its goroutines:
    left alone it never moves; its log stays empty and nothing is committed; it leads only with at most
    one peer; a leader leads for ever, in the same term; and it panics only with exactly one peer, when
    a panic of the leader is always within reach. *)
Theorem raft_fate (i : Z) (ps : list Z) (w : world) :
  rtc any_step (NewRaft i ps) w ->
  (forall w', rtc step (NewRaft i ps) w' -> w' = NewRaft i ps) /\
  log (node w) = [] /\ commitIdx (node w) = 0 /\
  (role (node w) = Leader -> (length ps <= 1)%nat /\
     forall w', rtc any_step w w' -> role (node w') = Leader /\ term (node w') = term (node w)) /\
  (panicked w = true -> exists p, ps = [p]) /\
  (forall p, ps = [p] -> role (node w) = Leader -> panicked w = false ->
     exists w', rtc step w w' /\ panicked w' = true).
Proof.
  intros Hr. destruct (raft_runs ps _ w (raft_init i ps) Hr) as [Hi _].
  split; [|split; [apply Hi|split; [apply Hi|split; [|split]]]].
  - intros w' Hw'. inversion Hw' as [|a b c Hab]; [done|]. subst. inversion Hab; subst;
      try done; by destruct cs1.
  - intros Hl. split; [by apply (ri_leader _ _ Hi)|]. intros w' Hw'. by apply (raft_runs ps w w' Hi Hw').
  - intros Hp. by apply (ri_panic _ _ Hi).
  - intros p -> Hl Hp. destruct w as [rf r cs t h b]. cbn in Hp, Hl. subst b.
    assert (r = AtSwitch) as ->.
    { destruct r; [done|]. pose proof (proj2 (ri_runner _ _ Hi) eq_refl) as Hc. cbn in Hc. congruence. }
    by apply (leader_panics p).
Qed.

(** A node with one peer that times out becomes leader with its own vote. *)
Definition lone_leader : world :=
  MkWorld (becomeLeader (startElection (newNode 1 [2]))) AtSwitch [VoteSend 2] 0 0 false.

Lemma lone_leader_reachable : rtc any_step (NewRaft 1 [2]) lone_leader.
Proof.
  eapply rtc_l; [right; apply offer_timeout|].
  eapply rtc_l; [left; by apply run_timeout|].
  eapply rtc_l; [left; apply elect_timeout|]. apply rtc_refl.
Qed.

Lemma raft_fate_witness :
  role (node lone_leader) = Leader /\ exists w, rtc step lone_leader w /\ panicked w = true.
Proof.
  split; [reflexivity|].
  destruct (raft_fate 1 [2] lone_leader lone_leader_reachable) as (_ & _ & _ & _ & _ & Hp).
  exact (Hp 2 eq_refl eq_refl eq_refl).
Defined.
