(* ===== verification/Rbac.v ===== *)
(** * Role-based access control ([security/authorization/rbac.cpp])

    Roles with permissions, users with roles, and the permission check, which walks the roles of a
    user in the order of an unordered set. *)

From S2P Require Import Prelude.

Inductive Permission : Set := READ | WRITE | DELETE | EXECUTE.
#[export] Instance Permission_eq_dec : EqDecision Permission.
Proof. solve_decision. Defined.
#[export] Instance Permission_countable : Countable Permission.
Proof.
  refine (inj_countable'
    (fun p => match p with READ => 0%nat | WRITE => 1%nat | DELETE => 2%nat | EXECUTE => 3%nat end)
    (fun n => match n with 0%nat => READ | 1%nat => WRITE | 2%nat => DELETE | _ => EXECUTE end) _).
  by intros [].
Defined.

Record Role : Type := MkRole { role_name : string; permissions : gset Permission }.
Definition newRole (roleName : string) : Role := MkRole roleName ∅.
Definition addPermission (p : Permission) (r : Role) : Role :=
  MkRole (role_name r) ({[ p ]} ∪ permissions r).
Definition hasPermission (p : Permission) (r : Role) : bool := bool_decide (p ∈ permissions r).

Record User : Type := MkUser { username : string; roles : gset string }.
Definition newUser (name : string) : User := MkUser name ∅.
Definition assignRole (role : string) (u : User) : User := MkUser (username u) ({[ role ]} ∪ roles u).
Definition hasRole (role : string) (u : User) : bool := bool_decide (role ∈ roles u).

Record AccessControlSystem : Type := MkAcs {
  roleMap : gmap string Role;
  userMap : gmap string User
}.

Definition make : AccessControlSystem := MkAcs ∅ ∅.

Definition createRole (r : string) (s : AccessControlSystem) : AccessControlSystem :=
  MkAcs (<[r := newRole r]> (roleMap s)) (userMap s).

Definition addUser (u : string) (s : AccessControlSystem) : AccessControlSystem :=
  MkAcs (roleMap s) (<[u := newUser u]> (userMap s)).

Definition assignRoleToUser (u r : string) (s : AccessControlSystem) : AccessControlSystem :=
  match userMap s !! u, roleMap s !! r with
  | Some usr, Some _ => MkAcs (roleMap s) (<[u := assignRole r usr]> (userMap s))
  | _, _ => s
  end.

Definition addPermissionToRole (r : string) (p : Permission) (s : AccessControlSystem) :
    AccessControlSystem :=
  match roleMap s !! r with
  | Some role => MkAcs (<[r := addPermission p role]> (roleMap s)) (userMap s)
  | None => s
  end.

Definition removeUser (u : string) (s : AccessControlSystem) : AccessControlSystem :=
  MkAcs (roleMap s) (delete u (userMap s)).

Definition removeRole (r : string) (s : AccessControlSystem) : AccessControlSystem :=
  MkAcs (delete r (roleMap s)) (userMap s).

Section Check.
(** The order in which an unordered set lists its elements. *)
Context (order : gset string -> list string).

(** [roleMap[role]] creates a role that is not there. *)
Fixpoint check_roles (rs : list string) (p : Permission) (m : gmap string Role) :
    gmap string Role * bool :=
  match rs with
  | [] => (m, false)
  | r :: rs =>
      match m !! r with
      | Some role => if hasPermission p role then (m, true) else check_roles rs p m
      | None => check_roles rs p (<[r := newRole EmptyString]> m)
      end
  end.

Definition checkUserPermission (u : string) (p : Permission) (s : AccessControlSystem) :
    AccessControlSystem * bool :=
  match userMap s !! u with
  | Some usr => let '(m, b) := check_roles (order (roles usr)) p (roleMap s) in (MkAcs m (userMap s), b)
  | None => (s, false)
  end.

(** ** Runs *)

Inductive acs_op : Type :=
| OCreateRole (r : string)
| OAddUser (u : string)
| OAssign (u r : string)
| OGrant (r : string) (p : Permission)
| ORemoveUser (u : string)
| ORemoveRole (r : string)
| OCheck (u : string) (p : Permission).

Definition acs_step (s : AccessControlSystem) (o : acs_op) : AccessControlSystem :=
  match o with
  | OCreateRole r => createRole r s
  | OAddUser u => addUser u s
  | OAssign u r => assignRoleToUser u r s
  | OGrant r p => addPermissionToRole r p s
  | ORemoveUser u => removeUser u s
  | ORemoveRole r => removeRole r s
  | OCheck u p => (checkUserPermission u p s).1
  end.

Definition acs_run (os : list acs_op) : AccessControlSystem := foldl acs_step make os.

(** ** What the history says *)

(** [P] held at some call of the run and no later call did [Q]. *)
Definition since (P : list acs_op -> acs_op -> Prop) (Q : acs_op -> Prop) (os : list acs_op) : Prop :=
  exists os1 o os2, os = os1 ++ o :: os2 /\ P os1 o /\ Forall (fun o => ~ Q o) os2.

Definition resets_user (u : string) (o : acs_op) : Prop := o = OAddUser u \/ o = ORemoveUser u.
Definition resets_role (r : string) (o : acs_op) : Prop := o = OCreateRole r \/ o = ORemoveRole r.

Definition user_live (u : string) : list acs_op -> Prop :=
  since (fun _ o => o = OAddUser u) (fun o => o = ORemoveUser u).
Definition role_live (r : string) : list acs_op -> Prop :=
  since (fun _ o => o = OCreateRole r) (fun o => o = ORemoveRole r).

(** The role was asked for since the user was last added or removed, or the permission since the role
    was last created or removed; and the same with the user and the role in place at that call. *)
Definition asked_role (u r : string) : list acs_op -> Prop :=
  since (fun _ o => o = OAssign u r) (resets_user u).
Definition asked_perm (r : string) (p : Permission) : list acs_op -> Prop :=
  since (fun _ o => o = OGrant r p) (resets_role r).
Definition has_role (u r : string) : list acs_op -> Prop :=
  since (fun os o => o = OAssign u r /\ user_live u os /\ role_live r os) (resets_user u).
Definition has_perm (r : string) (p : Permission) : list acs_op -> Prop :=
  since (fun os o => o = OGrant r p /\ role_live r os) (resets_role r).

Lemma since_snoc P (Q : acs_op -> Prop) os o :
  since P Q (os ++ [o]) <-> P os o \/ (~ Q o /\ since P Q os).
Proof.
  split.
  - intros (os1 & x & os2 & E & HP & HQ). destruct (snoc_inv os2) as [->|(os2' & y & ->)].
    + apply app_inj_tail in E as [-> ->]. by left.
    + rewrite (app_comm_cons os2' [y] x), (assoc_L (++)) in E. apply app_inj_tail in E as [-> ->].
      apply Forall_app in HQ as [HQ1 HQ2]. rewrite Forall_singleton in HQ2. right. split; [exact HQ2|]. by exists os1, x, os2'.
  - intros [HP|[HQ (os1 & x & os2 & -> & HP & HQs)]].
    + by exists os, o, [].
    + exists os1, x, (os2 ++ [o]). rewrite <-(assoc_L (++)). split; [done|]. split; [done|].
      apply Forall_app. split; [done|]. by apply Forall_singleton.
Qed.

Lemma since_nil P Q : ~ since P Q [].
Proof. intros ([|] & ? & ? & E & _); done. Qed.

(** ** The check *)

Hypothesis order_elements : forall S x, x ∈ order S <-> x ∈ S.

(** Role [r] holds permission [p]. *)
Definition role_allows (m : gmap string Role) (r : string) (p : Permission) : Prop :=
  exists role, m !! r = Some role /\ p ∈ permissions role.

(** What a check leaves: the roles there are as before, the new ones are empty. *)
Definition only_empty_added (m m' : gmap string Role) : Prop :=
  forall r, m' !! r = m !! r \/ (m !! r = None /\ exists role, m' !! r = Some role /\ permissions role = ∅).

Lemma check_roles_spec rs p : forall m,
  let '(m', b) := check_roles rs p m in
  only_empty_added m m' /\ (b = true <-> exists r, r ∈ rs /\ role_allows m r p).
Proof.
  induction rs as [|r rs IH]; intros m; cbn [check_roles].
  - split; [by left|]. split; [done|]. intros (r & Hr & _). set_solver.
  - destruct (m !! r) as [role|] eqn:Er.
    + unfold hasPermission. case_bool_decide as Hp.
      * split; [by left|]. split; [|done]. intros _. exists r. split; [set_solver|]. by exists role.
      * specialize (IH m). destruct (check_roles rs p m) as [m' b]. destruct IH as [H1 H2].
        split; [done|]. rewrite H2. split.
        -- intros (x & Hx & Ha). exists x. set_solver.
        -- intros (x & Hx & Ha). apply elem_of_cons in Hx as [->|Hx]; [|by exists x].
           destruct Ha as (ro & Hro & Hpo). congruence.
    + specialize (IH (<[r := newRole EmptyString]> m)).
      destruct (check_roles rs p _) as [m' b]. destruct IH as [H1 H2]. split.
      * intros x. destruct (H1 x) as [Hx|(Hx & He)]; rewrite lookup_insert in Hx; case_decide as E.
        -- subst x. right. split; [done|]. exists (newRole EmptyString). by rewrite Hx.
        -- by left.
        -- done.
        -- by right.
      * rewrite H2. split.
        -- intros (x & Hx & ro & Hro & Hpo). rewrite lookup_insert in Hro. case_decide.
           ++ injection Hro as <-. set_solver.
           ++ exists x. split; [set_solver|]. by exists ro.
        -- intros (x & Hx & ro & Hro & Hpo). apply elem_of_cons in Hx as [->|Hx]; [congruence|].
           exists x. split; [done|]. exists ro. by rewrite lookup_insert_ne by congruence.
Qed.

Lemma check_spec u p s :
  let '(s', b) := checkUserPermission u p s in
  userMap s' = userMap s /\ only_empty_added (roleMap s) (roleMap s') /\
  (b = true <-> exists usr r, userMap s !! u = Some usr /\ r ∈ roles usr /\ role_allows (roleMap s) r p).
Proof.
  unfold checkUserPermission. destruct (userMap s !! u) as [usr|] eqn:Eu.
  - pose proof (check_roles_spec (order (roles usr)) p (roleMap s)) as H.
    destruct (check_roles _ _ _) as [m b]. destruct H as [H1 H2]. split; [done|]. split; [done|].
    rewrite H2. split.
    + intros (r & Hr & Ha). exists usr, r. by rewrite order_elements in Hr.
    + intros (usr' & r & [= <-] & Hr & Ha). exists r. by rewrite order_elements.
  - split; [done|]. split; [by left|]. split; [done|]. by intros (usr & r & ? & _).
Qed.

(** ** History and state *)

Record acs_inv (os : list acs_op) (s : AccessControlSystem) : Prop := {
  inv_asked u usr r : userMap s !! u = Some usr -> r ∈ roles usr -> asked_role u r os;
  inv_perm r p : role_allows (roleMap s) r p -> asked_perm r p os;
  inv_user u : user_live u os -> is_Some (userMap s !! u);
  inv_role r : role_live r os -> is_Some (roleMap s !! r);
  inv_has_role u r : has_role u r os -> exists usr, userMap s !! u = Some usr /\ r ∈ roles usr;
  inv_has_perm r p : has_perm r p os -> role_allows (roleMap s) r p
}.

Lemma acs_make_inv : acs_inv [] make.
Proof.
  split; [done|by intros r p (role & Hr & _)|..].
  - intros u H. by apply since_nil in H.
  - intros r H. by apply since_nil in H.
  - intros u r H. by apply since_nil in H.
  - intros r p H. by apply since_nil in H.
Qed.

(** The users and roles after one call. *)
Lemma step_user o s u :
  userMap (acs_step s o) !! u =
    match o with
    | OAddUser u' => if decide (u' = u) then Some (newUser u) else userMap s !! u
    | ORemoveUser u' => if decide (u' = u) then None else userMap s !! u
    | OAssign u' r =>
        if decide (u' = u /\ is_Some (roleMap s !! r)) then assignRole r <$> userMap s !! u
        else userMap s !! u
    | _ => userMap s !! u
    end.
Proof.
  destruct o as [r|u'|u' r|r p|u'|r|u' p]; cbn [acs_step]; try done.
  - cbn. rewrite lookup_insert. by case_decide; subst.
  - unfold assignRoleToUser. destruct (decide (u' = u)) as [->|Hne].
    + destruct (userMap s !! u) as [usr|] eqn:Eu, (roleMap s !! r) as [ro|] eqn:Er; cbn;
        rewrite ?lookup_insert_eq, ?Eu; case_decide as E; try done.
      * by destruct E.
      * by destruct E as [_ [? ?]].
    + rewrite decide_False by tauto.
      destruct (userMap s !! u'), (roleMap s !! r); cbn; try done. by rewrite lookup_insert_ne.
  - unfold addPermissionToRole. by destruct (roleMap s !! r).
  - cbn. case_decide; [subst; apply lookup_delete_eq|by apply lookup_delete_ne].
  - pose proof (check_spec u' p s) as H. destruct (checkUserPermission u' p s) as [s' b]. simpl.
    by destruct H as [-> _].
Qed.

Lemma step_allows o s r p :
  role_allows (roleMap (acs_step s o)) r p <->
    match o with
    | OCreateRole r' | ORemoveRole r' => r' ≠ r /\ role_allows (roleMap s) r p
    | OGrant r' p' => (r' = r /\ p' = p /\ is_Some (roleMap s !! r)) \/ role_allows (roleMap s) r p
    | _ => role_allows (roleMap s) r p
    end.
Proof.
  unfold role_allows. destruct o as [r'|u|u r'|r' p'|u|r'|u p']; cbn [acs_step]; try done.
  - cbn. rewrite lookup_insert. case_decide; [|naive_solver]. split; [|naive_solver].
    intros (ro & [= <-] & Hp). set_solver.
  - unfold assignRoleToUser. by destruct (userMap s !! u), (roleMap s !! r').
  - unfold addPermissionToRole. destruct (roleMap s !! r') as [ro|] eqn:Er; cbn.
    + rewrite lookup_insert. case_decide as E; [subst|naive_solver]. rewrite Er. split.
      * intros (x & [= <-] & Hp). cbn in Hp. apply elem_of_union in Hp as [Hp|Hp]; [|right; by exists ro].
        apply elem_of_singleton in Hp. left. by repeat split.
      * intros [(_ & -> & _)|(x & [= <-] & Hp)]; eexists; (split; [done|]); set_solver.
    + split; [by right|]. intros [(-> & _ & [? H])|H]; [congruence|done].
  - cbn. split.
    + intros (ro & Hro & Hp). apply lookup_delete_Some in Hro as [? ?]. eauto.
    + intros (Hne & ro & Hro & Hp). exists ro. by rewrite lookup_delete_ne.
  - pose proof (check_spec u p' s) as H. destruct (checkUserPermission u p' s) as [s' b]. simpl.
    destruct H as (_ & He & _). destruct (He r) as [->|(Hn & ro & Hro & Hp)]; [done|]. rewrite Hn, Hro. split.
    + intros (x & [= <-] & Hx). rewrite Hp in Hx. set_solver.
    + by intros (x & ? & _).
Qed.

Lemma step_role o s r :
  is_Some (roleMap s !! r) -> o ≠ ORemoveRole r -> is_Some (roleMap (acs_step s o) !! r).
Proof.
  intros Hr Ho. destruct o as [r'|u|u r'|r' p'|u|r'|u p']; cbn [acs_step]; try done.
  - cbn. rewrite lookup_insert. by case_decide.
  - unfold assignRoleToUser. by destruct (userMap s !! u), (roleMap s !! r').
  - unfold addPermissionToRole. destruct (roleMap s !! r') eqn:E; [|done]. cbn. rewrite lookup_insert. by case_decide.
  - cbn. rewrite lookup_delete_ne; [done|]. congruence.
  - pose proof (check_spec u p' s) as H. destruct (checkUserPermission u p' s) as [s' b]. simpl.
    destruct H as (_ & He & _). destruct (He r) as [->|(_ & ro & -> & _)]; [done|by eexists].
Qed.

Lemma acs_step_inv os s o : acs_inv os s -> acs_inv (os ++ [o]) (acs_step s o).
Proof.
  intros [Ha Hp Hu Hr Hhr Hhp].
  split.
  - intros u usr r Hl Hin. rewrite step_user in Hl. apply since_snoc.
    assert (Hkeep : userMap s !! u = Some usr -> ~ resets_user u o -> o = OAssign u r \/ ~ resets_user u o /\ asked_role u r os)
      by (intros Hs Hn; right; split; [done|by eapply Ha]).
    destruct o as [r'|u'|u' r'|r' p'|u'|r'|u' p']; try (apply Hkeep; [done|by intros [?|?]]).
    + case_decide; [injection Hl as <-; set_solver|]. apply Hkeep; [done|]. intros [?|?]; congruence.
    + case_decide as E; [|apply Hkeep; [done|by intros [?|?]]]. destruct E as [-> _].
      destruct (userMap s !! u) as [usr0|] eqn:Eu; [|done]. injection Hl as <-. cbn in Hin.
      apply elem_of_union in Hin as [Hin|Hin]; [left; apply elem_of_singleton in Hin; congruence|].
      right. split; [by intros [?|?]|]. by eapply Ha.
    + case_decide; [done|]. apply Hkeep; [done|]. intros [?|?]; congruence.
  - intros r p Hl. rewrite step_allows in Hl. apply since_snoc.
    assert (Hkeep : role_allows (roleMap s) r p -> ~ resets_role r o -> o = OGrant r p \/ ~ resets_role r o /\ asked_perm r p os)
      by (intros Hs Hn; right; split; [done|by eapply Hp]).
    destruct o as [r'|u'|u' r'|r' p'|u'|r'|u' p']; try (apply Hkeep; [done|by intros [?|?]]).
    + destruct Hl as [Hne Hl]. apply Hkeep; [done|]. intros [?|?]; congruence.
    + destruct Hl as [(-> & -> & _)|Hl]; [by left|]. apply Hkeep; [done|by intros [?|?]].
    + destruct Hl as [Hne Hl]. apply Hkeep; [done|]. intros [?|?]; congruence.
  - intros u H. apply since_snoc in H. rewrite step_user. destruct H as [->|[Hn H]]; [by rewrite decide_True|].
    apply Hu in H. destruct o; try done; case_decide; try done; subst; [|done]. by apply fmap_is_Some.
  - intros r H. apply since_snoc in H. destruct H as [->|[Hn H]].
    + cbn. by rewrite lookup_insert_eq.
    + apply step_role; [by apply Hr|done].
  - intros u r H. apply since_snoc in H. rewrite step_user. destruct H as [(-> & Hul & Hrl)|[Hn H]].
    + apply Hu in Hul as [usr Hus]. apply Hr in Hrl. rewrite decide_True by done. rewrite Hus. cbn.
      eexists. split; [done|]. set_solver.
    + destruct (Hhr u r H) as (usr & Hus & Hin).
      destruct o as [r'|u'|u' r'|r' p'|u'|r'|u' p']; eauto; (case_decide as E; [|by eauto]).
      * subst. destruct Hn. by left.
      * rewrite Hus. cbn. eexists. split; [done|]. set_solver.
      * subst. destruct Hn. by right.
  - intros r p H. apply since_snoc in H. rewrite step_allows. destruct H as [(-> & Hrl)|[Hn H]].
    + left. repeat split; try done. by apply Hr.
    + apply Hhp in H. destruct o; try done; [split; [|done]|by right|split; [|done]]; intros ->; apply Hn; [by left|by right].
Qed.

Lemma acs_run_inv os : acs_inv os (acs_run os).
Proof.
  induction os as [|o os IH] using rev_ind; [apply acs_make_inv|]. unfold acs_run. rewrite foldl_app.
  by apply acs_step_inv.
Qed.

(** C27.  Access is earned and revocable: after any run of the system, checks included and for every order
    of the unordered sets, a check succeeds only if some role was assigned to the user since the user
    was last added or removed, and the permission was granted to that role since it was last created
    or removed; and it does succeed when the user and the role existed at those calls. *)
Theorem rbac_access (os : list acs_op) (u : string) (p : Permission) :
  ((checkUserPermission u p (acs_run os)).2 = true ->
   exists r, asked_role u r os /\ asked_perm r p os) /\
  ((exists r, has_role u r os /\ has_perm r p os) ->
   (checkUserPermission u p (acs_run os)).2 = true).
Proof.
  pose proof (acs_run_inv os) as [Ha Hp Hu Hr Hhr Hhp].
  pose proof (check_spec u p (acs_run os)) as H. destruct (checkUserPermission u p (acs_run os)) as [s' b].
  destruct H as (_ & _ & H). simpl. rewrite H. split.
  - intros (usr & r & Hus & Hin & Hal). exists r. split; [by eapply Ha|by apply Hp].
  - intros (r & H1 & H2). destruct (Hhr u r H1) as (usr & Hus & Hin). exists usr, r. eauto.
Qed.
End Check.

(** The calls of [main], and what they allow. *)
Definition main_ops : list acs_op :=
  [OCreateRole "Admin"; OCreateRole "Editor"; OCreateRole "Viewer";
   OGrant "Admin" READ; OGrant "Admin" WRITE; OGrant "Admin" DELETE; OGrant "Editor" READ;
   OGrant "Editor" WRITE; OGrant "Viewer" READ;
   OAddUser "Person1"; OAddUser "Person2"; OAddUser "Person3";
   OAssign "Person1" "Admin"; OAssign "Person2" "Editor"; OAssign "Person3" "Viewer"].

Lemma rbac_access_witness :
  (forall S x, x ∈ elements S <-> x ∈ (S : gset string)) /\
  (checkUserPermission elements "Person1" WRITE (acs_run elements main_ops)).2 = true /\
  exists r, asked_role "Person1" r main_ops /\ asked_perm r WRITE main_ops.
Proof.
  assert (Ho : forall S x, x ∈ elements S <-> x ∈ (S : gset string)) by (intros S x; apply elem_of_elements).
  split; [done|]. assert (Hc : (checkUserPermission elements "Person1" WRITE (acs_run elements main_ops)).2 = true)
    by (vm_compute; reflexivity).
  split; [done|]. apply (rbac_access elements Ho main_ops "Person1" WRITE). exact Hc.
Defined.

(** [operator<<] for permissions. *)
Definition permission_name (p : Permission) : string :=
  match p with READ => "READ" | WRITE => "WRITE" | DELETE => "DELETE" | EXECUTE => "EXECUTE" end.

(** A question of [main]: the state after the check and the line it prints. *)
Definition ask (order : gset string -> list string) (u : string) (p : Permission) (suffix : string)
    (s : AccessControlSystem) : AccessControlSystem * string :=
  let '(s, b) := checkUserPermission order u p s in
  (s, "Does " +:+ u +:+ " have " +:+ permission_name p +:+ " permission" +:+ suffix +:+ "? " +:+
      (if b : bool then "Yes" else "No")).

Definition main (order : gset string -> list string) : list string :=
  let s := acs_run order main_ops in
  let '(s, l1) := ask order "Person1" WRITE "" s in
  let '(s, l2) := ask order "Person2" DELETE "" s in
  let '(s, l3) := ask order "Person3" READ "" s in
  let '(s, l4) := ask order "Person3" READ " after removal" (removeUser "Person3" s) in
  [l1; l2; l3; l4].

Example rbac_main_prints :
  main elements = ["Does Person1 have WRITE permission? Yes"; "Does Person2 have DELETE permission? No";
                   "Does Person3 have READ permission? Yes";
                   "Does Person3 have READ permission after removal? No"].
Proof. vm_compute. reflexivity. Qed.

(** A removed role stays with its users, and a check creates it again, empty: a permission granted to
    the removed role afterwards takes effect. *)
Example removed_role_returns :
  let os := [OCreateRole "Admin"; OAddUser "u"; OAssign "u" "Admin"; ORemoveRole "Admin"] in
  (checkUserPermission elements "u" READ (acs_run elements (os ++ [OGrant "Admin" READ]))).2 = false /\
  (checkUserPermission elements "u" READ
     (acs_run elements (os ++ [OCheck "u" READ; OGrant "Admin" READ]))).2 = true.
Proof. vm_compute. done. Qed.
