(* ===== verification/AuditLog.v ===== *)
(** * The audit log ([security/audit_logs.cpp])

    Events as lines of a text file, and the components that report them: authentication, data access
    and error handling. *)

From S2P Require Import Prelude Text.
From Stdlib Require Import Ascii.
Local Open Scope Z_scope.

#[local] Arguments String.append !_ _ / : simpl nomatch.

(** ** Time stamps *)

(** The fields of [struct tm] the logger prints. *)
Record tm : Type := MkTime { tm_year : Z; tm_mon : Z; tm_mday : Z; tm_hour : Z; tm_min : Z; tm_sec : Z }.

(** [%0nd] of a number that is not negative. *)
Fixpoint zeros (n : nat) (s : string) : string :=
  match n with O => s | S n => String "0" (zeros n s) end.
Definition pad (width : nat) (z : Z) : string :=
  let s := to_string z in zeros (width - String.length s) s.

Definition time_text (t : tm) : string :=
  pad 4 (1900 + tm_year t) +:+ "-" +:+ pad 2 (1 + tm_mon t) +:+ "-" +:+ pad 2 (tm_mday t) +:+ " " +:+
  pad 2 (tm_hour t) +:+ ":" +:+ pad 2 (tm_min t) +:+ ":" +:+ pad 2 (tm_sec t).

(** [sprintf] into [char buffer[20]]: the text and its final null must fit. *)
Definition getCurrentTime (t : tm) : outcome string :=
  if bool_decide (String.length (time_text t) < 20)%nat then Ret (time_text t) else Undef index_out_of_range.

(** What [localtime] gives for years of up to four digits. *)
Definition valid_time (t : tm) : Prop :=
  0 <= 1900 + tm_year t <= 9999 /\ 0 <= tm_mon t <= 11 /\ 1 <= tm_mday t <= 31 /\
  0 <= tm_hour t <= 23 /\ 0 <= tm_min t <= 59 /\ 0 <= tm_sec t <= 60.

(** ** The logger *)

(** The log file; [std::endl] flushes every event. *)
Definition AuditLogger : Type := string.

Definition event_line (time event user details : string) : string :=
  "[" +:+ time +:+ "] " +:+ "User: " +:+ user +:+ " | Event: " +:+ event +:+ " | Details: " +:+ details.

Definition logEvent (now : tm) (event user details : string) : prog AuditLogger unit := fun f =>
  match getCurrentTime now with
  | Ret time => (f +:+ event_line time event user details +:+ String nl EmptyString, Ret tt)
  | Throw e => (f, Throw e)
  | Hang => (f, Hang)
  | Undef u => (f, Undef u)
  end.

(** ** Authentication *)

Definition userCredentials : gmap string string :=
  {[ "admin" := "admin_password"; "user1" := "password1"; "user2" := "password2" ]}.

Definition authenticate (now : tm) (username password : string) : prog AuditLogger bool :=
  (if bool_decide (userCredentials !! username = Some password)
   then logEvent now "LoginSuccess" username "User successfully logged in." ;;; prog_ret true
   else logEvent now "LoginFailed" username "Failed login attempt." ;;; prog_ret false)%prog.

(** ** Data access and errors *)

Definition accessData (now : tm) (username data : string) : prog AuditLogger unit :=
  logEvent now "DataAccess" username ("Accessed data: " +:+ data).
Definition modifyData (now : tm) (username data modification : string) : prog AuditLogger unit :=
  logEvent now "DataModification" username
    ("Modified data: " +:+ data +:+ " | Modification: " +:+ modification).
Definition deleteData (now : tm) (username data : string) : prog AuditLogger unit :=
  logEvent now "DataDeletion" username ("Deleted data: " +:+ data).
Definition logError (now : tm) (username errorMessage : string) : prog AuditLogger unit :=
  logEvent now "Error" username ("Error message: " +:+ errorMessage).

(** ** Runs *)

Inductive audit_op : Type :=
| OLogin (user password : string)
| OAccess (user data : string)
| OModify (user data modification : string)
| ODelete (user data : string)
| OError (user message : string).

(** A call returns whether it granted a login. *)
Definition audit_step (now : tm) (o : audit_op) : prog AuditLogger bool :=
  match o with
  | OLogin u p => authenticate now u p
  | OAccess u d => (accessData now u d ;;; prog_ret false)%prog
  | OModify u d m => (modifyData now u d m ;;; prog_ret false)%prog
  | ODelete u d => (deleteData now u d ;;; prog_ret false)%prog
  | OError u m => (logError now u m ;;; prog_ret false)%prog
  end.

Fixpoint audit_run (os : list (tm * audit_op)) : prog AuditLogger (list bool) :=
  match os with
  | [] => prog_ret []
  | (now, o) :: os => (let! r := audit_step now o in let! rs := audit_run os in prog_ret (r :: rs))%prog
  end.

(** Whether the call is a login with the right password. *)
Definition granted (o : audit_op) : bool :=
  match o with OLogin u p => bool_decide (userCredentials !! u = Some p) | _ => false end.

(** The event a call reports: its name, user and details. *)
Definition event_of (o : audit_op) : string * string * string :=
  match o with
  | OLogin u p => if granted o then ("LoginSuccess", u, "User successfully logged in.")
                  else ("LoginFailed", u, "Failed login attempt.")
  | OAccess u d => ("DataAccess", u, "Accessed data: " +:+ d)
  | OModify u d m => ("DataModification", u, "Modified data: " +:+ d +:+ " | Modification: " +:+ m)
  | ODelete u d => ("DataDeletion", u, "Deleted data: " +:+ d)
  | OError u m => ("Error", u, "Error message: " +:+ m)
  end.

Definition line_of (c : tm * audit_op) : string :=
  let '(e, u, d) := event_of c.2 in event_line (time_text c.1) e u d.

(** ** The trail *)

Lemma digits_length fuel : forall n acc k,
  0 <= n < 10 ^ Z.of_nat k -> (0 < k)%nat ->
  (String.length (digits fuel n acc) <= k + String.length acc)%nat.
Proof.
  induction fuel as [|fuel IH]; intros n acc k Hn Hk; cbn [digits]; [lia|].
  destruct (n <? 10) eqn:E; [simpl; lia|]. apply Z.ltb_ge in E. destruct k as [|[|k]]; [lia|simpl in Hn; lia|].
  etrans; [apply (IH _ _ (S k)); [|lia]|simpl; lia].
  rewrite (Nat2Z.inj_succ (S k)), Z.pow_succ_r in Hn by lia. split; [apply Z.div_pos; lia|].
  apply Z.div_lt_upper_bound; lia.
Qed.

Lemma to_string_length z k : 0 <= z < 10 ^ Z.of_nat k -> (0 < k)%nat -> (String.length (to_string z) <= k)%nat.
Proof.
  intros Hz Hk. unfold to_string. assert (E : (z <? 0) = false) by (apply Z.ltb_ge; lia). rewrite E, Z.abs_eq by lia.
  etrans; [by apply (digits_length _ _ _ k)|]. simpl. lia.
Qed.

Lemma zeros_length n s : String.length (zeros n s) = (n + String.length s)%nat.
Proof. induction n as [|n IH]; simpl; [done|]. by rewrite IH. Qed.

Lemma pad_length k z : 0 <= z < 10 ^ Z.of_nat k -> (0 < k)%nat -> String.length (pad k z) = k.
Proof. intros Hz Hk. unfold pad. rewrite zeros_length. pose proof (to_string_length z k Hz Hk). lia. Qed.

(** The buffer is large enough for every valid time. *)
Lemma time_fits t : valid_time t -> String.length (time_text t) = 19%nat /\ getCurrentTime t = Ret (time_text t).
Proof.
  intros (Hy & Hmo & Hd & Hh & Hmi & Hs).
  assert (E : String.length (time_text t) = 19%nat).
  { unfold time_text. rewrite !length_append, !pad_length by lia. reflexivity. }
  split; [done|]. unfold getCurrentTime. rewrite E. reflexivity.
Qed.

Lemma audit_step_ok now o f :
  valid_time now ->
  audit_step now o f = (f +:+ line_of (now, o) +:+ String nl EmptyString, Ret (granted o)).
Proof.
  intros Ht. destruct (time_fits now Ht) as [_ E].
  assert (Hlog : forall e u d, logEvent now e u d f = (f +:+ event_line (time_text now) e u d +:+ String nl EmptyString, Ret tt)).
  { intros e u d. unfold logEvent. by rewrite E. }
  destruct o as [u p|u d|u d m|u d|u m]; cbn [audit_step];
    unfold authenticate, accessData, modifyData, deleteData, logError, line_of, event_of, granted; cbn [fst snd];
    [case_bool_decide|..]; unfold prog_bind; by rewrite Hlog.
Qed.

Lemma audit_run_ok os : forall f,
  Forall (fun c => valid_time c.1) os ->
  audit_run os f = (f +:+ unlines nl (line_of <$> os), Ret (granted <$> os.*2)).
Proof.
  induction os as [|[now o] os IH]; intros f Hos.
  - cbn. by rewrite append_nil_r.
  - apply Forall_cons in Hos as [Ht Hos]. cbn [audit_run]. unfold prog_bind.
    rewrite audit_step_ok by done. rewrite IH by done. cbn [fmap list_fmap fst snd prog_ret].
    change (unlines nl (?x :: ?y)) with (x +:+ String nl (unlines nl y)). by rewrite !app_string_assoc.
Qed.

(** The audit trail is complete: at valid times, any calls write exactly one line each, in order, with
    the event, the user and the details of the call, and the text of the time never overflows its
    buffer; a login is granted exactly when the password is the stored one, and then, and only then,
    its line reports success. *)
Lemma audit_trail (os : list (tm * audit_op)) (f : AuditLogger) :
  Forall (fun c => valid_time c.1) os ->
  audit_run os f = (f +:+ unlines nl (line_of <$> os), Ret (granted <$> os.*2)) /\
  (forall u p, granted (OLogin u p) = true <-> userCredentials !! u = Some p) /\
  (forall u p, (event_of (OLogin u p)).1.1 = "LoginSuccess" <-> userCredentials !! u = Some p) /\
  (forall t, valid_time t -> getCurrentTime t = Ret (time_text t) /\ String.length (time_text t) = 19%nat).
Proof.
  intros Hos. split; [by apply audit_run_ok|]. split; [|split].
  - intros u p. apply bool_decide_eq_true.
  - intros u p. unfold event_of, granted. by case_bool_decide.
  - intros t Ht. destruct (time_fits t Ht). done.
Qed.

(** A user name that holds a newline forges a second line of the trail. *)
Example forged_line :
  let t := MkTime 124 0 1 0 0 0 in
  length (getlines nl (fst (audit_run [(t, OAccess ("x" +:+ String nl "[2024-01-01 00:00:00] User: admin") "d")] EmptyString))) = 2%nat.
Proof. vm_compute. reflexivity. Qed.

Lemma audit_trail_witness :
  let t := MkTime 124 11 31 23 59 60 in
  audit_run [(t, OLogin "admin" "admin_password"); (t, OLogin "user1" "wrong_password")] EmptyString =
    (unlines nl ["[2024-12-31 23:59:60] User: admin | Event: LoginSuccess | Details: User successfully logged in.";
                 "[2024-12-31 23:59:60] User: user1 | Event: LoginFailed | Details: Failed login attempt."],
     Ret [true; false]).
Proof.
  intros t. destruct (audit_trail [(t, OLogin "admin" "admin_password"); (t, OLogin "user1" "wrong_password")] EmptyString) as [H _].
  - repeat (apply Forall_cons_2; [vm_compute; repeat split; congruence|]). apply Forall_nil_2.
  - rewrite H. vm_compute. reflexivity.
Defined.

(** ** The program *)

(** The file as the constructor opens it, for appending, or the status it makes the program exit
    with when it cannot be opened. *)
Definition newAuditLogger (file : option string) : AuditLogger + Z :=
  match file with Some old => inl old | None => inr 1 end.

(** The calls of [main], at the times [t] gives them. *)
Definition main (t : nat -> tm) : prog AuditLogger unit :=
  (let! ok := authenticate (t 0%nat) "admin" "admin_password" in
  (if (ok : bool) then
     accessData (t 1%nat) "admin" "SensitiveData";;;
     modifyData (t 2%nat) "admin" "SensitiveData" "UpdatedValue";;;
     deleteData (t 3%nat) "admin" "ObsoleteData"
   else prog_ret tt);;;
  let! ok := authenticate (t 4%nat) "user1" "wrong_password" in
  (if (ok : bool) then prog_ret tt else logError (t 5%nat) "user1" "Invalid login attempt.");;;
  let! ok := authenticate (t 6%nat) "user1" "password1" in
  if (ok : bool) then accessData (t 7%nat) "user1" "GeneralData" else prog_ret tt)%prog.

(** It leaves eight lines, at any valid times. *)
Lemma main_trail (t : nat -> tm) f :
  (forall n, valid_time (t n)) ->
  main t f = ((audit_run [(t 0%nat, OLogin "admin" "admin_password");
                          (t 1%nat, OAccess "admin" "SensitiveData");
                          (t 2%nat, OModify "admin" "SensitiveData" "UpdatedValue");
                          (t 3%nat, ODelete "admin" "ObsoleteData");
                          (t 4%nat, OLogin "user1" "wrong_password");
                          (t 5%nat, OError "user1" "Invalid login attempt.");
                          (t 6%nat, OLogin "user1" "password1");
                          (t 7%nat, OAccess "user1" "GeneralData")] f).1, Ret tt).
Proof.
  intros Ht. rewrite audit_run_ok by (repeat constructor; cbn; apply Ht).
  assert (Hlog : forall n o g, audit_step (t n) o g =
    (g +:+ line_of (t n, o) +:+ String nl EmptyString, Ret (granted o))) by (intros; by apply audit_step_ok).
  assert (Hev : forall (p : prog AuditLogger unit) n o g,
    (audit_step (t n) o g = (p;;; prog_ret false)%prog g) -> granted o = false ->
    p g = (g +:+ line_of (t n, o) +:+ String nl EmptyString, Ret tt)).
  { intros p n o g E Hg. rewrite Hlog, Hg in E. unfold prog_bind in E.
    destruct (p g) as [g' [[]| | |]]; try done. by injection E as <-. }
  assert (Hin : forall n u w g, authenticate (t n) u w g =
    (g +:+ line_of (t n, OLogin u w) +:+ String nl EmptyString, Ret (granted (OLogin u w))))
    by (intros n u w g; apply (Hlog n (OLogin u w))).
  unfold main, prog_bind.
  rewrite (Hin 0%nat "admin" "admin_password"). change (granted (OLogin "admin" "admin_password")) with true. cbv beta iota.
  rewrite (Hev (accessData (t 1%nat) "admin" "SensitiveData") 1%nat (OAccess "admin" "SensitiveData")) by done.
  rewrite (Hev (modifyData (t 2%nat) "admin" "SensitiveData" "UpdatedValue") 2%nat
    (OModify "admin" "SensitiveData" "UpdatedValue")) by done.
  rewrite (Hev (deleteData (t 3%nat) "admin" "ObsoleteData") 3%nat (ODelete "admin" "ObsoleteData")) by done.
  rewrite (Hin 4%nat "user1" "wrong_password"). change (granted (OLogin "user1" "wrong_password")) with false. cbv beta iota.
  rewrite (Hev (logError (t 5%nat) "user1" "Invalid login attempt.") 5%nat
    (OError "user1" "Invalid login attempt.")) by done.
  rewrite (Hin 6%nat "user1" "password1"). change (granted (OLogin "user1" "password1")) with true. cbv beta iota.
  rewrite (Hev (accessData (t 7%nat) "user1" "GeneralData") 7%nat (OAccess "user1" "GeneralData")) by done.
  cbn [fst fmap list_fmap].
  repeat change (unlines nl (?x :: ?y)) with (x +:+ String nl (unlines nl y)).
  by rewrite !app_string_assoc.
Qed.
