(* ===== verification/DistributedQuery.v ===== *)
(** * Distributed queries ([distributed_systems/distributed_query_processor.go])

    [QueryProcessor] keeps its nodes in a slice, whose array it shares with the caller that made it;
    a query goes to every node at once and the results are put together in the order they arrive. *)

From S2P Require Import Prelude.
Local Open Scope nat_scope.

Record Query : Type := MkQuery { q_ID : string; Statement : string }.

(** An error is its text; the data are the texts the nodes send. *)
Record Result : Type := MkResult { QueryID : string; Data : list string; Error : option string }.

Record Node : Type := MkNode { n_ID : string; Addr : string }.
#[export] Instance Node_eq_dec : EqDecision Node.
Proof. solve_decision. Defined.

(** ** Slices *)

(** The arrays of the heap, by address; a slot that was never written is nil.  A slice begins at the
    start of its array, and its capacity is the length of the array. *)
Abbreviation heap := (gmap nat (list (option Node))) (only parsing).
Record slice : Type := MkSlice { arr : nat; len : nat }.

Definition array (h : heap) (s : slice) : list (option Node) := default [] (h !! arr s).
Definition view (h : heap) (s : slice) : list (option Node) := take (len s) (array h s).

(** [copy]: writes the elements [xs] from index [i] on. *)
Definition blit (i : nat) (xs a : list (option Node)) : list (option Node) :=
  take i a ++ xs ++ drop (i + length xs) a.

(** [append(s, xs...)]: in place when the capacity allows it; otherwise into a new array, with the room
    that [room] chooses for the length. *)
Definition append (room : nat -> nat) (s : slice) (xs : list (option Node)) (h : heap) : heap * slice :=
  let n := len s + length xs in
  if decide (n <= length (array h s))
  then (<[arr s := blit (len s) xs (array h s)]> h, MkSlice (arr s) n)
  else let a := fresh (dom h) in
       (<[a := view h s ++ xs ++ replicate (room n) None]> h, MkSlice a n).

(** ** The processor *)

Record QueryProcessor : Type := MkQP { nodes : slice }.

Definition NewQueryProcessor (s : slice) : QueryProcessor := MkQP s.

Definition AddNode (room : nat -> nat) (node : Node) (st : heap * QueryProcessor) : heap * QueryProcessor :=
  let '(h, s) := append room (nodes st.2) [Some node] st.1 in (h, MkQP s).

(** The index of the first node with the id. *)
Definition has_id (nodeID : string) (o : option Node) : Prop :=
  match o with Some n => n_ID n = nodeID | None => False end.
#[export] Instance has_id_dec nodeID o : Decision (has_id nodeID o).
Proof. destruct o; unfold has_id; apply _. Defined.

Definition RemoveNode (room : nat -> nat) (nodeID : string) (st : heap * QueryProcessor) :
    heap * QueryProcessor :=
  let '(h, qp) := st in
  match list_find (has_id nodeID) (view h (nodes qp)) with
  | Some (i, _) =>
      let '(h', s) := append room (MkSlice (arr (nodes qp)) i) (drop (S i) (view h (nodes qp))) h in
      (h', MkQP s)
  | None => st
  end.

Definition pingNode (node : option Node) : bool := true.

(** The nodes that answer, in a slice of their own; each [append] may move it. *)
Fixpoint health_loop (room : nat -> nat) (ns : list (option Node)) (s : slice) (h : heap) : heap * slice :=
  match ns with
  | [] => (h, s)
  | n :: ns =>
      let '(h', s') := if pingNode n then append room s [n] h else (h, s) in
      health_loop room ns s' h'
  end.

Definition HealthCheck (room : nat -> nat) (st : heap * QueryProcessor) : heap * QueryProcessor :=
  let '(h, qp) := st in
  let a := fresh (dom h) in
  let '(h', s) := health_loop room (view h (nodes qp)) (MkSlice a 0) (<[a := []]> h) in
  (h', MkQP s).

(** ** A query *)

(** What a node answers.  Reading the first byte of an empty id panics; a cancelled context gives nil. *)
Definition node_result (query : Query) (n : Node) : Result :=
  MkResult (q_ID query) ["Result from node " +:+ n_ID n] None.

Definition sendQueryToNode (query : Query) (cancelled : bool) (n : Node) : outcome (option Result) :=
  if decide (n_ID n = EmptyString) then Throw (runtime_error "index out of range")
  else Ret (if cancelled then None else Some (node_result query n)).

(** The loop over the channel of results, which may hold a nil. *)
Fixpoint aggregate (arrivals : list (option Result)) (acc : Result) : outcome Result :=
  match arrivals with
  | [] => Ret acc
  | None :: _ => Throw (runtime_error "nil pointer dereference")
  | Some r :: rest =>
      match Error r with
      | Some _ => aggregate rest acc
      | None => aggregate rest (MkResult (QueryID acc) (Data acc ++ Data r) (Error acc))
      end
  end.

(** The nodes answer in the order [order] gives them, and [cancelled] tells which of them see the end
    of the context first.  The outer [inl] is the error the call returns. *)
Definition ExecuteQuery (cancelled : Node -> bool) (order : list (option Result) -> list (option Result))
    (query : Query) (ns : list Node) : outcome (string + Result) :=
  match ns with
  | [] => Ret (inl "no nodes available for processing")
  | _ =>
      replies ← mapM (fun n => sendQueryToNode query (cancelled n) n) ns;
      r ← aggregate (order replies) (MkResult (q_ID query) [] None);
      Ret (inr r)
  end.

(** The loop on the channel of queries, until it is closed or the context ends; a nil is skipped, and
    an error only logged.  The results are those it sends. *)
Fixpoint mainQueryLoop (cancelled : Node -> bool)
    (order : list (option Result) -> list (option Result)) (ns : list Node) (queries : list (option Query)) :
    outcome (list Result) :=
  match queries with
  | [] => Ret []
  | None :: rest => mainQueryLoop cancelled order ns rest
  | Some q :: rest =>
      r ← ExecuteQuery cancelled order q ns;
      rs ← mainQueryLoop cancelled order ns rest;
      Ret (match r with inl _ => rs | inr res => res :: rs end)
  end.

(** ** The nodes as a list *)

Definition slice_ok (h : heap) (s : slice) : Prop := len s <= length (array h s).

Lemma view_insert (h : heap) a xs n : view (<[a := xs]> h) (MkSlice a n) = take n xs.
Proof. unfold view, array. cbn [arr len]. by rewrite lookup_insert_eq. Qed.

Lemma slice_ok_insert (h : heap) a xs n : n <= length xs -> slice_ok (<[a := xs]> h) (MkSlice a n).
Proof. intros Hn. unfold slice_ok, array. cbn [arr len]. by rewrite lookup_insert_eq. Qed.

Lemma length_blit i xs a : i + length xs <= length a -> length (blit i xs a) = length a.
Proof. intros H. unfold blit. rewrite !length_app, length_take, length_drop. lia. Qed.

Lemma append_view room s xs h :
  slice_ok h s ->
  let '(h', s') := append room s xs h in slice_ok h' s' /\ view h' s' = view h s ++ xs.
Proof.
  intros Hok. unfold slice_ok in Hok. unfold append. case_decide as Hn; rewrite view_insert.
  - split; [apply slice_ok_insert; by rewrite length_blit|]. unfold blit. rewrite app_assoc, take_app_le.
    + rewrite take_ge; [done|]. rewrite length_app, length_take. lia.
    + rewrite length_app, length_take. lia.
  - split.
    + apply slice_ok_insert. unfold view. rewrite !length_app, length_take. lia.
    + unfold view. rewrite app_assoc, take_app_le; [rewrite take_ge; [done|]|]; rewrite length_app, length_take; lia.
Qed.

Lemma health_loop_view room ns : forall s h,
  slice_ok h s ->
  let '(h', s') := health_loop room ns s h in slice_ok h' s' /\ view h' s' = view h s ++ ns.
Proof.
  induction ns as [|n ns IH]; intros s h Hok; cbn [health_loop pingNode].
  - by rewrite app_nil_r.
  - pose proof (append_view room s [n] h Hok) as Ha. destruct (append room s [n] h) as [h1 s1].
    destruct Ha as [Hok1 Hv1]. specialize (IH s1 h1 Hok1). destruct (health_loop room ns s1 h1) as [h2 s2].
    destruct IH as [Hok2 Hv2]. split; [done|]. rewrite Hv2, Hv1, <-app_assoc. done.
Qed.

Inductive qp_op : Type :=
| OAdd (node : Node)
| ORemove (nodeID : string)
| OHealth.

Definition qp_step (room : nat -> nat) (o : qp_op) : heap * QueryProcessor -> heap * QueryProcessor :=
  match o with
  | OAdd n => AddNode room n
  | ORemove i => RemoveNode room i
  | OHealth => HealthCheck room
  end.

(** The same on a list: a removal takes out the first node with the id, a check none. *)
Definition list_step (o : qp_op) (l : list (option Node)) : list (option Node) :=
  match o with
  | OAdd n => l ++ [Some n]
  | ORemove i => match list_find (has_id i) l with Some (k, _) => delete k l | None => l end
  | OHealth => l
  end.

Definition qp_ok (st : heap * QueryProcessor) : Prop := slice_ok st.1 (nodes st.2).
Definition qp_view (st : heap * QueryProcessor) : list (option Node) := view st.1 (nodes st.2).

Lemma qp_step_view room o st :
  qp_ok st -> qp_ok (qp_step room o st) /\ qp_view (qp_step room o st) = list_step o (qp_view st).
Proof.
  destruct st as [h [s]]. unfold qp_ok, qp_view. cbn [fst snd nodes]. intros Hok.
  destruct o as [n|i|]; cbn [qp_step list_step].
  - unfold AddNode. cbn [fst snd nodes]. pose proof (append_view room s [Some n] h Hok) as Ha.
    by destruct (append room s [Some n] h).
  - unfold RemoveNode. cbn [nodes]. destruct (list_find (has_id i) (view h s)) as [[k x]|] eqn:Hf; [|done].
    apply list_find_Some in Hf as (Hk & _ & _). apply lookup_lt_Some in Hk as Hlt.
    unfold view in Hlt. rewrite length_take in Hlt.
    assert (Hok' : slice_ok h (MkSlice (arr s) k)).
    { unfold slice_ok in *. cbn [len]. unfold array in *. cbn [arr]. lia. }
    pose proof (append_view room _ (drop (S k) (view h s)) h Hok') as Ha.
    destruct (append room (MkSlice (arr s) k) (drop (S k) (view h s)) h) as [h' s'].
    destruct Ha as [Hok2 Hv]. cbn [fst snd nodes]. split; [done|]. rewrite Hv, delete_take_drop. f_equal.
    unfold view. cbn [len]. change (array h (MkSlice (arr s) k)) with (array h s).
    rewrite take_take. f_equal. lia.
  - unfold HealthCheck. cbn [nodes].
    pose proof (health_loop_view room (view h s) (MkSlice (fresh (dom h)) 0) (<[fresh (dom h) := []]> h)) as Ha.
    destruct (health_loop room (view h s) (MkSlice (fresh (dom h)) 0) (<[fresh (dom h) := []]> h)) as [h' s'].
    cbn [fst snd nodes]. destruct Ha as [Hok' Hv]; [unfold slice_ok; cbn; lia|]. split; [done|].
    by rewrite Hv.
Qed.

(** Any calls leave the nodes that the same calls leave in a list, wherever the arrays move. *)
Lemma query_nodes_refine room os : forall st,
  qp_ok st ->
  qp_ok (foldl (fun st o => qp_step room o st) st os) /\
  qp_view (foldl (fun st o => qp_step room o st) st os) = foldl (fun l o => list_step o l) (qp_view st) os.
Proof.
  induction os as [|o os IH]; intros st Hok; cbn [foldl]; [done|].
  destruct (qp_step_view room o st Hok) as [Hok' Hv]. rewrite <-Hv. by apply IH.
Qed.

Definition node (i : string) : Node := MkNode i EmptyString.

(** The caller's slice shares the array: after a removal it holds the last node twice. *)
Example caller_slice_changes :
  let h : heap := {[ 0 := [Some (node "1"); Some (node "2"); Some (node "3")] ]} in
  let s := MkSlice 0 3 in
  let '(h', qp) := RemoveNode (fun n => n) "1" (h, NewQueryProcessor s) in
  view h' (nodes qp) = [Some (node "2"); Some (node "3")] /\
  view h' s = [Some (node "2"); Some (node "3"); Some (node "3")].
Proof. vm_compute. done. Qed.

(** ** What a query returns *)

Lemma sends_ok (query : Query) (cancelled : Node -> bool) (ns : list Node) :
  Forall (fun n => n_ID n ≠ EmptyString) ns ->
  mapM (fun n => sendQueryToNode query (cancelled n) n) ns =
    Ret ((fun n => if cancelled n then None else Some (node_result query n)) <$> ns).
Proof.
  induction 1 as [|n ns Hn _ IH]; [done|].
  change (mapM ?f (n :: ns)) with (r ← f n; rs ← mapM f ns; Ret (r :: rs)). cbn beta.
  assert (Hs : sendQueryToNode query (cancelled n) n =
    Ret (if cancelled n then None else Some (node_result query n))).
  { unfold sendQueryToNode. by rewrite decide_False. }
  rewrite Hs, IH. done.
Qed.

(** A nil anywhere in the channel stops the loop with a panic. *)
Lemma aggregate_nil arrivals : forall acc,
  None ∈ arrivals -> aggregate arrivals acc = Throw (runtime_error "nil pointer dereference").
Proof.
  induction arrivals as [|[r|] rest IH]; intros acc Hin; cbn; [by apply not_elem_of_nil in Hin| |done].
  apply elem_of_cons in Hin as [|Hin]; [done|]. destruct (Error r); by apply IH.
Qed.

Lemma aggregate_data rs : forall acc,
  Forall (fun r => Error r = None) rs ->
  aggregate (Some <$> rs) acc = Ret (MkResult (QueryID acc) (Data acc ++ (rs ≫= Data)) (Error acc)).
Proof.
  induction rs as [|r rs IH]; intros acc Hrs; cbn.
  - rewrite app_nil_r. by destruct acc.
  - apply Forall_cons in Hrs as [Hr Hrs]. rewrite Hr, IH by done. cbn. by rewrite app_assoc.
Qed.

Lemma node_data query ns :
  (node_result query <$> ns) ≫= Data = (fun n => "Result from node " +:+ n_ID n) <$> ns.
Proof. induction ns as [|n ns IH]; [done|]. rewrite !fmap_cons, bind_cons, IH. done. Qed.

(** A query over any nodes with ids, whatever order the results arrive in: without nodes it is an
    error; when no node is cancelled it returns the query's id and exactly one text of each node, in
    some order; and as soon as one node is cancelled the call panics. *)
Lemma query_results (query : Query) (cancelled : Node -> bool)
    (order : list (option Result) -> list (option Result)) (ns : list Node) :
  (forall l, order l ≡ₚ l) -> Forall (fun n => n_ID n ≠ EmptyString) ns ->
  match ns with
  | [] => ExecuteQuery cancelled order query ns = Ret (inl "no nodes available for processing")
  | _ =>
      if existsb cancelled ns
      then ExecuteQuery cancelled order query ns = Throw (runtime_error "nil pointer dereference")
      else exists data, ExecuteQuery cancelled order query ns = Ret (inr (MkResult (q_ID query) data None)) /\
             data ≡ₚ (fun n => "Result from node " +:+ n_ID n) <$> ns
  end.
Proof.
  intros Ho Hns. destruct ns as [|n0 ns0]; [done|]. set (ns := n0 :: ns0) in *.
  change (ExecuteQuery cancelled order query ns) with
    (replies ← mapM (fun n => sendQueryToNode query (cancelled n) n) ns;
     r ← aggregate (order replies) (MkResult (q_ID query) [] None); Ret (inr (A:=string) r)).
  rewrite sends_ok by done. cbn [mbind outcome_mbind outcome_bind].
  destruct (existsb cancelled ns) eqn:Hc.
  - apply existsb_exists in Hc as (n & Hn & Hcn). rewrite aggregate_nil; [done|].
    rewrite Ho. apply list_elem_of_fmap. exists n. rewrite Hcn. split; [done|]. by apply list_elem_of_In.
  - assert (Hall : (fun n => if cancelled n then None else Some (node_result query n)) <$> ns =
      Some <$> (node_result query <$> ns)).
    { rewrite <-list_fmap_compose. apply list_fmap_ext. intros i n Hi. cbn.
      destruct (cancelled n) eqn:Hcn; [|done]. apply not_true_iff_false in Hc. destruct Hc.
      apply existsb_exists. exists n. split; [|done]. apply list_elem_of_In. by eapply list_elem_of_lookup_2. }
    rewrite Hall. pose proof (Ho (Some <$> (node_result query <$> ns))) as Hp.
    apply (Permutation_map_inv Some) in Hp as (rs & -> & Hrs).
    change (map Some rs) with (Some <$> rs).
    rewrite aggregate_data; [|rewrite <-Hrs; apply Forall_fmap, Forall_true; done].
    eexists. split; [reflexivity|]. rewrite <-Hrs, node_data. done.
Qed.

Lemma query_results_witness :
  let ns := [node "1"; node "2"; node "3"] in
  let q := MkQuery "q1" "SELECT * FROM users" in
  (exists data, ExecuteQuery (fun _ => false) (fun l => rev l) q ns = Ret (inr (MkResult "q1" data None)) /\
     data ≡ₚ ["Result from node 1"; "Result from node 2"; "Result from node 3"]) /\
  ExecuteQuery (fun n => bool_decide (n_ID n = "2")) (fun l => rev l) q ns =
    Throw (runtime_error "nil pointer dereference").
Proof.
  intros ns q.
  assert (Ho : forall l : list (option Result), rev l ≡ₚ l).
  { intros l. symmetry. apply Permutation_rev. }
  assert (Hn : Forall (fun n => n_ID n ≠ EmptyString) ns) by (repeat constructor; done).
  split.
  - exact (query_results q (fun _ => false) (fun l => rev l) ns Ho Hn).
  - exact (query_results q (fun n => bool_decide (n_ID n = "2")) (fun l => rev l) ns Ho Hn).
Defined.
