(* ===== verification/Url.v ===== *)
(** * Queries of a URL

    What Go's [net/url] makes of the query of a request, as far as the sources use it, and that texts of
    letters and digits go through unchanged. *)

From S2P Require Import Prelude Text.
From Stdlib Require Import Ascii.
Local Open Scope nat_scope.

#[local] Arguments String.append !_ _ / : simpl nomatch.

Definition hex_value (c : ascii) : option nat :=
  let n := nat_of_ascii c in
  if (48 <=? n) && (n <=? 57) then Some (n - 48)
  else if (65 <=? n) && (n <=? 70) then Some (n - 55)
  else if (97 <=? n) && (n <=? 102) then Some (n - 87)
  else None.

(** [url.QueryUnescape]. *)
Fixpoint unescape (s : string) : option string :=
  match s with
  | EmptyString => Some EmptyString
  | String "%" (String a (String b r)) =>
      x ← hex_value a; y ← hex_value b; r' ← unescape r; Some (String (ascii_of_nat (16 * x + y)) r')
  | String "%" _ => None
  | String "+" r => r' ← unescape r; Some (String " " r')
  | String c r => r' ← unescape r; Some (String c r')
  end.

(** One [key=value] of a query; a broken one is left out. *)
Definition parse_pair (s : string) : option (string * string) :=
  if bool_decide (s = EmptyString) || has ";" s then None
  else
    let '(k, v) := default (s, EmptyString) (split_first "=" s) in
    k' ← unescape k; v' ← unescape v; Some (k', v').

Definition parse_query (s : string) : list (string * string) :=
  omap parse_pair (pieces (fun c => bool_decide (c = "&"%char)) s).

(** [r.URL.Query().Get(name)]: the first value, or the empty text. *)
Definition query_get (name q : string) : string :=
  match list_find (fun p => p.1 = name) (parse_query q) with
  | Some (_, p) => p.2
  | None => EmptyString
  end.

(** ** Plain texts *)

Definition plain (s : string) : Prop := all_chars (fun c => is_alpha c || is_digit c) s = true.

Lemma plain_cons c s : plain (String c s) -> is_alpha c || is_digit c = true /\ plain s.
Proof. unfold plain. cbn. intros H. by apply andb_prop in H. Qed.

Lemma unescape_cons c r :
  c ≠ "%"%char -> c ≠ "+"%char -> unescape (String c r) = (r' ← unescape r; Some (String c r')).
Proof. intros H1 H2. destruct c as [[] [] [] [] [] [] [] []]; cbn; done. Qed.

Lemma unescape_plain s : plain s -> unescape s = Some s.
Proof.
  induction s as [|c s IH]; intros Hs; [done|]. apply plain_cons in Hs as [Hc Hs].
  rewrite unescape_cons, IH; [done|done|..]; intros ->; vm_compute in Hc; done.
Qed.

Lemma plain_has c s : plain s -> is_alpha c || is_digit c = false -> has c s = false.
Proof. intros Hs Hc. by eapply has_all_chars. Qed.

Lemma parse_pair_plain k v :
  plain k -> plain v -> parse_pair (k +:+ String "=" v) = Some (k, v).
Proof.
  intros Hk Hv. unfold parse_pair. rewrite bool_decide_eq_false_2 by (by destruct k).
  rewrite has_app, (plain_has ";" k), orb_false_l by done. cbn [has].
  rewrite (plain_has ";" v) by done. cbn -[split_first].
  rewrite split_first_app by (by apply plain_has). cbn. rewrite !unescape_plain by done. done.
Qed.

