(* ===== verification/DistributedCache.v ===== *)
(** * The distributed cache ([caching/distributed_cache.go])

    A cache with its list of nodes and its leader, the requests it sends and the ones it serves, and a
    cluster of such caches that serve each other.  The code does not tell a request of a client from
    one of another cache: what a write and a miss cause in a cluster is shown below. *)

From S2P Require Import Prelude Text Url.
From Stdlib Require Import Ascii.
Local Open Scope nat_scope.

#[local] Arguments String.append !_ _ / : simpl nomatch.

(** ** One cache *)

(** The nodes are their addresses; their clients are never used. *)
Record DistributedCache : Type := MkDC {
  data : gmap string string; nodes : list string; leader : nat
}.

Definition NewDistributedCache (ns : list string) : DistributedCache := MkDC ∅ ns 0.

Section Nodes.
(** Whether a request to the address gets an answer. *)
Context (reachable : string -> bool).

Definition pingNode (node : string) : bool := reachable node.

Definition electNewLeader (c : DistributedCache) : DistributedCache :=
  match list_find (fun n => pingNode n = true) (nodes c) with
  | Some (i, _) => MkDC (data c) (nodes c) i
  | None => c
  end.

(** One round of the loop of [monitorLeader]; without nodes the index is out of range. *)
Definition monitorLeader (c : DistributedCache) : outcome DistributedCache :=
  match nodes c !! leader c with
  | None => Throw (runtime_error "index out of range")
  | Some n => Ret (if pingNode n then c else electNewLeader c)
  end.
End Nodes.

(** A request: the address, and the path with its query. *)
Definition request : Type := string * string.

Definition replicateSet (node key value : string) : request :=
  (node, "/set?key=" +:+ key +:+ "&value=" +:+ value).
Definition replicateDelete (node key : string) : request := (node, "/delete?key=" +:+ key).

(** The nodes other than the one at the index of the leader. *)
Fixpoint others_from (i l : nat) (ns : list string) : list string :=
  match ns with
  | [] => []
  | n :: ns => if decide (i = l) then others_from (S i) l ns else n :: others_from (S i) l ns
  end.
Definition others (c : DistributedCache) : list string := others_from 0 (leader c) (nodes c).

Definition Set_ (key value : string) (c : DistributedCache) : DistributedCache * list request :=
  (MkDC (<[key := value]> (data c)) (nodes c) (leader c),
   (fun n => replicateSet n key value) <$> others c).

Definition Delete (key : string) (c : DistributedCache) : DistributedCache * list request :=
  (MkDC (delete key (data c)) (nodes c) (leader c), (fun n => replicateDelete n key) <$> others c).

(** [fmt.Fscanf] with the verb [%s]: white space before the word is skipped, but a newline there is an
    error, as is the end of the input. *)
Fixpoint Fscanf_word (s : string) : option string :=
  match s with
  | EmptyString => None
  | String a s' =>
      if is_space a then if decide (a = nl) then None else Fscanf_word s'
      else Some (take_word s).1
  end.

(** [fetchFromNode]: the first word of the body of the answer, whatever its status. *)
Definition fetchFromNode (body : option string) : option string := b ← body; Fscanf_word b.

(** [http.Get] of a node's [/get], as far as it answers: [None] while it does not, [Some None] when
    there is no connection. *)
Fixpoint fetch_first (answer : string -> option (option string)) (ns : list string) : option (option string) :=
  match ns with
  | [] => Some None
  | n :: ns =>
      body ← answer n;
      match fetchFromNode body with
      | Some v => Some (Some v)
      | None => fetch_first answer ns
      end
  end.

Definition Get (answer : string -> option (option string)) (key : string) (c : DistributedCache) :
    option (option string) :=
  match data c !! key with
  | Some v => Some (Some v)
  | None => fetch_first answer (nodes c)
  end.

(** The status, the body, and the requests sent on; the answer of [/get] comes from [got]. *)
Record reply : Type := MkReply { status : Z; body : string; sent : list request }.

Definition not_found : string := "Not Found" +:+ String nl EmptyString.

Definition ServeHTTP (got : string -> option string) (target : string) (c : DistributedCache) :
    DistributedCache * reply :=
  let '(path, q) := default (target, EmptyString) (split_first "?" target) in
  if decide (path = "/ping") then (c, MkReply 200 "pong" [])
  else if decide (path = "/set") then
    let '(c', out) := Set_ (query_get "key" q) (query_get "value" q) c in (c', MkReply 200 "OK" out)
  else if decide (path = "/get") then
    (c, match got (query_get "key" q) with
        | Some v => MkReply 200 v []
        | None => MkReply 404 not_found []
        end)
  else if decide (path = "/delete") then
    let '(c', out) := Delete (query_get "key" q) c in (c', MkReply 200 "OK" out)
  else (c, MkReply 404 ("Invalid endpoint" +:+ String nl EmptyString) []).

(** ** A cluster *)

(** Caches by address, and the replication requests that are under way. *)
Record cluster : Type := MkCluster { caches : gmap string DistributedCache; flight : list request }.

(** A cache serves a request; one to an address without a cache fails and is only logged.  Requests to a
    cache that is there are served: other failures of [http.Get] are not steps. *)
Inductive deliver : cluster -> cluster -> Prop :=
| served cs f1 f2 a t c c' r :
    cs !! a = Some c -> ServeHTTP (fun _ => None) t c = (c', r) ->
    deliver (MkCluster cs (f1 ++ (a, t) :: f2)) (MkCluster (<[a := c']> cs) (f1 ++ f2 ++ sent r))
| failed cs f1 f2 a t :
    cs !! a = None -> deliver (MkCluster cs (f1 ++ (a, t) :: f2)) (MkCluster cs (f1 ++ f2)).

(** The body with which the cache at [a] answers [/get], when answering takes at most [fuel] nested
    requests; [None] when it takes more. *)
Fixpoint serve_get (fuel : nat) (cs : gmap string DistributedCache) (key a : string) : option (option string) :=
  match fuel with
  | O => None
  | S fuel =>
      match cs !! a with
      | None => Some None
      | Some c =>
          v ← Get (serve_get fuel cs key) key c;
          Some (Some (match v with Some v => v | None => not_found end))
      end
  end.

(** ** Plain texts arrive as they were sent *)

Lemma set_query k v :
  plain k -> plain v ->
  parse_query ("key=" +:+ k +:+ "&value=" +:+ v) = [("key", k); ("value", v)].
Proof.
  intros Hk Hv. unfold parse_query.
  change ("key=" +:+ k +:+ "&value=" +:+ v)
    with (("key" +:+ String "=" k) +:+ String "&" ("value" +:+ String "=" v)).
  rewrite pieces_app; [|apply no_char_all|done].
  - rewrite pieces_none.
    + cbn [omap list_omap]. by rewrite !parse_pair_plain.
    + apply no_char_all. cbn. by apply plain_has.
  - cbn. by apply plain_has.
Qed.

(** A replicated write of plain texts is served as the same write. *)
Lemma serve_set got n k v c :
  plain k -> plain v ->
  ServeHTTP got (replicateSet n k v).2 c = ((Set_ k v c).1, MkReply 200 "OK" (Set_ k v c).2).
Proof.
  intros Hk Hv. unfold ServeHTTP, replicateSet. cbn [snd].
  change ("/set?key=" +:+ k +:+ "&value=" +:+ v) with ("/set" +:+ String "?" ("key=" +:+ k +:+ "&value=" +:+ v)).
  rewrite split_first_app by done. cbn [default from_option id]. cbv beta iota.
  rewrite decide_False, decide_True by done. unfold query_get. rewrite set_query by done. done.
Qed.

(** ** A write never settles *)

Lemma others_past i l ns : l < i -> others_from i l ns = ns.
Proof.
  revert i. induction ns as [|n ns IH]; intros i Hi; cbn; [done|].
  rewrite decide_False by lia. by rewrite IH by lia.
Qed.

Lemma others_delete ns : forall i l, others_from i (i + l) ns = delete l ns.
Proof.
  induction ns as [|n ns IH]; intros i l; cbn; [done|]. destruct l as [|l].
  - rewrite decide_True by lia. by rewrite others_past by lia.
  - rewrite decide_False by lia. replace (i + S l) with (S i + l) by lia. by rewrite IH.
Qed.

(** Every address has a cache, which lists all of them and has a leader among them. *)
Definition meshed (addrs : list string) (cs : gmap string DistributedCache) : Prop :=
  forall a, a ∈ addrs -> exists c, cs !! a = Some c /\ nodes c = addrs /\ leader c < length addrs.

(** The requests under way are the write of [k] and [v] at addresses of the cluster. *)
Definition all_writes (addrs : list string) (k v : string) (f : list request) : Prop :=
  Forall (fun r => exists a, a ∈ addrs /\ r = replicateSet a k v) f.

Lemma set_sends addrs k v c :
  nodes c = addrs -> leader c < length addrs ->
  all_writes addrs k v (Set_ k v c).2 /\ length (Set_ k v c).2 = length addrs - 1.
Proof.
  intros Hn Hl. cbn [Set_ snd]. unfold others. change (leader c) with (0 + leader c).
  rewrite others_delete, Hn. split.
  - unfold all_writes. apply Forall_fmap, Forall_forall. intros a Ha. exists a. split; [|done].
    by eapply list_elem_of_delete_inv.
  - rewrite length_fmap, length_delete; [lia|]. by apply lookup_lt_is_Some_2.
Qed.

Lemma mesh_step addrs k v w w' :
  plain k -> plain v -> meshed addrs (caches w) -> all_writes addrs k v (flight w) -> deliver w w' ->
  meshed addrs (caches w') /\ all_writes addrs k v (flight w') /\
  (length (flight w') + 1 = length (flight w) + (length addrs - 1)).
Proof.
  intros Hk Hv Hm Hw Hd. destruct Hd as [cs f1 f2 a t c c' r Hc Hs|cs f1 f2 a t Hc]; cbn [caches flight] in *;
    apply Forall_app in Hw as [H1 H2]; apply Forall_cons in H2 as [(b & Hb & Hr) H2];
    pose proof (f_equal fst Hr) as Ha; pose proof (f_equal snd Hr) as Ht; cbn [fst snd replicateSet] in Ha, Ht; subst a.
  - destruct (Hm b Hb) as (c0 & Hc0 & Hn & Hl). simplify_eq.
    pose proof (serve_set (fun _ => None) b k v c Hk Hv) as Hsv. unfold replicateSet in Hsv. cbn [snd] in Hsv.
    rewrite Hsv in Hs. injection Hs as <- <-. cbn [sent].
    destruct (set_sends (nodes c) k v c eq_refl Hl) as [Hall Hlen]. split_and!.
    + intros a Ha. destruct (decide (a = b)) as [->|Hne].
      * eexists. rewrite lookup_insert_eq. done.
      * rewrite lookup_insert_ne by done. by apply Hm.
    + by apply Forall_app_2, Forall_app_2.
    + cbn [Set_ snd] in Hlen. unfold request in *. rewrite !length_app, Hlen. cbn [length]. lia.
  - destruct (Hm b Hb) as (c0 & Hc0 & _). congruence.
Qed.

Lemma mesh_steps addrs k v m : forall w w',
  plain k -> plain v -> meshed addrs (caches w) -> all_writes addrs k v (flight w) ->
  nsteps deliver m w w' ->
  meshed addrs (caches w') /\ all_writes addrs k v (flight w') /\
  (length (flight w') + m = length (flight w) + m * (length addrs - 1)).
Proof.
  induction m as [|m IH]; intros w w' Hk Hv Hm Hw Hn; inversion Hn as [|? ? w1 ? Hd Hr]; subst; [split_and!; [done..|lia]|].
  destruct (mesh_step addrs k v w w1 Hk Hv Hm Hw Hd) as (Hm1 & Hw1 & Hlen).
  destruct (IH w1 w' Hk Hv Hm1 Hw1 Hr) as (Hm2 & Hw2 & Hlen2). split_and!; [done..|lia].
Qed.

(** ** A miss never answers *)

(** Every cache lists a cache first, and none holds the key. *)
Definition key_absent (key : string) (cs : gmap string DistributedCache) : Prop :=
  forall a c, cs !! a = Some c -> data c !! key = None /\
    exists n ns, nodes c = n :: ns /\ is_Some (cs !! n).

Lemma miss_no_answer fuel key cs : forall a,
  key_absent key cs -> is_Some (cs !! a) -> serve_get fuel cs key a = None.
Proof.
  induction fuel as [|fuel IH]; intros a Habs [c Hc]; cbn [serve_get]; [done|]. rewrite Hc.
  destruct (Habs a c Hc) as (Hd & n & ns & Hn & Hs). unfold Get. rewrite Hd, Hn. cbn [fetch_first].
  by rewrite (IH n Habs Hs).
Qed.

(** ** Leaders *)

(** The leader stays an index of the nodes, and after a round it answers when any node does. *)
Lemma leader_elected reachable c :
  leader c < length (nodes c) ->
  exists c', monitorLeader reachable c = Ret c' /\ data c' = data c /\ nodes c' = nodes c /\
    leader c' < length (nodes c) /\
    (Exists (fun n => reachable n = true) (nodes c) ->
     exists n, nodes c' !! leader c' = Some n /\ reachable n = true).
Proof.
  intros Hl. destruct (lookup_lt_is_Some_2 _ _ Hl) as [n Hn]. unfold monitorLeader. rewrite Hn.
  unfold pingNode. destruct (reachable n) eqn:Hr; [exists c; split_and!; eauto|].
  unfold electNewLeader, pingNode. destruct (list_find _ (nodes c)) as [[i x]|] eqn:Hf.
  - apply list_find_Some in Hf as (Hi & Hx & _). eexists. cbn. split_and!; try done; [by eapply lookup_lt_Some|].
    intros _. eauto.
  - exists c. split_and!; try done. intros He. apply list_find_None in Hf.
    apply Exists_exists in He as (y & Hy & Hry). rewrite Forall_forall in Hf. by apply Hf in Hy.
Qed.

(** C24.  In a cluster of caches that list each other, a write never settles and a miss never answers:
    from a write of a plain key and value at any cache, every delivery sends [n - 1] requests more, so
    that after [m] of them [(n - 1) + m (n - 2)] are under way and with two caches or more another can
    always be delivered; and a read of a key that no cache holds needs more nested requests than any
    bound. *)
Theorem cache_never_settles (addrs : list string) (cs : gmap string DistributedCache) (a k v : string)
    (c : DistributedCache) :
  meshed addrs cs -> 2 <= length addrs -> a ∈ addrs -> cs !! a = Some c -> plain k -> plain v ->
  let start := MkCluster (<[a := (Set_ k v c).1]> cs) (Set_ k v c).2 in
  (forall m w, nsteps deliver m start w ->
     length (flight w) = length addrs - 1 + m * (length addrs - 2) /\ exists w', deliver w w') /\
  (forall key fuel, key_absent key cs -> serve_get fuel cs key a = None).
Proof.
  intros Hm Hn Ha Hc Hk Hv start. destruct (Hm a Ha) as (c0 & Hc0 & Hnodes & Hl). simplify_eq.
  destruct (set_sends (nodes c) k v c eq_refl Hl) as [Hall Hlen].
  assert (Hm' : meshed (nodes c) (caches start)).
  { intros b Hb. cbn. destruct (decide (b = a)) as [->|Hne].
    - eexists. rewrite lookup_insert_eq. done.
    - rewrite lookup_insert_ne by done. by apply Hm. }
  split; [|intros key fuel Habs; by apply miss_no_answer].
  intros m w Hs. destruct (mesh_steps (nodes c) k v m start w Hk Hv Hm' Hall Hs) as (Hmw & Hww & Hlw).
  assert (Hfl : length (flight w) = length (nodes c) - 1 + m * (length (nodes c) - 2)).
  { cbn [flight start] in Hlw. rewrite Hlen in Hlw. nia. }
  split; [done|]. destruct w as [cw [|[b t] f]]; cbn [flight caches] in *; [cbn [length] in Hfl; nia|].
  apply Forall_cons in Hww as [(b' & Hb & Hr) _]. rewrite Hr. destruct (Hmw b' Hb) as (cb & Hcb & _).
  destruct (ServeHTTP (fun _ => None) (replicateSet b' k v).2 cb) as [c' r] eqn:Hsv.
  eexists. by eapply (served cw [] f b' _ cb).
Qed.

(** Two caches that list each other. *)
Definition pair_addrs : list string := ["A"; "B"].
Definition pair_cluster : gmap string DistributedCache :=
  {[ "A" := NewDistributedCache pair_addrs; "B" := NewDistributedCache pair_addrs ]}.

Lemma pair_meshed : meshed pair_addrs pair_cluster.
Proof.
  intros a Ha. unfold pair_addrs in Ha.
  apply elem_of_cons in Ha as [->|Ha]; [|apply list_elem_of_singleton in Ha as ->];
    (eexists; split; [vm_compute; reflexivity|]; vm_compute; split; [done|lia]).
Qed.

Lemma cache_never_settles_witness :
  let c := NewDistributedCache pair_addrs in
  let start := MkCluster (<["A" := (Set_ "k" "v" c).1]> pair_cluster) (Set_ "k" "v" c).2 in
  (forall m w, nsteps deliver m start w -> length (flight w) = 1 /\ exists w', deliver w w') /\
  forall fuel, serve_get fuel pair_cluster "x" "A" = None.
Proof.
  intros c start.
  destruct (cache_never_settles pair_addrs pair_cluster "A" "k" "v" c pair_meshed) as [Hs Hg];
    [cbn; lia|left|reflexivity|reflexivity|reflexivity|].
  split.
  - intros m w Hw. destruct (Hs m w Hw) as [Hl Hn]. split; [|exact Hn]. rewrite Hl. cbn. lia.
  - intros fuel. apply Hg. intros a c' Hc. unfold pair_cluster in Hc.
    apply lookup_insert_Some in Hc as [[_ <-]|[_ Hc]]; [|apply lookup_singleton_Some in Hc as [_ <-]];
      (split; [reflexivity|]; exists "A", ["B"]; split; [reflexivity|vm_compute; eauto]).
Defined.

(** A node that does not hold the key answers with the text of the error, of which the first word is
    taken for the value. *)
Example missing_key_is_Not :
  serve_get 5 {[ "A" := NewDistributedCache ["B"]; "B" := NewDistributedCache [] ]} "x" "A" = Some (Some "Not").
Proof. vm_compute. reflexivity. Qed.

(** A key that holds an ampersand is cut on its way to the other nodes, and the rest taken for the
    value. *)
Example ampersand_splits :
  let '(c, _) := ServeHTTP (fun _ => None) (replicateSet "B" "a&value=x" "v").2 (NewDistributedCache []) in
  data c = {[ "a" := "x" ]}.
Proof. vm_compute. reflexivity. Qed.

(** The cache [main] serves. *)
Definition main_cache : DistributedCache :=
  NewDistributedCache ["http://localhost:8001"; "http://localhost:8002"; "http://localhost:8003"].
