(* ===== verification/Firewall.v ===== *)
(** * The firewall ([security/firewall.go])

    The white lists, the blocked addresses, the decision on a connection and the log of the refused
    ones. *)

From S2P Require Import Prelude Text.
Local Open Scope Z_scope.

(** The maps to [bool] hold [true] only, so they are sets; the log is the text of its file. *)
Record Firewall : Type := MkFirewall {
  whitelistedIPs : gset string;
  whitelistedPorts : gset Z;
  blockedIPs : gset string;
  logFile : string
}.

(** [None] for a file that cannot be opened, and then for the firewall. *)
Definition NewFirewall (ips : list string) (ports : list Z) (file : option string) : option Firewall :=
  text ← file; Some (MkFirewall (list_to_set ips) (list_to_set ports) ∅ text).

(** The three refusals. *)
Inductive reason : Set := BlockedIP | IPNotWhitelisted | PortNotWhitelisted.
Definition reason_text (r : reason) : string :=
  match r with
  | BlockedIP => "Blocked IP"
  | IPNotWhitelisted => "IP not whitelisted"
  | PortNotWhitelisted => "Port not whitelisted"
  end.

(** One line of the log; [timestamp] is the text of the time. *)
Definition log_entry (timestamp ip : string) (port : Z) (r : reason) : string :=
  timestamp +:+ " - Unauthorized access from " +:+ ip +:+ " on port " +:+ to_string port +:+ ": " +:+
  reason_text r.

Definition logUnauthorizedAccess (timestamp ip : string) (port : Z) (r : reason) (fw : Firewall) : Firewall :=
  MkFirewall (whitelistedIPs fw) (whitelistedPorts fw) (blockedIPs fw)
    (logFile fw +:+ log_entry timestamp ip port r +:+ String nl EmptyString).

Definition isIPWhitelisted (ip : string) (fw : Firewall) : bool := bool_decide (ip ∈ whitelistedIPs fw).
Definition isPortWhitelisted (port : Z) (fw : Firewall) : bool := bool_decide (port ∈ whitelistedPorts fw).
Definition isIPBlocked (ip : string) (fw : Firewall) : bool := bool_decide (ip ∈ blockedIPs fw).

Definition BlockIP (ip : string) (fw : Firewall) : Firewall :=
  MkFirewall (whitelistedIPs fw) (whitelistedPorts fw) ({[ ip ]} ∪ blockedIPs fw) (logFile fw).
Definition UnblockIP (ip : string) (fw : Firewall) : Firewall :=
  MkFirewall (whitelistedIPs fw) (whitelistedPorts fw) (blockedIPs fw ∖ {[ ip ]}) (logFile fw).

(** The new firewall and the line on the terminal; [None] as the reason is a connection allowed. *)
Definition decision (ip : string) (port : Z) (fw : Firewall) : option reason :=
  if isIPBlocked ip fw then Some BlockedIP
  else if negb (isIPWhitelisted ip fw) then Some IPNotWhitelisted
  else if negb (isPortWhitelisted port fw) then Some PortNotWhitelisted
  else None.

Definition terminal_line (ip : string) (port : Z) (d : option reason) : string :=
  match d with
  | Some BlockedIP => "Connection from " +:+ ip +:+ " blocked."
  | Some IPNotWhitelisted => "Connection from " +:+ ip +:+ " not whitelisted."
  | Some PortNotWhitelisted =>
      "Connection on port " +:+ to_string port +:+ " from " +:+ ip +:+ " is not whitelisted."
  | None => "Connection from " +:+ ip +:+ " on port " +:+ to_string port +:+ " is allowed."
  end.

Definition SimulateConnection (timestamp ip : string) (port : Z) (fw : Firewall) : Firewall * string :=
  (match decision ip port fw with
   | Some r => logUnauthorizedAccess timestamp ip port r fw
   | None => fw
   end, terminal_line ip port (decision ip port fw)).

(** ** Runs *)

Inductive fw_op : Type :=
| OBlock (ip : string)
| OUnblock (ip : string)
| OConnect (timestamp ip : string) (port : Z).

Definition fw_step (o : fw_op) (fw : Firewall) : Firewall * list string :=
  match o with
  | OBlock ip => (BlockIP ip fw, [])
  | OUnblock ip => (UnblockIP ip fw, [])
  | OConnect t ip port => let '(fw', l) := SimulateConnection t ip port fw in (fw', [l])
  end.

Fixpoint fw_run (os : list fw_op) (fw : Firewall) : Firewall * list string :=
  match os with
  | [] => (fw, [])
  | o :: os => let '(fw1, l) := fw_step o fw in let '(fw2, ls) := fw_run os fw1 in (fw2, l ++ ls)
  end.

(** The program of [main]. *)
Definition main_firewall (file : option string) : option Firewall :=
  NewFirewall ["192.168.1.100"; "10.0.0.5"; "172.16.0.1"] [80; 443; 22] file.
Definition main_ops (t : nat -> string) : list fw_op :=
  [OConnect (t 0%nat) "192.168.1.100" 80; OConnect (t 1%nat) "192.168.1.101" 80;
   OConnect (t 2%nat) "192.168.1.100" 8080; OConnect (t 3%nat) "10.0.0.5" 443;
   OBlock "192.168.1.101"; OConnect (t 4%nat) "192.168.1.101" 80; OConnect (t 5%nat) "192.168.1.100" 443;
   OUnblock "192.168.1.101"; OConnect (t 6%nat) "192.168.1.101" 80].

(** ** What the history says *)

(** Whether the last call about the address blocked it; the newest call comes first. *)
Fixpoint blocked_by (ip : string) (past : list fw_op) : bool :=
  match past with
  | [] => false
  | OBlock a :: past => if decide (a = ip) then true else blocked_by ip past
  | OUnblock a :: past => if decide (a = ip) then false else blocked_by ip past
  | OConnect _ _ _ :: past => blocked_by ip past
  end.

(** The refusal of a connection after the calls [past]. *)
Definition verdict (ips : gset string) (ports : gset Z) (past : list fw_op) (ip : string) (port : Z) :
    option reason :=
  if blocked_by ip past then Some BlockedIP
  else if decide (ip ∈ ips) then if decide (port ∈ ports) then None else Some PortNotWhitelisted
  else Some IPNotWhitelisted.

(** The lines of the terminal and of the log for the calls [os] after [past]. *)
Fixpoint expected (ips : gset string) (ports : gset Z) (past os : list fw_op) : list string * list string :=
  match os with
  | [] => ([], [])
  | o :: os =>
      let '(ts, ls) := expected ips ports (o :: past) os in
      match o with
      | OConnect t ip port =>
          let v := verdict ips ports past ip port in
          (terminal_line ip port v :: ts,
           match v with Some r => log_entry t ip port r :: ls | None => ls end)
      | _ => (ts, ls)
      end
  end.

Definition fw_inv (ips : gset string) (ports : gset Z) (past : list fw_op) (fw : Firewall) : Prop :=
  whitelistedIPs fw = ips /\ whitelistedPorts fw = ports /\
  forall ip, ip ∈ blockedIPs fw <-> blocked_by ip past = true.

Lemma decision_verdict ips ports past fw ip port :
  fw_inv ips ports past fw -> decision ip port fw = verdict ips ports past ip port.
Proof.
  intros (Hi & Hp & Hb). unfold decision, verdict, isIPBlocked, isIPWhitelisted, isPortWhitelisted.
  rewrite Hi, Hp. specialize (Hb ip). destruct (blocked_by ip past).
  - by rewrite bool_decide_eq_true_2 by (by apply Hb).
  - rewrite bool_decide_eq_false_2 by (intros H; by apply Hb in H).
    repeat case_bool_decide; repeat case_decide; done.
Qed.

Lemma fw_step_inv ips ports past o fw :
  fw_inv ips ports past fw -> fw_inv ips ports (o :: past) (fw_step o fw).1.
Proof.
  intros (Hi & Hp & Hb). destruct o as [ip|ip|t ip port]; cbn [fw_step fst].
  - split_and!; [done..|]. intros a. cbn. rewrite elem_of_union, elem_of_singleton, Hb. case_decide; naive_solver.
  - split_and!; [done..|]. intros a. cbn. rewrite elem_of_difference, elem_of_singleton, Hb. case_decide; naive_solver.
  - unfold SimulateConnection. cbn [fst]. destruct (decision ip port fw); split_and!; done.
Qed.

(** The firewall follows its history: a connection is allowed exactly when the last call about its
    address did not block it and the address and the port are listed, and each refusal, and nothing
    else, adds one line to the log, with the first reason that applies. *)
Lemma firewall_history ips ports os : forall past fw,
  fw_inv ips ports past fw ->
  (fw_run os fw).2 = (expected ips ports past os).1 /\
  logFile (fw_run os fw).1 = logFile fw +:+ unlines nl (expected ips ports past os).2.
Proof.
  induction os as [|o os IH]; intros past fw Hi; cbn [fw_run expected].
  - cbn. by rewrite append_nil_r.
  - destruct (fw_step o fw) as [fw1 l] eqn:Ho. pose proof (fw_step_inv _ _ _ o _ Hi) as Hi1.
    rewrite Ho in Hi1. cbn in Hi1. destruct (IH _ _ Hi1) as [Ht Hl].
    destruct (fw_run os fw1) as [fw2 ls]. destruct (expected ips ports (o :: past) os) as [ts es].
    cbn [fst snd] in *. subst ls. destruct o as [ip|ip|t ip port]; cbn [fw_step] in Ho; simplify_eq; [done..|].
    unfold SimulateConnection in Ho. rewrite (decision_verdict _ _ _ _ ip port Hi) in Ho. injection Ho as <- <-.
    split; [done|]. rewrite Hl. destruct (verdict ips ports past ip port) as [r|]; [|done]. cbn [logFile logUnauthorizedAccess].
    change (unlines nl (?x :: ?y)) with (x +:+ String nl (unlines nl y)).
    by rewrite !app_string_assoc.
Qed.

Lemma new_firewall_inv ips ports file fw :
  NewFirewall ips ports file = Some fw ->
  fw_inv (list_to_set ips) (list_to_set ports) [] fw /\ Some (logFile fw) = file.
Proof.
  destruct file as [t|]; [|done]. cbn. intros [= <-]. split; [|done]. split_and!; [done..|].
  intros ip. cbn. split; [by intros H%elem_of_empty|done].
Qed.

Example main_terminal :
  match main_firewall (Some EmptyString) with
  | Some fw =>
      let '(fw', out) := fw_run (main_ops (fun _ => "now")) fw in
      out = ["Connection from 192.168.1.100 on port 80 is allowed.";
             "Connection from 192.168.1.101 not whitelisted.";
             "Connection on port 8080 from 192.168.1.100 is not whitelisted.";
             "Connection from 10.0.0.5 on port 443 is allowed.";
             "Connection from 192.168.1.101 blocked.";
             "Connection from 192.168.1.100 on port 443 is allowed.";
             "Connection from 192.168.1.101 not whitelisted."] /\
      length (getlines nl (logFile fw')) = 4%nat
  | None => False
  end.
Proof. vm_compute. done. Qed.
