(* ===== verification/AuthServer.v ===== *)
(** * The authentication server ([security/authentication/auth_server.go])

    Registration, login, the middleware that checks tokens, refresh and logout, as handlers over the
    table of users.  The hash of bcrypt and the tokens of the JWT library are a class of functions with
    a class of laws; the server is shown to be one that keeps a table of passwords and of sessions. *)

From S2P Require Import Prelude Text.
From Stdlib Require Import Ascii.
Local Open Scope Z_scope.

Record User : Type := MkUser { u_Username : string; u_Password : string }.
Record Claims : Type := MkClaims { Username : string; ExpiresAt : Z }.

(** ** Libraries *)

(** bcrypt draws a salt, which is an argument here; [token_claims] decodes a token whose signature is
    one of [jwtKey]. *)
Class AuthLib : Type := {
  GenerateFromPassword : string -> nat -> option string;
  CompareHashAndPassword : string -> string -> bool;
  SignedString : Claims -> option string;
  token_claims : string -> option Claims
}.

Class AuthLaws `{AuthLib} : Prop := {
  compare_generated : forall p salt h q,
    GenerateFromPassword p salt = Some h -> CompareHashAndPassword h q = bool_decide (q = p);
  signed_claims : forall c t, SignedString c = Some t -> token_claims t = Some c
}.

Section Server.
Context `{AuthLib}.

(** Times are in nanoseconds; [Unix] counts seconds. *)
Definition second : Z := 10 ^ 9.
Definition Unix (t : Z) : Z := t / second.

(** [jwt.ParseWithClaims] fails on a token that has expired; an [ExpiresAt] of 0 never does. *)
Definition ParseWithClaims (now : Z) (token : string) : option Claims :=
  c ← token_claims token;
  if (ExpiresAt c =? 0) || (Unix now <=? ExpiresAt c) then Some c else None.

(** ** Handlers *)

Record Response : Type := MkResponse { status : Z; body : string; cookie : option (string * Z) }.

Definition http_error (code : Z) (message : string) : Response :=
  MkResponse code (message +:+ String nl EmptyString) None.

Abbreviation userDB := (gmap string string) (only parsing).

(** [user] is the decoded body, [None] when it does not decode. *)
Definition registerHandler (user : option User) (salt : nat) (db : userDB) : userDB * Response :=
  match user with
  | None => (db, http_error 400 "Invalid request payload")
  | Some u =>
      match db !! u_Username u with
      | Some _ => (db, http_error 409 "User already exists")
      | None =>
          match GenerateFromPassword (u_Password u) salt with
          | None => (db, http_error 500 "Error hashing password")
          | Some hashed => (<[u_Username u := hashed]> db, MkResponse 201 EmptyString None)
          end
      end
  end.

(** A new token for five minutes. *)
Definition issue (now : Z) (name : string) : Response :=
  let expirationTime := now + 5 * 60 * second in
  match SignedString (MkClaims name (Unix expirationTime)) with
  | None => http_error 500 "Error generating token"
  | Some t => MkResponse 200 EmptyString (Some (t, expirationTime))
  end.

Definition loginHandler (now : Z) (user : option User) (db : userDB) : Response :=
  match user with
  | None => http_error 400 "Invalid request payload"
  | Some u =>
      match db !! u_Username u with
      | Some stored =>
          if CompareHashAndPassword stored (u_Password u) then issue now (u_Username u)
          else http_error 401 "Invalid credentials"
      | None => http_error 401 "Invalid credentials"
      end
  end.

Definition authMiddleware (next : Response) (now : Z) (token : option string) : Response :=
  match token with
  | None => http_error 401 "Not authenticated"
  | Some t => match ParseWithClaims now t with Some _ => next | None => http_error 401 "Unauthorized" end
  end.

Definition protectedHandler : Response := MkResponse 200 "Protected content" None.

Definition refreshHandler (now : Z) (token : option string) : Response :=
  match token with
  | None => http_error 401 "Not authenticated"
  | Some t =>
      match ParseWithClaims now t with
      | None => http_error 401 "Unauthorized"
      | Some c =>
          if ExpiresAt c * second - now >? 30 * second then http_error 400 "Token not expired yet"
          else issue now (Username c)
      end
  end.

Definition logoutHandler (now : Z) : Response := MkResponse 200 "Logged out" (Some (EmptyString, now)).
Definition homeHandler : Response := MkResponse 200 "Welcome to the Authentication Server" None.

(** ** Requests *)

(** The routes of [main]; a request comes with the value of its cookie and is served at one time. *)
Inductive route : Type :=
| Register (user : option User) (salt : nat)
| Login (user : option User)
| Logout
| Refresh
| Protected
| Home.

Record request : Type := MkRequest { at_ : Z; token : option string; to : route }.

Definition serve (r : request) (db : userDB) : userDB * Response :=
  match to r with
  | Register u salt => registerHandler u salt db
  | Login u => (db, loginHandler (at_ r) u db)
  | Logout => (db, authMiddleware (logoutHandler (at_ r)) (at_ r) (token r))
  | Refresh => (db, authMiddleware (refreshHandler (at_ r) (token r)) (at_ r) (token r))
  | Protected => (db, authMiddleware protectedHandler (at_ r) (token r))
  | Home => (db, homeHandler)
  end.

Fixpoint serve_all (rs : list request) (db : userDB) : list Response :=
  match rs with
  | [] => []
  | r :: rs => let '(db', resp) := serve r db in resp :: serve_all rs db'
  end.

(** ** The server it stands for *)

(** Passwords as they were registered, and the sessions that were opened, with their tokens. *)
Record spec : Type := MkSpec { passwords : gmap string string; sessions : list (string * Claims) }.

Definition open_session (now : Z) (name : string) (sp : spec) : spec * Z :=
  let c := MkClaims name (Unix now + 300) in
  match SignedString c with
  | None => (sp, 500)
  | Some t => (MkSpec (passwords sp) ((t, c) :: sessions sp), 200)
  end.

(** The live session of a token. *)
Definition session_of (now : Z) (t : option string) (sp : spec) : option Claims :=
  t ← t;
  '(_, p) ← list_find (fun p : string * Claims => p.1 = t) (sessions sp);
  if (ExpiresAt p.2 =? 0) || (Unix now <=? ExpiresAt p.2) then Some p.2 else None.

Definition spec_serve (r : request) (sp : spec) : spec * Z :=
  match to r with
  | Register None _ | Login None => (sp, 400)
  | Register (Some u) salt =>
      match passwords sp !! u_Username u with
      | Some _ => (sp, 409)
      | None =>
          match GenerateFromPassword (u_Password u) salt with
          | None => (sp, 500)
          | Some _ => (MkSpec (<[u_Username u := u_Password u]> (passwords sp)) (sessions sp), 201)
          end
      end
  | Login (Some u) =>
      if decide (passwords sp !! u_Username u = Some (u_Password u))
      then open_session (at_ r) (u_Username u) sp else (sp, 401)
  | Home => (sp, 200)
  | Logout | Protected =>
      (sp, match session_of (at_ r) (token r) sp with Some _ => 200 | None => 401 end)
  | Refresh =>
      match session_of (at_ r) (token r) sp with
      | None => (sp, 401)
      | Some c =>
          if ExpiresAt c * second - at_ r >? 30 * second then (sp, 400)
          else open_session (at_ r) (Username c) sp
      end
  end.

Fixpoint spec_serve_all (rs : list request) (sp : spec) : list Z :=
  match rs with
  | [] => []
  | r :: rs => let '(sp', code) := spec_serve r sp in code :: spec_serve_all rs sp'
  end.

(** A client sends tokens it was given, or texts that are no tokens of this server. *)
Fixpoint honest (rs : list request) (sp : spec) : Prop :=
  match rs with
  | [] => True
  | r :: rs =>
      (forall t c, token r = Some t -> token_claims t = Some c -> t ∈ (sessions sp).*1) /\
      honest rs (spec_serve r sp).1
  end.

(** ** Refinement *)

Context `{!AuthLaws}.

Record server_rel (db : userDB) (sp : spec) : Prop := {
  rel_users : forall u, match db !! u, passwords sp !! u with
    | Some h, Some p => exists salt, GenerateFromPassword p salt = Some h
    | None, None => True
    | _, _ => False
    end;
  rel_sessions : Forall (fun p => token_claims p.1 = Some p.2) (sessions sp)
}.

Lemma Unix_issue now : Unix (now + 5 * 60 * second) = Unix now + 300.
Proof. unfold Unix, second. replace (5 * 60 * 10 ^ 9) with (300 * 10 ^ 9) by lia. by rewrite Z.div_add by lia. Qed.

Lemma issue_opens db now name sp :
  server_rel db sp ->
  status (issue now name) = (open_session now name sp).2 /\ server_rel db (open_session now name sp).1.
Proof.
  intros [Hu Hs]. unfold issue, open_session. rewrite Unix_issue.
  destruct (SignedString (MkClaims name (Unix now + 300))) as [t|] eqn:Ht; [|done].
  split; [done|]. constructor; [done|]. cbn. constructor; [|done]. by apply signed_claims.
Qed.

(** A token parses exactly when it has a live session. *)
Lemma parse_session db now t sp :
  server_rel db sp -> (forall c, token_claims t = Some c -> t ∈ (sessions sp).*1) ->
  ParseWithClaims now t = session_of now (Some t) sp.
Proof.
  intros [_ Hs] Hh. unfold ParseWithClaims, session_of. cbn [mbind option_bind].
  destruct (list_find (fun p : string * Claims => p.1 = t) (sessions sp)) as [[i [t' c]]|] eqn:Hf.
  - apply list_find_Some in Hf as (Hi & Ht & _). cbn in Ht. subst t'.
    pose proof (Forall_lookup_1 _ _ _ _ Hs Hi) as Hc. cbn in Hc. by rewrite Hc.
  - destruct (token_claims t) as [c|] eqn:Hc; [|done]. exfalso.
    apply list_find_None in Hf. specialize (Hh c eq_refl). apply elem_of_fst_inv in Hh as (c' & Hin).
    rewrite Forall_forall in Hf. by apply (Hf _ Hin).
Qed.

Lemma serve_refines r db sp :
  server_rel db sp ->
  (forall t c, token r = Some t -> token_claims t = Some c -> t ∈ (sessions sp).*1) ->
  status (serve r db).2 = (spec_serve r sp).2 /\ server_rel (serve r db).1 (spec_serve r sp).1.
Proof.
  intros Hrel Hh. destruct r as [now tok ro]. unfold serve, spec_serve. cbn [to at_ token] in *.
  assert (Hmid : forall next, status (authMiddleware next now tok) =
    match session_of now tok sp with Some _ => status next | None => 401 end).
  { intros next. unfold authMiddleware. destruct tok as [t|]; [|done].
    rewrite (parse_session db now t sp Hrel) by eauto. by destruct (session_of now (Some t) sp). }
  destruct ro as [[u|] salt|[u|]| | | |]; cbn [fst snd]; try done.
  - pose proof (rel_users _ _ Hrel (u_Username u)) as Hu. unfold registerHandler.
    destruct (db !! u_Username u) as [h|], (passwords sp !! u_Username u) as [p|]; try done.
    destruct (GenerateFromPassword (u_Password u) salt) as [h|] eqn:Hg; [|done]. split; [done|].
    constructor; [|by apply (rel_sessions _ _ Hrel)]. intros v. cbn.
    destruct (decide (v = u_Username u)) as [->|Hne]; [rewrite !lookup_insert_eq; eauto|].
    rewrite !lookup_insert_ne by done. apply (rel_users _ _ Hrel).
  - pose proof (rel_users _ _ Hrel (u_Username u)) as Hu. unfold loginHandler.
    destruct (db !! u_Username u) as [h|], (passwords sp !! u_Username u) as [p|] eqn:Hp; try done.
    destruct Hu as [salt Hg]. rewrite (compare_generated _ _ _ (u_Password u) Hg).
    case_bool_decide as Hq; [rewrite decide_True by congruence; by apply issue_opens|].
    by rewrite decide_False by congruence.
  - rewrite Hmid. destruct tok as [t|]; [|done]. cbn [refreshHandler].
    rewrite (parse_session db now t sp Hrel) by eauto.
    destruct (session_of now (Some t) sp) as [c|]; [|done].
    destruct (_ >? _); [done|]. by apply issue_opens.
Qed.

(** The server keeps its promise: with clients that cannot forge tokens, any requests get the status
    that a server with a table of passwords and a table of sessions gives them.  A login succeeds
    exactly with the registered password, and a protected page needs a session that was opened and has
    not expired. *)
Lemma auth_server_refines rs : forall db sp,
  server_rel db sp -> honest rs sp -> status <$> serve_all rs db = spec_serve_all rs sp.
Proof.
  induction rs as [|r rs IH]; intros db sp Hrel Hh; [done|]. destruct Hh as [Hr Hh].
  destruct (serve_refines r db sp Hrel Hr) as [Hst Hrel']. cbn [serve_all spec_serve_all].
  destruct (serve r db) as [db' resp], (spec_serve r sp) as [sp' code]. cbn [fst snd] in *.
  rewrite fmap_cons, Hst. f_equal. by apply IH.
Qed.

Lemma empty_rel : server_rel ∅ (MkSpec ∅ []).
Proof. constructor; [|constructor]. intros u. by rewrite !lookup_empty. Qed.
End Server.

(** ** A library *)

(** Hashes and tokens in clear, which meet the laws. *)
Definition clear_token (c : Claims) : string := to_string (ExpiresAt c) +:+ String " "%char (Username c).
Definition clear_claims (t : string) : option Claims :=
  '(e, n) ← split_first " "%char t;
  match stoll e with Ret z => Some (MkClaims n z) | _ => None end.

#[export] Instance clear_lib : AuthLib := {|
  GenerateFromPassword p _ := Some ("h" +:+ p);
  CompareHashAndPassword h q := bool_decide (h = "h" +:+ q);
  SignedString c :=
    if bool_decide (- 2 ^ 63 <= ExpiresAt c <= 2 ^ 63 - 1) then Some (clear_token c) else None;
  token_claims := clear_claims
|}.

#[export] Instance clear_laws : AuthLaws.
Proof.
  constructor.
  - intros p salt h q Hg. injection Hg as <-. apply bool_decide_ext.
    split; [intros Hx; by injection Hx|by intros ->].
  - intros [n e] t. cbn. case_bool_decide as He; [|done]. intros [= <-].
    unfold clear_claims, clear_token. cbn [ExpiresAt Username] in *.
    rewrite split_first_app by (by apply to_string_has). cbn [mbind option_bind].
    by rewrite stoll_to_string.
Qed.

Definition alice : User := MkUser "alice" "secret".

Lemma auth_server_refines_witness :
  let rs := [MkRequest 0 None (Register (Some alice) 0);
             MkRequest second None (Login (Some (MkUser "alice" "guess")));
             MkRequest second None (Login (Some alice));
             MkRequest (2 * second) (Some "301 alice") Protected;
             MkRequest (400 * second) (Some "301 alice") Protected] in
  status <$> serve_all rs ∅ = [201; 401; 200; 200; 401].
Proof.
  intros rs.
  rewrite (auth_server_refines rs ∅ (MkSpec ∅ []) empty_rel); [vm_compute; reflexivity|].
  repeat (split; [intros t c Ht _; first [discriminate Ht|injection Ht as <-; vm_compute; left]|]).
  exact I.
Defined.

(** Logging out clears the cookie and leaves the token valid. *)
Example token_survives_logout :
  status <$> serve_all [MkRequest 0 None (Register (Some alice) 0); MkRequest 0 None (Login (Some alice));
                        MkRequest second (Some "300 alice") Logout;
                        MkRequest (2 * second) (Some "300 alice") Protected] ∅ = [201; 200; 200; 200].
Proof. vm_compute. reflexivity. Qed.
