(* ===== verification/OAuth2.v ===== *)
(** * OAuth 2.0 ([security/authentication/oauth2.go])

    The states that guard the flow against forged requests, the handlers for authorisation, tokens,
    validation, revocation and refresh, and that a state is good for one exchange. *)

From S2P Require Import Prelude Text Url.
From Stdlib Require Import Ascii.
Local Open Scope nat_scope.

Record OAuth2Config : Type := MkConfig {
  ClientID : string; ClientSecret : string; RedirectURI : string; AuthURL : string; TokenURL : string;
  Scope_ : string
}.

(** The states that were handed out; the map to [bool] holds [true] only. *)
Abbreviation sessionStore := (gset string) (only parsing).

Record Response : Type := MkResponse { status : Z; body : string }.
Definition http_error (code : Z) (message : string) : Response :=
  MkResponse code (message +:+ String nl EmptyString).

(** ** States *)

Definition letters : string := "abcdefghijklmnopqrstuvwxyzABCDEFGHIJKLMNOPQRSTUVWXYZ0123456789".

(** Sixteen letters; [rand i] is the [i]-th number drawn, below the number of letters. *)
Definition letter (n : nat) : ascii := default "a"%char (String.get (n mod String.length letters) letters).
Definition random_state (rand : nat -> nat) : string :=
  foldr (fun i s => String (letter (rand i)) s) EmptyString (seq 0 16).

Definition GenerateState (rand : nat -> nat) (store : sessionStore) : sessionStore * string :=
  let state := random_state rand in ({[ state ]} ∪ store, state).

(** ** Handlers *)

Definition OAuth2AuthorizeHandler (config : OAuth2Config) (rand : nat -> nat) (store : sessionStore) :
    sessionStore * Response :=
  let '(store', state) := GenerateState rand store in
  (store', MkResponse 302
    (AuthURL config +:+ "?response_type=code&client_id=" +:+ ClientID config +:+ "&redirect_uri=" +:+
     RedirectURI config +:+ "&scope=" +:+ Scope_ config +:+ "&state=" +:+ state)).

(** The form sent to the token server. *)
Definition exchange_form (config : OAuth2Config) (code : string) : string :=
  "grant_type=authorization_code&code=" +:+ code +:+ "&redirect_uri=" +:+ RedirectURI config +:+
  "&client_id=" +:+ ClientID config +:+ "&client_secret=" +:+ ClientSecret config.
Definition refresh_form (config : OAuth2Config) (refreshToken : string) : string :=
  "grant_type=refresh_token&refresh_token=" +:+ refreshToken +:+ "&client_id=" +:+ ClientID config +:+
  "&client_secret=" +:+ ClientSecret config.

Section Handlers.
(** The text of the token that the token server returns for a form, [None] on any failure. *)
Context (post : string -> option string).

Definition OAuth2TokenHandler (config : OAuth2Config) (query : string) (store : sessionStore) :
    sessionStore * Response :=
  let code := query_get "code" query in
  let state := query_get "state" query in
  if bool_decide (state ∈ store)
  then (store ∖ {[ state ]},
        match post (exchange_form config code) with
        | Some token => MkResponse 200 token
        | None => http_error 500 "Failed to exchange token"
        end)
  else (store, http_error 400 "Invalid state").

(** [refreshToken] is the value of the form. *)
Definition OAuth2RefreshTokenHandler (config : OAuth2Config) (refreshToken : string) : Response :=
  if bool_decide (refreshToken = EmptyString) then http_error 400 "Missing refresh token"
  else match post (refresh_form config refreshToken) with
       | Some token => MkResponse 200 token
       | None => http_error 500 "Failed to refresh token"
       end.
End Handlers.

(** [strings.HasPrefix] and [strings.TrimPrefix] with ["Bearer "]. *)
Definition bearer (header : string) : option string :=
  if String.prefix "Bearer " header
  then Some (String.substring 7 (String.length header - 7) header) else None.

Definition validateToken (token : string) : bool := negb (bool_decide (token = EmptyString)).

Definition OAuth2TokenValidationHandler (header : string) : Response :=
  match bearer header with
  | Some token => if validateToken token then MkResponse 200 "Token is valid" else http_error 401 "Invalid token"
  | None => http_error 401 "Invalid token"
  end.

(** [revokeToken] only logs. *)
Definition OAuth2TokenRevocationHandler (header : string) : Response :=
  match bearer header with
  | Some _ => MkResponse 200 "Token revoked"
  | None => http_error 401 "Invalid token"
  end.

(** ** One exchange for each state *)

Inductive oauth_op : Type :=
| Authorize (rand : nat -> nat)
| Exchange (query : string).

Definition oauth_step (post : string -> option string) (config : OAuth2Config) (o : oauth_op)
    (store : sessionStore) : sessionStore * Response :=
  match o with
  | Authorize rand => OAuth2AuthorizeHandler config rand store
  | Exchange q => OAuth2TokenHandler post config q store
  end.

Fixpoint oauth_run (post : string -> option string) (config : OAuth2Config) (os : list oauth_op)
    (store : sessionStore) : sessionStore * list Response :=
  match os with
  | [] => (store, [])
  | o :: os =>
      let '(store1, r) := oauth_step post config o store in
      let '(store2, rs) := oauth_run post config os store1 in (store2, r :: rs)
  end.

(** How often a state was handed out, and whether an exchange with it was let through. *)
Definition hands_out (state : string) (o : oauth_op) : Prop :=
  match o with Authorize rand => random_state rand = state | Exchange _ => False end.
#[export] Instance hands_out_dec state o : Decision (hands_out state o).
Proof. destruct o; unfold hands_out; apply _. Defined.

Definition handed_out (state : string) (os : list oauth_op) : nat := length (filter (hands_out state) os).

Definition let_through (state : string) (p : oauth_op * Response) : Prop :=
  match p.1 with Exchange q => query_get "state" q = state /\ status p.2 ≠ 400%Z | Authorize _ => False end.
#[export] Instance let_through_dec state p : Decision (let_through state p).
Proof. destruct p as [[] ?]; unfold let_through; apply _. Defined.

(** Exchanges with a state are never let through more often than the state was handed out; one that is
    let through uses the state up, and a state that was never handed out never gets through. *)
Lemma state_used_once post config state os : forall store,
  length (filter (let_through state) (zip os (oauth_run post config os store).2)) <=
  handed_out state os + (if decide (state ∈ store) then 1 else 0).
Proof.
  induction os as [|o os IH]; intros store; [cbn; lia|]. cbn [oauth_run].
  destruct (oauth_step post config o store) as [store1 r] eqn:Ho. specialize (IH store1).
  destruct (oauth_run post config os store1) as [store2 rs]. cbn [snd zip zip_with] in *.
  unfold handed_out in *. rewrite !filter_cons.
  destruct o as [rand|q]; cbn [oauth_step] in Ho.
  - unfold OAuth2AuthorizeHandler, GenerateState in Ho. injection Ho as <- <-.
    rewrite (decide_False (P := let_through state _)) by (by intros []).
    etrans; [exact IH|]. clear. repeat case_decide; cbn [length]; try lia. exfalso.
    unfold hands_out in *. set_solver.
  - unfold OAuth2TokenHandler in Ho. rewrite (decide_False (P := hands_out state (Exchange q))) by (by intros []).
    case_bool_decide as Hin; injection Ho as <- <-.
    + destruct (decide (let_through state _)) as [Hl|Hl]; cbn [length].
      * destruct Hl as [<- _]. rewrite (decide_False (P := _ ∈ store ∖ _)) in IH by set_solver.
        rewrite (decide_True (P := _ ∈ store)) by done. lia.
      * etrans; [exact IH|]. clear -Hin. repeat case_decide; try lia. exfalso. set_solver.
    + rewrite decide_False by (intros [_ Hx]; by apply Hx). exact IH.
Qed.

(** Validation accepts any token, a revoked one too. *)
Example revoked_token_valid :
  status (OAuth2TokenRevocationHandler "Bearer x") = 200%Z /\
  OAuth2TokenValidationHandler "Bearer x" = MkResponse 200 "Token is valid".
Proof. vm_compute. done. Qed.

(** ** Hashes of secrets *)

(** The alphabet of [base64.URLEncoding], and its padding. *)
Definition url_alphabet : string := "ABCDEFGHIJKLMNOPQRSTUVWXYZabcdefghijklmnopqrstuvwxyz0123456789-_".
Definition sextet_char (n : nat) : ascii := default "A"%char (String.get n url_alphabet).

(** Three bytes are four sextets; one or two bytes at the end are padded. *)
Fixpoint EncodeToString (b : list nat) : string :=
  match b with
  | [] => ""
  | [x] => String (sextet_char (x / 4)) (String (sextet_char (x mod 4 * 16)) "==")
  | [x; y] =>
      String (sextet_char (x / 4)) (String (sextet_char (x mod 4 * 16 + y / 16))
        (String (sextet_char (y mod 16 * 4)) "="))
  | x :: y :: z :: b =>
      String (sextet_char (x / 4)) (String (sextet_char (x mod 4 * 16 + y / 16))
        (String (sextet_char (y mod 16 * 4 + z / 64)) (String (sextet_char (z mod 64)) (EncodeToString b))))
  end.

Definition HashClientSecret (sha256 : string -> list nat) (secret : string) : string := EncodeToString (sha256 secret).

Definition is_bytes (b : list nat) : Prop := Forall (fun x => x < 256) b.

Lemma sextet_char_inj n m : n < 64 -> m < 64 -> sextet_char n = sextet_char m -> n = m.
Proof.
  assert (H : forallb (fun n => forallb (fun m =>
    implb (bool_decide (sextet_char n = sextet_char m)) (n =? m)) (seq 0 64)) (seq 0 64) = true) by (vm_compute; done).
  intros Hn Hm He. rewrite forallb_forall in H. specialize (H n ltac:(apply in_seq; lia)).
  rewrite forallb_forall in H. specialize (H m ltac:(apply in_seq; lia)).
  rewrite bool_decide_eq_true_2 in H by done. by apply Nat.eqb_eq.
Qed.

(** A number as its quotient and its rest. *)
Ltac split_at x n :=
  pose proof (Nat.div_mod_eq x n); pose proof (Nat.mod_upper_bound x n ltac:(lia)).

(** Four sextets that agree come from the same three bytes. *)
Lemma three_bytes x y z x' y' z' :
  x < 256 -> y < 256 -> z < 256 -> x' < 256 -> y' < 256 -> z' < 256 ->
  sextet_char (x / 4) = sextet_char (x' / 4) ->
  sextet_char (x mod 4 * 16 + y / 16) = sextet_char (x' mod 4 * 16 + y' / 16) ->
  sextet_char (y mod 16 * 4 + z / 64) = sextet_char (y' mod 16 * 4 + z' / 64) ->
  sextet_char (z mod 64) = sextet_char (z' mod 64) -> x = x' /\ y = y' /\ z = z'.
Proof.
  intros Hx Hy Hz Hx' Hy' Hz' H1 H2 H3 H4.
  split_at x 4. split_at y 16. split_at z 64. split_at x' 4. split_at y' 16. split_at z' 64.
  apply sextet_char_inj in H1, H2, H3, H4; lia.
Qed.

Lemma EncodeToString_inj n : forall b b', length b <= n -> length b = length b' -> is_bytes b -> is_bytes b' ->
  EncodeToString b = EncodeToString b' -> b = b'.
Proof.
  induction n as [n IH] using lt_wf_ind. intros b b' Hn Hl Hb Hb' He. unfold is_bytes in *.
  destruct b as [|x [|y [|z b]]], b' as [|x' [|y' [|z' b']]]; cbn [length] in *; try lia; [done|..];
    repeat match goal with H : Forall _ (_ :: _) |- _ => apply Forall_cons in H as [??] end;
    cbn [EncodeToString] in He; injection He; clear He; intros.
  - destruct (three_bytes x 0 0 x' 0 0) as [-> _]; try lia; try done.
    by change (0 / 16) with 0; rewrite !Nat.add_0_r.
  - destruct (three_bytes x y 0 x' y' 0) as (-> & -> & _); try lia; try done.
    by change (0 / 64) with 0; rewrite !Nat.add_0_r.
  - destruct (three_bytes x y z x' y' z') as (-> & -> & ->); try done.
    do 3 f_equal. apply (IH (n - 3)); try done; lia.
Qed.

(** Secrets with the same text of their hash have the same digest. *)
Lemma hash_client_secret_inj (sha256 : string -> list nat) s t :
  (forall s, length (sha256 s) = 32 /\ is_bytes (sha256 s)) ->
  HashClientSecret sha256 s = HashClientSecret sha256 t -> sha256 s = sha256 t.
Proof.
  intros Hsha He. destruct (Hsha s) as [Hs Hbs], (Hsha t) as [Ht Hbt].
  apply (EncodeToString_inj 32); [lia|lia|done..].
Qed.

Example encode_examples :
  EncodeToString [77; 97; 110] = "TWFu" /\ EncodeToString [251; 255] = "-_8=" /\ EncodeToString [77] = "TQ==".
Proof. vm_compute. done. Qed.
