(* ===== verification/Grpc.v ===== *)
(** * Calls of gRPC

    What the programs of src/networking/protocols/grpc_protocol.go and src/networking/rpc/rpc_client.go do
    with a stream: the calls that they make, one after the other, and what they do with each answer.  gRPC
    itself is not modelled: the answers are arguments, and what is shown of the programs holds for all of
    them, whatever the library, the network and the other side do. *)

From S2P Require Import Prelude.
Local Open Scope nat_scope.

(** ** Errors *)

(** [io.EOF], [grpc.ErrServerStopped], and any other error. *)
Inductive err : Set := EOF | ErrServerStopped | Status (text : string).

#[export] Instance err_eq_dec : EqDecision err.
Proof. solve_decision. Defined.

Definition err_text (e : err) : string :=
  match e with
  | EOF => "EOF"
  | ErrServerStopped => "grpc: the server has been stopped"
  | Status t => t
  end.

(** How a function of a client ends: it returns, or [log.Fatalf] ends the process. *)
Inductive finish : Type := Returned | Exited (text : string).

(** ** The programs of the two sides *)

(** The next call of a handler, with what it does with the answer. *)
Inductive server_call (P : Type) : Type :=
| s_recv (k : string + err -> P)
| s_send (m : string) (k : option err -> P)
| s_return (st : option err).
Arguments s_recv {P} k.
Arguments s_send {P} m k.
Arguments s_return {P} st.

(** The next call of a goroutine of the client: opening the stream, [Send], [CloseSend], [CloseAndRecv],
    [Recv]; [c_go] is a step that does not use the stream. *)
Inductive client_call (C : Type) : Type :=
| c_open (k : option err -> C)
| c_send (m : string) (k : option err -> C)
| c_close (k : option err -> C)
| c_close_recv (k : string + err -> C)
| c_recv (k : string + err -> C)
| c_go (k : C).
Arguments c_open {C} k.
Arguments c_send {C} m k.
Arguments c_close {C} k.
Arguments c_close_recv {C} k.
Arguments c_recv {C} k.
Arguments c_go {C} k.

(** ** Calls with their answers *)

Inductive server_event : Type := Received (r : string + err) | Responded (m : string) (r : option err).

Inductive client_event : Type :=
| Opened (r : option err)
| Sent (m : string) (r : option err)
| Closed (r : option err)
| ClosedGot (r : string + err)
| Got (r : string + err)
| Went.

(** The state after events, if the program can make these calls. *)
Fixpoint replay {St Ev : Type} (next : St -> Ev -> option St) (s : St) (es : list Ev) : option St :=
  match es with
  | [] => Some s
  | e :: es => s' ← next s e; replay next s' es
  end.

Definition server_next {P : Type} (serve : P -> server_call P) (p : P) (e : server_event) : option P :=
  match serve p, e with
  | s_recv k, Received r => Some (k r)
  | s_send m k, Responded m' r => if decide (m = m') then Some (k r) else None
  | _, _ => None
  end.

Definition answered {C : Type} (e : client_event) (call : client_call C) : option C :=
  match call, e with
  | c_open k, Opened r => Some (k r)
  | c_send m k, Sent m' r => if decide (m = m') then Some (k r) else None
  | c_close k, Closed r => Some (k r)
  | c_close_recv k, ClosedGot r => Some (k r)
  | c_recv k, Got r => Some (k r)
  | c_go k, Went => Some k
  | _, _ => None
  end.

(** Each goroutine offers its next call; the event is the answer to one of them. *)
Definition client_next {C : Type} (calls : C -> list (client_call C)) (c : C) (e : client_event) : option C :=
  head (omap (answered e) (calls c)).

Definition handler_run {P : Type} (serve : P -> server_call P) : P -> list server_event -> option P :=
  replay (server_next serve).

Definition client_run {C : Type} (calls : C -> list (client_call C)) : C -> list client_event -> option C :=
  replay (client_next calls).

(** What holds at the start and is kept by every answer holds after any events. *)
Lemma replay_inv {St Ev : Type} (next : St -> Ev -> option St) (inv : list Ev -> St -> Prop) s0 :
  inv [] s0 ->
  (forall es s e s', inv es s -> next s e = Some s' -> inv (es ++ [e]) s') ->
  forall es s, replay next s0 es = Some s -> inv es s.
Proof.
  intros H0 Hstep es s. enough (forall pre s1, inv pre s1 -> replay next s1 es = Some s -> inv (pre ++ es) s) as H
    by (intros Hr; by apply (H [] s0)).
  induction es as [|e es IH]; intros pre s1 Hi; cbn.
  - intros [= ->]. by rewrite app_nil_r.
  - intros (s2 & H2 & Hr)%bind_Some. replace (pre ++ e :: es) with ((pre ++ [e]) ++ es) by by rewrite <-app_assoc.
    eauto.
Qed.

(** The messages of the events, in their order. *)
Definition received (es : list server_event) : list string :=
  omap (fun e => match e with Received (inl m) => Some m | _ => None end) es.
Definition responded (es : list server_event) : list string :=
  omap (fun e => match e with Responded m None => Some m | _ => None end) es.
Definition sent (es : list client_event) : list string :=
  omap (fun e => match e with Sent m None => Some m | _ => None end) es.
Definition got (es : list client_event) : list string :=
  omap (fun e => match e with Got (inl m) | ClosedGot (inl m) => Some m | _ => None end) es.

Lemma received_snoc es e :
  received (es ++ [e]) = received es ++ match e with Received (inl m) => [m] | _ => [] end.
Proof. unfold received. rewrite omap_app. f_equal. by destruct e as [[]|]. Qed.

Lemma responded_snoc es e :
  responded (es ++ [e]) = responded es ++ match e with Responded m None => [m] | _ => [] end.
Proof. unfold responded. rewrite omap_app. f_equal. by destruct e as [|? []]. Qed.

Lemma sent_snoc es e : sent (es ++ [e]) = sent es ++ match e with Sent m None => [m] | _ => [] end.
Proof. unfold sent. rewrite omap_app. f_equal. by destruct e as [|? []|? | |? |]. Qed.

Lemma got_snoc es e :
  got (es ++ [e]) = got es ++ match e with Got (inl m) | ClosedGot (inl m) => [m] | _ => [] end.
Proof. unfold got. rewrite omap_app. f_equal. by destruct e as [| | |[]|[]|]. Qed.
