(* ===== verification/GrpcProtocol.v ===== *)
(** * The gRPC service and its client ([networking/protocols/grpc_protocol.go])

    The four handlers of the server and the four requests of the client, as programs that make the calls
    of [Grpc.v], and what each does whatever the calls answer. *)

From S2P Require Import Prelude Grpc.
Local Open Scope nat_scope.

Section Protocol.
(** The text of [time.Now()], per message of a loop. *)
Context (now : nat -> string).

(** ** The server *)

Definition Unary (message : string) : string := "Unary response: " +:+ message.

(** [ServerStreaming]: at the head of its loop, or returned. *)
Inductive streaming : Type := Streaming (i : nat) | Streamed (st : option err).

Definition stream_message (i : nat) : string := "Streaming message " +:+ now i.

Definition ServerStreaming (p : streaming) : server_call streaming :=
  match p with
  | Streaming i =>
      if i <? 10 then
        s_send (stream_message i)
          (fun r => match r with None => Streaming (S i) | Some e => Streamed (Some e) end)
      else s_return None
  | Streamed st => s_return st
  end.

(** [ClientStreaming]: before [Recv], with the messages so far; before [SendAndClose]; returned. *)
Inductive collecting : Type :=
| Collecting (messages : list string)
| Answering
| Collected (st : option err).

Definition ClientStreaming (p : collecting) : server_call collecting :=
  match p with
  | Collecting messages =>
      s_recv (fun r =>
        match r with
        | inr e => if decide (e = ErrServerStopped) then Answering else Collected (Some e)
        | inl req => Collecting (messages ++ [req])
        end)
  | Answering => s_send "All messages received." Collected
  | Collected st => s_return st
  end.

(** [BidirectionalStreaming]: before [Recv], before the reply to a request, returned. *)
Inductive echoing : Type :=
| Reading
| Replying (req : string)
| Echoed (st : option err).

Definition reply (req : string) : string := "Replying: " +:+ req.

Definition BidirectionalStreaming (p : echoing) : server_call echoing :=
  match p with
  | Reading => s_recv (fun r => match r with inr _ => Echoed None | inl req => Replying req end)
  | Replying req => s_send (reply req) (fun r => match r with None => Reading | Some e => Echoed (Some e) end)
  | Echoed st => s_return st
  end.

(** ** The client *)

Definition sendUnaryRequest (answer : string + err) : finish :=
  match answer with
  | inl _ => Returned
  | inr e => Exited ("could not send unary request: " +:+ err_text e)
  end.

(** [sendServerStreamingRequest]: before it opens the stream; in its loop, with the messages it has
    printed; at its end. *)
Inductive listening : Type :=
| ListenOpening
| Listening (heard : list string)
| Listened (heard : list string) (f : finish).

Definition sendServerStreamingRequest (c : listening) : list (client_call listening) :=
  match c with
  | ListenOpening =>
      [c_open (fun r =>
         match r with
         | None => Listening []
         | Some e => Listened [] (Exited ("could not stream: " +:+ err_text e))
         end)]
  | Listening heard =>
      [c_recv (fun r =>
         match r with
         | inl res => Listening (heard ++ [res])
         | inr _ => Listened heard Returned
         end)]
  | Listened _ _ => []
  end.

(** [sendClientStreamingRequest]: before it opens the stream, in its loop and then in [CloseAndRecv], at
    its end with the response it printed. *)
Inductive uploading : Type :=
| UploadOpening
| Uploading (i : nat)
| Uploaded (response : option string) (f : finish).

Definition upload_message (i : nat) : string := "Stream message " +:+ now i.

Definition sendClientStreamingRequest (c : uploading) : list (client_call uploading) :=
  match c with
  | UploadOpening =>
      [c_open (fun r =>
         match r with
         | None => Uploading 0
         | Some e => Uploaded None (Exited ("could not send stream: " +:+ err_text e))
         end)]
  | Uploading i =>
      if i <? 5 then
        [c_send (upload_message i)
           (fun r =>
              match r with
              | None => Uploading (S i)
              | Some e => Uploaded None (Exited ("failed to send: " +:+ err_text e))
              end)]
      else
        [c_close_recv (fun r =>
           match r with
           | inl res => Uploaded (Some res) Returned
           | inr e => Uploaded None (Exited ("failed to receive response: " +:+ err_text e))
           end)]
  | Uploaded _ _ => []
  end.

(** [sendBidirectionalStreamingRequest]: it opens the stream and starts the goroutine that receives until
    it closes [done]; it sends in a loop, then waits for [done].  An error of [CloseSend] is ignored. *)
Inductive sender : Type := Opening | Sending (i : nat) | WaitDone | SenderEnd (f : finish).

Record chatting : Type := Chatting { sending : sender; printed : list string; done_closed : bool }.

Definition message (i : nat) : string := "Client streaming message " +:+ now i.

Definition chat_send (c : chatting) : list (client_call chatting) :=
  let at_ s := Chatting s (printed c) (done_closed c) in
  match sending c with
  | Opening =>
      [c_open (fun r =>
         match r with
         | None => at_ (Sending 0)
         | Some e => at_ (SenderEnd (Exited ("could not send bidirectional stream: " +:+ err_text e)))
         end)]
  | Sending i =>
      if i <? 5 then
        [c_send (message i)
           (fun r =>
              match r with
              | None => at_ (Sending (S i))
              | Some e => at_ (SenderEnd (Exited ("failed to send message: " +:+ err_text e)))
              end)]
      else [c_close (fun _ => at_ WaitDone)]
  | WaitDone => if done_closed c then [c_go (at_ (SenderEnd Returned))] else []
  | SenderEnd _ => []
  end.

Definition chat_recv (c : chatting) : list (client_call chatting) :=
  if done_closed c then []
  else
    [c_recv (fun r =>
       match r with
       | inl res => Chatting (sending c) (printed c ++ [res]) false
       | inr _ => Chatting (sending c) (printed c) true
       end)].

(** The goroutine starts when the stream is open; when the process has ended, so has the goroutine. *)
Definition sendBidirectionalStreamingRequest (c : chatting) : list (client_call chatting) :=
  match sending c with
  | Opening => chat_send c
  | SenderEnd (Exited _) => []
  | _ => chat_send c ++ chat_recv c
  end.

(** [StartGRPCClient]: the four requests, one after the other; a failing [Dial] ends the process as
    well.  The arguments are how the functions end. *)
Definition StartGRPCClient (dial : option err) (requests : list finish) : finish :=
  match dial with
  | Some e => Exited ("did not connect: " +:+ err_text e)
  | None =>
      foldr (fun f rest => match f with Returned => rest | Exited t => Exited t end) Returned requests
  end.

(** [StartGRPCServer]: what [net.Listen] and [grpcServer.Serve] return. *)
Definition StartGRPCServer (listen serve : option err) : finish :=
  match listen, serve with
  | Some e, _ => Exited ("failed to listen: " +:+ err_text e)
  | None, Some e => Exited ("failed to serve: " +:+ err_text e)
  | None, None => Returned
  end.

(** ** What the handlers do *)

Lemma seq_snoc (f : nat -> string) n : f <$> seq 0 (S n) = (f <$> seq 0 n) ++ [f n].
Proof. by rewrite seq_S, fmap_app. Qed.

Definition streaming_inv (es : list server_event) (p : streaming) : Prop :=
  match p with
  | Streaming i => i <= 10 /\ responded es = stream_message <$> seq 0 i
  | Streamed st =>
      exists i e, i < 10 /\ responded es = stream_message <$> seq 0 i /\ st = Some e /\
        last es = Some (Responded (stream_message i) (Some e))
  end.

(** The messages of [ServerStreaming], in order, until ten are sent or one fails: the handler returns nil
    after ten, and otherwise the error of the one that failed. *)
Lemma server_streaming_sends es p :
  handler_run ServerStreaming (Streaming 0) es = Some p -> streaming_inv es p.
Proof.
  apply (replay_inv _ streaming_inv); [split; [lia|done]|].
  unfold streaming_inv. clear. intros es [i|st] e p' Hi; unfold server_next; cbn [ServerStreaming]; [|by destruct e].
  destruct Hi as [Hb Hr]. destruct (Nat.ltb_spec i 10), e as [|m [e|]]; try done;
    case_decide; intros; simplify_eq.
  - exists i, e. rewrite responded_snoc, app_nil_r, last_snoc. done.
  - rewrite responded_snoc, Hr, seq_snoc. split; [lia|done].
Qed.

Definition collecting_inv (es : list server_event) (p : collecting) : Prop :=
  match p with
  | Collecting ms => ms = received es /\ responded es = [] /\ forall e, Received (inr e) ∉ es
  | Answering => responded es = [] /\ Received (inr ErrServerStopped) ∈ es /\
      forall e, Received (inr e) ∈ es -> e = ErrServerStopped
  | Collected st =>
      Received (inr ErrServerStopped) ∈ es /\ (forall e, Received (inr e) ∈ es -> e = ErrServerStopped) \/
      responded es = [] /\ exists e, st = Some e /\ forall e', Received (inr e') ∈ es -> e' = e
  end.

Lemma collecting_keeps es p :
  handler_run ClientStreaming (Collecting []) es = Some p -> collecting_inv es p.
Proof.
  apply (replay_inv _ collecting_inv).
  - split; [done|]. split; [done|]. intros e H. by apply not_elem_of_nil in H.
  - unfold collecting_inv. clear. intros es [ms| |st] ev p' Hi; unfold server_next; cbn [ClientStreaming]; [|..|by destruct ev].
    + destruct Hi as (-> & Hr & Hn), ev as [[m|e]|]; [..|done]; intros [= <-].
      * rewrite received_snoc, responded_snoc, Hr. split; [done|]. split; [done|].
        intros e [H|H%list_elem_of_singleton]%elem_of_app; [by apply Hn in H|done].
      * assert (He : forall e', Received (inr e') ∈ es ++ [Received (inr e)] -> e' = e).
        { intros e' [H|H%list_elem_of_singleton]%elem_of_app; [by apply Hn in H|by injection H]. }
        case_decide; subst; rewrite responded_snoc, Hr, app_nil_r.
        -- split; [done|]. split; [|done]. apply elem_of_app. right. by apply list_elem_of_singleton.
        -- right. split; [done|]. by exists e.
    + destruct Hi as (_ & Hs & He), ev as [|m r]; [done|]. case_decide; intros; simplify_eq. left.
      split; [apply elem_of_app; by left|].
      intros e [H|H%list_elem_of_singleton]%elem_of_app; [by apply He|done].
Qed.

(** [ClientStreaming] answers only when [Recv] gives [grpc.ErrServerStopped]; every other error, the
    [io.EOF] after the last message included, is what it returns. *)
Lemma client_streaming_answers es p :
  handler_run ClientStreaming (Collecting []) es = Some p ->
  (responded es ≠ [] -> Received (inr ErrServerStopped) ∈ es) /\
  (forall e, e ≠ ErrServerStopped -> Received (inr e) ∈ es -> p = Collected (Some e) /\ responded es = []) /\
  (forall ms, p = Collecting ms -> ms = received es).
Proof.
  intros H%collecting_keeps. destruct p as [ms| |st].
  - destruct H as (-> & Hr & Hn). split; [done|]. split; [|by intros ? [= <-]].
    intros e _ He. by destruct (Hn e).
  - destruct H as (Hr & Hs & He). split; [done|]. split; [|done]. intros e Hne H. by apply He in H.
  - destruct H as [[Hs He]|[Hr (e & -> & He)]].
    + split; [done|]. split; [|done]. intros e Hne H. by apply He in H.
    + split; [done|]. split; [|done]. intros e' _ H. by rewrite (He _ H).
Qed.

Definition echoing_inv (es : list server_event) (p : echoing) : Prop :=
  match p with
  | Reading => responded es = reply <$> received es
  | Replying req => responded es ++ [reply req] = reply <$> received es
  | Echoed None => responded es = reply <$> received es /\ exists e, last es = Some (Received (inr e))
  | Echoed (Some e) =>
      exists req, responded es ++ [reply req] = reply <$> received es /\
        last es = Some (Responded (reply req) (Some e))
  end.

(** [BidirectionalStreaming] sends the replies to the requests it receives, each once and in order; it
    returns nil exactly when a [Recv] has failed, and otherwise the error of the [Send] that failed. *)
Lemma bidirectional_streaming_replies es p :
  handler_run BidirectionalStreaming Reading es = Some p -> echoing_inv es p.
Proof.
  apply (replay_inv _ echoing_inv); [done|].
  unfold echoing_inv. clear. intros es [|req|st] ev p' Hi; unfold server_next; cbn [BidirectionalStreaming]; [..|by destruct ev].
  - destruct ev as [[m|e]|]; [..|done]; intros [= <-]; rewrite responded_snoc, received_snoc, ?app_nil_r, Hi.
    + by rewrite fmap_app.
    + split; [done|]. exists e. by rewrite last_snoc.
  - destruct ev as [|m [e|]]; [done|..]; case_decide; intros; simplify_eq;
      rewrite responded_snoc, received_snoc, ?app_nil_r.
    + exists req. rewrite last_snoc. done.
    + done.
Qed.

(** ** What the requests do *)

Definition listening_inv (es : list client_event) (c : listening) : Prop :=
  match c with
  | ListenOpening => es = []
  | Listening heard => heard = got es
  | Listened heard f =>
      heard = got es /\
      match f with
      | Returned => exists e, last es = Some (Got (inr e))
      | Exited _ => exists e, es = [Opened (Some e)]
      end
  end.

(** [sendServerStreamingRequest] prints what it receives, ends the process only when the stream cannot be
    opened, and returns at the first error. *)
Lemma server_streaming_request es c :
  client_run sendServerStreamingRequest ListenOpening es = Some c -> listening_inv es c.
Proof.
  apply (replay_inv _ listening_inv); [done|].
  unfold listening_inv. clear. intros es [|h|h f] ev c' Hi; unfold client_next; cbn; [..|done].
  - subst es. destruct ev as [[e|]| | | | |]; intros; simplify_eq/=; eauto.
  - subst h. destruct ev as [ | | | |[m|e]|]; intros; simplify_eq/=; rewrite got_snoc, ?app_nil_r; [done|].
    split; [done|]. exists e. by rewrite last_snoc.
Qed.

Definition uploading_inv (es : list client_event) (c : uploading) : Prop :=
  match c with
  | UploadOpening => es = []
  | Uploading i => i <= 5 /\ sent es = upload_message <$> seq 0 i
  | Uploaded r Returned =>
      sent es = upload_message <$> seq 0 5 /\ exists m, r = Some m /\ last es = Some (ClosedGot (inl m))
  | Uploaded r (Exited t) =>
      r = None /\ exists e, (exists m, last es = Some (Sent m (Some e))) \/ last es = Some (Opened (Some e)) \/
        last es = Some (ClosedGot (inr e))
  end.

(** [sendClientStreamingRequest] sends its five messages in order; it returns only with a response after
    all five, and every error ends the process: of opening the stream, of a [Send], of [CloseAndRecv]. *)
Lemma client_streaming_request es c :
  client_run sendClientStreamingRequest UploadOpening es = Some c -> uploading_inv es c.
Proof.
  apply (replay_inv _ uploading_inv); [done|].
  unfold uploading_inv. clear. intros es [|i|r f] ev c' Hi; unfold client_next; cbn [sendClientStreamingRequest]; [..|done].
  - subst es. destruct ev as [[e|]| | | | |]; intros; simplify_eq/=; [eauto 10|split; [lia|done]].
  - destruct Hi as [Hb Hs]. destruct (Nat.ltb_spec i 5).
    + destruct ev as [|m [e|]| | | |]; cbn [omap list_omap answered head]; try done; case_decide; try done; intros [= <-]; subst m.
      * split; [done|]. exists e. left. exists (upload_message i). by rewrite last_snoc.
      * rewrite sent_snoc, Hs, seq_snoc. split; [lia|done].
    + assert (i = 5) as -> by lia. destruct ev as [ | | |[m|e]| |]; intros; simplify_eq/=.
      * rewrite sent_snoc, app_nil_r, last_snoc. eauto.
      * split; [done|]. exists e. rewrite last_snoc. eauto.
Qed.

Record chat_inv (es : list client_event) (c : chatting) : Prop := {
  ci_printed : printed c = got es;
  ci_done : done_closed c = true <-> exists e, Got (inr e) ∈ es;
  ci_sent : match sending c with
            | Opening => es = []
            | Sending i => i <= 5 /\ sent es = message <$> seq 0 i
            | WaitDone => sent es = message <$> seq 0 5
            | SenderEnd Returned => sent es = message <$> seq 0 5 /\ done_closed c = true
            | SenderEnd (Exited _) => exists e, es = [Opened (Some e)] \/ exists m, last es = Some (Sent m (Some e))
            end
}.

Lemma got_error_snoc (es : list client_event) ev :
  (exists e, Got (inr e) ∈ es ++ [ev]) <-> (exists e, Got (inr e) ∈ es) \/ exists e, ev = Got (inr e).
Proof.
  split.
  - intros [e [H|H%list_elem_of_singleton]%elem_of_app]; [left|right]; eauto.
  - intros [[e H]|[e ->]]; exists e; apply elem_of_app; [by left|right; by apply list_elem_of_singleton].
Qed.

(** [sendBidirectionalStreamingRequest] prints what it receives, in order, and sends its five messages in
    order; it returns only after all five and a failed [Recv], which closes [done]; a failed [Send] or a
    stream that cannot be opened ends the process. *)
Lemma bidirectional_request es c :
  client_run sendBidirectionalStreamingRequest (Chatting Opening [] false) es = Some c -> chat_inv es c.
Proof.
  apply (replay_inv _ chat_inv).
  { split; cbn; [done| |done]. split; [done|]. intros [e H]. by apply not_elem_of_nil in H. }
  clear. intros es [sd pr dn] ev c' [Hp Hd Hs]. cbn [printed done_closed sending] in *. subst pr.
  unfold client_next, sendBidirectionalStreamingRequest, chat_send, chat_recv. cbn [sending printed done_closed].
  destruct sd as [|i| |[|t]]; [|destruct (Nat.ltb_spec i 5)|..]; [| |destruct Hs as [Hb Hs]; assert (i = 5) as -> by lia|..];
    destruct dn, ev as [[e|]|m [e|]|r|r|[m|e]|]; cbn [omap list_omap answered head app]; try done; repeat case_decide; try done; intros [= <-]; subst;
    (split; cbn [printed done_closed sending]; rewrite ?got_snoc, ?sent_snoc, ?app_nil_r, ?last_snoc, ?got_error_snoc; try done).
  all: try (rewrite <-Hd; split; [tauto|intros [?|[? ?]]; done]).
  all: try (split; [intros _; eauto|done]).
  all: try (destruct Hs as [Hb Hs]; split; [lia|]; rewrite ?seq_snoc; congruence).
  all: try solve [eauto]. all: split; [lia|done].
Qed.

(** A request that ends the process ends the client: the ones after it are not made. *)
Lemma client_stops dial before t after :
  Forall (eq Returned) before -> exists t', StartGRPCClient dial (before ++ Exited t :: after) = Exited t' /\
    (dial = None -> t' = t).
Proof.
  intros Hb. destruct dial as [e|]; cbn; [by eexists|]. exists t. split; [|done].
  induction Hb as [|f l <- _ IH]; done.
Qed.
End Protocol.

(** ** Runs *)

Definition a_clock : nat -> string := fun _ => "12:00".

(** A client that has closed its side gets no response if [Recv] then gives [io.EOF], as the
    documentation of gRPC says: the handler returns it as its error. *)
Example client_streaming_at_eof :
  handler_run ClientStreaming (Collecting []) [Received (inl "a"); Received (inl "b"); Received (inr EOF)] =
    Some (Collected (Some EOF)).
Proof. reflexivity. Qed.

(** The goroutine prints the answers while the loop sends; the function returns after the last error of
    [Recv]. *)
Example a_conversation :
  client_run (sendBidirectionalStreamingRequest a_clock) (Chatting Opening [] false)
    (Opened None :: Got (inl "x") :: repeat (Sent (message a_clock 0) None) 5 ++
     [Closed None; Got (inl "y"); Got (inr EOF); Went]) =
  Some (Chatting (SenderEnd Returned) ["x"; "y"] true).
Proof. reflexivity. Qed.
