(* ===== verification/TransportSecurity.v ===== *)
(** * Encryption in transit ([security/encryption/encryption_in_transit.go])

    The TLS configurations of the secure server and of the secure client, and what comes of the two
    together.  The functions of [crypto/tls] and [crypto/x509] are a class; the law used is the
    documented meaning of [RequireAndVerifyClientCert]. *)

From S2P Require Import Prelude Text Files Grpc.
Local Open Scope Z_scope.
Local Open Scope prog_scope.

Inductive ClientAuthType : Set := NoClientCert | RequireAndVerifyClientCert.

(** [tls.Config], as far as the code sets it; [Cert] are the certificates of the library. *)
Record TlsConfig (Cert : Type) : Type := MkTls {
  Certificates : list Cert; ClientCAs : list Cert; RootCAs : list Cert; ClientAuth : ClientAuthType
}.
Arguments MkTls {Cert} _ _ _ _.
Arguments Certificates {Cert} _.
Arguments ClientCAs {Cert} _.
Arguments RootCAs {Cert} _.
Arguments ClientAuth {Cert} _.

(** [LoadX509KeyPair] reads the two files; [certs_of_pem] are the certificates that
    [AppendCertsFromPEM] finds; [handshake] is whether a client gets through to a server. *)
Class TlsLib (Cert : Type) : Type := {
  LoadX509KeyPair : bytes -> bytes -> Cert + string;
  certs_of_pem : bytes -> list Cert;
  handshake : TlsConfig Cert -> TlsConfig Cert -> bool
}.

(** A server that requires a certificate refuses a client that has none, and one that knows no
    authority refuses every client. *)
Class TlsLaws (Cert : Type) `{TlsLib Cert} : Prop := {
  certificate_required : forall server client,
    ClientAuth server = RequireAndVerifyClientCert -> Certificates client = [] -> handshake server client = false;
  authority_required : forall server client,
    ClientAuth server = RequireAndVerifyClientCert -> ClientCAs server = [] -> handshake server client = false
}.

Section Transit.
Context {Cert : Type} `{TlsLib Cert} `{FileSystem}.

(** Errors are their texts up to the error that they name. *)
Definition LoadServerTLSConfig (certFile keyFile caCertFile : string) : prog Files (TlsConfig Cert + string) :=
  let! c := open_in certFile in
  let! k := open_in keyFile in
  match c, k with
  | Some c, Some k =>
      match LoadX509KeyPair c k with
      | inr _ => prog_ret (inr "failed to load server certificate and key")
      | inl cert =>
          let! caCert := open_in caCertFile in
          match caCert with
          | None => prog_ret (inr "failed to read CA cert")
          | Some ca => prog_ret (inl (MkTls [cert] (certs_of_pem ca) [] RequireAndVerifyClientCert))
          end
      end
  | _, _ => prog_ret (inr "failed to load server certificate and key")
  end.

Definition LoadClientTLSConfig (caCertFile : string) : prog Files (TlsConfig Cert + string) :=
  let! caCert := open_in caCertFile in
  match caCert with
  | None => prog_ret (inr "failed to read CA cert")
  | Some ca => prog_ret (inl (MkTls [] [] (certs_of_pem ca) NoClientCert))
  end.

(** [SecureServer]: the configuration with which it listens, or the end of the process. *)
Definition SecureServer (certFile keyFile caCertFile : string) : prog Files (TlsConfig Cert + finish) :=
  let! r := LoadServerTLSConfig certFile keyFile caCertFile in
  match r with
  | inr e => prog_ret (inr (Exited ("unable to configure TLS: " +:+ e)))
  | inl cfg => prog_ret (inl cfg)
  end.

(** [SecureClient] asks a server with the configuration [server]; [body] is whether the body of the
    response can be read. *)
Definition SecureClient (server : TlsConfig Cert) (body : bool) (caCertFile : string) : prog Files finish :=
  let! r := LoadClientTLSConfig caCertFile in
  match r with
  | inr e => prog_ret (Exited ("unable to configure TLS for client: " +:+ e))
  | inl client =>
      prog_ret (if handshake server client then
                  if body then Returned else Exited "failed to read response body"
                else Exited "failed to perform GET request")
  end.

Context `{!TlsLaws Cert}.

(** What the server listens with: it always requires certificates, and its own is the one of the
    files. *)
Lemma LoadServerTLSConfig_ok fs certFile keyFile caCertFile fs' cfg :
  LoadServerTLSConfig certFile keyFile caCertFile fs = (fs', Ret (inl cfg)) ->
  fs' = fs /\ ClientAuth cfg = RequireAndVerifyClientCert /\
  exists c k ca cert, fs !! certFile = Some c /\ fs !! keyFile = Some k /\ fs !! caCertFile = Some ca /\
    LoadX509KeyPair c k = inl cert /\ Certificates cfg = [cert] /\ ClientCAs cfg = certs_of_pem ca.
Proof.
  unfold LoadServerTLSConfig, open_in, prog_bind, prog_gets, prog_ret.
  destruct (permitted certFile), (permitted keyFile); cbn; try done; repeat case_match; intros; simplify_eq.
  all: split; [done|]; split; [done|]; by eauto 15.
Qed.

(** The secure client never gets an answer from the secure server: the server requires a certificate
    of the client, and the configuration of the client has none, so every request ends the client's
    process, whatever the files hold. *)
Lemma secure_client_never_served fs fs1 fs2 certFile keyFile caCertFile caCertFile' server body :
  SecureServer certFile keyFile caCertFile fs = (fs1, Ret (inl server)) ->
  exists text, SecureClient server body caCertFile' fs2 = (fs2, Ret (Exited text)).
Proof.
  unfold SecureServer, prog_bind. destruct (LoadServerTLSConfig certFile keyFile caCertFile fs) as [fs' o] eqn:Hl.
  destruct o as [[cfg|]| | |]; cbn; intros [= -> ->].
  apply LoadServerTLSConfig_ok in Hl as (_ & Hauth & _).
  unfold SecureClient, LoadClientTLSConfig, open_in, prog_bind, prog_gets, prog_ret.
  destruct (if permitted caCertFile' then _ else _); [|by eauto].
  rewrite certificate_required by done. by eauto.
Qed.

(** An authority file without a certificate is not noticed; the server that it makes refuses every
    client. *)
Lemma empty_authority_refuses fs fs1 certFile keyFile caCertFile server ca client :
  SecureServer certFile keyFile caCertFile fs = (fs1, Ret (inl server)) ->
  fs !! caCertFile = Some ca -> certs_of_pem ca = [] -> handshake server client = false.
Proof.
  unfold SecureServer, prog_bind. destruct (LoadServerTLSConfig certFile keyFile caCertFile fs) as [fs' o] eqn:Hl.
  destruct o as [[cfg|]| | |]; cbn; intros [= -> ->] Hca Hnone.
  apply LoadServerTLSConfig_ok in Hl as (_ & Hauth & c & k & ca' & cert & _ & _ & Hca' & _ & _ & Hcas).
  apply authority_required; [done|]. rewrite Hcas. congruence.
Qed.
End Transit.

(** ** The laws can hold *)

#[local] Instance plain_tls : TlsLib unit := {|
  LoadX509KeyPair _ _ := inl tt;
  certs_of_pem b := match b with [] => [] | _ => [tt] end;
  handshake s c :=
    match ClientAuth s with
    | NoClientCert => true
    | RequireAndVerifyClientCert => negb (bool_decide (Certificates c = [])) && negb (bool_decide (ClientCAs s = []))
    end
|}.

#[local] Instance plain_tls_laws : TlsLaws unit.
Proof.
  split; cbn; intros s c -> Hc; rewrite Hc; [done|]. by rewrite andb_false_r.
Qed.

#[local] Instance every_file : FileSystem := {| permitted _ := true; stored _ d := (d, true) |}.

Definition a_disk : Files := {["cert" := [nul]; "key" := [nul]; "ca" := [nul]]}.

Lemma secure_client_never_served_witness :
  exists text, SecureClient (MkTls [tt] [tt] [] RequireAndVerifyClientCert) true "ca" a_disk = (a_disk, Ret (Exited text)).
Proof.
  apply (secure_client_never_served a_disk a_disk a_disk "cert" "key" "ca" "ca"). reflexivity.
Defined.
