(* ===== verification/RpcService.v ===== *)
(** * The RPC server and the RPC client ([networking/rpc])

    The methods of the server over its table, and the calls of the client, its streams as programs that
    make the calls of [Grpc.v]; what is shown of them holds whatever these answer. *)

From S2P Require Import Prelude Text Grpc.
Local Open Scope Z_scope.

(** ** The server ([rpc_server.go]) *)

(** What a method returns: a response, or an error with its text. *)
Abbreviation response := (string + string)%type (only parsing).

Abbreviation table := (gmap string string) (only parsing).

Definition Greet (name : string) : response :=
  if decide (name = "") then inr "name cannot be empty" else inl ("Hello, " +:+ name +:+ "!").

Definition SetData (key value : string) (data : table) : table * response :=
  (<[key := value]> data, inl "Success").

Definition GetData (key : string) (data : table) : response :=
  match data !! key with
  | Some value => inl value
  | None => inr "key not found"
  end.

(** One round of [TimeUpdates] sees whether the context is done, the time, and how [Send] ends.  The
    result is what was sent, and what the method returned, if it has. *)
Fixpoint TimeUpdates (rounds : list (bool * string * option err)) : list string * option (option err) :=
  match rounds with
  | [] => ([], None)
  | (done, currentTime, sent) :: rounds =>
      if done then ([], Some None)
      else match sent with
           | Some e => ([], Some (Some e))
           | None => let '(ms, r) := TimeUpdates rounds in (currentTime :: ms, r)
           end
  end.

(** [data.Range] calls the function with the entries in some order until it answers false; [send] tells
    how [Send] ends on each entry. *)
Fixpoint list_range (send : nat -> option err) (limit count : Z) (i : nat) (entries : list (string * string)) :
    list (string * string) :=
  match entries with
  | [] => []
  | kv :: entries =>
      match send i with
      | Some _ => []
      | None =>
          let count := count + 1 in
          kv :: (if limit <=? count then [] else list_range send limit count (S i) entries)
      end
  end.

(** The method returns nil on every path. *)
Definition ListData (send : nat -> option err) (limit : Z) (entries : list (string * string)) :
    list (string * string) * option err :=
  (list_range send limit 0 0 entries, None).

Definition LongRunningTask (task_id : string) : response := inl "Completed".

(** A session of calls. *)
Inductive rpc : Type :=
| greet (name : string)
| set_data (key value : string)
| get_data (key : string)
| long_running_task (task_id : string).

Definition serve_rpc (c : rpc) (data : table) : table * response :=
  match c with
  | greet name => (data, Greet name)
  | set_data k v => SetData k v data
  | get_data k => (data, GetData k data)
  | long_running_task t => (data, LongRunningTask t)
  end.

Fixpoint serve_all (cs : list rpc) (data : table) : table * list response :=
  match cs with
  | [] => (data, [])
  | c :: cs =>
      let '(data, r) := serve_rpc c data in
      let '(data, rs) := serve_all cs data in (data, r :: rs)
  end.

(** ** The client ([rpc_client.go]) *)

Section Client.
(** [UnaryCall] of the generated client, per attempt. *)
Context (unary : nat -> string + err).

Definition UnaryCall (attempt : nat) : string + string :=
  match unary attempt with
  | inr e => inr ("UnaryCall failed: " +:+ err_text e)
  | inl response => inl response
  end.

(** The attempts from number [attempt] on, [todo] of them; [lastErr] is nil at first. *)
Fixpoint retry (todo attempt : nat) (retries : Z) (lastErr : option string) : string + string :=
  match todo with
  | O =>
      inr ("RetryUnaryCall failed after " +:+ to_string retries +:+ " attempts: " +:+ default "<nil>" lastErr)
  | S todo =>
      match UnaryCall attempt with
      | inl response => inl response
      | inr e => retry todo (S attempt) retries (Some e)
      end
  end.

(** Negative numbers of retries make no attempt. *)
Definition RetryUnaryCall (retries : Z) : string + string := retry (Z.to_nat retries) 0 retries None.
End Client.

(** [ServerStreamingCall]: before it opens the stream; in its loop, with the responses it has printed;
    returned, nil or an error. *)
Inductive downloading : Type :=
| DownloadOpening
| Downloading (responses : list string)
| Downloaded (responses : list string) (r : option string).

Definition ServerStreamingCall (c : downloading) : list (client_call downloading) :=
  match c with
  | DownloadOpening =>
      [c_open (fun r =>
         match r with
         | None => Downloading []
         | Some e => Downloaded [] (Some ("ServerStreamingCall failed: " +:+ err_text e))
         end)]
  | Downloading responses =>
      [c_recv (fun r =>
         match r with
         | inl response => Downloading (responses ++ [response])
         | inr EOF => Downloaded responses None
         | inr e => Downloaded responses (Some ("Error receiving stream: " +:+ err_text e))
         end)]
  | Downloaded _ _ => []
  end.

(** [ClientStreamingCall]: before it opens the stream; the requests left to send, then [CloseAndRecv];
    returned. *)
Inductive posting : Type :=
| PostOpening (requests : list string)
| Posting (requests : list string)
| Posted (r : string + string).

Definition ClientStreamingCall (c : posting) : list (client_call posting) :=
  match c with
  | PostOpening requests =>
      [c_open (fun r =>
         match r with
         | None => Posting requests
         | Some e => Posted (inr ("ClientStreamingCall failed: " +:+ err_text e))
         end)]
  | Posting (req :: requests) =>
      [c_send req (fun r =>
         match r with
         | None => Posting requests
         | Some e => Posted (inr ("Error sending stream: " +:+ err_text e))
         end)]
  | Posting [] =>
      [c_close_recv (fun r =>
         match r with
         | inl response => Posted (inl response)
         | inr e => Posted (inr ("Error receiving response: " +:+ err_text e))
         end)]
  | Posted _ => []
  end.

(** [BidirectionalStreamingCall]: the goroutine that sends, the one that receives, and the function, which
    opens the stream, starts both and waits for [done], an unbuffered channel. *)
Inductive talk_sender : Type := TOpening (requests : list string) | TSend (requests : list string) | TStopped.
Inductive talk_receiver : Type := TRecv | TDone | TOver.

Record talking : Type := Talking {
  t_send : talk_sender; t_recv : talk_receiver; t_printed : list string; t_returned : option (option string)
}.

Definition talk_send_calls (c : talking) : list (client_call talking) :=
  let at_ s := Talking s (t_recv c) (t_printed c) (t_returned c) in
  match t_send c with
  | TOpening requests =>
      [c_open (fun r =>
         match r with
         | None => at_ (TSend requests)
         | Some e => Talking TStopped TOver (t_printed c) (Some (Some ("BidirectionalStreamingCall failed: " +:+ err_text e)))
         end)]
  | TSend (req :: requests) =>
      [c_send req (fun r => at_ (match r with None => TSend requests | Some _ => TStopped end))]
  | TSend [] => [c_close (fun _ => at_ TStopped)]
  | TStopped => []
  end.

Definition talk_recv_calls (c : talking) : list (client_call talking) :=
  match t_recv c with
  | TRecv =>
      [c_recv (fun r =>
         match r with
         | inl response => Talking (t_send c) TRecv (t_printed c ++ [response]) (t_returned c)
         | inr _ => Talking (t_send c) TDone (t_printed c) (t_returned c)
         end)]
  | TDone => [c_go (Talking (t_send c) TOver (t_printed c) (Some None))]
  | TOver => []
  end.

Definition BidirectionalStreamingCall (c : talking) : list (client_call talking) :=
  match t_send c with
  | TOpening _ => talk_send_calls c
  | _ => talk_send_calls c ++ talk_recv_calls c
  end.

(** The connection: [NewRpcClient] dials, [Close] closes. *)
Definition NewRpcClient (dial : option err) : finish :=
  match dial with
  | Some e => Exited ("Failed to connect to server: " +:+ err_text e)
  | None => Returned
  end.

Definition Close (close : option err) : finish :=
  match close with
  | Some e => Exited ("Error closing the connection: " +:+ err_text e)
  | None => Returned
  end.

(** One function after the other, until one ends the process. *)
Definition then_ (f g : finish) : finish := match f with Returned => g | Exited t => Exited t end.

Definition fatal_on (text : string) (e : option string) : finish :=
  match e with Some e => Exited (text +:+ e) | None => Returned end.

Definition error_of (r : string + string) : option string := match r with inr e => Some e | inl _ => None end.

(** [main]: what the four calls return, and the deferred [Close], which [log.Fatalf] skips. *)
Definition rpc_main (dial : option err) (unary : string + string) (server_stream : option string)
    (client_stream : string + string) (bidirectional : option string) (close : option err) : finish :=
  then_ (NewRpcClient dial)
  (then_ (fatal_on "Error in UnaryCall: " (error_of unary))
  (then_ (fatal_on "Error in ServerStreamingCall: " server_stream)
  (then_ (fatal_on "Error in ClientStreamingCall: " (error_of client_stream))
  (then_ (fatal_on "Error in BidirectionalStreamingCall: " bidirectional) (Close close))))).

(** ** The table of the server *)

Definition last_set (key : string) (cs : list rpc) : option string :=
  foldl (fun v c => match c with set_data k v' => if decide (k = key) then Some v' else v | _ => v end) None cs.

Lemma serve_all_app cs1 cs2 data :
  serve_all (cs1 ++ cs2) data =
  ((serve_all cs2 (serve_all cs1 data).1).1, (serve_all cs1 data).2 ++ (serve_all cs2 (serve_all cs1 data).1).2).
Proof.
  revert data. induction cs1 as [|c cs1 IH]; intros data; cbn; [by destruct (serve_all cs2 data)|].
  destruct (serve_rpc c data) as [d r]. rewrite IH. by destruct (serve_all cs1 d).
Qed.

(** After any calls a key has the value that was set last. *)
Lemma serve_all_lookup cs key : (serve_all cs ∅).1 !! key = last_set key cs.
Proof.
  induction cs as [|c cs IH] using rev_ind; [done|]. unfold last_set in *.
  rewrite serve_all_app, foldl_app. cbn. rewrite <-IH.
  destruct c as [n|k v|k|t]; cbn; try done. case_decide as Hk.
  - subst. by rewrite lookup_insert_eq.
  - by rewrite lookup_insert_ne.
Qed.

(** [GetData] answers with the value that was set last, or that there is none. *)
Lemma rpc_get_data cs key :
  GetData key (serve_all cs ∅).1 =
  match last_set key cs with Some v => inl v | None => inr "key not found" end.
Proof. unfold GetData. by rewrite serve_all_lookup. Qed.

(** The entries that [ListData] sends: as many as the limit says and at least one, up to the first that
    fails. *)
Lemma list_range_take send limit entries : forall count i,
  (forall j, (i <= j)%nat -> send j = None) ->
  list_range send limit count i entries = take (Z.to_nat (limit - count) `max` 1) entries.
Proof.
  induction entries as [|kv entries IH]; intros count i Hs; [by rewrite take_nil|].
  cbn [list_range]. rewrite Hs by lia. destruct (Z.leb_spec limit (count + 1)).
  - replace (Z.to_nat (limit - count) `max` 1)%nat with 1%nat by lia. by rewrite firstn_cons, take_0.
  - rewrite IH by (intros j Hj; apply Hs; lia).
    replace (Z.to_nat (limit - count) `max` 1)%nat with (S (Z.to_nat (limit - (count + 1)) `max` 1)) by lia.
    by rewrite firstn_cons.
Qed.

Lemma list_range_prefix send limit entries : forall count i,
  list_range send limit count i entries `prefix_of` entries.
Proof.
  induction entries as [|kv entries IH]; intros count i; cbn; [done|].
  destruct (send i); [apply prefix_nil|]. apply prefix_cons. destruct (limit <=? count + 1); [apply prefix_nil|done].
Qed.

(** [ListData] sends entries of the table, none of them twice, whatever the order of the iteration and
    the errors; without errors it sends all of them or as many as the limit says, and one even when the
    limit is 0 or negative.  It never reports a failure. *)
Lemma list_data_sends (data : table) send limit entries :
  entries ≡ₚ map_to_list data ->
  let '(sent, e) := ListData send limit entries in
  e = None /\
  NoDup sent.*1 /\
  (forall k v, (k, v) ∈ sent -> data !! k = Some v) /\
  ((forall i, send i = None) -> length sent = (Z.to_nat limit `max` 1) `min` size data)%nat.
Proof.
  intros Hp. cbn. pose proof (list_range_prefix send limit entries 0 0) as [rest Hr].
  split; [done|]. split; [|split].
  - assert (Hnd : NoDup entries.*1) by (rewrite Hp; apply NoDup_fst_map_to_list).
    rewrite Hr, fmap_app in Hnd. by apply NoDup_app in Hnd as [? _].
  - intros k v Hkv. apply elem_of_map_to_list. rewrite <-Hp, Hr. apply elem_of_app. by left.
  - intros Hs. rewrite list_range_take by auto. by rewrite Z.sub_0_r, length_take, Hp, length_map_to_list.
Qed.

(** ** Retries *)

Section Retries.
Context (unary : nat -> string + err).

Definition first_answer (i n : nat) (r : string) : Prop :=
  exists j, (i <= j < i + n)%nat /\ unary j = inl r /\ forall j', (i <= j' < j)%nat -> exists e, unary j' = inr e.

Lemma retry_spec todo : forall attempt retries lastErr,
  (exists r, retry unary todo attempt retries lastErr = inl r /\ first_answer attempt todo r) \/
  ((forall j, (attempt <= j < attempt + todo)%nat -> exists e, unary j = inr e) /\
   exists last, retry unary todo attempt retries lastErr =
     inr ("RetryUnaryCall failed after " +:+ to_string retries +:+ " attempts: " +:+ default "<nil>" last) /\
     match todo with
     | O => last = lastErr
     | S t => exists e, unary (attempt + t)%nat = inr e /\ last = Some ("UnaryCall failed: " +:+ err_text e)
     end).
Proof.
  induction todo as [|todo IH]; intros attempt retries lastErr; cbn [retry].
  - right. split; [lia|]. by exists lastErr.
  - unfold UnaryCall at 1 2. destruct (unary attempt) as [r|e] eqn:Ha.
    + left. exists r. split; [done|]. exists attempt. split; [lia|]. split; [done|lia].
    + destruct (IH (S attempt) retries (Some ("UnaryCall failed: " +:+ err_text e)))
        as [(r & Hr & j & Hj & Hu & Hb)|[Hall (last & Hr & Hl)]].
      * left. exists r. split; [done|]. exists j. split; [lia|]. split; [done|]. intros j' Hj'.
        destruct (decide (j' = attempt)) as [->|]; [by exists e|]. apply Hb. lia.
      * right. split.
        { intros j Hj. destruct (decide (j = attempt)) as [->|]; [by exists e|]. apply Hall. lia. }
        exists last. split; [done|]. destruct todo as [|t].
        { exists e. by rewrite Nat.add_0_r. }
        replace (attempt + S t)%nat with (S attempt + t)%nat by lia. done.
Qed.

(** [RetryUnaryCall] returns the answer of the first attempt that has one; when none of its attempts has,
    its error names their number and the error of the last one, and nil when there was none. *)
Lemma retry_unary_call retries :
  match RetryUnaryCall unary retries with
  | inl r => first_answer 0 (Z.to_nat retries) r
  | inr text =>
      (forall j, (j < Z.to_nat retries)%nat -> exists e, unary j = inr e) /\
      exists last, text = "RetryUnaryCall failed after " +:+ to_string retries +:+ " attempts: " +:+ last /\
        (retries <= 0 -> last = "<nil>") /\
        (0 < retries -> exists e, unary (Z.to_nat retries - 1)%nat = inr e /\
           last = "UnaryCall failed: " +:+ err_text e)
  end.
Proof.
  unfold RetryUnaryCall. destruct (retry_spec (Z.to_nat retries) 0 retries None)
    as [(r & -> & Hr)|[Hall (last & -> & Hl)]]; [done|]. split; [intros j Hj; apply Hall; lia|].
  exists (default "<nil>" last). split; [done|]. destruct (Z.to_nat retries) as [|t] eqn:Ht.
  - subst last. split; [done|lia].
  - destruct Hl as (e & He & ->). split; [lia|]. intros _. exists e. cbn in *. by rewrite Nat.sub_0_r.
Qed.
End Retries.

(** ** Streams *)

Definition downloading_inv (es : list client_event) (c : downloading) : Prop :=
  match c with
  | DownloadOpening => es = []
  | Downloading responses => responses = got es
  | Downloaded responses r =>
      responses = got es /\ (r = None <-> last es = Some (Got (inr EOF)))
  end.

(** [ServerStreamingCall] prints what it receives and returns nil exactly at [io.EOF]. *)
Lemma rpc_server_streaming es c :
  client_run ServerStreamingCall DownloadOpening es = Some c -> downloading_inv es c.
Proof.
  apply (replay_inv _ downloading_inv); [done|].
  unfold downloading_inv. clear. intros es [|h|h f] ev c' Hi; unfold client_next; cbn; [..|done].
  - subst es. destruct ev as [[e|]| | | | |]; intros; simplify_eq/=; [|done]. split; [done|]. split; done.
  - subst h. destruct ev as [ | | | |[m|e]|]; intros; simplify_eq/=;
      [by rewrite got_snoc|].
    destruct e; rewrite got_snoc, app_nil_r, last_snoc; (split; [done|]; split; [done|congruence]).
Qed.

Definition posting_inv (requests : list string) (es : list client_event) (c : posting) : Prop :=
  match c with
  | PostOpening l => es = [] /\ l = requests
  | Posting l => sent es ++ l = requests
  | Posted (inl m) => sent es = requests /\ last es = Some (ClosedGot (inl m))
  | Posted (inr _) => exists e, last es = Some (Opened (Some e)) \/ (exists m, last es = Some (Sent m (Some e))) \/
      last es = Some (ClosedGot (inr e))
  end.

(** [ClientStreamingCall] sends its requests in order, answers only after all of them, and reports every
    error. *)
Lemma rpc_client_streaming requests es c :
  client_run ClientStreamingCall (PostOpening requests) es = Some c -> posting_inv requests es c.
Proof.
  apply (replay_inv _ (posting_inv requests)); [done|].
  unfold posting_inv. clear. intros es [l|[|q l]|r] ev c' Hi; unfold client_next;
    cbn [ClientStreamingCall omap list_omap answered head]; [..|done].
  - destruct Hi as [-> ->]. destruct ev as [[e|]| | | | |]; intros; simplify_eq/=; eauto.
  - rewrite app_nil_r in Hi. destruct ev as [ | | |[m|e]| |]; intros; simplify_eq/=.
    + by rewrite sent_snoc, app_nil_r, last_snoc.
    + exists e. rewrite last_snoc. auto.
  - destruct ev as [|m [e|]| | | |]; try done; case_decide; intros; simplify_eq/=.
    + exists e. rewrite last_snoc. eauto.
    + by rewrite sent_snoc, <-app_assoc.
Qed.

Record talk_inv (requests : list string) (es : list client_event) (c : talking) : Prop := {
  ti_printed : t_printed c = got es;
  ti_sent : match t_send c with
            | TOpening l => es = [] /\ l = requests /\ t_recv c = TRecv
            | TSend l => sent es ++ l = requests
            | TStopped => sent es `prefix_of` requests
            end;
  ti_returned : match t_returned c with
                | None => t_recv c ≠ TOver
                | Some None => t_recv c = TOver /\ exists e, Got (inr e) ∈ es
                | Some (Some _) => t_recv c = TOver /\ t_send c = TStopped /\ exists e, es = [Opened (Some e)]
                end;
  ti_done : t_recv c = TDone -> exists e, Got (inr e) ∈ es
}.

(** [BidirectionalStreamingCall] prints what it receives and sends its requests in order; it returns only
    when [Recv] has failed, and then nil, also when that was no [io.EOF] and when not all requests were
    sent: the only error it reports is that of opening the stream. *)
Lemma rpc_bidirectional requests es c :
  client_run BidirectionalStreamingCall (Talking (TOpening requests) TRecv [] None) es = Some c ->
  talk_inv requests es c.
Proof.
  apply (replay_inv _ (talk_inv requests)); [split; done|].
  clear. intros es [sd rv pr rt] ev c' [Hp Hs Hr Hd]. cbn [t_send t_recv t_printed t_returned] in *. subst pr.
  unfold client_next, BidirectionalStreamingCall, talk_send_calls, talk_recv_calls.
  cbn [t_send t_recv t_printed t_returned].
  assert (Hkeep : (exists e, Got (inr e) ∈ es) -> exists e, Got (inr e) ∈ es ++ [ev])
    by (intros [e He]; exists e; apply elem_of_app; by left).
  destruct sd as [l|[|q l]|], rv, rt as [[t|]|], ev as [[e|]|m [e|]|r|r|[m|e]|];
    cbn [omap list_omap answered head app]; try done; repeat case_decide; try done; intros [= <-]; subst;
    repeat match goal with H : _ /\ _ |- _ => destruct H end; subst; try done;
    (split; cbn [t_send t_recv t_printed t_returned]; rewrite ?got_snoc, ?sent_snoc, ?app_nil_r; try done; eauto).
  all: first [apply prefix_nil | by apply prefix_app_r | by rewrite <-app_assoc
             | intros _; exists e; apply elem_of_app; right; by apply list_elem_of_singleton].
Qed.

(** A request that cannot be sent and a stream that breaks: the caller sees no error. *)
Example rpc_bidirectional_swallows :
  client_run BidirectionalStreamingCall (Talking (TOpening ["a"; "b"]) TRecv [] None)
    [Opened None; Sent "a" None; Got (inl "x"); Sent "b" (Some (Status "broken")); Got (inr (Status "broken")); Went] =
  Some (Talking TStopped TOver ["x"] (Some None)).
Proof. reflexivity. Qed.
