(* ===== verification/ConfigLoader.v ===== *)
(** * The configuration loader ([config/config_loader.go])

    The configuration, its file formats chosen by the extension of the file, its validation and the
    look-up of values by dotted keys.  The yaml and json libraries are a class of functions with a class
    of laws. *)

From S2P Require Import Prelude Text Files.
From Stdlib Require Import Ascii.
Local Open Scope Z_scope.
Local Open Scope prog_scope.

#[local] Arguments String.append !_ _ / : simpl nomatch.

(** ** The configuration *)

(** A [time.Duration] is in nanoseconds. *)
Record ServerConfig : Type := MkServer {
  s_Host : string; s_Port : Z; Timeout : Z; ReadTimeout : Z; WriteTimeout : Z
}.

Record DatabaseConfig : Type := MkDatabase {
  Driver : string; d_Host : string; d_Port : Z; Username : string; Password : string; Name : string
}.

Record LoggingConfig : Type := MkLogging { Level : string; Format : string; Output : string }.

Record SecurityConfig : Type := MkSecurity {
  EnableTLS : bool; TLSCertPath : string; TLSKeyPath : string; AllowedOrigins : string
}.

Record Config : Type := MkConfig {
  Server : ServerConfig; Database : DatabaseConfig; Logging : LoggingConfig; Security : SecurityConfig
}.

(** ** Libraries *)

(** [Marshal] and [Unmarshal] of the two formats; unmarshalling starts from an empty [Config]. *)
Class ConfigLib : Type := {
  yaml_Marshal : Config -> option bytes;
  yaml_Unmarshal : bytes -> option Config;
  json_MarshalIndent : Config -> option bytes;
  json_Unmarshal : bytes -> option Config
}.

(** Texts of printable ASCII characters; json replaces bytes that are not UTF-8. *)
Definition printable (s : string) : Prop :=
  all_chars (fun c => (32 <=? nat_of_ascii c)%nat && (nat_of_ascii c <=? 126)%nat) s = true.

Definition printable_config (c : Config) : Prop :=
  Forall printable
    [s_Host (Server c); Driver (Database c); d_Host (Database c); Username (Database c);
     Password (Database c); Name (Database c); Level (Logging c); Format (Logging c); Output (Logging c);
     TLSCertPath (Security c); TLSKeyPath (Security c); AllowedOrigins (Security c)].

Class ConfigLaws `{ConfigLib} : Prop := {
  yaml_round_trip : forall c d, printable_config c -> yaml_Marshal c = Some d -> yaml_Unmarshal d = Some c;
  json_round_trip : forall c d, printable_config c -> json_MarshalIndent c = Some d -> json_Unmarshal d = Some c
}.

(** ** Extensions *)

(** [filepath.Ext]: from the last dot of the last element of the path on. *)
Fixpoint Ext (path : string) : string :=
  match path with
  | "" => ""
  | String c rest =>
      match Ext rest with
      | "" => if bool_decide (c = "."%char) && negb (has "/" rest) then String c rest else ""
      | e => e
      end
  end.

(** [strings.ToLower] on ASCII. *)
Definition lower (c : ascii) : ascii :=
  if (65 <=? nat_of_ascii c)%nat && (nat_of_ascii c <=? 90)%nat then ascii_of_nat (nat_of_ascii c + 32) else c.
Fixpoint ToLower (s : string) : string :=
  match s with "" => "" | String c s => String (lower c) (ToLower s) end.

Inductive format : Set := Yaml | Json.

(** The choice that [LoadConfig] and [SaveConfig] make. *)
Definition format_of (path : string) : option format :=
  let ext := ToLower (Ext path) in
  if decide (ext = ".yaml") then Some Yaml
  else if decide (ext = ".yml") then Some Yaml
  else if decide (ext = ".json") then Some Json
  else None.

(** ** Loading and saving *)

Section Loader.
Context `{FileSystem} `{ConfigLib}.

(** [ioutil.ReadFile] and [ioutil.WriteFile]. *)
Definition ReadFile (path : string) : prog Files (option bytes) := open_in path.
Definition WriteFile (path : string) (data : bytes) : prog Files bool :=
  let! ok := open_out path in if ok then write_out path data else prog_ret false.

(** An error is its text up to the error that it wraps. *)
Definition loadYAMLConfig (path : string) : prog Files (Config + string) :=
  let! fileData := ReadFile path in
  match fileData with
  | None => prog_ret (inr "failed to read config file")
  | Some d =>
      match yaml_Unmarshal d with
      | None => prog_ret (inr "failed to unmarshal yaml config")
      | Some c => prog_ret (inl c)
      end
  end.

Definition loadJSONConfig (path : string) : prog Files (Config + string) :=
  let! fileData := ReadFile path in
  match fileData with
  | None => prog_ret (inr "failed to read config file")
  | Some d =>
      match json_Unmarshal d with
      | None => prog_ret (inr "failed to unmarshal json config")
      | Some c => prog_ret (inl c)
      end
  end.

Definition LoadConfig (path : string) : prog Files (Config + string) :=
  match format_of path with
  | Some Yaml => loadYAMLConfig path
  | Some Json => loadJSONConfig path
  | None => prog_ret (inr "unsupported config file format")
  end.

Definition saveYAMLConfig (config : Config) (path : string) : prog Files (option string) :=
  match yaml_Marshal config with
  | None => prog_ret (Some "failed to marshal yaml config")
  | Some d =>
      let! ok := WriteFile path d in
      prog_ret (if ok : bool then None else Some "failed to write config file")
  end.

Definition saveJSONConfig (config : Config) (path : string) : prog Files (option string) :=
  match json_MarshalIndent config with
  | None => prog_ret (Some "failed to marshal json config")
  | Some d =>
      let! ok := WriteFile path d in
      prog_ret (if ok : bool then None else Some "failed to write config file")
  end.

Definition SaveConfig (config : Config) (path : string) : prog Files (option string) :=
  match format_of path with
  | Some Yaml => saveYAMLConfig config path
  | Some Json => saveJSONConfig config path
  | None => prog_ret (Some "unsupported config file format")
  end.
End Loader.

(** ** Validation *)

Definition Validate (c : Config) : option string :=
  if decide (s_Host (Server c) = "") then Some "server host cannot be empty"
  else if s_Port (Server c) =? 0 then Some "server port cannot be zero"
  else if decide (Driver (Database c) = "") then Some "database driver cannot be empty"
  else if decide (d_Host (Database c) = "") then Some "database host cannot be empty"
  else if decide (Level (Logging c) = "") then Some "logging level cannot be empty"
  else if EnableTLS (Security c) &&
          (bool_decide (TLSCertPath (Security c) = "") || bool_decide (TLSKeyPath (Security c) = ""))
  then Some "TLS is enabled, but certificate and key paths are not provided"
  else None.

(** ** Values by key *)

(** Sections are pointers into the configuration; the rest are copies. *)
Inductive value : Type :=
| PConfig | PServer | PDatabase | PLogging | PSecurity
| VString (s : string) | VInt (z : Z) | VDuration (z : Z) | VBool (b : bool).

Section Keys.
Context (c : Config).

(** One part of the key, [key] being the whole of it. *)
Definition config_part (key part : string) (v : value) : value + string :=
  match v with
  | PConfig =>
      if decide (part = "server") then inl PServer
      else if decide (part = "database") then inl PDatabase
      else if decide (part = "logging") then inl PLogging
      else if decide (part = "security") then inl PSecurity
      else inr ("unknown config key: " +:+ part)
  | PServer =>
      if decide (part = "host") then inl (VString (s_Host (Server c)))
      else if decide (part = "port") then inl (VInt (s_Port (Server c)))
      else if decide (part = "timeout") then inl (VDuration (Timeout (Server c)))
      else if decide (part = "read_timeout") then inl (VDuration (ReadTimeout (Server c)))
      else if decide (part = "write_timeout") then inl (VDuration (WriteTimeout (Server c)))
      else inr ("unknown server config key: " +:+ part)
  | PDatabase =>
      if decide (part = "driver") then inl (VString (Driver (Database c)))
      else if decide (part = "host") then inl (VString (d_Host (Database c)))
      else if decide (part = "port") then inl (VInt (d_Port (Database c)))
      else if decide (part = "username") then inl (VString (Username (Database c)))
      else if decide (part = "password") then inl (VString (Password (Database c)))
      else if decide (part = "name") then inl (VString (Name (Database c)))
      else inr ("unknown database config key: " +:+ part)
  | PLogging =>
      if decide (part = "level") then inl (VString (Level (Logging c)))
      else if decide (part = "format") then inl (VString (Format (Logging c)))
      else if decide (part = "output") then inl (VString (Output (Logging c)))
      else inr ("unknown logging config key: " +:+ part)
  | PSecurity =>
      if decide (part = "enable_tls") then inl (VBool (EnableTLS (Security c)))
      else if decide (part = "tls_cert_path") then inl (VString (TLSCertPath (Security c)))
      else if decide (part = "tls_key_path") then inl (VString (TLSKeyPath (Security c)))
      else if decide (part = "allowed_origins") then inl (VString (AllowedOrigins (Security c)))
      else inr ("unknown security config key: " +:+ part)
  | _ => inr ("invalid config key path: " +:+ key)
  end.

Fixpoint config_walk (key : string) (parts : list string) (v : value) : value + string :=
  match parts with
  | [] => inl v
  | part :: parts =>
      match config_part key part v with
      | inl v => config_walk key parts v
      | inr e => inr e
      end
  end.

Definition GetConfigValue (key : string) : value + string :=
  config_walk key (pieces (fun a => bool_decide (a = "."%char)) key) PConfig.

(** The keys that have a value. *)
Definition config_keys : list (string * value) :=
  [("server", PServer); ("database", PDatabase); ("logging", PLogging); ("security", PSecurity);
   ("server.host", VString (s_Host (Server c))); ("server.port", VInt (s_Port (Server c)));
   ("server.timeout", VDuration (Timeout (Server c)));
   ("server.read_timeout", VDuration (ReadTimeout (Server c)));
   ("server.write_timeout", VDuration (WriteTimeout (Server c)));
   ("database.driver", VString (Driver (Database c))); ("database.host", VString (d_Host (Database c)));
   ("database.port", VInt (d_Port (Database c))); ("database.username", VString (Username (Database c)));
   ("database.password", VString (Password (Database c))); ("database.name", VString (Name (Database c)));
   ("logging.level", VString (Level (Logging c))); ("logging.format", VString (Format (Logging c)));
   ("logging.output", VString (Output (Logging c)));
   ("security.enable_tls", VBool (EnableTLS (Security c)));
   ("security.tls_cert_path", VString (TLSCertPath (Security c)));
   ("security.tls_key_path", VString (TLSKeyPath (Security c)));
   ("security.allowed_origins", VString (AllowedOrigins (Security c)))].
End Keys.

(** ** Keys and values *)

Lemma join_pieces d s : join d (pieces (fun a => bool_decide (a = d)) s) = s.
Proof.
  induction s as [|a s IH]; [done|]. cbn [pieces]. case_bool_decide as Ha.
  - subst. pose proof (pieces_not_nil (fun a => bool_decide (a = d)) s). destruct (pieces _ s) eqn:He; [done|].
    change (join d ("" :: s0 :: l)) with (String d (join d (s0 :: l))). by rewrite IH.
  - pose proof (pieces_not_nil (fun a => bool_decide (a = d)) s). destruct (pieces _ s) as [|w ws]; [done|].
    destruct ws; cbn [join] in *; cbn; congruence.
Qed.

(** The value of a part of a section, or of the whole. *)
Definition leaf (v : value) : Prop :=
  match v with VString _ | VInt _ | VDuration _ | VBool _ => True | _ => False end.

Lemma config_part_leaf c key part v v' :
  config_part c key part v = inl v' -> v ≠ PConfig -> leaf v'.
Proof. destruct v; cbn; intros H Hv; try done; repeat case_decide; simplify_eq; done. Qed.

Lemma config_walk_leaf c key parts v v' : leaf v -> config_walk c key parts v = inl v' -> parts = [] /\ v' = v.
Proof. destruct parts, v; cbn; intros Hl H; simplify_eq; done. Qed.

(** The dotted keys that have a value are exactly the four sections and their eighteen fields, each
    with the value of its field; every other text is an error. *)
Lemma config_value_exact c key v : GetConfigValue c key = inl v <-> (key, v) ∈ config_keys c.
Proof.
  unfold GetConfigValue. split.
  - pose proof (join_pieces "." key) as Hj. pose proof (pieces_not_nil (fun a => bool_decide (a = "."%char)) key) as Hne.
    revert Hj Hne. generalize (pieces (fun a => bool_decide (a = "."%char)) key). intros [|p1 [|p2 [|p3 ps]]] Hj Hne H.
    + done.
    + cbn in Hj. subst p1. cbn in H. apply list_elem_of_In.
      repeat case_decide; simplify_eq; cbn; auto 30.
    + cbn in Hj. cbn [config_walk] in H. destruct (config_part c key p1 PConfig) as [v1|] eqn:H1; [|done].
      apply list_elem_of_In. cbn in H1. repeat case_decide; simplify_eq; cbn in H; repeat case_decide;
        simplify_eq; cbn; auto 30.
    + cbn [config_walk] in H. destruct (config_part c key p1 PConfig) as [v1|] eqn:H1; [|done].
      destruct (config_part c key p2 v1) as [v2|] eqn:H2; [|done].
      assert (leaf v2) as Hl.
      { eapply config_part_leaf; [exact H2|]. cbn in H1. by repeat case_decide; simplify_eq. }
      by apply (config_walk_leaf c key (p3 :: ps) v2 v) in Hl as [? _].
  - intros H%list_elem_of_In. cbn in H. repeat (destruct H as [[= <- <-]|H]; [reflexivity|]). done.
Qed.

(** ** Files *)

Section Files.
Context `{FileSystem} `{ConfigLib} `{!ConfigLaws}.

Definition marshal (f : format) (c : Config) : option bytes :=
  match f with Yaml => yaml_Marshal c | Json => json_MarshalIndent c end.
Definition unmarshal (f : format) (d : bytes) : option Config :=
  match f with Yaml => yaml_Unmarshal d | Json => json_Unmarshal d end.

Lemma unmarshal_marshal f c d : printable_config c -> marshal f c = Some d -> unmarshal f d = Some c.
Proof. destruct f; [apply yaml_round_trip|apply json_round_trip]. Qed.

(** What saving does to the files: nothing when the format is unknown or marshalling fails; otherwise
    the old contents are gone, whether or not the write succeeds. *)
Lemma SaveConfig_files c path fs :
  match format_of path ≫= (fun f => marshal f c) with
  | None => exists e, SaveConfig c path fs = (fs, Ret (Some e))
  | Some d =>
      if permitted path then
        SaveConfig c path fs =
          (<[path := (stored path d).1]> fs,
           Ret (if (stored path d).2 then None else Some "failed to write config file"))
      else SaveConfig c path fs = (fs, Ret (Some "failed to write config file"))
  end.
Proof.
  unfold SaveConfig, saveYAMLConfig, saveJSONConfig, WriteFile, open_out, write_out, prog_bind, prog_ret.
  destruct (format_of path) as [[]|]; cbn; [destruct (yaml_Marshal c) as [d|]
    |destruct (json_MarshalIndent c) as [d|]|by eauto]; cbn; [|by eauto|..|by eauto];
    (destruct (permitted path); [|done]; destruct (stored path d) as [held []]; cbn; by rewrite insert_insert_eq).
Qed.

Lemma LoadConfig_ok path f d c fs :
  format_of path = Some f -> permitted path = true -> fs !! path = Some d -> unmarshal f d = Some c ->
  LoadConfig path fs = (fs, Ret (inl c)).
Proof.
  intros Hf Hp Hd Hu. unfold LoadConfig, loadYAMLConfig, loadJSONConfig, ReadFile, open_in, prog_bind, prog_gets.
  rewrite Hf. destruct f; cbn in Hu; rewrite Hp, Hd, Hu; done.
Qed.

(** Saving a configuration whose texts are printable and loading it again, or after changes to other
    files only, gives it back, whenever saving reported no error on a file that keeps what it takes.
    Saving reports an error and changes nothing when the extension is not one of the three, in any
    case, and then loading fails, too. *)
Lemma config_save_load c path fs :
  printable_config c -> reliable path ->
  match SaveConfig c path fs with
  | (fs', Ret None) =>
      (exists d, fs' = <[path := d]> fs) /\
      forall fs'', fs'' !! path = fs' !! path -> LoadConfig path fs'' = (fs'', Ret (inl c))
  | (fs', Ret (Some _)) => fs' = fs
  | _ => False
  end /\
  (format_of path = None ->
     SaveConfig c path fs = (fs, Ret (Some "unsupported config file format")) /\
     LoadConfig path fs = (fs, Ret (inr "unsupported config file format"))).
Proof.
  intros Hc [Hp Hs]. split.
  - pose proof (SaveConfig_files c path fs) as Hsave. destruct (format_of path) as [f|] eqn:Hf; cbn in Hsave.
    + destruct (marshal f c) as [d|] eqn:Hm; cbn in Hsave; [|by destruct Hsave as [e ->]].
      rewrite Hp, Hs in Hsave. cbn in Hsave. rewrite Hsave. split; [by eauto|]. intros fs'' Hl.
      rewrite lookup_insert_eq in Hl. eapply LoadConfig_ok; [done..|]. by apply unmarshal_marshal.
    + by destruct Hsave as [e ->].
  - intros Hf. unfold SaveConfig, LoadConfig. by rewrite Hf.
Qed.
End Files.

(** ** Validation *)

(** [Validate] accepts exactly the configurations with a host and a port of the server, a driver and a
    host of the database, a level of logging, and both paths when TLS is enabled. *)
Lemma validate_exact c :
  Validate c = None <->
  s_Host (Server c) ≠ "" /\ s_Port (Server c) ≠ 0 /\ Driver (Database c) ≠ "" /\ d_Host (Database c) ≠ "" /\
  Level (Logging c) ≠ "" /\
  (EnableTLS (Security c) = true -> TLSCertPath (Security c) ≠ "" /\ TLSKeyPath (Security c) ≠ "").
Proof.
  unfold Validate. destruct (Z.eqb_spec (s_Port (Server c)) 0); repeat case_decide; try (split; [done|tauto]).
  all: destruct (EnableTLS (Security c)); cbn; [|by naive_solver].
  all: destruct (bool_decide_reflect (TLSCertPath (Security c) = "")),
         (bool_decide_reflect (TLSKeyPath (Security c) = "")); cbn; split; try done; naive_solver.
Qed.

(** The extension decides in any case of its letters, and only in the last element of the path. *)
Example format_of_paths :
  format_of "etc/db/config.YAML" = Some Yaml /\ format_of "config.yml" = Some Yaml /\
  format_of "a.json" = Some Json /\ format_of "conf.json/settings" = None /\ format_of "json" = None.
Proof. repeat split; reflexivity. Qed.

(** ** The laws can hold *)

#[local] Instance config_eq_dec : EqDecision Config.
Proof.
  assert (EqDecision ServerConfig) by solve_decision. assert (EqDecision DatabaseConfig) by solve_decision.
  assert (EqDecision LoggingConfig) by solve_decision. assert (EqDecision SecurityConfig) by solve_decision.
  solve_decision.
Defined.

Definition a_config : Config :=
  MkConfig (MkServer "localhost" 8080 30 10 10) (MkDatabase "postgres" "db" 5432 "u" "p" "main")
    (MkLogging "INFO" "json" "stdout") (MkSecurity true "cert.pem" "key.pem" "*").

(** Libraries that know one configuration. *)
#[local] Instance one_config_lib : ConfigLib := {|
  yaml_Marshal c := if decide (c = a_config) then Some ["y"%char] else None;
  yaml_Unmarshal _ := Some a_config;
  json_MarshalIndent c := if decide (c = a_config) then Some ["j"%char] else None;
  json_Unmarshal _ := Some a_config
|}.

#[local] Instance one_config_laws : ConfigLaws.
Proof. split; cbn; intros c d _ H; case_decide; by simplify_eq. Qed.

#[local] Instance all_files : FileSystem := {| permitted _ := true; stored _ d := (d, true) |}.

Lemma config_save_load_witness :
  SaveConfig a_config "conf/db.YML" ∅ = ({["conf/db.YML" := ["y"%char]]}, Ret None) /\
  LoadConfig "conf/db.YML" {["conf/db.YML" := ["y"%char]]} = ({["conf/db.YML" := ["y"%char]]}, Ret (inl a_config)).
Proof.
  assert (Hs : SaveConfig a_config "conf/db.YML" ∅ = ({["conf/db.YML" := ["y"%char]]}, Ret None)) by reflexivity.
  split; [exact Hs|].
  destruct (config_save_load a_config "conf/db.YML" ∅) as [H _];
    [repeat constructor|split; [reflexivity|intros data; reflexivity]|].
  rewrite Hs in H. destruct H as [_ H]. by apply H.
Defined.
