(* ===== verification/Alerting.v ===== *)
(** * Alerts ([management_tools/monitoring/alerting.go])

    Thresholds per type of metric, and the alerts that collected metrics cause.  [%.2f] and the sending
    of mail are parameters. *)

From S2P Require Import Prelude Text Floats.
Local Open Scope Z_scope.

Definition MetricTypeCPUUsage : string := "CPU_USAGE".
Definition MetricTypeMemoryUsage : string := "MEMORY_USAGE".
Definition MetricTypeDiskSpace : string := "DISK_SPACE".
Definition MetricTypeResponseTime : string := "RESPONSE_TIME".

Definition AlertLevelWarning : string := "WARNING".
Definition AlertLevelCritical : string := "CRITICAL".

Record Alert : Type := MkAlert { a_Metric : string; a_Level : string; a_Message : string; a_Timestamp : Z }.
Record Threshold : Type := MkThreshold { Warning : double; Critical : double }.
Record Metric : Type := MkMetric { m_Type : string; m_Value : double; m_Timestamp : Z }.
Record EmailConfig : Type := MkEmail {
  SMTPServer : string; Port : Z; e_Username : string; e_Password : string; From_ : string; To : list string
}.

(** [mails] are the messages handed to [smtp.SendMail], with the address of the server. *)
Record AlertingSystem : Type := MkAlerting {
  thresholds : gmap string Threshold; alerts : list Alert; emailConfig : EmailConfig;
  mails : list (string * string)
}.

Definition NewAlertingSystem (emailConfig : EmailConfig) : AlertingSystem :=
  MkAlerting
    (<[MetricTypeCPUUsage := MkThreshold (d_of_Z 70) (d_of_Z 90)]>
     (<[MetricTypeMemoryUsage := MkThreshold (d_of_Z 75) (d_of_Z 95)]>
      (<[MetricTypeDiskSpace := MkThreshold (d_of_Z 80) (d_of_Z 95)]>
       (<[MetricTypeResponseTime := MkThreshold (d_of_Z 200) (d_of_Z 500)]> ∅))))
    [] emailConfig [].

Section Formats.
(** [%.2f] of a number, [%s] of a list of texts, and a time as [time.RFC822]. *)
Context (fmt2 : double -> string) (fmt_list : list string -> string) (rfc822 : Z -> string).

(** [value >= threshold] is false when one of them is NaN. *)
Definition evaluateThresholds (metric : Metric) (threshold : Threshold) : option Alert :=
  if fle (Critical threshold) (m_Value metric) then
    Some (MkAlert (m_Type metric) AlertLevelCritical
      (m_Type metric +:+ " has reached a critical value of " +:+ fmt2 (m_Value metric)) (m_Timestamp metric))
  else if fle (Warning threshold) (m_Value metric) then
    Some (MkAlert (m_Type metric) AlertLevelWarning
      (m_Type metric +:+ " has reached a warning value of " +:+ fmt2 (m_Value metric)) (m_Timestamp metric))
  else None.

Definition crlf : string := String (Ascii.ascii_of_nat 13) (String nl "").

(** Whether the mail goes out is only logged. *)
Definition sendAlert (alert : Alert) (s : AlertingSystem) : AlertingSystem :=
  let e := emailConfig s in
  let message :=
    "To: " +:+ fmt_list (To e) +:+ crlf +:+ "Subject: " +:+ a_Level alert +:+ " Alert: " +:+ a_Metric alert +:+ crlf
    +:+ crlf +:+ a_Level alert +:+ " occurred at " +:+ rfc822 (a_Timestamp alert) +:+ " with the message: "
    +:+ a_Message alert +:+ crlf in
  MkAlerting (thresholds s) (alerts s) e (mails s ++ [(SMTPServer e +:+ ":" +:+ to_string (Port e), message)]).

Definition CollectMetric (metric : Metric) (s : AlertingSystem) : AlertingSystem :=
  match thresholds s !! m_Type metric with
  | None => s
  | Some threshold =>
      match evaluateThresholds metric threshold with
      | None => s
      | Some alert =>
          sendAlert alert (MkAlerting (thresholds s) (alerts s ++ [alert]) (emailConfig s) (mails s))
      end
  end.

Definition GetRecentAlerts (s : AlertingSystem) : list Alert := alerts s.

Definition ConfigureThresholds (metricType : string) (warning critical : double) (s : AlertingSystem) :
    AlertingSystem :=
  MkAlerting (<[metricType := MkThreshold warning critical]> (thresholds s)) (alerts s) (emailConfig s) (mails s).

(** ** Any calls *)

Inductive call : Type :=
| Collect (metric : Metric)
| Configure (metricType : string) (warning critical : double).

Definition run_call (c : call) (s : AlertingSystem) : AlertingSystem :=
  match c with
  | Collect m => CollectMetric m s
  | Configure t w c => ConfigureThresholds t w c s
  end.

Definition run_calls (cs : list call) (s : AlertingSystem) : AlertingSystem := foldl (fun s c => run_call c s) s cs.

(** The thresholds in force after some calls. *)
Definition in_force (cs : list call) (s : AlertingSystem) (type : string) : option Threshold :=
  foldl (fun th c => match c with
                     | Configure t w cr => if decide (t = type) then Some (MkThreshold w cr) else th
                     | Collect _ => th
                     end) (thresholds s !! type) cs.

(** The alert of a metric that is collected after [cs]. *)
Definition alert_after (cs : list call) (s : AlertingSystem) (m : Metric) : option Alert :=
  in_force cs s (m_Type m) ≫= evaluateThresholds m.

Fixpoint alerts_of (before cs : list call) (s : AlertingSystem) : list Alert :=
  match cs with
  | [] => []
  | Collect m :: cs' => option_list (alert_after before s m) ++ alerts_of (before ++ [Collect m]) cs' s
  | c :: cs' => alerts_of (before ++ [c]) cs' s
  end.

Lemma run_call_thresholds c s type :
  thresholds (run_call c s) !! type = in_force [c] s type.
Proof.
  destruct c as [m|t w cr]; cbn.
  - unfold CollectMetric. destruct (thresholds s !! m_Type m); [|done].
    by destruct (evaluateThresholds m _).
  - case_decide as Ht; [subst; by rewrite lookup_insert_eq|by rewrite lookup_insert_ne].
Qed.

Lemma run_calls_thresholds cs s type : thresholds (run_calls cs s) !! type = in_force cs s type.
Proof.
  induction cs as [|c cs IH] using rev_ind; [done|]. unfold run_calls, in_force in *.
  rewrite !foldl_app. cbn. by rewrite run_call_thresholds, <-IH.
Qed.

Lemma run_call_alerts c s :
  alerts (run_call c s) =
  alerts s ++ match c with Collect m => option_list (thresholds s !! m_Type m ≫= evaluateThresholds m) | _ => [] end.
Proof.
  destruct c as [m|t w cr]; cbn; [|by rewrite app_nil_r]. unfold CollectMetric.
  destruct (thresholds s !! m_Type m) as [th|]; cbn; [|by rewrite app_nil_r].
  destruct (evaluateThresholds m th); cbn; [done|by rewrite app_nil_r].
Qed.

Lemma run_calls_alerts_from before cs s0 s :
  (forall type, thresholds s !! type = in_force before s0 type) ->
  alerts (run_calls cs s) = alerts s ++ alerts_of before cs s0.
Proof.
  revert before s. induction cs as [|c cs IH]; intros before s Ht; [by rewrite app_nil_r|].
  unfold run_calls in *. cbn [foldl]. rewrite (IH (before ++ [c])).
  - rewrite run_call_alerts, <-app_assoc. f_equal. unfold alert_after.
    destruct c; cbn; [|done]. by rewrite Ht.
  - intros type. rewrite run_call_thresholds. unfold in_force in *. rewrite foldl_app, <-Ht. done.
Qed.

(** The alerts are kept in the order of their metrics and none is ever dropped or changed: each collected
    metric adds the alert that the thresholds configured last for its type demand, and each alert was
    sent once. *)
Lemma alerting_exact email cs :
  let s := run_calls cs (NewAlertingSystem email) in
  GetRecentAlerts s = alerts_of [] cs (NewAlertingSystem email) /\
  length (mails s) = length (GetRecentAlerts s).
Proof.
  split.
  - unfold GetRecentAlerts. by rewrite (run_calls_alerts_from [] cs (NewAlertingSystem email)).
  - unfold GetRecentAlerts. induction cs as [|c cs IH] using rev_ind; [done|]. unfold run_calls in *.
    rewrite foldl_app. cbn. generalize dependent (foldl (fun s c => run_call c s) (NewAlertingSystem email) cs).
    intros s IH. destruct c; cbn; [|done]. unfold CollectMetric.
    destruct (thresholds s !! m_Type metric) as [th|]; [|done].
    destruct (evaluateThresholds metric th); [|done]. cbn. by rewrite !length_app, IH.
Qed.

(** The level of an alert: critical from the critical threshold on, a warning between the two; a value
    that is NaN causes none, and neither does a NaN threshold. *)
Lemma alert_level m th :
  match evaluateThresholds m th with
  | Some a =>
      not_nan (m_Value m) /\ a_Metric a = m_Type m /\
      (a_Level a = AlertLevelCritical /\ fle (Critical th) (m_Value m) = true \/
       a_Level a = AlertLevelWarning /\ fle (Critical th) (m_Value m) = false /\ fle (Warning th) (m_Value m) = true)
  | None => fle (Critical th) (m_Value m) = false /\ fle (Warning th) (m_Value m) = false
  end.
Proof.
  assert (Hn : forall x, fle x S754_nan = true -> False) by (by intros []).
  unfold evaluateThresholds. destruct (fle (Critical th) (m_Value m)) eqn:Hc; [|destruct (fle (Warning th) (m_Value m)) eqn:Hw].
  - split; [|eauto]. intros H. rewrite H in Hc. by apply Hn in Hc.
  - split; [|eauto]. intros H. rewrite H in Hw. by apply Hn in Hw.
  - done.
Qed.
End Formats.
