(* ===== verification/MetricsCollector.v ===== *)
(** * The metrics collector ([management_tools/monitoring/metrics_collector.go])

    The window of the last samples, its goroutines, and its files.  The sensors are arguments; json is a
    class of functions with a law. *)

From S2P Require Import Prelude Text Files Floats.
Local Open Scope Z_scope.
Local Open Scope prog_scope.

(** The counters of a network interface are those of the library, taken as they come. *)
Record MetricsData : Type := MkMetrics {
  CPUUsage : list double; MemoryUsage : Z; DiskUsage : Z; NetworkStats : list (list Z); Timestamp : Z
}.

Record MetricsCollector : Type := MkCollector {
  data : list MetricsData; interval : Z; dataLimit : Z; stopSignal : bool (* closed *)
}.

Definition NewMetricsCollector (interval dataLimit : Z) : MetricsCollector :=
  MkCollector [] interval dataLimit false.

Definition set_data (d : list MetricsData) (mc : MetricsCollector) : MetricsCollector :=
  MkCollector d (interval mc) (dataLimit mc) (stopSignal mc).

(** ** Collecting *)

(** What the four sensors answer, or that one fails, and the time. *)
Record sensors : Type := MkSensors {
  cpu_Percent : option (list double); VirtualMemory : option Z; disk_Usage : option Z;
  IOCounters : option (list (list Z)); Now : Z
}.

Definition collectCPUUsage (r : sensors) : option (list double) := cpu_Percent r.
Definition collectMemoryUsage (r : sensors) : option Z := VirtualMemory r.
Definition collectDiskUsage (r : sensors) : option Z := disk_Usage r.
Definition collectNetworkStats (r : sensors) : option (list (list Z)) := IOCounters r.

(** The sample, when all sensors answer. *)
Definition sample (r : sensors) : option MetricsData :=
  cpu ← collectCPUUsage r; m ← collectMemoryUsage r; d ← collectDiskUsage r; n ← collectNetworkStats r;
  Some (MkMetrics cpu m d n (Now r)).

(** [mc.data[1:]] of an empty slice is out of range. *)
Definition drop_oldest (d : list MetricsData) : outcome (list MetricsData) :=
  match d with
  | [] => Throw (runtime_error "slice bounds out of range")
  | _ :: d => Ret d
  end.

Definition collect (r : sensors) (mc : MetricsCollector) : outcome MetricsCollector :=
  match sample r with
  | None => Ret mc
  | Some x =>
      d ← (if dataLimit mc <=? Z.of_nat (length (data mc)) then drop_oldest (data mc) else Ret (data mc));
      Ret (set_data (d ++ [x]) mc)
  end.

(** [close] of a closed channel panics. *)
Definition Stop (mc : MetricsCollector) : outcome MetricsCollector :=
  if stopSignal mc then Throw (runtime_error "close of closed channel")
  else Ret (MkCollector (data mc) (interval mc) (dataLimit mc) true).

(** ** Files and HTTP *)

(** [json.Marshal], and [json.Unmarshal] into what was there, which it may change before it fails. *)
Class MetricsJson : Type := {
  Marshal : list MetricsData -> option bytes;
  Unmarshal : bytes -> list MetricsData -> list MetricsData * bool
}.
Class MetricsJsonLaws `{MetricsJson} : Prop :=
  unmarshal_marshal : forall d b old, Marshal d = Some b -> Unmarshal b old = (d, true).

Section Io.
Context `{FileSystem} `{MetricsJson}.

Definition ServeMetrics (mc : MetricsCollector) : Z * (bytes + string) :=
  match Marshal (data mc) with
  | None => (500, inr "Failed to serialize data")
  | Some b => (200, inl b)
  end.

(** Errors are their texts up to the error that they wrap. *)
Definition SaveMetricsToFile (path : string) (mc : MetricsCollector) : prog Files (option string) :=
  match Marshal (data mc) with
  | None => prog_ret (Some "failed to serialize data")
  | Some b =>
      let! ok := open_out path in
      let! ok := if ok : bool then write_out path b else prog_ret false in
      prog_ret (if ok : bool then None else Some "failed to write file")
  end.

Definition LoadMetricsFromFile (path : string) (mc : MetricsCollector) :
    prog Files (MetricsCollector * option string) :=
  let! d := open_in path in
  match d with
  | None => prog_ret (mc, Some "failed to read file")
  | Some b =>
      let '(d, ok) := Unmarshal b (data mc) in
      prog_ret (set_data d mc, if ok : bool then None else Some "failed to deserialize data")
  end.
End Io.

(** ** The window *)

(** The last [n] elements. *)
Definition last_n {A : Type} (n : nat) (l : list A) : list A := drop (length l - n) l.

Lemma last_n_snoc {A : Type} (n : nat) (l : list A) x :
  (0 < n)%nat ->
  last_n n (l ++ [x]) = (if (n <=? length (last_n n l))%nat then drop 1 (last_n n l) else last_n n l) ++ [x].
Proof.
  intros Hn. unfold last_n. rewrite length_app, length_drop. cbn [length].
  destruct (Nat.leb_spec n (length l - (length l - n))).
  - rewrite drop_drop, drop_app_le by lia. f_equal. f_equal. lia.
  - replace (length l + 1 - n)%nat with 0%nat by lia. by replace (length l - n)%nat with 0%nat by lia.
Qed.

Definition over_limit : exn := runtime_error "slice bounds out of range".

Lemma collect_window r mc (l : list MetricsData) :
  data mc = last_n (Z.to_nat (dataLimit mc)) l ->
  match collect r mc with
  | Ret mc' =>
      data mc' = last_n (Z.to_nat (dataLimit mc)) (l ++ option_list (sample r)) /\
      (sample r = None \/ 0 < dataLimit mc) /\
      dataLimit mc' = dataLimit mc /\ stopSignal mc' = stopSignal mc
  | Throw e => dataLimit mc <= 0 /\ sample r ≠ None /\ e = over_limit
  | _ => False
  end.
Proof.
  intros Hd. unfold collect. destruct (sample r) as [x|]; [change (option_list (Some x)) with [x]|cbn; rewrite app_nil_r; auto].
  destruct (Z.leb_spec (dataLimit mc) 0) as [Hl|Hl].
  - replace (Z.to_nat (dataLimit mc)) with 0%nat in Hd by lia. unfold last_n in Hd.
    rewrite Nat.sub_0_r, drop_all in Hd. rewrite Hd. cbn [length].
    destruct (Z.leb_spec (dataLimit mc) (Z.of_nat 0)); [|lia]. cbn. eauto.
  - rewrite last_n_snoc by lia. rewrite <-Hd. destruct (Nat.leb_spec (Z.to_nat (dataLimit mc)) (length (data mc)));
      destruct (Z.leb_spec (dataLimit mc) (Z.of_nat (length (data mc)))); try lia; [|by cbn; auto].
    destruct (data mc) as [|y d] eqn:He; cbn in *; [lia|]. auto.
Qed.

(** ** Goroutines *)

(** What happens: [Start] makes a goroutine, a goroutine takes a sample at a tick, [Stop] closes the
    channel, a goroutine sees that and returns.  A panic ends the process. *)
Inductive event : Type := EStart | ETick (r : sensors) | EStop | EExit.

Record system : Type := MkSystem { mc : MetricsCollector; goroutines : nat; panic : option exn }.

Inductive happens : event -> system -> system -> Prop :=
| h_start m g : happens EStart (MkSystem m g None) (MkSystem m (S g) None)
| h_tick r m g m' : collect r m = Ret m' -> happens (ETick r) (MkSystem m (S g) None) (MkSystem m' (S g) None)
| h_tick_panics r m g e :
    collect r m = Throw e -> happens (ETick r) (MkSystem m (S g) None) (MkSystem m (S g) (Some e))
| h_stop m g m' : Stop m = Ret m' -> happens EStop (MkSystem m g None) (MkSystem m' g None)
| h_stop_panics m g e : Stop m = Throw e -> happens EStop (MkSystem m g None) (MkSystem m g (Some e))
| h_exit m g : stopSignal m = true -> happens EExit (MkSystem m (S g) None) (MkSystem m g None).

Inductive trace : list event -> system -> system -> Prop :=
| tr_nil s : trace [] s s
| tr_snoc es e s1 s2 s3 : trace es s1 s2 -> happens e s2 s3 -> trace (es ++ [e]) s1 s3.

Definition started (interval limit : Z) : system := MkSystem (NewMetricsCollector interval limit) 0 None.

Definition taken (es : list event) : list MetricsData :=
  omap (fun e => match e with ETick r => sample r | _ => None end) es.
Definition stops (es : list event) : nat := sum_list_with (fun e => match e with EStop => 1 | _ => 0 end)%nat es.

Record window_inv (limit : Z) (es : list event) (s : system) : Prop := {
  wi_limit : dataLimit (mc s) = limit;
  wi_data : panic s = None -> data (mc s) = last_n (Z.to_nat limit) (taken es) /\ (limit <= 0 -> taken es = []);
  wi_stop : panic s = None -> stops es = if stopSignal (mc s) then 1%nat else 0%nat;
  wi_panic : forall e, panic s = Some e -> limit <= 0 /\ e = over_limit \/ (1 < stops es)%nat
}.

Lemma taken_snoc es e :
  taken (es ++ [e]) = taken es ++ match e with ETick r => option_list (sample r) | _ => [] end.
Proof. unfold taken. rewrite omap_app. f_equal. destruct e as [|r| |]; cbn; [done| |done..]. by destruct (sample r). Qed.

Lemma stops_snoc es e : stops (es ++ [e]) = (stops es + match e with EStop => 1 | _ => 0 end)%nat.
Proof. unfold stops. rewrite sum_list_with_app. cbn. lia. Qed.

Lemma window_step limit es e s s' : window_inv limit es s -> happens e s s' -> window_inv limit (es ++ [e]) s'.
Proof.
  intros [Hl Hd Hs Hp] Hh.
  destruct Hh as [m g|r m g m' Hc|r m g ex Hc|m g m' Hc|m g ex Hc|m g Hc]; cbn in *;
    destruct (Hd eq_refl) as [Hd1 Hd2]; specialize (Hs eq_refl); clear Hd Hp;
    split; cbn [mc panic]; rewrite ?taken_snoc, ?stops_snoc, ?app_nil_r, ?Nat.add_0_r; try done.
  - subst limit. pose proof (collect_window r m _ Hd1) as Hw. rewrite Hc in Hw. tauto.
  - subst limit. pose proof (collect_window r m _ Hd1) as Hw. rewrite Hc in Hw.
    destruct Hw as (? & [Hn|?] & _); (split; [done|intros Hneg]); [|lia]. by rewrite Hn, Hd2.
  - subst limit. pose proof (collect_window r m _ Hd1) as Hw. rewrite Hc in Hw.
    destruct Hw as (_ & _ & _ & ->). done.
  - intros e [= <-]. left. subst limit. pose proof (collect_window r m _ Hd1) as Hw. rewrite Hc in Hw. tauto.
  - unfold Stop in Hc. destruct (stopSignal m); simplify_eq. done.
  - unfold Stop in Hc. destruct (stopSignal m); simplify_eq. done.
  - unfold Stop in Hc. destruct (stopSignal m); simplify_eq. cbn. lia.
  - intros e _. right. unfold Stop in Hc. destruct (stopSignal m); simplify_eq. lia.
Qed.

Lemma window_trace interval limit es s : trace es (started interval limit) s -> window_inv limit es s.
Proof.
  intros Ht. remember (started interval limit) as s0 eqn:H0. induction Ht as [|es e s1 s2 s3 _ IH Hh]; subst.
  - split; cbn; done.
  - eapply window_step; eauto.
Qed.

(** However its goroutines, ticks and calls interleave, a collector that has not panicked holds
    exactly the last samples, in the order in which they were taken, as many as its limit says; rounds
    in which a sensor fails leave no trace.  It panics only when [Stop] is called twice, or at the first
    sample when the limit is not positive.  After [Stop] every goroutine can return, and none can
    before. *)
Lemma metrics_window interval limit es s :
  trace es (started interval limit) s ->
  (panic s = None -> data (mc s) = last_n (Z.to_nat limit) (taken es) /\ (limit <= 0 -> taken es = [])) /\
  (forall e, panic s = Some e -> limit <= 0 /\ e = over_limit \/ (1 < stops es)%nat) /\
  (panic s = None -> (0 < goroutines s)%nat -> (exists s', happens EExit s s') <-> (0 < stops es)%nat).
Proof.
  intros Ht. destruct (window_trace _ _ _ _ Ht) as [_ Hd Hs Hp]. split; [done|]. split; [done|].
  intros Hn Hg. specialize (Hs Hn). destruct s as [m [|g] [e|]]; cbn in *; try done; [lia|]. split.
  - intros [s' Hh]. inversion Hh as [| | | | |? ? Hst]; subst. rewrite Hst in Hs. lia.
  - intros H. destruct (stopSignal m) eqn:Hst; [|lia]. eexists. by apply h_exit.
Qed.

(** A sample by the number of its time. *)
Definition a_sample (t : Z) : MetricsData := MkMetrics [] 512 2048 [] t.
Definition a_reading (t : Z) : sensors := MkSensors (Some []) (Some 512) (Some 2048) (Some []) t.

(** A limit of two: the first of three samples is gone. *)
Lemma metrics_window_witness :
  exists s, trace [EStart; ETick (a_reading 1); ETick (a_reading 2); EStop; ETick (a_reading 3); EExit]
    (started 10 2) s /\ data (mc s) = [a_sample 2; a_sample 3].
Proof.
  pose (es := [EStart; ETick (a_reading 1); ETick (a_reading 2); EStop; ETick (a_reading 3); EExit]).
  pose (s := MkSystem (MkCollector [a_sample 2; a_sample 3] 10 2 true) 0 None).
  assert (Ht : trace es (started 10 2) s).
  { apply (tr_snoc [EStart; ETick (a_reading 1); ETick (a_reading 2); EStop; ETick (a_reading 3)] EExit _
      (MkSystem (MkCollector [a_sample 2; a_sample 3] 10 2 true) 1 None)); [|by constructor].
    apply (tr_snoc [EStart; ETick (a_reading 1); ETick (a_reading 2); EStop] (ETick (a_reading 3)) _
      (MkSystem (MkCollector [a_sample 1; a_sample 2] 10 2 true) 1 None)); [|by constructor].
    apply (tr_snoc [EStart; ETick (a_reading 1); ETick (a_reading 2)] EStop _
      (MkSystem (MkCollector [a_sample 1; a_sample 2] 10 2 false) 1 None)); [|by constructor].
    apply (tr_snoc [EStart; ETick (a_reading 1)] (ETick (a_reading 2)) _
      (MkSystem (MkCollector [a_sample 1] 10 2 false) 1 None)); [|by constructor].
    apply (tr_snoc [EStart] (ETick (a_reading 1)) _
      (MkSystem (MkCollector [] 10 2 false) 1 None)); [|by constructor].
    apply (tr_snoc [] EStart _ (started 10 2)); constructor. }
  exists s. split; [exact Ht|].
  destruct (metrics_window 10 2 es s Ht) as [Hd _]. destruct (Hd eq_refl) as [-> _]. reflexivity.
Defined.

(** ** Files *)

Section Saving.
Context `{FileSystem} `{MetricsJson} `{!MetricsJsonLaws}.

(** What was saved on a file that keeps what it takes is loaded again, into any collector, whatever its
    limit. *)
Lemma metrics_save_load path mc mc' fs :
  reliable path -> Marshal (data mc) ≠ None ->
  exists fs', SaveMetricsToFile path mc fs = (fs', Ret None) /\
    LoadMetricsFromFile path mc' fs' = (fs', Ret (set_data (data mc) mc', None)).
Proof.
  intros [Hp Hs] Hm. unfold SaveMetricsToFile, LoadMetricsFromFile, open_out, write_out, open_in, prog_bind,
    prog_ret, prog_gets. destruct (Marshal (data mc)) as [b|] eqn:Hb; [|done]. rewrite Hp, Hs.
  rewrite insert_insert_eq. eexists. split; [done|]. rewrite lookup_insert_eq.
  by rewrite (unmarshal_marshal _ _ _ Hb).
Qed.
End Saving.

(** A file with more samples than the limit leaves a collector that stays above its limit. *)
Lemma collect_never_shrinks r mc mc' : collect r mc = Ret mc' -> (length (data mc) <= length (data mc'))%nat.
Proof.
  unfold collect. destruct (sample r); [|by intros [= <-]]. destruct (dataLimit mc <=? _).
  - destruct (data mc) as [|y d]; cbn; [done|]. intros [= <-]. cbn. rewrite length_app. cbn. lia.
  - intros [= <-]. cbn. rewrite length_app. cbn. lia.
Qed.

(** ** The law can hold *)

(** A library that writes empty windows only. *)
#[local] Instance empty_json : MetricsJson := {|
  Marshal d := match d with [] => Some [nul] | _ => None end;
  Unmarshal _ _ := ([], true)
|}.

#[local] Instance empty_json_laws : MetricsJsonLaws.
Proof. intros [|x d] b old H; by simplify_eq/=. Qed.

#[local] Instance any_file : FileSystem := {| permitted _ := true; stored _ d := (d, true) |}.

Lemma metrics_save_load_witness :
  exists fs', SaveMetricsToFile "metrics.json" (NewMetricsCollector 10 100) ∅ = (fs', Ret None) /\
    LoadMetricsFromFile "metrics.json" (MkCollector [a_sample 1] 10 100 true) fs' =
      (fs', Ret (MkCollector [] 10 100 true, None)).
Proof.
  apply (metrics_save_load "metrics.json" (NewMetricsCollector 10 100) (MkCollector [a_sample 1] 10 100 true) ∅);
    [|done]. split; [reflexivity|intros d; reflexivity].
Defined.
