(* ===== verification/AdminConsole.v ===== *)
(** * The admin console ([management_tools/admin_console.go])

    The status of the database, the users and the metrics, as the handlers of the console see and change
    them under one mutex.  A response is written line by line; the order in which Go iterates over a map
    is an argument.  Functions that only log and wait are not modelled. *)

From S2P Require Import Prelude Text Url.
From Stdlib Require Import Ascii.
Local Open Scope Z_scope.

#[local] Arguments String.append !_ _ / : simpl nomatch.

(** [users] maps names to [true] throughout; [exited] is set by [os.Exit]. *)
Record Console : Type := MkConsole {
  dbStatus : string; users : gmap string bool; metrics : gmap string string; exited : option Z
}.

(** The variables of the package at the start of the program. *)
Definition console_start : Console :=
  MkConsole "" {["admin" := true]}
    (<["uptime" := "0s"]> (<["diskUsage" := "0GB"]> (<["memoryUsage" := "0MB"]> (<["cpuUsage" := "0%"]>
       (<["activeUsers" := "0"]> (<["queriesPerSec" := "0"]> ∅)))))) None.

Definition initializeConsole (c : Console) : Console := MkConsole "Running" (users c) (metrics c) (exited c).

Record Response : Type := MkResponse { status : Z; body : string }.

Definition line (s : string) : string := s +:+ String nl "".

Definition statusHandler (c : Console) : Response := MkResponse 200 (line ("Database Status: " +:+ dbStatus c)).

(** [entries] is the map in the order of the iteration. *)
Definition metricsHandler (entries : list (string * string)) : Response :=
  MkResponse 200 (line "System Metrics:" +:+
    foldr (fun kv s => line (kv.1 +:+ ": " +:+ kv.2) +:+ s) "" entries).

Definition list_users (names : list string) : string :=
  line "Current Users:" +:+ foldr (fun u s => line ("- " +:+ u) +:+ s) "" names.

(** [query] is the query of the URL, [names] the users in the order of the iteration. *)
Definition userHandler (method query : string) (names : list string) (c : Console) : Console * Response :=
  if decide (method = "GET") then (c, MkResponse 200 (list_users names))
  else if decide (method = "POST") then
    let username := query_get "username" query in
    if decide (username = "") then (c, MkResponse 200 (line "Error: Username is required"))
    else (MkConsole (dbStatus c) (<[username := true]> (users c)) (metrics c) (exited c),
          MkResponse 200 (line ("User " +:+ username +:+ " added")))
  else if decide (method = "DELETE") then
    let username := query_get "username" query in
    if decide (username = "") then (c, MkResponse 200 (line "Error: Username is required"))
    else (MkConsole (dbStatus c) (delete username (users c)) (metrics c) (exited c),
          MkResponse 200 (line ("User " +:+ username +:+ " deleted")))
  else (c, MkResponse 405 (line "Method not allowed")).

(** The process ends before the mutex is released; the response may not have been sent by then. *)
Definition shutdownHandler (c : Console) : Console * Response :=
  (MkConsole "Shutting Down" (users c) (metrics c) (Some 0), MkResponse 200 (line "Initiating Shutdown...")).

(** [uptime] is the text of a duration of ten hours less the time between two readings of the clock. *)
Definition updateMetrics (uptime : string) (c : Console) : Console :=
  MkConsole (dbStatus c) (users c)
    (<["queriesPerSec" := "100"]> (<["activeUsers" := "5"]> (<["cpuUsage" := "12%"]>
       (<["memoryUsage" := "2048MB"]> (<["diskUsage" := "100GB"]> (<["uptime" := uptime]> (metrics c)))))))
    (exited c).

Definition listBackups : Response :=
  MkResponse 200 (line "Available backups:" +:+ line "- backup_2024_08_01" +:+ line "- backup_2024_08_02").

(** ** Requests *)

(** What reaches the console: a request with its method, path and query, or a round of
    [monitorHealth]. *)
Inductive input : Type :=
| Request (method path query : string)
| Monitor (uptime : string).

(** The routes of [StartAdminConsole]; any other path is not found.  Nothing is served after the end of
    the process.  The orders of the maps are arguments. *)
Definition serve (names : list string) (entries : list (string * string)) (i : input) (c : Console) :
    Console * option Response :=
  match exited c with
  | Some _ => (c, None)
  | None =>
      match i with
      | Monitor uptime => (updateMetrics uptime c, None)
      | Request method path query =>
          if decide (path = "/status") then (c, Some (statusHandler c))
          else if decide (path = "/metrics") then (c, Some (metricsHandler entries))
          else if decide (path = "/users") then
            let '(c', r) := userHandler method query names c in (c', Some r)
          else if decide (path = "/shutdown") then let '(c', r) := shutdownHandler c in (c', Some r)
          else (c, Some (MkResponse 404 (line "404 page not found")))
      end
  end.

Inductive served : Console -> list input -> list (option Response) -> Console -> Prop :=
| sv_nil c : served c [] [] c
| sv_cons c i is_ names entries c' r rs c'' :
    names ≡ₚ (map_to_list (users c)).*1 -> entries ≡ₚ map_to_list (metrics c) ->
    serve names entries i c = (c', r) -> served c' is_ rs c'' ->
    served c (i :: is_) (r :: rs) c''.

(** ** The users *)

(** Whether a user is there after the inputs, when the process does not end. *)
Definition user_after (u : string) (there : bool) (i : input) : bool :=
  match i with
  | Request m p q =>
      if decide (p = "/users" /\ query_get "username" q = u /\ u ≠ "") then
        if decide (m = "POST") then true else if decide (m = "DELETE") then false else there
      else there
  | Monitor _ => there
  end.

(** The inputs up to the first request to shut down. *)
Fixpoint until_shutdown (is_ : list input) : list input :=
  match is_ with
  | [] => []
  | Request m p q :: rest => if decide (p = "/shutdown") then [] else Request m p q :: until_shutdown rest
  | i :: rest => i :: until_shutdown rest
  end.

Definition holds (c : Console) (u : string) : bool := bool_decide (is_Some (users c !! u)).

Lemma userHandler_users m q names c u :
  holds (userHandler m q names c).1 u = user_after u (holds c u) (Request m "/users" q).
Proof.
  unfold userHandler, holds. cbn.
  destruct (decide (m = "GET")) as [->|]; cbn; [by repeat case_decide|].
  destruct (decide (m = "POST")) as [->|]; cbn.
  - destruct (decide (query_get "username" q = "")) as [He|Hne]; cbn.
    + rewrite decide_False; [done|]. rewrite He. naive_solver.
    + destruct (decide (query_get "username" q = u)) as [<-|Hu].
      * rewrite lookup_insert_eq, decide_True by done. by rewrite bool_decide_eq_true_2.
      * rewrite lookup_insert_ne by done. rewrite decide_False by naive_solver. done.
  - destruct (decide (m = "DELETE")) as [->|]; cbn; [|by repeat case_decide].
    destruct (decide (query_get "username" q = "")) as [He|Hne]; cbn.
    + rewrite decide_False; [done|]. rewrite He. naive_solver.
    + destruct (decide (query_get "username" q = u)) as [<-|Hu].
      * rewrite lookup_delete_eq, decide_True by done. by rewrite bool_decide_eq_false_2 by (by intros []).
      * rewrite lookup_delete_ne by done. rewrite decide_False by naive_solver. done.
Qed.

Lemma serve_users names entries i c c' r u :
  exited c = None -> serve names entries i c = (c', r) ->
  match i with
  | Request _ p _ =>
      if decide (p = "/shutdown") then exited c' = Some 0 /\ users c' = users c
      else exited c' = None /\ holds c' u = user_after u (holds c u) i
  | Monitor _ => exited c' = None /\ holds c' u = holds c u
  end.
Proof.
  intros He. unfold serve. rewrite He. destruct i as [m p q|up]; [|by intros [= <- <-]].
  intros H. repeat case_decide; subst; simplify_eq; try done.
  - destruct (userHandler m q names c) as [c1 r1] eqn:Hh. simplify_eq.
    assert (c' = (userHandler m q names c).1) as -> by (by rewrite Hh).
    split; [|apply userHandler_users]. unfold userHandler. by repeat case_decide.
  - unfold shutdownHandler in H. by simplify_eq.
  - split; [done|]. unfold user_after. rewrite decide_False; [done|]. naive_solver.
Qed.

Lemma served_exited c is_ rs c' e : served c is_ rs c' -> exited c = Some e -> c' = c /\ Forall (eq None) rs.
Proof.
  induction 1 as [|c i is_ names entries c1 r rs c' _ _ Hs _ IH]; intros He; [done|].
  unfold serve in Hs. rewrite He in Hs. simplify_eq. destruct (IH He). auto.
Qed.

Definition asks_shutdown (i : input) : bool :=
  match i with Request _ p _ => bool_decide (p = "/shutdown") | Monitor _ => false end.

(** A user is there exactly when the last request before the shutdown that names it added it, or when
    it is [admin] and no request has removed it; [admin] can be removed like any other.  The process has
    ended exactly when some request asked for it, with any method, and nothing is answered after it. *)
Lemma admin_console_users c is_ rs c' :
  served c is_ rs c' -> exited c = None ->
  (forall u, holds c' u = foldl (user_after u) (holds c u) (until_shutdown is_)) /\
  (exited c' = if existsb asks_shutdown is_ then Some 0 else None).
Proof.
  induction 1 as [|c i is_ names entries c1 r rs c' _ _ Hs Hrest IH]; intros He; [done|].
  assert (Hu := fun u => serve_users _ _ _ _ _ _ u He Hs). destruct i as [m p q|up].
  - cbn [until_shutdown existsb asks_shutdown]. case_decide as Hp.
    + rewrite bool_decide_eq_true_2 by done. destruct (Hu "") as [He1 Hus].
      destruct (served_exited _ _ _ _ _ Hrest He1) as [-> _]. cbn. unfold holds. by rewrite Hus.
    + rewrite bool_decide_eq_false_2 by done. destruct (Hu "") as [He1 _]. destruct (IH He1) as [Hf ->].
      split; [|done]. intros u. rewrite Hf. destruct (Hu u) as [_ ->]. done.
  - destruct (Hu "") as [He1 _]. destruct (IH He1) as [Hf ->]. split; [|done].
    intros u. rewrite Hf. destruct (Hu u) as [_ ->]. done.
Qed.

(** The metrics never come from the system: each value is the one of the start of the program or a
    constant of [updateMetrics]. *)
Definition figures (k : string) : list string :=
  if decide (k = "diskUsage") then ["0GB"; "100GB"]
  else if decide (k = "memoryUsage") then ["0MB"; "2048MB"]
  else if decide (k = "cpuUsage") then ["0%"; "12%"]
  else if decide (k = "activeUsers") then ["0"; "5"]
  else if decide (k = "queriesPerSec") then ["0"; "100"]
  else [].

Definition constant_metrics (c : Console) : Prop :=
  forall k v, metrics c !! k = Some v -> k = "uptime" \/ v ∈ figures k.

Ltac constant_figure := first [by left | right; apply list_elem_of_In; vm_compute; by auto].

Lemma updateMetrics_constant up c : constant_metrics c -> constant_metrics (updateMetrics up c).
Proof.
  intros Hc k v. unfold updateMetrics. cbn [metrics]. rewrite !lookup_insert_Some.
  intros H. repeat (destruct H as [[<- <-]|[_ H]]; [constant_figure|]). exact (Hc k v H).
Qed.

Lemma serve_constant names entries i c c' r :
  serve names entries i c = (c', r) -> constant_metrics c -> constant_metrics c'.
Proof.
  unfold serve. destruct (exited c); [by intros [= <- _]|]. destruct i as [m p q|up].
  - intros H Hc. repeat case_decide; simplify_eq; try done.
    + destruct (userHandler m q names c) as [c1 r1] eqn:Hh. simplify_eq. unfold userHandler in Hh.
      repeat case_decide; simplify_eq; done.
    + unfold shutdownHandler in H. simplify_eq. done.
  - intros [= <- _]. apply updateMetrics_constant.
Qed.

Lemma metrics_are_constants is_ rs c :
  served (initializeConsole console_start) is_ rs c -> constant_metrics c.
Proof.
  assert (Hstart : constant_metrics (initializeConsole console_start)).
  { intros k v. cbn [initializeConsole console_start metrics]. rewrite !lookup_insert_Some. intros H.
    repeat (destruct H as [[<- <-]|[_ H]]; [constant_figure|]). by rewrite lookup_empty in H. }
  revert Hstart. generalize (initializeConsole console_start). intros c0 Hc Hs. revert Hc.
  induction Hs; [done|]. eauto using serve_constant.
Qed.
