(* ===== verification/Dashboard.v ===== *)
(** * The dashboard ([management_tools/monitoring/dashboard/dashboard_setup.go])

    The set-up of the dashboard, the handler of its page, and the goroutines that start and stop its
    server under its mutex.  What a server of [net/http] does is the step that ends its serving. *)

From S2P Require Import Prelude Text.
Local Open Scope Z_scope.

(** [mu] names the goroutine that holds the mutex.  [server] is whether the field is set, [shut] whether
    [Shutdown] was called on that server. *)
Record Dashboard : Type := MkDashboard {
  mu : option nat; server : bool; shut : bool; templates : bool
}.

(** The patterns of [http.DefaultServeMux]; registering one twice panics. *)
Definition HandleFunc (pattern : string) (mux : list string) : outcome (list string) :=
  if decide (pattern ∈ mux) then Throw (runtime_error ("http: multiple registrations for " +:+ pattern))
  else Ret (pattern :: mux).

(** The two metrics go into a registry of their own, so that registering them cannot fail. *)
Definition setupDefaultMetrics (mux : list string) : outcome (list string) := HandleFunc "/" mux.

Definition NewDashboard (mux : list string) : outcome (Dashboard * list string) :=
  mux ← setupDefaultMetrics mux; Ret (MkDashboard None false false false, mux).

(** The page: [exists_] is whether the file is there, [renders] whether the template executes.  A template
    that was never parsed is a nil pointer. *)
Definition dashboardHandler (exists_ renders : bool) (d : Dashboard) : outcome (Z * string) :=
  if exists_ then
    if templates d then
      if renders then Ret (200, "dashboard.html") else Ret (500, "Failed to render template")
    else Throw (runtime_error "invalid memory address or nil pointer dereference")
  else Ret (500, "Dashboard template not found").

(** ** Goroutines *)

(** Where a goroutine is: in [RenderDashboard] before it has parsed the template, or before its lock; in
    [Start] before its lock, or in [ListenAndServe], called by [RenderDashboard] or not; in [Stop] before
    its lock, or in [Shutdown]; returned, with the error; or in [log.Fatal]. *)
Inductive pc : Type :=
| RenderParse | RenderLock
| StartLock (render : bool) | Serving (render : bool)
| StopLock | Stopping
| Done (error : option string)
| Fatal (text : string).

(** The steps of goroutine [i]; [fails] is the error with which reading the template, or listening and
    serving, ends on its own.  [None]: it has to wait, or has returned. *)
Definition ParseFiles (fails : option string) (d : Dashboard) : option (Dashboard * pc) :=
  match fails with
  | Some e => Some (d, Fatal ("Error loading template files:" +:+ e))
  | None => Some (d, RenderLock)
  end.

Definition RenderDashboard (d : Dashboard) : option (Dashboard * pc) :=
  match mu d with
  | None => Some (MkDashboard None (server d) (shut d) true, StartLock true)
  | Some _ => None
  end.

(** [Start] keeps the mutex until [ListenAndServe] has returned. *)
Definition Start (i : nat) (render : bool) (d : Dashboard) : option (Dashboard * pc) :=
  match mu d with
  | None => Some (MkDashboard (Some i) true false (templates d), Serving render)
  | Some _ => None
  end.

(** Its error is returned; [RenderDashboard] ends the process with it. *)
Definition ListenAndServe (fails : option string) (render : bool) (d : Dashboard) : option (Dashboard * pc) :=
  match (if shut d then Some "http: Server closed" else fails) with
  | None => None
  | Some e => Some (MkDashboard None (server d) (shut d) (templates d),
               if render then Fatal ("Failed to start dashboard server:" +:+ e) else Done (Some e))
  end.

Definition Stop (i : nat) (d : Dashboard) : option (Dashboard * pc) :=
  match mu d with
  | Some _ => None
  | None =>
      if server d then Some (MkDashboard (Some i) true (shut d) (templates d), Stopping)
      else Some (d, Done None)
  end.

Definition Shutdown (d : Dashboard) : Dashboard * pc :=
  (MkDashboard None (server d) true (templates d), Done None).

Definition advance (i : nat) (fails : option string) (p : pc) (d : Dashboard) : option (Dashboard * pc) :=
  match p with
  | RenderParse => ParseFiles fails d
  | RenderLock => RenderDashboard d
  | StartLock r => Start i r d
  | Serving r => ListenAndServe fails r d
  | StopLock => Stop i d
  | Stopping => Some (Shutdown d)
  | Done _ | Fatal _ => None
  end.

Record world : Type := MkWorld { dashboard : Dashboard; threads : list pc }.

(** Whether [log.Fatal] has ended the process. *)
Definition process_ended (ps : list pc) : bool := existsb (fun p => match p with Fatal _ => true | _ => false end) ps.

Inductive step (i : nat) : world -> world -> Prop :=
| goes fails d ps p d' p' :
    process_ended ps = false -> ps !! i = Some p -> advance i fails p d = Some (d', p') ->
    step i (MkWorld d ps) (MkWorld d' (<[i := p']> ps)).

Definition any_step (w w' : world) : Prop := exists i, step i w w'.

(** ** The mutex *)

Definition in_section (p : pc) : bool := match p with Serving _ | Stopping => true | _ => false end.

Record dash_inv (w : world) : Prop := {
  di_mu : forall i p, threads w !! i = Some p -> in_section p = bool_decide (mu (dashboard w) = Some i);
  di_shut : forall i r, threads w !! i = Some (Serving r) -> shut (dashboard w) = false
}.

(** A step of goroutine [i] that changes the dashboard takes the mutex when it is free, or gives it
    back. *)
Lemma advance_mutex i fails p d d' p' :
  advance i fails p d = Some (d', p') -> in_section p = bool_decide (mu d = Some i) ->
  in_section p' = bool_decide (mu d' = Some i) /\
  (d' = d \/ (mu d' = None \/ mu d' = Some i) /\ (mu d = None \/ mu d = Some i)) /\
  (forall r, p' = Serving r -> shut d' = false) /\ (p = StopLock -> mu d = None).
Proof.
  destruct d as [m sv sh te].
  unfold advance, ParseFiles, RenderDashboard, Start, ListenAndServe, Stop, Shutdown. cbn.
  intros Ha Hm. destruct p as [| |r|r| | | |]; cbn in *.
  - destruct fails; simplify_eq; cbn; naive_solver.
  - destruct m; simplify_eq. cbn. naive_solver.
  - destruct m; simplify_eq. cbn. rewrite bool_decide_eq_true_2 by done. naive_solver.
  - symmetry in Hm. apply bool_decide_eq_true_1 in Hm. subst m.
    destruct (if sh then _ else _); simplify_eq. destruct r; cbn; naive_solver.
  - destruct m; [done|]. destruct sv; simplify_eq; cbn; [rewrite bool_decide_eq_true_2 by done|]; naive_solver.
  - symmetry in Hm. apply bool_decide_eq_true_1 in Hm. subst m. simplify_eq. cbn. naive_solver.
  - done.
  - done.
Qed.

Lemma dash_inv_step i w w' : dash_inv w -> step i w w' -> dash_inv w'.
Proof.
  intros Hw Hst. destruct Hst as [fails d ps p d' p' _ Hp Ha]. destruct Hw as [Hm Hs]. cbn in *.
  assert (Hi : (i < length ps)%nat) by (by eapply lookup_lt_Some).
  destruct (advance_mutex _ _ _ _ _ _ Ha (Hm i p Hp)) as (Hk1 & Hk2 & Hk3 & _). split; cbn.
  - intros j q Hq. destruct (decide (j = i)) as [->|Hj].
    + rewrite list_lookup_insert_eq in Hq by done. by simplify_eq.
    + rewrite list_lookup_insert_ne in Hq by done. rewrite (Hm j q Hq). apply bool_decide_ext.
      destruct Hk2 as [-> |[[-> | ->] [-> | ->]]]; split; congruence.
  - intros j r Hq. destruct (decide (j = i)) as [->|Hj].
    + rewrite list_lookup_insert_eq in Hq by done. simplify_eq. by eapply Hk3.
    + rewrite list_lookup_insert_ne in Hq by done. pose proof (Hm j _ Hq) as Hx. symmetry in Hx.
      apply bool_decide_eq_true_1 in Hx. destruct Hk2 as [-> |[_ [?|?]]]; [by eapply Hs|congruence..].
Qed.

(** Goroutines that are about to call the functions of a new dashboard. *)
Definition about_to_call (p : pc) : Prop := p = RenderParse \/ p = StartLock false \/ p = StopLock.
Definition fresh (ps : list pc) : Prop := Forall about_to_call ps.

Definition new_world (ps : list pc) : world := MkWorld (MkDashboard None false false false) ps.

Lemma dash_inv_reachable ps w : fresh ps -> rtc any_step (new_world ps) w -> dash_inv w.
Proof.
  intros Hf Hr. assert (Hi : dash_inv (new_world ps)).
  { split; cbn.
    - intros i p Hp. by destruct (Forall_lookup_1 _ _ _ _ Hf Hp) as [->|[->| ->]].
    - intros i r Hp. by destruct (Forall_lookup_1 _ _ _ _ Hf Hp) as [|[|]]. }
  clear Hf. revert Hi. induction Hr as [|w1 w2 w3 [i H12] _ IH]; [done|]. eauto using dash_inv_step.
Qed.

(** [Stop] never stops a server that serves: while one goroutine is in [ListenAndServe], no other changes
    the dashboard, a goroutine that wants to stop it waits, [Shutdown] has not been called on the
    server, and serving ends only when it fails on its own. *)
Lemma dashboard_stop_waits ps w i r :
  fresh ps -> rtc any_step (new_world ps) w -> threads w !! i = Some (Serving r) ->
  shut (dashboard w) = false /\
  (forall j w', j ≠ i -> step j w w' -> dashboard w' = dashboard w /\ threads w' !! i = Some (Serving r)) /\
  (forall j w', threads w !! j = Some StopLock -> ~ step j w w') /\
  advance i None (Serving r) (dashboard w) = None.
Proof.
  intros Hf Hr Hi. destruct (dash_inv_reachable ps w Hf Hr) as [Hm Hs].
  pose proof (Hs i r Hi) as Hsh. split; [done|].
  pose proof (Hm i _ Hi) as Hx. symmetry in Hx. apply bool_decide_eq_true_1 in Hx. split; [|split].
  - intros j w' Hj Hst. destruct Hst as [fails d ps' p d' p' _ Hp Ha]. cbn in *.
    rewrite list_lookup_insert_ne by done. split; [|done].
    destruct (advance_mutex _ _ _ _ _ _ Ha (Hm j p Hp)) as (_ & [?|[_ [?|?]]] & _); congruence.
  - intros j w' Hj Hst. destruct Hst as [fails d ps' p d' p' _ Hp Ha]. cbn in *.
    destruct (advance_mutex _ _ _ _ _ _ Ha (Hm j p Hp)) as (_ & _ & _ & Hstop).
    rewrite Hp in Hj. simplify_eq. rewrite Hstop in Hx; done.
  - unfold advance, ListenAndServe. by rewrite Hsh.
Qed.

(** One goroutine renders and serves, another wants to stop it. *)
Definition serving_world : world := MkWorld (MkDashboard (Some 0%nat) true false true) [Serving true; StopLock].

Lemma dashboard_stop_waits_witness : forall w', ~ step 1 serving_world w'.
Proof.
  assert (Hr : rtc any_step (new_world [RenderParse; StopLock]) serving_world).
  { do 3 (eapply rtc_l; [exists 0%nat; by eapply (goes 0 None)|]). apply rtc_refl. }
  destruct (dashboard_stop_waits [RenderParse; StopLock] serving_world 0 true) as (_ & _ & H & _);
    [constructor 2; [by left|constructor 2; [by right; right|constructor 1]]|exact Hr|reflexivity|].
  intros w'. by apply H.
Defined.

(** [main] renders and serves until listening fails, which ends the process before [Stop]. *)
Lemma render_never_returns i fails d d' p' :
  advance i fails (Serving true) d = Some (d', p') -> exists text, p' = Fatal text.
Proof. cbn. unfold ListenAndServe. destruct (if shut d then _ else _); intros; simplify_eq; eauto. Qed.

(** A second dashboard in the process panics. *)
Example second_dashboard_panics :
  (x ← NewDashboard []; NewDashboard x.2) = Throw (runtime_error "http: multiple registrations for /").
Proof. reflexivity. Qed.
